(* ===== verification/_CoqProject ===== *)
-Q . S2P
Prelude.v
Ast.v
CharBuffer.v
StreamBuffer.v
Lexer.v
Parser.v
ParserSim.v
LexSpec.v
LexerCorrect.v
Grammar.v
ParserCorrect.v
ParserComplete.v
Origins.v
AstPrint.v
WellFormed.v
Happy.v
HappyTheorems.v
Message.v
Framing.v
MessageQueue.v
ErrorCode.v
Config.v
InfoTree.v
ConfigTheorems.v
ClusterConnection.v
ClusterReceive.v
ClusterInvariant.v
ClusterFrame.v
ClusterSend.v
ClusterWriter.v
ClusterStart.v
ClusterClosing.v
ClusterTheorems.v
WsConnection.v
WsInvariant.v
WsLife.v
WsClock.v
WsRefused.v
WsSend.v
WsSafe.v
WsRate.v
WsReceive.v
WsClosing.v
WsTheorems.v
AsioPool.v
FrontMain.v
MainInvariant.v
FrontMainTheorems.v
FrontReload.v
Acceptor.v
ClusterAcceptor.v
WsAcceptor.v
Front.v
FrontInvariant.v
FrontTheorems.v
FrontFull.v
WsListening.v
FrontRefinement.v
ClusterWatcher.v
AcceptorTheorems.v
Ssl.v
Cluster.v
FrontStart.v
StartTheorems.v
FrontGlobals.v
FrontProcess.v
FrontProcessTheorems.v
ClusterProcess.v
WsProcess.v
