(* ===== verification/Prelude.v ===== *)
(** * IAN: a verification development

    IAN is a game-server engine in C++. Two programs of the repository carry logic of their
    own: [happy], the tool under [tools/happy/] that parses the data-definition language of
    the engine and prints it back, and the front server under [server/], which talks to
    other servers and to browsers over TLS. This library models both: of the servers the
    messages, their queue, the two kinds of connection, the acceptors and the watcher that
    make them, the configuration, the thread pool, and the start-up and the main loop that
    put them together.

    ** The parts, and the files that model them

    The tool ([tools/happy/src/]):
    - [Ast]: the node classes of [Ast.hpp], a record or a constructor each, with the
      [origin] every node inherits; [erase_root] forgets origins.
    - [CharBuffer], [StreamBuffer]: how the parser sees its input. [CharBuffer] is the
      interface (peek ahead, skip, trim), with a plain byte string as its specification;
      [StreamBuffer] is [Parser::peek_at] and [Parser::trim_opportunity] with the fields
      [buffer_], [tmp_buffer_] and [buffer_offset_], over any [StreamReader]. It also has
      the reader of [Main.cpp] over a C [FILE], and one that hands out given chunks.
    - [Lexer], [Parser]: every operation of [Parser.cpp], one definition each, generic in
      the buffer. The lengths of literals, [int]s in the code, are counted with [incr], which
      throws [SignedOverflow] where [++len] would overflow. [Parser.parse] is [Parser::parse] over a reader, [Parser.parse_input] the
      same code over the specification of the buffer.
    - [LexSpec], [Grammar]: the reference. A pure lexer on byte strings ([next_token],
      [token_stream]) and the grammar of the language, a relation per construct
      ([derives_document]).
    - [ParserSim]: runs over related buffers give the same results; with it [Happy] carries
      every theorem from the byte string to the stream, and shows that fuel is irrelevant.
    - [LexerCorrect], [ParserCorrect], [ParserComplete]: the lexer computes the reference
      lexer and keeps the position, the parser is sound and complete for the grammar.
    - [Origins]: where the nodes of a tree are in the document, and that the parser gives
      them that origin. [WellFormed]: the invariant of the trees the tool builds.
    - [AstPrint]: the [operator <<] overloads of [AstPrint.hpp], and how their output lexes.
    - [Happy], [HappyTheorems]: [main] of [Main.cpp], and the properties of the tool.

    The servers ([server/common/]):
    - [Message], [Framing]: [Message.hpp] and [Message.cpp]; the frame (32-bit little-endian
      size, then the payload) that [ClusterConnection] puts a message in, and that a byte
      stream can be read as frames in one way only.
    - [MessageQueue]: [MessageQueue.cpp], refined to a list.
    - [ErrorCode]: the two classifiers of completion errors. The error constants of
      Boost.Asio and OpenSSL are a class, [AsioErrors]; every theorem holds for any values
      of them.
    - [ClusterConnection]: [ClusterConnection.cpp]. A [world] is the object, whether its
      socket is open, the tasks posted to its strand, the asynchronous operations started
      and not completed, and the trace of what it did. Each handler is an operation on
      worlds; a [label] is what the environment does next (a call, a posted task, or the
      completion of a pending operation with any error code and any bytes), [fire] runs it,
      and [steps] are sequences of labels.
    - [ClusterReceive], [ClusterInvariant], [ClusterFrame], [ClusterSend], [ClusterWriter],
      [ClusterStart], [ClusterClosing], [ClusterTheorems]: the two directions, the invariant
      under every order of completions, what the handlers preserve when their parts do, that
      the writer does not stop, the beginning and the end of a connection, and the
      properties. As the handshake message of the code is still to be written, a connection
      as the code makes it faults when its TLS handshake ends (C16); [construct_with] is the
      constructor with a message in that place, so that what comes after can be stated of
      runs from the constructor on.
    - [Config]: [config/]: the tree read from the file ([PropertyTree], a class for
      [boost::property_tree]), the values that follow it, and the registry that updates
      them under its mutex; the objects of the program are a finite map by address.
      [InfoTree] is a concrete tree, for the witnesses; [ConfigTheorems] has the invariant.
    - [AsioPool]: [AsioPool.cpp]; [run] is cut into steps ([run_step]).
    - [Acceptor]: what the two acceptors share, a socket of Boost.Asio that is opened with
      the values of a group. [ClusterAcceptor], [ClusterWatcher]: [ClusterAcceptor.cpp]
      and [ClusterWatcher.cpp], whose handlers make connections of [ClusterConnection].
      [AcceptorTheorems] and [ClusterWatcher] have the properties.
    - [Ssl]: the calls of [Ssl.cpp] on a TLS context. [Cluster]: [cluster::init] of
      [Cluster.cpp], over the pool, the configuration, the acceptors and the watchers.

    The front server ([server/front/]):
    - [WsConnection]: [ws/WsConnection.cpp], in the same style as [ClusterConnection]; the
      [world] also has the clock, the expiry of the two timers and the shared count of
      connections. The limits and timeouts it reads are a class, [FrontConfig]. [int]
      additions throw [IntOverflow] where the code would overflow. The control frames of the
      WebSocket reach no label, as the call that sets their handler is commented out.
      [WsInvariant], [WsSend]: its writer; [WsSafe]: that it does not fault; [WsLife]: what
      its handlers preserve when their parts do, its timeouts and its end; [WsClock]: time,
      and what a timer of Asio promises ([asio_steps]); [WsRefused]: the answers to requests,
      and a client that does not answer a shutdown; [WsRate]: the rate limiter; [WsReceive]:
      what comes from the client; [WsClosing]: how it goes away; [WsTheorems]: the other
      properties.
    - [FrontGlobals]: the eight static objects of [FrontGlobals.cpp], values of [Config] at
      fixed addresses, and the [FrontConfig] that reading them gives.
    - [WsAcceptor]: [ws/WsAcceptor.cpp]. [Front]: the acceptors and the connections of one
      process, which share the count; every handler of any of them is a step, and so is the
      destruction of a connection nothing refers to. [FrontInvariant], [FrontTheorems];
      [WsListening]: when the acceptors listen; [FrontFull]: a server that stays full;
      [FrontRefinement]: what each connection goes through is a run of [WsConnection].
    - [FrontMain]: the loop of [Main.cpp] and its signal handlers, one step at a time, over
      [AsioPool] and [Config]; [MainInvariant], [FrontMainTheorems], [FrontReload].
    - [FrontStart]: [main] up to its loop, over [Config], [AsioPool], [Cluster] and
      [WsAcceptor]; [StartTheorems].
    - [FrontProcess]: all of it as one process. Its state is the main thread with the pool
      and the configuration ([FrontMain]), the acceptors and connections of browsers
      ([Front]), and the acceptors and watchers of the cluster with their connections; a step
      is one of the main thread, of a signal handler or of a thread that leaves the pool, or
      a handler, which runs only while its instance of the pool has a thread, and reads the
      tree and the limits of the moment. [boots] is the start, from the static objects on.
      [FrontProcessTheorems] and [WsProcess] carry the invariants of the parts over to it,
      and [ClusterProcess] the runs of [ClusterConnection].

    ** What the theorems show

    - The tool: it accepts exactly the grammar and returns the tree (C1), which is well
      formed (C2) and whose nodes carry the position of their text (C3), whatever the chunks
      of the stream, which it never reads past what it has (C4); the errors it can throw,
      with their positions (C5); that it stops on every stream (C6), and a literal that no
      end of the stream stops (C7); the printer against the parser (C8), which takes back
      what has no struct, and rejects a struct at its keyword; integer literals (C9); the exit code and the output of the process (C10). [parse_more_fuel]:
      a result does not depend on the fuel.
    - The queue is a FIFO with an exact byte count (C11).
    - The connection between servers: reception in any chunks (C12); no two writes at once,
      from stable buffers, under every interleaving from [run] on (C13); messages leave in
      order and the writer does not stop (C14), and arrive (C15); that in the process none
      gets past its TLS handshake (C16), as [handshake_faults] shows of one connection; and
      its end, after which only the handshake message may still be written (C17).
      Other theorems without a number are about the invariant of every step, the header of a
      frame, a bad size, the outcome of an error ([error_outcome]), and the handshake of the
      peer.
    - The connection to a browser: what a client gets through in a second (C18), all of it
      whole and in order (C19), the end of one that is refused (C20); one write at a time (C21); no
      handler of any connection faults in the life of the process, reloads included (C22;
      [ws_never_faults] for one connection), and what holds of a connection holds of all
      those of a server, whatever the order of their handlers (C23); messages leave in order
      and the writer does not stop (C24); the timeout that is always there (C25), and cuts
      off no client that is heard in time (C26); and the end, after which no message is
      written (C27), of which the connection goes away (C28), and which silent clients can put
      off for ever, until the server is full (C29). [rate_limit_kill], [read_delivers], [request_answer]: single handlers.
      [queued_timeout_drops], [canceled_write_stops]: two runs that these theorems leave out.
    - The acceptors of browsers close at the limit and open again below it (C30).
    - The configuration: every value that lives agrees with the tree, and no registered
      listener is dead (C31); the limits of the front server are those of the last file that
      was read (C32). [sections_read]: sections and keys.
    - The front server: what its start makes (C33); the pool starts the configured number of
      threads (C34). As one process: its handlers read the configuration whole, and never
      while it is loaded (C35), and its connections stay counted and bounded across reloads
      (C36). A reload takes effect (C37), a signal to stop ends the process (C38), except in
      one window (C39). [exit_code]; [connections_bounded], the bound for one configuration.
    - The cluster: a watcher holds one link (C40). Of its acceptor, [listens_and_accepts], and
      what happens when it cannot open: [failed_bind_spins], [reuse_addr_never_opens].

    ** Fuel

    A loop or a recursion of the source that is not structural takes [fuel]. For the parser
    the theorems that need it ask for more fuel than the stream has bytes. That is enough for
    every loop but that of a string literal, which nothing but its delimiter ends: it stops
    at the latest when its [int] length overflows, so that more fuel than [int_max], and than
    the stream has bytes, is enough for every stream (C6). [parse_more_fuel] shows that fuel
    does not matter otherwise. [StreamBuffer.peek_at] and [ClusterConnection.on_read_loop]
    compute their own fuel, and never run out of it ([peek_at_spec], [on_read_loop_spec]).
    The servers have no other fuel: what may go on for ever is a sequence of steps.

    ** What is not modelled

    Integers: [line] and [column] are [int] in the code and unbounded here; C3 and C5 bound
    them by the size of the input, so they do not overflow on streams below 2 GiB. Memory is
    not modelled: no allocation fails, not even that of the 2 GiB of zeros that a literal
    that is not closed collects before its length overflows; [unique_ptr] ownership is left out, and that of [shared_ptr] is what pending
    handlers hold, from which it follows when a connection is destroyed. The sockets, TLS,
    the strand, the timers and the clock are the environment; log lines are left out, but
    for the calls in their arguments that can throw.

    Threads: handlers of one connection run one at a time, as its strand makes them, and a
    handler of an acceptor is one step although the threads of the pool could run two
    handlers of different objects at once; so the count of connections, an atomic, is never
    read in the middle of another handler. A signal handler runs between two steps of the
    main thread. No two threads are inside the configuration's registry at once; that no
    handler reads a value while the main thread writes it is C35.

    [Log.hpp], [EasyProfiler.hpp] and [Platform.cpp] are macros over other libraries and
    calls of the system. [Client] has no operation. The game, master and node servers are
    empty; the web client is JavaScript.

    This file holds what the others share: bytes, the state and error monad, its weakest
    preconditions and its simulations. *)
From Stdlib Require Export Ascii ZArith Lia.
From Stdlib Require String.
From stdpp Require Export prelude strings list.

Open Scope Z_scope.
#[global] Arguments Nat.min : simpl never.
#[global] Arguments Nat.max : simpl never.

(** ** Bytes *)

(** A [std::string] or a [std::vector<char>] is the list of its bytes. *)
Abbreviation bytes := (list ascii).

(** The bytes of a C string literal. *)
Definition str (s : string) : bytes := String.list_ascii_of_string s.

(** The byte [peek_at] answers with at the end of the stream. *)
Definition NUL : ascii := "000"%char.

(** The numeric value of a byte, for the range tests of the lexer. *)
Definition code (c : ascii) : Z := Z.of_N (N_of_ascii c).

(** The largest [int]. *)
Definition int_max : Z := 2 ^ 31 - 1.

(** ** A state and error monad

    A stateful operation either returns a value in a new state, throws, or
    exhausts the fuel given to its loops. *)
Inductive outcome (E S A : Type) : Type :=
| Ok (a : A) (s : S)
| Err (e : E)
| Fuel.
Arguments Ok {E S A} a s.
Arguments Err {E S A} e.
Arguments Fuel {E S A}.

Definition M (E S A : Type) : Type := S -> outcome E S A.

#[export] Instance M_ret {E S} : MRet (M E S) := fun A a s => Ok a s.

#[export] Instance M_fmap {E S} : FMap (M E S) := fun A B f m s =>
  match m s with
  | Ok a s' => Ok (f a) s'
  | Err e => Err e
  | Fuel => Fuel
  end.

#[export] Instance M_bind {E S} : MBind (M E S) := fun A B k m s =>
  match m s with
  | Ok a s' => k a s'
  | Err e => Err e
  | Fuel => Fuel
  end.

Lemma bind_Ok {E S A B} (m : M E S A) (k : A -> M E S B) s a s' :
  m s = Ok a s' -> (m ≫= k) s = k a s'.
Proof. intros Hm. unfold mbind, M_bind. by rewrite Hm. Qed.

Definition throw {E S A} (e : E) : M E S A := fun _ => Err e.
Definition diverge {E S A} : M E S A := fun _ => Fuel.
Definition get {E S} : M E S S := fun s => Ok s s.
Definition gets {E S A} (f : S -> A) : M E S A := fun s => Ok (f s) s.
Definition modify {E S} (f : S -> S) : M E S unit := fun s => Ok tt (f s).

(** A C++ loop whose body either goes round again with new locals ([inl]) or
    leaves the loop with a value ([inr]). *)
Fixpoint loop {E S A B} (fuel : nat) (body : A -> M E S (A + B)) (a : A) : M E S B :=
  match fuel with
  | O => diverge
  | S fuel' =>
      r ← body a;
      match r with
      | inl a' => loop fuel' body a'
      | inr b => mret b
      end
  end.

(** [for (i = from; i < from + n; ++i) body(i)] *)
Fixpoint for_each {E S} (from n : nat) (body : nat -> M E S unit) : M E S unit :=
  match n with
  | O => mret tt
  | S n' => body from;; for_each (Datatypes.S from) n' body
  end.

(** [for (x : l) body(x)] *)
Fixpoint each {E S A} (body : A -> M E S unit) (l : list A) : M E S unit :=
  match l with
  | [] => mret tt
  | x :: l' => body x;; each body l'
  end.

(** ** Bags of pending operations

    The first occurrence of an operation that completes is taken off the list. *)
Fixpoint remove_one `{EqDecision A} (x : A) (l : list A) : list A :=
  match l with
  | [] => []
  | y :: l' => if decide (y = x) then l' else y :: remove_one x l'
  end.

Lemma remove_one_in `{EqDecision A} (x y : A) l : y ∈ remove_one x l -> y ∈ l.
Proof.
  induction l as [|z l IH]; simpl; [done|]. case_decide; [by right|].
  intros [->|?]%elem_of_cons; [by left|]. right. auto.
Qed.

Lemma remove_one_notin `{EqDecision A} (x : A) l : x ∉ l -> remove_one x l = l.
Proof.
  induction l as [|y l IH]; simpl; [done|]. intros [Hy Hl]%not_elem_of_cons.
  rewrite decide_False by done. by rewrite IH.
Qed.

Lemma remove_one_other `{EqDecision A} (x y : A) l : x <> y -> y ∈ l -> y ∈ remove_one x l.
Proof.
  intros Hne. induction l as [|z l IH]; simpl; [done|]. rewrite elem_of_cons.
  case_decide; [intros [?|?]; [congruence|done]|].
  intros [->|?]; [by left|right; auto].
Qed.

Lemma remove_one_count `{EqDecision A} (p : A -> bool) x l :
  x ∈ l ->
  (length (filter (fun y => p y) (remove_one x l)) + (if p x then 1 else 0) =
   length (filter (fun y => p y) l))%nat.
Proof.
  induction l as [|y l IH]; [by intros ?%elem_of_nil|].
  simpl. intros Hin. case_decide as Hy; simpl.
  - subst y. rewrite filter_cons. destruct (p x); simpl; lia.
  - apply elem_of_cons in Hin as [->|Hin]; [done|]. rewrite !filter_cons.
    specialize (IH Hin). destruct (p y); simpl; lia.
Qed.

Lemma remove_one_all `{EqDecision A} (P : A -> Prop) x l :
  Forall P l -> Forall P (remove_one x l).
Proof. rewrite !Forall_forall. intros HP y Hy%remove_one_in. auto. Qed.

(** ** Weakest preconditions

    [wp m s Q E D]: running [m] from [s] gives a value and a state in [Q], or throws
    an error in [E], or (only when [D] holds) runs out of fuel. *)
Definition wp {E S A} (m : M E S A) (s : S) (Q : A -> S -> Prop) (X : E -> Prop) (D : Prop)
    : Prop :=
  match m s with
  | Ok a s' => Q a s'
  | Err e => X e
  | Fuel => D
  end.

Section wp.
Context {E S : Type}.

Lemma wp_mono {A} (m : M E S A) s (Q Q' : A -> S -> Prop) (X X' : E -> Prop) (D D' : Prop) :
  wp m s Q X D -> (forall a s', Q a s' -> Q' a s') -> (forall e, X e -> X' e) -> (D -> D') ->
  wp m s Q' X' D'.
Proof. unfold wp. destruct (m s); auto. Qed.

Lemma wp_ret {A} (a : A) (s : S) (Q : A -> S -> Prop) (X : E -> Prop) D :
  Q a s -> wp (mret a) s Q X D.
Proof. done. Qed.

Lemma wp_throw {A} (e : E) (s : S) (Q : A -> S -> Prop) (X : E -> Prop) D :
  X e -> wp (throw e) s Q X D.
Proof. done. Qed.

Lemma wp_gets {A} (f : S -> A) (s : S) (Q : A -> S -> Prop) (X : E -> Prop) D :
  Q (f s) s -> wp (gets f) s Q X D.
Proof. done. Qed.

Lemma wp_bind {A B} (m : M E S A) (k : A -> M E S B) s Q X D :
  wp m s (fun a s' => wp (k a) s' Q X D) X D -> wp (m ≫= k) s Q X D.
Proof. unfold wp, mbind, M_bind. destruct (m s); auto. Qed.

Lemma wp_fmap {A B} (f : A -> B) (m : M E S A) s Q X D :
  wp m s (fun a s' => Q (f a) s') X D -> wp (f <$> m) s Q X D.
Proof. unfold wp, fmap, M_fmap. destruct (m s); auto. Qed.

(** A loop with an invariant [I] whose rounds decrease [measure] needs no more fuel
    than the measure at its start. *)
Lemma wp_loop {A B} (I : A -> S -> Prop) (measure : A -> S -> nat)
    (body : A -> M E S (A + B)) (Q : B -> S -> Prop) (X : E -> Prop) (D : Prop) :
  (forall a s, I a s ->
     wp (body a) s
       (fun r s' => match r with
                    | inl a' => I a' s' /\ (measure a' s' < measure a s)%nat
                    | inr b => Q b s'
                    end) X D) ->
  forall fuel a s, I a s -> (measure a s < fuel)%nat -> wp (loop fuel body a) s Q X D.
Proof.
  intros Hbody fuel. induction fuel as [|fuel IH]; intros a s HI Hfuel; [lia|].
  simpl. apply wp_bind. eapply wp_mono; [by apply Hbody|..]; [|done..].
  intros [a'|b] s'; simpl; [|done]. intros [??]. apply IH; [done|lia].
Qed.

(** Where running out of fuel is no fault, a loop needs an invariant only. *)
Lemma wp_loop_partial {A B} (I : A -> S -> Prop) (body : A -> M E S (A + B))
    (Q : B -> S -> Prop) (X : E -> Prop) :
  (forall a s, I a s ->
     wp (body a) s (fun r s' => match r with inl a' => I a' s' | inr b => Q b s' end) X True) ->
  forall fuel a s, I a s -> wp (loop fuel body a) s Q X True.
Proof.
  intros Hbody fuel. induction fuel as [|fuel IH]; intros a s HI; [done|].
  simpl. apply wp_bind. eapply wp_mono; [by apply Hbody| |done|done].
  intros [a'|b] s'; simpl; [apply IH|done].
Qed.

(** A loop that always goes round again runs out of any fuel. *)
Lemma wp_loop_forever {A B} (I : A -> S -> Prop) (body : A -> M E S (A + B)) :
  (forall a s, I a s ->
     wp (body a) s (fun r s' => exists a', r = inl a' /\ I a' s') (fun _ => False) True) ->
  forall fuel a s, I a s -> wp (loop fuel body a) s (fun _ _ => False) (fun _ => False) True.
Proof.
  intros Hbody fuel. induction fuel as [|fuel IH]; intros a s HI; [done|].
  simpl. apply wp_bind. eapply wp_mono; [by apply Hbody| |done|done].
  simpl. intros r s' (a' & -> & ?). by apply IH.
Qed.

Lemma wp_for_each (I : nat -> S -> Prop) (body : nat -> M E S unit) X D :
  forall n from s,
  I from s ->
  (forall i s', (from <= i < from + n)%nat -> I i s' ->
     wp (body i) s' (fun _ => I (Datatypes.S i)) X D) ->
  wp (for_each from n body) s (fun _ => I (from + n)%nat) X D.
Proof.
  induction n as [|n IH]; intros from s HI Hbody; simpl.
  - apply wp_ret. by rewrite Nat.add_0_r.
  - apply wp_bind. eapply wp_mono; [apply Hbody; [lia|done]|..]; [|done..].
    intros [] s' HI'. replace (from + Datatypes.S n)%nat with (Datatypes.S from + n)%nat by lia.
    apply IH; [done|]. intros i s'' Hi. apply Hbody. lia.
Qed.
End wp.

(** ** Invariants of operations that return

    [preserves I m]: when [m] returns from a state in [I], it does so in one. *)
Definition preserves {E S A} (I : S -> Prop) (m : M E S A) : Prop :=
  forall s, I s -> wp m s (fun _ s' => I s') (fun _ => True) True.

Section preserves.
Context {E S : Type} (I : S -> Prop).

Lemma preserves_bind {A B} (m : M E S A) (k : A -> M E S B) :
  preserves I m -> (forall a, preserves I (k a)) -> preserves I (m ≫= k).
Proof.
  intros Hm Hk s Hs. apply wp_bind. eapply wp_mono; [by apply Hm| |done|done].
  intros a s'. apply Hk.
Qed.

Lemma preserves_ret {A} (a : A) : preserves I (mret a : M E S A).
Proof. by intros s Hs. Qed.
Lemma preserves_gets {A} (f : S -> A) : preserves I (gets f : M E S A).
Proof. by intros s Hs. Qed.
Lemma preserves_throw {A} (e : E) : preserves I (throw e : M E S A).
Proof. by intros s Hs. Qed.

Lemma preserves_loop {A B} (body : A -> M E S (A + B)) :
  (forall a, preserves I (body a)) -> forall fuel a, preserves I (loop fuel body a).
Proof.
  intros Hb fuel. induction fuel as [|fuel IH]; intros a; [by intros s Hs|].
  simpl. apply preserves_bind; [apply Hb|]. intros [a'|b]; [apply IH|apply preserves_ret].
Qed.

Lemma preserves_Ok {A} (m : M E S A) s a s' : preserves I m -> m s = Ok a s' -> I s -> I s'.
Proof. intros Hm Hrun Hs. specialize (Hm s Hs). unfold wp in Hm. by rewrite Hrun in Hm. Qed.
End preserves.

(** ** What an operation lets out

    Of a state that is [up], [out] is a sequence that only grows: [emits s m w], [m] run from
    [w] adds [s] to it if the state is still up afterwards, and then it was before;
    [quiet m], it adds nothing. *)
Section emits.
Context {E S X : Type} (up : S -> Prop) (out : S -> list X).

Definition emits {A} (s : list X) (m : M E S A) (w : S) : Prop :=
  wp m w (fun _ w' => up w' -> up w /\ out w' = out w ++ s) (fun _ => True) True.

Definition quiet {A} (m : M E S A) : Prop := forall w, emits [] m w.

Lemma emits_bind {A B} s1 s2 (m : M E S A) (k : A -> M E S B) w :
  wp m w (fun a w1 => (up w1 -> up w /\ out w1 = out w ++ s1) /\ emits s2 (k a) w1)
    (fun _ => True) True ->
  emits (s1 ++ s2) (m ≫= k) w.
Proof.
  intros Hm. apply wp_bind. eapply wp_mono; [exact Hm| |done|done].
  intros a w1 [H1 H2]. eapply wp_mono; [exact H2| |done|done].
  intros b w2 Hw2 Hup. destruct (Hw2 Hup) as [Hup1 ->]. destruct (H1 Hup1) as [? ->].
  by rewrite app_assoc.
Qed.

Lemma quiet_bind {A B} (m : M E S A) (k : A -> M E S B) :
  quiet m -> (forall a, quiet (k a)) -> quiet (m ≫= k).
Proof.
  intros Hm Hk w. apply (emits_bind [] []). eapply wp_mono; [apply Hm| |done|done].
  intros a w1 H1. split; [done|apply Hk].
Qed.

Lemma quiet_ret {A} (a : A) : quiet (mret a).
Proof. intros w Hup. by rewrite app_nil_r. Qed.
Lemma quiet_gets {A} (f : S -> A) : quiet (gets f).
Proof. intros w Hup. by rewrite app_nil_r. Qed.
Lemma quiet_throw {A} (e : E) : quiet (@throw E S A e).
Proof. done. Qed.

(** A change of the state that nothing of this sees. *)
Lemma quiet_modify (f : S -> S) :
  (forall w, up (f w) -> up w /\ out (f w) = out w) -> quiet (modify f).
Proof. intros Hf w Hup. rewrite app_nil_r. by apply Hf. Qed.

Lemma emits_modify (f : S -> S) {A} s (m : M E S A) w :
  (forall w, up (f w) -> up w /\ out (f w) = out w) -> emits s m (f w) ->
  emits s (modify f;; m) w.
Proof. intros Hf Hm. apply (emits_bind [] s). split; [apply (quiet_modify f Hf)|exact Hm]. Qed.

Lemma quiet_loop {A B} (body : A -> M E S (A + B)) :
  (forall a, quiet (body a)) -> forall fuel a, quiet (loop fuel body a).
Proof.
  intros Hb fuel. induction fuel as [|fuel IH]; intros a; [by intros w|].
  simpl. apply quiet_bind; [apply Hb|]. intros [a'|b]; [apply IH|apply quiet_ret].
Qed.
End emits.

(** ** Simulation of one run by another

    [sim PE PF R m1 m2]: from related states, [m2] ends as [m1] does, with related
    states; errors in [PE], and running out of fuel when [PF] holds, leave [m2] free. *)
Definition sim {E S1 S2 A} (PE : E -> Prop) (PF : Prop) (R : S1 -> S2 -> Prop)
    (m1 : M E S1 A) (m2 : M E S2 A) : Prop :=
  forall s1 s2, R s1 s2 ->
  match m1 s1 with
  | Ok a s1' => exists s2', m2 s2 = Ok a s2' /\ R s1' s2'
  | Err e => PE e \/ m2 s2 = Err e
  | Fuel => PF \/ m2 s2 = Fuel
  end.

Section sim.
Context {E S1 S2 : Type} (PE : E -> Prop) (PF : Prop) (R : S1 -> S2 -> Prop).
Abbreviation sim := (sim PE PF R).

Lemma sim_ret {A} (a : A) : sim (mret a) (mret a).
Proof. intros s1 s2 HR. simpl. by exists s2. Qed.

Lemma sim_throw {A} (e : E) : sim (@throw _ _ A e) (throw e).
Proof. intros s1 s2 HR. by right. Qed.

Lemma sim_diverge {A} : sim (@diverge _ _ A) diverge.
Proof. intros s1 s2 HR. by right. Qed.

Lemma sim_diverge_free {A} (m2 : M E S2 A) : PF -> sim diverge m2.
Proof. intros HF s1 s2 HR. by left. Qed.

Lemma sim_bind {A B} (m1 : M E S1 A) m2 (k1 : A -> M E S1 B) k2 :
  sim m1 m2 -> (forall a, sim (k1 a) (k2 a)) -> sim (m1 ≫= k1) (m2 ≫= k2).
Proof.
  intros Hm Hk s1 s2 HR. unfold mbind, M_bind. specialize (Hm s1 s2 HR).
  destruct (m1 s1) as [a s1'|e|].
  - destruct Hm as (s2' & -> & HR'). by apply Hk.
  - destruct Hm as [?| ->]; auto.
  - destruct Hm as [?| ->]; auto.
Qed.

Lemma sim_fmap {A B} (f : A -> B) (m1 : M E S1 A) m2 : sim m1 m2 -> sim (f <$> m1) (f <$> m2).
Proof.
  intros Hm s1 s2 HR. unfold fmap, M_fmap. specialize (Hm s1 s2 HR).
  destruct (m1 s1) as [a s1'|e|].
  - destruct Hm as (s2' & -> & HR'). eauto.
  - destruct Hm as [?| ->]; auto.
  - destruct Hm as [?| ->]; auto.
Qed.

(** The second run may have more fuel only where running out is excused. *)
Definition fuel_le (f1 f2 : nat) : Prop := f1 = f2 \/ (PF /\ (f1 <= f2)%nat).

Lemma sim_loop {A B} f1 f2 (b1 : A -> M E S1 (A + B)) b2 :
  fuel_le f1 f2 -> (forall a, sim (b1 a) (b2 a)) ->
  forall a, sim (loop f1 b1 a) (loop f2 b2 a).
Proof.
  intros Hf Hb. revert f2 Hf. induction f1 as [|f1 IH]; intros f2 Hf a.
  - destruct Hf as [<-|[HF _]]; [apply sim_diverge|by apply sim_diverge_free].
  - destruct f2 as [|f2]; [exfalso; destruct Hf; lia|]. simpl.
    apply sim_bind; [done|]. intros [a'|b]; [|apply sim_ret].
    apply IH. destruct Hf as [?|[??]]; [left|right]; [lia|split; [done|lia]].
Qed.

Lemma sim_for_each n from (b1 : nat -> M E S1 unit) b2 :
  (forall i, sim (b1 i) (b2 i)) -> sim (for_each from n b1) (for_each from n b2).
Proof.
  intros Hb. revert from. induction n as [|n IH]; intros from; simpl; [apply sim_ret|].
  apply sim_bind; auto.
Qed.
End sim.
