(* ===== verification/Ast.v ===== *)
(** * The syntax tree of the happy tool

    [tools/happy/src/Ast.hpp]: the document position, the identifiers and the
    node classes. A node class is a record (or a constructor, for the class
    hierarchy under [AstEncodingNode]) whose first field is the [origin] it
    inherits from [AstNode]. *)
From S2P Require Import Prelude.
From Stdlib Require Import SpecFloat.

(** [struct DocumentPosition] *)
Record DocumentPosition := mkDocumentPosition {
  file : bytes;
  line : Z;
  column : Z;
}.

Definition AstIdentifier : Type := bytes.

(** [struct AstQualifiedIdentifier]; a fresh one has an empty [space] and an
    empty [name]. *)
Record AstQualifiedIdentifier := mkAstQualifiedIdentifier {
  space : list AstIdentifier;
  name : AstIdentifier;
}.

Definition empty_qualified : AstQualifiedIdentifier := mkAstQualifiedIdentifier [] [].

Definition AstString : Type := bytes.
(** [int64_t]: the values the parser builds are kept in range by {!Lexer.int64}. *)
Definition AstInteger : Type := Z.
(** [double]: an IEEE binary64 value. *)
Definition AstNumber : Type := spec_float.

(** [struct AstType]: [array_size] is indeterminate ([None]) until it is
    assigned, which the parser does only for an array. *)
Record AstType := mkAstType {
  type_identifier : AstQualifiedIdentifier;
  is_array : bool;
  array_size : option AstInteger;
}.

Record AstStructField := mkAstStructField {
  sf_origin : DocumentPosition;
  sf_identifier : AstIdentifier;
  sf_type : AstType;
}.

Record AstStruct := mkAstStruct {
  st_origin : DocumentPosition;
  st_identifier : AstIdentifier;
  st_fields : list AstStructField;
}.

Record AstMappingField := mkAstMappingField {
  mf_origin : DocumentPosition;
  mf_identifier : AstIdentifier;
  mf_mapping_decl : AstString;
}.

Record AstMapping := mkAstMapping {
  ma_origin : DocumentPosition;
  ma_struct_id : AstIdentifier;
  ma_map_category : AstQualifiedIdentifier;
  ma_fields : list AstMappingField;
}.

(** [AstEncodingNode] and its two subclasses. *)
Inductive AstEncodingNode :=
| AstEncodingField (origin : DocumentPosition) (identifier encoding : AstIdentifier)
| AstEncodingDeltaBlock (origin : DocumentPosition) (fields : list AstEncodingNode).

Record AstEncoding := mkAstEncoding {
  en_origin : DocumentPosition;
  en_struct_id : AstIdentifier;
  en_enco_id : AstIdentifier;
  en_fields : list AstEncodingNode;
}.

Record AstInclude := mkAstInclude {
  inc_origin : DocumentPosition;
  inc_path : AstString;
}.

Record AstRoot := mkAstRoot {
  root_origin : DocumentPosition;
  includes : list AstInclude;
  root_space : AstQualifiedIdentifier;
  struct_decls : list AstStruct;
  map_decls : list AstMapping;
  enco_decls : list AstEncoding;
}.

(** ** Induction on encoding nodes

    The principle Rocq derives for the nested type gives no hypothesis on the
    nodes of a delta block; this one does. *)
Section encoding_node_ind.
Context (P : AstEncodingNode -> Prop).
Hypothesis P_field : forall o i e, P (AstEncodingField o i e).
Hypothesis P_delta : forall o fs, Forall P fs -> P (AstEncodingDeltaBlock o fs).

Fixpoint encoding_node_ind (n : AstEncodingNode) : P n :=
  match n with
  | AstEncodingField o i e => P_field o i e
  | AstEncodingDeltaBlock o fs =>
      P_delta o fs
        ((fix go (l : list AstEncodingNode) : Forall P l :=
            match l with
            | [] => Forall_nil_2 P
            | x :: l' => Forall_cons_2 P x l' (encoding_node_ind x) (go l')
            end) fs)
  end.
End encoding_node_ind.

(** ** Erasing origins

    Two trees that differ only in where their nodes were found have the same
    erasure; the grammar describes erased trees. *)
Definition nowhere : DocumentPosition := mkDocumentPosition [] 0 0.

Definition erase_include (i : AstInclude) : AstInclude := mkAstInclude nowhere (inc_path i).

Definition erase_struct_field (f : AstStructField) : AstStructField :=
  mkAstStructField nowhere (sf_identifier f) (sf_type f).

Definition erase_struct (s : AstStruct) : AstStruct :=
  mkAstStruct nowhere (st_identifier s) (erase_struct_field <$> st_fields s).

Definition erase_mapping_field (f : AstMappingField) : AstMappingField :=
  mkAstMappingField nowhere (mf_identifier f) (mf_mapping_decl f).

Definition erase_mapping (m : AstMapping) : AstMapping :=
  mkAstMapping nowhere (ma_struct_id m) (ma_map_category m)
    (erase_mapping_field <$> ma_fields m).

Fixpoint erase_node (n : AstEncodingNode) : AstEncodingNode :=
  match n with
  | AstEncodingField _ i e => AstEncodingField nowhere i e
  | AstEncodingDeltaBlock _ fs => AstEncodingDeltaBlock nowhere (erase_node <$> fs)
  end.

Definition erase_encoding (e : AstEncoding) : AstEncoding :=
  mkAstEncoding nowhere (en_struct_id e) (en_enco_id e) (erase_node <$> en_fields e).

Definition erase_root (r : AstRoot) : AstRoot :=
  mkAstRoot nowhere (erase_include <$> includes r) (root_space r)
    (erase_struct <$> struct_decls r) (erase_mapping <$> map_decls r)
    (erase_encoding <$> enco_decls r).
