(* ===== verification/CharBuffer.v ===== *)
(** * What the parser needs of its character buffer

    [Parser] reads its input only through [peek_at], by adding to
    [buffer_offset_], and through [trim_opportunity]
    ([tools/happy/src/Parser.hpp]). The interface [CharBuffer] holds those three
    operations, so the lexer and the grammar are written once, against it. It has
    two implementations: the input as a plain byte string, below, which is the
    specification; and the buffer of [Parser.cpp] over a [StreamReader], in
    [StreamBuffer]. *)
From S2P Require Import Prelude Ast.

(** ** Failures

    What a parse can end with instead of a tree. *)
Inductive parse_error :=
(** [throw ParseException(position, message)] *)
| ParseException (position : DocumentPosition) (message : bytes)
(** [throw std::runtime_error(what)], from a reader *)
| RuntimeError (message : bytes)
(** [throw std::logic_error(what)] *)
| LogicError (message : bytes)
(** signed arithmetic out of range, of 64 bits or of an [int]: undefined behaviour *)
| SignedOverflow
(** the buffer used past its end: undefined behaviour *)
| OverRead.

Class CharBuffer (B : Type) := {
  (** [peek_at(offset)] *)
  buf_peek_at : nat -> M parse_error B ascii;
  (** [buffer_offset_ += n] *)
  buf_skip : nat -> M parse_error B unit;
  (** [trim_opportunity()] *)
  buf_trim : M parse_error B unit;
}.

(** ** The specification of the buffer

    [rest] are the bytes not consumed yet; [seen] counts those at its front that
    [peek_at] has already looked at, which are the ones the buffer is sure to hold.
    Consuming a byte that was not looked at is an error of its own here, so a parse
    that never fails with [OverRead] never moves [buffer_offset_] past its data. *)
Record input := mkInput {
  rest : bytes;
  seen : nat;
}.

#[export] Instance input_buffer : CharBuffer input := {|
  buf_peek_at offset := fun i =>
    Ok (nth offset (rest i) NUL)
       (mkInput (rest i) (seen i `max` (S offset `min` length (rest i))));
  buf_skip n := fun i =>
    if decide (n <= seen i)%nat then Ok tt (mkInput (drop n (rest i)) (seen i - n))
    else Err OverRead;
  buf_trim := fun i => Ok tt i;
|}.
