(* ===== verification/StreamBuffer.v ===== *)
(** * The input buffer of the parser

    [Parser::peek_at] and [Parser::trim_opportunity] with the fields they use
    ([tools/happy/src/Parser.cpp], [Parser.hpp]), over the [StreamReader]
    interface, and the two readers: the one of [Main.cpp] over [stdin], and one that
    hands out given chunks. *)
From S2P Require Import Prelude Ast CharBuffer.

(** ** [class StreamReader] *)

(** [read(output_ptr, length)]: the bytes written to [output_ptr]; their number is
    the result of the call. *)
Class StreamReader (R : Type) :=
  read : nat -> M parse_error R bytes.

(** The contract the comments of [StreamReader] state: at most [length] bytes are
    read, and none only at the end of the stream. [content] is what is left to read
    from a reader that works ([sound]). *)
Class LawfulReader (R : Type) `{StreamReader R} := {
  content : R -> bytes;
  sound : R -> Prop;
  read_lawful (n : nat) (r : R) :
    sound r -> (0 < n)%nat ->
    exists chunk r',
      read n r = Ok chunk r' /\ sound r' /\ content r = chunk ++ content r' /\
      (length chunk <= n)%nat /\ (chunk = [] -> content r = []);
}.

(** ** The buffer *)
Record stream_buffer (R : Type) := mkStreamBuffer {
  reader_ : R;
  buffer_ : bytes;
  tmp_buffer_ : bytes;
  buffer_offset_ : nat;
}.
Arguments mkStreamBuffer {R}.
Arguments reader_ {R}.
Arguments buffer_ {R}.
Arguments tmp_buffer_ {R}.
Arguments buffer_offset_ {R}.

Definition read_slack : nat := N.to_nat 0x0800.
Definition trim_threshold : N := 0x4000%N.

Section stream_buffer.
Context {R : Type} `{StreamReader R}.

(** One iteration of the [while] of [peek_at]; leaving the loop is the [return]. *)
Definition peek_at_body (offset : nat) (_ : unit)
    : M parse_error (stream_buffer R) (unit + ascii) := fun sb =>
  if decide (length (buffer_ sb) <= buffer_offset_ sb + offset)%nat then
    let initial_size := length (buffer_ sb) in
    let resized := (buffer_offset_ sb + offset + read_slack)%nat in
    match read (resized - initial_size)%nat (reader_ sb) with
    | Ok chunk r' =>
        let sb' := mkStreamBuffer r' (buffer_ sb ++ chunk) (tmp_buffer_ sb)
                     (buffer_offset_ sb) in
        if decide (length chunk = 0)%nat then Ok (inr NUL) sb' else Ok (inl tt) sb'
    | Err e => Err e
    | Fuel => Fuel
    end
  else
    match buffer_ sb !! (buffer_offset_ sb + offset)%nat with
    | Some c => Ok (inr c) sb
    | None => Err OverRead
    end.

(** [Parser::peek_at]. Every round but the last adds a byte, so the distance to the
    byte asked for bounds the rounds. *)
Definition peek_at (offset : nat) : M parse_error (stream_buffer R) ascii := fun sb =>
  loop (2 + (buffer_offset_ sb + offset - length (buffer_ sb)))%nat
    (peek_at_body offset) tt sb.

(** [Parser::trim_opportunity]; [buffer_.cbegin() + buffer_offset_] has to be within
    the buffer. *)
Definition trim_opportunity : M parse_error (stream_buffer R) unit := fun sb =>
  if decide (trim_threshold <= N.of_nat (buffer_offset_ sb))%N then
    if decide (buffer_offset_ sb <= length (buffer_ sb))%nat then
      Ok tt (mkStreamBuffer (reader_ sb) (drop (buffer_offset_ sb) (buffer_ sb))
               (buffer_ sb) 0)
    else Err OverRead
  else Ok tt sb.

(** [buffer_offset_ += n] *)
Definition skip (n : nat) : M parse_error (stream_buffer R) unit := fun sb =>
  Ok tt (mkStreamBuffer (reader_ sb) (buffer_ sb) (tmp_buffer_ sb) (buffer_offset_ sb + n)).

#[export] Instance stream_char_buffer : CharBuffer (stream_buffer R) := {|
  buf_peek_at := peek_at;
  buf_skip := skip;
  buf_trim := trim_opportunity;
|}.

(** The buffer of a fresh [Parser]. *)
Definition fresh_buffer (r : R) : stream_buffer R := mkStreamBuffer r [] [] 0.
End stream_buffer.

(** ** [StdinReader] of [Main.cpp]

    [stdin] as the C library keeps it: the bytes still to come, the error the device
    reports once they are read (if it reports one), and the two indicators. *)
Record FILE := mkFILE {
  pending : bytes;
  device_error : option bytes;
  eof_indicator : bool;
  error_indicator : bool;
}.

(** [fread(ptr, 1, length, f)] reads until [length] bytes, the end or an error. *)
Definition fread (length_ : nat) (f : FILE) : bytes * FILE :=
  if decide (length_ <= length (pending f))%nat then
    (take length_ (pending f),
     mkFILE (drop length_ (pending f)) (device_error f) (eof_indicator f) (error_indicator f))
  else
    (pending f,
     match device_error f with
     | None => mkFILE [] None true (error_indicator f)
     | Some e => mkFILE [] (Some e) (eof_indicator f) true
     end).

Record StdinReader := mkStdinReader { stdin : FILE }.

Definition stdin_read (length_ : nat) : M parse_error StdinReader bytes := fun r =>
  let (data, f) := fread length_ (stdin r) in
  if eof_indicator f then Ok data (mkStdinReader f)
  else if error_indicator f then
    Err (RuntimeError (default [] (device_error f)))
  else Ok data (mkStdinReader f).

#[export] Instance stdin_stream_reader : StreamReader StdinReader := stdin_read.

(** A stream over the bytes [w]. *)
Definition stdin_of (w : bytes) : StdinReader := mkStdinReader (mkFILE w None false false).

(** ** [ChunkReader]: a reader that hands out chunks

    A stream that arrives in pieces, like a pipe or a socket; a piece longer than the
    request is handed out over several calls. *)
Record ChunkReader := mkChunkReader { chunks : list bytes }.

Fixpoint chunk_read (n : nat) (cs : list bytes) : bytes * list bytes :=
  match cs with
  | [] => ([], [])
  | [] :: cs' => chunk_read n cs'
  | c :: cs' => (take n c, drop n c :: cs')
  end.

#[export] Instance chunk_stream_reader : StreamReader ChunkReader := fun n r =>
  let (c, cs) := chunk_read n (chunks r) in Ok c (mkChunkReader cs).

#[export, refine] Instance chunk_lawful : LawfulReader ChunkReader := {|
  content r := concat (chunks r);
  sound _ := True;
|}.
Proof.
  intros n [cs] _ Hn. unfold read, chunk_stream_reader. simpl.
  induction cs as [|[|a c] cs IH]; simpl.
  - eexists _, _. split_and!; [done..|simpl; lia|done].
  - exact IH.
  - eexists _, _. split_and!; [done..| | |].
    + simpl. by rewrite app_assoc, take_drop.
    + rewrite length_take. simpl. lia.
    + by destruct n; [lia|].
Defined.

(** [stdin] keeps the contract as long as the device has no error to report. *)
#[export, refine] Instance stdin_lawful : LawfulReader StdinReader := {|
  content r := pending (stdin r);
  sound r := device_error (stdin r) = None /\ error_indicator (stdin r) = false;
|}.
Proof.
  intros n [[w e eof err]] [He Herr] Hn. simpl in *. subst.
  unfold read, stdin_stream_reader, stdin_read, fread. simpl.
  case_decide as Hlen; simpl.
  - exists (take n w), (mkStdinReader (mkFILE (drop n w) None eof false)). split_and!; simpl.
    + by destruct eof.
    + done.
    + done.
    + by rewrite take_drop.
    + rewrite length_take. lia.
    + destruct n, w; simpl in *; [lia..|done|done].
  - eexists w, _. split_and!; [done..| | |]; simpl; [by rewrite app_nil_r|lia|done].
Defined.

(** ** The buffer implements its specification

    [represents i sb]: the bytes not consumed yet are those of the buffer from the
    offset on, and then the reader's; all that was looked at is in the buffer. *)
Section refinement.
Context {R : Type} `{LawfulReader R}.

Definition represents (i : input) (sb : stream_buffer R) : Prop :=
  sound (reader_ sb) /\
  (buffer_offset_ sb <= length (buffer_ sb))%nat /\
  rest i = drop (buffer_offset_ sb) (buffer_ sb) ++ content (reader_ sb) /\
  (seen i <= length (buffer_ sb) - buffer_offset_ sb)%nat.

Lemma represents_fresh r : sound r -> represents (mkInput (content r) 0) (fresh_buffer r).
Proof. intros Hr. by split_and!; simpl; [|lia| |lia]. Qed.

(** One round of [peek_at]: it answers with the byte, or it makes the buffer grow. *)
Lemma peek_at_body_spec n i sb :
  represents i sb ->
  wp (peek_at_body n ()) sb
    (fun r sb' => match r with
      | inl () => represents i sb' /\ (length (buffer_ sb) < length (buffer_ sb'))%nat /\
                  buffer_offset_ sb' = buffer_offset_ sb /\
                  (length (buffer_ sb) <= buffer_offset_ sb + n)%nat
      | inr c => c = nth n (rest i) NUL /\
                 represents (mkInput (rest i) (seen i `max` (S n `min` length (rest i)))) sb'
      end) (fun _ => False) False.
Proof.
  intros (Hs & Hoff & Hrest & Hseen). unfold wp, peek_at_body. case_decide as Hlen.
  - destruct (read_lawful (buffer_offset_ sb + n + read_slack - length (buffer_ sb))
                (reader_ sb) Hs) as (chunk & r' & Hr & Hs' & Hc & _ & Hnil).
    { assert (0 < read_slack)%nat by (vm_compute; lia). lia. }
    rewrite Hr. destruct (decide (length chunk = 0%nat)) as [Hc0|Hc0].
    + apply nil_length_inv in Hc0 as ->. specialize (Hnil eq_refl). simpl in Hc.
      rewrite Hnil, app_nil_r in Hrest.
      assert (length (rest i) = length (buffer_ sb) - buffer_offset_ sb)%nat as Hl
        by (by rewrite Hrest, length_drop).
      split; [rewrite nth_overflow; [done|lia]|].
      split_and!; simpl; rewrite ?app_nil_r; [done|done| |lia].
      by rewrite Hrest, <- Hc, Hnil, app_nil_r.
    + split_and!; simpl; rewrite ?length_app; [|lia|done|done].
      split_and!; simpl; rewrite ?length_app; [done|lia| |lia].
      by rewrite Hrest, Hc, (drop_app_le (buffer_ sb)), app_assoc.
  - destruct (lookup_lt_is_Some_2 (buffer_ sb) (buffer_offset_ sb + n)) as [c Hc]; [lia|].
    rewrite Hc. split.
    + rewrite Hrest. symmetry. apply nth_lookup_Some.
      rewrite lookup_app_l by (rewrite length_drop; lia). by rewrite lookup_drop.
    + split_and!; simpl; [done|done|done|lia].
Qed.

(** [peek_at] terminates, whatever the sizes of the chunks, and answers with the
    byte of the stream at [offset], or with NUL past its end. *)
Lemma peek_at_spec n i sb :
  represents i sb ->
  exists sb', peek_at n sb = Ok (nth n (rest i) NUL) sb' /\
    represents (mkInput (rest i) (seen i `max` (S n `min` length (rest i)))) sb'.
Proof.
  intros Hrep.
  assert (wp (peek_at n) sb (fun c sb' => c = nth n (rest i) NUL /\
            represents (mkInput (rest i) (seen i `max` (S n `min` length (rest i)))) sb')
            (fun _ => False) False) as Hwp.
  { unfold peek_at.
    apply (wp_loop (fun _ sb => represents i sb)
             (fun _ sb => S (buffer_offset_ sb + n) - length (buffer_ sb))%nat);
      [|done|lia].
    intros [] sb' Hrep'. eapply wp_mono; [by apply peek_at_body_spec|..]; [|done..].
    intros [[]|c] sb''; simpl; [|done].
    intros (? & ? & -> & ?). split; [done|lia]. }
  unfold wp in Hwp. destruct (peek_at n sb) as [c sb'| |]; [|done..].
  destruct Hwp as [-> ?]. eauto.
Qed.

Lemma sim_peek_at (PE : parse_error -> Prop) n :
  sim PE False represents (buf_peek_at n) (buf_peek_at n).
Proof.
  intros i sb Hrep. simpl. apply peek_at_spec with (n := n) in Hrep as (sb' & ? & ?).
  eauto.
Qed.

Lemma sim_skip n :
  sim (fun e => e = OverRead) False represents (buf_skip n) (buf_skip n).
Proof.
  intros i sb (Hs & Hoff & Hrest & Hseen). simpl. case_decide as Hn; [|by left].
  eexists. split; [done|]. split_and!; simpl; [done|lia| |lia].
  rewrite Hrest, drop_app_le by (rewrite length_drop; lia). by rewrite drop_drop.
Qed.

Lemma sim_trim_opportunity (PE : parse_error -> Prop) :
  sim PE False represents buf_trim buf_trim.
Proof.
  intros i sb (Hs & Hoff & Hrest & Hseen). simpl. unfold trim_opportunity.
  case_decide; [|by exists sb]. rewrite decide_True by done.
  eexists. split; [done|]. split_and!; simpl; [done|lia|done|].
  rewrite length_drop. lia.
Qed.
End refinement.
