(* ===== verification/Lexer.v ===== *)
(** * The lexer of the happy tool

    The part of [tools/happy/src/Parser.cpp] below the grammar: [symbol_str],
    [skip_whitespace], [advance], [peek_symbol], [parse_symbol] and the readers of
    identifiers, strings, integers and numbers, with [expect] and [unexpected]. Every
    operation is generic in the buffer; [fuel] bounds each loop of the source. *)
From S2P Require Import Prelude Ast CharBuffer.
From Stdlib Require Import SpecFloat.

(** ** [enum class Symbol] *)
Module Symbol.
Inductive t :=
| identifier | string | integer | number
| namespace_kw | include_kw | struct_kw | mapping_kw | encoding_kw | delta_kw
| colon | namespace_sep | curly_open | curly_close | bracket_open | bracket_close
| eof | error | invalid.

#[global] Instance t_eq_dec : EqDecision t.
Proof. solve_decision. Defined.
End Symbol.

(** [symbol_str]; [invalid] has no case of its own. *)
Definition symbol_str (s : Symbol.t) : bytes :=
  match s with
  | Symbol.identifier => str "identifier"
  | Symbol.string => str "string"
  | Symbol.integer => str "integer"
  | Symbol.number => str "number"
  | Symbol.namespace_kw => str "namespace_kw"
  | Symbol.include_kw => str "include_kw"
  | Symbol.struct_kw => str "struct_kw"
  | Symbol.mapping_kw => str "mapping_kw"
  | Symbol.encoding_kw => str "encoding_kw"
  | Symbol.delta_kw => str "delta_kw"
  | Symbol.colon => str "colon"
  | Symbol.namespace_sep => str "namespace_sep"
  | Symbol.curly_open => str "curly_open"
  | Symbol.curly_close => str "curly_close"
  | Symbol.bracket_open => str "bracket_open"
  | Symbol.bracket_close => str "bracket_close"
  | Symbol.eof => str "eof"
  | Symbol.error => str "error"
  | Symbol.invalid => str "???"
  end.

Definition comment_mark : ascii := "#".
Definition newline : ascii := "010".
Definition carriage_return : ascii := "013".
Definition tab : ascii := "009".
Definition dquote : ascii := "034".

(** The marks of the [SIGN] macros. *)
Definition sign_symbol (c : ascii) : option Symbol.t :=
  if decide (c = ":"%char) then Some Symbol.colon
  else if decide (c = "."%char) then Some Symbol.namespace_sep
  else if decide (c = "{"%char) then Some Symbol.curly_open
  else if decide (c = "}"%char) then Some Symbol.curly_close
  else if decide (c = "["%char) then Some Symbol.bracket_open
  else if decide (c = "]"%char) then Some Symbol.bracket_close
  else None.

Definition namespace_keyword : bytes := str "NAMESPACE".
Definition include_keyword : bytes := str "INCLUDE".
Definition struct_keyword : bytes := str "STRUCT".
Definition mapping_keyword : bytes := str "MAPPING".
Definition encoding_keyword : bytes := str "ENCODING".
Definition delta_keyword : bytes := str "DELTA".

(** The chain of [KEYWORD] tests at the end of [peek_symbol]. *)
Definition word_symbol (w : bytes) : Symbol.t :=
  if decide (w = namespace_keyword) then Symbol.namespace_kw
  else if decide (w = include_keyword) then Symbol.include_kw
  else if decide (w = struct_keyword) then Symbol.struct_kw
  else if decide (w = mapping_keyword) then Symbol.mapping_kw
  else if decide (w = encoding_keyword) then Symbol.encoding_kw
  else if decide (w = delta_keyword) then Symbol.delta_kw
  else Symbol.identifier.

(** What [parse_symbol] advances by: [1] for a sign, [sizeof(keyword) - 1] for a
    keyword; the other symbols are a misuse. *)
Definition symbol_length (s : Symbol.t) : option nat :=
  match s with
  | Symbol.colon | Symbol.namespace_sep | Symbol.curly_open | Symbol.curly_close
  | Symbol.bracket_open | Symbol.bracket_close => Some 1%nat
  | Symbol.namespace_kw => Some (length namespace_keyword)
  | Symbol.include_kw => Some (length include_keyword)
  | Symbol.struct_kw => Some (length struct_keyword)
  | Symbol.mapping_kw => Some (length mapping_keyword)
  | Symbol.encoding_kw => Some (length encoding_keyword)
  | Symbol.delta_kw => Some (length delta_keyword)
  | _ => None
  end.

(** ** Character classes *)
Definition in_range (lo hi c : ascii) : bool := (code lo <=? code c) && (code c <=? code hi).
Definition is_digit (c : ascii) : bool := in_range "0" "9" c.
Definition is_letter (c : ascii) : bool := in_range "a" "z" c || in_range "A" "Z" c.
Definition is_word (c : ascii) : bool := is_letter c || is_digit c || bool_decide (c = "_"%char).
Definition is_quote (c : ascii) : bool := bool_decide (c = "'"%char) || bool_decide (c = dquote).
Definition is_blank (c : ascii) : bool :=
  bool_decide (c = " "%char) || bool_decide (c = tab) || bool_decide (c = newline)
  || bool_decide (c = carriage_return).

(** The byte an escape sequence stands for. *)
Definition escaped (c : ascii) : ascii :=
  if decide (c = "n"%char) then newline
  else if decide (c = "t"%char) then tab
  else if decide (c = "0"%char) then NUL
  else c.

(** Signed 64-bit arithmetic. *)
Definition int64_max : Z := 2 ^ 63 - 1.
Definition int64 {S} (z : Z) : M parse_error S Z :=
  if decide (- 2 ^ 63 <= z <= int64_max) then mret z else throw SignedOverflow.

(** [++len], on an [int] that is not negative. *)
Definition incr {St} (len : nat) : M parse_error St nat :=
  if decide (Z.of_nat len < int_max) then mret (S len) else throw SignedOverflow.

(** Binary64 arithmetic. *)
Definition double_of_Z (z : Z) : AstNumber := binary_normalize 53 1024 z 0 false.
Definition double_add : AstNumber -> AstNumber -> AstNumber := SFadd 53 1024.
Definition double_mul : AstNumber -> AstNumber -> AstNumber := SFmul 53 1024.
(** The literal [0.1]. *)
Definition double_tenth : AstNumber := S754_finite false 7205759403792794 (-56).

(** ** The parser's state

    The buffer stands for [reader_], [buffer_], [tmp_buffer_] and
    [buffer_offset_]. *)
Record parser (B : Type) := mkParser {
  buf : B;
  pos_ : DocumentPosition;
  next_symbol_ : Symbol.t;
}.
Arguments mkParser {B}.
Arguments buf {B}.
Arguments pos_ {B}.
Arguments next_symbol_ {B}.

(** [Parser(filename, reader)] *)
Definition new_parser {B} (filename : bytes) (b : B) : parser B :=
  mkParser b (mkDocumentPosition filename 1 0) Symbol.invalid.

(** [snprintf(message, 1024, ...)] and the copy [ParseException] makes of it keep
    1023 bytes. *)
Definition message_1024 (m : bytes) : bytes := take (N.to_nat 1023) m.

Section lexer.
Context {B : Type} `{CharBuffer B} (fuel : nat).

Abbreviation P := (M parse_error (parser B)).

Definition on_buf {A} (m : M parse_error B A) : P A := fun p =>
  match m (buf p) with
  | Ok a b => Ok a (mkParser b (pos_ p) (next_symbol_ p))
  | Err e => Err e
  | Fuel => Fuel
  end.

Definition peek_char (offset : nat) : P ascii := on_buf (buf_peek_at offset).
Definition skip_bytes (n : nat) : P unit := on_buf (buf_skip n).
Definition trim : P unit := on_buf buf_trim.

(** [++pos_.column] *)
Definition next_column : P unit := modify (fun p =>
  mkParser (buf p)
    (mkDocumentPosition (file (pos_ p)) (line (pos_ p)) (column (pos_ p) + 1))
    (next_symbol_ p)).

(** [pos_.column = 0; ++pos_.line] *)
Definition next_line : P unit := modify (fun p =>
  mkParser (buf p) (mkDocumentPosition (file (pos_ p)) (line (pos_ p) + 1) 0)
    (next_symbol_ p)).

Definition set_next_symbol (s : Symbol.t) : P unit :=
  modify (fun p => mkParser (buf p) (pos_ p) s).

Definition current_position : P DocumentPosition := gets pos_.

(** The [do ... while] that skips a comment to the end of its line. *)
Definition skip_comment : P ascii :=
  loop fuel (fun _ : unit =>
    next_column;;
    skip_bytes 1;;
    c ← peek_char 0;
    mret (if bool_decide (c <> NUL) && bool_decide (c <> newline)
             && bool_decide (c <> carriage_return)
          then inl tt else inr c)) tt.

Definition skip_whitespace : P unit :=
  c ← peek_char 0;
  loop fuel (fun c =>
    if is_blank c || bool_decide (c = comment_mark) then
      (if bool_decide (c = " "%char) || bool_decide (c = tab)
       then next_column else mret tt);;
      (if bool_decide (c = newline) then next_line else mret tt);;
      (if bool_decide (c = comment_mark) then
         c' ← skip_comment;
         mret (inl c')
       else
         skip_bytes 1;;
         c' ← peek_char 0;
         mret (inl c'))
    else mret (inr tt)) c;;
  trim.

Definition advance (offset : nat) : P unit :=
  for_each 0 offset (fun i =>
    c ← peek_char i;
    if decide (c = newline) then next_line else next_column);;
  skip_bytes offset;;
  set_next_symbol Symbol.invalid;;
  trim.

(** The loop over a run of word characters, in [peek_symbol] and in
    [parse_identifier]. *)
Definition scan_word (off : nat) (acc : bytes) : P (nat * bytes) :=
  loop fuel (fun '(off, acc) =>
    c ← peek_char off;
    mret (if is_word c then inl (S off, acc ++ [c]) else inr (off, acc))) (off, acc).

Definition remember (s : Symbol.t) : P Symbol.t := set_next_symbol s;; mret s.

Definition peek_symbol : P Symbol.t :=
  next ← gets next_symbol_;
  if decide (next <> Symbol.invalid) then mret next else
  skip_whitespace;;
  c ← peek_char 0;
  if decide (c = NUL) then remember Symbol.eof
  else if is_digit c || bool_decide (c = "-"%char) || bool_decide (c = "+"%char) then
    s ← loop fuel (fun off =>
          c ← peek_char off;
          mret (if is_digit c || bool_decide (c = "."%char) then
                  (if decide (c = "."%char) then inr Symbol.number else inl (S off))
                else inr Symbol.integer)) 1%nat;
    remember s
  else match sign_symbol c with
  | Some s => remember s
  | None =>
      if is_quote c then remember Symbol.string
      else if is_letter c then
        '(_, word) ← scan_word 1 [c];
        remember (word_symbol word)
      else remember Symbol.error
  end.

(** [unexpected(context)] and [unexpected(Symbol)] differ in the tail of the
    message. *)
Definition unexpected_with {A} (tail : bytes) : P A :=
  s ← peek_symbol;
  p ← current_position;
  throw (ParseException p
           (message_1024 (message_1024 (str "Unexpected symbol " ++ symbol_str s ++ tail)))).

Definition unexpected_in {A} (context : bytes) : P A :=
  unexpected_with (str " in " ++ context).

Definition unexpected {A} (expected : Symbol.t) : P A :=
  unexpected_with (if decide (expected <> Symbol.invalid)
                   then str ", expected " ++ symbol_str expected else []).

Definition expect (expected : Symbol.t) : P unit :=
  s ← peek_symbol;
  if decide (s <> expected) then unexpected expected else mret tt.

Definition parse_symbol (symbol : Symbol.t) : P unit :=
  expect symbol;;
  match symbol_length symbol with
  | Some n => advance n
  | None => throw (LogicError (str "Invalid parse_symbol usage"))
  end;;
  trim.

Definition parse_identifier : P AstIdentifier :=
  expect Symbol.identifier;;
  '(len, ret) ← scan_word 0 [];
  advance len;;
  mret ret.

(** The loop of [parse_string]: [len] is the length of the literal so far, an [int]. *)
Definition scan_string (delim : ascii) : P (nat * bytes) :=
  loop fuel (fun '(len, ret) =>
    c ← peek_char len;
    if decide (c = delim) then
      len ← incr len;
      mret (inr (len, ret))
    else if decide (c = "\"%char) then
      len ← incr len;
      c' ← peek_char len;
      len ← incr len;
      mret (inl (len, ret ++ [escaped c']))
    else
      len ← incr len;
      mret (inl (len, ret ++ [c]))) (1%nat, []).

Definition parse_string : P AstString :=
  expect Symbol.string;;
  delim ← peek_char 0;
  '(len, ret) ← scan_string delim;
  advance len;;
  mret ret.

(** The sign of [parse_integer] and [parse_number]: whether it is negative, and its
    length. *)
Definition scan_sign : P (bool * nat) :=
  c ← peek_char 0;
  mret (if decide (c = "-"%char) then (true, 1%nat)
        else if decide (c = "+"%char) then (false, 1%nat) else (false, 0%nat)).

Definition scan_digits (len : nat) : P (nat * Z) :=
  loop fuel (fun '(len, ret) =>
    c ← peek_char len;
    if is_digit c then
      ret ← int64 (ret * 10);
      ret ← int64 (ret + (code c - code "0"));
      len ← incr len;
      mret (inl (len, ret))
    else mret (inr (len, ret))) (len, 0).

Definition parse_integer : P AstInteger :=
  expect Symbol.integer;;
  '(negative, len) ← scan_sign;
  '(len, ret) ← scan_digits len;
  advance len;;
  (if negative : bool then int64 (- ret) else mret ret).

Definition scan_whole (len : nat) : P (nat * AstNumber) :=
  loop fuel (fun '(len, ret) =>
    c ← peek_char len;
    if is_digit c then
      len ← incr len;
      mret (inl (len, double_add (double_mul ret (double_of_Z 10))
                        (double_of_Z (code c - code "0"))))
    else mret (inr (len, ret))) (len, double_of_Z 0).

Definition scan_fraction (len : nat) (ret : AstNumber) : P (nat * AstNumber) :=
  loop fuel (fun '(len, ret, fract) =>
    c ← peek_char len;
    if is_digit c then
      len ← incr len;
      mret (inl (len,
                 (if decide (c <> "0"%char)
                  then double_add ret (double_mul (double_of_Z (code c - code "0")) fract)
                  else ret),
                 double_mul fract double_tenth))
    else mret (inr (len, ret))) (len, ret, double_tenth).

Definition parse_number : P AstNumber :=
  s ← peek_symbol;
  if decide (s = Symbol.integer) then double_of_Z <$> parse_integer else
  expect Symbol.number;;
  '(negative, len) ← scan_sign;
  '(len, whole) ← scan_whole len;
  len ← incr len;
  '(len, ret) ← scan_fraction len whole;
  advance len;;
  mret (if negative : bool then SFopp ret else ret).
End lexer.
