(* ===== verification/Parser.v ===== *)
(** * The grammar of the happy tool

    The recursive-descent part of [tools/happy/src/Parser.cpp]: types, includes,
    structs, mappings, encodings and the document, with [Parser::parse]. *)
From S2P Require Import Prelude Ast CharBuffer StreamBuffer Lexer.

Definition DEFAULT_ENCODING : AstIdentifier := str "DEFAULT".

Section grammar.
Context {B : Type} `{CharBuffer B} (fuel : nat).

Abbreviation P := (M parse_error (parser B)).

(** [while (peek_symbol() != Symbol::curly_close) fields.emplace_back(item)] *)
Definition until_curly_close {A} (item : P A) : P (list A) :=
  loop fuel (fun fields =>
    s ← peek_symbol fuel;
    if decide (s <> Symbol.curly_close) then
      x ← item;
      mret (inl (fields ++ [x]))
    else mret (inr fields)) [].

Definition parse_qualified_identifier : P AstQualifiedIdentifier :=
  tmp ← parse_identifier fuel;
  loop fuel (fun '(space, tmp) =>
    s ← peek_symbol fuel;
    if decide (s = Symbol.namespace_sep) then
      parse_symbol fuel Symbol.namespace_sep;;
      tmp' ← parse_identifier fuel;
      mret (inl (space ++ [tmp], tmp'))
    else mret (inr (mkAstQualifiedIdentifier space tmp))) ([], tmp).

Definition parse_type : P AstType :=
  identifier ← parse_qualified_identifier;
  s ← peek_symbol fuel;
  if decide (s = Symbol.bracket_open) then
    parse_symbol fuel Symbol.bracket_open;;
    size ← parse_integer fuel;
    parse_symbol fuel Symbol.bracket_close;;
    mret (mkAstType identifier true (Some size))
  else mret (mkAstType identifier false None).

Definition parse_include : P AstInclude :=
  node_pos ← current_position;
  parse_symbol fuel Symbol.include_kw;;
  path ← parse_string fuel;
  mret (mkAstInclude node_pos path).

Definition parse_struct_field : P AstStructField :=
  node_pos ← current_position;
  field_id ← parse_identifier fuel;
  parse_symbol fuel Symbol.colon;;
  field_type ← parse_type;
  mret (mkAstStructField node_pos field_id field_type).

Definition parse_struct : P AstStruct :=
  node_pos ← current_position;
  parse_symbol fuel Symbol.struct_kw;;
  id ← parse_identifier fuel;
  parse_symbol fuel Symbol.curly_open;;
  fields ← until_curly_close parse_struct_field;
  parse_symbol fuel Symbol.curly_close;;
  mret (mkAstStruct node_pos id fields).

Definition parse_mapping_field : P AstMappingField :=
  node_pos ← current_position;
  field_id ← parse_identifier fuel;
  parse_symbol fuel Symbol.colon;;
  field_mapping ← parse_string fuel;
  mret (mkAstMappingField node_pos field_id field_mapping).

Definition parse_mapping : P AstMapping :=
  node_pos ← current_position;
  parse_symbol fuel Symbol.mapping_kw;;
  struct_id ← parse_identifier fuel;
  parse_symbol fuel Symbol.colon;;
  map_category ← parse_qualified_identifier;
  parse_symbol fuel Symbol.curly_open;;
  fields ← until_curly_close parse_mapping_field;
  parse_symbol fuel Symbol.curly_close;;
  mret (mkAstMapping node_pos struct_id map_category fields).

(** [if (peek_symbol() == colon) { ...; parse_identifier(); } else DEFAULT_ENCODING] *)
Definition parse_optional_encoding : P AstIdentifier :=
  s ← peek_symbol fuel;
  if decide (s = Symbol.colon) then
    parse_symbol fuel Symbol.colon;;
    parse_identifier fuel
  else mret DEFAULT_ENCODING.

Definition parse_encoding_field : P AstEncodingNode :=
  node_pos ← current_position;
  field_id ← parse_identifier fuel;
  field_enco ← parse_optional_encoding;
  mret (AstEncodingField node_pos field_id field_enco).

(** [parse_encoding_delta_block], given the [parse_encoding_node] it calls. *)
Definition parse_encoding_delta_block (node : P AstEncodingNode) : P AstEncodingNode :=
  node_pos ← current_position;
  parse_symbol fuel Symbol.delta_kw;;
  s ← peek_symbol fuel;
  match s with
  | Symbol.identifier =>
      x ← node;
      mret (AstEncodingDeltaBlock node_pos [x])
  | Symbol.curly_open =>
      parse_symbol fuel Symbol.curly_open;;
      fields ← until_curly_close node;
      parse_symbol fuel Symbol.curly_close;;
      mret (AstEncodingDeltaBlock node_pos fields)
  | _ => unexpected_in fuel (str "encoding_delta_block")
  end.

(** [parse_encoding_node] and [parse_encoding_delta_block] call each other; [depth]
    bounds the nesting. *)
Fixpoint parse_encoding_node (depth : nat) : P AstEncodingNode :=
  match depth with
  | O => diverge
  | Datatypes.S depth' =>
      s ← peek_symbol fuel;
      match s with
      | Symbol.delta_kw => parse_encoding_delta_block (parse_encoding_node depth')
      | Symbol.identifier => parse_encoding_field
      | _ => unexpected_in fuel (str "encoding_node")
      end
  end.

Definition parse_encoding : P AstEncoding :=
  node_pos ← current_position;
  parse_symbol fuel Symbol.encoding_kw;;
  struct_id ← parse_identifier fuel;
  enco_id ← parse_optional_encoding;
  parse_symbol fuel Symbol.curly_open;;
  fields ← until_curly_close (parse_encoding_node fuel);
  parse_symbol fuel Symbol.curly_close;;
  mret (mkAstEncoding node_pos struct_id enco_id fields).

(** [while (peek_symbol() == Symbol::include_kw) ...] *)
Definition parse_includes : P (list AstInclude) :=
  loop fuel (fun incs =>
    s ← peek_symbol fuel;
    if decide (s = Symbol.include_kw) then
      i ← parse_include;
      mret (inl (incs ++ [i]))
    else mret (inr incs)) [].

Definition parse_namespace : P AstQualifiedIdentifier :=
  s ← peek_symbol fuel;
  if decide (s = Symbol.namespace_kw) then
    parse_symbol fuel Symbol.namespace_kw;;
    parse_qualified_identifier
  else mret empty_qualified.

(** The [for (;;)] of [parse_document], over the three declaration lists. *)
Definition parse_decls
    : P (list AstStruct * list AstMapping * list AstEncoding) :=
  loop fuel (fun '(structs, maps, encos) =>
    s ← peek_symbol fuel;
    match s with
    | Symbol.struct_kw => x ← parse_struct; mret (inl (structs ++ [x], maps, encos))
    | Symbol.mapping_kw => x ← parse_mapping; mret (inl (structs, maps ++ [x], encos))
    | Symbol.encoding_kw => x ← parse_encoding; mret (inl (structs, maps, encos ++ [x]))
    | Symbol.eof => mret (inr (structs, maps, encos))
    | _ => unexpected_in fuel (str "document")
    end) ([], [], []).

Definition parse_document : P AstRoot :=
  node_pos ← current_position;
  incs ← parse_includes;
  space ← parse_namespace;
  decls ← parse_decls;
  mret (mkAstRoot node_pos incs space decls.1.1 decls.1.2 decls.2).
End grammar.

(** [Parser::parse(filename, reader)] *)
Definition parse {R} `{StreamReader R} (fuel : nat) (filename : bytes) (reader : R)
    : outcome parse_error (parser (stream_buffer R)) AstRoot :=
  parse_document fuel (new_parser filename (fresh_buffer reader)).

(** The same parser over the specification of the buffer. *)
Definition parse_input (fuel : nat) (filename : bytes) (w : bytes)
    : outcome parse_error (parser input) AstRoot :=
  parse_document fuel (new_parser filename (mkInput w 0)).
