(* ===== verification/ParserSim.v ===== *)
(** * Two parsers over related buffers run alike

    Every operation of [Lexer] and [Parser] reaches its buffer through the interface
    [CharBuffer]. So a relation between two buffers that the three operations of the
    interface preserve is preserved by every operation of the parser, and the two runs
    give the same values and throw the same errors. [StreamBuffer]'s refinement and the
    independence of the result from the fuel are two instances. *)
From S2P Require Import Prelude Ast CharBuffer Lexer Parser.

Create HintDb sim discriminated.

Section parser_sim.
Context {B1 B2 : Type} `{CharBuffer B1} `{CharBuffer B2}.
Context (PE : parse_error -> Prop) (PF : Prop) (RB : B1 -> B2 -> Prop).
Context (f1 f2 : nat) (f_le : fuel_le PF f1 f2).
Hypothesis sim_buf_peek_at : forall n, sim PE PF RB (buf_peek_at n) (buf_peek_at n).
Hypothesis sim_buf_skip : forall n, sim PE PF RB (buf_skip n) (buf_skip n).
Hypothesis sim_buf_trim : sim PE PF RB buf_trim buf_trim.

Definition related (p1 : parser B1) (p2 : parser B2) : Prop :=
  RB (buf p1) (buf p2) /\ pos_ p1 = pos_ p2 /\ next_symbol_ p1 = next_symbol_ p2.

Abbreviation psim := (sim PE PF related).

Lemma sim_on_buf {A} (m1 : M parse_error B1 A) m2 :
  sim PE PF RB m1 m2 -> psim (on_buf m1) (on_buf m2).
Proof.
  intros Hm p1 p2 (HR & Hp & Hn). unfold on_buf. specialize (Hm _ _ HR).
  destruct (m1 (buf p1)) as [a b1|e|].
  - destruct Hm as (b2 & -> & HR'). rewrite Hp, Hn. eexists. split; [done|]. by split_and!.
  - destruct Hm as [?| ->]; auto.
  - destruct Hm as [?| ->]; auto.
Qed.

Lemma sim_peek_char n : psim (peek_char n) (peek_char n).
Proof. by apply sim_on_buf. Qed.
Lemma sim_skip_bytes n : psim (skip_bytes n) (skip_bytes n).
Proof. by apply sim_on_buf. Qed.
Lemma sim_trim : psim trim trim.
Proof. by apply sim_on_buf. Qed.

Ltac solve_field :=
  intros p1 p2 (HR & Hp & Hn); simpl;
  repeat match goal with H : _ = _ |- _ => rewrite H end;
  eexists; split; [done|]; by split_and!.

Lemma sim_next_column : psim next_column next_column.
Proof. solve_field. Qed.
Lemma sim_next_line : psim next_line next_line.
Proof. solve_field. Qed.
Lemma sim_set_next_symbol s : psim (set_next_symbol s) (set_next_symbol s).
Proof. solve_field. Qed.
Lemma sim_current_position : psim current_position current_position.
Proof. solve_field. Qed.
Lemma sim_get_next_symbol : psim (gets next_symbol_) (gets next_symbol_).
Proof. solve_field. Qed.
Lemma sim_int64 z : psim (int64 z) (int64 z).
Proof. unfold int64. case_match; [apply sim_ret|apply sim_throw]. Qed.
Lemma sim_incr len : psim (incr len) (incr len).
Proof. unfold incr. case_match; [apply sim_ret|apply sim_throw]. Qed.

#[local] Hint Resolve sim_peek_char sim_skip_bytes sim_trim sim_next_column sim_next_line
  sim_set_next_symbol sim_current_position sim_get_next_symbol sim_int64 sim_incr : sim.

Ltac sim_step :=
  first
    [ solve [eauto with sim nocore]
    | apply sim_ret
    | apply sim_throw
    | apply sim_diverge
    | apply sim_fmap
    | apply sim_bind; [|intro]
    | apply sim_loop; [exact f_le|intro]
    | apply sim_for_each; intro
    | match goal with x : prod _ _ |- _ => destruct x end
    | match goal with
      | |- sim _ _ _ (match ?x with _ => _ end) (match ?x with _ => _ end) => destruct x
      end ].
Ltac sim_auto := repeat sim_step.

Lemma sim_skip_comment : psim (skip_comment f1) (skip_comment f2).
Proof. unfold skip_comment. sim_auto. Qed.
#[local] Hint Resolve sim_skip_comment : sim.

Lemma sim_skip_whitespace : psim (skip_whitespace f1) (skip_whitespace f2).
Proof. unfold skip_whitespace. sim_auto. Qed.
#[local] Hint Resolve sim_skip_whitespace : sim.

Lemma sim_advance n : psim (advance n) (advance n).
Proof. unfold advance. sim_auto. Qed.
#[local] Hint Resolve sim_advance : sim.

Lemma sim_scan_word off acc : psim (scan_word f1 off acc) (scan_word f2 off acc).
Proof. unfold scan_word. sim_auto. Qed.
#[local] Hint Resolve sim_scan_word : sim.

Lemma sim_remember s : psim (remember s) (remember s).
Proof. unfold remember. sim_auto. Qed.
#[local] Hint Resolve sim_remember : sim.

Lemma sim_peek_symbol : psim (peek_symbol f1) (peek_symbol f2).
Proof. unfold peek_symbol. sim_auto. Qed.
#[local] Hint Resolve sim_peek_symbol : sim.

Lemma sim_unexpected_in {A} c :
  psim (unexpected_in (A := A) f1 c) (unexpected_in (A := A) f2 c).
Proof. unfold unexpected_in, unexpected_with. sim_auto. Qed.
#[local] Hint Resolve sim_unexpected_in : sim.

Lemma sim_expect s : psim (expect f1 s) (expect f2 s).
Proof. unfold expect, unexpected, unexpected_with. sim_auto. Qed.
#[local] Hint Resolve sim_expect : sim.

Lemma sim_parse_symbol s : psim (parse_symbol f1 s) (parse_symbol f2 s).
Proof. unfold parse_symbol. sim_auto. Qed.
#[local] Hint Resolve sim_parse_symbol : sim.

Lemma sim_parse_identifier : psim (parse_identifier f1) (parse_identifier f2).
Proof. unfold parse_identifier. sim_auto. Qed.
#[local] Hint Resolve sim_parse_identifier : sim.

Lemma sim_parse_string : psim (parse_string f1) (parse_string f2).
Proof. unfold parse_string, scan_string. sim_auto. Qed.
#[local] Hint Resolve sim_parse_string : sim.

Lemma sim_parse_integer : psim (parse_integer f1) (parse_integer f2).
Proof. unfold parse_integer, scan_sign, scan_digits. sim_auto. Qed.
#[local] Hint Resolve sim_parse_integer : sim.

Lemma sim_parse_number : psim (parse_number f1) (parse_number f2).
Proof. unfold parse_number, scan_sign, scan_whole, scan_fraction. sim_auto. Qed.

Lemma sim_until_curly_close {A} (i1 : M _ _ A) i2 :
  psim i1 i2 -> psim (until_curly_close f1 i1) (until_curly_close f2 i2).
Proof. intros Hi. unfold until_curly_close. sim_auto. Qed.
#[local] Hint Resolve sim_until_curly_close : sim.

Lemma sim_parse_qualified_identifier :
  psim (parse_qualified_identifier f1) (parse_qualified_identifier f2).
Proof. unfold parse_qualified_identifier. sim_auto. Qed.
#[local] Hint Resolve sim_parse_qualified_identifier : sim.

Lemma sim_parse_type : psim (parse_type f1) (parse_type f2).
Proof. unfold parse_type. sim_auto. Qed.
#[local] Hint Resolve sim_parse_type : sim.

Lemma sim_parse_include : psim (parse_include f1) (parse_include f2).
Proof. unfold parse_include. sim_auto. Qed.
#[local] Hint Resolve sim_parse_include : sim.

Lemma sim_parse_struct_field : psim (parse_struct_field f1) (parse_struct_field f2).
Proof. unfold parse_struct_field. sim_auto. Qed.
#[local] Hint Resolve sim_parse_struct_field : sim.

Lemma sim_parse_struct : psim (parse_struct f1) (parse_struct f2).
Proof. unfold parse_struct. sim_auto. Qed.
#[local] Hint Resolve sim_parse_struct : sim.

Lemma sim_parse_mapping_field : psim (parse_mapping_field f1) (parse_mapping_field f2).
Proof. unfold parse_mapping_field. sim_auto. Qed.
#[local] Hint Resolve sim_parse_mapping_field : sim.

Lemma sim_parse_mapping : psim (parse_mapping f1) (parse_mapping f2).
Proof. unfold parse_mapping. sim_auto. Qed.
#[local] Hint Resolve sim_parse_mapping : sim.

Lemma sim_parse_optional_encoding :
  psim (parse_optional_encoding f1) (parse_optional_encoding f2).
Proof. unfold parse_optional_encoding. sim_auto. Qed.
#[local] Hint Resolve sim_parse_optional_encoding : sim.

Lemma sim_parse_encoding_field : psim (parse_encoding_field f1) (parse_encoding_field f2).
Proof. unfold parse_encoding_field. sim_auto. Qed.
#[local] Hint Resolve sim_parse_encoding_field : sim.

Lemma sim_parse_encoding_delta_block n1 n2 :
  psim n1 n2 -> psim (parse_encoding_delta_block f1 n1) (parse_encoding_delta_block f2 n2).
Proof. intros Hn. unfold parse_encoding_delta_block. sim_auto. Qed.
#[local] Hint Resolve sim_parse_encoding_delta_block : sim.

Lemma sim_parse_encoding_node d1 d2 :
  fuel_le PF d1 d2 -> psim (parse_encoding_node f1 d1) (parse_encoding_node f2 d2).
Proof.
  revert d2. induction d1 as [|d1 IH]; intros d2 Hd.
  - destruct Hd as [<-|[HF _]]; [apply sim_diverge|by apply sim_diverge_free].
  - destruct d2 as [|d2]; [exfalso; destruct Hd; lia|].
    assert (psim (parse_encoding_node f1 d1) (parse_encoding_node f2 d2)).
    { apply IH. destruct Hd as [?|[??]]; [left|right]; [lia|split; [done|lia]]. }
    simpl. sim_auto.
Qed.
#[local] Hint Resolve sim_parse_encoding_node : sim.

Lemma sim_parse_encoding : psim (parse_encoding f1) (parse_encoding f2).
Proof. unfold parse_encoding. sim_auto. Qed.
#[local] Hint Resolve sim_parse_encoding : sim.

Lemma sim_parse_document : psim (parse_document f1) (parse_document f2).
Proof. unfold parse_document, parse_includes, parse_namespace, parse_decls. sim_auto. Qed.
End parser_sim.
