(* ===== verification/LexSpec.v ===== *)
(** * The lexical grammar of the happy language

    A reference lexer: pure structural functions on byte strings, and the token stream
    they define. [LexerCorrect] proves that the lexer of the tool computes it. *)
From S2P Require Import Prelude Ast CharBuffer Lexer.

(** ** Blanks and comments *)

(** What remains after blanks and comments; [comment] tells whether the first byte is
    inside a comment. A comment ends at a line end or at a NUL byte, and NUL is not a
    blank. *)
Fixpoint drop_blank (comment : bool) (w : bytes) : bytes :=
  match w with
  | [] => []
  | c :: w' =>
      if comment then
        (if decide (c = NUL) then w
         else if decide (c = newline) then drop_blank false w'
         else if decide (c = carriage_return) then drop_blank false w'
         else drop_blank true w')
      else if is_blank c then drop_blank false w'
      else if decide (c = comment_mark) then drop_blank true w'
      else w
  end.

Abbreviation strip := (drop_blank false).

(** ** The kind of the next symbol *)

Fixpoint word_prefix (w : bytes) : bytes :=
  match w with
  | c :: w' => if is_word c then c :: word_prefix w' else []
  | [] => []
  end.

(** After the first byte of a numeral: digits, and a dot makes it a number. *)
Fixpoint numeral_kind (w : bytes) : Symbol.t :=
  match w with
  | c :: w' =>
      if is_digit c then numeral_kind w'
      else if decide (c = "."%char) then Symbol.number
      else Symbol.integer
  | [] => Symbol.integer
  end.

(** The symbol at the front of a string without leading blanks. *)
Definition classify (v : bytes) : Symbol.t :=
  match v with
  | [] => Symbol.eof
  | c :: v' =>
      if decide (c = NUL) then Symbol.eof
      else if is_digit c || bool_decide (c = "-"%char) || bool_decide (c = "+"%char)
      then numeral_kind v'
      else match sign_symbol c with
      | Some s => s
      | None =>
          if is_quote c then Symbol.string
          else if is_letter c then word_symbol (word_prefix v)
          else Symbol.error
      end
  end.

(** ** String and integer literals *)

(** The rest of a string literal after its opening delimiter: its value and what
    follows the closing one; [None] for a literal that is never closed. *)
Fixpoint read_string (delim : ascii) (w : bytes) : option (bytes * bytes) :=
  match w with
  | [] => None
  | c :: w' =>
      if decide (c = delim) then Some ([], w')
      else if decide (c = "\"%char) then
        match w' with
        | [] => None
        | c' :: w'' =>
            match read_string delim w'' with
            | Some (s, r) => Some (escaped c' :: s, r)
            | None => None
            end
        end
      else
        match read_string delim w' with
        | Some (s, r) => Some (c :: s, r)
        | None => None
        end
  end.

(** A literal at the front of [v] that leaves [r] has a length the tool can count in an
    [int]. *)
Definition fits (v r : bytes) : Prop := Z.of_nat (length v) - Z.of_nat (length r) <= int_max.

#[export] Instance fits_dec v r : Decision (fits v r).
Proof. unfold fits. apply _. Defined.

(** A string literal at the front of [v]; [None] when it is not closed, or too long. *)
Definition read_literal (v : bytes) : option (bytes * bytes) :=
  match v with
  | d :: u =>
      match read_string d u with
      | Some (s, r) => if decide (fits v r) then Some (s, r) else None
      | None => None
      end
  | [] => None
  end.

Fixpoint digits_value (acc : Z) (w : bytes) : Z * bytes :=
  match w with
  | c :: w' =>
      if is_digit c then digits_value (acc * 10 + (code c - code "0")) w' else (acc, w)
  | [] => (acc, [])
  end.

(** The sign of a numeral and what follows it. *)
Definition split_sign (v : bytes) : bool * bytes :=
  match v with
  | c :: v' =>
      if decide (c = "-"%char) then (true, v')
      else if decide (c = "+"%char) then (false, v') else (false, v)
  | [] => (false, [])
  end.

(** An integer literal: [None] when its magnitude exceeds [int64_max], or when it is too
    long. *)
Definition read_integer (v : bytes) : option (Z * bytes) :=
  let '(negative, u) := split_sign v in
  let '(z, r) := digits_value 0 u in
  if decide (z <= int64_max /\ fits v r)
  then Some (if negative : bool then - z else z, r) else None.

(** ** Tokens *)
Inductive token :=
| TSymbol (s : Symbol.t)
| TIdentifier (i : bytes)
| TString (s : bytes)
| TInteger (z : Z).

Definition next_token (w : bytes) : option (token * bytes) :=
  let v := strip w in
  match classify v with
  | Symbol.identifier =>
      let i := word_prefix v in Some (TIdentifier i, drop (length i) v)
  | Symbol.string =>
      match read_literal v with
      | Some (s, r) => Some (TString s, r)
      | None => None
      end
  | Symbol.integer =>
      match read_integer v with
      | Some (z, r) => Some (TInteger z, r)
      | None => None
      end
  | s =>
      match symbol_length s with
      | Some n => Some (TSymbol s, drop n v)
      | None => None
      end
  end.

(** [lexes w ts w']: reading the tokens [ts] from [w] leaves [w']. *)
Fixpoint lexes (w : bytes) (ts : list token) (w' : bytes) : Prop :=
  match ts with
  | [] => w = w'
  | t :: ts' => exists u, next_token w = Some (t, u) /\ lexes u ts' w'
  end.

(** The whole input is the tokens [ts]. *)
Definition token_stream (w : bytes) (ts : list token) : Prop :=
  exists w', lexes w ts w' /\ classify (strip w') = Symbol.eof.

(** ** Lemmas on the reference lexer *)

Lemma lexes_app w ts1 ts2 w'' :
  lexes w (ts1 ++ ts2) w'' <-> exists w', lexes w ts1 w' /\ lexes w' ts2 w''.
Proof.
  revert w. induction ts1 as [|t ts1 IH]; intros w; simpl.
  - split; [by eauto|by intros (w' & -> & ?)].
  - setoid_rewrite IH. split.
    + intros (u & ? & w' & ? & ?). eauto.
    + intros (w' & (u & ? & ?) & ?). eauto.
Qed.

Lemma lexes_det w ts w1 w2 : lexes w ts w1 -> lexes w ts w2 -> w1 = w2.
Proof.
  revert w. induction ts as [|t ts IH]; intros w; simpl; [congruence|].
  intros (u & Hu & H1) (u' & Hu' & H2). simplify_eq. eauto.
Qed.

Lemma numeral_kind_cases u :
  numeral_kind u = Symbol.integer \/ numeral_kind u = Symbol.number.
Proof.
  induction u as [|c u IH]; simpl; [by left|].
  destruct (is_digit c); [done|]. case_decide; auto.
Qed.

Lemma classify_valid v : classify v <> Symbol.invalid.
Proof.
  destruct v as [|c v]; [done|]. unfold classify.
  case_decide; [done|]. case_match; [by destruct (numeral_kind_cases v) as [-> | ->]|].
  unfold sign_symbol, word_symbol. by repeat case_decide; repeat case_match.
Qed.

Lemma drop_blank_suffix b w : drop_blank b w `suffix_of` w.
Proof.
  revert b. induction w as [|c w IH]; intros b; simpl; [done|].
  repeat case_match; try done; apply suffix_cons_r, IH.
Qed.

Lemma drop_suffix {A} n (w : list A) : drop n w `suffix_of` w.
Proof. exists (take n w). by rewrite take_drop. Qed.

Lemma word_prefix_prefix v : v = word_prefix v ++ drop (length (word_prefix v)) v.
Proof. induction v as [|c v IH]; simpl; [done|]. case_match; simpl; congruence. Qed.

Lemma read_string_suffix d w s r : read_string d w = Some (s, r) -> r `suffix_of` w.
Proof.
  revert s r. induction w as [w IH] using (induction_ltof1 _ length); intros s r.
  destruct w as [|c w]; simpl; [done|].
  case_decide; [intros [= <- <-]; by apply suffix_cons_r|].
  case_decide.
  - destruct w as [|c' w]; [done|]. destruct (read_string d w) as [[s' r']|] eqn:Hr; [|done].
    intros [= <- <-]. do 2 apply suffix_cons_r. eapply IH; [|done]. unfold ltof. simpl. lia.
  - destruct (read_string d w) as [[s' r']|] eqn:Hr; [|done].
    intros [= <- <-]. apply suffix_cons_r. eapply IH; [|done]. unfold ltof. simpl. lia.
Qed.

Lemma read_literal_suffix v s r : read_literal v = Some (s, r) -> (length r < length v)%nat /\ r `suffix_of` v.
Proof.
  unfold read_literal. destruct v as [|d u]; [done|].
  destruct (read_string d u) as [[s' r']|] eqn:Hr; [|done]. case_decide; [|done]. intros [= <- <-].
  apply read_string_suffix in Hr. split; [apply suffix_length in Hr; simpl; lia|by apply suffix_cons_r].
Qed.

Lemma digits_value_suffix acc w : (digits_value acc w).2 `suffix_of` w.
Proof.
  revert acc. induction w as [|c w IH]; intros acc; simpl; [done|].
  case_match; [|done]. apply suffix_cons_r, IH.
Qed.

Lemma split_sign_suffix v : (split_sign v).2 `suffix_of` v.
Proof.
  unfold split_sign. destruct v; [done|].
  repeat case_decide; simpl; try done; by apply suffix_cons_r.
Qed.

Lemma read_integer_suffix v z r : read_integer v = Some (z, r) -> r `suffix_of` v.
Proof.
  unfold read_integer. pose proof (split_sign_suffix v) as Hs.
  destruct (split_sign v) as [neg u]. pose proof (digits_value_suffix 0 u) as Hd.
  destruct (digits_value 0 u) as [z' r']. case_decide; [|done]. intros [= _ <-].
  by transitivity u.
Qed.

Lemma next_token_suffix w t w' : next_token w = Some (t, w') -> w' `suffix_of` w.
Proof.
  unfold next_token. intros Ht.
  transitivity (strip w); [|apply drop_blank_suffix].
  repeat case_match; simplify_eq; eauto using drop_suffix, read_integer_suffix.
  match goal with H : read_literal _ = _ |- _ => by apply read_literal_suffix in H as [_ ?] end.
Qed.

Lemma lexes_suffix w ts w' : lexes w ts w' -> w' `suffix_of` w.
Proof.
  revert w. induction ts as [|t ts IH]; intros w; simpl; [by intros ->|].
  intros (u & Hu & Hl). transitivity u; [by apply IH|by eapply next_token_suffix].
Qed.

(** A sign or keyword is as long as [parse_symbol] says. *)
Lemma symbol_length_le v n : symbol_length (classify v) = Some n -> (n <= length v)%nat.
Proof.
  destruct v as [|c v]; [done|]. unfold classify.
  case_decide; [done|]. case_match.
  { by destruct (numeral_kind_cases v) as [-> | ->]. }
  destruct (sign_symbol c) as [s|] eqn:Hs.
  { intros. transitivity 1%nat; [|simpl; lia].
    unfold sign_symbol in Hs. repeat case_decide; simplify_eq; simpl in *; by simplify_eq. }
  case_match; [done|]. case_match; [|done]. intros Hw.
  pose proof (word_prefix_prefix (c :: v)) as Hp.
  assert (length (word_prefix (c :: v)) <= length (c :: v))%nat.
  { rewrite Hp at 2. rewrite length_app. lia. }
  unfold word_symbol in Hw.
  repeat case_decide; simpl in Hw; simplify_eq;
    match goal with H : word_prefix _ = ?k |- _ => rewrite H in * end; done.
Qed.

Lemma digits_value_mono acc w : 0 <= acc -> acc <= (digits_value acc w).1.
Proof.
  revert acc. induction w as [|c w IH]; intros acc Hacc; simpl; [lia|].
  destruct (is_digit c) eqn:Hc; [|simpl; lia].
  unfold is_digit, in_range in Hc. apply andb_true_iff in Hc as [Hc _].
  apply Z.leb_le in Hc. etransitivity; [|apply IH]; lia.
Qed.

Lemma strip_idem w : strip (strip w) = strip w.
Proof.
  assert (forall b, strip (drop_blank b w) = drop_blank b w) as H; [|apply H].
  induction w as [|c w IH]; intros b; simpl; [done|].
  destruct b.
  - case_decide; [by subst|]. case_decide; [apply IH|]. case_decide; apply IH.
  - destruct (is_blank c) eqn:Hb; [apply IH|]. case_decide as Hc; [apply IH|].
    simpl. by rewrite Hb, decide_False.
Qed.

Lemma strip_length w : (length (strip w) <= length w)%nat.
Proof. apply suffix_length, drop_blank_suffix. Qed.

(** The symbol a token starts with. *)
Definition token_symbol (t : token) : Symbol.t :=
  match t with
  | TSymbol s => s
  | TIdentifier _ => Symbol.identifier
  | TString _ => Symbol.string
  | TInteger _ => Symbol.integer
  end.

Lemma next_token_symbol w t u :
  next_token w = Some (t, u) -> classify (strip w) = token_symbol t.
Proof.
  unfold next_token. intros Ht.
  destruct (classify (strip w)) eqn:Hs; repeat case_match; simplify_eq/=; done.
Qed.

Lemma next_token_TSymbol w s n :
  symbol_length s = Some n -> classify (strip w) = s ->
  next_token w = Some (TSymbol s, drop n (strip w)).
Proof. unfold next_token. intros Hn ->. by destruct s; simplify_eq/=. Qed.

Lemma symbol_length_pos s n : symbol_length s = Some n -> (0 < n)%nat.
Proof. destruct s; intros [= <-]; simpl; lia. Qed.

Lemma classify_identifier v :
  classify v = Symbol.identifier -> exists c u, v = c :: u /\ is_letter c = true.
Proof.
  destruct v as [|c u]; [done|]. unfold classify. case_decide; [done|]. case_match.
  { by destruct (numeral_kind_cases u) as [-> | ->]. }
  destruct (sign_symbol c) as [s|] eqn:Hs.
  { unfold sign_symbol in Hs. intros ->. repeat case_decide; simplify_eq. }
  case_match; [done|]. case_match eqn:Hl; [|done]. eauto.
Qed.

Lemma classify_integer v :
  classify v = Symbol.integer ->
  exists c u, v = c :: u /\ (is_digit c || bool_decide (c = "-"%char) || bool_decide (c = "+"%char)).
Proof.
  destruct v as [|c u]; [done|]. unfold classify. case_decide; [done|].
  case_match eqn:Hc; [intros _; exists c, u; by rewrite Hc|].
  destruct (sign_symbol c) as [s|] eqn:Hs.
  { unfold sign_symbol in Hs. intros ->. repeat case_decide; simplify_eq. }
  case_match; [done|]. case_match; [|done]. unfold word_symbol. repeat case_decide; done.
Qed.

Lemma read_integer_shorter v z r :
  classify v = Symbol.integer -> read_integer v = Some (z, r) -> (length r < length v)%nat.
Proof.
  intros (c & u & -> & Hc)%classify_integer. unfold read_integer, split_sign.
  assert (forall acc, length (digits_value acc u).2 <= length u)%nat as Hd.
  { intros acc. apply suffix_length, digits_value_suffix. }
  destruct (decide (c = "-"%char)); [|destruct (decide (c = "+"%char))].
  3:{ rewrite !bool_decide_false, !orb_false_r in Hc by done. simpl.
      destruct (is_digit c); [|done]. specialize (Hd (0 * 10 + (code c - code "0"))).
      destruct (digits_value _ u). case_decide; [|done]. intros [= _ <-]; simpl in *; lia. }
  all: specialize (Hd 0); destruct (digits_value 0 u) as [z0 r0].
  all: destruct (decide (_ /\ _)); intros Hz; simplify_eq/=; lia.
Qed.

(** Every token consumes something. *)
Lemma next_token_shorter w t u :
  next_token w = Some (t, u) -> (length u < length (strip w))%nat.
Proof.
  unfold next_token. intros Ht. destruct (classify (strip w)) eqn:Hs; simpl in Ht; simplify_eq.
  1:{ apply classify_identifier in Hs as (c & v & Hv & Hc). rewrite length_drop, Hv. simpl.
      unfold is_word. rewrite Hc. simpl. lia. }
  1:{ destruct (read_literal (strip w)) as [[s r]|] eqn:Hr; [|done]. simplify_eq.
      by apply read_literal_suffix in Hr as [? _]. }
  1:{ destruct (read_integer (strip w)) as [[z r]|] eqn:Hr; [|done]. simplify_eq.
      by eapply read_integer_shorter. }
  all: match goal with |- context [drop ?n _] =>
         assert (n <= length (strip w))%nat by (apply symbol_length_le; by rewrite Hs);
         rewrite length_drop; simpl in *; lia
       end.
Qed.

Lemma lexes_shorter w ts w' :
  lexes w ts w' -> ts <> [] -> (length (strip w') < length (strip w))%nat.
Proof.
  revert w. induction ts as [|t ts IH]; intros w; [done|]. simpl.
  intros (u & Hu & Hl) _. apply next_token_shorter in Hu. pose proof (strip_length u).
  destruct ts as [|t' ts]; [simpl in Hl; subst; lia|].
  specialize (IH u Hl ltac:(done)). lia.
Qed.
