(* ===== verification/LexerCorrect.v ===== *)
(** * The lexer computes the reference lexer

    Over the specification of the buffer, each operation of [Lexer] is proved to return
    what the functions of [LexSpec] say, with the position kept right and without ever
    consuming a byte it has not looked at. *)
From S2P Require Import Prelude Ast CharBuffer Lexer LexSpec.

Fixpoint newlines (w : bytes) : Z :=
  match w with
  | [] => 0
  | c :: w' => (if decide (c = newline) then 1 else 0) + newlines w'
  end.

Lemma newlines_nonneg w : 0 <= newlines w.
Proof. induction w; simpl; [lia|]. case_decide; lia. Qed.

Lemma newlines_app w1 w2 : newlines (w1 ++ w2) = newlines w1 + newlines w2.
Proof. induction w1; simpl; lia. Qed.

Lemma newlines_suffix v w : v `suffix_of` w -> newlines v <= newlines w.
Proof. intros [k ->]. rewrite newlines_app. pose proof (newlines_nonneg k). lia. Qed.

(** The column after [w], from column [n]: the bytes since the last line end. *)
Fixpoint column_from (n : Z) (w : bytes) : Z :=
  match w with
  | [] => n
  | c :: w' => column_from (if decide (c = newline) then 0 else n + 1) w'
  end.

Lemma column_from_snoc n w c :
  column_from n (w ++ [c]) = if decide (c = newline) then 0 else column_from n w + 1.
Proof. revert n. by induction w as [|c' w IH]; intros n; simpl. Qed.

(** [d] is where the rest [v] of the file [F] with contents [W] starts: its line counts the
    line ends before [v], and its column, which no byte adds more than one to, the bytes of
    that line before [v]. The lexer does not count carriage returns between tokens, but
    counts those inside of them. *)
Record position_of (F W v : bytes) (d : DocumentPosition) : Prop := {
  position_file : file d = F;
  position_line : line d = 1 + newlines W - newlines v;
  position_column : 0 <= column d <= Z.of_nat (length W) - Z.of_nat (length v);
  position_exact k : W = k ++ v -> carriage_return ∉ k -> column d = column_from 0 k;
}.

(** The position moves with each byte. *)
Lemma position_step F W c u d d' :
  c :: u `suffix_of` W -> position_of F W (c :: u) d -> file d' = file d ->
  line d' = line d + (if decide (c = newline) then 1 else 0) ->
  column d' = (if decide (c = newline) then 0 else column d + 1) \/
    c = carriage_return /\ column d' = column d ->
  position_of F W u d'.
Proof.
  intros [k0 Hk0] [Hf Hl Hc Hx] Hf' Hl' Hc'. simpl in *. constructor.
  - congruence.
  - case_decide; lia.
  - rewrite Hk0, length_app in *. simpl in *. case_decide; lia.
  - intros k Hk Hcr. assert (k = k0 ++ [c]) as ->.
    { apply (app_inv_tail u). rewrite <- app_assoc. simpl. congruence. }
    apply not_elem_of_app in Hcr as [Hcr Hne]. rewrite column_from_snoc.
    destruct Hc' as [->|[-> _]]; [|by destruct Hne; left].
    case_decide; [done|]. by rewrite (Hx k0).
Qed.

Lemma nth_drop {A} n (w : list A) d : nth n w d = hd d (drop n w).
Proof. revert w. induction n as [|n IH]; intros [|c w]; simpl; auto. Qed.

Lemma drop_cons_inv {A} n (w : list A) c u :
  drop n w = c :: u -> drop (S n) w = u /\ (n < length w)%nat.
Proof.
  revert w. induction n as [|n IH]; intros [|x w]; simpl; try done.
  - intros [= -> ->]. split; [by rewrite drop_0|lia].
  - intros Hd. destruct (IH _ Hd). split; [done|lia].
Qed.

(** A marker for "the same parser, having looked further": only [seen] may grow. *)
Definition looks (p p' : parser input) : Prop :=
  rest (buf p') = rest (buf p) /\ pos_ p' = pos_ p /\ next_symbol_ p' = next_symbol_ p /\
  (seen (buf p) <= seen (buf p'))%nat.

Lemma looks_refl p : looks p p.
Proof. by split_and!. Qed.

Lemma looks_trans p p' p'' : looks p p' -> looks p' p'' -> looks p p''.
Proof. intros (? & ? & ? & ?) (? & ? & ? & ?). split_and!; [congruence..|lia]. Qed.

Section lexer_correct.
Context (F W : bytes) (fuel : nat) (Hfuel : (length W < fuel)%nat).

(** The invariant: [rest] is a suffix of the whole input [W], and the position is its. *)
Definition pinv (p : parser input) : Prop :=
  rest (buf p) `suffix_of` W /\ position_of F W (rest (buf p)) (pos_ p).

Lemma pinv_looks p p' : looks p p' -> pinv p -> pinv p'.
Proof. unfold pinv. by intros (-> & -> & _). Qed.

Lemma pinv_fuel p : pinv p -> (length (rest (buf p)) < fuel)%nat.
Proof. intros (Hs & _). apply suffix_length in Hs. lia. Qed.

(** ** Primitive operations *)

Lemma wp_peek_char n p (Q : ascii -> parser input -> Prop) X D :
  (forall p', looks p p' -> (S n `min` length (rest (buf p)) <= seen (buf p'))%nat ->
     Q (hd NUL (drop n (rest (buf p)))) p') ->
  wp (peek_char n) p Q X D.
Proof.
  intros HQ. unfold wp, peek_char, on_buf. simpl. rewrite nth_drop.
  apply HQ; [split_and!|]; simpl; done || lia.
Qed.

Lemma wp_peek_front p (Q : ascii -> parser input -> Prop) X D :
  (forall p', looks p p' -> (1 `min` length (rest (buf p)) <= seen (buf p'))%nat ->
     Q (hd NUL (rest (buf p))) p') ->
  wp (peek_char 0) p Q X D.
Proof. intros HQ. apply wp_peek_char. by rewrite drop_0. Qed.

Lemma wp_skip_bytes n p (Q : unit -> parser input -> Prop) X D :
  (n <= seen (buf p))%nat ->
  Q tt (mkParser (mkInput (drop n (rest (buf p))) (seen (buf p) - n)) (pos_ p)
          (next_symbol_ p)) ->
  wp (skip_bytes n) p Q X D.
Proof. intros Hn HQ. unfold wp, skip_bytes, on_buf. simpl. by rewrite decide_True. Qed.

Lemma wp_trim p (Q : unit -> parser input -> Prop) X D : Q tt p -> wp trim p Q X D.
Proof. by destruct p. Qed.

(** ** Blanks *)

Definition blank_inv (v : bytes) (p0 p : parser input) : Prop :=
  pinv p /\ next_symbol_ p = next_symbol_ p0 /\
  (1 `min` length (rest (buf p)) <= seen (buf p))%nat /\ v = strip (rest (buf p)).

Lemma skip_comment_correct v p0 p :
  pinv p -> next_symbol_ p = next_symbol_ p0 -> (1 <= seen (buf p))%nat ->
  (exists u, rest (buf p) = comment_mark :: u /\ v = drop_blank true u) ->
  wp (skip_comment fuel) p
    (fun c p' => blank_inv v p0 p' /\ c = hd NUL (rest (buf p')) /\
       (length (rest (buf p')) < length (rest (buf p)))%nat)
    (fun _ => False) False.
Proof.
  intros Hp Hn Hseen (u & Hu & Hv). unfold skip_comment.
  apply (wp_loop
    (fun (_ : unit) q => pinv q /\ next_symbol_ q = next_symbol_ p0 /\
       (1 <= seen (buf q))%nat /\
       (length (rest (buf q)) <= length (rest (buf p)))%nat /\
       exists c u', rest (buf q) = c :: u' /\ c <> newline /\ v = drop_blank true u')
    (fun _ q => length (rest (buf q)))).
  2:{ split_and!; [done..|lia|]. by exists comment_mark, u. }
  2:{ by apply pinv_fuel. }
  intros [] q ((Hsuf & Hpos) & Hnq & Hsq & Hle & c & u' & Hq & Hc & Hvq).
  apply wp_bind. unfold wp at 1. simpl. apply wp_bind, wp_skip_bytes; simpl; [done|].
  rewrite Hq in *. simpl. rewrite drop_0. apply wp_bind, wp_peek_front. simpl.
  intros q' (Hrest & Hposq & Hnext & _) Hs. simpl in *.
  assert (pinv q') as Hq'.
  { unfold pinv. rewrite Hrest, Hposq. split; [by eapply suffix_cons_l|].
    eapply position_step; [done..| |]; simpl; rewrite decide_False by done; [lia|by left]. }
  apply wp_ret. destruct u' as [|c' u']; simpl in *.
  { unfold blank_inv. rewrite Hrest. split_and!; simpl; congruence || lia. }
  repeat case_bool_decide; simplify_eq/=; try congruence.
  { split; [|rewrite Hrest; simpl; lia].
    split_and!; rewrite ?Hrest; simpl; [congruence || lia..|].
    exists c', u'. by rewrite !decide_False in Hvq by done. }
  all: unfold blank_inv; rewrite Hrest; split_and!; simpl;
    try done; try congruence; try lia;
    by repeat (rewrite decide_False in Hvq by done || rewrite decide_True in Hvq by done).
Qed.

(** What a blank does to the position. *)
Definition blank_position (c : ascii) (d : DocumentPosition) : DocumentPosition :=
  if decide (c = newline) then mkDocumentPosition (file d) (line d + 1) 0
  else if bool_decide (c = " "%char) || bool_decide (c = tab)
  then mkDocumentPosition (file d) (line d) (column d + 1) else d.

Lemma wp_blank_position {A} c q (k : M parse_error (parser input) A) Q X D :
  wp k (mkParser (buf q) (blank_position c (pos_ q)) (next_symbol_ q)) Q X D ->
  wp ((if bool_decide (c = " "%char) || bool_decide (c = tab) then next_column else mret tt);;
      (if bool_decide (c = newline) then next_line else mret tt);; k) q Q X D.
Proof.
  unfold blank_position. intros Hk. destruct q as [b pos n].
  repeat case_bool_decide; repeat case_decide; simplify_eq/=; done.
Qed.

(** A blank that does not move the position. *)
Lemma blank_rest c :
  is_blank c = true -> c <> newline -> bool_decide (c = " "%char) || bool_decide (c = tab) = false ->
  c = carriage_return.
Proof. unfold is_blank. intros. by repeat case_bool_decide. Qed.

Lemma pinv_blank c u q q' :
  pinv q -> rest (buf q) = c :: u -> rest (buf q') = u ->
  pos_ q' = blank_position c (pos_ q) -> is_blank c = true -> pinv q'.
Proof.
  intros (Hsuf & Hpos) Hr Hr' Hp Hc. unfold pinv.
  rewrite Hr in *. rewrite Hr', Hp. split; [by eapply suffix_cons_l|].
  assert (c <> newline -> blank_position c (pos_ q) = pos_ q -> c = carriage_return) as Hcr.
  { unfold blank_position. intros Hne Heq. rewrite decide_False in Heq by done.
    apply blank_rest; [done..|]. case_match; [|done].
    apply (f_equal column) in Heq. simpl in Heq. lia. }
  unfold blank_position in *.
  eapply position_step; [done..| | |]; repeat case_decide; repeat case_match; simpl; auto with lia.
Qed.

Lemma skip_whitespace_correct p :
  pinv p ->
  wp (skip_whitespace fuel) p
    (fun _ p' => blank_inv (strip (rest (buf p))) p p' /\
       rest (buf p') = strip (rest (buf p)))
    (fun _ => False) False.
Proof.
  intros Hp. unfold skip_whitespace. apply wp_bind, wp_peek_front. intros p1 Hlooks Hs1.
  apply wp_bind.
  apply (wp_mono _ _ (fun _ p' => blank_inv (strip (rest (buf p))) p p' /\
       rest (buf p') = strip (rest (buf p))) _ (fun _ => False) _ False);
    [|intros; by apply wp_trim|done..].
  apply (wp_loop
    (fun c q => blank_inv (strip (rest (buf p))) p q /\ c = hd NUL (rest (buf q)))
    (fun _ q => length (rest (buf q)))).
  2:{ pose proof (pinv_looks _ _ Hlooks Hp). destruct Hlooks as (Hr & ? & ? & ?).
      unfold blank_inv. rewrite Hr. by split_and!. }
  2:{ apply pinv_fuel. by eapply pinv_looks. }
  intros c q [(Hq & Hn & Hs & Hv) Hc].
  destruct (is_blank c || bool_decide (c = comment_mark)) eqn:Hb.
  - apply wp_blank_position.
    destruct (rest (buf q)) as [|c' u] eqn:Hr; [by subst|]. simpl in Hc. subst c'.
    case_bool_decide as Hcm.
    + subst c. apply wp_bind. eapply wp_mono.
      * apply (skip_comment_correct (strip (rest (buf p))) p); simpl.
        -- destruct q; done.
        -- done.
        -- simpl in Hs. lia.
        -- exists u. by rewrite Hr.
      * simpl. intros c' q' (? & -> & Hl). apply wp_ret. by rewrite Hr in Hl.
      * done.
      * done.
    + rewrite orb_false_r in Hb. apply wp_bind, wp_skip_bytes; simpl; [simpl in Hs; lia|].
      rewrite Hr. simpl. rewrite drop_0. apply wp_bind, wp_peek_front.
      intros q' (Hr' & Hp' & Hn' & _) Hs'. simpl in *. apply wp_ret.
      rewrite Hb in Hv. unfold blank_inv. rewrite Hr'.
      split_and!; try done; try lia; try congruence. by eapply pinv_blank.
  - apply wp_ret. unfold blank_inv. split_and!; try done; [].
    rewrite Hv. apply orb_false_iff in Hb as [Hb1 Hb2].
    destruct (rest (buf q)) as [|c' u]; [done|]. simpl in *. subst c'.
    apply bool_decide_eq_false in Hb2. by rewrite Hb1, decide_False.
Qed.

(** ** Consuming *)

Lemma wp_advance n p :
  pinv p -> (n <= length (rest (buf p)))%nat ->
  wp (advance n) p
    (fun _ p' => pinv p' /\ rest (buf p') = drop n (rest (buf p)) /\
       next_symbol_ p' = Symbol.invalid)
    (fun _ => False) False.
Proof.
  intros (Hsuf & Hpos) Hn. unfold advance. set (v := rest (buf p)) in *.
  apply wp_bind. eapply wp_mono.
  - apply (wp_for_each (fun i q => rest (buf q) = v /\ (i <= seen (buf q))%nat /\
      position_of F W (drop i v) (pos_ q)) _ (fun _ => False) False).
    + split_and!; try done; lia.
    + intros i q Hi (Hr & Hs & Hq). apply wp_bind, wp_peek_char.
      rewrite Hr. intros q' (Hr' & Hp' & Hn' & Hsq) Hs'.
      destruct (drop i v) as [|c u] eqn:Hd.
      { apply (f_equal length) in Hd. rewrite length_drop in Hd. simpl in Hd. lia. }
      destruct (drop_cons_inv _ _ _ _ Hd) as [Hd' ?]. simpl hd.
      assert (c :: u `suffix_of` W) as Hcu.
      { rewrite <- Hd. etransitivity; [apply drop_suffix|done]. }
      destruct (decide (c = newline)) eqn:Hdec; unfold wp; simpl; rewrite Hd', Hp';
        (split_and!; [congruence|simpl in *; lia|]);
        (eapply position_step; [exact Hcu|exact Hq|..]); simpl; rewrite ?Hdec; auto with lia.
  - simpl. intros [] q (Hr & Hs & Hq). apply wp_bind, wp_skip_bytes; [done|].
    apply wp_bind. unfold wp at 1. simpl. apply wp_trim. simpl. rewrite Hr.
    split_and!; try done. unfold pinv. simpl.
    split; [|done]. etransitivity; [apply drop_suffix|done].
  - done.
  - done.
Qed.

(** ** Scanning *)

Lemma wp_scan_word off acc p :
  let v := drop off (rest (buf p)) in
  pinv p ->
  wp (scan_word fuel off acc) p
    (fun r p' => r = ((off + length (word_prefix v))%nat, acc ++ word_prefix v) /\ looks p p')
    (fun _ => False) False.
Proof.
  intros v Hp. unfold scan_word.
  apply (wp_loop
    (fun '(i, a) q => looks p q /\
       (off + length (word_prefix v) = i + length (word_prefix (drop i (rest (buf p)))))%nat /\
       acc ++ word_prefix v = a ++ word_prefix (drop i (rest (buf p))))
    (fun '(i, a) _ => length (drop i (rest (buf p))))).
  2:{ split_and!; [apply looks_refl|done..]. }
  2:{ pose proof (pinv_fuel _ Hp). rewrite length_drop. lia. }
  intros [i a] q (Hq & Hi & Ha). apply wp_bind, wp_peek_char. intros q' Hq' _.
  destruct Hq as (Hr & Hrest). rewrite Hr.
  assert (looks p q') by (eapply looks_trans; [|done]; by split).
  apply wp_ret. destruct (drop i (rest (buf p))) as [|c u] eqn:Hd; simpl in *.
  - rewrite app_nil_r in Ha. split; [f_equal; [lia|done]|done].
  - destruct (is_word c); simpl in *.
    + destruct (drop_cons_inv _ _ _ _ Hd) as [Hd' _]. rewrite Hd', <- app_assoc. simpl.
      split_and!; done || lia.
    + rewrite app_nil_r in Ha. split; [f_equal; [lia|done]|done].
Qed.

Lemma wp_scan_numeral p c u :
  pinv p -> rest (buf p) = c :: u ->
  wp (loop fuel (fun off =>
        c ← peek_char off;
        mret (if is_digit c || bool_decide (c = "."%char) then
                (if decide (c = "."%char) then inr Symbol.number else inl (S off))
              else inr Symbol.integer)) 1%nat) p
    (fun s p' => s = numeral_kind u /\ looks p p') (fun _ => False) False.
Proof.
  intros Hp Hu.
  apply (wp_loop
    (fun i q => looks p q /\ numeral_kind (drop i (rest (buf p))) = numeral_kind u)
    (fun i _ => length (drop i (rest (buf p))))).
  2:{ split; [apply looks_refl|]. rewrite Hu. simpl. by rewrite drop_0. }
  2:{ pose proof (pinv_fuel _ Hp). rewrite length_drop. lia. }
  intros i q (Hq & Hi). apply wp_bind, wp_peek_char. intros q' Hq' _.
  destruct Hq as (Hr & Hrest). rewrite Hr.
  assert (looks p q') by (eapply looks_trans; [|done]; by split).
  apply wp_ret. destruct (drop i (rest (buf p))) as [|c' u'] eqn:Hd; simpl in *; [done|].
  destruct (drop_cons_inv _ _ _ _ Hd) as [Hd' _].
  destruct (is_digit c') eqn:Hdig; simpl in *.
  - rewrite decide_False by (intros ->; done). rewrite Hd'. split_and!; done || lia.
  - case_bool_decide; case_decide; done.
Qed.

(** ** Peeking at the next symbol *)

(** The parser stands before [w]: either it has not looked, or it has skipped the
    blanks and knows the next symbol. *)
Definition peeked (w : bytes) (p : parser input) : Prop :=
  pinv p /\ w `suffix_of` W /\ next_symbol_ p = classify (strip w) /\
  rest (buf p) = strip w.

Definition at_ (w : bytes) (p : parser input) : Prop :=
  peeked w p \/ (pinv p /\ w `suffix_of` W /\ next_symbol_ p = Symbol.invalid /\ rest (buf p) = w).

Lemma wp_remember s p (Q : Symbol.t -> parser input -> Prop) X D :
  Q s (mkParser (buf p) (pos_ p) s) -> wp (remember s) p Q X D.
Proof. done. Qed.

Lemma wp_peek_symbol w p :
  at_ w p ->
  wp (peek_symbol fuel) p (fun s p' => s = classify (strip w) /\ peeked w p')
    (fun _ => False) False.
Proof.
  intros [Hp|(Hp & Hw & Hn & Hr)]; unfold peek_symbol; apply wp_bind, wp_gets.
  { destruct Hp as (Hp & Hw & Hn & Hr). rewrite Hn. cbv beta. rewrite decide_True by apply classify_valid.
    apply wp_ret. by split_and!. }
  cbv beta. rewrite decide_False by (rewrite Hn; by intros []).
  apply wp_bind. eapply wp_mono; [by apply skip_whitespace_correct| |done|done].
  intros [] q [(Hq & _ & _ & _) Hv]. rewrite Hr in Hv.
  apply wp_bind, wp_peek_front. rewrite Hv. intros q' Hq' _.
  assert (forall q'', looks q q'' ->
    wp (remember (classify (strip w))) q''
      (fun s p' => s = classify (strip w) /\ peeked w p') (fun _ => False) False) as Hdone.
  { intros q'' Hq''. apply wp_remember. split; [done|]. unfold peeked. simpl.
    pose proof (pinv_looks _ _ Hq'' Hq). destruct Hq'' as (Hr'' & _).
    rewrite Hr''. by split_and!. }
  pose proof (pinv_looks _ _ Hq' Hq) as Hpq'.
  assert (rest (buf q') = strip w) as Hvq' by (destruct Hq' as [-> _]; done).
  destruct (strip w) as [|c v]; simpl in *; [by apply Hdone|].
  case_decide; [by apply Hdone|]. case_match.
  { apply wp_bind. eapply wp_mono; [by eapply wp_scan_numeral| |done|done].
    intros s q'' [-> Hq'']. apply Hdone. by eapply looks_trans. }
  destruct (sign_symbol c); [by apply Hdone|].
  destruct (is_quote c); [by apply Hdone|].
  destruct (is_letter c) eqn:Hc; [|by apply Hdone].
  apply wp_bind. eapply wp_mono; [by apply wp_scan_word| |done|done].
  rewrite Hvq'. simpl. rewrite drop_0.
  assert (is_word c = true) as Hword by (unfold is_word; by rewrite Hc).
  rewrite Hword in Hdone |- *.
  intros [n word] q'' [[= -> ->] Hq'']. apply Hdone. by eapply looks_trans.
Qed.

(** ** Errors *)

(** [e] is the exception for an unexpected symbol at the front of [v]: it names the
    symbol and carries its position. *)
Definition failure_at (v : bytes) (e : parse_error) : Prop :=
  exists pos tail,
    e = ParseException pos (str "Unexpected symbol " ++ symbol_str (classify v) ++ tail) /\
    v `suffix_of` W /\ position_of F W v pos.

(** The next symbol is not [s], and the exception says so. *)
Definition mismatch (w : bytes) (s : Symbol.t) (e : parse_error) : Prop :=
  classify (strip w) <> s /\ failure_at (strip w) e.

Lemma message_short s tail :
  (length tail <= 64)%nat ->
  message_1024 (message_1024 (str "Unexpected symbol " ++ symbol_str s ++ tail)) =
  str "Unexpected symbol " ++ symbol_str s ++ tail.
Proof.
  intros Ht. set (m := str "Unexpected symbol " ++ symbol_str s ++ tail).
  assert (length m <= 100)%nat as Hm.
  { unfold m. rewrite !length_app.
    assert (length (symbol_str s) <= 13)%nat by (destruct s; simpl; lia).
    simpl. lia. }
  assert (100 < N.to_nat 1023)%nat by (vm_compute; lia).
  unfold message_1024. by rewrite !(take_ge m) by lia.
Qed.

Lemma wp_unexpected_with {A} w tail p (Q : A -> parser input -> Prop) D :
  (length tail <= 64)%nat -> at_ w p ->
  wp (unexpected_with fuel tail) p Q (failure_at (strip w)) D.
Proof.
  intros Ht Hp. unfold unexpected_with. apply wp_bind.
  eapply wp_mono; [by apply wp_peek_symbol| |done|done].
  intros s q [-> ((Hsuf & Hpos) & Hw & Hn & Hr)].
  apply wp_bind, wp_gets, wp_throw. rewrite message_short by done.
  rewrite Hr in *. by eexists _, _.
Qed.

Lemma wp_expect w s p :
  at_ w p ->
  wp (expect fuel s) p (fun _ p' => classify (strip w) = s /\ peeked w p')
    (mismatch w s) False.
Proof.
  intros Hp. unfold expect. apply wp_bind.
  eapply wp_mono; [by apply wp_peek_symbol| |done|done].
  intros s' q [-> Hq]. case_decide as Hs; [|apply wp_ret; split; [by destruct (decide (classify (strip w) = s))|done]].
  eapply wp_mono; [apply (wp_unexpected_with w)| |intros e He; by split|done].
  - case_decide; [|simpl; lia]. rewrite length_app.
    assert (length (symbol_str s) <= 13)%nat by (destruct s; simpl; lia).
    simpl. lia.
  - by left.
  - intros x q' Hx. exact Hx.
Qed.

(** ** Reading a token *)

Lemma at_advance w n p :
  peeked w p -> (n <= length (strip w))%nat ->
  wp (advance n) p (fun _ p' => at_ (drop n (strip w)) p') (fun _ => False) False.
Proof.
  intros (Hp & Hw & Hn & Hr) Hle.
  eapply wp_mono; [apply wp_advance; [done|by rewrite Hr]| |done|done].
  intros _ q (Hq & Hrq & Hnq). right. rewrite Hr in Hrq. split_and!; try done.
  etransitivity; [apply drop_suffix|]. etransitivity; [apply drop_blank_suffix|done].
Qed.

Lemma wp_parse_symbol w s n p :
  symbol_length s = Some n -> at_ w p ->
  wp (parse_symbol fuel s) p
    (fun _ p' => exists w', next_token w = Some (TSymbol s, w') /\ at_ w' p')
    (mismatch w s) False.
Proof.
  intros Hn Hp. unfold parse_symbol. apply wp_bind.
  eapply wp_mono; [by apply wp_expect| |done|done].
  intros [] q [Hs Hq]. apply wp_bind. rewrite Hn. eapply wp_mono.
  - apply at_advance; [done|]. apply symbol_length_le. by rewrite Hs.
  - intros [] q' Hq'. apply wp_trim. eexists. split; [|done].
    unfold next_token. rewrite Hs. by destruct s; simplify_eq/=.
  - done.
  - done.
Qed.

Lemma wp_parse_identifier w p :
  at_ w p ->
  wp (parse_identifier fuel) p
    (fun i p' => exists w', next_token w = Some (TIdentifier i, w') /\ at_ w' p')
    (mismatch w Symbol.identifier) False.
Proof.
  intros Hp. unfold parse_identifier. apply wp_bind.
  eapply wp_mono; [by apply wp_expect| |done|done].
  intros [] q [Hs Hq]. apply wp_bind.
  pose proof Hq as (Hqi & Hw & Hn & Hr).
  eapply wp_mono; [by apply wp_scan_word| |done|done].
  rewrite drop_0, Hr. intros [len i] q' [[= -> ->] Hq']. apply wp_bind. eapply wp_mono.
  - apply (at_advance w).
    + pose proof (pinv_looks _ _ Hq' Hqi). destruct Hq' as (Hr' & _ & Hn' & _).
      unfold peeked. rewrite Hr', Hn'. by split_and!.
    + rewrite (word_prefix_prefix (strip w)) at 2. rewrite length_app. lia.
  - intros [] q'' Hq''. apply wp_ret. eexists. split; [|done].
    unfold next_token. by rewrite Hs.
  - done.
  - done.
Qed.

(** *** String literals *)

(** Counting one more byte, or an overflow at the largest [int]. *)
Lemma wp_incr len p (Q : nat -> parser input -> Prop) (X : parse_error -> Prop) D :
  (Z.of_nat len < int_max -> Q (S len) p) -> (int_max <= Z.of_nat len -> X SignedOverflow) ->
  wp (incr len) p Q X D.
Proof.
  intros HQ HX. unfold incr. case_decide; [by apply wp_ret, HQ|]. apply wp_throw, HX. lia.
Qed.

(** What is left after [len] bytes leaves no literal that fits. *)
Lemma too_long len (v t r : bytes) :
  int_max <= Z.of_nat len -> (len < length v)%nat -> drop (S len) v = t -> r `suffix_of` t -> ~ fits v r.
Proof.
  intros Hlen Hv <- Hr%suffix_length. rewrite length_drop in Hr. unfold fits. lia.
Qed.

Lemma wp_scan_string d u s r p :
  pinv p -> rest (buf p) = d :: u -> read_string d u = Some (s, r) ->
  wp (scan_string fuel d) p
    (fun '(len, s') p' => s' = s /\ looks p p' /\ drop len (d :: u) = r /\
       (len <= length (d :: u))%nat /\ fits (d :: u) r)
    (fun e => e = SignedOverflow /\ ~ fits (d :: u) r) False.
Proof.
  intros Hp Hv Hs. unfold scan_string. remember (d :: u) as v eqn:Ev.
  apply (wp_loop
    (fun '(len, acc) q => looks p q /\ (len <= length v)%nat /\ Z.of_nat len <= int_max /\
       exists s', read_string d (drop len v) = Some (s', r) /\ acc ++ s' = s)
    (fun '(len, acc) _ => length (drop len v))).
  2:{ subst v. split_and!; [apply looks_refl|simpl; lia|done|]. exists s. simpl. by rewrite drop_0. }
  2:{ pose proof (pinv_fuel _ Hp). rewrite Hv in *. rewrite length_drop. lia. }
  intros [len acc] q (Hq & Hlen & Hmax & s' & Hs' & Hacc).
  apply wp_bind, wp_peek_char. intros q' Hq' _.
  assert (rest (buf q) = v) as -> by (destruct Hq as [-> _]; done).
  assert (looks p q') as Hpq' by (by eapply looks_trans).
  destruct (drop len v) as [|c t] eqn:Hd; [done|].
  destruct (drop_cons_inv _ _ _ _ Hd) as [Hd' ?]. simpl in *.
  assert (r `suffix_of` t -> int_max <= Z.of_nat len -> SignedOverflow = SignedOverflow /\ ~ fits v r) as Hover.
  { intros Hr Hlong. split; [done|]. by eapply too_long. }
  case_decide as Hc.
  { simplify_eq. rewrite app_nil_r. apply wp_bind, wp_incr; [|by apply Hover].
    intros Hle. apply wp_ret. split_and!; [done..|lia|]. unfold fits. rewrite length_drop. lia. }
  case_decide as Hesc.
  - destruct t as [|c' t]; [done|].
    destruct (read_string d t) as [[s'' r']|] eqn:Ht; [|done]. injection Hs' as <- ->.
    destruct (drop_cons_inv _ _ _ _ Hd') as [Hd'' ?].
    pose proof (read_string_suffix _ _ _ _ Ht) as Hr.
    apply wp_bind, wp_incr; [intros Hle|apply Hover; by apply suffix_cons_r].
    apply wp_bind, wp_peek_char. intros q'' Hq'' _.
    assert (rest (buf q') = v) as -> by (destruct Hpq' as [-> _]; done).
    rewrite Hd'. simpl. apply wp_bind, wp_incr; [intros Hle'|intros Hlong; split; [done|by eapply too_long]].
    apply wp_ret. rewrite Hd''. split; [|lia]. split_and!; [by eapply looks_trans|lia|lia|].
    exists s''. rewrite <- app_assoc. by split.
  - destruct (read_string d t) as [[s'' r']|] eqn:Ht; [|done]. injection Hs' as <- ->.
    pose proof (read_string_suffix _ _ _ _ Ht) as Hr.
    apply wp_bind, wp_incr; [intros Hle|by apply Hover].
    apply wp_ret. rewrite Hd'. split; [|lia]. split_and!; [done|lia|lia|].
    exists s''. rewrite <- app_assoc. by split.
Qed.

(** A round of the loop in a literal that is not closed goes further, or overflows. *)
Lemma unclosed_round d v len acc q :
  NUL <> d -> rest (buf q) = v /\ read_string d (drop len v) = None ->
  wp (A := nat * bytes + nat * bytes)
     (c ← peek_char len;
      if decide (c = d) then len ← incr len; mret (inr (len, acc))
      else if decide (c = "\"%char) then
        len ← incr len; c' ← peek_char len; len ← incr len;
        mret (inl (len, acc ++ [escaped c']))
      else len ← incr len; mret (inl (len, acc ++ [c]))) q
    (fun r q' => match r with
                 | inl (len', _) => rest (buf q') = v /\ read_string d (drop len' v) = None /\
                                    Z.of_nat len < Z.of_nat len' <= int_max
                 | inr _ => False
                 end)
    (fun e => e = SignedOverflow) False.
Proof.
  intros Hnul [Hq Hn]. apply wp_bind, wp_peek_char. rewrite Hq. intros q' [Hr' _] _.
  rewrite Hq in Hr'. destruct (drop len v) as [|c t] eqn:Hd.
  { simpl. rewrite !decide_False by done. apply wp_bind, wp_incr; [intros Hle|done].
    apply wp_ret. split_and!; [done| |lia..]. rewrite drop_ge; [done|].
    apply (f_equal length) in Hd. rewrite length_drop in Hd. simpl in Hd. lia. }
  destruct (drop_cons_inv _ _ _ _ Hd) as [Hd' ?]. simpl in *.
  case_decide; [done|]. case_decide.
  - apply wp_bind, wp_incr; [intros Hle|done]. apply wp_bind, wp_peek_char. intros q'' [Hr'' _] _.
    apply wp_bind, wp_incr; [intros Hle'|done]. apply wp_ret.
    split_and!; [congruence| |lia..]. destruct t as [|c' t].
    + rewrite drop_ge; [done|].
      apply (f_equal length) in Hd'. rewrite length_drop in Hd'. simpl in Hd'. lia.
    + destruct (drop_cons_inv _ _ _ _ Hd') as [Hd'' ?]. rewrite Hd''.
      by destruct (read_string d t) as [[]|].
  - apply wp_bind, wp_incr; [intros Hle|done]. apply wp_ret. split_and!; [done| |lia..]. rewrite Hd'.
    by destruct (read_string d t) as [[]|].
Qed.

(** In a literal that is not closed the loop goes on until its length overflows. *)
Lemma scan_string_overflows d u p :
  is_quote d = true -> rest (buf p) = d :: u -> read_string d u = None ->
  wp (scan_string fuel d) p (fun _ _ => False) (fun e => e = SignedOverflow)
    (Z.of_nat fuel <= int_max).
Proof.
  intros Hquote Hv Hs. unfold scan_string. remember (d :: u) as v eqn:Ev.
  assert (NUL <> d) as Hnul by (by intros <-).
  destruct (decide (Z.of_nat fuel <= int_max)) as [Hle|Hgt].
  - apply (wp_mono _ _ (fun _ _ => False) _ (fun e => e = SignedOverflow) _ True); [|done..].
    apply (wp_loop_partial
      (fun '(len, acc) q => rest (buf q) = v /\ read_string d (drop len v) = None)).
    2:{ subst v. simpl. by rewrite drop_0. }
    intros [len acc] q Hq. eapply wp_mono; [by apply (unclosed_round d v len acc q)|..]; try done.
    intros [[len' acc']|] q'; [|done]. by intros (? & ? & _).
  - apply (wp_mono _ _ (fun _ _ => False) _ (fun e => e = SignedOverflow) _ False); [|done..].
    apply (wp_loop
      (fun '(len, acc) q => rest (buf q) = v /\ read_string d (drop len v) = None)
      (fun '(len, acc) _ => Z.to_nat (int_max - Z.of_nat len))).
    2:{ subst v. simpl. by rewrite drop_0. }
    2:{ lia. }
    intros [len acc] q Hq. eapply wp_mono; [by apply (unclosed_round d v len acc q)|..]; try done.
    intros [[len' acc']|] q'; [|done]. intros (? & ? & ?). split; [done|lia].
Qed.

(** [w] starts with a string literal that is not closed. *)
Definition unclosed (w : bytes) : Prop :=
  exists d u, strip w = d :: u /\ is_quote d = true /\ read_string d u = None.

Lemma classify_string v :
  classify v = Symbol.string -> exists d u, v = d :: u /\ is_quote d = true.
Proof.
  destruct v as [|d u]; [done|]. unfold classify. case_decide; [done|]. case_match.
  { by destruct (numeral_kind_cases u) as [-> | ->]. }
  destruct (sign_symbol d) as [s|] eqn:Hs.
  { unfold sign_symbol in Hs. intros ->. repeat case_decide; simplify_eq. }
  case_match; [eauto|]. case_match; [|done].
  unfold word_symbol. repeat case_decide; done.
Qed.

(** A literal of the kind [s] that the tool cannot read: its length, or its value, is too
    large, or it is not closed. *)
Definition unreadable (w : bytes) : Prop :=
  classify (strip w) = Symbol.string /\ read_literal (strip w) = None \/
  classify (strip w) = Symbol.integer /\ read_integer (strip w) = None.

Lemma wp_parse_string w p :
  at_ w p ->
  wp (parse_string fuel) p
    (fun s p' => exists w', next_token w = Some (TString s, w') /\ at_ w' p')
    (fun e => mismatch w Symbol.string e \/
       (e = SignedOverflow /\ classify (strip w) = Symbol.string /\ read_literal (strip w) = None))
    (unclosed w /\ Z.of_nat fuel <= int_max).
Proof.
  intros Hp. unfold parse_string. apply wp_bind.
  eapply wp_mono; [by apply wp_expect| |by left|done].
  intros [] q [Hs Hq]. pose proof Hq as (Hqi & Hw & Hn & Hr).
  destruct (classify_string _ Hs) as (d & u & Hv & Hquote).
  apply wp_bind, wp_peek_front. intros q1 Hq1 _.
  assert (hd NUL (rest (buf q)) = d) as -> by (by rewrite Hr, Hv).
  assert (rest (buf q1) = d :: u) as Hr1 by (destruct Hq1 as [-> _]; congruence).
  pose proof (pinv_looks _ _ Hq1 Hqi) as Hq1i.
  destruct (read_string d u) as [[s r]|] eqn:Hlit.
  - apply wp_bind. eapply wp_mono; [by eapply wp_scan_string| | |done].
    + intros [len s'] q2 (-> & Hq2 & Hdrop & Hlen & Hfits). apply wp_bind. eapply wp_mono.
      * apply (at_advance w); [|by rewrite Hv].
        pose proof (looks_trans _ _ _ Hq1 Hq2) as Hq'.
        pose proof (pinv_looks _ _ Hq' Hqi). destruct Hq' as (Hr' & _ & Hn' & _).
        unfold peeked. rewrite Hr', Hn'. by split_and!.
      * intros [] q3 Hq3. apply wp_ret. eexists. split; [|done].
        unfold next_token. rewrite Hs, Hv. unfold read_literal. by rewrite Hlit, decide_True, Hdrop.
      * done.
      * done.
    + intros e [-> Hlong]. right. split_and!; [done..|]. rewrite Hv. unfold read_literal.
      by rewrite Hlit, decide_False.
  - apply wp_bind. eapply wp_mono; [by eapply scan_string_overflows|done| |].
    + intros e ->. right. split_and!; [done..|]. rewrite Hv. unfold read_literal. by rewrite Hlit.
    + intros Hf. split; [by exists d, u|done].
Qed.

(** *** Integer literals *)

Lemma wp_scan_sign p :
  wp scan_sign p
    (fun '(neg, n) p' => looks p p' /\ split_sign (rest (buf p)) = (neg, drop n (rest (buf p))) /\
       (n <= length (rest (buf p)))%nat /\ (n <= 1)%nat)
    (fun _ => False) False.
Proof.
  unfold scan_sign. apply wp_bind, wp_peek_front. intros q Hq _. apply wp_ret.
  destruct (rest (buf p)) as [|c u]; simpl; [split_and!; done || lia|].
  repeat case_decide; simpl; rewrite ?drop_0; split_and!; done || lia.
Qed.

Lemma wp_scan_digits n p :
  let v := rest (buf p) in let z := digits_value 0 (drop n v) in
  pinv p -> (n <= length v)%nat -> Z.of_nat n <= int_max ->
  wp (scan_digits fuel n) p
    (fun '(len, z') p' => looks p p' /\ z = (z', drop len v) /\ (len <= length v)%nat /\
       0 <= z' <= int64_max /\ Z.of_nat len <= int_max)
    (fun e => e = SignedOverflow /\ (int64_max < z.1 \/ ~ fits v z.2)) False.
Proof.
  intros v z Hp Hn Hn'. unfold scan_digits.
  apply (wp_loop
    (fun '(i, acc) q => looks p q /\ (i <= length v)%nat /\ 0 <= acc <= int64_max /\
       digits_value acc (drop i v) = z /\ Z.of_nat i <= int_max)
    (fun '(i, acc) _ => length (drop i v))).
  2:{ by split_and!. }
  2:{ pose proof (pinv_fuel _ Hp). rewrite length_drop. unfold v in *. lia. }
  intros [i acc] q (Hq & Hi & Hacc & Hz & Hmax). apply wp_bind, wp_peek_char. intros q' Hq' _.
  assert (rest (buf q) = v) as -> by (destruct Hq as [-> _]; done).
  assert (looks p q') as Hpq' by (by eapply looks_trans).
  destruct (drop i v) as [|c t] eqn:Hd; simpl in *.
  { rewrite <- Hz. apply wp_ret. rewrite Hd. split_and!; done || lia. }
  destruct (drop_cons_inv _ _ _ _ Hd) as [Hd' ?].
  destruct (is_digit c) eqn:Hc.
  2:{ rewrite <- Hz. apply wp_ret. rewrite Hd. split_and!; done || lia. }
  assert (0 <= code c - code "0") as Hcode.
  { unfold is_digit, in_range in Hc. apply andb_true_iff in Hc as [Hc _].
    apply Z.leb_le in Hc. lia. }
  pose proof (digits_value_mono (acc * 10 + (code c - code "0")) t ltac:(lia)) as Hmono.
  rewrite Hz in Hmono.
  apply wp_bind. unfold int64 at 1. case_decide; [|apply wp_throw; split; [done|lia]].
  apply wp_ret, wp_bind. unfold int64 at 1. case_decide; [|apply wp_throw; split; [done|lia]].
  apply wp_ret, wp_bind, wp_incr.
  - intros Hle. apply wp_ret. rewrite Hd'. split_and!; done || lia.
  - intros Hlong. split; [done|]. right. rewrite <- Hz.
    eapply too_long; [exact Hlong|done|exact Hd'|apply digits_value_suffix].
Qed.

Lemma wp_parse_integer w p :
  at_ w p ->
  wp (parse_integer fuel) p
    (fun z p' => exists w', next_token w = Some (TInteger z, w') /\ at_ w' p')
    (fun e => mismatch w Symbol.integer e \/
       (e = SignedOverflow /\ classify (strip w) = Symbol.integer /\
        read_integer (strip w) = None)) False.
Proof.
  intros Hp. unfold parse_integer. apply wp_bind.
  eapply wp_mono; [by apply wp_expect| |by left|done].
  intros [] q [Hs Hq]. pose proof Hq as (Hqi & Hw & Hn & Hr).
  apply wp_bind. eapply wp_mono; [apply wp_scan_sign| |done|done]. rewrite Hr.
  intros [neg n] q1 (Hq1 & Hsign & Hle & Hone).
  assert (rest (buf q1) = strip w) as Hr1 by (destruct Hq1 as [-> _]; done).
  pose proof (pinv_looks _ _ Hq1 Hqi) as Hq1i.
  assert (Z.of_nat n <= int_max) by (unfold int_max; lia).
  apply wp_bind. eapply wp_mono; [apply wp_scan_digits; [done|by rewrite Hr1|done]| | |done];
    rewrite Hr1.
  - intros [len z] q2 (Hq2 & Hz & Hlen & Hrange & Hmax). apply wp_bind. eapply wp_mono.
    + apply (at_advance w); [|done].
      pose proof (looks_trans _ _ _ Hq1 Hq2) as Hq'.
      pose proof (pinv_looks _ _ Hq' Hqi). destruct Hq' as (Hr' & _ & Hn' & _).
      unfold peeked. rewrite Hr', Hn'. by split_and!.
    + intros [] q3 Hq3.
      assert (next_token w = Some (TInteger (if neg then - z else z), drop len (strip w))).
      { unfold next_token. rewrite Hs. unfold read_integer. rewrite Hsign, Hz.
        rewrite decide_True; [done|]. unfold fits. rewrite length_drop. lia. }
      destruct neg; [|apply wp_ret; eauto].
      unfold int64. rewrite decide_True by (unfold int64_max in *; lia). apply wp_ret. eauto.
    + done.
    + done.
  - intros e [-> Hover]. right. split_and!; try done. unfold read_integer. rewrite Hsign.
    destruct (digits_value 0 (drop n (strip w))) as [z r]. simpl in Hover.
    rewrite decide_False; [done|]. intros [? ?]. by destruct Hover as [?|[]]; [lia|].
Qed.
End lexer_correct.
