(* ===== verification/Grammar.v ===== *)
(** * The grammar of the happy language

    Which token sequences denote which (erased) tree: a relation per construct. *)
From S2P Require Import Prelude Ast CharBuffer Lexer LexSpec Parser.

(** A sequence of items. *)
Inductive derives_all {A} (D : A -> list token -> Prop) : list A -> list token -> Prop :=
| all_nil : derives_all D [] []
| all_cons x ts xs ts' :
    D x ts -> derives_all D xs ts' -> derives_all D (x :: xs) (ts ++ ts').

(** [a.b.c] *)
Fixpoint path_tokens (space : list AstIdentifier) (name : AstIdentifier) : list token :=
  match space with
  | [] => [TIdentifier name]
  | i :: space' => TIdentifier i :: TSymbol Symbol.namespace_sep :: path_tokens space' name
  end.

Definition qualified_tokens (q : AstQualifiedIdentifier) : list token :=
  path_tokens (space q) (name q).

(** [a.b] or [a.b\[n\]] *)
Inductive derives_type : AstType -> list token -> Prop :=
| type_plain q : derives_type (mkAstType q false None) (qualified_tokens q)
| type_array q n :
    derives_type (mkAstType q true (Some n))
      (qualified_tokens q ++
       [TSymbol Symbol.bracket_open; TInteger n; TSymbol Symbol.bracket_close]).

(** [INCLUDE 'path'] *)
Inductive derives_include : AstInclude -> list token -> Prop :=
| include_path s :
    derives_include (mkAstInclude nowhere s) [TSymbol Symbol.include_kw; TString s].

(** [field: type] *)
Inductive derives_struct_field : AstStructField -> list token -> Prop :=
| struct_field i t ts :
    derives_type t ts ->
    derives_struct_field (mkAstStructField nowhere i t)
      (TIdentifier i :: TSymbol Symbol.colon :: ts).

(** [STRUCT id { ... }] *)
Inductive derives_struct : AstStruct -> list token -> Prop :=
| struct i fs ts :
    derives_all derives_struct_field fs ts ->
    derives_struct (mkAstStruct nowhere i fs)
      (TSymbol Symbol.struct_kw :: TIdentifier i :: TSymbol Symbol.curly_open ::
       ts ++ [TSymbol Symbol.curly_close]).

(** [field: 'text'] *)
Inductive derives_mapping_field : AstMappingField -> list token -> Prop :=
| mapping_field i s :
    derives_mapping_field (mkAstMappingField nowhere i s)
      [TIdentifier i; TSymbol Symbol.colon; TString s].

(** [MAPPING id: a.b { ... }] *)
Inductive derives_mapping : AstMapping -> list token -> Prop :=
| mapping i q fs ts :
    derives_all derives_mapping_field fs ts ->
    derives_mapping (mkAstMapping nowhere i q fs)
      (TSymbol Symbol.mapping_kw :: TIdentifier i :: TSymbol Symbol.colon ::
       qualified_tokens q ++ TSymbol Symbol.curly_open :: ts ++ [TSymbol Symbol.curly_close]).

(** [: encoding], or nothing for the default one. *)
Inductive derives_encoding_name : AstIdentifier -> list token -> Prop :=
| encoding_default : derives_encoding_name DEFAULT_ENCODING []
| encoding_named e : derives_encoding_name e [TSymbol Symbol.colon; TIdentifier e].

Inductive derives_encoding_field : AstEncodingNode -> list token -> Prop :=
| encoding_field i e ts :
    derives_encoding_name e ts ->
    derives_encoding_field (AstEncodingField nowhere i e) (TIdentifier i :: ts).

(** [field: encoding], [DELTA field: encoding] or [DELTA { ... }] *)
Inductive derives_node : AstEncodingNode -> list token -> Prop :=
| node_field n ts : derives_encoding_field n ts -> derives_node n ts
| node_delta_field n ts :
    derives_encoding_field n ts ->
    derives_node (AstEncodingDeltaBlock nowhere [n]) (TSymbol Symbol.delta_kw :: ts)
| node_delta_block ns ts :
    derives_all derives_node ns ts ->
    derives_node (AstEncodingDeltaBlock nowhere ns)
      (TSymbol Symbol.delta_kw :: TSymbol Symbol.curly_open ::
       ts ++ [TSymbol Symbol.curly_close]).

(** [ENCODING id: encoding { ... }] *)
Inductive derives_encoding : AstEncoding -> list token -> Prop :=
| encoding i e tse ns ts :
    derives_encoding_name e tse ->
    derives_all derives_node ns ts ->
    derives_encoding (mkAstEncoding nowhere i e ns)
      (TSymbol Symbol.encoding_kw :: TIdentifier i ::
       tse ++ TSymbol Symbol.curly_open :: ts ++ [TSymbol Symbol.curly_close]).

(** [NAMESPACE a.b], or nothing. *)
Inductive derives_namespace : AstQualifiedIdentifier -> list token -> Prop :=
| namespace_none : derives_namespace empty_qualified []
| namespace_some q :
    derives_namespace q (TSymbol Symbol.namespace_kw :: qualified_tokens q).

(** The declarations, in any order; the tree keeps each kind in its own list. *)
Inductive derives_decls :
    list AstStruct -> list AstMapping -> list AstEncoding -> list token -> Prop :=
| decls_nil : derives_decls [] [] [] []
| decls_struct s ts ss ms es ts' :
    derives_struct s ts -> derives_decls ss ms es ts' ->
    derives_decls (s :: ss) ms es (ts ++ ts')
| decls_mapping m ts ss ms es ts' :
    derives_mapping m ts -> derives_decls ss ms es ts' ->
    derives_decls ss (m :: ms) es (ts ++ ts')
| decls_encoding e ts ss ms es ts' :
    derives_encoding e ts -> derives_decls ss ms es ts' ->
    derives_decls ss ms (e :: es) (ts ++ ts').

Inductive derives_document : AstRoot -> list token -> Prop :=
| document incs tsi q tsq ss ms es tsd :
    derives_all derives_include incs tsi ->
    derives_namespace q tsq ->
    derives_decls ss ms es tsd ->
    derives_document (mkAstRoot nowhere incs q ss ms es) (tsi ++ tsq ++ tsd).

(** ** Facts about derivations *)

Lemma derives_all_snoc {A} (D : A -> list token -> Prop) xs ts x ts' :
  derives_all D xs ts -> D x ts' -> derives_all D (xs ++ [x]) (ts ++ ts').
Proof.
  intros Hxs Hx. induction Hxs as [|y tsy xs ts Hy Hxs IH]; simpl.
  - rewrite <- (app_nil_r ts'). apply all_cons; [done|apply all_nil].
  - rewrite <- app_assoc. by apply all_cons.
Qed.

Lemma derives_all_fmap {A B} (f : A -> B) (D : B -> list token -> Prop) xs ts :
  derives_all (fun x => D (f x)) xs ts -> derives_all D (f <$> xs) ts.
Proof. induction 1; simpl; eauto using derives_all. Qed.

Lemma derives_struct_field_cons f ts : derives_struct_field f ts -> ts <> [].
Proof. by intros []. Qed.
Lemma derives_mapping_field_cons f ts : derives_mapping_field f ts -> ts <> [].
Proof. by intros []. Qed.
Lemma derives_node_cons n ts : derives_node n ts -> ts <> [].
Proof. intros [? ? []| |]; done. Qed.
Lemma derives_include_cons i ts : derives_include i ts -> ts <> [].
Proof. by intros []. Qed.

Lemma path_tokens_snoc sp i n :
  path_tokens (sp ++ [i]) n =
  path_tokens sp i ++ [TSymbol Symbol.namespace_sep; TIdentifier n].
Proof. induction sp as [|j sp IH]; simpl; [done|by rewrite IH]. Qed.

(** A path is an identifier and then a separator and an identifier for each other. *)
Lemma path_tokens_cons sp n :
  exists i l, sp ++ [n] = i :: l /\
    path_tokens sp n = TIdentifier i ::
      (l ≫= fun j => [TSymbol Symbol.namespace_sep; TIdentifier j]).
Proof.
  induction sp as [|i sp (j & l & Heq & IH)]; simpl; [by exists n, []|].
  exists i, (j :: l). by rewrite Heq, IH.
Qed.

Lemma derives_decls_snoc_struct ss ms es ts s ts' :
  derives_decls ss ms es ts -> derives_struct s ts' ->
  derives_decls (ss ++ [s]) ms es (ts ++ ts').
Proof.
  intros Hd Hs. induction Hd; simpl; rewrite <- ?app_assoc; eauto using derives_decls.
  rewrite <- (app_nil_r ts'). by apply decls_struct; [|apply decls_nil].
Qed.

Lemma derives_decls_snoc_mapping ss ms es ts m ts' :
  derives_decls ss ms es ts -> derives_mapping m ts' ->
  derives_decls ss (ms ++ [m]) es (ts ++ ts').
Proof.
  intros Hd Hs. induction Hd; simpl; rewrite <- ?app_assoc; eauto using derives_decls.
  rewrite <- (app_nil_r ts'). by apply decls_mapping; [|apply decls_nil].
Qed.

Lemma derives_decls_snoc_encoding ss ms es ts e ts' :
  derives_decls ss ms es ts -> derives_encoding e ts' ->
  derives_decls ss ms (es ++ [e]) (ts ++ ts').
Proof.
  intros Hd Hs. induction Hd; simpl; rewrite <- ?app_assoc; eauto using derives_decls.
  rewrite <- (app_nil_r ts'). by apply decls_encoding; [|apply decls_nil].
Qed.
