(* ===== verification/ParserComplete.v ===== *)
(** * The parser accepts the whole grammar

    Over the specification of the buffer: on input that lexes to a derivation of a tree,
    each parse function returns that tree (up to origins) and stops right after it. *)
From S2P Require Import Prelude Ast CharBuffer Lexer Parser LexSpec LexerCorrect Grammar.
From S2P Require Import ParserCorrect.

Section parser_complete.
Context (F W : bytes) (fuel : nat) (Hfuel : (length W < fuel)%nat).

Abbreviation at_ := (at_ F W).
Abbreviation P := (M parse_error (parser input)).
(** [m] returns, in [Q]. *)
Abbreviation returns m p Q := (wp m p Q (fun _ => False) False).

(** ** Token readers *)

Lemma c_peek w p (Q : Symbol.t -> parser input -> Prop) :
  at_ w p -> (forall p', at_ w p' -> Q (classify (strip w)) p') ->
  returns (peek_symbol fuel) p Q.
Proof.
  intros Hp HQ. eapply wp_mono; [by eapply wp_peek_symbol| |done|done].
  intros s p' [-> ?]. apply HQ. by left.
Qed.

Lemma mismatch_token w t u e :
  next_token w = Some (t, u) -> ~ mismatch F W w (token_symbol t) e.
Proof. intros Ht%next_token_symbol [Hs _]. done. Qed.

Lemma c_symbol s n w w' p (Q : unit -> parser input -> Prop) :
  symbol_length s = Some n -> next_token w = Some (TSymbol s, w') -> at_ w p ->
  (forall p', at_ w' p' -> Q tt p') -> returns (parse_symbol fuel s) p Q.
Proof.
  intros Hn Ht Hp HQ. eapply wp_mono; [by eapply wp_parse_symbol| | |done].
  - intros [] p' (u & Hu & ?). simplify_eq. eauto.
  - intros e He. by eapply (mismatch_token w (TSymbol s)).
Qed.

Lemma c_identifier i w w' p (Q : AstIdentifier -> parser input -> Prop) :
  next_token w = Some (TIdentifier i, w') -> at_ w p ->
  (forall p', at_ w' p' -> Q i p') -> returns (parse_identifier fuel) p Q.
Proof.
  intros Ht Hp HQ. eapply wp_mono; [by eapply wp_parse_identifier| | |done].
  - intros j p' (u & Hu & ?). simplify_eq. eauto.
  - intros e He. by eapply (mismatch_token w (TIdentifier i)).
Qed.

Lemma c_string s w w' p (Q : AstString -> parser input -> Prop) :
  next_token w = Some (TString s, w') -> at_ w p ->
  (forall p', at_ w' p' -> Q s p') -> returns (parse_string fuel) p Q.
Proof.
  intros Ht Hp HQ. eapply wp_mono; [by eapply wp_parse_string| | |].
  - intros j p' (u & Hu & ?). simplify_eq. eauto.
  - intros e [He|(_ & Hs & Hr)]; [by eapply (mismatch_token w (TString s))|].
    unfold next_token in Ht. by rewrite Hs, Hr in Ht.
  - intros [(d & u & Hv & Hq & Hr) _]. pose proof (next_token_symbol _ _ _ Ht) as Hs.
    unfold next_token, read_literal in Ht. rewrite Hs, Hv in Ht. simpl in Ht. by rewrite Hr in Ht.
Qed.

Lemma c_integer z w w' p (Q : AstInteger -> parser input -> Prop) :
  next_token w = Some (TInteger z, w') -> at_ w p ->
  (forall p', at_ w' p' -> Q z p') -> returns (parse_integer fuel) p Q.
Proof.
  intros Ht Hp HQ. eapply wp_mono; [by eapply wp_parse_integer| | |done].
  - intros j p' (u & Hu & ?). simplify_eq. eauto.
  - intros e [He|(_ & Hs & Hr)]; [by eapply (mismatch_token w (TInteger z))|].
    unfold next_token in Ht. by rewrite Hs, Hr in Ht.
Qed.

(** ** Sequences *)

(** Split the lexing hypotheses into one per token or part. *)
Ltac split_lexes :=
  repeat match goal with
         | H : lexes _ (_ :: _) _ |- _ => destruct H as (? & ? & H)
         | H : lexes _ (_ ++ _) _ |- _ =>
             apply lexes_app in H; destruct H as (? & ? & H)
         | H : lexes _ [] _ |- _ => simpl in H; subst
         end.

(** [starts first D]: every derivation in [D] starts with a symbol in [first]. *)
Definition starts {A} (first : Symbol.t -> Prop) (D : A -> list token -> Prop) : Prop :=
  forall x ts, D x ts -> exists t ts', ts = t :: ts' /\ first (token_symbol t).

Lemma starts_next {A} first (D : A -> list token -> Prop) x ts w w' :
  starts first D -> D x ts -> lexes w ts w' -> first (classify (strip w)).
Proof.
  intros HD Hx Hlex. destruct (HD _ _ Hx) as (t & ts' & -> & Ht).
  destruct Hlex as (u & Hu & _). by rewrite (next_token_symbol _ _ _ Hu).
Qed.

Lemma starts_shorter {A} first (D : A -> list token -> Prop) x ts w w' :
  starts first D -> D x ts -> lexes w ts w' -> (length (strip w') < length (strip w))%nat.
Proof.
  intros HD Hx Hlex. eapply lexes_shorter; [done|].
  by destruct (HD _ _ Hx) as (t & ts' & -> & _).
Qed.

(** [accepts m D f follow w]: on a derivation of [x] at [w] with a symbol in [follow]
    after it, [m] returns a result that [f] takes to [x]. *)
Definition accepts {A B} (m : P A) (D : B -> list token -> Prop) (f : A -> B)
    (follow : Symbol.t -> Prop) (w : bytes) : Prop :=
  forall x ts w' p, D x ts -> lexes w ts w' -> follow (classify (strip w')) -> at_ w p ->
  returns m p (fun x' p' => f x' = x /\ at_ w' p').

Lemma c_item {A B} (m : P A) D (f : A -> B) follow x ts w w' p
    (Q : A -> parser input -> Prop) :
  accepts m D f follow w -> D x ts -> lexes w ts w' -> follow (classify (strip w')) ->
  at_ w p -> (forall x' p', f x' = x -> at_ w' p' -> Q x' p') -> returns m p Q.
Proof.
  intros Hm Hx Hlex Hfollow Hp HQ. eapply wp_mono; [by eapply Hm| |done|done].
  intros x' p' [? ?]. auto.
Qed.

Lemma c_until_curly_close {A B} (item : P A) D (f : A -> B) first xs ts w0 w' p
    (Q : list A -> parser input -> Prop) :
  starts first D -> ~ first Symbol.curly_close ->
  (forall w, (length (strip w) <= length (strip w0))%nat ->
     accepts item D f (fun s => first s \/ s = Symbol.curly_close) w) ->
  derives_all D xs ts -> lexes w0 ts w' -> classify (strip w') = Symbol.curly_close ->
  at_ w0 p -> (forall xs' p', f <$> xs' = xs -> at_ w' p' -> Q xs' p') ->
  returns (until_curly_close fuel item) p Q.
Proof.
  intros Hstarts Hfirst Hitem Hxs Hlex Hclose Hp HQ. unfold until_curly_close.
  apply (wp_loop
    (fun ys q => exists zs ts1 w1, (f <$> ys) ++ zs = xs /\ derives_all D zs ts1 /\
       lexes w1 ts1 w' /\ (length (strip w1) <= length (strip w0))%nat /\ at_ w1 q)
    (fun _ q => left_ q)).
  2:{ exists xs, ts, w0. by split_and!. }
  2:{ by eapply at_left_fuel. }
  intros ys q (zs & ts1 & w1 & Heq & Hzs & Hlex1 & Hle & Hq). apply wp_bind, (c_peek w1); [done|].
  intros q' Hq'. destruct Hzs as [|z tz zs tzs Hz Hzs].
  - simpl in Hlex1. subst w1. rewrite Hclose. simpl. rewrite app_nil_r in Heq.
    apply wp_ret. by apply HQ.
  - split_lexes. match goal with H : lexes _ tz ?u |- _ => rename u into w2; rename H into Hz2 end.
    pose proof (starts_next _ _ _ _ _ _ Hstarts Hz Hz2) as Hfz.
    rewrite decide_True by (intros Hc; apply Hfirst; by rewrite <- Hc).
    pose proof (starts_shorter _ _ _ _ _ _ Hstarts Hz Hz2) as Hlt.
    apply wp_bind. eapply c_item; [by apply Hitem|done..| |done|].
    + destruct Hzs as [|z' tz' zs tzs Hz' Hzs]; [simpl in Hlex1; subst; by right|].
      split_lexes. left. by eapply starts_next.
    + intros y q2 <- Hq2. apply wp_ret. split.
      * exists zs, tzs, w2. rewrite fmap_app, <- app_assoc. split_and!; done || lia.
      * by rewrite (at_left F W w1 q), (at_left F W w2 q2) by done.
Qed.

(** ** Productions *)

Abbreviation not_in ss := (fun s : Symbol.t => s ∉ ss).

Lemma complete_qualified_identifier w :
  accepts (parse_qualified_identifier fuel) (fun q ts => ts = qualified_tokens q) id
    (not_in [Symbol.namespace_sep]) w.
Proof.
  intros [sp nm] ts w' p -> Hlex Hfollow Hp. unfold parse_qualified_identifier.
  unfold qualified_tokens in Hlex. simpl in Hlex.
  destruct (path_tokens_cons sp nm) as (i & l & Heq0 & Hpath). rewrite Hpath in Hlex.
  destruct Hlex as (w1 & Ht1 & Hlex).
  apply wp_bind. eapply c_identifier; [done..|]. intros p1 Hp1.
  apply (wp_loop
    (fun '(sp1, tmp) q => exists sp2 w2, (sp1 ++ tmp :: sp2) = sp ++ [nm] /\
       lexes w2 (sp2 ≫= fun j => [TSymbol Symbol.namespace_sep; TIdentifier j]) w' /\
       at_ w2 q)
    (fun _ q => left_ q)).
  2:{ exists l, w1. by split_and!. }
  2:{ by eapply at_left_fuel. }
  intros [sp1 tmp] q (sp2 & w2 & Heq & Hlex2 & Hq).
  apply wp_bind, (c_peek w2); [done|]. intros q' Hq'.
  destruct sp2 as [|j sp2].
  - simpl in Hlex2. subst w2. rewrite decide_False by set_solver. apply wp_ret.
    apply app_inj_tail in Heq as [-> ->]. done.
  - simpl in Hlex2. destruct Hlex2 as (w3 & Ht3 & w4 & Ht4 & Hlex4).
    rewrite decide_True by (by eapply next_token_symbol in Ht3).
    apply wp_bind. eapply (c_symbol _ 1%nat); [done..|]. intros q3 Hq3.
    apply wp_bind. eapply c_identifier; [done..|]. intros q4 Hq4. apply wp_ret. split.
    + exists sp2, w4. by rewrite <- app_assoc.
    + rewrite (at_left F W w4 q4), (at_left F W w2 q) by done.
      apply (lexes_shorter w2 [TSymbol Symbol.namespace_sep; TIdentifier j]); [|done].
      simpl. eauto.
Qed.

(** The symbol at [w], from the token there. *)
Ltac by_next_token :=
  match goal with
  | H : next_token ?w = Some _ |- context [classify (strip ?w)] =>
      rewrite (next_token_symbol _ _ _ H); simpl; first [done|set_solver]
  end.

Lemma complete_type w :
  accepts (parse_type fuel) derives_type id
    (not_in [Symbol.namespace_sep; Symbol.bracket_open]) w.
Proof.
  intros t ts w' p Ht Hlex Hfollow Hp. unfold parse_type.
  destruct Ht as [q|q n].
  - apply wp_bind. eapply c_item; [apply complete_qualified_identifier|done|done|set_solver|done|].
    intros q' p1 Heq Hp1. simpl in Heq. subst q'. apply wp_bind, (c_peek w'); [done|]. intros p2 Hp2.
    rewrite decide_False by set_solver. by apply wp_ret.
  - split_lexes. apply wp_bind.
    eapply c_item; [apply complete_qualified_identifier|done|done|by_next_token|done|].
    intros q' p1 Heq Hp1. simpl in Heq. subst q'.
    apply wp_bind. eapply c_peek; [done|]. intros p2 Hp2.
    rewrite decide_True by by_next_token. apply wp_bind. eapply (c_symbol _ 1%nat); [done..|]. intros p3 Hp3.
    apply wp_bind. eapply c_integer; [done..|]. intros p4 Hp4.
    apply wp_bind. eapply (c_symbol _ 1%nat); [done..|]. intros p5 Hp5. by apply wp_ret.
Qed.

Lemma complete_include w :
  accepts (parse_include fuel) derives_include erase_include (fun _ => True) w.
Proof.
  intros i ts w' p [s] Hlex _ Hp. split_lexes. unfold parse_include.
  apply wp_bind, wp_gets.
  apply wp_bind. eapply (c_symbol _ 7%nat); [done..|]. intros p1 Hp1.
  apply wp_bind. eapply c_string; [done..|]. intros p2 Hp2. by apply wp_ret.
Qed.

Abbreviation identifier_first := (fun s => s = Symbol.identifier).

Lemma struct_field_starts : starts identifier_first derives_struct_field.
Proof. intros f ts [i t ts' Ht]. eauto. Qed.

Lemma mapping_field_starts : starts identifier_first derives_mapping_field.
Proof. intros f ts [i s]. eauto. Qed.

Lemma complete_struct_field w :
  accepts (parse_struct_field fuel) derives_struct_field erase_struct_field
    (fun s => identifier_first s \/ s = Symbol.curly_close) w.
Proof.
  intros f ts w' p [i t ts' Ht] Hlex Hfollow Hp. split_lexes. unfold parse_struct_field.
  apply wp_bind, wp_gets.
  apply wp_bind. eapply c_identifier; [done..|]. intros p1 Hp1.
  apply wp_bind. eapply (c_symbol _ 1%nat); [done..|]. intros p2 Hp2.
  apply wp_bind. eapply c_item; [apply complete_type|done|done| |done|].
  { destruct Hfollow as [-> | ->]; set_solver. }
  intros t' p3 Heq Hp3. simpl in Heq. subst t'. by apply wp_ret.
Qed.

Lemma complete_struct w :
  accepts (parse_struct fuel) derives_struct erase_struct (fun _ => True) w.
Proof.
  intros s ts w' p [i fs ts' Hfs] Hlex _ Hp. split_lexes. unfold parse_struct.
  apply wp_bind, wp_gets.
  apply wp_bind. eapply (c_symbol _ 6%nat); [done..|]. intros p1 Hp1.
  apply wp_bind. eapply c_identifier; [done..|]. intros p2 Hp2.
  apply wp_bind. eapply (c_symbol _ 1%nat); [done..|]. intros p3 Hp3.
  apply wp_bind. eapply c_until_curly_close;
    [apply struct_field_starts|done|intros; apply complete_struct_field|done|done|by_next_token|done|].
  intros fs' p4 <- Hp4. apply wp_bind. eapply (c_symbol _ 1%nat); [done..|].
  intros p5 Hp5. by apply wp_ret.
Qed.

Lemma complete_mapping_field w :
  accepts (parse_mapping_field fuel) derives_mapping_field erase_mapping_field
    (fun s => identifier_first s \/ s = Symbol.curly_close) w.
Proof.
  intros f ts w' p [i s] Hlex _ Hp. split_lexes. unfold parse_mapping_field.
  apply wp_bind, wp_gets.
  apply wp_bind. eapply c_identifier; [done..|]. intros p1 Hp1.
  apply wp_bind. eapply (c_symbol _ 1%nat); [done..|]. intros p2 Hp2.
  apply wp_bind. eapply c_string; [done..|]. intros p3 Hp3. by apply wp_ret.
Qed.

Lemma complete_mapping w :
  accepts (parse_mapping fuel) derives_mapping erase_mapping (fun _ => True) w.
Proof.
  intros m ts w' p [i q fs ts' Hfs] Hlex _ Hp. split_lexes. unfold parse_mapping.
  apply wp_bind, wp_gets.
  apply wp_bind. eapply (c_symbol _ 7%nat); [done..|]. intros p1 Hp1.
  apply wp_bind. eapply c_identifier; [done..|]. intros p2 Hp2.
  apply wp_bind. eapply (c_symbol _ 1%nat); [done..|]. intros p3 Hp3.
  apply wp_bind. eapply c_item; [apply complete_qualified_identifier|done|done|by_next_token|done|].
  intros q' p4 Heq Hp4. simpl in Heq. subst q'.
  apply wp_bind. eapply (c_symbol _ 1%nat); [done..|]. intros p5 Hp5.
  apply wp_bind. eapply c_until_curly_close;
    [apply mapping_field_starts|done|intros; apply complete_mapping_field|done|done|by_next_token|done|].
  intros fs' p6 <- Hp6. apply wp_bind. eapply (c_symbol _ 1%nat); [done..|].
  intros p7 Hp7. by apply wp_ret.
Qed.

Lemma complete_optional_encoding w :
  accepts (parse_optional_encoding fuel) derives_encoding_name id
    (not_in [Symbol.colon]) w.
Proof.
  intros e ts w' p He Hlex Hfollow Hp. unfold parse_optional_encoding.
  apply wp_bind, (c_peek w); [done|]. intros p1 Hp1. destruct He as [|e]; split_lexes.
  - rewrite decide_False by set_solver. by apply wp_ret.
  - rewrite decide_True by by_next_token. apply wp_bind.
    eapply (c_symbol _ 1%nat); [done..|]. intros p2 Hp2. by eapply c_identifier.
Qed.

Lemma complete_encoding_field w :
  accepts (parse_encoding_field fuel) derives_encoding_field erase_node
    (not_in [Symbol.colon]) w.
Proof.
  intros n ts w' p [i e ts' He] Hlex Hfollow Hp. split_lexes. unfold parse_encoding_field.
  apply wp_bind, wp_gets.
  apply wp_bind. eapply c_identifier; [done..|]. intros p1 Hp1.
  apply wp_bind. eapply c_item; [apply complete_optional_encoding|done..|].
  intros e' p2 Heq Hp2. simpl in Heq. subst e'. by apply wp_ret.
Qed.

Abbreviation node_first := (fun s => s = Symbol.identifier \/ s = Symbol.delta_kw).
Abbreviation node_follow := (fun s => node_first s \/ s = Symbol.curly_close).

Lemma encoding_field_starts : starts identifier_first derives_encoding_field.
Proof. intros n ts [i e ts' He]. eauto. Qed.

Lemma node_starts : starts node_first derives_node.
Proof.
  intros n ts [n' ts' Hf|n' ts' Hf|ns ts' Hns]; [|eauto..].
  destruct (encoding_field_starts _ _ Hf) as (t & ts'' & -> & ?). eauto.
Qed.

Lemma node_follow_colon s : node_follow s -> s ∉ [Symbol.colon].
Proof. intros [[-> | ->]| ->]; set_solver. Qed.

Lemma complete_delta_block node w :
  (forall w', (length (strip w') < length (strip w))%nat ->
     accepts node derives_node erase_node node_follow w') ->
  accepts (parse_encoding_delta_block fuel node)
    (fun n ts => derives_node n ts /\ exists ts', ts = TSymbol Symbol.delta_kw :: ts')
    erase_node node_follow w.
Proof.
  intros Hnode n ts w' p [Hn (ts' & Hts)] Hlex Hfollow Hp. subst ts.
  unfold parse_encoding_delta_block. apply wp_bind, wp_gets.
  destruct Hlex as (w1 & Ht1 & Hlex).
  apply wp_bind. eapply (c_symbol _ 5%nat); [done..|]. intros p1 Hp1.
  assert (length (strip w1) < length (strip w))%nat as Hlt.
  { pose proof (strip_length w1). apply next_token_shorter in Ht1. lia. }
  apply wp_bind, (c_peek w1); [done|]. intros p2 Hp2.
  inversion Hn as [n' ts Hf|n' ts Hf|ns ts Hns]; subst.
  - by destruct (encoding_field_starts _ _ Hf) as (t & ts'' & [= <- <-] & ?).
  - pose proof (starts_next _ _ _ _ _ _ encoding_field_starts Hf Hlex) as Hs.
    rewrite Hs. apply wp_bind. eapply c_item; [by apply Hnode|by apply node_field|done..|].
    intros x p3 <- Hp3. by apply wp_ret.
  - split_lexes.
    assert (classify (strip w1) = Symbol.curly_open) as -> by by_next_token.
    apply wp_bind. eapply (c_symbol _ 1%nat); [done..|]. intros p3 Hp3.
    apply wp_bind. eapply c_until_curly_close;
      [apply node_starts|by intros [|]| |done|done|by_next_token|done|].
    { intros w2 Hw2. apply Hnode.
      match goal with H : next_token w1 = Some (_, ?u) |- _ =>
        pose proof (strip_length u); apply next_token_shorter in H end. lia. }
    intros ns' p4 <- Hp4. apply wp_bind. eapply (c_symbol _ 1%nat); [done..|].
    intros p5 Hp5. by apply wp_ret.
Qed.

Lemma complete_encoding_node depth w :
  (length (strip w) < depth)%nat ->
  accepts (parse_encoding_node fuel depth) derives_node erase_node node_follow w.
Proof.
  revert w. induction depth as [|depth IH]; intros w Hdepth n ts w' p Hn Hlex Hfollow Hp; [lia|].
  simpl. apply wp_bind, (c_peek w); [done|]. intros p1 Hp1.
  inversion Hn as [n' ts1 Hf|n' ts1 Hf|ns ts1 Hns]; subst.
  - rewrite (starts_next _ _ _ _ _ _ encoding_field_starts Hf Hlex).
    eapply c_item; [apply complete_encoding_field|done|done|by apply node_follow_colon|done|done].
  - assert (classify (strip w) = Symbol.delta_kw) as ->.
    { destruct Hlex as (u & Hu & _). by_next_token. }
    eapply complete_delta_block; [|by eauto|done..]. intros w2 Hw2. apply IH. lia.
  - assert (classify (strip w) = Symbol.delta_kw) as ->.
    { destruct Hlex as (u & Hu & _). by_next_token. }
    eapply complete_delta_block; [|by eauto|done..]. intros w2 Hw2. apply IH. lia.
Qed.

Lemma complete_encoding w :
  accepts (parse_encoding fuel) derives_encoding erase_encoding (fun _ => True) w.
Proof.
  intros e ts w' p [i e' tse ns ts' He Hns] Hlex _ Hp. split_lexes. unfold parse_encoding.
  apply wp_bind, wp_gets.
  apply wp_bind. eapply (c_symbol _ 8%nat); [done..|]. intros p1 Hp1.
  apply wp_bind. eapply c_identifier; [done..|]. intros p2 Hp2.
  apply wp_bind. eapply c_item; [apply complete_optional_encoding|done|done|by_next_token|done|].
  intros e'' p3 Heq Hp3. simpl in Heq. subst e''.
  apply wp_bind. eapply (c_symbol _ 1%nat); [done..|]. intros p4 Hp4.
  apply wp_bind. eapply c_until_curly_close;
    [apply node_starts|by intros [|]| |done|done|by_next_token|done|].
  { intros w2 Hw2. apply complete_encoding_node.
    match type of Hp4 with LexerCorrect.at_ _ _ ?u _ => pose proof (strip_length u) end.
    apply at_suffix, suffix_length in Hp4. lia. }
  intros ns' p5 <- Hp5. apply wp_bind. eapply (c_symbol _ 1%nat); [done..|].
  intros p6 Hp6. by apply wp_ret.
Qed.

Lemma include_starts : starts (fun s => s = Symbol.include_kw) derives_include.
Proof. intros i ts [s]. eauto. Qed.

Lemma complete_includes w :
  accepts (parse_includes fuel) (derives_all derives_include) (fmap erase_include)
    (not_in [Symbol.include_kw]) w.
Proof.
  intros is_ ts w' p His Hlex Hfollow Hp. unfold parse_includes.
  apply (wp_loop
    (fun ys q => exists zs ts1 w1, (erase_include <$> ys) ++ zs = is_ /\
       derives_all derives_include zs ts1 /\ lexes w1 ts1 w' /\ at_ w1 q)
    (fun _ q => left_ q)).
  2:{ exists is_, ts, w. by split_and!. }
  2:{ by eapply at_left_fuel. }
  intros ys q (zs & ts1 & w1 & Heq & Hzs & Hlex1 & Hq). apply wp_bind, (c_peek w1); [done|].
  intros q' Hq'. destruct Hzs as [|z tz zs tzs Hz Hzs].
  - simpl in Hlex1. subst w1. rewrite app_nil_r in Heq. subst is_.
    rewrite decide_False by set_solver. by apply wp_ret.
  - split_lexes. match goal with H : lexes _ tz ?u |- _ => rename u into w2; rename H into Hz2 end.
    rewrite decide_True by (by eapply (starts_next _ _ _ _ _ _ include_starts)).
    pose proof (starts_shorter _ _ _ _ _ _ include_starts Hz Hz2) as Hlt.
    apply wp_bind. eapply c_item; [apply complete_include|done..|].
    intros y q2 <- Hq2. apply wp_ret. split.
    + exists zs, tzs, w2. by rewrite fmap_app, <- app_assoc.
    + by rewrite (at_left F W w2 q2), (at_left F W w1 q) by done.
Qed.

Lemma complete_namespace w :
  accepts (parse_namespace fuel) derives_namespace id
    (not_in [Symbol.namespace_kw; Symbol.namespace_sep]) w.
Proof.
  intros q ts w' p Hq Hlex Hfollow Hp. unfold parse_namespace.
  apply wp_bind, (c_peek w); [done|]. intros p1 Hp1. destruct Hq as [|q].
  - simpl in Hlex. subst w'. rewrite decide_False by set_solver. by apply wp_ret.
  - split_lexes. rewrite decide_True by by_next_token.
    apply wp_bind. eapply (c_symbol _ 9%nat); [done..|]. intros p2 Hp2.
    eapply c_item; [apply complete_qualified_identifier|done|done|set_solver|done|].
    by intros q' p3 Heq Hp3.
Qed.

Abbreviation decl_first :=
  (fun s => s = Symbol.struct_kw \/ s = Symbol.mapping_kw \/ s = Symbol.encoding_kw).

Lemma decls_next ss ms es ts w w' :
  derives_decls ss ms es ts -> lexes w ts w' -> classify (strip w') = Symbol.eof ->
  decl_first (classify (strip w)) \/ classify (strip w) = Symbol.eof.
Proof.
  intros [|s ts1 ? ? ? ts' [] _|m ts1 ? ? ? ts' [] _|e ts1 ? ? ? ts' [] _] Hlex Heof.
  - simpl in Hlex. subst. auto.
  - destruct Hlex as (u & Hu & _). left. rewrite (next_token_symbol _ _ _ Hu). auto.
  - destruct Hlex as (u & Hu & _). left. rewrite (next_token_symbol _ _ _ Hu). auto.
  - destruct Hlex as (u & Hu & _). left. rewrite (next_token_symbol _ _ _ Hu). auto.
Qed.

(** One round of [parse_decls] on a declaration. *)
Lemma complete_round {A B} (m : P A) (D : B -> list token -> Prop) f x ts w w' q0 q
    (d' : A -> decls) (I : decls -> parser input -> Prop) (X : decls -> parser input -> Prop) :
  accepts m D f (fun _ => True) w -> D x ts -> ts <> [] -> lexes w ts w' -> at_ w q -> at_ w q0 ->
  (forall x' q', f x' = x -> at_ w' q' -> I (d' x') q') ->
  returns (y ← m; mret (inl (d' y) : decls + decls)) q
    (fun r q' => match r with
       | inl d => I d q' /\ (left_ q' < left_ q0)%nat
       | inr d => X d q'
       end).
Proof.
  intros Hm Hx Hcons Hlex Hq Hq0 HI. apply wp_bind. eapply c_item; [done..|].
  intros y q' Hy Hq'. apply wp_ret. split; [by apply HI|].
  rewrite (at_left F W w' q'), (at_left F W w q0) by done. by eapply lexes_shorter.
Qed.

Lemma complete_decls ss ms es ts w w' p :
  derives_decls ss ms es ts -> lexes w ts w' -> classify (strip w') = Symbol.eof ->
  at_ w p ->
  returns (parse_decls fuel) p
    (fun d _ => erase_struct <$> d.1.1 = ss /\ erase_mapping <$> d.1.2 = ms /\
       erase_encoding <$> d.2 = es).
Proof.
  intros Hd Hlex Heof Hp. unfold parse_decls.
  apply (wp_loop
    (fun d q => exists ss1 ms1 es1 ts1 w1, derives_decls ss1 ms1 es1 ts1 /\
       lexes w1 ts1 w' /\ at_ w1 q /\ (erase_struct <$> d.1.1) ++ ss1 = ss /\
       (erase_mapping <$> d.1.2) ++ ms1 = ms /\ (erase_encoding <$> d.2) ++ es1 = es)
    (fun _ q => left_ q)).
  2:{ exists ss, ms, es, ts, w. by split_and!. }
  2:{ by eapply at_left_fuel. }
  intros [[ss0 ms0] es0] q (ss1 & ms1 & es1 & ts1 & w1 & Hd1 & Hlex1 & Hq & Hss & Hms & Hes).
  apply wp_bind, (c_peek w1); [done|]. intros q' Hq'. simpl in *.
  destruct Hd1 as [|x tx ss1 ms1 es1 tsx Hx Hd1|x tx ss1 ms1 es1 tsx Hx Hd1
                  |x tx ss1 ms1 es1 tsx Hx Hd1].
  - simpl in Hlex1. subst w1. rewrite Heof. apply wp_ret. by rewrite !app_nil_r in *.
  - apply lexes_app in Hlex1 as (w2 & Hlexx & Hlex1).
    assert (classify (strip w1) = Symbol.struct_kw) as ->.
    { destruct Hx. destruct Hlexx as (u & Hu & _). by_next_token. }
    eapply complete_round; [apply complete_struct|done|by destruct Hx|done..|].
    intros x' q2 <- Hq2. exists ss1, ms1, es1, tsx, w2. simpl.
    rewrite fmap_app, <- app_assoc. by split_and!.
  - apply lexes_app in Hlex1 as (w2 & Hlexx & Hlex1).
    assert (classify (strip w1) = Symbol.mapping_kw) as ->.
    { destruct Hx. destruct Hlexx as (u & Hu & _). by_next_token. }
    eapply complete_round; [apply complete_mapping|done|by destruct Hx|done..|].
    intros x' q2 <- Hq2. exists ss1, ms1, es1, tsx, w2. simpl.
    rewrite fmap_app, <- app_assoc. by split_and!.
  - apply lexes_app in Hlex1 as (w2 & Hlexx & Hlex1).
    assert (classify (strip w1) = Symbol.encoding_kw) as ->.
    { destruct Hx. destruct Hlexx as (u & Hu & _). by_next_token. }
    eapply complete_round; [apply complete_encoding|done|by destruct Hx|done..|].
    intros x' q2 <- Hq2. exists ss1, ms1, es1, tsx, w2. simpl.
    rewrite fmap_app, <- app_assoc. by split_and!.
Qed.

Lemma complete_document r ts p :
  derives_document r ts -> token_stream W ts -> at_ W p ->
  returns (parse_document fuel) p (fun r' _ => erase_root r' = r).
Proof.
  intros [incs tsi q tsq ss ms es tsd Hincs Hq Hd] (w' & Hlex & Heof) Hp.
  apply lexes_app in Hlex as (w1 & Hlexi & Hlex).
  apply lexes_app in Hlex as (w2 & Hlexq & Hlexd).
  pose proof (decls_next _ _ _ _ _ _ Hd Hlexd Heof) as Hnext2.
  unfold parse_document. apply wp_bind, wp_gets.
  apply wp_bind. eapply c_item; [apply complete_includes|done|done| |done|].
  { destruct Hq as [|q].
    - simpl in Hlexq. subst w2. destruct Hnext2 as [[-> |[-> | ->]]| ->]; set_solver.
    - destruct Hlexq as (u & Hu & _). by_next_token. }
  intros incs' p1 <- Hp1.
  apply wp_bind. eapply c_item; [apply complete_namespace|done|done| |done|].
  { destruct Hnext2 as [[-> |[-> | ->]]| ->]; set_solver. }
  intros q' p2 Heq Hp2. simpl in Heq. subst q'.
  apply wp_bind. eapply wp_mono; [by eapply complete_decls| |done|done].
  intros [[ss' ms'] es'] p3 (<- & <- & <-). by apply wp_ret.
Qed.
End parser_complete.
