(* ===== verification/Origins.v ===== *)
(** * Where the nodes of a tree come from

    Every node of the syntax tree carries an [origin]. Here is what it should be, the
    position of the node's first token, by relations that follow a tree through its
    document; and the proof that each operation of [Parser] builds nodes that satisfy it. *)
From S2P Require Import Prelude Ast CharBuffer Lexer Parser LexSpec LexerCorrect ParserCorrect.

(** ** Trees located in a document

    The relations take the contents [w] left before a node and [w'] left after it. *)
Section located.
Context (F W : bytes).

(** [w] starts with the tokens [ts], up to [u], and [d] is the position of the first. *)
Definition headed (d : DocumentPosition) (ts : list token) (w u : bytes) : Prop :=
  lexes w ts u /\ position_of F W (strip w) d.

(** Nodes one after the other, with other tokens around them. *)
Inductive located_all {A} (L : A -> bytes -> bytes -> Prop) : list A -> bytes -> bytes -> Prop :=
| located_nil w w' : w' `suffix_of` w -> located_all L [] w w'
| located_cons x xs w w1 w2 w' :
    w1 `suffix_of` w -> L x w1 w2 -> located_all L xs w2 w' -> located_all L (x :: xs) w w'.

Definition located_include (i : AstInclude) (w w' : bytes) : Prop :=
  headed (inc_origin i) [TSymbol Symbol.include_kw; TString (inc_path i)] w w'.

Definition located_struct_field (f : AstStructField) (w w' : bytes) : Prop :=
  exists u, headed (sf_origin f) [TIdentifier (sf_identifier f); TSymbol Symbol.colon] w u /\
    w' `suffix_of` u.

Definition located_struct (s : AstStruct) (w w' : bytes) : Prop :=
  exists u, headed (st_origin s)
      [TSymbol Symbol.struct_kw; TIdentifier (st_identifier s); TSymbol Symbol.curly_open] w u /\
    located_all located_struct_field (st_fields s) u w'.

Definition located_mapping_field (f : AstMappingField) (w w' : bytes) : Prop :=
  headed (mf_origin f)
    [TIdentifier (mf_identifier f); TSymbol Symbol.colon; TString (mf_mapping_decl f)] w w'.

Definition located_mapping (m : AstMapping) (w w' : bytes) : Prop :=
  exists u, headed (ma_origin m)
      [TSymbol Symbol.mapping_kw; TIdentifier (ma_struct_id m); TSymbol Symbol.colon] w u /\
    located_all located_mapping_field (ma_fields m) u w'.

Inductive located_node : AstEncodingNode -> bytes -> bytes -> Prop :=
| located_field o i e w u w' :
    headed o [TIdentifier i] w u -> w' `suffix_of` u -> located_node (AstEncodingField o i e) w w'
| located_delta o ns w u w' :
    headed o [TSymbol Symbol.delta_kw] w u -> located_all located_node ns u w' ->
    located_node (AstEncodingDeltaBlock o ns) w w'.

Definition located_encoding (e : AstEncoding) (w w' : bytes) : Prop :=
  exists u, headed (en_origin e) [TSymbol Symbol.encoding_kw; TIdentifier (en_struct_id e)] w u /\
    located_all located_node (en_fields e) u w'.

(** Each kind of declaration keeps the order of the document. *)
Definition located_decls (d : decls) (w w' : bytes) : Prop :=
  located_all located_struct d.1.1 w w' /\ located_all located_mapping d.1.2 w w' /\
  located_all located_encoding d.2 w w'.

(** The document starts at its first byte. *)
Definition located_root (r : AstRoot) : Prop :=
  position_of F W W (root_origin r) /\
  exists w w', located_all located_include (includes r) W w /\
    located_decls (struct_decls r, map_decls r, enco_decls r) w w'.

(** ** Extents *)

Lemma located_all_weaken {A} (L : A -> bytes -> bytes -> Prop) xs w w' w'' :
  located_all L xs w w' -> w'' `suffix_of` w' -> located_all L xs w w''.
Proof.
  induction 1 as [w w' Hw|x xs w w1 w2 w' Hw1 Hx Hxs IH]; intros Hw'.
  - apply located_nil. by transitivity w'.
  - apply (located_cons _ _ _ _ w1 w2); auto.
Qed.

Lemma located_all_snoc {A} (L : A -> bytes -> bytes -> Prop) xs x w w1 w' :
  located_all L xs w w1 -> L x w1 w' -> located_all L (xs ++ [x]) w w'.
Proof.
  induction 1; intros Hx; simpl; econstructor; eauto. by apply located_nil.
Qed.

Lemma located_all_widen {A} (L : A -> bytes -> bytes -> Prop) xs w0 w w' :
  w `suffix_of` w0 -> located_all L xs w w' -> located_all L xs w0 w'.
Proof.
  intros Hw Hxs. revert Hw. destruct Hxs as [w1 w1' Hw1|x xs' w1 w2 w3 w4 Hw2 Hx Hxs]; intros Hw.
  - apply located_nil. by transitivity w1.
  - apply (located_cons _ _ _ _ w2 w3); [by transitivity w1|done|done].
Qed.

(** ** The operations of the parser

    What follows is about parses that return: how they fail is in [ParserCorrect]. *)
Context (fuel : nat) (Hfuel : (length W < fuel)%nat).

Abbreviation at_ := (at_ F W).
Abbreviation peeked := (peeked F W).
Abbreviation P := (M parse_error (parser input)).
Abbreviation returns m p Q := (wp m p Q (fun _ => True) True).

(** After a look at the next symbol [m] returns a node for which [L] holds. *)
Definition locates {A} (m : P A) (L : A -> bytes -> bytes -> Prop) : Prop :=
  forall w p, peeked w p ->
  returns m p (fun x p' => exists w', L x w w' /\ w' `suffix_of` w /\ at_ w' p').

Lemma peeked_at w p : peeked w p -> at_ w p.
Proof. by left. Qed.
Hint Resolve peeked_at : core.

Lemma origin w p : peeked w p -> position_of F W (strip w) (pos_ p).
Proof. intros ([_ Hpos] & _ & _ & Hr). by rewrite Hr in Hpos. Qed.

Lemma o_peek w p (Q : Symbol.t -> parser input -> Prop) :
  at_ w p -> (forall p', peeked w p' -> Q (classify (strip w)) p') ->
  returns (peek_symbol fuel) p Q.
Proof.
  intros Hp HQ. eapply wp_mono; [by eapply wp_peek_symbol| |done|done].
  intros s p' [-> ?]. by apply HQ.
Qed.

(** The readers of tokens, from their exact specifications. *)
Lemma returning {A} (m : P A) p Q : wp m p Q (failure F W) (stuck W fuel) -> returns m p Q.
Proof. intros Hm. by eapply wp_mono. Qed.

Lemma o_symbol s n w p (Q : unit -> parser input -> Prop) :
  symbol_length s = Some n -> at_ w p ->
  (forall w' p', next_token w = Some (TSymbol s, w') -> w' `suffix_of` w -> at_ w' p' -> Q tt p') ->
  returns (parse_symbol fuel s) p Q.
Proof.
  intros Hn Hp HQ. eapply returning, (s_symbol F W fuel Hfuel); [done..|].
  eauto using next_token_suffix.
Qed.

Lemma o_identifier w p (Q : AstIdentifier -> parser input -> Prop) :
  at_ w p ->
  (forall i w' p', next_token w = Some (TIdentifier i, w') -> w' `suffix_of` w -> at_ w' p' -> Q i p') ->
  returns (parse_identifier fuel) p Q.
Proof.
  intros Hp HQ. eapply returning, (s_identifier F W fuel Hfuel); [done..|].
  eauto using next_token_suffix.
Qed.

Lemma o_string w p (Q : AstString -> parser input -> Prop) :
  at_ w p ->
  (forall s w' p', next_token w = Some (TString s, w') -> w' `suffix_of` w -> at_ w' p' -> Q s p') ->
  returns (parse_string fuel) p Q.
Proof.
  intros Hp HQ. eapply returning, (s_string F W fuel Hfuel); [done..|].
  eauto using next_token_suffix.
Qed.

(** What has no node of its own: only how far it reads matters. *)
Lemma o_recognises {A} (m : P A) D w p (Q : A -> parser input -> Prop) :
  recognises F W fuel m D w -> at_ w p ->
  (forall x w' p', w' `suffix_of` w -> at_ w' p' -> Q x p') -> returns m p Q.
Proof.
  intros Hm Hp HQ. eapply returning, s_item; [done..|]. eauto using lexes_suffix.
Qed.

Lemma o_item {A} (m : P A) L w p (Q : A -> parser input -> Prop) :
  locates m L -> peeked w p ->
  (forall x w' p', L x w w' -> w' `suffix_of` w -> at_ w' p' -> Q x p') -> returns m p Q.
Proof.
  intros Hm Hp HQ. eapply wp_mono; [by apply Hm| |done|done]. intros x p' (w' & ? & ? & ?). eauto.
Qed.

Lemma o_until_curly_close {A} (item : P A) L w0 p (Q : list A -> parser input -> Prop) :
  locates item L -> at_ w0 p ->
  (forall xs w' p', located_all L xs w0 w' -> w' `suffix_of` w0 -> at_ w' p' -> Q xs p') ->
  returns (until_curly_close fuel item) p Q.
Proof.
  intros Hitem Hp HQ. unfold until_curly_close.
  apply (wp_loop_partial
    (fun xs q => exists w, located_all L xs w0 w /\ w `suffix_of` w0 /\ at_ w q)).
  2:{ exists w0. split_and!; [by apply located_nil|done|done]. }
  intros xs q (w & Hxs & Hw & Hq). apply wp_bind, (o_peek w); [done|].
  intros q' Hq'. case_decide; [|apply wp_ret; eauto].
  apply wp_bind. eapply o_item; [done..|]. intros x w' q'' Hx Hw' Hq''. apply wp_ret.
  exists w'. split_and!; [by eapply located_all_snoc|by etransitivity|done].
Qed.

(** The end of a node: the tokens read, and how far. *)
Ltac here :=
  repeat first
    [ assumption
    | progress simpl
    | reflexivity
    | progress split_and!
    | by apply origin
    | eexists; split; [eassumption|]
    | etransitivity; [eassumption|] ].

Lemma origin_include : locates (parse_include fuel) located_include.
Proof.
  intros w p Hp. pose proof (peeked_at w p Hp) as Hat. unfold parse_include. apply wp_bind, wp_gets.
  apply wp_bind. eapply (o_symbol _ 7%nat); [done..|]. intros w1 p1 Ht1 Hw1 Hp1.
  apply wp_bind, (o_string w1); [done|]. intros s w2 p2 Ht2 Hw2 Hp2. apply wp_ret.
  exists w2. unfold located_include, headed. here.
Qed.

Lemma origin_struct_field : locates (parse_struct_field fuel) located_struct_field.
Proof.
  intros w p Hp. pose proof (peeked_at w p Hp) as Hat. unfold parse_struct_field. apply wp_bind, wp_gets.
  apply wp_bind, (o_identifier w); [done|]. intros i w1 p1 Ht1 Hw1 Hp1.
  apply wp_bind. eapply (o_symbol _ 1%nat); [done..|]. intros w2 p2 Ht2 Hw2 Hp2.
  apply wp_bind. eapply o_recognises; [by apply sound_type|done|]. intros t w3 p3 Hw3 Hp3.
  apply wp_ret. exists w3. split_and!; [|here..]. exists w2. unfold headed. here.
Qed.

Lemma origin_struct : locates (parse_struct fuel) located_struct.
Proof.
  intros w p Hp. pose proof (peeked_at w p Hp) as Hat. unfold parse_struct. apply wp_bind, wp_gets.
  apply wp_bind. eapply (o_symbol _ 6%nat); [done..|]. intros w1 p1 Ht1 Hw1 Hp1.
  apply wp_bind, (o_identifier w1); [done|]. intros i w2 p2 Ht2 Hw2 Hp2.
  apply wp_bind. eapply (o_symbol _ 1%nat); [done..|]. intros w3 p3 Ht3 Hw3 Hp3.
  apply wp_bind. eapply o_until_curly_close; [apply origin_struct_field|done|].
  intros fs w4 p4 Hfs Hw4 Hp4.
  apply wp_bind. eapply (o_symbol _ 1%nat); [done..|]. intros w5 p5 Ht5 Hw5 Hp5.
  apply wp_ret. exists w5. split_and!; [|here..]. exists w3. unfold headed.
  split; [here|by eapply located_all_weaken].
Qed.

Lemma origin_mapping_field : locates (parse_mapping_field fuel) located_mapping_field.
Proof.
  intros w p Hp. pose proof (peeked_at w p Hp) as Hat. unfold parse_mapping_field. apply wp_bind, wp_gets.
  apply wp_bind, (o_identifier w); [done|]. intros i w1 p1 Ht1 Hw1 Hp1.
  apply wp_bind. eapply (o_symbol _ 1%nat); [done..|]. intros w2 p2 Ht2 Hw2 Hp2.
  apply wp_bind, (o_string w2); [done|]. intros s w3 p3 Ht3 Hw3 Hp3.
  apply wp_ret. exists w3. unfold located_mapping_field, headed. here.
Qed.

Lemma origin_mapping : locates (parse_mapping fuel) located_mapping.
Proof.
  intros w p Hp. pose proof (peeked_at w p Hp) as Hat. unfold parse_mapping. apply wp_bind, wp_gets.
  apply wp_bind. eapply (o_symbol _ 7%nat); [done..|]. intros w1 p1 Ht1 Hw1 Hp1.
  apply wp_bind, (o_identifier w1); [done|]. intros i w2 p2 Ht2 Hw2 Hp2.
  apply wp_bind. eapply (o_symbol _ 1%nat); [done..|]. intros w3 p3 Ht3 Hw3 Hp3.
  apply wp_bind. eapply o_recognises; [by apply sound_qualified_identifier|done|]. intros q w4 p4 Hw4 Hp4.
  apply wp_bind. eapply (o_symbol _ 1%nat); [done..|]. intros w5 p5 Ht5 Hw5 Hp5.
  apply wp_bind. eapply o_until_curly_close; [apply origin_mapping_field|done|].
  intros fs w6 p6 Hfs Hw6 Hp6.
  apply wp_bind. eapply (o_symbol _ 1%nat); [done..|]. intros w7 p7 Ht7 Hw7 Hp7.
  apply wp_ret. exists w7. split_and!; [|here..]. exists w3. unfold headed.
  split; [here|]. eapply located_all_widen; [|by eapply located_all_weaken]. here.
Qed.

Lemma origin_encoding_field : locates (parse_encoding_field fuel) located_node.
Proof.
  intros w p Hp. pose proof (peeked_at w p Hp) as Hat. unfold parse_encoding_field. apply wp_bind, wp_gets.
  apply wp_bind, (o_identifier w); [done|]. intros i w1 p1 Ht1 Hw1 Hp1.
  apply wp_bind. eapply o_recognises; [by apply sound_optional_encoding|done|]. intros e w2 p2 Hw2 Hp2.
  apply wp_ret. exists w2. split_and!; [|here..]. apply (located_field _ _ _ _ w1); unfold headed; here.
Qed.

Lemma returns_unexpected {A} c w p (Q : A -> parser input -> Prop) :
  at_ w p -> returns (unexpected_in fuel c) p Q.
Proof.
  intros Hp. unfold unexpected_in, unexpected_with. apply wp_bind, (o_peek w); [done|].
  intros p' _. apply wp_bind, wp_gets. by apply wp_throw.
Qed.

Lemma origin_delta_block node :
  locates node located_node -> locates (parse_encoding_delta_block fuel node) located_node.
Proof.
  intros Hnode w p Hp. pose proof (peeked_at w p Hp) as Hat.
  unfold parse_encoding_delta_block. apply wp_bind, wp_gets.
  apply wp_bind. eapply (o_symbol _ 5%nat); [done..|]. intros w1 p1 Ht1 Hw1 Hp1.
  apply wp_bind, (o_peek w1); [done|]. intros p2 Hp2. pose proof (peeked_at w1 p2 Hp2) as Hat2.
  destruct (classify (strip w1)) eqn:Hs; try (by eapply returns_unexpected).
  - apply wp_bind. eapply o_item; [done..|]. intros n w3 p3 Hn Hw3 Hp3.
    apply wp_ret. exists w3. split_and!; [|here..]. apply (located_delta _ _ _ w1); unfold headed; [here|].
    apply (located_cons _ _ _ _ w1 w3); [done..|by apply located_nil].
  - apply wp_bind. eapply (o_symbol _ 1%nat); [done..|]. intros w3 p3 Ht3 Hw3 Hp3.
    apply wp_bind. eapply o_until_curly_close; [done..|]. intros ns w4 p4 Hns Hw4 Hp4.
    apply wp_bind. eapply (o_symbol _ 1%nat); [done..|]. intros w5 p5 Ht5 Hw5 Hp5.
    apply wp_ret. exists w5. split_and!; [|here..]. apply (located_delta _ _ _ w1); unfold headed; [here|].
    eapply located_all_widen; [done|by eapply located_all_weaken].
Qed.

Lemma origin_encoding_node depth : locates (parse_encoding_node fuel depth) located_node.
Proof.
  induction depth as [|depth IH]; intros w p Hp; [done|]. simpl.
  apply wp_bind, (o_peek w); [by apply peeked_at|]. intros p1 Hp1.
  pose proof (peeked_at w p1 Hp1) as Hat1.
  destruct (classify (strip w)); try (by eapply returns_unexpected).
  - by apply origin_encoding_field.
  - by apply origin_delta_block.
Qed.

Lemma origin_encoding : locates (parse_encoding fuel) located_encoding.
Proof.
  intros w p Hp. pose proof (peeked_at w p Hp) as Hat. unfold parse_encoding. apply wp_bind, wp_gets.
  apply wp_bind. eapply (o_symbol _ 8%nat); [done..|]. intros w1 p1 Ht1 Hw1 Hp1.
  apply wp_bind, (o_identifier w1); [done|]. intros i w2 p2 Ht2 Hw2 Hp2.
  apply wp_bind. eapply o_recognises; [by apply sound_optional_encoding|done|]. intros e w3 p3 Hw3 Hp3.
  apply wp_bind. eapply (o_symbol _ 1%nat); [done..|]. intros w4 p4 Ht4 Hw4 Hp4.
  apply wp_bind. eapply o_until_curly_close; [apply origin_encoding_node|done|].
  intros ns w5 p5 Hns Hw5 Hp5.
  apply wp_bind. eapply (o_symbol _ 1%nat); [done..|]. intros w6 p6 Ht6 Hw6 Hp6.
  apply wp_ret. exists w6. split_and!; [|here..]. exists w2. unfold headed.
  split; [here|]. eapply located_all_widen; [|by eapply located_all_weaken]. here.
Qed.

Lemma origin_includes w p :
  at_ w p ->
  returns (parse_includes fuel) p
    (fun incs p' => exists w', located_all located_include incs w w' /\ at_ w' p').
Proof.
  intros Hp. unfold parse_includes.
  apply (wp_loop_partial
    (fun incs q => exists w', located_all located_include incs w w' /\ at_ w' q)).
  2:{ exists w. split; [by apply located_nil|done]. }
  intros incs q (w' & His & Hq). apply wp_bind, (o_peek w'); [done|]. intros q' Hq'.
  case_decide; [|apply wp_ret; eauto using peeked_at].
  apply wp_bind. eapply o_item; [apply origin_include|done|].
  intros i w2 q2 Hi Hw2 Hq2. apply wp_ret. exists w2. split; [by eapply located_all_snoc|done].
Qed.

(** One more declaration: the end of each round of [parse_decls]. *)
Lemma origin_round {A} (m : P A) L w0 w q (d' : A -> decls) :
  locates m L -> peeked w q ->
  (forall x w', L x w w' -> w' `suffix_of` w -> located_decls (d' x) w0 w') ->
  returns (x ← m; mret (inl (d' x) : decls + decls)) q
    (fun r q' => match r with inl d | inr d => exists w', located_decls d w0 w' /\ at_ w' q' end).
Proof.
  intros Hm Hq Hd. apply wp_bind. eapply o_item; [done..|].
  intros x w' q' Hx Hw' Hq'. apply wp_ret. exists w'. eauto.
Qed.

Lemma origin_decls w p :
  at_ w p ->
  returns (parse_decls fuel) p (fun d p' => exists w', located_decls d w w' /\ at_ w' p').
Proof.
  intros Hp. unfold parse_decls.
  apply (wp_loop_partial (fun d q => exists w', located_decls d w w' /\ at_ w' q)).
  2:{ exists w. split; [by split_and!; apply located_nil|done]. }
  intros [[ss ms] es] q (w' & (Hss & Hms & Hes) & Hq). simpl in *.
  apply wp_bind, (o_peek w'); [done|]. intros q' Hq'. pose proof (peeked_at w' q' Hq') as Hat.
  destruct (classify (strip w')) eqn:Hs; try (by eapply returns_unexpected).
  - eapply origin_round; [apply origin_struct|done|]. intros x w2 Hx Hw2.
    split_and!; simpl; eauto using located_all_snoc, located_all_weaken.
  - eapply origin_round; [apply origin_mapping|done|]. intros x w2 Hx Hw2.
    split_and!; simpl; eauto using located_all_snoc, located_all_weaken.
  - eapply origin_round; [apply origin_encoding|done|]. intros x w2 Hx Hw2.
    split_and!; simpl; eauto using located_all_snoc, located_all_weaken.
  - apply wp_ret. exists w'. by split_and!.
Qed.

Lemma origin_document p :
  at_ W p -> position_of F W W (pos_ p) ->
  returns (parse_document fuel) p (fun r _ => located_root r).
Proof.
  intros Hp Hpos. unfold parse_document. apply wp_bind, wp_gets.
  apply wp_bind. eapply wp_mono; [by apply origin_includes| |done|done].
  intros incs p1 (w1 & His & Hp1).
  apply wp_bind. eapply o_recognises; [by apply sound_namespace|done|]. intros q w2 p2 Hw2 Hp2.
  apply wp_bind. eapply wp_mono; [by apply origin_decls| |done|done].
  intros [[ss ms] es] p3 (w3 & Hd & Hp3). apply wp_ret. split; [done|].
  exists w2, w3. split; [by eapply located_all_weaken|done].
Qed.
End located.
