(* ===== verification/AstPrint.v ===== *)
(** * Printing the syntax tree: [tools/happy/src/AstPrint.hpp]

    The [operator <<] overloads, each as the bytes it writes to the stream. *)
From S2P Require Import Prelude Ast CharBuffer StreamBuffer Lexer Parser LexSpec LexerCorrect.
From S2P Require Import Grammar ParserComplete.

(** ** [std::ostream & operator <<(int64_t)] *)

Definition digit_char (d : Z) : ascii := ascii_of_N (Z.to_N (code "0" + d)).

(** The decimal digits of [n], most significant first, before [acc]. *)
Fixpoint decimal (digits : nat) (n : Z) (acc : bytes) : bytes :=
  match digits with
  | O => acc
  | S digits' =>
      let acc' := digit_char (n mod 10) :: acc in
      if decide (n < 10) then acc' else decimal digits' (n / 10) acc'
  end.

(** An [int64_t] has at most 19 digits. *)
Definition print_integer (z : AstInteger) : bytes :=
  if decide (z < 0) then "-"%char :: decimal 19 (- z) [] else decimal 19 z [].

(** ** The overloads *)

Fixpoint print_path (space : list AstIdentifier) (name : AstIdentifier) : bytes :=
  match space with
  | [] => name
  | i :: space' => i ++ "."%char :: print_path space' name
  end.

Definition print_qualified_identifier (id : AstQualifiedIdentifier) : bytes :=
  print_path (space id) (name id).

(** For an array [array_size] has been assigned. *)
Definition print_type (t : AstType) : bytes :=
  print_qualified_identifier (type_identifier t) ++
  if is_array t then "["%char :: print_integer (default 0 (array_size t)) ++ ["]"%char] else [].

Definition print_include (inc : AstInclude) : bytes :=
  str "INCLUDE '" ++ inc_path inc ++ str "'".

Definition print_struct_field (f : AstStructField) : bytes :=
  sf_identifier f ++ str ": " ++ print_type (sf_type f).

Definition print_struct (s : AstStruct) : bytes :=
  str "DATA " ++ st_identifier s ++ newline :: str "{" ++ [newline] ++
  (st_fields s ≫= fun f => str " " ++ print_struct_field f ++ [newline]) ++ str "}".

Definition print_root (root : AstRoot) : bytes :=
  (includes root ≫= fun i => print_include i ++ [newline]) ++
  (if decide (name (root_space root) <> [])
   then str "NAMESPACE " ++ print_qualified_identifier (root_space root) ++ [newline] else []) ++
  (struct_decls root ≫= fun s => print_struct s ++ [newline]).

(** ** Printed text lexes back *)

(** An identifier the lexer gives back: a letter, then word characters, no keyword. *)
Definition identifier_ok (i : AstIdentifier) : Prop :=
  (exists c u, i = c :: u /\ is_letter c = true) /\
  Forall (fun c => is_word c = true) i /\ word_symbol i = Symbol.identifier.

Definition qualified_ok (q : AstQualifiedIdentifier) : Prop :=
  Forall identifier_ok (space q) /\ identifier_ok (name q).

Definition type_ok (t : AstType) : Prop :=
  qualified_ok (type_identifier t) /\
  match array_size t with
  | Some n => is_array t = true /\ - int64_max <= n <= int64_max
  | None => is_array t = false
  end.

(** A string without delimiter or escape characters. *)
Definition plain_string (s : AstString) : Prop :=
  Forall (fun c => c <> "'"%char /\ c <> "\"%char) s.

(** A path the tool prints and can read: with its quotes it is not too long. *)
Definition path_ok (s : AstString) : Prop :=
  plain_string s /\ Z.of_nat (length s) + 2 <= int_max.

(** [w] does not continue a word. *)
Definition word_ends (w : bytes) : Prop := is_word (hd NUL w) = false.

Lemma letter_facts c :
  is_letter c = true ->
  c <> NUL /\ is_blank c = false /\ c <> comment_mark /\ is_digit c = false /\
  c <> "-"%char /\ c <> "+"%char /\ sign_symbol c = None /\ is_quote c = false /\
  is_word c = true.
Proof. destruct c as [[] [] [] [] [] [] [] []]; intros Hc; vm_compute in Hc; try discriminate;
  vm_compute; split_and!; congruence. Qed.

Lemma word_prefix_app i w :
  Forall (fun c => is_word c = true) i -> word_ends w -> word_prefix (i ++ w) = i.
Proof.
  intros Hi Hw. induction Hi as [|c i Hc Hi IH]; simpl.
  - destruct w as [|c w]; [done|]. unfold word_ends in Hw. simpl in *. by rewrite Hw.
  - by rewrite Hc, IH.
Qed.

(** A word that starts with a letter is classified by the keyword chain. *)
Lemma classify_word i w :
  (exists c u, i = c :: u /\ is_letter c = true) -> Forall (fun c => is_word c = true) i ->
  word_ends w -> strip (i ++ w) = i ++ w /\ classify (i ++ w) = word_symbol i.
Proof.
  intros (c & u & Hi & Hc) Hword Hw.
  destruct (letter_facts _ Hc) as (? & Hb & ? & Hd & ? & ? & Hs & Hq & _).
  pose proof (word_prefix_app i w Hword Hw) as Hp. rewrite Hi in *. simpl in *. split.
  - by rewrite Hb, decide_False.
  - rewrite decide_False, Hd, !bool_decide_false, Hs, Hq, Hc by done. simpl. by rewrite Hp.
Qed.

Lemma next_token_identifier i w :
  identifier_ok i -> word_ends w -> next_token (i ++ w) = Some (TIdentifier i, w).
Proof.
  intros (Hi & Hword & Hsym) Hw. destruct (classify_word i w) as [Hstrip Hcl]; [done..|].
  unfold next_token. rewrite Hstrip, Hcl, Hsym, word_prefix_app by done.
  by rewrite drop_app_length.
Qed.

(** Keywords. *)
Lemma next_token_keyword k s w :
  (exists c u, k = c :: u /\ is_letter c = true) -> Forall (fun c => is_word c = true) k ->
  word_symbol k = s -> symbol_length s = Some (length k) -> word_ends w ->
  next_token (k ++ w) = Some (TSymbol s, w).
Proof.
  intros Hk Hword Hsym Hlen Hw. destruct (classify_word k w) as [Hstrip Hcl]; [done..|].
  rewrite (next_token_TSymbol _ s (length k)); [by rewrite Hstrip, drop_app_length|done|].
  by rewrite Hstrip, Hcl.
Qed.

(** Blanks are skipped, and a sign is one byte. *)
Lemma next_token_blank c w : is_blank c = true -> next_token (c :: w) = next_token w.
Proof. intros Hc. unfold next_token. simpl. by rewrite Hc. Qed.

Lemma lexes_blank c w ts w' :
  is_blank c = true -> ts <> [] -> lexes w ts w' -> lexes (c :: w) ts w'.
Proof.
  destruct ts as [|t ts]; [done|]. intros Hc _ (u & Hu & Hl). exists u.
  by rewrite next_token_blank.
Qed.

Lemma next_token_sign c s w :
  sign_symbol c = Some s -> next_token (c :: w) = Some (TSymbol s, w).
Proof.
  intros Hs. assert (symbol_length s = Some 1%nat /\ strip (c :: w) = c :: w /\
                     classify (c :: w) = s) as (Hlen & Hstrip & Hcl).
  { unfold sign_symbol in Hs. repeat case_decide; simplify_eq; done. }
  rewrite (next_token_TSymbol _ s 1); [by rewrite Hstrip|done|by rewrite Hstrip].
Qed.

(** A plain string between quotes. *)
Lemma read_string_plain d s w :
  plain_string s -> d = "'"%char -> read_string d (s ++ d :: w) = Some (s, w).
Proof.
  intros Hs ->. induction Hs as [|c s [??] Hs IH]; [done|].
  simpl app. simpl read_string. by rewrite !decide_False, IH.
Qed.

Lemma next_token_string s w :
  path_ok s -> next_token ("'"%char :: s ++ "'"%char :: w) = Some (TString s, w).
Proof.
  intros [Hs Hlen]. unfold next_token.
  change (strip ("'"%char :: ?v)) with ("'"%char :: v).
  change (classify ("'"%char :: ?v)) with Symbol.string. cbv iota beta zeta.
  unfold read_literal. rewrite read_string_plain, decide_True; [done| |done..].
  unfold fits. simpl. rewrite length_app. simpl. lia.
Qed.

(** ** Integers *)

Lemma digit_char_facts d :
  0 <= d < 10 -> is_digit (digit_char d) = true /\ code (digit_char d) - code "0" = d.
Proof.
  intros Hd.
  assert (d = 0 \/ d = 1 \/ d = 2 \/ d = 3 \/ d = 4 \/ d = 5 \/ d = 6 \/ d = 7 \/ d = 8 \/ d = 9)
    as Hcases by lia.
  by repeat destruct Hcases as [->|Hcases]; [..|subst].
Qed.

(** The digits of [n] read back as [n]. *)
Lemma decimal_spec f : forall n acc,
  0 <= n < 10 ^ Z.of_nat f -> (0 < f)%nat ->
  exists ds, decimal f n acc = ds ++ acc /\ ds <> [] /\ (length ds <= f)%nat /\
    Forall (fun c => is_digit c = true) ds /\
    forall a w, digits_value a (ds ++ w) = digits_value (a * 10 ^ Z.of_nat (length ds) + n) w.
Proof.
  induction f as [|f IH]; intros n acc Hn Hf; [lia|]. cbn [decimal].
  destruct (digit_char_facts (n mod 10)) as [Hd Hv]; [by apply Z.mod_pos_bound|].
  case_decide as Hlt.
  - exists [digit_char (n mod 10)]. split_and!; [done..|simpl; lia|by repeat constructor|].
    intros a w. cbn [app digits_value length]. rewrite Hd, Hv.
    f_equal. rewrite Z.mod_small by lia. lia.
  - rewrite Nat2Z.inj_succ, Z.pow_succ_r in Hn by lia.
    destruct (IH (n / 10) (digit_char (n mod 10) :: acc)) as (ds & -> & Hne & Hlen & Hds & Hval).
    { split; [apply Z.div_pos; lia|apply Z.div_lt_upper_bound; lia]. }
    { destruct f; [simpl in Hn; lia|lia]. }
    exists (ds ++ [digit_char (n mod 10)]). split_and!.
    + by rewrite <- app_assoc.
    + by destruct ds.
    + rewrite length_app. simpl. lia.
    + apply Forall_app. split; [done|by repeat constructor].
    + intros a w. rewrite <- app_assoc, Hval. cbn [app digits_value]. rewrite Hd, Hv, length_app.
      f_equal. simpl length. rewrite Nat2Z.inj_add, Z.pow_add_r by lia.
      change (10 ^ Z.of_nat 1) with 10. pose proof (Z.div_mod n 10). lia.
Qed.

(** [w] does not continue a numeral. *)
Definition numeral_ends (w : bytes) : Prop := is_digit (hd NUL w) = false /\ hd NUL w <> "."%char.

Lemma numeral_ends_value a w : numeral_ends w -> digits_value a w = (a, w).
Proof. intros [Hw _]. destruct w; [done|]. simpl in *. by rewrite Hw. Qed.

Lemma numeral_kind_app ds w :
  Forall (fun c => is_digit c = true) ds -> numeral_ends w ->
  numeral_kind (ds ++ w) = Symbol.integer.
Proof.
  intros Hds [Hw1 Hw2]. induction Hds as [|c ds Hc Hds IH]; simpl; [|by rewrite Hc].
  destruct w; [done|]. simpl in *. by rewrite Hw1, decide_False.
Qed.

Lemma digit_facts c :
  is_digit c = true ->
  c <> NUL /\ is_blank c = false /\ c <> comment_mark /\ c <> "-"%char /\ c <> "+"%char.
Proof. destruct c as [[] [] [] [] [] [] [] []]; intros Hc; vm_compute in Hc; try discriminate;
  vm_compute; split_and!; congruence. Qed.

Lemma next_token_integer z w :
  - int64_max <= z <= int64_max -> numeral_ends w ->
  next_token (print_integer z ++ w) = Some (TInteger z, w).
Proof.
  intros Hz Hw. unfold print_integer.
  destruct (decimal_spec 19 (Z.abs z) []) as (ds & Heq & Hne & Hlen & Hds & Hval); [|lia|].
  { unfold int64_max in Hz. split; [lia|]. change (10 ^ Z.of_nat 19) with 10000000000000000000. lia. }
  rewrite app_nil_r in Heq. specialize (Hval 0 w).
  rewrite (numeral_ends_value _ w), Z.mul_0_l, Z.add_0_l in Hval by done.
  unfold next_token. case_decide as Hneg.
  - replace (- z) with (Z.abs z) by lia. rewrite Heq.
    assert (classify (strip (("-"%char :: ds) ++ w)) = Symbol.integer) as ->
      by exact (numeral_kind_app ds w Hds Hw).
    change (strip (("-"%char :: ds) ++ w)) with ("-"%char :: (ds ++ w)).
    unfold read_integer. simpl split_sign. cbv iota beta zeta. rewrite Hval.
    rewrite decide_True; [do 3 f_equal; lia|]. split; [lia|].
    unfold fits, int_max. simpl. rewrite length_app. lia.
  - replace z with (Z.abs z) by lia. rewrite Heq.
    destruct ds as [|c ds]; [done|]. inversion Hds as [|? ? Hc Hds']; subst.
    destruct (digit_facts c Hc) as (? & Hb & ? & ? & ?).
    assert (strip ((c :: ds) ++ w) = (c :: ds) ++ w) as ->.
    { simpl. by rewrite Hb, decide_False. }
    assert (classify ((c :: ds) ++ w) = Symbol.integer) as ->.
    { simpl. rewrite decide_False, Hc by done. by apply numeral_kind_app. }
    unfold read_integer.
    assert (split_sign ((c :: ds) ++ w) = (false, (c :: ds) ++ w)) as ->.
    { simpl. by rewrite !decide_False. }
    rewrite Hval, decide_True; [done|]. split; [lia|].
    unfold fits, int_max. rewrite length_app. lia.
Qed.

(** ** Printed trees read back

    [reads w ts w']: reading [ts] from [w] leaves [w'] up to blanks. *)
Definition reads (w : bytes) (ts : list token) (w' : bytes) : Prop :=
  exists u, lexes w ts u /\ strip u = strip w'.

Lemma next_token_strip w w' : strip w = strip w' -> next_token w = next_token w'.
Proof. unfold next_token. by intros ->. Qed.

Lemma reads_nil w : reads w [] w.
Proof. by exists w. Qed.

Lemma reads_app w ts1 w1 ts2 w2 :
  reads w ts1 w1 -> reads w1 ts2 w2 -> reads w (ts1 ++ ts2) w2.
Proof.
  intros (u1 & Hl1 & Hu1) (u2 & Hl2 & Hu2). destruct ts2 as [|t ts2].
  - simpl in Hl2. subst. exists u1. rewrite app_nil_r. split; [done|congruence].
  - exists u2. split; [|done]. apply lexes_app. exists u1. split; [done|].
    destruct Hl2 as (u & Hu & Hl2). exists u. by rewrite (next_token_strip _ w1).
Qed.

Lemma reads_cons w t w1 ts w2 :
  next_token w = Some (t, w1) -> reads w1 ts w2 -> reads w (t :: ts) w2.
Proof. intros Ht (u & Hl & Hu). exists u. split; [|done]. by exists w1. Qed.

Lemma reads_blank c w ts w' : is_blank c = true -> reads w ts w' -> reads (c :: w) ts w'.
Proof.
  intros Hc (u & Hl & Hu). destruct ts as [|t ts].
  - simpl in Hl. subst. exists (c :: u). split; [done|]. simpl. by rewrite Hc.
  - exists u. split; [|done]. by apply lexes_blank.
Qed.

(** Items printed one after the other. *)
Lemma reads_all {A} (D : A -> list token -> Prop) (pr : A -> bytes) xs w :
  Forall (fun x => forall w, exists ts, D x ts /\ reads (pr x ++ w) ts w) xs ->
  exists ts, derives_all D xs ts /\ reads ((xs ≫= pr) ++ w) ts w.
Proof.
  induction 1 as [|x xs (* Hx *) Hx Hxs (ts & HD & IH)].
  - exists []. split; [apply all_nil|apply reads_nil].
  - destruct (Hx ((xs ≫= pr) ++ w)) as (tsx & HDx & Hr). exists (tsx ++ ts). split.
    + by apply all_cons.
    + rewrite bind_cons, <- app_assoc. by eapply reads_app.
Qed.

Lemma reads_path sp n w :
  Forall identifier_ok sp -> identifier_ok n -> word_ends w ->
  reads (print_path sp n ++ w) (path_tokens sp n) w.
Proof.
  intros Hsp Hn Hw. induction Hsp as [|i sp Hi Hsp IH]; simpl.
  - eapply reads_cons; [by apply next_token_identifier|apply reads_nil].
  - rewrite <- app_assoc. eapply reads_cons; [by apply next_token_identifier|].
    by eapply reads_cons; [by apply next_token_sign|].
Qed.

Lemma reads_type t w :
  type_ok t -> word_ends w ->
  exists ts, derives_type t ts /\ reads (print_type t ++ w) ts w.
Proof.
  intros [[Hsp Hn] Hsize] Hw. unfold print_type. destruct t as [q arr [n|]]; simpl in *.
  - destruct Hsize as [-> Hsize]. eexists. split; [apply type_array|].
    rewrite <- app_assoc. eapply reads_app; [by apply reads_path|].
    rewrite <- app_comm_cons, <- app_assoc. eapply reads_cons; [by apply next_token_sign|].
    eapply reads_cons; [by apply next_token_integer|].
    eapply reads_cons; [by apply next_token_sign|apply reads_nil].
  - subst arr. eexists. split; [apply type_plain|]. rewrite app_nil_r. by apply reads_path.
Qed.

(** Trees whose identifiers, paths and sizes the language can write. *)
Definition struct_field_ok (f : AstStructField) : Prop :=
  identifier_ok (sf_identifier f) /\ type_ok (sf_type f).
Definition struct_ok (s : AstStruct) : Prop :=
  identifier_ok (st_identifier s) /\ Forall struct_field_ok (st_fields s).

Lemma reads_struct_field f w :
  struct_field_ok f ->
  exists ts, derives_struct_field (erase_struct_field f) ts /\
    reads ((str " " ++ print_struct_field f ++ [newline]) ++ w) ts w.
Proof.
  intros [Hi Ht]. destruct (reads_type (sf_type f) (newline :: w)) as (ts & HD & Hr); [done..|].
  eexists. split; [by apply struct_field|]. unfold print_struct_field.
  rewrite <- !app_assoc. simpl app. apply reads_blank; [done|].
  eapply reads_cons; [by apply next_token_identifier|].
  eapply reads_cons; [by apply next_token_sign|]. apply reads_blank; [done|].
  rewrite <- (app_nil_r ts). eapply reads_app; [exact Hr|].
  apply reads_blank; [done|apply reads_nil].
Qed.

(** What is printed of a struct after the word [DATA] is its text after the keyword. *)
Lemma reads_struct s w :
  struct_ok s ->
  exists u ts, print_struct s = str "DATA" ++ u /\ derives_struct (erase_struct s) ts /\
    reads ((struct_keyword ++ u) ++ w) ts w.
Proof.
  intros [Hi Hfs].
  destruct (reads_all (fun f => derives_struct_field (erase_struct_field f))
              (fun f => str " " ++ print_struct_field f ++ [newline])
              (st_fields s) ("}"%char :: w)) as (ts & HD & Hr).
  { eapply Forall_impl; [exact Hfs|]. intros f Hf w'. by apply reads_struct_field. }
  eexists _, _. split; [reflexivity|]. split; [by apply struct, derives_all_fmap|].
  rewrite <- !app_assoc.
  eapply reads_cons; [by apply next_token_keyword; [eexists _, _|repeat constructor|..]|].
  rewrite <- ?app_comm_cons. simpl app. apply reads_blank; [done|]. rewrite <- !app_assoc.
  eapply reads_cons; [by apply next_token_identifier|].
  simpl app. apply reads_blank; [done|].
  eapply reads_cons; [by apply next_token_sign|]. apply reads_blank; [done|].
  rewrite <- !app_assoc. eapply reads_app; [exact Hr|].
  eapply reads_cons; [by apply next_token_sign|apply reads_nil].
Qed.

Lemma reads_include i w :
  path_ok (inc_path i) ->
  exists ts, derives_include (erase_include i) ts /\
    reads ((print_include i ++ [newline]) ++ w) ts w.
Proof.
  intros Hi. eexists. split; [apply include_path|]. unfold print_include.
  change (str "INCLUDE '") with (include_keyword ++ str " '"). rewrite <- !app_assoc.
  eapply reads_cons; [by apply next_token_keyword; [eexists _, _|repeat constructor|..]|].
  simpl app. apply reads_blank; [done|].
  eapply reads_cons; [by apply next_token_string|]. apply reads_blank; [done|apply reads_nil].
Qed.

Lemma reads_namespace q w :
  q = empty_qualified \/ qualified_ok q ->
  exists ts, derives_namespace q ts /\
    reads ((if decide (name q <> [])
            then str "NAMESPACE " ++ print_qualified_identifier q ++ [newline] else []) ++ w) ts w.
Proof.
  intros [->|[Hsp Hn]].
  - exists []. split; [apply namespace_none|apply reads_nil].
  - eexists. split; [apply namespace_some|]. rewrite decide_True.
    2:{ destruct Hn as ((c & u & -> & _) & _). done. }
    change (str "NAMESPACE ") with (namespace_keyword ++ str " "). rewrite <- !app_assoc.
    eapply reads_cons; [by apply next_token_keyword; [eexists _, _|repeat constructor|..]|].
    simpl app. apply reads_blank; [done|].
    rewrite <- (app_nil_r (qualified_tokens q)). eapply reads_app; [by apply reads_path|].
    apply reads_blank; [done|apply reads_nil].
Qed.

(** A tree the printer covers: no mappings or encodings, and names and paths that can be
    written. *)
Definition root_ok (r : AstRoot) : Prop :=
  Forall (fun i => path_ok (inc_path i)) (includes r) /\
  (root_space r = empty_qualified \/ qualified_ok (root_space r)) /\
  Forall struct_ok (struct_decls r) /\ map_decls r = [] /\ enco_decls r = [].

(** What is printed for the structs. *)
Definition printed_structs (r : AstRoot) : bytes :=
  struct_decls r ≫= fun s => print_struct s ++ [newline].

(** The text before the structs reads back. *)
Lemma print_root_heading r :
  root_ok r ->
  exists tsi tsq u, derives_all derives_include (erase_include <$> includes r) tsi /\
    derives_namespace (root_space r) tsq /\ lexes (print_root r) (tsi ++ tsq) u /\
    strip u = strip (printed_structs r).
Proof.
  intros (Hincs & Hq & _).
  destruct (reads_namespace (root_space r) (printed_structs r)) as (tsq & HDq & Hrq); [done|].
  destruct (reads_all (fun i => derives_include (erase_include i))
              (fun i => print_include i ++ [newline]) (includes r)
              ((if decide (name (root_space r) <> [])
                then str "NAMESPACE " ++ print_qualified_identifier (root_space r) ++ [newline]
                else []) ++ printed_structs r)) as (tsi & HDi & Hri).
  { eapply Forall_impl; [exact Hincs|]. intros i Hi w. by apply reads_include. }
  destruct (reads_app _ _ _ _ _ Hri Hrq) as (u & Hl & Hu).
  exists tsi, tsq, u. split_and!; [by apply derives_all_fmap|done..].
Qed.

(** A tree without structs is printed as a document of it. *)
Lemma print_root_reads r :
  root_ok r -> struct_decls r = [] ->
  exists ts, token_stream (print_root r) ts /\ derives_document (erase_root r) ts.
Proof.
  intros Hr Hs. destruct (print_root_heading r Hr) as (tsi & tsq & u & HDi & HDq & Hl & Hu).
  destruct Hr as (_ & _ & _ & Hms & Hes). exists (tsi ++ tsq). split.
  - exists u. split; [done|]. rewrite Hu. unfold printed_structs. by rewrite Hs.
  - unfold erase_root. rewrite Hs, Hms, Hes, <- (app_nil_r (tsi ++ tsq)), <- app_assoc.
    apply document; [done..|constructor].
Qed.

(** With a struct, the word [DATA] is next. *)
Lemma printed_structs_data r :
  Forall struct_ok (struct_decls r) -> struct_decls r <> [] ->
  strip (printed_structs r) = printed_structs r /\
  classify (printed_structs r) = Symbol.identifier.
Proof. unfold printed_structs. by destruct (struct_decls r). Qed.
