(* ===== verification/WellFormed.v ===== *)
(** * Well-formed trees

    The type of the trees the tool works on: names are words of the language that are not
    keywords, the name of an encoding that is not written is the default one, array sizes fit
    in 64 bits and are there for arrays only. What the grammar derives from tokens the lexer
    produces is well formed. *)
From S2P Require Import Prelude Ast CharBuffer Lexer Parser LexSpec LexerCorrect Grammar AstPrint.

Definition mapping_ok (m : AstMapping) : Prop :=
  identifier_ok (ma_struct_id m) /\ qualified_ok (ma_map_category m) /\
  Forall (fun f => identifier_ok (mf_identifier f)) (ma_fields m).

Section written.
(** The tokens of the document. *)
Context (ts0 : list token).

(** The name of an encoding is written in the document, or else the default one. *)
Definition encoding_name_ok (e : AstIdentifier) : Prop :=
  identifier_ok e /\ (TIdentifier e ∈ ts0 \/ e = str "DEFAULT").

Inductive node_ok : AstEncodingNode -> Prop :=
| field_ok o i e : identifier_ok i -> encoding_name_ok e -> node_ok (AstEncodingField o i e)
| delta_ok o ns : Forall node_ok ns -> node_ok (AstEncodingDeltaBlock o ns).

Definition encoding_ok (e : AstEncoding) : Prop :=
  identifier_ok (en_struct_id e) /\ encoding_name_ok (en_enco_id e) /\ Forall node_ok (en_fields e).

Definition root_wf (r : AstRoot) : Prop :=
  (root_space r = empty_qualified \/ qualified_ok (root_space r)) /\
  Forall struct_ok (struct_decls r) /\ Forall mapping_ok (map_decls r) /\
  Forall encoding_ok (enco_decls r).

(** A well-formed tree within the reach of the printer is printable. *)
Lemma root_wf_printable r :
  root_wf r -> Forall (fun i => path_ok (inc_path i)) (includes r) ->
  map_decls r = [] -> enco_decls r = [] -> root_ok r.
Proof. intros (Hq & Hss & _ & _) Hi Hm He. by split_and!. Qed.

(** ** Tokens *)
Definition token_ok (t : token) : Prop :=
  match t with
  | TIdentifier i => identifier_ok i
  | TInteger z => - int64_max <= z <= int64_max
  | TSymbol _ | TString _ => True
  end.

(** A token of the document. *)
Definition token_in (t : token) : Prop := token_ok t /\ t ∈ ts0.

Lemma word_prefix_words v : Forall (fun c => is_word c = true) (word_prefix v).
Proof. induction v as [|c v IH]; simpl; [constructor|]. by case_match; constructor. Qed.

Lemma classify_identifier_ok v : classify v = Symbol.identifier -> identifier_ok (word_prefix v).
Proof.
  intros Hv. destruct (classify_identifier v Hv) as (c & u & -> & Hc).
  split; [|split; [apply word_prefix_words|]].
  - simpl. unfold is_word. rewrite Hc. simpl. eauto.
  - unfold classify in Hv. destruct (letter_facts c Hc) as (? & _ & _ & Hd & ? & ? & Hs & Hq & _).
    by rewrite decide_False, Hd, !bool_decide_false, Hs, Hq, Hc in Hv by done.
Qed.

Lemma read_integer_range v z r :
  read_integer v = Some (z, r) -> - int64_max <= z <= int64_max.
Proof.
  unfold read_integer. destruct (split_sign v) as [neg u].
  pose proof (digits_value_mono 0 u ltac:(lia)) as Hpos. destruct (digits_value 0 u) as [z' r'].
  case_decide; [|done]. simpl in Hpos. intros [= <- _]. destruct neg; lia.
Qed.

Lemma next_token_ok w t u : next_token w = Some (t, u) -> token_ok t.
Proof.
  unfold next_token. intros Ht. destruct (classify (strip w)) eqn:Hs; simpl in Ht; simplify_eq; try done.
  - by apply classify_identifier_ok.
  - by repeat case_match; simplify_eq.
  - destruct (read_integer (strip w)) as [[z r]|] eqn:Hr; simplify_eq. by eapply read_integer_range.
Qed.

Lemma lexes_ok w ts w' : lexes w ts w' -> Forall token_ok ts.
Proof.
  revert w. induction ts as [|t ts IH]; intros w; simpl; [constructor|].
  intros (u & Hu & Hl). constructor; [by eapply next_token_ok|by eapply IH].
Qed.

(** ** Derivations *)

Lemma tokens_in ts : Forall token_in ts -> Forall token_ok ts.
Proof. intros Hts. eapply Forall_impl; [exact Hts|]. by intros t []. Qed.

Lemma derives_all_Forall {A} (D : A -> list token -> Prop) (ok : A -> Prop) xs ts :
  Forall (fun x => forall ts, D x ts -> Forall token_in ts -> ok x) xs ->
  derives_all D xs ts -> Forall token_in ts -> Forall ok xs.
Proof.
  intros HD Hxs. revert HD. induction Hxs as [|x ts xs ts' Hx Hxs IH]; [constructor|].
  intros [HD HDs]%Forall_cons. rewrite Forall_app. intros [Hts Hts']. constructor; eauto.
Qed.

Lemma derives_all_ok {A} (D : A -> list token -> Prop) (ok : A -> Prop) xs ts :
  (forall x ts, D x ts -> Forall token_in ts -> ok x) ->
  derives_all D xs ts -> Forall token_in ts -> Forall ok xs.
Proof. intros HD. apply derives_all_Forall. by apply Forall_true. Qed.

Lemma qualified_tokens_ok q : Forall token_in (qualified_tokens q) -> qualified_ok q.
Proof.
  intros Hts%tokens_in. revert Hts. unfold qualified_tokens, qualified_ok. destruct q as [sp n]. simpl.
  induction sp as [|i sp IH]; simpl; rewrite ?Forall_cons; [by intros []|].
  intros (Hi & _ & Hts). apply IH in Hts as [Hsp Hn]. by split; [constructor|].
Qed.

Lemma derives_type_ok t ts : derives_type t ts -> Forall token_in ts -> type_ok t.
Proof.
  intros [q|q n] Hts; unfold type_ok; simpl.
  - by split; [apply qualified_tokens_ok|].
  - rewrite Forall_app, !Forall_cons in Hts. destruct Hts as (Hq & _ & [Hn _] & _).
    by split; [apply qualified_tokens_ok|].
Qed.

Lemma derives_struct_field_ok f ts :
  derives_struct_field f ts -> Forall token_in ts -> struct_field_ok f.
Proof.
  intros [i t ts' Ht]. rewrite !Forall_cons. intros ([Hi _] & _ & Hts).
  by split; [|eapply derives_type_ok].
Qed.

Lemma derives_struct_ok s ts : derives_struct s ts -> Forall token_in ts -> struct_ok s.
Proof.
  intros [i fs ts' Hfs]. rewrite !Forall_cons, Forall_app. intros (_ & [Hi _] & _ & Hts & _).
  split; [done|]. by eapply derives_all_ok; [apply derives_struct_field_ok|..].
Qed.

Lemma derives_mapping_field_ok f ts :
  derives_mapping_field f ts -> Forall token_in ts -> identifier_ok (mf_identifier f).
Proof. intros [i s]. rewrite !Forall_cons. by intros ([Hi _] & _). Qed.

Lemma derives_mapping_ok m ts : derives_mapping m ts -> Forall token_in ts -> mapping_ok m.
Proof.
  intros [i q fs ts' Hfs]. rewrite !Forall_cons, Forall_app, Forall_cons, Forall_app.
  intros (_ & [Hi _] & _ & Hq & _ & Hts & _).
  split_and!; [done|by apply qualified_tokens_ok|].
  by eapply derives_all_ok; [apply derives_mapping_field_ok|..].
Qed.

Lemma default_encoding_ok : identifier_ok DEFAULT_ENCODING.
Proof. split; [by eexists _, _|]. split; [by repeat constructor|done]. Qed.

Lemma derives_encoding_name_ok e ts :
  derives_encoding_name e ts -> Forall token_in ts -> encoding_name_ok e.
Proof.
  intros []; [intros _; split; [apply default_encoding_ok|by right]|].
  rewrite !Forall_cons. intros (_ & [He Hin] & _). by split; [|left].
Qed.

Lemma derives_encoding_field_ok n ts : derives_encoding_field n ts -> Forall token_in ts -> node_ok n.
Proof.
  intros [i e ts' He]. rewrite Forall_cons. intros [[Hi _] Hts].
  constructor; [done|by eapply derives_encoding_name_ok].
Qed.

Lemma derives_node_ok n ts : derives_node n ts -> Forall token_in ts -> node_ok n.
Proof.
  revert ts. induction n as [o i e|o ns IH] using encoding_node_ind; intros ts Hn Hts.
  - inversion Hn; subst. by eapply derives_encoding_field_ok.
  - inversion Hn as [? ? Hf|? ? Hf|? ts' Hns]; subst; [by inversion Hf|..]; constructor.
    + apply Forall_cons in Hts as [_ Hts]. constructor; [|done]. by eapply derives_encoding_field_ok.
    + rewrite !Forall_cons, Forall_app in Hts. destruct Hts as (_ & _ & Hts & _).
      by eapply derives_all_Forall.
Qed.

Lemma derives_encoding_ok e ts : derives_encoding e ts -> Forall token_in ts -> encoding_ok e.
Proof.
  intros [i e' tse ns ts' He Hns]. rewrite !Forall_cons, Forall_app, Forall_cons, Forall_app.
  intros (_ & [Hi _] & Htse & _ & Hts & _).
  split_and!; [done|by eapply derives_encoding_name_ok|].
  by eapply derives_all_ok; [apply derives_node_ok|..].
Qed.

Lemma derives_decls_ok ss ms es ts :
  derives_decls ss ms es ts -> Forall token_in ts ->
  Forall struct_ok ss /\ Forall mapping_ok ms /\ Forall encoding_ok es.
Proof.
  induction 1; [intros _; by split_and!|..]; rewrite Forall_app; intros [Hts Hts'];
    destruct IHderives_decls as (? & ? & ?); try done; split_and!; try done;
    constructor; eauto using derives_struct_ok, derives_mapping_ok, derives_encoding_ok.
Qed.

Lemma derives_namespace_ok q ts :
  derives_namespace q ts -> Forall token_in ts -> q = empty_qualified \/ qualified_ok q.
Proof.
  intros []; [by left|]. rewrite Forall_cons. intros [_ Hq]. right. by apply qualified_tokens_ok.
Qed.

Lemma derives_document_ok r ts : derives_document r ts -> Forall token_in ts -> root_wf r.
Proof.
  intros [incs tsi q tsq ss ms es tsd _ Hq Hd]. rewrite !Forall_app. intros (_ & Htsq & Htsd).
  destruct (derives_decls_ok _ _ _ _ Hd Htsd) as (? & ? & ?).
  split_and!; [by eapply derives_namespace_ok|done..].
Qed.

(** Positions do not matter. *)
Lemma node_ok_erase n : node_ok (erase_node n) -> node_ok n.
Proof.
  induction n as [o i e|o ns IH] using encoding_node_ind; simpl; intros Hn; inversion Hn as [|? ? Hns];
    subst; constructor; [done..|].
  rewrite Forall_fmap in Hns. rewrite Forall_forall in *. intros n Hin. by apply IH, Hns.
Qed.

Lemma root_wf_erase r : root_wf (erase_root r) -> root_wf r.
Proof.
  intros (Hq & Hss & Hms & Hes). simpl in *. rewrite !Forall_fmap in *. split_and!; [done|..].
  - eapply Forall_impl; [exact Hss|]. intros s [Hi Hfs]. split; [done|].
    simpl in Hfs. by rewrite Forall_fmap in Hfs.
  - eapply Forall_impl; [exact Hms|]. intros m (Hi & Hc & Hfs). split_and!; [done|done|].
    simpl in Hfs. by rewrite Forall_fmap in Hfs.
  - eapply Forall_impl; [exact Hes|]. intros e (Hi & He & Hns). split_and!; [done|done|].
    simpl in Hns. rewrite Forall_fmap in Hns. eapply Forall_impl; [exact Hns|]. apply node_ok_erase.
Qed.

End written.

(** What the lexer and the grammar give. *)
Lemma document_ok W r ts :
  token_stream W ts -> derives_document (erase_root r) ts -> root_wf ts r.
Proof.
  intros (w' & Hl & _) Hd. apply root_wf_erase. eapply derives_document_ok; [done|].
  apply Forall_forall. intros t Ht. split; [|done].
  apply lexes_ok in Hl. rewrite Forall_forall in Hl. by apply Hl.
Qed.
