(* ===== verification/Happy.v ===== *)
(** * The happy tool

    [tools/happy/src/Main.cpp] and the theorems on [Parser::parse] as its callers see
    it: over any reader that keeps the contract of [StreamReader], by way of the
    specification of the buffer. *)
From S2P Require Import Prelude Ast CharBuffer StreamBuffer Lexer Parser ParserSim LexSpec.
From S2P Require Import LexerCorrect Grammar ParserCorrect ParserComplete AstPrint.

(** ** [main] *)

(** What the process does: exit with a code and what it wrote to [std::cout] and
    [std::cerr]; behave in an undefined way; or not be done when the fuel is used up. *)
Inductive process :=
| Exit (code : Z) (out err : bytes)
| Undefined
| Runs.

(** The two [catch] clauses. *)
Definition report (e : parse_error) : process :=
  match e with
  | ParseException position what =>
      Exit 1 [] (file position ++ str ":" ++ print_integer (line position) ++ str ":" ++
                 print_integer (column position) ++ str ": " ++ what ++ [newline])
  | RuntimeError what | LogicError what => Exit 1 [] (what ++ [newline])
  | SignedOverflow | OverRead => Undefined
  end.

Definition main (fuel : nat) (input : FILE) : process :=
  match parse fuel (str "<stdin>") (mkStdinReader input) with
  | Ok root _ => Exit 0 (print_root root) []
  | Err e => report e
  | Fuel => Runs
  end.

(** ** Results without the final state *)

Definition result {E S A} (o : outcome E S A) : outcome E unit A :=
  match o with
  | Ok a _ => Ok a tt
  | Err e => Err e
  | Fuel => Fuel
  end.

Lemma start_position F W : position_of F W W (pos_ (new_parser F (mkInput W 0))).
Proof.
  constructor; simpl; [done|lia..|].
  intros k Hk _. assert (k = []) as ->; [|done]. apply (app_inv_tail W). by simpl.
Qed.

Lemma at_start F W : at_ F W W (new_parser F (mkInput W 0)).
Proof.
  right. split_and!; [split; [done|apply start_position]|done..].
Qed.

(** *** More fuel does not change a result *)

Lemma parse_input_more_fuel F W f1 f2 :
  (f1 <= f2)%nat -> parse_input f1 F W <> Fuel -> parse_input f2 F W = parse_input f1 F W.
Proof.
  intros Hf HF.
  assert (sim (fun _ => False) True (related eq) (parse_document f1) (parse_document f2)) as Hsim.
  { assert (forall A (m : M parse_error input A), sim (fun _ => False) True eq m m) as Hrefl
      by (intros A m b ? <-; destruct (m b); eauto).
    by apply sim_parse_document; [right|..]. }
  specialize (Hsim (new_parser F (mkInput W 0)) (new_parser F (mkInput W 0)) ltac:(done)).
  unfold parse_input in *. destruct (parse_document f1 _) as [r [b p n]|e|]; [|naive_solver|done].
  destruct Hsim as ([b' p' n'] & -> & ? & ? & ?). simpl in *. by subst.
Qed.

Lemma parse_input_no_overread F W fuel : parse_input fuel F W <> Err OverRead.
Proof.
  intros He. set (f := (fuel + S (length W))%nat).
  assert (parse_input f F W = Err OverRead) as Hf
    by (rewrite <- He; apply parse_input_more_fuel; [lia|by rewrite He]).
  pose proof (sound_document F W f ltac:(lia) _ (at_start F W)) as Hwp.
  unfold wp in Hwp. unfold parse_input in Hf. rewrite Hf in Hwp.
  destruct Hwp as [(w & _ & pos & tail & ? & _)|(? & _)]; done.
Qed.

Section parse.
Context {R : Type} `{LawfulReader R}.

Lemma parse_result fuel F (r : R) :
  sound r -> result (parse fuel F r) = result (parse_input fuel F (content r)).
Proof.
  intros Hr.
  assert (sim (fun e => e = OverRead) False (related represents)
            (parse_document fuel) (parse_document fuel)) as Hsim.
  { apply sim_parse_document; [by left|apply sim_peek_at|apply sim_skip|
                               apply sim_trim_opportunity]. }
  specialize (Hsim (new_parser F (mkInput (content r) 0)) (new_parser F (fresh_buffer r))).
  pose proof (parse_input_no_overread F (content r) fuel) as Hno.
  unfold parse, parse_input in *.
  destruct (parse_document fuel (new_parser F (mkInput _ _))) as [a p|e|].
  - destruct Hsim as (p' & -> & _); [|done]. split; [by apply represents_fresh|done].
  - destruct Hsim as [->| ->]; [|done|done]. split; [by apply represents_fresh|done].
  - destruct Hsim as [?| ->]; [|done|done]. split; [by apply represents_fresh|done].
Qed.
End parse.

Lemma result_Ok {E S A} (o : outcome E S A) a : result o = Ok a tt <-> exists s, o = Ok a s.
Proof. destruct o; simpl; [|naive_solver..]. split; [intros [= ->]; eauto|naive_solver]. Qed.
Lemma result_Err {E S A} (o : outcome E S A) e : result o = Err e <-> o = Err e.
Proof. destruct o; simpl; naive_solver. Qed.
Lemma result_Fuel {E S A} (o : outcome E S A) : result o = Fuel <-> o = Fuel.
Proof. destruct o; simpl; naive_solver. Qed.

(** *** The specification's parser and the grammar *)

Lemma parse_input_cases F W fuel :
  (length W < fuel)%nat ->
  match result (parse_input fuel F W) with
  | Ok r _ => exists ts, token_stream W ts /\ derives_document (erase_root r) ts
  | Err e => failure F W e
  | Fuel => stuck W fuel
  end.
Proof.
  intros Hf. pose proof (sound_document F W fuel Hf _ (at_start F W)) as Hwp.
  unfold wp in Hwp. unfold parse_input. by destruct (parse_document fuel _).
Qed.

Lemma parse_input_complete F W fuel r ts :
  (length W < fuel)%nat -> token_stream W ts -> derives_document r ts ->
  exists r', result (parse_input fuel F W) = Ok r' tt /\ erase_root r' = r.
Proof.
  intros Hf Hts Hr. pose proof (complete_document F W fuel Hf r ts _ Hr Hts (at_start F W)) as Hwp.
  unfold wp in Hwp. unfold parse_input. destruct (parse_document fuel _); [|done..]. eauto.
Qed.

(** *** An unclosed path after [INCLUDE] *)

(** The includes before it, then [INCLUDE], then a literal that is never closed. *)
Definition unclosed_include (W : bytes) : Prop :=
  exists incs ts w, derives_all derives_include incs ts /\
    lexes W (ts ++ [TSymbol Symbol.include_kw]) w /\ unclosed w.

Section unclosed.
Context (F W : bytes) (fuel : nat) (Hfuel : (length W < fuel)%nat).
Hypothesis Hint : int_max < Z.of_nat fuel.

(** [m] overflows. *)
Abbreviation overflows m p := (wp m p (fun _ _ => False) (fun e => e = SignedOverflow) False).

Lemma overflows_string w p : at_ F W w p -> unclosed w -> overflows (parse_string fuel) p.
Proof.
  intros Hp (d & u & Hv & Hq & Hr).
  assert (classify (strip w) = Symbol.string) as Hs.
  { rewrite Hv. by destruct d as [[] [] [] [] [] [] [] []]; vm_compute in Hq. }
  eapply wp_mono; [by eapply wp_parse_string|..].
  - intros s p' (w' & Ht & _). unfold next_token, read_literal in Ht. rewrite Hs, Hv in Ht.
    by rewrite Hr in Ht.
  - by intros e [[He _]|[-> _]].
  - lia.
Qed.

Lemma overflows_include w w' p :
  at_ F W w p -> next_token w = Some (TSymbol Symbol.include_kw, w') -> unclosed w' ->
  overflows (parse_include fuel) p.
Proof.
  intros Hp Ht Hw'. unfold parse_include. apply wp_bind, wp_gets.
  apply wp_bind. eapply (wp_mono _ _ (fun _ p' => at_ F W w' p') _ (fun _ => False));
    [by eapply (c_symbol F W fuel Hfuel)| |done|done].
  intros [] p' Hp'. apply wp_bind. eapply wp_mono; [by eapply overflows_string|done..].
Qed.

Lemma overflows_document p : at_ F W W p -> unclosed_include W -> overflows (parse_document fuel) p.
Proof.
  intros Hp (incs & ts & w & Hincs & Hlex & Hw). unfold parse_document. apply wp_bind, wp_gets.
  apply wp_bind. eapply (wp_mono _ _ (fun _ _ => False)); [|done..].
  unfold parse_includes.
  apply (wp_loop
    (fun _ q => exists zs ts1 w1, derives_all derives_include zs ts1 /\
       lexes w1 (ts1 ++ [TSymbol Symbol.include_kw]) w /\ at_ F W w1 q)
    (fun _ q => left_ q)).
  2:{ exists incs, ts, W. by split_and!. }
  2:{ by eapply (at_left_fuel F W fuel Hfuel). }
  intros ys q (zs & ts1 & w1 & Hzs & Hlex1 & Hq).
  apply wp_bind. eapply (wp_mono _ _ (fun s q' => s = classify (strip w1) /\ at_ F W w1 q') _ (fun _ => False));
    [by eapply (c_peek F W fuel Hfuel w1)| |done|done].
  intros s q' [-> Hq']. destruct Hzs as [|z tz zs tzs Hz Hzs].
  - destruct Hlex1 as (u & Hu & <-).
    rewrite decide_True by (by apply next_token_symbol in Hu).
    apply wp_bind. eapply wp_mono; [by eapply overflows_include|done..].
  - rewrite <- app_assoc in Hlex1. apply lexes_app in Hlex1 as (w2 & Hz2 & Hlex2).
    rewrite decide_True by (by eapply (starts_next _ _ _ _ _ _ include_starts)).
    pose proof (starts_shorter _ _ _ _ _ _ include_starts Hz Hz2) as Hlt.
    apply wp_bind. eapply (wp_mono _ _ (fun _ q2 => at_ F W w2 q2) _ (fun _ => False)).
    + by eapply (c_item F W); [apply (complete_include F W fuel Hfuel)|..].
    + intros y q2 Hq2. apply wp_ret. split; [by exists zs, tzs, w2|].
      by rewrite (at_left F W w2 q2), (at_left F W w1 q) by done.
    + done.
    + done.
Qed.
End unclosed.

(** *** A word where a declaration is expected *)

(** After the includes and the namespace the parser refuses an identifier, at its
    position. *)
Lemma rejected_document F W fuel incs tsi q tsq w p :
  (length W < fuel)%nat ->
  derives_all derives_include incs tsi -> derives_namespace q tsq -> lexes W (tsi ++ tsq) w ->
  classify (strip w) = Symbol.identifier -> at_ F W W p ->
  wp (parse_document fuel) p (fun _ _ => False) (failure_at F W (strip w)) False.
Proof.
  intros Hf Hincs Hq (w1 & Hlexi & Hlexq)%lexes_app Hw Hp. unfold parse_document.
  apply wp_bind, wp_gets. apply wp_bind.
  eapply (wp_mono _ _ (fun _ p' => at_ F W w1 p') _ (fun _ => False));
    [eapply (c_item F W); [apply (complete_includes F W fuel Hf)|done|done| |done|done]| |done|done].
  { destruct Hq as [|q].
    - simpl in Hlexq. subst w1. rewrite Hw. set_solver.
    - destruct Hlexq as (u & Hu & _). rewrite (next_token_symbol _ _ _ Hu). set_solver. }
  intros incs' p1 Hp1. apply wp_bind.
  eapply (wp_mono _ _ (fun _ p' => at_ F W w p') _ (fun _ => False));
    [eapply (c_item F W); [apply (complete_namespace F W fuel Hf)|done|done| |done|done]| |done|done].
  { rewrite Hw. set_solver. }
  intros q' p2 Hp2. apply wp_bind. unfold parse_decls. destruct fuel as [|fuel]; [lia|]. cbn [loop].
  do 2 apply wp_bind. eapply (wp_mono _ _ (fun s p' => s = Symbol.identifier /\ at_ F W w p') _ (fun _ => False));
    [eapply (c_peek F W (S fuel) Hf w); [done|]; by rewrite Hw| |done|done].
  intros s p3 [-> Hp3]. cbn iota beta.
  eapply wp_mono; [eapply (wp_unexpected_with F W (S fuel) Hf (A := decls + decls) w
    (str " in document") p3 (fun _ _ => False) False); [simpl; lia|done]|done|done|done].
Qed.

Lemma bind_fmap_ext {A B C} (f : A -> B) (g : B -> list C) (h : A -> list C) xs :
  (forall x, g (f x) = h x) -> (f <$> xs) ≫= g = xs ≫= h.
Proof. intros Hfg. induction xs as [|x xs IH]; [done|]. by rewrite fmap_cons, !bind_cons, Hfg, IH. Qed.

(** The printer does not show positions. *)
Lemma print_root_erase r : print_root (erase_root r) = print_root r.
Proof.
  unfold print_root. destruct r as [o incs q ss ms es]. simpl root_space.
  f_equal; [|f_equal]; apply bind_fmap_ext; [done|].
  intros s. unfold print_struct.
  by rewrite (bind_fmap_ext erase_struct_field _
                (fun f => str " " ++ print_struct_field f ++ [newline]) (st_fields s)).
Qed.
