(* ===== verification/HappyTheorems.v ===== *)
(** * What the happy tool guarantees

    The properties of [Parser::parse] over any reader that keeps the contract of
    [StreamReader], of the printer and of [main]. Each witness runs a property on a
    document that arrives in pieces. *)
From S2P Require Import Prelude Ast CharBuffer StreamBuffer Lexer Parser ParserSim LexSpec.
From S2P Require Import LexerCorrect Grammar ParserCorrect ParserComplete Origins AstPrint WellFormed Happy.

(** A document with one struct, in three pieces. *)
Definition sample : ChunkReader :=
  mkChunkReader [str "STRU"; str "CT point { x: n"; str "um[-4] }"].

Definition sample_tree : AstRoot :=
  mkAstRoot nowhere [] empty_qualified
    [mkAstStruct nowhere (str "point")
       [mkAstStructField nowhere (str "x")
          (mkAstType (mkAstQualifiedIdentifier [] (str "num")) true (Some (-4)))]] [] [].

Definition sample_tokens : list token :=
  [TSymbol Symbol.struct_kw; TIdentifier (str "point"); TSymbol Symbol.curly_open;
   TIdentifier (str "x"); TSymbol Symbol.colon; TIdentifier (str "num");
   TSymbol Symbol.bracket_open; TInteger (-4); TSymbol Symbol.bracket_close;
   TSymbol Symbol.curly_close].

Lemma sample_derives : derives_document sample_tree sample_tokens.
Proof.
  apply (document [] [] _ [] _ _ _ sample_tokens); [constructor..|].
  rewrite <- (app_nil_r sample_tokens).
  apply decls_struct; [|apply decls_nil].
  apply (struct _ _ [TIdentifier _; TSymbol _; TIdentifier _; TSymbol _; TInteger _; TSymbol _]).
  rewrite <- (app_nil_r [_; _; _; _; _; _]).
  apply all_cons; [|apply all_nil]. apply struct_field.
  apply (type_array (mkAstQualifiedIdentifier [] (str "num"))).
Qed.

Lemma sample_lexes : token_stream (concat (chunks sample)) sample_tokens.
Proof.
  eexists. split; [|shelve]. repeat (eexists; split; [vm_compute; reflexivity|]). reflexivity.
  Unshelve. vm_compute. reflexivity.
Qed.

(** ** Acceptance *)

(** C1: [Parser::parse] accepts exactly the documents of the grammar. Over a reader that
    works and whose stream is [content r], it returns a tree equal to [t] up to the
    positions of its nodes if and only if the bytes of the stream lex to a token
    sequence that denotes [t]. *)
Theorem parse_correct {R} `{LawfulReader R} fuel filename (r : R) t :
  sound r -> (length (content r) < fuel)%nat ->
  (exists root p, parse fuel filename r = Ok root p /\ erase_root root = t) <->
  (exists ts, token_stream (content r) ts /\ derives_document t ts).
Proof.
  intros Hr Hf. pose proof (parse_result fuel filename r Hr) as Heq. split.
  - intros (root & p & Hp & <-). pose proof (parse_input_cases filename _ _ Hf) as Hc.
    by rewrite <- Heq, Hp in Hc.
  - intros (ts & Hts & Hd).
    destruct (parse_input_complete filename _ _ _ _ Hf Hts Hd) as (root & Hroot & <-).
    rewrite Hroot in Heq. apply result_Ok in Heq as (p & Hp). eauto.
Qed.

Lemma parse_correct_witness :
  exists root p, parse 50 (str "f") sample = Ok root p /\ erase_root root = sample_tree.
Proof.
  apply (parse_correct 50 (str "f") sample sample_tree); [exact I|vm_compute; lia|].
  exists sample_tokens. split; [exact sample_lexes|exact sample_derives].
Defined.

Definition sample_root : AstRoot :=
  Eval vm_compute in
    match parse 50 (str "f") sample with
    | Ok root _ => root
    | _ => mkAstRoot nowhere [] empty_qualified [] [] []
    end.

(** C2: the tree is well formed: every name in it is a word of the language that is not a
    keyword, an array has a size, which fits in 64 bits, and nothing else has one, and the
    name of an encoding is an identifier of the document, or else [DEFAULT]. *)
Theorem parse_well_formed {R} `{LawfulReader R} fuel filename (r : R) root p :
  sound r -> (length (content r) < fuel)%nat -> parse fuel filename r = Ok root p ->
  exists ts, token_stream (content r) ts /\ root_wf ts root.
Proof.
  intros Hr Hf Hp. pose proof (parse_input_cases filename _ _ Hf) as Hc.
  rewrite <- (parse_result fuel filename r Hr), Hp in Hc. destruct Hc as (ts & Hts & Hd).
  exists ts. split; [done|]. by eapply document_ok.
Qed.

(** An encoding that is left out, and one that is not. *)
Definition encoded_sample : ChunkReader :=
  mkChunkReader [str "ENCODING a { x y: z }"].

Definition encoded_root : AstRoot :=
  Eval vm_compute in
    match parse 50 (str "f") encoded_sample with
    | Ok root _ => root
    | _ => mkAstRoot nowhere [] empty_qualified [] [] []
    end.

Lemma parse_well_formed_witness :
  exists ts, token_stream (content encoded_sample) ts /\ root_wf ts encoded_root.
Proof.
  eapply (parse_well_formed 50 (str "f") encoded_sample);
    [exact I|vm_compute; lia|vm_compute; reflexivity].
Defined.

(** C3: the origin of every node is where its text starts. The tree follows the document:
    its nodes, in their order, are found one after the other, the fields of a node after
    its heading, and each carries the file name, the line and the column of the first
    token of its heading (the column being exact when no carriage return comes before). *)
Theorem parse_origins {R} `{LawfulReader R} fuel filename (r : R) root p :
  sound r -> (length (content r) < fuel)%nat -> parse fuel filename r = Ok root p ->
  located_root filename (content r) root.
Proof.
  intros Hr Hf Hp. pose proof (parse_result fuel filename r Hr) as Heq.
  rewrite Hp in Heq. symmetry in Heq. apply result_Ok in Heq as (s & Hs).
  pose proof (at_start filename (content r)) as Hat.
  pose proof (origin_document filename (content r) fuel Hf _ Hat) as Hwp.
  unfold wp in Hwp. unfold parse_input in Hs. rewrite Hs in Hwp. by apply Hwp, start_position.
Qed.

Lemma parse_origins_witness : located_root (str "f") (content sample) sample_root.
Proof.
  eapply (parse_origins 50 (str "f") sample);
    [exact I|vm_compute; lia|vm_compute; reflexivity].
Defined.

(** C4: the result does not depend on how the reader cuts the stream into pieces: it is
    the result of the parser over the plain bytes, the same tree with the same positions
    or the same error, at every fuel; and the buffer with its offset, its refills and its
    trimming is never used past its end, which would be the error [OverRead]. *)
Theorem parse_refines_input {R} `{LawfulReader R} fuel filename (r : R) :
  sound r ->
  result (parse fuel filename r) = result (parse_input fuel filename (content r)) /\
  parse fuel filename r <> Err OverRead.
Proof.
  intros Hr. pose proof (parse_result fuel filename r Hr) as Heq. split; [done|].
  intros He. rewrite He in Heq. by apply (parse_input_no_overread filename (content r) fuel), result_Err.
Qed.

Lemma parse_refines_input_witness :
  result (parse 50 (str "f") sample) =
  result (parse_input 50 (str "f") (str "STRUCT point { x: num[-4] }")) /\
  parse 50 (str "f") sample <> Err OverRead.
Proof. exact (parse_refines_input 50 (str "f") sample I). Defined.

(** ** Errors *)

(** C5: what [Parser::parse] throws. Over a working reader a failed parse is either a
    [ParseException] that names the symbol found at some place of the stream and carries
    the position of that place: the file name, the line (counted from 1) and the column,
    which is exact when no carriage return comes before it, and otherwise within the input;
    or a signed overflow at a literal: an integer whose magnitude exceeds [INT64_MAX], or an
    integer or a string that is longer than [INT_MAX], as one that is not closed is. It
    never is the [logic_error] of a misused [parse_symbol], nor an access past the
    buffer. *)
Theorem parse_safe {R} `{LawfulReader R} fuel filename (r : R) e :
  sound r -> (length (content r) < fuel)%nat -> parse fuel filename r = Err e ->
  (exists w pos tail, w `suffix_of` content r /\
     e = ParseException pos (str "Unexpected symbol " ++ symbol_str (classify (strip w)) ++ tail) /\
     position_of filename (content r) (strip w) pos) \/
  (e = SignedOverflow /\
   exists w, w `suffix_of` content r /\
     (classify (strip w) = Symbol.string /\ read_literal (strip w) = None \/
      classify (strip w) = Symbol.integer /\ read_integer (strip w) = None)).
Proof.
  intros Hr Hf He. pose proof (parse_input_cases filename _ _ Hf) as Hc.
  rewrite <- (parse_result fuel filename r Hr), He in Hc. simpl in Hc.
  destruct Hc as [(w & Hw & pos & tail & -> & _ & Hpos)|?]; [left|by right].
  by exists w, pos, tail.
Qed.

Definition bad_sample : ChunkReader := mkChunkReader [str "INCLU"; str "DE x"].

Definition bad_error : parse_error :=
  ParseException (mkDocumentPosition (str "f") 1 8)
    (str "Unexpected symbol identifier, expected string").

Lemma parse_safe_witness :
  parse 50 (str "f") bad_sample = Err bad_error /\
  ((exists w pos tail, w `suffix_of` content bad_sample /\
     bad_error = ParseException pos
       (str "Unexpected symbol " ++ symbol_str (classify (strip w)) ++ tail) /\
     position_of (str "f") (content bad_sample) (strip w) pos) \/
   (bad_error = SignedOverflow /\
    exists w, w `suffix_of` content bad_sample /\
      (classify (strip w) = Symbol.string /\ read_literal (strip w) = None \/
       classify (strip w) = Symbol.integer /\ read_integer (strip w) = None))).
Proof.
  assert (parse 50 (str "f") bad_sample = Err bad_error) as He by (vm_compute; reflexivity).
  split; [exact He|].
  apply (parse_safe 50 (str "f") bad_sample bad_error); [exact I|vm_compute; lia|exact He].
Defined.

(** ** Termination *)

(** C6: [Parser::parse] stops, on every stream. One unit of fuel per byte and one more, and
    more units than there are [int]s, are enough for every loop and every recursion of the
    parser, whatever the bytes: it returns a tree, throws, or overflows; and any more fuel
    gives the same result. The bound of [int] is for a string literal that is not closed,
    whose loop reads NUL past the end of the stream until the length of the literal
    overflows. *)
Theorem parse_terminates {R} `{LawfulReader R} fuel filename (r : R) :
  sound r -> (length (content r) < fuel)%nat -> int_max < Z.of_nat fuel ->
  parse fuel filename r <> Fuel /\
  forall fuel', (fuel <= fuel')%nat ->
    result (parse fuel' filename r) = result (parse fuel filename r).
Proof.
  intros Hr Hf Hint. pose proof (parse_input_cases filename _ _ Hf) as Hc.
  rewrite <- (parse_result fuel filename r Hr) in Hc.
  assert (parse fuel filename r <> Fuel) as HF.
  { intros HF. rewrite HF in Hc. destruct Hc as [Hle _]. lia. }
  split; [done|]. intros fuel' Hle.
  rewrite <- result_Fuel, (parse_result _ _ _ Hr), result_Fuel in HF.
  rewrite !parse_result by done. f_equal. by apply parse_input_more_fuel.
Qed.

(** More than there are [int]s. *)
Definition plenty : nat := Z.to_nat (2 ^ 32).

Lemma plenty_int : int_max < Z.of_nat plenty.
Proof. unfold plenty, int_max. lia. Qed.
Lemma plenty_length (w : bytes) : Z.of_nat (length w) < int_max -> (length w < plenty)%nat.
Proof. pose proof plenty_int. lia. Qed.

(** A document with literals of both kinds, of which the last is not closed. *)
Definition quoted_sample : ChunkReader :=
  mkChunkReader [str "INCLUDE 'a' STRUCT b { c: d[1] } MAP"; str "PING b: e { f: 'g }"].

Lemma parse_terminates_witness :
  parse plenty (str "f") quoted_sample <> Fuel /\
  forall fuel', (plenty <= fuel')%nat ->
    result (parse fuel' (str "f") quoted_sample) = result (parse plenty (str "f") quoted_sample).
Proof.
  assert (Z.of_nat (length (content quoted_sample)) < int_max) as Hlen by (vm_compute; reflexivity).
  apply (parse_terminates plenty (str "f") quoted_sample);
    [exact I|exact (plenty_length _ Hlen)|exact plenty_int].
Defined.

(** C7: an unclosed path is undefined behaviour. When the stream is a sequence of includes,
    then [INCLUDE] and a string literal that is never closed, the parser neither returns nor
    throws: the loop of [parse_string] goes on past the end of the stream until the [int] it
    counts the literal with overflows. *)
Theorem parse_unclosed_include_overflows {R} `{LawfulReader R} fuel filename (r : R) :
  sound r -> (length (content r) < fuel)%nat -> int_max < Z.of_nat fuel ->
  unclosed_include (content r) -> parse fuel filename r = Err SignedOverflow.
Proof.
  intros Hr Hf Hint Hu. apply result_Err. rewrite parse_result by done. apply result_Err.
  pose proof (overflows_document filename (content r) fuel Hf Hint _ (at_start _ _) Hu) as Hwp.
  unfold wp in Hwp. unfold parse_input. destruct (parse_document fuel _); [done| |done]. by subst.
Qed.

Definition unclosed_sample : ChunkReader := mkChunkReader [str "INCLUDE 'a' INCL"; str "UDE 'b"].

Lemma parse_unclosed_include_overflows_witness :
  parse plenty (str "f") unclosed_sample = Err SignedOverflow.
Proof.
  assert (Z.of_nat (length (content unclosed_sample)) < int_max) as Hlen by (vm_compute; reflexivity).
  apply (parse_unclosed_include_overflows plenty (str "f") unclosed_sample);
    [exact I|exact (plenty_length _ Hlen)|exact plenty_int|].
  eexists [mkAstInclude nowhere (str "a")], _, _. split_and!.
  - apply all_cons; [apply include_path|apply all_nil].
  - repeat (eexists; split; [vm_compute; reflexivity|]). reflexivity.
  - eexists _, _. split_and!; vm_compute; reflexivity.
Defined.

(** A result does not depend on the fuel: once the parser returns or throws, more fuel
    gives the same tree or the same error. *)
Theorem parse_more_fuel {R} `{LawfulReader R} fuel fuel' filename (r : R) :
  sound r -> (fuel <= fuel')%nat -> parse fuel filename r <> Fuel ->
  result (parse fuel' filename r) = result (parse fuel filename r).
Proof.
  intros Hr Hf HF. rewrite <- result_Fuel, (parse_result _ _ _ Hr), result_Fuel in HF.
  rewrite !parse_result by done. f_equal. by apply parse_input_more_fuel.
Qed.

Lemma parse_more_fuel_witness :
  result (parse 99 (str "f") sample) = result (parse 12 (str "f") sample).
Proof.
  apply (parse_more_fuel 12 99 (str "f") sample); [exact I|lia|vm_compute; discriminate].
Defined.

(** ** The printer *)








(** ** The lexer

    [at_ F W w p]: the parser [p] reads the file [F] with the contents [W], of which [w] is
    still to be read. *)

(** [peek_symbol] finds the symbol at the front of what is left, after blanks and
    comments, without consuming it; a second call answers the same without reading. *)
Theorem peek_symbol_correct F W fuel w p :
  (length W < fuel)%nat -> at_ F W w p ->
  exists p', peek_symbol fuel p = Ok (classify (strip w)) p' /\ at_ F W w p' /\
    rest (buf p') = strip w /\ peek_symbol fuel p' = Ok (classify (strip w)) p'.
Proof.
  intros Hf Hp. pose proof (wp_peek_symbol F W fuel Hf w p Hp) as Hwp. unfold wp in Hwp.
  destruct (peek_symbol fuel p) as [s p'|e|]; [|done..]. destruct Hwp as [-> Hp'].
  exists p'. pose proof Hp' as (_ & _ & Hn & Hr). split_and!; [done|by left|done|].
  unfold peek_symbol, mbind, M_bind, gets. rewrite Hn, decide_True by apply classify_valid. done.
Qed.

Definition commented : bytes := str " #a" ++ newline :: str "#b" ++ newline :: str " :c".

Lemma peek_symbol_correct_witness :
  exists p', peek_symbol 30 (new_parser (str "f") (mkInput commented 0)) = Ok Symbol.colon p' /\
    at_ (str "f") commented commented p' /\ rest (buf p') = str ":c" /\
    peek_symbol 30 p' = Ok Symbol.colon p'.
Proof.
  apply (peek_symbol_correct (str "f") commented 30 commented
           (new_parser (str "f") (mkInput commented 0))); [vm_compute; lia|apply at_start].
Defined.

(** [parse_string] reads a string literal: between equal quotes, with its escape
    sequences replaced, and what follows the closing quote is left. On another symbol it
    throws, and on a literal that is too long or not closed its length overflows. *)
Theorem parse_string_correct F W fuel w p :
  (length W < fuel)%nat -> int_max < Z.of_nat fuel -> at_ F W w p ->
  if decide (classify (strip w) = Symbol.string) then
    match read_literal (strip w) with
    | Some (s, w') => exists p', parse_string fuel p = Ok s p' /\ at_ F W w' p'
    | None => parse_string fuel p = Err SignedOverflow
    end
  else exists pos msg, parse_string fuel p = Err (ParseException pos msg).
Proof.
  intros Hf Hint Hp. pose proof (wp_parse_string F W fuel Hf w p Hp) as Hwp. unfold wp in Hwp.
  case_decide as Hs.
  - unfold next_token in Hwp. rewrite Hs in Hwp.
    destruct (read_literal (strip w)) as [[s r]|] eqn:Hr; destruct (parse_string fuel p) as [a q|e|].
    + destruct Hwp as (w' & ? & ?). simplify_eq. eauto.
    + by destruct Hwp as [[? _]|(_ & _ & ?)].
    + lia.
    + by destruct Hwp as (? & ? & _).
    + destruct Hwp as [[? _]|(-> & _)]; done.
    + lia.
  - destruct (parse_string fuel p) as [a q|e|].
    + destruct Hwp as (w' & Ht & _). by apply next_token_symbol in Ht.
    + destruct Hwp as [(_ & pos & tail & -> & _)|(_ & ? & _)]; [eauto|done].
    + lia.
Qed.

Definition string_literal : bytes := str " 'a\tb'c".

Lemma parse_string_correct_witness :
  exists p', parse_string plenty (new_parser [] (mkInput string_literal 0)) =
      Ok (str "a" ++ tab :: str "b") p' /\
    at_ [] string_literal (str "c") p'.
Proof.
  assert (Z.of_nat (length string_literal) < int_max) as Hlen by (vm_compute; reflexivity).
  exact (parse_string_correct [] string_literal plenty string_literal _
           (plenty_length _ Hlen) plenty_int (at_start _ _)).
Defined.

(** C9: [parse_integer] reads an optional sign and a run of digits, possibly none. It
    returns the value of the literal when its magnitude is at most [INT64_MAX] and its
    length, which is counted in an [int], at most [INT_MAX]; beyond, the arithmetic
    overflows ([INT64_MIN] included). On another symbol it throws. *)
Theorem parse_integer_correct F W fuel w p :
  (length W < fuel)%nat -> at_ F W w p ->
  if decide (classify (strip w) = Symbol.integer) then
    let '(negative, u) := split_sign (strip w) in
    let '(z, w') := digits_value 0 u in
    if decide (z <= int64_max /\ Z.of_nat (length (strip w)) - Z.of_nat (length w') <= int_max)
    then exists p', parse_integer fuel p = Ok (if negative : bool then - z else z) p' /\
           at_ F W w' p'
    else parse_integer fuel p = Err SignedOverflow
  else exists pos msg, parse_integer fuel p = Err (ParseException pos msg).
Proof.
  intros Hf Hp. pose proof (wp_parse_integer F W fuel Hf w p Hp) as Hwp.
  unfold wp, next_token, read_integer in Hwp.
  case_decide as Hs.
  - rewrite Hs in Hwp. destruct (split_sign (strip w)) as [neg u].
    destruct (digits_value 0 u) as [z w'].
    destruct (decide (z <= int64_max /\ fits (strip w) w')) as [Hz|Hz];
      [rewrite decide_True by done|rewrite decide_False by done].
    + destruct (parse_integer fuel p) as [a q|e|].
      * destruct Hwp as (w'' & ? & ?). simplify_eq. eauto.
      * by destruct Hwp as [[? _]|(_ & _ & ?)].
      * done.
    + destruct (parse_integer fuel p) as [a q|e|]; [by destruct Hwp as (? & ? & _)| |done].
      destruct Hwp as [[? _]|(-> & _)]; done.
  - destruct (parse_integer fuel p) as [a q|e|]; [| |done].
    + destruct Hwp as (w' & Ht & _). by apply next_token_symbol in Ht.
    + destruct Hwp as [(_ & pos & tail & -> & _)|(_ & ? & _)]; [eauto|done].
Qed.

Lemma parse_integer_correct_witness :
  parse_integer 30 (new_parser [] (mkInput (str "-9223372036854775808") 0)) = Err SignedOverflow.
Proof.
  exact (parse_integer_correct [] (str "-9223372036854775808") 30 (str "-9223372036854775808") _
           ltac:(vm_compute; lia) (at_start _ _)).
Defined.

(** A sign without digits is an integer literal of value zero: the parser accepts it
    as an array size. *)
Theorem lone_sign_is_zero :
  exists root p, parse 40 (str "f") (mkChunkReader [str "STRUCT a { x: b[+"; str "] }"]) = Ok root p /\
    (st_fields <$> struct_decls root) =
      [[mkAstStructField (mkDocumentPosition (str "f") 1 11) (str "x")
          (mkAstType (mkAstQualifiedIdentifier [] (str "b")) true (Some 0))]].
Proof. eexists _, _. split; vm_compute; reflexivity. Qed.

(** [peek_at] over a reader that works always answers: with the byte at the offset,
    or NUL past the end of the stream, however the reader cuts it. What is left to read
    stays the same, and the buffer holds every byte up to the offset. *)
Theorem peek_at_correct {R} `{LawfulReader R} n i (sb : stream_buffer R) :
  represents i sb ->
  exists sb', peek_at n sb = Ok (nth n (rest i) NUL) sb' /\ represents i sb' /\
    ((n < length (rest i))%nat -> (buffer_offset_ sb' + n < length (buffer_ sb'))%nat).
Proof.
  intros Hi. destruct (peek_at_spec n i sb Hi) as (sb' & Heq & Hs & Hoff & Hrest & Hseen).
  exists sb'. split; [done|]. simpl in *. split; [split_and!; done || lia|lia].
Qed.

Lemma peek_at_correct_witness :
  exists sb', peek_at 5 (fresh_buffer sample) = Ok (nth 5 (content sample) NUL) sb' /\
    represents (mkInput (content sample) 0) sb' /\
    ((5 < length (content sample))%nat -> (buffer_offset_ sb' + 5 < length (buffer_ sb'))%nat).
Proof.
  apply (peek_at_correct 5 (mkInput (content sample) 0) (fresh_buffer sample)).
  apply represents_fresh. exact I.
Defined.

(** ** [main] *)

(** C10: the tool exits with 0 exactly when the bytes of [stdin] are a document, and then
    it prints the tree and no error. When it exits otherwise it exits with 1, prints
    nothing, and the error names the symbol found at some place of the input after the file
    name, the line and the column of that place. *)
Theorem main_correct fuel f code out err :
  device_error f = None -> error_indicator f = false -> (length (pending f) < fuel)%nat ->
  (main fuel f = Exit 0 out err <->
   err = [] /\ exists t ts, token_stream (pending f) ts /\ derives_document t ts /\
     out = print_root t) /\
  (main fuel f = Exit code out err -> code <> 0 ->
   code = 1 /\ out = [] /\
   exists w pos tail, w `suffix_of` pending f /\ position_of (str "<stdin>") (pending f) (strip w) pos /\
     err = str "<stdin>:" ++ print_integer (line pos) ++ str ":" ++ print_integer (column pos) ++
           str ": Unexpected symbol " ++ symbol_str (classify (strip w)) ++ tail ++ [newline]).
Proof.
  intros Hd He Hf. unfold main.
  pose proof (parse_result fuel (str "<stdin>") (mkStdinReader f) (conj Hd He)) as Heq.
  pose proof (parse_input_cases (str "<stdin>") _ _ Hf) as Hc.
  cbn [content stdin_lawful stdin] in Heq. split; [split|].
  - destruct (parse fuel _ _) as [root p|e|]; [|by destruct e|done]. intros [= <- <-].
    split; [done|]. rewrite <- Heq in Hc. destruct Hc as (ts & Hts & Hr).
    exists (erase_root root), ts. by rewrite print_root_erase.
  - intros (-> & t & ts & Hts & Ht & ->).
    destruct (parse_input_complete (str "<stdin>") _ _ _ _ Hf Hts Ht) as (root & Hroot & <-).
    rewrite Hroot in Heq. apply result_Ok in Heq as (p & ->). by rewrite print_root_erase.
  - rewrite <- Heq in Hc. destruct (parse fuel _ _) as [root p|e|]; simpl in Hc; [by intros [= <-]| |done].
    destruct Hc as [(w & Hw & pos & tail & -> & _ & Hpos)|(-> & _)]; [|done].
    intros [= <- <- <-] _. split_and!; [done|done|]. exists w, pos, tail. split_and!; [done|done|].
    rewrite (position_file _ _ _ _ Hpos). by rewrite <- !app_assoc.
Qed.

Definition point_file : FILE := mkFILE (str "STRUCT point { x: num[-4] }") None false false.
Definition bad_file : FILE := mkFILE (str "INCLUDE x") None false false.

Lemma main_correct_witness :
  main 30 point_file = Exit 0 (print_root sample_tree) [] /\
  exists w pos tail, w `suffix_of` pending bad_file /\
    position_of (str "<stdin>") (pending bad_file) (strip w) pos /\
    str "<stdin>:1:8: Unexpected symbol identifier, expected string" ++ [newline] =
    str "<stdin>:" ++ print_integer (line pos) ++ str ":" ++ print_integer (column pos) ++
      str ": Unexpected symbol " ++ symbol_str (classify (strip w)) ++ tail ++ [newline].
Proof.
  split.
  - apply (main_correct 30 point_file 0); [reflexivity|reflexivity|vm_compute; lia|].
    split; [reflexivity|]. exists sample_tree, sample_tokens.
    split_and!; [exact sample_lexes|exact sample_derives|reflexivity].
  - refine (proj2 (proj2 (proj2 (main_correct 30 bad_file 1 [] _ eq_refl eq_refl _) _ _)));
      [vm_compute; lia|vm_compute; reflexivity|done].
Defined.

(** When the device of [stdin] fails within the first [0x800] bytes, before any of
    them is interpreted, the tool prints the reason and exits with 1. *)
Theorem main_device_error fuel f e :
  device_error f = Some e -> eof_indicator f = false -> (length (pending f) < read_slack)%nat ->
  main (S fuel) f = Exit 1 [] (e ++ [newline]).
Proof.
  intros He Heof Hlen. unfold main.
  assert (peek_at 0 (fresh_buffer (mkStdinReader f)) = Err (RuntimeError e)) as Hpeek.
  { unfold peek_at, peek_at_body. revert Hlen. generalize read_slack. intros k Hlen. simpl.
    unfold mbind, M_bind. simpl. unfold read, stdin_stream_reader, stdin_read, fread. simpl.
    rewrite decide_False by lia. rewrite He. simpl. by rewrite Heof. }
  unfold parse, parse_document, parse_includes. cbn [loop].
  unfold mbind, M_bind, current_position, gets, peek_symbol, skip_whitespace, peek_char, on_buf.
  simpl. unfold mbind, M_bind. simpl. by rewrite Hpeek.
Qed.

Lemma main_device_error_witness :
  main 7 (mkFILE (str "STRUCT a { }") (Some (str "Input/output error")) false false) =
  Exit 1 [] (str "Input/output error" ++ [newline]).
Proof.
  apply (main_device_error 6); [reflexivity|reflexivity|apply Nat.ltb_lt; vm_compute; reflexivity].
Defined.
