(* ===== verification/Message.v ===== *)
(** * Messages

    [server/common/include/common/Message.hpp], [server/common/src/Message.cpp]: a handle
    on a shared payload that nobody changes, or on none; and the little-endian header that
    goes before a payload on the wire. *)
From S2P Require Import Prelude.

(** Undefined behaviour of the server code. *)
Inductive fault :=
(** [impl_->...] on a null [shared_ptr] *)
| NullDereference
(** [front()] or [back()] of an empty list *)
| EmptyList
(** arithmetic on [int] out of range *)
| IntOverflow.

#[export] Instance fault_eq_dec : EqDecision fault.
Proof. solve_decision. Defined.

(** ** [class Message]

    [impl_] is null, or a [MessageImplVector] over its [buffer_]. The payload is immutable,
    so a copy of the handle is a copy of the payload. *)
Definition Message : Type := option bytes.

Definition Message_empty : Message := None.
Definition from_vector (data : bytes) : Message := Some data.
Definition is_empty (m : Message) : bool := bool_decide (m = None).

(** [data()] and [size()], in any state. *)
Definition data {S} (m : Message) : M fault S bytes :=
  match m with
  | Some d => mret d
  | None => throw NullDereference
  end.

Definition size {S} (m : Message) : M fault S Z :=
  match m with
  | Some d => mret (Z.of_nat (length d))
  | None => throw NullDereference
  end.

(** ** Unsigned integers *)
Definition uint32 (z : Z) : Z := z mod 2 ^ 32.
Definition uint64 (z : Z) : Z := z mod 2 ^ 64.

Definition byte_of (z : Z) : ascii := ascii_of_N (Z.to_N (z mod 256)).

(** The bytes of [z] in memory after [native_to_little], and the value [little_to_native]
    gives them. *)
Fixpoint to_little (n : nat) (z : Z) : bytes :=
  match n with
  | O => []
  | S n' => byte_of z :: to_little n' (z / 256)
  end.

Fixpoint from_little (w : bytes) : Z :=
  match w with
  | [] => 0
  | c :: w' => code c + 256 * from_little w'
  end.

(** [sizeof(uint32_t)] *)
Definition header_size : nat := 4.

(** What a message is on the wire: its size in 32 bits, then its payload. *)
Definition frame (d : bytes) : bytes :=
  to_little header_size (uint32 (Z.of_nat (length d))) ++ d.

(** ** Lemmas *)

Lemma code_bounds c : 0 <= code c < 256.
Proof.
  unfold code. pose proof (N_ascii_bounded c). lia.
Qed.

Lemma code_byte_of z : code (byte_of z) = z mod 256.
Proof.
  unfold code, byte_of. pose proof (Z.mod_pos_bound z 256 ltac:(lia)).
  rewrite N_ascii_embedding; lia.
Qed.

Lemma length_to_little n z : length (to_little n z) = n.
Proof. revert z. induction n as [|n IH]; intros z; simpl; auto. Qed.

(** The header holds the value modulo the width. *)
Lemma from_to_little n z : from_little (to_little n z) = z mod 256 ^ Z.of_nat n.
Proof.
  revert z. induction n as [|n IH]; intros z; simpl to_little; simpl from_little.
  - by rewrite Z.mod_1_r.
  - rewrite IH, code_byte_of, Nat2Z.inj_succ, Z.pow_succ_r by lia.
    rewrite Z.rem_mul_r by lia. lia.
Qed.

Lemma from_little_bounds w : 0 <= from_little w < 256 ^ Z.of_nat (length w).
Proof.
  induction w as [|c w IH]; simpl from_little; [simpl; lia|].
  pose proof (code_bounds c). simpl length. rewrite Nat2Z.inj_succ, Z.pow_succ_r by lia. lia.
Qed.

(** The header of a frame tells the size of its payload, unless it does not fit. *)
Lemma frame_header d :
  take header_size (frame d) = to_little header_size (uint32 (Z.of_nat (length d))) /\
  drop header_size (frame d) = d /\
  from_little (take header_size (frame d)) = uint32 (Z.of_nat (length d)).
Proof.
  unfold frame. pose proof (length_to_little header_size (uint32 (Z.of_nat (length d)))) as Hl.
  rewrite take_app_le, take_ge, drop_app_ge by lia.
  rewrite Hl, Nat.sub_diag, from_to_little. split_and!; [done..|].
  unfold uint32. by rewrite Z.mod_mod.
Qed.

Lemma uint32_small z : 0 <= z < 2 ^ 32 -> uint32 z = z.
Proof. intros. unfold uint32. by rewrite Z.mod_small. Qed.
