(* ===== verification/Framing.v ===== *)
(** * Frames

    The wire format of [ClusterConnection]: what a byte stream holds when it is a sequence
    of frames, and that it can be read in one way only. *)
From S2P Require Import Prelude Message.

(** A payload whose header tells its size: the receiver refuses a size of zero, and the
    header has 32 bits. *)
Definition sendable (d : bytes) : Prop := 0 < Z.of_nat (length d) < 2 ^ 32.

#[export] Instance sendable_dec d : Decision (sendable d).
Proof. unfold sendable. apply _. Defined.

Definition frames (ds : list bytes) : bytes := ds ≫= frame.

(** The size the header at the front of [w] tells. *)
Definition header (w : bytes) : Z := from_little (take header_size w).

(** [w] starts a frame whose end has not arrived. *)
Definition incomplete (w : bytes) : Prop :=
  (length w < header_size)%nat \/
  (0 < header w /\ Z.of_nat (length w) < Z.of_nat header_size + header w).

(** [w] starts with a size of zero. *)
Definition invalid_frame (w : bytes) : Prop := (header_size <= length w)%nat /\ header w = 0.

(** The bytes that were received and not handed on: a size already extracted, and the
    buffer. *)
Definition unread (len : Z) (b : bytes) : bytes :=
  (if decide (len = 0) then [] else to_little header_size len) ++ b.

Lemma frames_app ds1 ds2 : frames (ds1 ++ ds2) = frames ds1 ++ frames ds2.
Proof. unfold frames. apply bind_app. Qed.

Lemma frames_cons d ds w : frames (d :: ds) ++ w = frame d ++ frames ds ++ w.
Proof. unfold frames. by rewrite bind_cons, <- app_assoc. Qed.

Lemma concat_frames ds : concat (frame <$> ds) = frames ds.
Proof.
  unfold frames. induction ds as [|d ds IH]; [done|].
  by rewrite fmap_cons, bind_cons, <- IH.
Qed.

Lemma header_bounds w : 0 <= header w < 2 ^ 32.
Proof.
  unfold header. pose proof (from_little_bounds (take header_size w)) as Hb.
  assert (length (take header_size w) <= 4)%nat as Hl.
  { rewrite length_take. unfold header_size. lia. }
  assert (256 ^ Z.of_nat (length (take header_size w)) <= 256 ^ 4).
  { apply Z.pow_le_mono_r; lia. }
  change (2 ^ 32) with (256 ^ 4). lia.
Qed.

Lemma header_frame d w : sendable d -> header (frame d ++ w) = Z.of_nat (length d).
Proof.
  intros Hd. unfold header. destruct (frame_header d) as (Hh & _ & Hv).
  rewrite take_app_le, Hv.
  - apply uint32_small. unfold sendable in Hd. lia.
  - unfold frame. rewrite length_app, length_to_little. lia.
Qed.

Lemma length_frame d : length (frame d) = (header_size + length d)%nat.
Proof. unfold frame. by rewrite length_app, length_to_little. Qed.

(** A byte below 256 is the byte of its value. *)
Lemma byte_of_code c : byte_of (code c) = c.
Proof.
  unfold byte_of. pose proof (code_bounds c). rewrite Z.mod_small by lia.
  unfold code. rewrite N2Z.id. apply ascii_N_embedding.
Qed.

Lemma to_from_little w : to_little (length w) (from_little w) = w.
Proof.
  induction w as [|c w IH]; [done|]. simpl length. simpl from_little. simpl to_little.
  pose proof (code_bounds c). rewrite (Z.mul_comm 256). f_equal.
  - unfold byte_of. rewrite Z_mod_plus_full. exact (byte_of_code c).
  - rewrite Z.div_add, Z.div_small, Z.add_0_l by lia. exact IH.
Qed.

(** Extracting the size loses nothing. *)
Lemma unread_extract b :
  (header_size <= length b)%nat -> header b <> 0 ->
  unread (header b) (drop header_size b) = b.
Proof.
  intros Hb Hh. unfold unread. rewrite decide_False by done. unfold header.
  assert (length (take header_size b) = header_size) as Hl by (rewrite length_take; lia).
  rewrite <- Hl at 1. by rewrite to_from_little, take_drop.
Qed.

(** Taking a payload out takes a frame off. *)
Lemma unread_frame len b :
  0 < len < 2 ^ 32 -> len <= Z.of_nat (length b) ->
  sendable (take (Z.to_nat len) b) /\
  unread len b = frame (take (Z.to_nat len) b) ++ unread 0 (drop (Z.to_nat len) b).
Proof.
  intros Hlen Hb. assert (Z.of_nat (length (take (Z.to_nat len) b)) = len) as Hl.
  { rewrite length_take. lia. }
  split; [unfold sendable; lia|]. unfold unread. rewrite decide_False, decide_True by lia.
  unfold frame. rewrite Hl, uint32_small by lia. rewrite <- app_assoc. simpl.
  by rewrite take_drop.
Qed.

Lemma unread_incomplete len b :
  0 < len < 2 ^ 32 -> Z.of_nat (length b) < len -> incomplete (unread len b).
Proof.
  intros Hlen Hb. right. unfold unread. rewrite decide_False by lia.
  assert (header (to_little header_size len ++ b) = len) as ->.
  { unfold header. rewrite take_app_length', from_to_little by (by rewrite length_to_little).
    rewrite Z.mod_small by (unfold header_size; lia). done. }
  rewrite length_app, length_to_little. lia.
Qed.

(** ** Uniqueness *)

Lemma incomplete_frame d w : sendable d -> ~ incomplete (frame d ++ w).
Proof.
  intros Hd [Hi|[_ Hi]]; [|rewrite header_frame in Hi by done];
    rewrite length_app, length_frame in Hi; lia.
Qed.

Lemma frame_inj d1 d2 w1 w2 :
  sendable d1 -> sendable d2 -> frame d1 ++ w1 = frame d2 ++ w2 -> d1 = d2 /\ w1 = w2.
Proof.
  intros H1 H2 Heq. assert (length d1 = length d2) as Hl.
  { apply (f_equal header) in Heq. rewrite !header_frame in Heq by done. lia. }
  apply app_inj_1 in Heq as [Hf ->]; [|by rewrite !length_frame, Hl].
  split; [|done]. unfold frame in Hf. rewrite Hl in Hf. by apply app_inv_head in Hf.
Qed.

(** A stream determines its frames. *)
Lemma frames_unique ds1 ds2 r1 r2 :
  Forall sendable ds1 -> Forall sendable ds2 -> incomplete r1 -> incomplete r2 ->
  frames ds1 ++ r1 = frames ds2 ++ r2 -> ds1 = ds2 /\ r1 = r2.
Proof.
  intros Hds1. revert ds2. induction Hds1 as [|d1 ds1 Hd1 Hds1 IH]; intros ds2 Hds2 Hr1 Hr2 Heq.
  - destruct Hds2 as [|d2 ds2 Hd2 Hds2]; [done|]. rewrite frames_cons in Heq. simpl in Heq.
    subst r1. by apply incomplete_frame in Hr1.
  - rewrite frames_cons in Heq. destruct Hds2 as [|d2 ds2 Hd2 Hds2].
    + simpl in Heq. subst r2. by apply incomplete_frame in Hr2.
    + rewrite frames_cons in Heq. apply frame_inj in Heq as [-> Heq]; [|done..].
      by destruct (IH ds2 Hds2 Hr1 Hr2 Heq) as [-> ->].
Qed.

Lemma incomplete_nil : incomplete [].
Proof. left. unfold header_size. simpl. lia. Qed.

(** ** Frames at the front of a stream *)

Lemma frames_prefix ds1 x ds r :
  Forall sendable ds1 -> Forall sendable ds -> incomplete r ->
  frames ds1 ++ x = frames ds ++ r -> exists ds', ds = ds1 ++ ds' /\ x = frames ds' ++ r.
Proof.
  intros Hds1. revert ds. induction Hds1 as [|d1 ds1 Hd1 Hds1 IH]; intros ds Hds Hr Heq.
  - by exists ds.
  - rewrite frames_cons in Heq. destruct Hds as [|d ds Hd Hds].
    + simpl in Heq. subst r. by apply incomplete_frame in Hr.
    + rewrite frames_cons in Heq. apply frame_inj in Heq as [-> Heq]; [|done..].
      destruct (IH ds Hds Hr Heq) as (ds' & -> & ->). by exists ds'.
Qed.

Lemma invalid_not_frames b x ds r :
  invalid_frame b -> Forall sendable ds -> incomplete r -> b ++ x <> frames ds ++ r.
Proof.
  intros [Hl Hh] Hds Hr Heq.
  assert (header (b ++ x) = 0) as Hz.
  { unfold header in *. by rewrite take_app_le. }
  rewrite Heq in Hz. destruct Hds as [|d ds Hd Hds].
  - simpl in Heq, Hz. destruct Hr as [Hr|[Hr _]]; [|lia].
    apply (f_equal length) in Heq. rewrite length_app in Heq. lia.
  - rewrite frames_cons, header_frame in Hz by done. unfold sendable in Hd. lia.
Qed.

Lemma frames_unique_invalid ds1 b1 ds2 b2 :
  Forall sendable ds1 -> Forall sendable ds2 -> invalid_frame b1 -> invalid_frame b2 ->
  frames ds1 ++ b1 = frames ds2 ++ b2 -> ds1 = ds2 /\ b1 = b2.
Proof.
  assert (forall d ds b, sendable d -> ~ invalid_frame (frame d ++ frames ds ++ b)) as Hno.
  { intros d ds b Hd [_ Hh]. rewrite header_frame in Hh by done. unfold sendable in Hd. lia. }
  intros Hds1. revert ds2. induction Hds1 as [|d1 ds1 Hd1 Hds1 IH]; intros ds2 Hds2 Hb1 Hb2 Heq.
  - destruct Hds2 as [|d2 ds2 Hd2 Hds2]; [done|]. rewrite frames_cons in Heq. simpl in Heq.
    subst b1. by apply Hno in Hb1.
  - rewrite frames_cons in Heq. destruct Hds2 as [|d2 ds2 Hd2 Hds2].
    + simpl in Heq. subst b2. by apply Hno in Hb2.
    + rewrite frames_cons in Heq. apply frame_inj in Heq as [-> Heq]; [|done..].
      by destruct (IH ds2 Hds2 Hb1 Hb2 Heq) as [-> ->].
Qed.

Lemma unread_nil len b : unread len b = [] -> len = 0 /\ b = [].
Proof. unfold unread. case_decide; [done|]. by intros. Qed.
