(* ===== verification/MessageQueue.v ===== *)
(** * The queue of outgoing messages

    [server/common/src/MessageQueue.cpp], [MessageQueue.hpp]. *)
From S2P Require Import Prelude Message.

(** [std::list<Message> queue_], front first, and [size_t total_size_]. *)
Record MessageQueue := mkMessageQueue {
  queue_ : list Message;
  total_size_ : Z;
}.

Definition new_queue : MessageQueue := mkMessageQueue [] 0.

(** [push]: [emplace_front], then the size of the front. *)
Definition push (message : Message) : M fault MessageQueue unit :=
  modify (fun q => mkMessageQueue (message :: queue_ q) (total_size_ q));;
  q ← get;
  match queue_ q with
  | front :: _ =>
      n ← size front;
      modify (fun q => mkMessageQueue (queue_ q) (uint64 (total_size_ q + n)))
  | [] => throw EmptyList
  end.

(** [try_pop]: the message it writes to its argument, or [None] when it returns false. *)
Definition try_pop : M fault MessageQueue (option Message) :=
  q ← get;
  match last (queue_ q) with
  | None => mret None
  | Some message =>
      modify (fun q => mkMessageQueue (take (length (queue_ q) - 1) (queue_ q)) (total_size_ q));;
      n ← size message;
      modify (fun q => mkMessageQueue (queue_ q) (uint64 (total_size_ q - n)));;
      mret (Some message)
  end.

Definition clear (q : MessageQueue) : MessageQueue := mkMessageQueue [] 0.
Definition get_message_count (q : MessageQueue) : nat := length (queue_ q).
Definition get_total_size (q : MessageQueue) : Z := total_size_ q.

(** ** The queue is a FIFO of payloads

    [holds q ds]: the queue holds the payloads [ds], the oldest first, and
    [total_size_] is their total size, in the arithmetic of [size_t]. *)
Definition sizes (ds : list bytes) : Z := Z.of_nat (sum_list_with length ds).

Definition holds (q : MessageQueue) (ds : list bytes) : Prop :=
  queue_ q = reverse (from_vector <$> ds) /\ total_size_ q = uint64 (sizes ds).

Lemma sizes_snoc ds d : sizes (ds ++ [d]) = sizes ds + Z.of_nat (length d).
Proof. unfold sizes. rewrite sum_list_with_app. simpl. lia. Qed.
Lemma sizes_cons ds d : sizes (d :: ds) = Z.of_nat (length d) + sizes ds.
Proof. unfold sizes. simpl. lia. Qed.

Lemma uint64_add a b : uint64 (uint64 a + b) = uint64 (a + b).
Proof. unfold uint64. by rewrite Zplus_mod_idemp_l. Qed.
Lemma uint64_sub a b : uint64 (uint64 a - b) = uint64 (a - b).
Proof. unfold uint64. by rewrite Zminus_mod_idemp_l. Qed.

Lemma holds_new : holds new_queue [].
Proof. done. Qed.

Lemma holds_clear q : holds (clear q) [].
Proof. done. Qed.

Lemma push_holds q ds d :
  holds q ds -> exists q', push (from_vector d) q = Ok tt q' /\ holds q' (ds ++ [d]).
Proof.
  intros [Hq Ht]. eexists. split; [reflexivity|]. split; simpl.
  - by rewrite Hq, fmap_app, reverse_app.
  - by rewrite Ht, uint64_add, sizes_snoc.
Qed.

Lemma try_pop_holds q ds :
  holds q ds ->
  match ds with
  | [] => try_pop q = Ok None q
  | d :: ds' => exists q', try_pop q = Ok (Some (from_vector d)) q' /\ holds q' ds'
  end.
Proof.
  intros [Hq Ht]. destruct q as [l t]. simpl in *. subst.
  destruct ds as [|d ds]; [done|].
  unfold try_pop, mbind, M_bind, get. cbn [queue_ fmap list_fmap].
  rewrite reverse_cons, last_snoc. eexists. split; [reflexivity|]. simpl.
  rewrite length_app, Nat.add_sub, take_app_length. split; [done|]. simpl.
  rewrite uint64_sub, sizes_cons. f_equal. lia.
Qed.

(** What a queue holds, whatever it is: the payloads of its handles, the oldest first. *)
Abbreviation payloads := (omap (M := list) (fun m : Message => m)).

Definition queued (q : MessageQueue) : list bytes := payloads (reverse (queue_ q)).

Lemma queued_push d l t t' :
  queued (mkMessageQueue (Some d :: l) t) = queued (mkMessageQueue l t') ++ [d].
Proof. unfold queued. simpl. by rewrite reverse_cons, omap_app. Qed.

Lemma queued_snoc l m t : queued (mkMessageQueue (l ++ [m]) t) =
  match m with Some d => d :: queued (mkMessageQueue l t) | None => queued (mkMessageQueue l t) end.
Proof. unfold queued. simpl. rewrite reverse_app, omap_app. by destruct m. Qed.

(** [try_pop] takes the oldest payload, if there is one. *)
Lemma try_pop_queued q :
  match try_pop q with
  | Ok (Some m) q' => exists d, m = Some d /\ queued q = d :: queued q'
  | Ok None q' => q' = q /\ queue_ q = []
  | _ => True
  end.
Proof.
  destruct q as [l t]. unfold try_pop, mbind, M_bind, get. cbn [queue_].
  destruct (last l) as [m|] eqn:Hlast; [|by apply last_None in Hlast].
  apply last_Some in Hlast as (l' & ->). destruct m as [d|]; [|done].
  unfold modify. cbn [queue_ total_size_ size mret M_ret].
  rewrite length_app, Nat.add_sub, take_app_length. simpl. exists d. split; [done|].
  by rewrite queued_snoc.
Qed.

(** ** A client's view: sequences of calls *)
Inductive queue_call :=
| Push (d : bytes)
| TryPop
| Clear
| Count.

(** What a call answers. *)
Inductive answer :=
| Done
| Popped (m : option Message)
| Counted (n : nat) (total : Z).

Definition call (c : queue_call) : M fault MessageQueue answer :=
  match c with
  | Push d => push (from_vector d);; mret Done
  | TryPop => Popped <$> try_pop
  | Clear => modify clear;; mret Done
  | Count => gets (fun q => Counted (get_message_count q) (get_total_size q))
  end.

Fixpoint calls (cs : list queue_call) : M fault MessageQueue (list answer) :=
  match cs with
  | [] => mret []
  | c :: cs' => a ← call c; l ← calls cs'; mret (a :: l)
  end.

(** The specification: a list of payloads, the oldest first. *)
Definition fifo_call (c : queue_call) (ds : list bytes) : answer * list bytes :=
  match c, ds with
  | Push d, _ => (Done, ds ++ [d])
  | TryPop, [] => (Popped None, [])
  | TryPop, d :: ds' => (Popped (Some (from_vector d)), ds')
  | Clear, _ => (Done, [])
  | Count, _ => (Counted (length ds) (uint64 (sizes ds)), ds)
  end.

Fixpoint fifo_calls (cs : list queue_call) (ds : list bytes) : list answer * list bytes :=
  match cs with
  | [] => ([], ds)
  | c :: cs' =>
      let '(a, ds1) := fifo_call c ds in
      let '(l, ds2) := fifo_calls cs' ds1 in (a :: l, ds2)
  end.

Lemma call_refines q ds c :
  holds q ds -> exists q', call c q = Ok (fifo_call c ds).1 q' /\ holds q' (fifo_call c ds).2.
Proof.
  intros Hq. destruct c as [d| | |]; unfold call, mbind, M_bind, fmap, M_fmap.
  - destruct (push_holds q ds d Hq) as (q' & -> & Hq'). by exists q'.
  - pose proof (try_pop_holds q ds Hq) as Hpop. destruct ds as [|d ds].
    + rewrite Hpop. by exists q.
    + destruct Hpop as (q' & -> & Hq'). by exists q'.
  - eexists. split; [done|]. apply holds_clear.
  - destruct Hq as [Hl Ht]. exists q. split; [|by split]. unfold gets, get_message_count, get_total_size.
    by rewrite Hl, Ht, length_reverse, length_fmap.
Qed.

(** ** Properties *)

(** C11: the queue is a first-in first-out queue. For every sequence of calls, the answers
    are those of a list of payloads to which [push] appends and from which [try_pop] takes
    the oldest; no call faults, the count is the number of payloads queued and
    [total_size_] their total size modulo [2^64]: the subtraction never goes below zero. *)
Theorem queue_refines_fifo q ds cs :
  holds q ds ->
  exists q', calls cs q = Ok (fifo_calls cs ds).1 q' /\ holds q' (fifo_calls cs ds).2.
Proof.
  revert q ds. induction cs as [|c cs IH]; intros q ds Hq; [by exists q|].
  simpl. unfold mbind, M_bind. destruct (call_refines q ds c Hq) as (q1 & -> & Hq1).
  destruct (fifo_call c ds) as [a ds1]. simpl in *.
  destruct (IH q1 ds1 Hq1) as (q2 & -> & Hq2). destruct (fifo_calls cs ds1) as [l ds2].
  by exists q2.
Qed.

Lemma queue_refines_fifo_witness :
  exists q',
    calls [Push (str "ab"); Push (str "c"); Count; TryPop; TryPop; TryPop] new_queue =
      Ok [Done; Done; Counted 2 3; Popped (Some (Some (str "ab")));
          Popped (Some (Some (str "c"))); Popped None] q' /\ holds q' [].
Proof.
  exact (queue_refines_fifo new_queue []
           [Push (str "ab"); Push (str "c"); Count; TryPop; TryPop; TryPop] holds_new).
Defined.
