(* ===== verification/ErrorCode.v ===== *)
(** * Error codes of completed operations

    [boost::system::error_code] and the two classifiers that [ClusterConnection.cpp] and
    [WsConnection.cpp] both define. *)
From S2P Require Import Prelude.

(** The categories the code compares with; each is an object of its own. *)
Inductive error_category :=
| system_category
| misc_category
| stream_category
| ssl_category
| other_category (name : bytes).

#[export] Instance error_category_eq_dec : EqDecision error_category.
Proof. solve_decision. Defined.

Record error_code := mkErrorCode { category : error_category; value : Z }.

#[export] Instance error_code_eq_dec : EqDecision error_code.
Proof. solve_decision. Defined.

(** The constants of Boost.Asio and OpenSSL that the code names. *)
Class AsioErrors := {
  connection_aborted : error_code;
  connection_reset : error_code;
  eof : error_code;
  stream_truncated : error_code;
  operation_aborted : error_code;
  ERR_GET_REASON : Z -> Z;
  SSL_R_PROTOCOL_IS_SHUTDOWN : Z;
}.

(** [if (ec)] *)
Definition failed (ec : error_code) : bool := bool_decide (value ec <> 0).

Definition success : error_code := mkErrorCode system_category 0.

Section classify.
Context `{AsioErrors}.

Definition is_connection_reset_error (ec : error_code) : bool :=
  if bool_decide (category ec = system_category) &&
     (bool_decide (ec = connection_aborted) || bool_decide (ec = connection_reset))
  then true
  else if bool_decide (category ec = misc_category) && bool_decide (ec = eof)
  then true
  else if bool_decide (category ec = stream_category) && bool_decide (ec = stream_truncated)
  then true
  else false.

Definition is_connection_canceled_error (ec : error_code) : bool :=
  if bool_decide (category ec = ssl_category) &&
     bool_decide (ERR_GET_REASON (value ec) = SSL_R_PROTOCOL_IS_SHUTDOWN)
  then true else false.

(** No error is both. *)
Lemma reset_not_canceled ec :
  is_connection_reset_error ec = true -> is_connection_canceled_error ec = false.
Proof.
  unfold is_connection_reset_error, is_connection_canceled_error.
  destruct (category ec); repeat (case_bool_decide; simpl; try done).
Qed.
End classify.

(** The values of the constants on Linux with OpenSSL 1.1, for concrete runs. *)
Definition linux_errors : AsioErrors := {|
  connection_aborted := mkErrorCode system_category 103;
  connection_reset := mkErrorCode system_category 104;
  eof := mkErrorCode misc_category 2;
  stream_truncated := mkErrorCode stream_category 1;
  operation_aborted := mkErrorCode system_category 125;
  ERR_GET_REASON v := Z.land v 4095;
  SSL_R_PROTOCOL_IS_SHUTDOWN := 207;
|}.
