(* ===== verification/Config.v ===== *)
(** * The configuration

    [server/common/src/config/]: the tree read from the configuration file, the values that
    follow it ([ConfigValue.cpp]), the registry that tells them of a new tree
    ([ConfigListener.cpp], [ConfigListeners.cpp]) and the groups of keys
    ([ConfigGroup.cpp]). The tree itself, with its paths and conversions, is
    [boost::property_tree::ptree], a class here. *)
From stdpp Require Import gmap.
From S2P Require Import Prelude.

(** ** Property trees *)
Class PropertyTree := {
  ptree : Type;
  empty_ptree : ptree;
  (** the children in order, with their keys *)
  ptree_children : ptree -> list (bytes * ptree);
  (** [get_child_optional(path)] *)
  ptree_get_child : ptree -> bytes -> option ptree;
  (** [get_value_optional<T>()] *)
  ptree_bool : ptree -> option bool;
  ptree_string : ptree -> option bytes;
  ptree_int : ptree -> option Z;
}.

Definition dot : ascii := ".".

(** A path whose last separator separates something. *)
Definition plain_path (p : bytes) : Prop := p <> [] /\ last p <> Some dot.

(** One key of a path. *)
Definition plain_key (k : bytes) : Prop := k <> [] /\ dot ∉ k.

(** The first child with the key. *)
Definition find_child `{PropertyTree} (k : bytes) (t : ptree) : option ptree :=
  snd <$> head (filter (fun kt => kt.1 = k) (ptree_children t)).

(** A path is walked key by key, from a tree to its first child with the key. *)
Class LawfulPropertyTree `{PropertyTree} := {
  get_child_key t k : plain_key k -> ptree_get_child t k = find_child k t;
  get_child_sub t p k : plain_path p -> plain_key k ->
    ptree_get_child t (p ++ str "." ++ k) = ptree_get_child t p ≫= find_child k;
}.

Section config.
Context `{PropertyTree}.

(** [tree.get(path, default_val)] for a type with conversion [as_type] *)
Definition ptree_get {A} (as_type : ptree -> option A) (t : ptree) (path : bytes)
    (default_val : A) : A :=
  default default_val (ptree_get_child t path ≫= as_type).

(** ** The values *)
Inductive ConfigValue :=
| ConfigBoolValue (path_ : bytes) (default_val_ value_ : bool)
| ConfigStringValue (path_ : bytes) (default_val_ value_ : bytes)
| ConfigIntValue (path_ : bytes) (default_val_ value_ : Z).

(** The program's configuration: the tree, the registry with its mutex, and the objects
    that live, by address. *)
Record config_state := mkConfig {
  config_tree : ptree;
  mutex_held : bool;
  listeners : gset positive;
  objects : gmap positive ConfigValue;
}.

(** A mutex locked twice by its thread; a call on an object that does not live. *)
Inductive config_fault := Deadlock | Dangling (l : positive).

Abbreviation Cfg := (M config_fault config_state).

Definition set_tree t : Cfg unit :=
  modify (fun s => mkConfig t (mutex_held s) (listeners s) (objects s)).
Definition set_mutex b : Cfg unit :=
  modify (fun s => mkConfig (config_tree s) b (listeners s) (objects s)).
Definition set_listeners ls : Cfg unit :=
  modify (fun s => mkConfig (config_tree s) (mutex_held s) ls (objects s)).
Definition set_objects os : Cfg unit :=
  modify (fun s => mkConfig (config_tree s) (mutex_held s) (listeners s) os).

(** Before the static objects are constructed. *)
Definition initial_config : config_state := mkConfig empty_ptree false ∅ ∅.

(** ** Config.cpp *)

Definition get_bool (path : bytes) (default_val : bool) : Cfg bool :=
  gets (fun s => ptree_get ptree_bool (config_tree s) path default_val).
Definition get_string (path : bytes) (default_val : bytes) : Cfg bytes :=
  gets (fun s => ptree_get ptree_string (config_tree s) path default_val).
Definition get_int (path : bytes) (default_val : Z) : Cfg Z :=
  gets (fun s => ptree_get ptree_int (config_tree s) path default_val).

(** ** The registry *)

(** [std::unique_lock<std::mutex> guard(data.mutex); m] *)
Definition with_mutex (m : Cfg unit) : Cfg unit :=
  held ← gets mutex_held;
  if (held : bool) then throw Deadlock
  else set_mutex true;; m;; set_mutex false.

Definition ConfigListener (this : positive) : Cfg unit :=
  with_mutex (ls ← gets listeners; set_listeners ({[this]} ∪ ls)).

Definition ConfigListener_destructor (this : positive) : Cfg unit :=
  with_mutex (ls ← gets listeners; set_listeners (ls ∖ {[this]})).

Definition store (this : positive) (v : ConfigValue) : Cfg unit :=
  os ← gets objects; set_objects (<[this := v]> os).

(** ** ConfigValue.cpp *)

Definition new_bool (this : positive) (key : bytes) (default_val : bool) : Cfg unit :=
  ConfigListener this;;
  v ← get_bool key default_val;
  store this (ConfigBoolValue key default_val v).

Definition new_string (this : positive) (key : bytes) (default_val : bytes) : Cfg unit :=
  ConfigListener this;;
  v ← get_string key default_val;
  store this (ConfigStringValue key default_val v).

Definition new_int (this : positive) (key : bytes) (default_val : Z) : Cfg unit :=
  ConfigListener this;;
  v ← get_int key default_val;
  store this (ConfigIntValue key default_val v).

Definition deref (l : positive) : Cfg ConfigValue :=
  os ← gets objects;
  match os !! l with Some v => mret v | None => throw (Dangling l) end.

(** The copy constructors. *)
Definition new_copy (this other : positive) : Cfg unit :=
  ConfigListener this;;
  v ← deref other;
  store this v.

(** The destructors: the fields, then the base. *)
Definition destroy (this : positive) : Cfg unit :=
  os ← gets objects;
  set_objects (delete this os);;
  ConfigListener_destructor this.

Definition on_update (this : positive) : Cfg unit :=
  object ← deref this;
  match object with
  | ConfigBoolValue path_ default_val_ _ =>
      v ← get_bool path_ default_val_;
      store this (ConfigBoolValue path_ default_val_ v)
  | ConfigStringValue path_ default_val_ _ =>
      v ← get_string path_ default_val_;
      store this (ConfigStringValue path_ default_val_ v)
  | ConfigIntValue path_ default_val_ _ =>
      v ← get_int path_ default_val_;
      store this (ConfigIntValue path_ default_val_ v)
  end.

Definition invoke_config_listeners : Cfg unit :=
  with_mutex (ls ← gets listeners; each on_update (elements ls)).

(** [load], when reading a file gives [read_info]: a tree, or an exception that leaves the
    tree as it was. *)
Definition load (read_info : bytes -> option ptree) (file : bytes) : Cfg bool :=
  match read_info (if decide (file = []) then str "config.info" else file) with
  | Some t => set_tree t;; invoke_config_listeners;; mret true
  | None => mret false
  end.

(** ** ConfigGroup.cpp *)
Record ConfigGroup := mkConfigGroup { path_ : bytes }.

Definition sub_path (g : ConfigGroup) (path : bytes) : bytes := path_ g ++ str "." ++ path.

Definition group_get_bool (this : positive) (g : ConfigGroup) (path : bytes) (d : bool) :=
  new_bool this (sub_path g path) d.
Definition group_get_string (this : positive) (g : ConfigGroup) (path : bytes) (d : bytes) :=
  new_string this (sub_path g path) d.
Definition group_get_int (this : positive) (g : ConfigGroup) (path : bytes) (d : Z) :=
  new_int this (sub_path g path) d.

Definition get_bool_value (g : ConfigGroup) (path : bytes) (d : bool) : Cfg bool :=
  get_bool (sub_path g path) d.
Definition get_string_value (g : ConfigGroup) (path : bytes) (d : bytes) : Cfg bytes :=
  get_string (sub_path g path) d.
Definition get_int_value (g : ConfigGroup) (path : bytes) (d : Z) : Cfg Z :=
  get_int (sub_path g path) d.

Definition get_group (g : ConfigGroup) (path : bytes) : ConfigGroup :=
  mkConfigGroup (sub_path g path).

(** [config::get_childs] *)
Definition get_childs (path : bytes) : Cfg (list ConfigGroup) :=
  tree ← gets (fun s => default empty_ptree (ptree_get_child (config_tree s) path));
  mret ((fun it => mkConfigGroup (path ++ str "." ++ it.1)) <$> ptree_children tree).

Definition group_get_childs (g : ConfigGroup) : Cfg (list ConfigGroup) := get_childs (path_ g).
Definition group_get_childs_at (g : ConfigGroup) (path : bytes) : Cfg (list ConfigGroup) :=
  get_childs (sub_path g path).

(** ** What a program does with the configuration

    The objects a program constructs are at addresses that are free, and it destroys and
    copies objects that live. *)
Inductive config_op :=
| NewBool (this : positive) (key : bytes) (default_val : bool)
| NewString (this : positive) (key : bytes) (default_val : bytes)
| NewInt (this : positive) (key : bytes) (default_val : Z)
| Copy (this other : positive)
| Destroy (this : positive)
| Load (read_info : bytes -> option ptree) (file : bytes).

Definition legal (op : config_op) (s : config_state) : Prop :=
  match op with
  | NewBool l _ _ | NewString l _ _ | NewInt l _ _ => objects s !! l = None
  | Copy l l' => objects s !! l = None /\ is_Some (objects s !! l')
  | Destroy l => is_Some (objects s !! l)
  | Load _ _ => True
  end.

Definition run_op (op : config_op) : Cfg unit :=
  match op with
  | NewBool l key d => new_bool l key d
  | NewString l key d => new_string l key d
  | NewInt l key d => new_int l key d
  | Copy l l' => new_copy l l'
  | Destroy l => destroy l
  | Load read_info file => load read_info file;; mret tt
  end.

Inductive reaches : config_state -> Prop :=
| reaches_initial : reaches initial_config
| reaches_op s op s' : reaches s -> legal op s -> run_op op s = Ok tt s' -> reaches s'.
End config.

(** What reads and changes the configuration. *)
Abbreviation Configured := (M config_fault config_state).
