(* ===== verification/InfoTree.v ===== *)
(** * A property tree

    A tree of strings with paths of keys separated by dots: a concrete instance of the
    interface of [Config], for the examples. *)
From S2P Require Import Prelude Config.

Inductive info := Info (value : bytes) (children : list (bytes * info)).

Definition info_children (t : info) : list (bytes * info) :=
  match t with Info _ cs => cs end.
Definition info_value (t : info) : bytes := match t with Info v _ => v end.

(** The keys of a path; [acc] is the current key, reversed. *)
Fixpoint path_keys (acc : bytes) (p : bytes) : list bytes :=
  match p with
  | [] => if decide (acc = []) then [] else [reverse acc]
  | c :: p' => if decide (c = dot) then reverse acc :: path_keys [] p' else path_keys (c :: acc) p'
  end.

Definition info_child (k : bytes) (t : info) : option info :=
  snd <$> head (filter (fun kt => kt.1 = k) (info_children t)).

Fixpoint info_walk (ks : list bytes) (t : info) : option info :=
  match ks with
  | [] => Some t
  | k :: ks' => info_child k t ≫= info_walk ks'
  end.

Definition decimal_digit (c : ascii) : bool := bool_decide (48 <= code c <= 57).

(** Decimal numerals. *)
Definition info_int (t : info) : option Z :=
  match info_value t with
  | [] => None
  | v => if forallb decimal_digit v
         then Some (foldl (fun acc c => 10 * acc + (code c - 48)) 0 v) else None
  end.

Definition info_bool (t : info) : option bool :=
  if decide (info_value t = str "true" \/ info_value t = str "1") then Some true
  else if decide (info_value t = str "false" \/ info_value t = str "0") then Some false
  else None.

#[export] Instance info_property_tree : PropertyTree := {|
  ptree := info;
  empty_ptree := Info [] [];
  ptree_children := info_children;
  ptree_get_child t p := info_walk (path_keys [] p) t;
  ptree_bool := info_bool;
  ptree_string t := Some (info_value t);
  ptree_int := info_int;
|}.

Lemma path_keys_key acc k :
  dot ∉ k -> k <> [] \/ acc <> [] -> path_keys acc k = [reverse acc ++ k].
Proof.
  revert acc. induction k as [|c k IH]; intros acc Hdot Hne; simpl.
  - destruct (decide (acc = [])); [naive_solver|]. by rewrite app_nil_r.
  - apply not_elem_of_cons in Hdot as [Hc Hdot]. destruct (decide (c = dot)) as [->|]; [done|].
    rewrite IH by auto. by rewrite reverse_cons, <- app_assoc.
Qed.

Lemma path_keys_app acc p k :
  plain_key k -> p <> [] \/ acc <> [] -> last p <> Some dot ->
  path_keys acc (p ++ dot :: k) = path_keys acc p ++ [k].
Proof.
  intros [Hk Hdot]. revert acc. induction p as [|c p IH]; intros acc Hne Hlast; simpl.
  - destruct (decide (acc = [])); [naive_solver|].
    rewrite path_keys_key by auto. done.
  - assert (last p <> Some dot) as Hlast'.
    { intros Hp. apply Hlast. rewrite last_cons, Hp. done. }
    destruct (decide (c = dot)) as [->|Hc].
    + destruct p as [|c' p]; [by exfalso; apply Hlast|].
      rewrite IH by auto. done.
    + rewrite IH by auto. done.
Qed.

Lemma info_walk_app ks k t : info_walk (ks ++ [k]) t = info_walk ks t ≫= info_child k.
Proof.
  revert t. induction ks as [|k' ks IH]; intros t; simpl; [by destruct (info_child k t)|].
  destruct (info_child k' t); simpl; [apply IH|done].
Qed.

#[export] Instance info_lawful : LawfulPropertyTree.
Proof.
  split.
  - intros t k [Hk Hdot]. simpl. rewrite path_keys_key by auto. simpl.
    unfold info_child, find_child. simpl. by destruct (head _).
  - intros t p k [Hp Hlast] Hk. simpl. rewrite path_keys_app by auto. apply info_walk_app.
Qed.
