(* ===== verification/ConfigTheorems.v ===== *)
(** * The configuration is coherent

    Every live value says what the tree says, whatever was constructed, copied, destroyed
    and loaded before; and what a group's sections read. *)
From stdpp Require Import gmap.
From S2P Require Import Prelude Config InfoTree.

#[local] Arguments destroy : simpl never.

Section coherence.
Context `{PropertyTree}.

(** [v] as [on_update] leaves it. *)
Definition refreshed (t : ptree) (v : ConfigValue) : ConfigValue :=
  match v with
  | ConfigBoolValue p d _ => ConfigBoolValue p d (ptree_get ptree_bool t p d)
  | ConfigStringValue p d _ => ConfigStringValue p d (ptree_get ptree_string t p d)
  | ConfigIntValue p d _ => ConfigIntValue p d (ptree_get ptree_int t p d)
  end.

(** The value of [v] is what its path gives in [t]. *)
Definition up_to_date (t : ptree) (v : ConfigValue) : Prop :=
  match v with
  | ConfigBoolValue p d x => x = ptree_get ptree_bool t p d
  | ConfigStringValue p d x => x = ptree_get ptree_string t p d
  | ConfigIntValue p d x => x = ptree_get ptree_int t p d
  end.

Record config_inv (s : config_state) : Prop := {
  inv_mutex : mutex_held s = false;
  inv_registry : listeners s = dom (objects s);
  inv_values : map_Forall (fun _ v => up_to_date (config_tree s) v) (objects s);
}.

Lemma refreshed_up_to_date t v : up_to_date t (refreshed t v).
Proof. by destruct v. Qed.

Lemma on_update_eq l v s :
  objects s !! l = Some v ->
  on_update l s = Ok tt (mkConfig (config_tree s) (mutex_held s) (listeners s)
                           (<[l := refreshed (config_tree s) v]> (objects s))).
Proof.
  intros Hl. unfold on_update, deref, mbind, M_bind, gets. rewrite Hl.
  destruct v; reflexivity.
Qed.

Lemma refreshed_idem t v : refreshed t (refreshed t v) = refreshed t v.
Proof. by destruct v. Qed.

Lemma each_update ls s :
  Forall (fun l => is_Some (objects s !! l)) ls ->
  exists os, each on_update ls s = Ok tt (mkConfig (config_tree s) (mutex_held s) (listeners s) os) /\
    forall l, os !! l = (if decide (l ∈ ls) then refreshed (config_tree s) else id) <$> objects s !! l.
Proof.
  revert s. induction ls as [|l ls IH]; intros s Hls.
  { exists (objects s). split; [by destruct s|]. intros l. simpl. by destruct (objects s !! l). }
  apply Forall_cons in Hls as [[v Hv] Hls]. simpl. unfold mbind at 1, M_bind at 1.
  rewrite (on_update_eq l v s Hv). set (s1 := mkConfig _ _ _ _).
  destruct (IH s1) as (os & Hrun & Hos).
  { eapply Forall_impl; [exact Hls|]. simpl. intros l' Hl'. rewrite lookup_insert.
    case_decide; [by eexists|done]. }
  exists os. split; [exact Hrun|]. intros l'. rewrite Hos. subst s1. simpl. rewrite lookup_insert.
  destruct (decide (l = l')) as [<-|Hne].
  - rewrite Hv, (decide_True (P := l ∈ l :: ls)) by (by left). simpl.
    case_decide; simpl; by rewrite ?refreshed_idem.
  - destruct (decide (l' ∈ ls)).
    + by rewrite decide_True by (by right).
    + rewrite decide_False; [done|]. by intros [?|?]%elem_of_cons.
Qed.

(** ** Every operation keeps the invariant *)

Lemma with_mutex_listeners f s :
  mutex_held s = false ->
  with_mutex (ls ← gets listeners; set_listeners (f ls)) s =
  Ok tt (mkConfig (config_tree s) false (f (listeners s)) (objects s)).
Proof. intros Hm. unfold with_mutex, mbind, M_bind, gets. by rewrite Hm. Qed.

(** A new object that is up to date. *)
Lemma inv_insert s l v :
  config_inv s -> up_to_date (config_tree s) v ->
  config_inv (mkConfig (config_tree s) false ({[l]} ∪ listeners s) (<[l := v]> (objects s))).
Proof.
  intros [Hm Hr Hv] Hd. constructor; simpl; [done| |by apply map_Forall_insert_2].
  by rewrite dom_insert_L, Hr.
Qed.

Lemma inv_delete s l :
  config_inv s ->
  config_inv (mkConfig (config_tree s) false (listeners s ∖ {[l]}) (delete l (objects s))).
Proof.
  intros [Hm Hr Hv]. constructor; simpl; [done| |by apply map_Forall_delete].
  by rewrite dom_delete_L, Hr.
Qed.

Lemma new_value_eq {A} (this : positive) (m : Configured A) (x : config_state -> A) k s :
  mutex_held s = false -> (forall s, m s = Ok (x s) s) ->
  (forall s f, x (mkConfig (config_tree s) false (f (listeners s)) (objects s)) = x s) ->
  (ConfigListener this;; v ← m; store this (k v)) s =
  Ok tt (mkConfig (config_tree s) false ({[this]} ∪ listeners s) (<[this := k (x s)]> (objects s))).
Proof.
  intros Hm Hget Hx. unfold ConfigListener, mbind at 1, M_bind at 1.
  rewrite with_mutex_listeners by done. unfold mbind at 1, M_bind at 1. rewrite Hget.
  by rewrite (Hx s (fun ls => {[this]} ∪ ls)).
Qed.

Lemma destroy_eq l s :
  mutex_held s = false ->
  destroy l s = Ok tt (mkConfig (config_tree s) false (listeners s ∖ {[l]}) (delete l (objects s))).
Proof.
  intros Hm. unfold destroy, ConfigListener_destructor, mbind at 1 2, M_bind at 1 2. simpl.
  by rewrite with_mutex_listeners.
Qed.

Lemma new_copy_eq this other v s :
  mutex_held s = false -> objects s !! other = Some v ->
  new_copy this other s =
  Ok tt (mkConfig (config_tree s) false ({[this]} ∪ listeners s) (<[this := v]> (objects s))).
Proof.
  intros Hm Hv. unfold new_copy, ConfigListener, mbind at 1, M_bind at 1.
  rewrite with_mutex_listeners by done.
  unfold deref, mbind, M_bind, gets. simpl. by rewrite Hv.
Qed.

(** What [load] does. *)
Lemma load_spec read_info file s :
  config_inv s ->
  load read_info file s =
  match read_info (if decide (file = []) then str "config.info" else file) with
  | Some t => Ok true (mkConfig t false (listeners s) (refreshed t <$> objects s))
  | None => Ok false s
  end.
Proof.
  intros [Hm Hr Hv]. unfold load. destruct (read_info _) as [t|]; [|done].
  set (s1 := mkConfig t true (listeners s) (objects s)).
  destruct (each_update (elements (listeners s)) s1) as (os & Hrun & Hos).
  { apply Forall_forall. intros l. rewrite elem_of_elements, Hr. apply elem_of_dom. }
  unfold invoke_config_listeners, with_mutex, mbind, M_bind, gets. simpl. rewrite Hm.
  unfold mbind, M_bind in Hrun. simpl. fold s1. rewrite Hrun. simpl. do 2 f_equal.
  apply map_eq. intros l. rewrite Hos, lookup_fmap. subst s1. simpl.
  destruct (decide (l ∈ elements (listeners s))) as [|Hl]; [done|].
  rewrite elem_of_elements, Hr, not_elem_of_dom in Hl. by rewrite Hl.
Qed.

Lemma inv_refreshed t s :
  config_inv s -> config_inv (mkConfig t false (listeners s) (refreshed t <$> objects s)).
Proof.
  intros [Hm Hr Hv]. constructor; simpl; [done|by rewrite dom_fmap_L|].
  intros l v. rewrite lookup_fmap. destruct (objects s !! l); simpl; [|done].
  intros [= <-]. apply refreshed_up_to_date.
Qed.

Lemma run_op_inv op s :
  config_inv s -> legal op s -> exists s', run_op op s = Ok tt s' /\ config_inv s'.
Proof.
  intros Hinv Hl. pose proof (inv_mutex _ Hinv) as Hm.
  destruct op as [l key d|l key d|l key d|l l'|l|read_info file]; simpl in *.
  - eexists. split; [by apply (new_value_eq l _ (fun s => ptree_get ptree_bool (config_tree s) key d))|].
    by apply inv_insert.
  - eexists. split; [by apply (new_value_eq l _ (fun s => ptree_get ptree_string (config_tree s) key d))|].
    by apply inv_insert.
  - eexists. split; [by apply (new_value_eq l _ (fun s => ptree_get ptree_int (config_tree s) key d))|].
    by apply inv_insert.
  - destruct Hl as [Hl [v Hv]]. eexists. split; [by apply new_copy_eq|].
    apply inv_insert; [done|]. by apply (inv_values _ Hinv l').
  - eexists. split; [by apply destroy_eq|by apply inv_delete].
  - unfold mbind, M_bind. rewrite load_spec by done.
    destruct (read_info _); eexists; (split; [done|]); [by apply inv_refreshed|done].
Qed.

Lemma reaches_inv s : reaches s -> config_inv s.
Proof.
  induction 1 as [|s op s' _ IH Hl Hrun]; [by constructor|].
  destruct (run_op_inv op s IH Hl) as (s1 & Hrun1 & Hs1). congruence.
Qed.

(** ** What lives stays *)

(** The tree after an operation: that of the file, when it is read. *)
Definition tree_after (t : ptree) (op : config_op) : ptree :=
  match op with
  | Load read_info file =>
      default t (read_info (if decide (file = []) then str "config.info" else file))
  | _ => t
  end.

Lemma refreshed_id t v : up_to_date t v -> refreshed t v = v.
Proof. destruct v; simpl; congruence. Qed.

Lemma insert_keeps (os : gmap positive ConfigValue) k x l v :
  os !! k = None -> os !! l = Some v -> <[k := x]> os !! l = Some v.
Proof. intros Hk Hl. rewrite lookup_insert_ne; congruence. Qed.

(** An operation sets the tree, and leaves every object it does not destroy, up to date. *)
Lemma run_op_keeps op s s' :
  config_inv s -> legal op s -> run_op op s = Ok tt s' ->
  config_tree s' = tree_after (config_tree s) op /\
  forall l v, objects s !! l = Some v -> op <> Destroy l ->
    objects s' !! l = Some (refreshed (config_tree s') v).
Proof.
  intros Hinv Hl Hrun. pose proof (inv_mutex _ Hinv) as Hm.
  assert (forall l v, objects s !! l = Some v -> refreshed (config_tree s) v = v) as Hid.
  { intros l v Hv. by apply refreshed_id, (inv_values _ Hinv l). }
  destruct op as [k key d|k key d|k key d|k k'|k|read_info file]; simpl in Hrun, Hl.
  - unfold new_bool in Hrun. erewrite new_value_eq in Hrun; [injection Hrun as <-|done|done|done].
    split; [done|]. intros l v Hv _. simpl. rewrite (Hid l v Hv). by apply insert_keeps.
  - unfold new_string in Hrun. erewrite new_value_eq in Hrun; [injection Hrun as <-|done|done|done].
    split; [done|]. intros l v Hv _. simpl. rewrite (Hid l v Hv). by apply insert_keeps.
  - unfold new_int in Hrun. erewrite new_value_eq in Hrun; [injection Hrun as <-|done|done|done].
    split; [done|]. intros l v Hv _. simpl. rewrite (Hid l v Hv). by apply insert_keeps.
  - destruct Hl as [Hl [v' Hv']]. rewrite (new_copy_eq k k' v' s Hm Hv') in Hrun.
    injection Hrun as <-. split; [done|]. intros l v Hv _. simpl. rewrite (Hid l v Hv).
    by apply insert_keeps.
  - rewrite destroy_eq in Hrun by done. injection Hrun as <-. split; [done|].
    intros l v Hv Hne. simpl. rewrite (Hid l v Hv), lookup_delete_ne; congruence.
  - unfold mbind, M_bind in Hrun. rewrite load_spec in Hrun by done. simpl.
    destruct (read_info _) as [t|]; injection Hrun as <-; (split; [done|]);
      intros l v Hv _; simpl; [by rewrite lookup_fmap, Hv|by rewrite (Hid l v Hv)].
Qed.

(** Runs of legal operations. *)
Inductive config_ops : config_state -> list config_op -> config_state -> Prop :=
| config_ops_nil c : config_ops c [] c
| config_ops_cons c op c1 ops c2 :
    legal op c -> run_op op c = Ok tt c1 -> config_ops c1 ops c2 ->
    config_ops c (op :: ops) c2.

(** ** Temporaries

    [std::string x = group.get_string(path, d)]: a value is constructed, read and destroyed
    within the expression. *)
Definition value_of (v : ConfigValue) : bool + (bytes + Z) :=
  match v with
  | ConfigBoolValue _ _ x => inl x
  | ConfigStringValue _ _ x => inr (inl x)
  | ConfigIntValue _ _ x => inr (inr x)
  end.

Definition temporary (this : positive) (construct : Configured unit)
    : Configured (bool + (bytes + Z)) :=
  construct;;
  v ← deref this;
  destroy this;;
  mret (value_of v).

Lemma temporary_eq {A} (this : positive) (m : Configured A) (x : config_state -> A) k s :
  config_inv s -> objects s !! this = None -> (forall s, m s = Ok (x s) s) ->
  (forall s f, x (mkConfig (config_tree s) false (f (listeners s)) (objects s)) = x s) ->
  temporary this (ConfigListener this;; v ← m; store this (k v)) s = Ok (value_of (k (x s))) s.
Proof.
  intros [Hm Hr _] Hfree Hget Hx. unfold temporary, mbind at 1, M_bind at 1.
  rewrite (new_value_eq this m x k s Hm Hget Hx).
  unfold deref, mbind, M_bind, gets. simpl. rewrite lookup_insert_eq. simpl.
  unfold mret, M_ret. f_equal. rewrite delete_insert_id by done.
  replace (({[this]} ∪ listeners s) ∖ {[this]}) with (listeners s).
  { destruct s as [t m' ls os]. simpl in *. by subst. }
  assert (this ∉ listeners s) by (rewrite Hr; by apply not_elem_of_dom). set_solver.
Qed.

(** Reading through a temporary is reading the tree: it leaves no trace. *)
Lemma temporary_string this g path d s :
  config_inv s -> objects s !! this = None ->
  temporary this (group_get_string this g path d) s =
  match get_string_value g path d s with Ok v s' => Ok (inr (inl v)) s' | Err e => Err e | Fuel => Fuel end.
Proof.
  intros Hinv Hfree.
  by apply (temporary_eq this _ (fun s => ptree_get ptree_string (config_tree s) (sub_path g path) d)
              (ConfigStringValue (sub_path g path) d)).
Qed.

Lemma temporary_int this g path d s :
  config_inv s -> objects s !! this = None ->
  temporary this (group_get_int this g path d) s =
  match get_int_value g path d s with Ok v s' => Ok (inr (inr v)) s' | Err e => Err e | Fuel => Fuel end.
Proof.
  intros Hinv Hfree.
  by apply (temporary_eq this _ (fun s => ptree_get ptree_int (config_tree s) (sub_path g path) d)
              (ConfigIntValue (sub_path g path) d)).
Qed.

Lemma temporary_bool this g path d s :
  config_inv s -> objects s !! this = None ->
  temporary this (group_get_bool this g path d) s =
  match get_bool_value g path d s with Ok v s' => Ok (inl v) s' | Err e => Err e | Fuel => Fuel end.
Proof.
  intros Hinv Hfree.
  by apply (temporary_eq this _ (fun s => ptree_get ptree_bool (config_tree s) (sub_path g path) d)
              (ConfigBoolValue (sub_path g path) d)).
Qed.

(** ** Properties *)

(** C31: the configuration is coherent. From the start of the program, whatever values were
    constructed, copied and destroyed and whatever files were loaded, with or without
    success, the next operation never blocks on the registry's mutex nor updates an object
    that is gone; and after it every live value is what its path and default give in the
    present tree, and the registry holds the live values and no other. *)
Theorem config_coherent s op :
  reaches s -> legal op s ->
  exists s', run_op op s = Ok tt s' /\
    (forall l v, objects s' !! l = Some v -> up_to_date (config_tree s') v) /\
    listeners s' = dom (objects s') /\ mutex_held s' = false.
Proof.
  intros Hs Hl. destruct (run_op_inv op s (reaches_inv s Hs) Hl) as (s' & Hrun & [Hm Hr Hv]).
  by exists s'.
Qed.

(** What the keys of group [g] give is what [t] has under them. *)
Definition reads_from (g : ConfigGroup) (t : ptree) (s : config_state) : Prop :=
  forall key, plain_key key ->
  (forall d, get_string_value g key d s = Ok (default d (find_child key t ≫= ptree_string)) s) /\
  (forall d, get_int_value g key d s = Ok (default d (find_child key t ≫= ptree_int)) s) /\
  (forall d, get_bool_value g key d s = Ok (default d (find_child key t ≫= ptree_bool)) s).
End coherence.

Section groups.
Context `{LawfulPropertyTree}.

Lemma plain_sub p k : plain_key k -> plain_path (p ++ str "." ++ k).
Proof.
  intros [Hk Hdot]. split; [by destruct p|].
  intros Hlast. apply Hdot. change (p ++ str "." ++ k) with (p ++ [dot] ++ k) in Hlast.
  rewrite !last_app in Hlast. destruct (last k) as [c|] eqn:Hc.
  - injection Hlast as ->. apply last_Some in Hc as [k' ->].
    apply elem_of_app. right. by apply list_elem_of_singleton.
  - by apply last_None in Hc.
Qed.

Lemma group_reads_from p k t t' s :
  plain_path p -> plain_key k -> ptree_get_child (config_tree s) p = Some t ->
  find_child k t = Some t' -> reads_from (mkConfigGroup (p ++ str "." ++ k)) t' s.
Proof.
  intros Hp Hk Ht Ht' key Hkey.
  assert (ptree_get_child (config_tree s) (sub_path (mkConfigGroup (p ++ str "." ++ k)) key) =
          find_child key t') as Hget.
  { unfold sub_path, path_. rewrite get_child_sub by (by (apply plain_sub || apply Hkey)).
    rewrite get_child_sub by done. rewrite Ht. simpl. by rewrite Ht'. }
  split_and!; intros d;
    unfold get_string_value, get_int_value, get_bool_value, get_string, get_int, get_bool, gets,
      ptree_get; by rewrite Hget.
Qed.

Lemma find_child_first (t : ptree) i (k : bytes) (t' : ptree) :
  ptree_children t !! i = Some (k, t') -> is_Some (find_child k t).
Proof.
  intros Hi. unfold find_child. destruct (filter _ _) as [|kt l] eqn:Hf; [|by eexists].
  assert ((k, t') ∈ filter (fun kt => kt.1 = k) (ptree_children t)) as Hin.
  { apply list_elem_of_filter. split; [done|]. by eapply list_elem_of_lookup_2. }
  rewrite Hf in Hin. by apply elem_of_nil in Hin.
Qed.

Lemma find_child_unique (t : ptree) i (k : bytes) (t' t1 : ptree) :
  NoDup (ptree_children t).*1 -> ptree_children t !! i = Some (k, t') ->
  find_child k t = Some t1 -> t1 = t'.
Proof.
  intros Hnd Hi Hf. unfold find_child in Hf.
  destruct (filter _ _) as [|[k1 t2] l] eqn:Hfl; [done|]. injection Hf as <-. simpl.
  assert ((k1, t2) ∈ filter (fun kt => kt.1 = k) (ptree_children t)) as Hin
    by (rewrite Hfl; by left).
  apply list_elem_of_filter in Hin as [Hk1 Hin]. simpl in Hk1. subst k1.
  apply list_elem_of_lookup in Hin as [j Hj].
  assert (i = j) as <-; [|congruence].
  apply (NoDup_lookup (ptree_children t).*1 i j k Hnd); by rewrite list_lookup_fmap, ?Hi, ?Hj.
Qed.

(** The sections of a group. [get_childs] gives a group per child of a section, in
    order, and the group of a child reads the first child with the same name: its own when
    the names differ, but of two sections with one name (two listeners both called
    [server]) both groups read the first, and the second is never read. *)
Theorem sections_read s p t i k t' :
  plain_path p -> ptree_get_child (config_tree s) p = Some t ->
  ptree_children t !! i = Some (k, t') -> plain_key k ->
  exists gs g first, get_childs p s = Ok gs s /\ length gs = length (ptree_children t) /\
    gs !! i = Some g /\ find_child k t = Some first /\ reads_from g first s /\
    (NoDup (ptree_children t).*1 -> first = t').
Proof.
  intros Hp Ht Hi Hk. destruct (find_child_first t i k t' Hi) as [first Hfirst].
  eexists _, (mkConfigGroup (p ++ str "." ++ k)), first.
  unfold get_childs, mbind, M_bind, gets. rewrite Ht. split; [reflexivity|].
  split; [apply length_fmap|]. split; [by rewrite list_lookup_fmap; simpl; rewrite Hi|].
  split_and!; [done| |].
  - by eapply group_reads_from.
  - intros Hnd. by eapply find_child_unique.
Qed.
End groups.

(** ** Witnesses *)

(** A file with two listeners of one name. *)
Definition sample_section : info :=
  Info [] [(str "server", Info [] [(str "port", Info (str "7011") [])]);
           (str "server", Info [] [(str "port", Info (str "7012") [])])].

Definition sample_tree : info :=
  Info [] [(str "front", Info [] [(str "threads", Info (str "4") []); (str "listen", sample_section)])].

Definition sample_config : config_state := mkConfig sample_tree false ∅ ∅.

Lemma sections_read_witness :
  exists gs g first, get_childs (str "front.listen") sample_config = Ok gs sample_config /\
    length gs = 2%nat /\ gs !! 1%nat = Some g /\
    find_child (str "server") sample_section = Some first /\ reads_from g first sample_config /\
    (NoDup (ptree_children sample_section).*1 ->
     first = Info [] [(str "port", Info (str "7012") [])]).
Proof.
  apply (sections_read sample_config (str "front.listen") sample_section 1 (str "server"));
    [split; vm_compute; congruence|reflexivity|reflexivity|].
  split; [done|]. by apply (bool_decide_unpack (dot ∉ str "server")).
Defined.

(** The number of threads of the front server, constructed before the file is loaded. *)
Definition threads_config : config_state :=
  mkConfig (Info [] []) false {[1%positive]} {[1%positive := ConfigIntValue (str "front.threads") 2 2]}.

Definition read_sample : bytes -> option info := fun _ => Some sample_tree.

Lemma config_coherent_witness :
  exists s', run_op (Load read_sample []) threads_config = Ok tt s' /\
    (forall l v, objects s' !! l = Some v -> up_to_date (config_tree s') v) /\
    listeners s' = dom (objects s') /\ mutex_held s' = false.
Proof.
  apply config_coherent; [|exact I].
  apply (reaches_op initial_config (NewInt 1 (str "front.threads") 2));
    [apply reaches_initial|reflexivity|reflexivity].
Defined.

(** Then it is the file's. *)
Example loaded_threads :
  match run_op (Load read_sample []) threads_config with
  | Ok _ s => objects s !! 1%positive = Some (ConfigIntValue (str "front.threads") 2 4)
  | _ => False
  end.
Proof. reflexivity. Qed.
