(* ===== verification/ClusterConnection.v ===== *)
(** * A connection between two servers

    [server/common/src/cluster/ClusterConnection.cpp], [ClusterConnection.hpp]. The
    handlers run one at a time in the strand of the connection; each is an operation on a
    [world]: the fields of the object, and what it has asked of the network. *)
From S2P Require Import Prelude Message MessageQueue ErrorCode.

(** [read_chunk_size] *)
Definition read_chunk_size : N := (16 * 1024)%N.

Inductive SslRole := client | server.

(** ** The object *)
Record ClusterConnection := mkClusterConnection {
  dropped_ : bool;
  shutting_down_ : bool;
  is_writing_ : bool;
  safe_link_ : bool;
  downgraded_ : bool;
  message_queue_ : MessageQueue;
  message_outbound_ : Message;
  (** the four bytes in memory *)
  out_message_len_le_ : bytes;
  (** [uint32_t] *)
  in_message_len_ : Z;
  (** the readable bytes of the [multi_buffer] *)
  read_buffer_ : bytes;
}.

(** A fresh object; [safe_link_] and [out_message_len_le_] are indeterminate until they
    are assigned. *)
Definition new_connection (safe_link : bool) (len : bytes) : ClusterConnection :=
  mkClusterConnection false false false safe_link false new_queue Message_empty len 0 [].

(** ** Asynchronous operations

    An operation that was started and whose completion handler has not run. A write keeps
    no copy of its data: its buffers point into the object. *)
Inductive read_handler := on_ian_handshake_h | on_read_h.
Inductive write_handler := on_ian_handshake_sent_h | on_write_message_h.

Inductive operation :=
| AsyncHandshake (role : SslRole)
| AsyncReadSome (ssl : bool) (handler : read_handler)
| AsyncWrite (ssl : bool) (handler : write_handler)
| AsyncShutdown.

#[export] Instance SslRole_eq_dec : EqDecision SslRole.
Proof. solve_decision. Defined.
#[export] Instance read_handler_eq_dec : EqDecision read_handler.
Proof. solve_decision. Defined.
#[export] Instance write_handler_eq_dec : EqDecision write_handler.
Proof. solve_decision. Defined.
#[export] Instance operation_eq_dec : EqDecision operation.
Proof. solve_decision. Defined.

(** What the connection did, in order: calls on the socket and the stream, with the bytes
    the buffers of a write hold when it starts, and messages handed to
    [process_message]. *)
Inductive event :=
| SetVerifyPeer
| Started (op : operation)
| WriteStarted (ssl : bool) (bytes_ : bytes)
| TimerCanceled
| SocketClosed
| Processed (payload : bytes).

Record world := mkWorld {
  conn : ClusterConnection;
  (** [socket_.is_open()] *)
  socket_open : bool;
  (** tasks posted to the strand, the oldest first *)
  posted : list Message;
  pending : list operation;
  trace : list event;
}.

Abbreviation C := (M fault world).

Definition update (f : ClusterConnection -> ClusterConnection) : C unit :=
  modify (fun w => mkWorld (f (conn w)) (socket_open w) (posted w) (pending w) (trace w)).

Definition field {A} (f : ClusterConnection -> A) : C A := gets (fun w => f (conn w)).

Definition set_dropped b := update (fun c => mkClusterConnection b (shutting_down_ c)
  (is_writing_ c) (safe_link_ c) (downgraded_ c) (message_queue_ c) (message_outbound_ c)
  (out_message_len_le_ c) (in_message_len_ c) (read_buffer_ c)).
Definition set_shutting_down b := update (fun c => mkClusterConnection (dropped_ c) b
  (is_writing_ c) (safe_link_ c) (downgraded_ c) (message_queue_ c) (message_outbound_ c)
  (out_message_len_le_ c) (in_message_len_ c) (read_buffer_ c)).
Definition set_is_writing b := update (fun c => mkClusterConnection (dropped_ c)
  (shutting_down_ c) b (safe_link_ c) (downgraded_ c) (message_queue_ c) (message_outbound_ c)
  (out_message_len_le_ c) (in_message_len_ c) (read_buffer_ c)).
Definition set_safe_link b := update (fun c => mkClusterConnection (dropped_ c)
  (shutting_down_ c) (is_writing_ c) b (downgraded_ c) (message_queue_ c) (message_outbound_ c)
  (out_message_len_le_ c) (in_message_len_ c) (read_buffer_ c)).
Definition set_message_queue q := update (fun c => mkClusterConnection (dropped_ c)
  (shutting_down_ c) (is_writing_ c) (safe_link_ c) (downgraded_ c) q (message_outbound_ c)
  (out_message_len_le_ c) (in_message_len_ c) (read_buffer_ c)).
Definition set_message_outbound m := update (fun c => mkClusterConnection (dropped_ c)
  (shutting_down_ c) (is_writing_ c) (safe_link_ c) (downgraded_ c) (message_queue_ c) m
  (out_message_len_le_ c) (in_message_len_ c) (read_buffer_ c)).
Definition set_out_message_len n := update (fun c => mkClusterConnection (dropped_ c)
  (shutting_down_ c) (is_writing_ c) (safe_link_ c) (downgraded_ c) (message_queue_ c)
  (message_outbound_ c) n (in_message_len_ c) (read_buffer_ c)).
Definition set_in_message_len n := update (fun c => mkClusterConnection (dropped_ c)
  (shutting_down_ c) (is_writing_ c) (safe_link_ c) (downgraded_ c) (message_queue_ c)
  (message_outbound_ c) (out_message_len_le_ c) n (read_buffer_ c)).
Definition set_read_buffer b := update (fun c => mkClusterConnection (dropped_ c)
  (shutting_down_ c) (is_writing_ c) (safe_link_ c) (downgraded_ c) (message_queue_ c)
  (message_outbound_ c) (out_message_len_le_ c) (in_message_len_ c) b).

Definition emit (e : event) : C unit :=
  modify (fun w => mkWorld (conn w) (socket_open w) (posted w) (pending w) (trace w ++ [e])).

(** Start an operation: its handler is bound to the strand. *)
Definition start (op : operation) : C unit :=
  modify (fun w => mkWorld (conn w) (socket_open w) (posted w) (pending w ++ [op])
                     (trace w ++ [Started op])).

Definition on_queue {A} (m : M fault MessageQueue A) : C A := fun w =>
  match m (message_queue_ (conn w)) with
  | Ok a q =>
      match set_message_queue q w with Ok _ w' => Ok a w' | Err e => Err e | Fuel => Fuel end
  | Err e => Err e
  | Fuel => Fuel
  end.

(** [socket_.shutdown(both)] and [socket_.close()] *)
Definition close_socket : C unit :=
  modify (fun w => mkWorld (conn w) false (posted w) (pending w) (trace w ++ [SocketClosed])).

(** [if (b) return; k] *)
Definition return_if (b : bool) (k : C unit) : C unit := if b then mret tt else k.

Section connection.
Context `{AsioErrors}.

(** ** Ending a connection *)

Definition abort : C unit :=
  dropped ← field dropped_;
  return_if dropped (
    emit TimerCanceled;;
    on_queue (modify clear);;
    close_socket;;
    set_dropped true).

Definition shutdown : C unit :=
  dropped ← field dropped_;
  shutting_down ← field shutting_down_;
  return_if (dropped || shutting_down) (
    downgraded ← field downgraded_;
    if (downgraded : bool) then abort else
    emit TimerCanceled;;
    on_queue (modify clear);;
    is_open ← gets socket_open;
    return_if (negb is_open) (
      start AsyncShutdown;;
      set_shutting_down true)).

Definition on_shutdown (ec : error_code) : C unit :=
  dropped ← field dropped_;
  return_if dropped (
    close_socket;;
    set_dropped true).

Definition handle_read_error (ec : error_code) : C unit :=
  dropped ← field dropped_;
  return_if dropped (
    if is_connection_reset_error ec then abort
    else return_if (is_connection_canceled_error ec) shutdown).

Definition handle_write_error (ec : error_code) : C unit :=
  dropped ← field dropped_;
  return_if dropped (
    if is_connection_reset_error ec then abort
    else return_if (is_connection_canceled_error ec) shutdown).

(** ** Writing *)

(** The assignment of [out_message_len_le_] and the write of the two buffers. *)
Definition write_outbound (ssl : bool) (handler : write_handler) : C unit :=
  m ← field message_outbound_;
  n ← size m;
  set_out_message_len (to_little header_size (uint32 n));;
  len ← field out_message_len_le_;
  payload ← data m;
  emit (WriteStarted ssl (len ++ payload));;
  start (AsyncWrite ssl handler).

Definition do_write_message (message : Message) : C unit :=
  set_message_outbound message;;
  safe_link ← field safe_link_;
  write_outbound safe_link on_write_message_h.

(** The task [send_message] posts. *)
Definition send_in_strand (message : Message) : C unit :=
  dropped ← field dropped_;
  shutting_down ← field shutting_down_;
  return_if (dropped || shutting_down) (
    is_writing ← field is_writing_;
    if (is_writing : bool) then on_queue (push message)
    else
      set_is_writing true;;
      do_write_message message).

Definition send_message (message : Message) : C unit :=
  if is_empty message then mret tt
  else modify (fun w => mkWorld (conn w) (socket_open w) (posted w ++ [message]) (pending w)
                          (trace w)).

(** The end of [on_ian_handshake] and of [on_write_message]. *)
Definition write_next : C unit :=
  m ← on_queue try_pop;
  match m with
  | Some message => do_write_message message
  | None => set_is_writing false
  end.

Definition on_write_message (ec : error_code) : C unit :=
  set_message_outbound Message_empty;;
  if failed ec then handle_write_error ec
  else write_next.

(** ** Reading *)

Definition read_next : C unit :=
  safe_link ← field safe_link_;
  start (AsyncReadSome safe_link on_read_h).

(** [read_buffer_.commit(readlen)], the [readlen] bytes being those received. *)
Definition commit (received : bytes) : C unit :=
  b ← field read_buffer_;
  set_read_buffer (b ++ received).

(** [read_buffer_.consume(buffer_copy(..., read_buffer_.data()))] into [n] bytes. *)
Definition consume (n : nat) : C bytes :=
  b ← field read_buffer_;
  set_read_buffer (drop n b);;
  mret (take n b).

Definition extract_length : C unit :=
  h ← consume header_size;
  set_in_message_len (from_little h).

Definition process_message (payload : bytes) : C unit := emit (Processed payload).

(** One round of the loop of [on_read]: [inr true] is its [break], [inr false] the
    [return] after an invalid length. *)
Definition take_message : C (unit + bool) :=
  len ← field in_message_len_;
  b ← field read_buffer_;
  if decide (Z.of_nat (length b) < len) then mret (inr true)
  else
    buf ← consume (Z.to_nat len);
    process_message buf;;
    set_in_message_len 0;;
    mret (inl tt).

Definition on_read_round (_ : unit) : C (unit + bool) :=
  len ← field in_message_len_;
  if decide (len = 0) then
    b ← field read_buffer_;
    if decide (length b < header_size)%nat then mret (inr true)
    else
      extract_length;;
      len ← field in_message_len_;
      if decide (len = 0) then shutdown;; mret (inr false)
      else take_message
  else take_message.

(** Every round that goes on consumes a byte or more. *)
Definition on_read_loop : C bool := fun w =>
  loop (S (length (read_buffer_ (conn w)))) on_read_round tt w.

Definition on_read (ec : error_code) (received : bytes) : C unit :=
  if failed ec then handle_read_error ec
  else
    commit received;;
    go_on ← on_read_loop;
    if (go_on : bool) then read_next else mret tt.

(** ** Handshakes *)

Definition run (role : SslRole) (safe_link : bool) : C unit :=
  is_open ← gets socket_open;
  return_if (negb is_open) (
    set_safe_link safe_link;;
    emit SetVerifyPeer;;
    set_is_writing true;;
    start (AsyncHandshake role)).

Definition on_ssl_handshake (ec : error_code) : C unit :=
  if failed ec then abort
  else write_outbound true on_ian_handshake_sent_h.

Definition on_ian_handshake_sent (ec : error_code) : C unit :=
  set_message_outbound Message_empty;;
  if failed ec then handle_write_error ec
  else start (AsyncReadSome true on_ian_handshake_h).

(** From the test of [in_message_len_] against the buffer on. *)
Definition check_handshake : C unit :=
  len ← field in_message_len_;
  b ← field read_buffer_;
  if decide (Z.of_nat (length b) < len) then start (AsyncReadSome true on_ian_handshake_h)
  else if decide (len < Z.of_nat (length b)) then shutdown
  else
    _ ← consume (Z.to_nat len);
    set_in_message_len 0;;
    read_next;;
    write_next.

Definition on_ian_handshake (ec : error_code) (received : bytes) : C unit :=
  if failed ec then handle_read_error ec
  else
    commit received;;
    len ← field in_message_len_;
    if decide (len = 0) then
      b ← field read_buffer_;
      if decide (length b < header_size)%nat then shutdown
      else
        extract_length;;
        len ← field in_message_len_;
        if decide (len = 0) then shutdown else check_handshake
    else check_handshake.

(** ** What the environment does *)

(** A call from another part of the program, a posted task that runs, or the completion
    of a pending operation. *)
Inductive label :=
| Send (message : Message)
| Posted
| HandshakeDone (role : SslRole) (ec : error_code)
| ReadDone (ssl : bool) (handler : read_handler) (ec : error_code) (received : bytes)
| WriteDone (ssl : bool) (handler : write_handler) (ec : error_code)
| ShutdownDone (ec : error_code).

(** The operation a label completes. *)
Definition completes (l : label) : option operation :=
  match l with
  | HandshakeDone role _ => Some (AsyncHandshake role)
  | ReadDone ssl h _ _ => Some (AsyncReadSome ssl h)
  | WriteDone ssl h _ => Some (AsyncWrite ssl h)
  | ShutdownDone _ => Some AsyncShutdown
  | _ => None
  end.

Definition handler (l : label) : C unit :=
  match l with
  | Send m => send_message m
  | Posted =>
      l ← gets posted;
      match l with
      | [] => mret tt
      | m :: l' =>
          modify (fun w => mkWorld (conn w) (socket_open w) l' (pending w) (trace w));;
          send_in_strand m
      end
  | HandshakeDone _ ec => on_ssl_handshake ec
  | ReadDone _ on_ian_handshake_h ec received => on_ian_handshake ec received
  | ReadDone _ on_read_h ec received => on_read ec received
  | WriteDone _ on_ian_handshake_sent_h ec => on_ian_handshake_sent ec
  | WriteDone _ on_write_message_h ec => on_write_message ec
  | ShutdownDone ec => on_shutdown ec
  end.

(** A label whose operation is pending takes it away and runs its handler; a completion
    of an operation that is not pending is no step. *)
Definition enabled (l : label) (w : world) : Prop :=
  match completes l with Some op => op ∈ pending w | None => True end.

#[export] Instance enabled_dec l w : Decision (enabled l w).
Proof. unfold enabled. destruct (completes l); apply _. Defined.

Definition fire (l : label) : C unit :=
  match completes l with
  | Some op => modify (fun w => mkWorld (conn w) (socket_open w) (posted w)
                                  (remove_one op (pending w)) (trace w))
  | None => mret tt
  end;;
  handler l.

Inductive steps : world -> list label -> world -> Prop :=
| steps_nil w : steps w [] w
| steps_cons w l w1 ls w2 :
    enabled l w -> fire l w = Ok tt w1 -> steps w1 ls w2 -> steps w (l :: ls) w2.
End connection.

(** The constructor, over an open socket. *)
Definition construct (safe_link : bool) (len : bytes) : world :=
  mkWorld (new_connection safe_link len) true [] [] [].
