(* ===== verification/ClusterReceive.v ===== *)
(** * The receiving side of a cluster connection

    [on_read] takes the frames off the byte stream, however it is cut into chunks. *)
From S2P Require Import Prelude Message MessageQueue Framing ErrorCode ClusterConnection.

(** [w] after the frames of [ds] were handed on, with this left to read. *)
Definition received (len : Z) (b : bytes) (ds : list bytes) (w : world) : world :=
  let c := conn w in
  mkWorld
    (mkClusterConnection (dropped_ c) (shutting_down_ c) (is_writing_ c) (safe_link_ c)
       (downgraded_ c) (message_queue_ c) (message_outbound_ c) (out_message_len_le_ c) len b)
    (socket_open w) (posted w) (pending w) (trace w ++ (Processed <$> ds)).

(** What a connection has received and not handed on. *)
Definition unread_of (w : world) : bytes :=
  unread (in_message_len_ (conn w)) (read_buffer_ (conn w)).

(** [in_message_len_] is a [uint32_t]. *)
Definition length_ok (w : world) : Prop := 0 <= in_message_len_ (conn w) < 2 ^ 32.

(** The payloads handed to [process_message]. *)
Definition processed (t : list event) : list bytes :=
  t ≫= fun e => match e with Processed d => [d] | _ => [] end.

Lemma processed_app t1 t2 : processed (t1 ++ t2) = processed t1 ++ processed t2.
Proof. apply bind_app. Qed.

Lemma processed_fmap ds : processed (Processed <$> ds) = ds.
Proof. induction ds as [|d ds IH]; [done|]. change (d :: processed (Processed <$> ds) = d :: ds). by rewrite IH. Qed.

Lemma received_self w : received (in_message_len_ (conn w)) (read_buffer_ (conn w)) [] w = w.
Proof. destruct w as [[] ? ? ? ?]. unfold received. simpl. by rewrite app_nil_r. Qed.

Lemma received_twice l1 b1 ds1 l2 b2 ds2 w :
  received l2 b2 ds2 (received l1 b1 ds1 w) = received l2 b2 (ds1 ++ ds2) w.
Proof. unfold received. simpl. by rewrite fmap_app, app_assoc. Qed.

Section receive.
Context `{AsioErrors}.

Lemma shutdown_total w : exists w', shutdown w = Ok tt w'.
Proof.
  destruct w as [[[] [] ? ? [] ? ? ? ? ?] [] ? ? ?]; eexists; reflexivity.
Qed.

Lemma take_message_received len b ds w :
  0 < len < 2 ^ 32 ->
  take_message (received len b ds w) =
  if decide (Z.of_nat (length b) < len) then Ok (inr true) (received len b ds w)
  else Ok (inl tt) (received 0 (drop (Z.to_nat len) b) (ds ++ [take (Z.to_nat len) b]) w).
Proof.
  intros Hlen. unfold take_message, mbind, M_bind, field, gets. cbn [conn received].
  cbn [in_message_len_ read_buffer_]. case_decide; [done|].
  unfold consume, process_message, mbind, M_bind, field, gets, set_read_buffer,
    set_in_message_len, update, emit, modify, received. simpl.
  by rewrite fmap_app, app_assoc.
Qed.
(** What the loop of [on_read] does from [w0]: it hands on the frames that have arrived
    and stops before an incomplete one, or shuts down at a size of zero. *)
Definition loop_result (w0 : world) (go_on : bool) (w : world) : Prop :=
  exists ds, Forall sendable ds /\
    if go_on then
      exists len b, w = received len b ds w0 /\ 0 <= len < 2 ^ 32 /\
        unread_of w0 = frames ds ++ unread len b /\ incomplete (unread len b)
    else
      exists b, unread_of w0 = frames ds ++ b /\ invalid_frame b /\
        shutdown (received 0 (drop header_size b) ds w0) = Ok tt w.

(** The state of a round. *)
Definition round_inv (w0 w : world) : Prop :=
  exists ds len b, Forall sendable ds /\ w = received len b ds w0 /\ 0 <= len < 2 ^ 32 /\
    unread_of w0 = frames ds ++ unread len b.

Definition round_result (w0 : world) (n : nat) (r : unit + bool) (w : world) : Prop :=
  match r with
  | inl _ => round_inv w0 w /\ (length (read_buffer_ (conn w)) < n)%nat
  | inr go_on => loop_result w0 go_on w
  end.

Lemma take_message_spec w0 ds len b n :
  Forall sendable ds -> 0 < len < 2 ^ 32 -> unread_of w0 = frames ds ++ unread len b ->
  (length b <= n)%nat ->
  wp take_message (received len b ds w0) (round_result w0 n) (fun _ => False) False.
Proof.
  intros Hds Hlen Hun Hn. unfold wp. rewrite take_message_received by done.
  case_decide as Hb; simpl.
  - exists ds. split; [done|]. exists len, b. split_and!; try done || lia.
    by apply unread_incomplete.
  - destruct (unread_frame len b) as [Hs Hf]; [done|lia|]. split.
    + exists (ds ++ [take (Z.to_nat len) b]), 0, (drop (Z.to_nat len) b).
      split_and!; [|done|lia|lia|].
      * apply Forall_app. split; [done|by apply Forall_singleton].
      * by rewrite Hun, Hf, frames_app, <- app_assoc, frames_cons.
    + rewrite length_drop. lia.
Qed.

Lemma on_read_round_spec w0 w :
  round_inv w0 w ->
  wp (on_read_round tt) w (round_result w0 (length (read_buffer_ (conn w))))
    (fun _ => False) False.
Proof.
  intros (ds & len & b & Hds & -> & Hlen & Hun). unfold on_read_round.
  apply wp_bind, wp_gets. cbn [conn received in_message_len_ read_buffer_].
  case_decide as Hz.
  2:{ apply take_message_spec; done || lia. }
  subst len. apply wp_bind, wp_gets. cbn [conn received in_message_len_ read_buffer_].
  change (unread 0 b) with b in Hun.
  case_decide as Hb.
  - apply wp_ret. exists ds. split; [done|]. exists 0, b. split_and!; try done || lia. by left.
  - change (wp (len ← field in_message_len_;
                if decide (len = 0) then shutdown;; mret (inr false) else take_message)
              (received (header b) (drop header_size b) ds w0)
              (round_result w0 (length b)) (fun _ => False) False).
    apply wp_bind, wp_gets. cbn [conn received in_message_len_ read_buffer_].
    pose proof (header_bounds b). case_decide as Hh.
    + rewrite Hh. apply wp_bind. unfold wp.
      destruct (shutdown_total (received 0 (drop header_size b) ds w0)) as (w' & Hw').
      rewrite Hw'. exists ds. split; [done|]. exists b.
      split_and!; [done|split; [lia|done]|done].
    + apply take_message_spec; [done|lia| |rewrite length_drop; lia].
      rewrite unread_extract by (done || lia). done.
Qed.

Lemma on_read_loop_spec w0 :
  length_ok w0 -> wp on_read_loop w0 (loop_result w0) (fun _ => False) False.
Proof.
  intros Hok. unfold on_read_loop.
  apply (wp_loop (fun _ w => round_inv w0 w) (fun _ w => length (read_buffer_ (conn w)))).
  - intros [] w Hw. eapply wp_mono; [by apply on_read_round_spec| |done|done].
    intros [[]|go] w'; done.
  - exists [], (in_message_len_ (conn w0)), (read_buffer_ (conn w0)).
    rewrite received_self. split_and!; [constructor|done|apply Hok|apply Hok|done].
  - lia.
Qed.

(** ** A chunk *)

(** The bytes [received_] arrived. *)
Definition with_chunk (chunk : bytes) (w : world) : world :=
  received (in_message_len_ (conn w)) (read_buffer_ (conn w) ++ chunk) [] w.

Lemma unread_with_chunk chunk w : unread_of (with_chunk chunk w) = unread_of w ++ chunk.
Proof. unfold unread_of, unread. simpl. by rewrite app_assoc. Qed.

Definition next_read (w : world) : world :=
  let op := AsyncReadSome (safe_link_ (conn w)) on_read_h in
  mkWorld (conn w) (socket_open w) (posted w) (pending w ++ [op]) (trace w ++ [Started op]).

(** [on_read] of a chunk: the frames completed by it are handed on in order and the next
    read starts, or a size of zero shuts the connection down. *)
Lemma on_read_chunk w chunk :
  length_ok w ->
  exists ds w', on_read success chunk w = Ok tt w' /\ Forall sendable ds /\
    ((exists len b, w' = next_read (received len b ds w) /\ 0 <= len < 2 ^ 32 /\
        unread_of w ++ chunk = frames ds ++ unread len b /\ incomplete (unread len b)) \/
     (exists b, unread_of w ++ chunk = frames ds ++ b /\ invalid_frame b /\
        shutdown (received 0 (drop header_size b) ds w) = Ok tt w')).
Proof.
  intros Hok. pose proof (on_read_loop_spec (with_chunk chunk w) Hok) as Hloop.
  unfold wp in Hloop.
  assert (on_read success chunk w =
          (go_on ← on_read_loop; if (go_on : bool) then read_next else mret tt)
            (with_chunk chunk w)) as ->.
  { unfold on_read. change (failed success) with false.
    unfold commit, mbind, M_bind, field, gets, set_read_buffer, update, modify, with_chunk,
      received. simpl. by rewrite app_nil_r. }
  unfold mbind, M_bind. destruct (on_read_loop (with_chunk chunk w)) as [go w1|e|]; [|done..].
  rewrite <- unread_with_chunk.
  destruct Hloop as (ds & Hds & Hgo). exists ds. destruct go.
  - destruct Hgo as (len & b & -> & Hlen & Hun & Hi).
    exists (next_read (received len b ds w)). split; [|split; [done|left; eauto 10]].
    unfold with_chunk. by rewrite received_twice.
  - destruct Hgo as (b & Hun & Hinv & Hsh). exists w1. split_and!; [done..|right].
    exists b. split_and!; [done..|]. unfold with_chunk in Hsh. by rewrite received_twice in Hsh.
Qed.

(** ** A stream *)

Definition reading (w : world) : Prop :=
  AsyncReadSome (safe_link_ (conn w)) on_read_h ∈ pending w.

(** A chunk that completes some frames. *)
Lemma fire_read_chunk w chunk ds r rest :
  length_ok w -> reading w ->
  unread_of w ++ chunk ++ rest = frames ds ++ r -> Forall sendable ds -> incomplete r ->
  exists w' ds1 ds', let l := ReadDone (safe_link_ (conn w)) on_read_h success chunk in
    enabled l w /\ fire l w = Ok tt w' /\ length_ok w' /\ reading w' /\
    safe_link_ (conn w') = safe_link_ (conn w) /\
    processed (trace w') = processed (trace w) ++ ds1 /\ ds = ds1 ++ ds' /\
    unread_of w' ++ rest = frames ds' ++ r /\ incomplete (unread_of w') /\
    dropped_ (conn w') = dropped_ (conn w) /\
    shutting_down_ (conn w') = shutting_down_ (conn w).
Proof.
  intros Hok Hread Hun Hds Hr.
  set (op := AsyncReadSome (safe_link_ (conn w)) on_read_h).
  set (w0 := mkWorld (conn w) (socket_open w) (posted w) (remove_one op (pending w)) (trace w)).
  destruct (on_read_chunk w0 chunk Hok) as (ds1 & w' & Hw' & Hds1 & Hcase).
  rewrite app_assoc in Hun. change (unread_of w) with (unread_of w0) in Hun.
  destruct Hcase as [(len & b & -> & Hlen & Heq & Hi)|(b & Heq & Hinv & _)]; rewrite Heq in Hun;
    rewrite <- app_assoc in Hun; apply frames_prefix in Hun as (ds' & -> & Hun); try done.
  - exists (next_read (received len b ds1 w0)), ds1, ds'.
    cbv zeta. split_and!; try done || apply Hlen; simpl.
    + unfold reading. simpl. apply elem_of_app. right. by left.
    + unfold next_read. simpl. by rewrite !processed_app, processed_fmap, app_nil_r.
  - apply Forall_app in Hds as [_ Hds']. by eapply invalid_not_frames in Hun.
Qed.

Lemma receive_stream w chunks ds r :
  length_ok w -> reading w -> incomplete (unread_of w) ->
  unread_of w ++ concat chunks = frames ds ++ r -> Forall sendable ds -> incomplete r ->
  exists w', steps w (ReadDone (safe_link_ (conn w)) on_read_h success <$> chunks) w' /\
    processed (trace w') = processed (trace w) ++ ds /\ unread_of w' = r /\
    length_ok w' /\ reading w' /\
    dropped_ (conn w') = dropped_ (conn w) /\
    shutting_down_ (conn w') = shutting_down_ (conn w).
Proof.
  revert w ds. induction chunks as [|chunk chunks IH]; intros w ds Hok Hread Hi Hun Hds Hr.
  - simpl in Hun. rewrite app_nil_r in Hun.
    destruct (frames_unique [] ds (unread_of w) r) as [<- <-]; [constructor|done..|].
    exists w. rewrite app_nil_r. split_and!; try done || apply Hok. constructor.
  - destruct (fire_read_chunk w chunk ds r (concat chunks)) as
      (w1 & ds1 & ds' & Hen & Hfire & Hok1 & Hread1 & Hsafe & Hp & -> & Hun1 & Hi1 & Hd & Hs);
      [done..|].
    destruct (IH w1 ds') as (w' & Hsteps & Hp' & Hu' & Hok' & Hread' & Hd' & Hs'); [done..| |done|].
    { by apply Forall_app in Hds as [_ ?]. }
    exists w'. split_and!; try done || apply Hok'.
    + rewrite <- Hsafe. simpl. by eapply steps_cons; [rewrite Hsafe..|].
    + by rewrite Hp', Hp, app_assoc.
    + by rewrite Hd'.
    + by rewrite Hs'.
Qed.
End receive.
