(* ===== verification/ClusterInvariant.v ===== *)
(** * The invariant of a cluster connection

    Whatever the order in which operations complete, and whatever they complete with: one
    write and one read at a time, a queue that is only used while a write is on its way,
    and buffers that stay as they are while the network reads them. *)
From S2P Require Import Prelude Message MessageQueue Framing ErrorCode ClusterConnection.
From S2P Require Import ClusterReceive.

(** The operations whose completion leads to the next write: the handshakes, and a write. *)
Definition leads_to_write (op : operation) : bool :=
  match op with
  | AsyncHandshake _ | AsyncWrite _ _ | AsyncReadSome _ on_ian_handshake_h => true
  | _ => false
  end.

(** Those whose completion leads to the next read. *)
Definition leads_to_read (op : operation) : bool :=
  match op with
  | AsyncHandshake _ | AsyncWrite _ on_ian_handshake_sent_h | AsyncReadSome _ _ => true
  | _ => false
  end.

Definition read_after (h : write_handler) : nat :=
  match h with on_ian_handshake_sent_h => 1 | on_write_message_h => 0 end.

Definition writers (l : list operation) : nat := length (filter (fun op => leads_to_write op) l).
Definition readers (l : list operation) : nat := length (filter (fun op => leads_to_read op) l).

(** The bytes of the writes started. *)
Definition writes (t : list event) : list bytes :=
  t ≫= fun e => match e with WriteStarted _ b => [b] | _ => [] end.

(** The two buffers of the write on its way hold what they held when it started. *)
Definition buffers_stable (w : world) : Prop :=
  exists d, message_outbound_ (conn w) = Some d /\
    last (writes (trace w)) = Some (out_message_len_le_ (conn w) ++ d) /\
    out_message_len_le_ (conn w) = to_little header_size (uint32 (Z.of_nat (length d))).

(** The invariant, when the handler that runs stands for [tw] operations that lead to a
    write and [tr] that lead to a read. *)
Record inv_with (tw tr : nat) (w : world) : Prop := {
  inv_writers : (writers (pending w) + tw <= if is_writing_ (conn w) then 1 else 0)%nat;
  inv_readers : (readers (pending w) + tr <= 1)%nat;
  inv_queue : exists ds, holds (message_queue_ (conn w)) ds;
  inv_idle : is_writing_ (conn w) = false -> queue_ (message_queue_ (conn w)) = [];
  inv_posted : Forall (fun m => is_Some m) (posted w);
  inv_buffers : forall ssl h, AsyncWrite ssl h ∈ pending w -> buffers_stable w;
  inv_length : length_ok w;
}.

Abbreviation inv := (inv_with 0 0).

Lemma writers_app l1 l2 : writers (l1 ++ l2) = (writers l1 + writers l2)%nat.
Proof. unfold writers. by rewrite filter_app, length_app. Qed.
Lemma readers_app l1 l2 : readers (l1 ++ l2) = (readers l1 + readers l2)%nat.
Proof. unfold readers. by rewrite filter_app, length_app. Qed.

Lemma writers_remove op l :
  op ∈ l -> (writers (remove_one op l) + (if leads_to_write op then 1 else 0) = writers l)%nat.
Proof. apply (remove_one_count leads_to_write). Qed.

Lemma readers_remove op l :
  op ∈ l -> (readers (remove_one op l) + (if leads_to_read op then 1 else 0) = readers l)%nat.
Proof. apply (remove_one_count leads_to_read). Qed.

(** A pending write is an operation that leads to a write. *)
Lemma writers_write ssl h l : AsyncWrite ssl h ∈ l -> (0 < writers l)%nat.
Proof.
  intros Hin. pose proof (writers_remove _ _ Hin) as Hr. simpl in Hr. lia.
Qed.

Lemma writes_app t1 t2 : writes (t1 ++ t2) = writes t1 ++ writes t2.
Proof. apply bind_app. Qed.

(** ** Operations preserve it *)

Section invariant.
Context `{AsioErrors}.

(** [m] keeps the invariant, given [tw], [tr] and leaving [tw'], [tr']; it faults only
    when [X] allows. *)
Definition keeps {A} (tw tr tw' tr' : nat) (m : C A) : Prop :=
  forall w, inv_with tw tr w -> wp m w (fun _ w' => inv_with tw' tr' w') (fun _ => False) False.

Lemma keeps_bind {A B} tw tr tw1 tr1 tw2 tr2 (m : C A) (k : A -> C B) :
  keeps tw tr tw1 tr1 m -> (forall a, keeps tw1 tr1 tw2 tr2 (k a)) ->
  keeps tw tr tw2 tr2 (m ≫= k).
Proof.
  intros Hm Hk w Hw. apply wp_bind. eapply wp_mono; [by apply Hm| |done|done].
  intros a w'. apply Hk.
Qed.

Lemma keeps_gets {A} (f : world -> A) tw tr : keeps tw tr tw tr (gets f).
Proof. by intros w Hw. Qed.

Lemma keeps_ret {A} (a : A) tw tr : keeps tw tr tw tr (mret a).
Proof. by intros w Hw. Qed.

Lemma keeps_return_if b k tw tr : keeps tw tr tw tr k -> keeps tw tr tw tr (return_if b k).
Proof. intros Hk. destruct b; [apply keeps_ret|done]. Qed.

(** A handler may leave operations it stands for without a successor. *)
Lemma inv_weaken tw tr tw' tr' w :
  (tw' <= tw)%nat -> (tr' <= tr)%nat -> inv_with tw tr w -> inv_with tw' tr' w.
Proof. intros ? ? []. constructor; eauto; destruct (is_writing_ (conn w)); lia. Qed.

Lemma keeps_weaken {A} tw tr tw1 tr1 tw2 tr2 (m : C A) :
  (tw2 <= tw1)%nat -> (tr2 <= tr1)%nat -> keeps tw tr tw1 tr1 m -> keeps tw tr tw2 tr2 m.
Proof.
  intros ? ? Hm w Hw. eapply wp_mono; [by apply Hm| |done|done]. intros a w'. by apply inv_weaken.
Qed.

(** While a handler stands for a write, none is pending. *)
Lemma no_write_pending tr w ssl h : inv_with 1 tr w -> AsyncWrite ssl h ∉ pending w.
Proof.
  intros [Hw _ _ _ _ _ _] Hin%writers_write. destruct (is_writing_ (conn w)); lia.
Qed.

Ltac open_world :=
  intros [[dr sh wr sf dg q mo ol il rb] so po pe tr0];
  intros [Hw Hr [qs Hq] Hidle Hpost Hbuf Hlen]; unfold wp, mbind, M_bind, field, gets;
  simpl in *.

(** The pending operations and the last write stay. *)
Ltac same_buffers Hbuf :=
  let s := fresh "s" in let h := fresh "h" in let Hin := fresh "Hin" in
  intros s h Hin; simpl in Hin;
  rewrite ?elem_of_app, ?list_elem_of_singleton in Hin;
  destruct (Hbuf s h) as (d & ? & ? & ?); [naive_solver|]; exists d; simpl in *;
  rewrite ?writes_app, ?app_nil_r; by split_and!.

Lemma keeps_abort tw tr : keeps tw tr tw tr abort.
Proof.
  unfold abort. open_world. destruct dr; simpl; constructor; simpl; eauto; [by exists []|].
  same_buffers Hbuf.
Qed.

Lemma keeps_shutdown tw tr : keeps tw tr tw tr shutdown.
Proof.
  intros w Hinv. unfold shutdown. do 2 apply wp_bind, wp_gets. unfold return_if.
  destruct (dropped_ (conn w) || shutting_down_ (conn w)); [by apply wp_ret|].
  apply wp_bind, wp_gets. destruct (downgraded_ (conn w)); [by apply keeps_abort|].
  revert w Hinv. open_world.
  destruct so; simpl; constructor; simpl; eauto; rewrite ?writers_app, ?readers_app, ?Nat.add_0_r;
    try (by exists []); try done; same_buffers Hbuf.
Qed.

Lemma keeps_on_shutdown ec tw tr : keeps tw tr tw tr (on_shutdown ec).
Proof.
  unfold on_shutdown. open_world. destruct dr; simpl; constructor; simpl; eauto; same_buffers Hbuf.
Qed.

Lemma keeps_handle_read_error ec tw tr : keeps tw tr tw tr (handle_read_error ec).
Proof.
  eapply keeps_bind; [apply keeps_gets|]. intros dropped. apply keeps_return_if.
  destruct (is_connection_reset_error ec); [apply keeps_abort|].
  apply keeps_return_if, keeps_shutdown.
Qed.

Lemma keeps_handle_write_error ec tw tr : keeps tw tr tw tr (handle_write_error ec).
Proof. apply (keeps_handle_read_error ec). Qed.

(** A write may start when the message to write is in place. *)
Lemma keeps_write_outbound ssl h tr w :
  inv_with 1 (read_after h + tr) w -> is_Some (message_outbound_ (conn w)) ->
  wp (write_outbound ssl h) w (fun _ w' => inv_with 0 tr w') (fun _ => False) False.
Proof.
  intros Hinv [d Hd]. revert Hinv.
  destruct w as [[dr sh wr sf dg q mo ol il rb] so po pe tr0]. simpl in Hd. subst mo.
  intros [Hw Hr [ds Hq] Hidle Hpost Hbuf Hlen].
  unfold wp, write_outbound, mbind, M_bind, field, gets, set_out_message_len, update, modify,
    emit, start. simpl in *.
  constructor; simpl; eauto.
  - rewrite writers_app. change (writers [_]) with 1%nat. destruct wr; lia.
  - rewrite readers_app.
    destruct h; [change (readers [_]) with 1%nat|change (readers [_]) with 0%nat]; simpl in *; lia.
  - intros ssl' h' _. exists d. simpl. split_and!; try done.
    rewrite !writes_app. change (writes [Started _]) with (@nil bytes).
    change (writes [WriteStarted _ ?b]) with [b]. by rewrite app_nil_r, last_snoc.
Qed.

Lemma keeps_set_message_outbound m tr : keeps 1 tr 1 tr (set_message_outbound m).
Proof.
  intros w Hinv. pose proof (fun ssl h => no_write_pending _ _ ssl h Hinv) as Hnone.
  destruct w as [[dr sh wr sf dg q mo ol il rb] so po pe tr0], Hinv. unfold wp. simpl in *.
  constructor; simpl in *; eauto. intros ssl h Hin. by destruct (Hnone ssl h).
Qed.

Lemma keeps_do_write_message m tr : is_Some m -> keeps 1 tr 0 tr (do_write_message m).
Proof.
  intros Hm w Hinv. unfold do_write_message.
  apply wp_bind.
  apply (wp_mono _ _ (fun _ w' => inv_with 1 tr w' /\ message_outbound_ (conn w') = m) _
           (fun _ => False) _ False); [|intros [] w' [Hinv' <-]|done|done].
  - pose proof (keeps_set_message_outbound m tr w Hinv) as Hk. by unfold wp in *.
  - apply wp_bind, wp_gets. by apply (keeps_write_outbound _ on_write_message_h tr).
Qed.

Lemma keeps_write_next tr : keeps 1 tr 0 tr write_next.
Proof.
  intros w Hinv. destruct Hinv as [Hw Hr [ds Hq] Hidle Hpost Hbuf Hlen] eqn:Heq. clear Heq.
  unfold write_next. apply wp_bind. pose proof (try_pop_holds _ _ Hq) as Hpop.
  unfold wp at 1, on_queue.
  destruct ds as [|d ds].
  - rewrite Hpop. destruct w as [[dr sh wr sf dg q mo ol il rb] so po pe tr0]. unfold wp. simpl in *.
    constructor; simpl; eauto; [destruct wr; lia|].
    intros _. destruct Hq as [-> _]. done.
  - destruct Hpop as (q' & -> & Hq'). apply (keeps_do_write_message _ tr); [by eexists|].
    destruct w as [[dr sh wr sf dg q mo ol il rb] so po pe tr0]. simpl in *.
    constructor; simpl; eauto. intros ->. specialize (Hidle eq_refl). lia.
Qed.

Lemma keeps_on_write_message ec tr : keeps 1 tr 0 tr (on_write_message ec).
Proof.
  eapply keeps_bind; [apply keeps_set_message_outbound|]. intros [].
  destruct (failed ec); [|apply keeps_write_next].
  eapply keeps_weaken; [| |apply keeps_handle_write_error]; lia.
Qed.

Lemma keeps_send_in_strand m tr : is_Some m -> keeps 0 tr 0 tr (send_in_strand m).
Proof.
  intros [d ->] w Hinv. unfold send_in_strand. do 2 apply wp_bind, wp_gets.
  unfold return_if. destruct (_ || _); [by apply wp_ret|]. apply wp_bind, wp_gets.
  destruct (is_writing_ (conn w)) eqn:Hwr.
  - destruct Hinv as [Hw Hr [ds Hq] Hidle Hpost Hbuf Hlen].
    destruct (push_holds _ _ d Hq) as (q' & Hpush & Hq'). unfold wp, on_queue.
    unfold from_vector in Hpush. rewrite Hpush. destruct w as [[dr sh wr sf dg q mo ol il rb] so po pe tr0]. simpl in *.
    constructor; simpl; eauto. by rewrite Hwr.
  - apply wp_bind. unfold wp at 1. simpl. apply (keeps_do_write_message _ tr); [by eexists|].
    destruct Hinv as [Hw Hr [ds Hq] Hidle Hpost Hbuf Hlen].
    destruct w as [[dr sh wr sf dg q mo ol il rb] so po pe tr0]. simpl in *. subst wr.
    constructor; simpl; eauto; lia || done.
Qed.

(** ** Reading *)

Lemma keeps_set_read_buffer b tw tr : keeps tw tr tw tr (set_read_buffer b).
Proof. open_world. constructor; simpl; eauto. Qed.

Lemma keeps_set_in_message_len n tw tr :
  0 <= n < 2 ^ 32 -> keeps tw tr tw tr (set_in_message_len n).
Proof. intros Hn. open_world. constructor; simpl; eauto. Qed.

Lemma keeps_consume n tw tr : keeps tw tr tw tr (consume n).
Proof.
  eapply keeps_bind; [apply keeps_gets|]. intros b.
  eapply keeps_bind; [apply keeps_set_read_buffer|]. intros []. apply keeps_ret.
Qed.

Lemma keeps_commit d tw tr : keeps tw tr tw tr (commit d).
Proof. eapply keeps_bind; [apply keeps_gets|]. intros b. apply keeps_set_read_buffer. Qed.

Lemma keeps_extract_length tw tr : keeps tw tr tw tr extract_length.
Proof.
  intros w Hinv. unfold extract_length, consume. do 2 apply wp_bind. apply wp_gets.
  apply wp_bind. eapply wp_mono; [by apply keeps_set_read_buffer| |done|done].
  intros [] w' Hinv'. apply wp_ret. apply keeps_set_in_message_len; [|done].
  apply header_bounds.
Qed.

Lemma keeps_read_next tw : keeps tw 1 tw 0 read_next.
Proof.
  unfold read_next. open_world. constructor; simpl; eauto.
  - rewrite writers_app. change (writers [_]) with 0%nat. lia.
  - rewrite readers_app. change (readers [_]) with 1%nat. lia.
  - same_buffers Hbuf.
Qed.

Lemma keeps_read_handshake ssl :
  keeps 1 1 0 0 (start (AsyncReadSome ssl on_ian_handshake_h)).
Proof.
  open_world. constructor; simpl; eauto.
  - rewrite writers_app. change (writers [_]) with 1%nat. lia.
  - rewrite readers_app. change (readers [_]) with 1%nat. lia.
  - same_buffers Hbuf.
Qed.

Lemma inv_received tw tr len b ds w :
  0 <= len < 2 ^ 32 -> inv_with tw tr w -> inv_with tw tr (received len b ds w).
Proof.
  intros Hl. revert w. open_world. constructor; simpl; eauto.
  intros ssl h Hin. destruct (Hbuf ssl h Hin) as (d & ? & Hlast & ?). exists d.
  simpl in *. split_and!; [done| |done]. rewrite writes_app.
  assert (writes (Processed <$> ds) = []) as -> by (by induction ds).
  by rewrite app_nil_r.
Qed.

Lemma keeps_on_read ec d : keeps 0 1 0 0 (on_read ec d).
Proof.
  intros w Hinv. unfold on_read. destruct (failed ec).
  { eapply keeps_weaken; [| |apply keeps_handle_read_error|done]; lia. }
  apply wp_bind. eapply wp_mono; [by apply keeps_commit| |done|done]. intros [] w1 Hinv1.
  apply wp_bind. eapply wp_mono; [apply on_read_loop_spec; apply Hinv1| |done|done].
  intros go w2 (ds & _ & Hgo). destruct go.
  - destruct Hgo as (len & b & -> & Hlen & _ & _). apply keeps_read_next.
    by apply inv_received.
  - destruct Hgo as (b & _ & _ & Hsh). apply wp_ret.
    assert (inv_with 0 1 (received 0 (drop header_size b) ds w1)) as Hinv2
      by (apply inv_received; [lia|done]).
    pose proof (keeps_shutdown 0 1 _ Hinv2) as Hk. unfold wp in Hk. rewrite Hsh in Hk.
    revert Hk. by apply inv_weaken; lia.
Qed.

Lemma keeps_end_shutdown tw tr : keeps tw tr 0 0 shutdown.
Proof. eapply keeps_weaken; [| |apply keeps_shutdown]; lia. Qed.

Lemma keeps_check_handshake : keeps 1 1 0 0 check_handshake.
Proof.
  do 2 (eapply keeps_bind; [apply keeps_gets|]; intros ?).
  case_decide; [apply keeps_read_handshake|]. case_decide; [apply keeps_end_shutdown|].
  eapply keeps_bind; [apply keeps_consume|]. intros _.
  eapply keeps_bind; [apply keeps_set_in_message_len; lia|]. intros [].
  eapply keeps_bind; [apply keeps_read_next|]. intros []. apply keeps_write_next.
Qed.

Lemma keeps_on_ian_handshake ec d : keeps 1 1 0 0 (on_ian_handshake ec d).
Proof.
  unfold on_ian_handshake. destruct (failed ec).
  { eapply keeps_weaken; [| |apply keeps_handle_read_error]; lia. }
  eapply keeps_bind; [apply keeps_commit|]. intros [].
  eapply keeps_bind; [apply keeps_gets|]. intros len.
  case_decide; [|apply keeps_check_handshake].
  eapply keeps_bind; [apply keeps_gets|]. intros b.
  case_decide; [apply keeps_end_shutdown|].
  eapply keeps_bind; [apply keeps_extract_length|]. intros [].
  eapply keeps_bind; [apply keeps_gets|]. intros len'.
  case_decide; [apply keeps_end_shutdown|apply keeps_check_handshake].
Qed.

Lemma keeps_on_ian_handshake_sent ec : keeps 1 1 0 0 (on_ian_handshake_sent ec).
Proof.
  eapply keeps_bind; [apply keeps_set_message_outbound|]. intros [].
  destruct (failed ec); [|apply keeps_read_handshake].
  eapply keeps_weaken; [| |apply keeps_handle_write_error]; lia.
Qed.

(** ** A step *)

Lemma send_message_inv m : keeps 0 0 0 0 (send_message m).
Proof.
  unfold send_message, is_empty. case_bool_decide as Hm; [apply keeps_ret|].
  open_world. constructor; simpl; eauto. apply Forall_app. split; [done|].
  apply Forall_singleton. destruct m; [by eexists|done].
Qed.

Lemma keeps_posted : keeps 0 0 0 0 (handler Posted).
Proof.
  intros w Hinv. simpl. apply wp_bind, wp_gets.
  destruct (posted w) as [|m l] eqn:Hposted; [by apply wp_ret|].
  apply wp_bind. unfold wp at 1. simpl.
  pose proof (inv_posted _ _ _ Hinv) as Hall. rewrite Hposted in Hall.
  apply Forall_cons in Hall as [Hm Hl].
  apply keeps_send_in_strand; [done|]. destruct Hinv. by constructor.
Qed.

(** The one fault: the handshake frame is written from an empty message. *)
Definition handshake_fault (l : label) (w : world) (e : fault) : Prop :=
  e = NullDereference /\ message_outbound_ (conn w) = None /\
  exists role ec, l = HandshakeDone role ec /\ failed ec = false.

Lemma on_ssl_handshake_inv ec w :
  inv_with 1 1 w ->
  wp (on_ssl_handshake ec) w (fun _ w' => inv w')
    (fun e => e = NullDereference /\ message_outbound_ (conn w) = None /\ failed ec = false)
    False.
Proof.
  intros Hinv. unfold on_ssl_handshake. destruct (failed ec) eqn:Hec.
  - pose proof (keeps_weaken 1 1 1 1 0 0 abort ltac:(lia) ltac:(lia) (keeps_abort 1 1) w Hinv).
    by eapply wp_mono.
  - destruct (message_outbound_ (conn w)) eqn:Hm.
    + eapply wp_mono; [apply (keeps_write_outbound true on_ian_handshake_sent_h 0 w Hinv);
        by eexists|done|done|done].
    + unfold wp, write_outbound, mbind, M_bind, field, gets. by rewrite Hm.
Qed.

Lemma fire_inv l w :
  inv w -> enabled l w ->
  wp (fire l) w (fun _ w' => inv w') (handshake_fault l w) False.
Proof.
  intros Hinv Hen. unfold enabled in Hen. unfold fire. apply wp_bind.
  assert (forall op, op ∈ pending w ->
    inv_with (if leads_to_write op then 1 else 0) (if leads_to_read op then 1 else 0)
      (mkWorld (conn w) (socket_open w) (posted w) (remove_one op (pending w)) (trace w)))
    as Hremove.
  { intros op Hop. destruct Hinv as [Hw Hr Hq Hidle Hpost Hbuf Hlen].
    pose proof (writers_remove op _ Hop). pose proof (readers_remove op _ Hop).
    constructor; simpl; eauto; try lia. intros ssl h Hin%remove_one_in.
    exact (Hbuf ssl h Hin). }
  destruct l as [m| |role ec|ssl h ec d|ssl h ec|ec]; simpl in *; unfold wp at 1; simpl.
  - eapply wp_mono; [by apply send_message_inv|done|done|done].
  - eapply wp_mono; [by apply keeps_posted|done|done|done].
  - eapply wp_mono; [by apply on_ssl_handshake_inv, (Hremove (AsyncHandshake role))|done| |done].
    intros e (? & ? & ?). split_and!; eauto.
  - specialize (Hremove _ Hen). destruct h; simpl in Hremove.
    + eapply wp_mono; [by apply keeps_on_ian_handshake|done|done|done].
    + eapply wp_mono; [by apply keeps_on_read|done|done|done].
  - specialize (Hremove _ Hen). destruct h; simpl in Hremove.
    + eapply wp_mono; [by apply keeps_on_ian_handshake_sent|done|done|done].
    + eapply wp_mono; [by apply keeps_on_write_message|done|done|done].
  - eapply wp_mono; [by apply keeps_on_shutdown, (Hremove AsyncShutdown)|done|done|done].
Qed.

Lemma connection_steps_snoc w ls w1 l w2 :
  steps w ls w1 -> enabled l w1 -> fire l w1 = Ok tt w2 -> steps w (ls ++ [l]) w2.
Proof.
  induction 1 as [w|w l' w1 ls w3 Hen Hfire _ IH]; intros Hl Hf.
  - eapply steps_cons; [done..|apply steps_nil].
  - simpl. eapply steps_cons; [done..|]. by apply IH.
Qed.

Lemma steps_inv w ls w' : steps w ls w' -> inv w -> inv w'.
Proof.
  induction 1 as [|w l w1 ls w2 Hen Hfire _ IH]; [done|]. intros Hinv. apply IH.
  pose proof (fire_inv l w Hinv Hen) as Hwp. unfold wp in Hwp. by rewrite Hfire in Hwp.
Qed.
End invariant.
