(* ===== verification/ClusterFrame.v ===== *)
(** * Invariants of the handlers of a cluster connection

    What the parts of the handlers preserve, the handlers do. *)
From S2P Require Import Prelude Message MessageQueue ErrorCode ClusterConnection ClusterInvariant.

Create HintDb cluster_frame discriminated.

Section frame.
Context `{AsioErrors}.

(** The parts that do not write. *)
Record frame_quiet (I : world -> Prop) : Prop := {
  frame_emit e : match e with WriteStarted _ _ => False | _ => True end -> preserves I (emit e);
  frame_start op : match op with AsyncWrite _ _ | AsyncHandshake _ => False | _ => True end ->
    preserves I (start op);
  frame_in_length n : preserves I (set_in_message_len n);
  frame_read_buffer b : preserves I (set_read_buffer b);
  frame_abort : preserves I abort;
  frame_shutdown : preserves I shutdown;
  frame_on_shutdown ec : preserves I (on_shutdown ec);
  frame_send m : preserves I (send_message m);
  frame_strand m : preserves I (send_in_strand m);
  frame_posted ms w : I w -> I (mkWorld (conn w) (socket_open w) ms (pending w) (trace w));
}.

Variable I : world -> Prop.
Hypothesis HI : frame_quiet I.

Lemma frame_return_if b k : preserves I k -> preserves I (return_if b k).
Proof. intros Hk. destruct b; [apply preserves_ret|done]. Qed.

#[local] Hint Resolve preserves_ret preserves_gets frame_return_if frame_in_length frame_read_buffer
  frame_abort frame_shutdown frame_on_shutdown frame_send : cluster_frame.
#[local] Hint Extern 1 (preserves _ (emit _)) => apply frame_emit; [assumption|exact Logic.I] : cluster_frame.
#[local] Hint Extern 1 (preserves _ (start _)) => apply frame_start; [assumption|exact Logic.I] : cluster_frame.

(** Through the structure of an operation, down to the lemmas of the database. *)
Ltac preserve :=
  repeat (first [solve [eauto with cluster_frame nocore]
                | apply preserves_bind; [|intros ?] | apply frame_return_if
                | match goal with |- preserves _ (if ?b then _ else _) => destruct b end]).

Lemma cluster_frame_handle_error ec : preserves I (handle_read_error ec).
Proof. unfold handle_read_error, field. preserve. Qed.
#[local] Hint Resolve cluster_frame_handle_error : cluster_frame.

Lemma frame_take_message : preserves I take_message.
Proof. unfold take_message, consume, process_message, field. preserve. Qed.
#[local] Hint Resolve frame_take_message : cluster_frame.

Lemma frame_on_read ec d : preserves I (on_read ec d).
Proof.
  unfold on_read. destruct (failed ec); [preserve|].
  apply preserves_bind; [unfold commit, field; preserve|intros _].
  apply preserves_bind; [|intros ?; unfold read_next, field; preserve].
  intros w. unfold on_read_loop. apply preserves_loop. intros [].
  unfold on_read_round, extract_length, consume, field. preserve.
Qed.

(** The handlers that neither handshake nor write. *)
Lemma cluster_frame_handler l :
  match l with
  | Send _ | Posted | ReadDone _ on_read_h _ _ | ShutdownDone _ => True
  | _ => False
  end -> preserves I (handler l).
Proof.
  destruct l as [m| |role ec|ssl h ec d|ssl h ec|ec]; intros Hl; try done; simpl.
  - by apply frame_send.
  - apply preserves_bind; [apply preserves_gets|]. intros [|m ms]; [apply preserves_ret|].
    apply preserves_bind; [|intros _; by apply frame_strand]. exact (frame_posted _ HI ms).
  - destruct h; [done|]. apply frame_on_read.
  - by apply frame_on_shutdown.
Qed.

(** ** The writer *)
Section writer.
Hypothesis Hnext : preserves I write_next.
Hypothesis Houtbound : forall m, preserves I (set_message_outbound m).

#[local] Hint Resolve Hnext Houtbound : cluster_frame.

Lemma frame_on_ian_handshake ec d : preserves I (on_ian_handshake ec d).
Proof.
  assert (preserves I check_handshake).
  { unfold check_handshake, consume, read_next, field. preserve. }
  unfold on_ian_handshake, commit, extract_length, consume, field.
  destruct (failed ec); preserve.
Qed.

(** Any handler but that of the TLS handshake. *)
Lemma frame_write_handler l :
  match l with HandshakeDone _ _ => False | _ => True end -> preserves I (handler l).
Proof.
  destruct l as [m| |role ec|ssl [] ec d|ssl h ec|ec]; intros Hl; try done; try by apply cluster_frame_handler.
  - apply frame_on_ian_handshake.
  - simpl. unfold on_ian_handshake_sent, on_write_message, handle_write_error.
    change (fun w => ?m w) with m. destruct h, (failed ec); preserve; apply cluster_frame_handle_error.
Qed.
End writer.
End frame.
