(* ===== verification/ClusterSend.v ===== *)
(** * The sending side of a cluster connection

    As long as the connection is open, what was sent is what was written, what is queued
    and what waits in the strand, in this order. *)
From S2P Require Import Prelude Message MessageQueue Framing ErrorCode ClusterConnection.
From S2P Require Import ClusterReceive ClusterInvariant.

(** The frames written, queued and posted. *)
Definition outgoing (w : world) : list bytes :=
  writes (trace w) ++ (frame <$> queued (message_queue_ (conn w))) ++
  (frame <$> payloads (posted w)).

(** Neither dropped nor shutting down. *)
Definition is_up (w : world) : Prop :=
  dropped_ (conn w) = false /\ shutting_down_ (conn w) = false /\ socket_open w = true.

(** The payloads a sequence of labels sends, and the sequences without a TLS handshake. *)
Definition sent (ls : list label) : list bytes :=
  ls ≫= fun l => match l with Send (Some d) => [d] | _ => [] end.
Definition no_handshake (l : label) : Prop :=
  match l with HandshakeDone _ _ => False | _ => True end.

Create HintDb quiet discriminated.

Section send.
Context `{AsioErrors}.

(** What goes out of a connection that is up. *)
Abbreviation emits := (emits is_up outgoing).
Abbreviation quiet := (quiet is_up outgoing).

Lemma quiet_return_if b k : quiet k -> quiet (return_if b k).
Proof. intros Hk. destruct b; [apply quiet_ret|done]. Qed.

Ltac atomic :=
  intros [[dr sh wr sf dg q mo ol il rb] so po pe tr0] (? & ? & ?);
  simpl in *; unfold outgoing, is_up; simpl;
  rewrite ?writes_app, ?app_nil_r; try by split_and!.

Lemma quiet_start op : quiet (start op).
Proof. atomic. Qed.
Lemma quiet_processed d : quiet (process_message d).
Proof. atomic. Qed.
Lemma quiet_set_message_outbound m : quiet (set_message_outbound m).
Proof. atomic. Qed.
Lemma quiet_set_in_message_len n : quiet (set_in_message_len n).
Proof. atomic. Qed.
Lemma quiet_set_read_buffer b : quiet (set_read_buffer b).
Proof. atomic. Qed.
Lemma quiet_set_is_writing b : quiet (set_is_writing b).
Proof. atomic. Qed.

(** After these the connection is not open any more. *)
Lemma quiet_abort : quiet abort.
Proof.
  intros [[[] sh wr sf dg q mo ol il rb] so po pe tr0]; unfold emits, wp; simpl;
    intros (? & ? & ?); simpl in *; [done|done].
Qed.

Lemma quiet_shutdown : quiet shutdown.
Proof.
  intros [[[] [] wr sf [] q mo ol il rb] [] po pe tr0]; unfold emits, wp; simpl;
    intros (? & ? & ?); simpl in *; done.
Qed.

Lemma quiet_on_shutdown ec : quiet (on_shutdown ec).
Proof.
  intros [[[] sh wr sf dg q mo ol il rb] so po pe tr0]; unfold emits, wp; simpl;
    intros (? & ? & ?); simpl in *; done.
Qed.

#[local] Hint Resolve quiet_ret quiet_gets quiet_return_if quiet_start quiet_processed
  quiet_set_message_outbound quiet_set_in_message_len quiet_set_read_buffer quiet_abort
  quiet_shutdown quiet_on_shutdown : quiet.

Ltac quiet_auto :=
  repeat (first [solve [eauto with quiet nocore]
                | apply quiet_bind; [|intros ?] | apply quiet_return_if
                | match goal with |- quiet (if ?b then _ else _) => destruct b end]).

Lemma quiet_handle_read_error ec : quiet (handle_read_error ec).
Proof. unfold handle_read_error, field. quiet_auto. Qed.
Lemma quiet_handle_write_error ec : quiet (handle_write_error ec).
Proof. apply quiet_handle_read_error. Qed.
#[local] Hint Resolve quiet_handle_read_error quiet_handle_write_error : quiet.

Lemma quiet_take_message : quiet take_message.
Proof. unfold take_message, consume, field. quiet_auto. Qed.
#[local] Hint Resolve quiet_take_message : quiet.

Lemma quiet_on_read ec d : quiet (on_read ec d).
Proof.
  unfold on_read. destruct (failed ec); [quiet_auto|].
  apply quiet_bind; [unfold commit, field; quiet_auto|intros _].
  apply quiet_bind; [|intros ?; unfold read_next, field; quiet_auto].
  intros w. unfold on_read_loop. apply quiet_loop. intros [].
  unfold on_read_round, extract_length, consume, field. quiet_auto.
Qed.
#[local] Hint Resolve quiet_on_read : quiet.

(** ** Writing moves the oldest payload from the queue to the wire *)

Lemma do_write_spec d w :
  wp (do_write_message (Some d)) w
    (fun _ w' => (is_up w' -> is_up w) /\ writes (trace w') = writes (trace w) ++ [frame d] /\
       message_queue_ (conn w') = message_queue_ (conn w) /\ posted w' = posted w)
    (fun _ => True) True.
Proof.
  destruct w as [[dr sh wr sf dg q mo ol il rb] so po pe tr0]. unfold wp. simpl.
  rewrite !writes_app. change (writes [Started _]) with (@nil bytes).
  change (writes [WriteStarted _ ?b]) with [b]. by rewrite app_nil_r.
Qed.

Lemma quiet_write_next : quiet write_next.
Proof.
  intros w. unfold write_next, quiet. apply wp_bind. unfold on_queue.
  destruct w as [[dr sh wr sf dg q mo ol il rb] so po pe tr0].
  pose proof (try_pop_queued q) as Hpop. unfold wp at 1. cbn [message_queue_ conn].
  destruct (try_pop q) as [[m|] q'|e|]; simpl; try done.
  2:{ destruct Hpop as [-> _]. unfold wp. simpl. intros (? & ? & ?).
      unfold outgoing. simpl. by rewrite app_nil_r. }
  destruct Hpop as (d & -> & Hq). eapply wp_mono; [apply do_write_spec| |done|done].
  intros [] w' (Hup & Hw & Hqueue & Hpost) Hup'. simpl in *.
  split; [exact (Hup Hup')|]. unfold outgoing. simpl. rewrite Hw, Hqueue, Hpost, Hq.
  by rewrite app_nil_r, <- app_assoc.
Qed.
#[local] Hint Resolve quiet_write_next : quiet.

Lemma quiet_on_write_message ec : quiet (on_write_message ec).
Proof. unfold on_write_message. destruct (failed ec); quiet_auto. Qed.

Lemma quiet_on_ian_handshake_sent ec : quiet (on_ian_handshake_sent ec).
Proof. unfold on_ian_handshake_sent. destruct (failed ec); quiet_auto. Qed.

Lemma quiet_on_ian_handshake ec d : quiet (on_ian_handshake ec d).
Proof.
  assert (quiet check_handshake).
  { unfold check_handshake, consume, read_next, field. quiet_auto. }
  unfold on_ian_handshake, commit, extract_length, consume, field.
  destruct (failed ec); quiet_auto.
Qed.

(** ** Posted messages *)

Lemma send_in_strand_emits d w :
  (is_writing_ (conn w) = false -> queue_ (message_queue_ (conn w)) = []) ->
  wp (send_in_strand (Some d)) w
    (fun _ w' => is_up w' -> is_up w /\ posted w' = posted w /\
       writes (trace w') ++ (frame <$> queued (message_queue_ (conn w'))) =
       writes (trace w) ++ (frame <$> queued (message_queue_ (conn w)) ++ [d]))
    (fun _ => True) True.
Proof.
  intros Hidle. unfold send_in_strand. do 2 apply wp_bind, wp_gets. unfold return_if.
  destruct (dropped_ (conn w)) eqn:Hd.
  { apply wp_ret. intros (? & _). congruence. }
  destruct (shutting_down_ (conn w)) eqn:Hs.
  { apply wp_ret. intros (_ & ? & _). congruence. }
  simpl. apply wp_bind, wp_gets. destruct (is_writing_ (conn w)) eqn:Hwr.
  - destruct w as [[dr sh wr sf dg [l t] mo ol il rb] so po pe tr0]. unfold wp. simpl in *.
    intros (? & ? & ?). split; [done|]. split; [done|]. f_equal. f_equal.
    by rewrite (queued_push _ _ _ t).
  - apply wp_bind. unfold wp at 1. simpl.
    eapply wp_mono; [apply do_write_spec| |done|done].
    intros [] w' (Hup & Hw & Hqueue & Hpost) Hup'. simpl in *.
    split; [exact (Hup Hup')|]. split; [done|]. rewrite Hw, Hqueue. unfold queued.
    rewrite Hidle by done. simpl. by rewrite app_nil_r.
Qed.

(** ** Steps *)

Lemma fire_emits l w :
  inv w -> no_handshake l -> emits (frame <$> sent [l]) (fire l) w.
Proof.
  intros Hinv Hno. unfold fire.
  assert (forall op s (m : C unit), (forall w, emits s m w) ->
    emits s (modify (fun w => mkWorld (conn w) (socket_open w) (posted w)
                                (remove_one op (pending w)) (trace w));; m) w) as Hremove.
  { intros op s m Hm. by apply emits_modify. }
  destruct l as [m| |role ec|ssl h ec d|ssl h ec|ec]; simpl completes; cbv iota.
  - change (emits (frame <$> sent [Send m]) (send_message m) w). unfold send_message, is_empty.
    case_bool_decide as Hm.
    + subst m. apply quiet_ret.
    + destruct m as [d|]; [|done]. unfold emits, wp. simpl. intros Hup. split; [done|].
      unfold outgoing. simpl. by rewrite omap_app, fmap_app, !app_assoc.
  - change (emits [] (handler Posted) w). unfold emits, handler. apply wp_bind, wp_gets.
    destruct (posted w) as [|m ms] eqn:Hpost; [by apply (quiet_ret (E := fault) is_up outgoing tt)|].
    apply wp_bind. unfold wp at 1. simpl.
    pose proof (inv_posted _ _ _ Hinv) as Hall. rewrite Hpost in Hall.
    apply Forall_cons in Hall as [[d ->] _].
    eapply wp_mono; [apply send_in_strand_emits, Hinv| |done|done].
    intros [] w' Hw' Hup'. destruct (Hw' Hup') as (Hup & Hp & Hout). simpl in *.
    split; [exact Hup|]. unfold outgoing. rewrite app_assoc, Hout, Hp, Hpost, app_nil_r.
    rewrite fmap_app, <- !app_assoc. done.
  - done.
  - apply Hremove. destruct h; [apply quiet_on_ian_handshake|apply quiet_on_read].
  - apply Hremove. destruct h; [apply quiet_on_ian_handshake_sent|apply quiet_on_write_message].
  - apply Hremove. apply quiet_on_shutdown.
Qed.

Lemma steps_outgoing w ls w' :
  steps w ls w' -> inv w -> Forall no_handshake ls -> is_up w' ->
  is_up w /\ outgoing w' = outgoing w ++ (frame <$> sent ls).
Proof.
  induction 1 as [w|w l w1 ls w2 Hen Hfire _ IH]; intros Hinv Hno Hup.
  - split; [done|]. by rewrite app_nil_r.
  - apply Forall_cons in Hno as [Hl Hno].
    pose proof (fire_inv l w Hinv Hen) as Hinv1. pose proof (fire_emits l w Hinv Hl) as He.
    unfold emits, wp in *. rewrite Hfire in Hinv1, He.
    destruct (IH Hinv1 Hno Hup) as [Hup1 Heq]. destruct (He Hup1) as [? He'].
    split; [done|]. rewrite Heq, He', <- app_assoc. f_equal.
    change (sent (l :: ls)) with (sent ([l] ++ ls)). unfold sent. by rewrite bind_app, fmap_app.
Qed.
End send.
