(* ===== verification/ClusterWriter.v ===== *)
(** * The writer of a cluster connection does not stop

    While a connection is up and [is_writing_] is set, something is pending whose completion
    leads to the next write: unless a handshake or a write was canceled, whose handler
    neither goes on nor ends the connection. *)
From S2P Require Import Prelude Message MessageQueue ErrorCode ClusterConnection.
From S2P Require Import Framing ClusterInvariant ClusterFrame ClusterSend.

Section writer.
Context `{AsioErrors}.

Definition uncanceled (l : label) : Prop :=
  match l with
  | WriteDone _ _ ec | ReadDone _ on_ian_handshake_h ec _ =>
      failed ec = true -> is_connection_canceled_error ec = false
  | _ => True
  end.

Definition busy (w : world) : Prop :=
  is_up w -> is_writing_ (conn w) = true -> (1 <= writers (pending w))%nat.

(** [m] leaves a connection busy, whatever it was. *)
Definition gets_busy {A} (m : C A) : Prop := forall w, wp m w (fun _ w' => busy w') (fun _ => True) True.

Lemma gets_busy_bind {A B} (m : C A) (k : A -> C B) : (forall a, gets_busy (k a)) -> gets_busy (m ≫= k).
Proof.
  intros Hk w. apply wp_bind. unfold wp at 1. destruct (m w) as [a w1|e|]; [apply Hk|done..].
Qed.

Lemma gets_busy_preserves {A} (m : C A) : gets_busy m -> preserves busy m.
Proof. intros Hm w _. apply Hm. Qed.

Ltac in_world :=
  intros [[dr sh wr sf dg q mo ol il rb] so po pe tr]; unfold busy, is_up, wp; simpl in *.

(** After these the connection is not up. *)
Lemma busy_after_abort : gets_busy abort.
Proof. in_world. destruct dr; simpl; by intros (? & ? & ?). Qed.
Lemma busy_after_shutdown : gets_busy shutdown.
Proof. in_world. destruct dr, sh, dg, so; simpl; by intros (? & ? & ?). Qed.
Lemma busy_after_on_shutdown ec : gets_busy (on_shutdown ec).
Proof. in_world. destruct dr; simpl; by intros (? & ? & ?). Qed.

Lemma busy_after_error ec :
  is_connection_canceled_error ec = false -> gets_busy (handle_read_error ec).
Proof.
  intros Hec w. unfold handle_read_error. apply wp_bind, wp_gets. unfold return_if.
  destruct (dropped_ (conn w)) eqn:Hd; [apply wp_ret; intros (? & _); congruence|]. rewrite Hec.
  destruct (is_connection_reset_error ec); [apply busy_after_abort|apply busy_after_shutdown].
Qed.

(** After these a write is on its way, or nothing is to be written. *)
Lemma busy_after_start op : leads_to_write op = true -> gets_busy (start op).
Proof.
  intros Hop. in_world. intros _ _. rewrite writers_app. unfold writers at 2.
  rewrite filter_cons, Hop. simpl. lia.
Qed.

Lemma busy_after_do_write m : gets_busy (do_write_message m).
Proof.
  unfold do_write_message, write_outbound. do 8 (apply gets_busy_bind; intros ?).
  by apply busy_after_start.
Qed.

Lemma busy_after_write_next : gets_busy write_next.
Proof.
  unfold write_next. apply gets_busy_bind. intros [m|]; [apply busy_after_do_write|]. by in_world.
Qed.

Lemma busy_after_handshake ec d :
  (failed ec = true -> is_connection_canceled_error ec = false) -> gets_busy (on_ian_handshake ec d).
Proof.
  intros Hec. unfold on_ian_handshake. destruct (failed ec); [by apply busy_after_error, Hec|].
  assert (gets_busy check_handshake).
  { unfold check_handshake. do 2 (apply gets_busy_bind; intros ?).
    case_decide; [by apply busy_after_start|]. case_decide; [apply busy_after_shutdown|].
    do 3 (apply gets_busy_bind; intros ?). apply busy_after_write_next. }
  do 2 (apply gets_busy_bind; intros ?). case_decide; [|done].
  apply gets_busy_bind; intros ?. case_decide; [apply busy_after_shutdown|].
  do 2 (apply gets_busy_bind; intros ?). case_decide; [apply busy_after_shutdown|done].
Qed.

Lemma busy_after_ssl_handshake ec : gets_busy (on_ssl_handshake ec).
Proof.
  unfold on_ssl_handshake. destruct (failed ec); [apply busy_after_abort|].
  unfold write_outbound. do 6 (apply gets_busy_bind; intros ?). by apply busy_after_start.
Qed.

Lemma busy_after_write h ec :
  (failed ec = true -> is_connection_canceled_error ec = false) ->
  gets_busy (handler (WriteDone true h ec)).
Proof.
  intros Hec. destruct h; simpl; unfold on_ian_handshake_sent, on_write_message; apply gets_busy_bind; intros _;
    (destruct (failed ec); [by apply busy_after_error, Hec|]);
    [by apply busy_after_start|apply busy_after_write_next].
Qed.

Lemma cluster_busy_frame : frame_quiet busy.
Proof.
  constructor; try (intros; by in_world);
    auto using gets_busy_preserves, busy_after_abort, busy_after_shutdown, busy_after_on_shutdown.
  - intros op _. in_world. intros Hb Hup Hw. rewrite writers_app. specialize (Hb Hup Hw). lia.
  - intros m. unfold send_message. destruct (is_empty m); [apply preserves_ret|by in_world].
  - intros m. unfold send_in_strand, field. do 2 (apply preserves_bind; [apply preserves_gets|intros ?]).
    apply frame_return_if. apply preserves_bind; [apply preserves_gets|]. intros [].
    + unfold on_queue. in_world. intros Hb. by destruct (push m q).
    + apply gets_busy_preserves, gets_busy_bind. intros _. apply busy_after_do_write.
Qed.

(** ** Steps *)

Lemma cluster_busy_fire l w w' :
  uncanceled l -> enabled l w -> fire l w = Ok tt w' -> busy w -> busy w'.
Proof.
  intros Hl Hen Hfire Hb.
  assert (forall op, completes l = Some op -> gets_busy (handler l) -> busy w') as Hgets.
  { intros op Hc Hm. unfold fire in Hfire. rewrite Hc in Hfire. unfold mbind, M_bind, modify in Hfire.
    specialize (Hm (mkWorld (conn w) (socket_open w) (posted w) (remove_one op (pending w)) (trace w))).
    unfold wp in Hm. by rewrite Hfire in Hm. }
  assert (preserves busy (handler l) ->
    (forall op, completes l = Some op -> leads_to_write op = false) -> busy w') as Hkeeps.
  { intros Hm Hop. unfold fire in Hfire. destruct (completes l) as [op|] eqn:Hc.
    - eapply preserves_Ok; [exact Hm|exact Hfire|]. intros Hup Hw. specialize (Hb Hup Hw). simpl.
      unfold enabled in Hen. rewrite Hc in Hen. pose proof (writers_remove op _ Hen) as Hr.
      rewrite (Hop op eq_refl) in Hr. lia.
    - by eapply preserves_Ok; [exact Hm|exact Hfire|]. }
  destruct l as [m| |role ec|ssl [] ec d|ssl h ec|ec]; try done.
  - by apply Hkeeps; [apply (cluster_frame_handler _ cluster_busy_frame)|].
  - by apply Hkeeps; [apply (cluster_frame_handler _ cluster_busy_frame)|].
  - eapply Hgets; [reflexivity|]. apply busy_after_ssl_handshake.
  - eapply Hgets; [reflexivity|]. by apply busy_after_handshake.
  - apply Hkeeps; [by apply (cluster_frame_handler _ cluster_busy_frame)|by intros op [= <-]].
  - eapply Hgets; [reflexivity|]. by apply (busy_after_write h ec).
  - apply Hkeeps; [by apply (cluster_frame_handler _ cluster_busy_frame)|by intros op [= <-]].
Qed.

Lemma cluster_busy_steps w ls w' :
  steps w ls w' -> Forall uncanceled ls -> busy w -> busy w'.
Proof.
  induction 1 as [|w l w1 ls w2 Hen Hfire _ IH]; [done|].
  intros [Hl Hls]%Forall_cons Hb. apply IH; [done|].
  by eapply cluster_busy_fire.
Qed.

(** When nothing leads to a write any more, nothing waits to be written. *)
Lemma all_written w ls w' :
  inv w -> busy w -> steps w ls w' -> Forall no_handshake ls -> Forall uncanceled ls -> is_up w' ->
  writers (pending w') = 0%nat -> posted w' = [] ->
  is_writing_ (conn w') = false /\ writes (trace w') = outgoing w ++ (frame <$> sent ls).
Proof.
  intros Hinv Hb Hsteps Hno Hls Hup Hnone Hpost.
  pose proof (cluster_busy_steps w ls w' Hsteps Hls Hb Hup) as Hb'.
  assert (is_writing_ (conn w') = false) as Hw.
  { destruct (is_writing_ (conn w')); [|done]. specialize (Hb' eq_refl). lia. }
  split; [done|]. destruct (steps_outgoing w ls w' Hsteps Hinv Hno Hup) as [_ <-].
  pose proof (inv_idle _ _ _ (steps_inv w ls w' Hsteps Hinv) Hw) as Hq.
  unfold outgoing, queued. rewrite Hq, Hpost. simpl. by rewrite app_nil_r.
Qed.
End writer.
