(* ===== verification/ClusterStart.v ===== *)
(** * A cluster connection from its start

    The states it comes to from its constructor and [run]. The source never makes the
    message of its handshake, so that a connection of the tool ends there ([ClusterClosing]);
    [construct_with] has a message in its place, to say what the handlers do past it. *)
From S2P Require Import Prelude Message MessageQueue Framing ErrorCode ClusterConnection.
From S2P Require Import ClusterReceive ClusterInvariant ClusterFrame ClusterSend ClusterWriter.

(** The constructor, if it left [handshake] in [message_outbound_]; the one of the source is
    the case [Message_empty]. *)
Definition construct_with (handshake : Message) (safe_link : bool) (len : bytes) : world :=
  mkWorld (mkClusterConnection false false false safe_link false new_queue handshake len 0 [])
    true [] [] [].

Lemma construct_empty safe_link len : construct_with Message_empty safe_link len = construct safe_link len.
Proof. done. Qed.

(** Past the TLS handshake: none is pending. *)
Definition past_handshake (w : world) : Prop := forall role, AsyncHandshake role ∉ pending w.

Section start.
Context `{AsioErrors}.

(** [w] is the state of a connection right after [run]. *)
Definition begins (handshake : Message) (w : world) : Prop :=
  exists role safe0 safe_link len,
    run role safe_link (construct_with handshake safe0 len) = Ok tt w.

(** A state a connection comes to, whatever happens in any order; and without the
    cancellation of a write or a handshake. *)
Definition reached (w : world) : Prop :=
  exists handshake w0 ls, begins handshake w0 /\ steps w0 ls w.
Definition reached_uncanceled (w : world) : Prop :=
  exists handshake w0 ls, begins handshake w0 /\ steps w0 ls w /\ Forall uncanceled ls.

Lemma begins_inv handshake w : begins handshake w -> inv w.
Proof.
  intros (role & safe0 & safe_link & len & [= <-]). constructor; simpl; try done; [by exists []|].
  intros ssl h Hin. by apply list_elem_of_singleton in Hin.
Qed.

Lemma reached_inv w : reached w -> inv w.
Proof. intros (hs & w0 & ls & Hw0 & Hsteps). by eapply steps_inv, begins_inv. Qed.

Lemma begins_busy handshake w : begins handshake w -> busy w.
Proof. intros (role & safe0 & safe_link & len & [= <-]) _ _. done. Qed.

Lemma reached_busy w : reached_uncanceled w -> inv w /\ busy w.
Proof.
  intros (hs & w0 & ls & Hw0 & Hsteps & Hls). split; [by eapply reached_inv; exists hs, w0, ls|].
  by eapply cluster_busy_steps, begins_busy.
Qed.

(** ** Past the TLS handshake

    Only [run] starts one. *)
Ltac in_world :=
  intros [[dr sh wr sf dg q mo ol il rb] so po pe tr] Hp; unfold past_handshake in *; simpl in *; unfold wp; simpl.
Ltac no_handshake_started :=
  intros role; simpl; rewrite ?elem_of_app, ?list_elem_of_singleton;
  match goal with Hp : forall _, _ ∉ _ |- _ => specialize (Hp role) end; naive_solver.

Lemma past_do_write m : preserves past_handshake (do_write_message m).
Proof. in_world. destruct m as [d|]; simpl; [no_handshake_started|done]. Qed.

Lemma past_write_next : preserves past_handshake write_next.
Proof.
  unfold write_next. apply preserves_bind.
  - in_world. unfold on_queue. simpl. by destruct (try_pop q).
  - intros [m|]; [apply past_do_write|by in_world].
Qed.

Lemma past_frame : frame_quiet past_handshake.
Proof.
  constructor; try (intros; by in_world).
  - intros op Hop. in_world. destruct op; try done; no_handshake_started.
  - in_world. by destruct dr.
  - in_world. destruct dr, sh, dg, so; simpl; try done; no_handshake_started.
  - intros ec. in_world. by destruct dr.
  - intros m. unfold send_message. destruct (is_empty m); [apply preserves_ret|by in_world].
  - intros m. unfold send_in_strand, field. do 2 (apply preserves_bind; [apply preserves_gets|intros ?]).
    apply frame_return_if. apply preserves_bind; [apply preserves_gets|]. intros [].
    + in_world. unfold on_queue. simpl. by destruct (push m q).
    + apply preserves_bind; [by in_world|]. intros _. apply past_do_write.
  - by intros ms w.
Qed.

Lemma past_remove op w :
  past_handshake w ->
  past_handshake (mkWorld (conn w) (socket_open w) (posted w) (remove_one op (pending w)) (trace w)).
Proof. intros Hp role Hin. by eapply Hp, remove_one_in. Qed.

Lemma past_fire l w w' :
  enabled l w -> fire l w = Ok tt w' -> past_handshake w -> past_handshake w' /\ no_handshake l.
Proof.
  intros Hen Hfire Hp. assert (no_handshake l) as Hno.
  { destruct l as [| |role ec| | |]; try done. by apply (Hp role). }
  split; [|done]. revert Hfire Hp. apply preserves_Ok. unfold fire. apply preserves_bind; [|intros _].
  - destruct (completes l) as [op|]; [|apply preserves_ret]. intros w0 Hw0. by apply past_remove.
  - apply frame_write_handler; [apply past_frame|apply past_write_next|intros m; by in_world|done].
Qed.

Lemma past_steps w ls w' :
  steps w ls w' -> past_handshake w -> past_handshake w' /\ Forall no_handshake ls.
Proof.
  induction 1 as [|w l w1 ls w2 Hen Hfire _ IH]; [done|]. intros Hp.
  destruct (past_fire l w w1 Hen Hfire Hp) as [Hp1 Hl]. destruct (IH Hp1). by split; [|constructor].
Qed.

(** The only write of a handler that stands for one. *)
Lemma only_writer op w :
  inv w -> op ∈ pending w -> leads_to_write op = true ->
  past_handshake (mkWorld (conn w) (socket_open w) (posted w) (remove_one op (pending w)) (trace w)).
Proof.
  intros Hinv Hin Hop role Hin'. simpl in Hin'. pose proof (inv_writers _ _ _ Hinv) as Hw.
  pose proof (writers_remove op _ Hin) as Hr. rewrite Hop in Hr.
  pose proof (writers_remove _ _ Hin') as Hr'. simpl in Hr'.
  destruct (is_writing_ (conn w)); lia.
Qed.
End start.
