(* ===== verification/ClusterClosing.v ===== *)
(** * The beginning and the end of a cluster connection

    What a connection can do before its handshake and after it was aborted or shut down. *)
From S2P Require Import Prelude Message MessageQueue Framing ErrorCode ClusterConnection.
From S2P Require Import ClusterReceive ClusterInvariant ClusterFrame ClusterSend ClusterWriter ClusterStart.

Section closing.
Context `{AsioErrors}.

(** ** Before the handshake *)

(** The connection waits for the TLS handshake: there is no handshake message, and
    everything that is sent is queued. *)
Definition waiting (w : world) : Prop :=
  message_outbound_ (conn w) = None /\ is_writing_ (conn w) = true /\
  Forall (fun op => (exists role, op = AsyncHandshake role) \/ op = AsyncShutdown) (pending w) /\
  writes (trace w) = [] /\ processed (trace w) = [].

Definition keeps_waiting {A} (m : C A) : Prop :=
  forall w, waiting w -> wp m w (fun _ w' => waiting w') (fun _ => True) True.

Ltac open_waiting :=
  intros [[dr sh wr sf dg q mo ol il rb] so po pe tr] (Hm & Hw & Hp & Hwr & Hpr);
  simpl in *; subst; unfold wp; simpl.

Ltac close_waiting :=
  unfold waiting; simpl; rewrite ?writes_app, ?processed_app;
  split_and!; try done; try (by apply Forall_app; split; [|apply Forall_singleton; eauto]);
  repeat match goal with
         | Hx : writes _ = [] |- _ => rewrite Hx; clear Hx
         | Hx : processed _ = [] |- _ => rewrite Hx; clear Hx
         end; done.

Lemma waiting_abort : keeps_waiting abort.
Proof. open_waiting. destruct dr; simpl; close_waiting. Qed.

Lemma waiting_on_shutdown ec : keeps_waiting (on_shutdown ec).
Proof. open_waiting. destruct dr; simpl; close_waiting. Qed.

Lemma waiting_send_in_strand m : keeps_waiting (send_in_strand m).
Proof.
  open_waiting. destruct dr, sh; simpl; try close_waiting.
  unfold send_in_strand, mbind, M_bind, field, gets, return_if, on_queue. simpl.
  destruct m as [d|]; simpl; [close_waiting|done].
Qed.

Lemma waiting_fire l w w' :
  waiting w -> enabled l w -> fire l w = Ok tt w' -> waiting w'.
Proof.
  intros Hwait Hen Hfire. pose proof Hwait as (Hm & Hw & Hp & Hwr & Hpr).
  assert (forall op (m : C unit), keeps_waiting m -> completes l = Some op ->
            handler l = m -> waiting w') as Hop.
  { intros op m Hk Hc Hh. unfold fire in Hfire. rewrite Hc, Hh in Hfire.
    unfold mbind, M_bind, modify in Hfire.
    assert (waiting (mkWorld (conn w) (socket_open w) (posted w) (remove_one op (pending w))
                       (trace w))) as Hwait'.
    { split_and!; try done. by apply remove_one_all. }
    specialize (Hk _ Hwait'). unfold wp in Hk. by rewrite Hfire in Hk. }
  unfold enabled in Hen. rewrite Forall_forall in Hp.
  destruct l as [m| |role ec|ssl h ec d|ssl h ec|ec]; simpl in Hen.
  - unfold fire, mbind, M_bind in Hfire. simpl in Hfire. unfold send_message in Hfire.
    destruct (is_empty m);
      injection Hfire as <-; [done|]. split_and!; try done. by apply Forall_forall.
  - unfold fire, mbind, M_bind, gets in Hfire. simpl in Hfire.
    unfold mbind, M_bind, gets in Hfire.
    destruct (posted w) as [|m ms]; [by injection Hfire as <-|]. simpl in Hfire.
    assert (waiting (mkWorld (conn w) (socket_open w) ms (pending w) (trace w))) as Hwait'.
    { split_and!; try done. by apply Forall_forall. }
    pose proof (waiting_send_in_strand m _ Hwait') as Hk. unfold wp in Hk. by rewrite Hfire in Hk.
  - destruct (failed ec) eqn:Hec.
    + eapply (Hop _ abort); [apply waiting_abort|done|]. simpl. unfold on_ssl_handshake.
      by rewrite Hec.
    + exfalso. unfold fire, mbind, M_bind in Hfire. simpl in Hfire.
      unfold on_ssl_handshake, write_outbound, mbind, M_bind, field, gets in Hfire.
      rewrite Hec in Hfire. simpl in Hfire. by rewrite Hm in Hfire.
  - by destruct (Hp _ Hen) as [[]|].
  - by destruct (Hp _ Hen) as [[]|].
  - eapply (Hop _ (on_shutdown ec)); [apply waiting_on_shutdown|done..].
Qed.

Lemma waiting_steps w ls w' : steps w ls w' -> waiting w -> waiting w'.
Proof.
  induction 1 as [|w l w1 ls w2 Hen Hfire _ IH]; [done|]. intros Hwait. apply IH.
  by eapply waiting_fire.
Qed.

Lemma run_waiting role safe_link b len w :
  run role safe_link (construct b len) = Ok tt w -> waiting w.
Proof. intros [= <-]. split_and!; try done. apply Forall_singleton. eauto. Qed.

Lemma waiting_faults w role ec :
  waiting w -> failed ec = false -> fire (HandshakeDone role ec) w = Err NullDereference.
Proof.
  intros (Hm & _) Hec. unfold fire, mbind, M_bind. simpl.
  unfold on_ssl_handshake, write_outbound, mbind, M_bind, field, gets. rewrite Hec. simpl.
  by rewrite Hm.
Qed.

(** ** After the end *)

Definition closing (w : world) : Prop :=
  (dropped_ (conn w) || shutting_down_ (conn w)) = true /\
  queue_ (message_queue_ (conn w)) = [].

(** It is over, and has written [ds]. *)
Definition mute (ds : list bytes) (w : world) : Prop := closing w /\ writes (trace w) = ds.

Ltac atomic :=
  intros [[dr sh wr sf dg q mo ol il rb] so po pe tr] [[Hd Hq] Hw]; simpl in *; unfold wp, mute, closing;
  simpl; rewrite ?writes_app, ?app_nil_r; try done.

Lemma mute_frame ds : frame_quiet (mute ds).
Proof.
  constructor; try (intros; by atomic).
  - intros e He. atomic. by destruct e; simpl; rewrite ?app_nil_r.
  - atomic. destruct dr; simpl in *; [done|]. by rewrite !writes_app, !app_nil_r.
  - atomic. by destruct dr, sh.
  - intros ec. atomic. destruct dr; simpl in *; [done|]. by rewrite !writes_app, !app_nil_r.
  - intros m. unfold send_message. destruct (is_empty m); [apply preserves_ret|by atomic].
  - intros m. atomic. by destruct dr, sh.
  - by intros ms w.
Qed.

Lemma mute_write_next ds : preserves (mute ds) write_next.
Proof. atomic. destruct q as [l t]. simpl in *. by subst. Qed.

Lemma mute_fire ds l w w' : no_handshake l -> fire l w = Ok tt w' -> mute ds w -> mute ds w'.
Proof.
  intros Hno. apply preserves_Ok. unfold fire. apply preserves_bind; [|intros _].
  - destruct (completes l); [by atomic|apply preserves_ret].
  - apply frame_write_handler; [apply mute_frame|apply mute_write_next|intros m; by atomic|done].
Qed.

Lemma mute_steps w ls w' :
  steps w ls w' -> Forall no_handshake ls -> closing w ->
  closing w' /\ writes (trace w') = writes (trace w).
Proof.
  intros Hsteps Hno Hw. assert (mute (writes (trace w)) w) as Hm by done. clear Hw. revert Hno Hm.
  generalize (writes (trace w)). induction Hsteps as [w|w l w1 ls w2 Hen Hfire _ IH]; [done|].
  intros ds [Hl Hno]%Forall_cons Hm. apply IH; [done|]. by eapply mute_fire.
Qed.

(** The TLS handshake may still be pending, and with it the message [o] of the handshake;
    [h] tells whether it was at the end. *)
Definition held (h : Prop) (o : Message) (w : world) : Prop :=
  forall role, AsyncHandshake role ∈ pending w -> h /\ message_outbound_ (conn w) = o.

Lemma past_held h o w : past_handshake w -> held h o w.
Proof. intros Hp role Hin. by destruct (Hp role). Qed.

Definition mute_held (h : Prop) (o : Message) (w : world) : Prop := closing w /\ held h o w.

Ltac open_held :=
  intros [[dr sh wr sf dg q mo ol il rb] so po pe tr] [[Hd Hq] Hh]; simpl in *;
  unfold wp, mute_held, held, closing in *; simpl in *.

Lemma held_frame h o : frame_quiet (mute_held h o).
Proof.
  constructor; try (intros; by open_held).
  - intros op Hop. open_held. split; [done|]. intros role Hin.
    apply elem_of_app in Hin as [Hin|Hin%list_elem_of_singleton]; [by apply (Hh role)|by subst op].
  - open_held. destruct dr; simpl in *; [done|]. split; [done|]. exact Hh.
  - open_held. by destruct dr, sh.
  - intros ec. open_held. by destruct dr.
  - intros m. unfold send_message. destruct (is_empty m); [apply preserves_ret|by open_held].
  - intros m. open_held. by destruct dr, sh.
  - by intros ms w.
Qed.

(** A step but for the success of the handshake. *)
Lemma held_fire h o l w w' :
  inv w -> enabled l w -> fire l w = Ok tt w' -> no_handshake l -> mute_held h o w -> held h o w'.
Proof.
  intros Hinv Hen Hfire Hno [Hc Hh].
  assert (forall op, completes l = Some op -> leads_to_write op = true -> held h o w') as Hwriter.
  { intros op Hop Hl. apply past_held. unfold enabled in Hen. rewrite Hop in Hen.
    pose proof (only_writer op w Hinv Hen Hl) as Hp. unfold fire in Hfire. rewrite Hop in Hfire.
    eapply (preserves_Ok past_handshake (handler l)); [|exact Hfire|exact Hp].
    apply frame_write_handler; [apply past_frame|apply past_write_next| |done].
    by intros m [[] ? ? ? ?]. }
  assert (preserves (mute_held h o) (handler l) -> held h o w') as Hquiet.
  { intros Hl. unfold fire in Hfire. destruct (completes l) as [op|].
    - eapply (preserves_Ok (mute_held h o)); [exact Hl|exact Hfire|]. split; [done|].
      intros role Hin%remove_one_in. exact (Hh role Hin).
    - by eapply (preserves_Ok (mute_held h o)); [exact Hl|exact Hfire|]. }
  destruct l as [m| |role ec|ssl [] ec d|ssl hd ec|ec]; try done;
    try (by apply Hquiet, cluster_frame_handler; [apply held_frame|]); by eapply Hwriter.
Qed.

(** The handler of a handshake that succeeds writes the message there is. *)
Lemma handshake_writes h o ds role ec w w' :
  inv w -> enabled (HandshakeDone role ec) w -> fire (HandshakeDone role ec) w = Ok tt w' ->
  failed ec = false -> mute ds w -> held h o w ->
  h /\ closing w' /\ past_handshake w' /\
  exists d, o = Some d /\ writes (trace w') = ds ++ [frame d].
Proof.
  intros Hinv Hen Hfire Hec [Hc Hw] Hh. destruct (Hh role Hen) as [Hhs Ho].
  pose proof (only_writer (AsyncHandshake role) w Hinv Hen eq_refl) as Hp.
  destruct w as [[dr sh wr sf dg q mo ol il rb] so po pe tr]. simpl in *. subst mo.
  unfold fire, mbind, M_bind in Hfire. simpl in Hfire. unfold on_ssl_handshake in Hfire.
  rewrite Hec in Hfire. destruct o as [d|]; [|done]. injection Hfire as <-. simpl.
  split_and!; [done|done| |].
  - intros r Hin. simpl in Hin. apply elem_of_app in Hin as [Hin|Hin%list_elem_of_singleton]; [by apply (Hp r)|done].
  - exists d. split; [done|]. rewrite !writes_app, Hw. simpl. by rewrite app_nil_r.
Qed.

Lemma handshake_fails ds ec : failed ec = true -> preserves (mute ds) (on_ssl_handshake ec).
Proof. intros Hec. unfold on_ssl_handshake. rewrite Hec. apply (frame_abort _ (mute_frame ds)). Qed.

(** From the end on nothing is written, but for the message of a handshake that was pending. *)
Lemma silent_steps h o ds w ls w' :
  steps w ls w' -> inv w -> mute ds w -> held h o w ->
  closing w' /\
  (writes (trace w') = ds \/ h /\ exists d, o = Some d /\ writes (trace w') = ds ++ [frame d]).
Proof.
  induction 1 as [w|w l w1 ls w2 Hen Hfire Hsteps IH]; intros Hinv Hm Hh.
  { destruct Hm as [Hc Hw]. split; [done|by left]. }
  pose proof (fire_inv l w Hinv Hen) as Hinv1. unfold wp in Hinv1. rewrite Hfire in Hinv1.
  assert ((exists role ec, l = HandshakeDone role ec) \/ no_handshake l) as [(role & ec & ->)|Hl]
    by (destruct l; try (by right); left; eauto).
  - destruct (failed ec) eqn:Hec.
    + apply IH; [done| |].
      * revert Hfire Hm. apply preserves_Ok. unfold fire. apply preserves_bind; [by intros ? []|intros _].
        by apply handshake_fails.
      * destruct Hm as [Hc _]. assert (mute_held h o w) as Hmh by done.
        eapply (preserves_Ok (mute_held h o)); [|exact Hfire|exact Hmh].
        unfold fire. apply preserves_bind.
        { intros w0 [Hc0 Hh0]. split; [done|]. intros r Hin%remove_one_in. exact (Hh0 r Hin). }
        intros _. simpl. unfold on_ssl_handshake. rewrite Hec. apply (frame_abort _ (held_frame h o)).
    + destruct (handshake_writes h o ds role ec w w1) as (Hhs & Hc & Hp & d & Ho & Hw); [done..|].
      destruct (past_steps w1 ls w2 Hsteps Hp) as [_ Hnos].
      destruct (mute_steps w1 ls w2 Hsteps Hnos Hc) as [Hc2 Hw2].
      split; [done|]. right. split; [done|]. exists d. by rewrite Hw2.
  - apply IH; [done|by eapply mute_fire|]. destruct Hm as [Hc _]. eapply (held_fire h o l w w1); [done..|by split].
Qed.
End closing.
