(* ===== verification/ClusterTheorems.v ===== *)
(** * What a cluster connection guarantees

    The properties of the framing, of the two directions of [ClusterConnection] and of its
    end, for every order in which its operations complete. *)
From S2P Require Import Prelude Message MessageQueue Framing ErrorCode ClusterConnection.
From S2P Require Import ClusterReceive ClusterInvariant ClusterFrame ClusterSend ClusterWriter ClusterStart ClusterClosing.

#[local] Existing Instance linux_errors.

(** A connection after its handshakes: it reads, and nothing is written. *)
Definition ready (safe_link : bool) : world :=
  mkWorld (new_connection safe_link (to_little header_size 0)) true []
    [AsyncReadSome safe_link on_read_h] [].

Lemma ready_inv safe_link : inv (ready safe_link).
Proof.
  constructor; try done; [by exists []|].
  intros ssl h Hin. by apply list_elem_of_singleton in Hin.
Qed.

(** ** Framing *)

(** The header of a frame is the size of its payload modulo [2^32]: it tells the size
    of a payload below 4 GiB, and less than the size of any other. *)
Theorem frame_header_value d w :
  header (frame d ++ w) = Z.of_nat (length d) mod 2 ^ 32 /\
  (header (frame d ++ w) = Z.of_nat (length d) <-> Z.of_nat (length d) < 2 ^ 32).
Proof.
  assert (header (frame d ++ w) = Z.of_nat (length d) mod 2 ^ 32) as Heq.
  { unfold header. destruct (frame_header d) as (_ & _ & Hv).
    rewrite take_app_le; [done|]. rewrite length_frame. lia. }
  split; [done|]. rewrite Heq. split.
  - intros Hd. rewrite <- Hd. by apply Z.mod_pos_bound.
  - intros Hd. apply Z.mod_small. lia.
Qed.

(** ** Receiving *)

Section receive.
Context `{AsioErrors}.

(** C12: the receiver hands on exactly the messages of the stream, in order, however the
    network cuts it. If the bytes that arrive in the chunks are frames of messages of
    one byte or more, followed by the beginning of a frame, the connection goes through
    all the reads, has handed on the payloads of the frames, keeps the beginning for
    later, and reads on. *)
Theorem receive_frames w chunks ds r :
  inv w -> reading w -> unread_of w = [] ->
  concat chunks = frames ds ++ r -> Forall sendable ds -> incomplete r ->
  exists w', steps w (ReadDone (safe_link_ (conn w)) on_read_h success <$> chunks) w' /\
    processed (trace w') = processed (trace w) ++ ds /\ unread_of w' = r /\ reading w'.
Proof.
  intros Hinv Hread Hun Hc Hds Hr.
  destruct (receive_stream w chunks ds r (inv_length _ _ _ Hinv) Hread) as
    (w' & ? & ? & ? & ? & ? & _); try done.
  - rewrite Hun. apply incomplete_nil.
  - by rewrite Hun.
  - by exists w'.
Qed.

(** A frame that announces a size of zero ends the connection. The frames before it
    are handed on, what is queued is dropped, the TLS shutdown starts, and no other read
    does. *)
Theorem receive_zero_length w chunk ds b :
  inv w -> is_up w -> downgraded_ (conn w) = false ->
  unread_of w ++ chunk = frames ds ++ b -> Forall sendable ds -> invalid_frame b ->
  exists w', on_read success chunk w = Ok tt w' /\
    processed (trace w') = processed (trace w) ++ ds /\
    shutting_down_ (conn w') = true /\ queue_ (message_queue_ (conn w')) = [] /\
    pending w' = pending w ++ [AsyncShutdown].
Proof.
  intros Hinv (Hdr & Hsh & Hopen) Hdg Hun Hds Hb.
  destruct (on_read_chunk w chunk (inv_length _ _ _ Hinv)) as (ds1 & w' & Hw' & Hds1 & Hcase).
  exists w'. split; [done|].
  destruct Hcase as [(len & b1 & -> & Hlen & Heq & Hi)|(b1 & Heq & Hb1 & Hshut)];
    rewrite Hun in Heq.
  - apply frames_prefix in Heq as (ds' & -> & Heq); [|done..]. exfalso.
    apply Forall_app in Hds1 as [_ Hds']. apply (invalid_not_frames b [] ds' _ Hb Hds' Hi).
    by rewrite app_nil_r.
  - apply frames_unique_invalid in Heq as [-> ->]; [|done..].
    destruct w as [[dr sh wr sf dg q mo ol il rb] so po pe tr]. simpl in *. subst.
    injection Hshut as <-. simpl.
    by rewrite !processed_app, processed_fmap, !app_nil_r.
Qed.
End receive.

Definition two_messages : list bytes := [str "hello"; str "x"].

Lemma receive_frames_witness :
  exists w', steps (ready true)
      (ReadDone true on_read_h success <$> [take 3 (frames two_messages);
         take 8 (drop 3 (frames two_messages)); drop 11 (frames two_messages) ++ str "a"]) w' /\
    processed (trace w') = two_messages /\ unread_of w' = str "a" /\ reading w'.
Proof.
  apply (receive_frames (ready true) _ two_messages (str "a"));
    [apply ready_inv|by apply list_elem_of_singleton|reflexivity|reflexivity|..].
  - repeat constructor.
  - left. unfold header_size. simpl. lia.
Defined.

Definition zero_frame : bytes := to_little header_size 0 ++ str "left".

Lemma receive_zero_length_witness :
  exists w', on_read success (frames two_messages ++ zero_frame) (ready true) = Ok tt w' /\
    processed (trace w') = [] ++ two_messages /\
    shutting_down_ (conn w') = true /\ queue_ (message_queue_ (conn w')) = [] /\
    pending w' = [AsyncReadSome true on_read_h] ++ [AsyncShutdown].
Proof.
  apply (receive_zero_length (ready true) _ two_messages zero_frame);
    [apply ready_inv|repeat split|reflexivity|reflexivity|repeat constructor|].
  split; [unfold header_size; simpl; lia|reflexivity].
Defined.

(** ** Every order of completions *)

(** The pending writes and reads. *)
Definition is_write (op : operation) : bool :=
  match op with AsyncWrite _ _ => true | _ => false end.
Definition is_read (op : operation) : bool :=
  match op with AsyncReadSome _ _ => true | _ => false end.

Lemma filter_length_le {A} (f g : A -> bool) l :
  (forall x, f x = true -> g x = true) ->
  (length (filter (fun x => f x) l) <= length (filter (fun x => g x) l))%nat.
Proof.
  intros Hfg. induction l as [|x l IH]; [done|]. rewrite !filter_cons.
  specialize (Hfg x). destruct (f x), (g x); simpl; try lia.
Qed.

Section orders.
Context `{AsioErrors}.

(** Every handler preserves the invariant of the connection, whatever its operation
    completes with and in whatever order operations complete, messages are sent and
    posted tasks run; no handler faults, except the one of a successful TLS handshake
    when there is no handshake message. *)
Theorem step_preserves_inv l w :
  inv w -> enabled l w ->
  match fire l w with
  | Ok _ w' => inv w'
  | Err e => e = NullDereference /\ message_outbound_ (conn w) = None /\
             exists role ec, l = HandshakeDone role ec /\ failed ec = false
  | Fuel => False
  end.
Proof. intros Hinv Hen. exact (fire_inv l w Hinv Hen). Qed.

(** C13: at most one write and one read are on their way at any time, from [run] on and in
    whatever order operations complete, messages are sent and posted tasks run; a write only
    while [is_writing_] is set, and until it completes its two buffers hold the frame they
    held when it started; while no write is on its way nothing is queued for it. The
    constructor leaves no handshake message; the same holds past the handshake of a
    connection that was given one. *)
Theorem one_operation_at_a_time handshake w ls w' :
  begins handshake w -> steps w ls w' ->
  (length (filter (fun op => is_write op) (pending w')) <= 1)%nat /\
  (length (filter (fun op => is_read op) (pending w')) <= 1)%nat /\
  (is_writing_ (conn w') = false ->
     filter (fun op => is_write op) (pending w') = [] /\ queue_ (message_queue_ (conn w')) = []) /\
  (forall ssl h, AsyncWrite ssl h ∈ pending w' ->
     exists d, message_outbound_ (conn w') = Some d /\
       out_message_len_le_ (conn w') ++ d = frame d /\
       last (writes (trace w')) = Some (frame d)).
Proof.
  intros Hrun Hsteps.
  pose proof (steps_inv w ls w' Hsteps (begins_inv _ _ Hrun)) as [Hw Hr _ Hidle _ Hbuf _].
  assert (length (filter (fun op => is_write op) (pending w')) <= writers (pending w'))%nat.
  { apply filter_length_le. by intros []. }
  assert (length (filter (fun op => is_read op) (pending w')) <= readers (pending w'))%nat.
  { apply filter_length_le. by intros [| | |]. }
  split_and!.
  - destruct (is_writing_ (conn w')); lia.
  - lia.
  - intros Hwr. rewrite Hwr in Hw. split; [|auto]. apply nil_length_inv. lia.
  - intros ssl h Hin. destruct (Hbuf ssl h Hin) as (d & Hm & Hlast & Hl). exists d.
    rewrite Hl in *. by split_and!.
Qed.


(** C15: from one end to the other. A connection past its TLS handshake, with nothing
    waiting to be written, sends messages; when no write was canceled and nothing is left to
    write, a receiver that reads, and to which the bytes written since arrive in any chunks,
    hands on the payloads sent, in order, each once and whole. The messages are of one byte or
    more and less than 4 GiB: of others the header is no size the receiver can use
    ([frame_header_value], [receive_zero_length]). *)
Theorem end_to_end w ls w' ws v chunks :
  reached_uncanceled w -> past_handshake w -> queue_ (message_queue_ (conn w)) = [] -> posted w = [] ->
  steps w ls w' -> Forall uncanceled ls -> is_up w' ->
  writers (pending w') = 0%nat -> posted w' = [] -> Forall sendable (sent ls) ->
  writes (trace w') = writes (trace w) ++ ws ->
  reached v -> reading v -> unread_of v = [] -> concat chunks = concat ws ->
  exists v', steps v (ReadDone (safe_link_ (conn v)) on_read_h success <$> chunks) v' /\
    processed (trace v') = processed (trace v) ++ sent ls /\ unread_of v' = [].
Proof.
  intros [Hinv Hb]%reached_busy Hpast Hq Hpo Hsteps Hls Hup Hnone Hpost Hsend Hws
    Hv%reached_inv Hread Hun Hchunks.
  destruct (past_steps w ls w' Hsteps Hpast) as [_ Hno].
  destruct (all_written w ls w' Hinv Hb Hsteps Hno Hls Hup Hnone Hpost) as [_ Heq].
  assert (ws = frame <$> sent ls) as ->.
  { rewrite Hws in Heq. unfold outgoing, queued in Heq. rewrite Hq, Hpo in Heq. simpl in Heq.
    rewrite app_nil_r in Heq. by apply app_inv_head in Heq. }
  assert (concat chunks = frames (sent ls) ++ []) as Hc.
  { by rewrite Hchunks, app_nil_r, concat_frames. }
  destruct (receive_stream v chunks (sent ls) [] (inv_length _ _ _ Hv) Hread) as
    (v' & ? & ? & ? & _); try done.
  - rewrite Hun. apply incomplete_nil.
  - by rewrite Hun.
  - apply incomplete_nil.
  - by exists v'.
Qed.
End orders.

(** ** Runs of an established connection *)

(** Two messages are sent; the second is queued while the first is written. *)
Definition sample_labels : list label :=
  [Send (Some (str "ab")); Posted; Send (Some (str "c")); Posted;
   WriteDone true on_write_message_h success; WriteDone true on_write_message_h success].

Definition run_labels (ls : list label) (w : world) : option world :=
  foldl (fun o l =>
    match o with
    | Some w => if decide (enabled l w) then match fire l w with Ok _ w' => Some w' | _ => None end
                else None
    | None => None
    end) (Some w) ls.

Lemma foldl_none (ls : list label) :
  foldl (fun o l =>
    match o with
    | Some w => if decide (enabled l w) then match fire l w with Ok _ w' => Some w' | _ => None end
                else None
    | None => None
    end) None ls = None.
Proof. induction ls; simpl; auto. Qed.

(** Running a list of labels is going through its steps. *)
Lemma run_labels_steps ls w w' : run_labels ls w = Some w' -> steps w ls w'.
Proof.
  unfold run_labels. revert w. induction ls as [|l ls IH]; intros w; simpl.
  - intros [= ->]. constructor.
  - case_decide as Hen; [|by rewrite foldl_none].
    destruct (fire l w) as [[] w1|e|] eqn:Hf; [|by rewrite foldl_none..].
    intros Hr. by eapply steps_cons; [..|apply IH].
Qed.



Lemma step_preserves_inv_witness :
  match fire (Send (Some (str "ab"))) (ready true) with
  | Ok _ w' => inv w'
  | Err e => e = NullDereference /\ message_outbound_ (conn (ready true)) = None /\
             exists role ec, Send (Some (str "ab")) = HandshakeDone role ec /\ failed ec = false
  | Fuel => False
  end.
Proof. apply (step_preserves_inv (Send (Some (str "ab"))) (ready true)); [apply ready_inv|exact I]. Defined.

(** A connection that is given a handshake message, from [run] to the end of its handshakes. *)
Definition greeting : Message := Some (str "hello").

Definition begun : world := Eval vm_compute in
  match run server true (construct_with greeting false (to_little header_size 0)) with
  | Ok _ w => w
  | _ => ready true
  end.

Definition handshakes : list label :=
  [HandshakeDone server success; WriteDone true on_ian_handshake_sent_h success;
   ReadDone true on_ian_handshake_h success (frame (str "hello"))].

Definition connected : world := Eval vm_compute in default begun (run_labels handshakes begun).
Definition connected_end : world := Eval vm_compute in
  default connected (run_labels sample_labels connected).

Lemma begun_begins : begins greeting begun.
Proof. by exists server, false, true, (to_little header_size 0). Qed.

Lemma connected_steps : steps begun handshakes connected.
Proof. apply run_labels_steps. vm_compute. reflexivity. Qed.

Lemma connected_sends : steps connected sample_labels connected_end.
Proof. apply run_labels_steps. vm_compute. reflexivity. Qed.

Lemma one_operation_at_a_time_witness :
  (length (filter (fun op => is_write op) (pending connected)) <= 1)%nat /\
  (length (filter (fun op => is_read op) (pending connected)) <= 1)%nat.
Proof.
  destruct (one_operation_at_a_time greeting begun handshakes connected) as (Hw & Hr & _);
    [exact begun_begins|exact connected_steps|]. by split.
Defined.


Lemma sample_uncanceled : Forall uncanceled sample_labels.
Proof. by repeat constructor. Qed.


Lemma end_to_end_witness :
  exists v',
    steps connected (ReadDone true on_read_h success <$>
      [take 5 (frames [str "ab"; str "c"]); drop 5 (frames [str "ab"; str "c"])]) v' /\
    processed (trace v') = [str "ab"; str "c"] /\ unread_of v' = [].
Proof.
  apply (end_to_end connected sample_labels connected_end [frame (str "ab"); frame (str "c")] connected).
  - exists greeting, begun, handshakes. split_and!; [exact begun_begins|exact connected_steps|].
    by repeat constructor.
  - intros role Hin. by apply list_elem_of_singleton in Hin.
  - reflexivity.
  - reflexivity.
  - exact connected_sends.
  - exact sample_uncanceled.
  - by repeat split.
  - reflexivity.
  - reflexivity.
  - repeat constructor.
  - reflexivity.
  - exists greeting, begun, handshakes. split; [exact begun_begins|exact connected_steps].
  - by apply list_elem_of_singleton.
  - reflexivity.
  - vm_compute. reflexivity.
Defined.

(** ** The beginning and the end *)

(** A connection over an open socket, before [run]. *)
Definition created (safe_link : bool) : world :=
  mkWorld (new_connection safe_link (to_little header_size 0)) true [] [] [].

Section ends.
Context `{AsioErrors}.

(** No connection gets past its TLS handshake. From [run] on, whatever is sent and
    completes, nothing is written and no message is received: the handler of a successful
    TLS handshake takes the size of a handshake message that was never made, through a
    null pointer. *)
Theorem handshake_faults safe0 role safe_link w0 ls w :
  run role safe_link (created safe0) = Ok tt w0 -> steps w0 ls w ->
  writes (trace w) = [] /\ processed (trace w) = [] /\
  (forall role' ec, failed ec = false -> enabled (HandshakeDone role' ec) w ->
     fire (HandshakeDone role' ec) w = Err NullDereference).
Proof.
  intros Hrun Hsteps. assert (waiting w) as Hw by (eapply waiting_steps; [exact Hsteps|by eapply run_waiting]).
  pose proof Hw as (_ & _ & _ & Hwr & Hp). split_and!; [done..|]. intros. by apply waiting_faults.
Qed.

(** C17: no message is written once a connection is aborted or shut down: from then on it
    stays dropped or shutting down, in whatever order the pending operations complete and
    messages are sent. The one write that can still start is that of the handshake message,
    when the TLS handshake was pending at the end and there was such a message: the handler
    of the handshake asks for neither flag. There is none in the source, and then nothing is
    written. *)
Theorem silent_after_end handshake w0 ls w w1 ls' w' :
  begins handshake w0 -> steps w0 ls w -> is_up w -> (abort w = Ok tt w1 \/ shutdown w = Ok tt w1) ->
  steps w1 ls' w' ->
  (dropped_ (conn w') || shutting_down_ (conn w')) = true /\
  (writes (trace w') = writes (trace w) \/
   exists role d, AsyncHandshake role ∈ pending w /\ message_outbound_ (conn w) = Some d /\
     writes (trace w') = writes (trace w) ++ [frame d]).
Proof.
  intros Hrun Hsteps (Hd & Hs & Ho) Hend Hsteps'.
  pose proof (steps_inv w0 ls w Hsteps (begins_inv _ _ Hrun)) as Hinv.
  assert (mute (writes (trace w)) w1 /\
          held (exists role, AsyncHandshake role ∈ pending w) (message_outbound_ (conn w)) w1)
    as [Hm Hh].
  { clear -Hd Hs Ho Hend. destruct w as [[dr sh wr sf dg q mo ol il rb] so po pe tr]. simpl in *. subst.
    destruct Hend as [Hend|Hend]; [|destruct dg]; injection Hend as <-;
      (split; [split; [done|]; simpl; by rewrite !writes_app, !app_nil_r|]);
      intros role Hin; simpl in *; split; try done; exists role; simpl; try done.
    by apply elem_of_app in Hin as [Hin|Hin%list_elem_of_singleton]. }
  assert (inv w1) as Hinv1.
  { destruct Hend as [Hend|Hend].
    - pose proof (keeps_abort 0 0 w Hinv) as Hk. unfold wp in Hk. by rewrite Hend in Hk.
    - pose proof (keeps_shutdown 0 0 w Hinv) as Hk. unfold wp in Hk. by rewrite Hend in Hk. }
  destruct (silent_steps _ _ _ w1 ls' w' Hsteps' Hinv1 Hm Hh) as [[Hc _] Hw]. split; [done|].
  destruct Hw as [Hw|([role Hin] & d & Ho' & Hw)]; [by left|right]. by exists role, d.
Qed.

(** What an error of a read or a write does to a connection that is up. A connection
    that was reset is dropped at once, its socket closed; the error of an operation that
    our own TLS shutdown canceled changes nothing; any other error starts the TLS
    shutdown. In the first and the last case the queue is emptied. *)
Theorem error_outcome ec w :
  is_up w -> downgraded_ (conn w) = false ->
  exists w', handle_read_error ec w = Ok tt w' /\ handle_write_error ec w = Ok tt w' /\
    if is_connection_reset_error ec then
      dropped_ (conn w') = true /\ socket_open w' = false /\
      queue_ (message_queue_ (conn w')) = [] /\ pending w' = pending w
    else if is_connection_canceled_error ec then w' = w
    else
      shutting_down_ (conn w') = true /\ dropped_ (conn w') = false /\
      queue_ (message_queue_ (conn w')) = [] /\ pending w' = pending w ++ [AsyncShutdown].
Proof.
  intros (Hd & Hs & Ho) Hdg.
  destruct w as [[dr sh wr sf dg q mo ol il rb] so po pe tr]. simpl in *. subst.
  unfold handle_write_error, handle_read_error, mbind, M_bind, field, gets. simpl.
  destruct (is_connection_reset_error ec); [|destruct (is_connection_canceled_error ec)];
    eexists; by split_and!.
Qed.

(** The handshake of the peer, and what comes with it. *)
Lemma on_ian_handshake_frame w d y :
  unread_of w = [] -> sendable d ->
  on_ian_handshake success (frame d ++ y) w =
  check_handshake (received (Z.of_nat (length d)) (d ++ y) [] w).
Proof.
  intros [Hlen Hbuf]%unread_nil Hsend. pose proof Hsend as Hsend'. unfold sendable in Hsend'.
  pose proof (header_frame d y Hsend) as Hh.
  assert (drop header_size (frame d ++ y) = d ++ y) as Hdrop.
  { unfold frame. rewrite <- app_assoc, drop_app_length'; [done|].
    by rewrite length_to_little. }
  assert (header_size <= length (frame d ++ y))%nat as Hl
    by (rewrite length_app, length_frame; lia).
  revert Hh Hdrop Hl. generalize (frame d ++ y). intros z Hh Hdrop Hl.
  destruct w as [[dr sh wr sf dg q mo ol il rb] so po pe tr]. simpl in *. subst.
  unfold on_ian_handshake. change (failed success) with false.
  unfold commit, mbind, M_bind, field, gets, set_read_buffer, update, modify. simpl.
  rewrite decide_False by lia.
  unfold extract_length, consume, mbind, M_bind, field, gets, set_read_buffer, update, modify.
  simpl. unfold header in Hh. unfold header_size in *. simpl in *.
  rewrite Hh, Hdrop. rewrite decide_False by lia.
  unfold received. simpl. by rewrite app_nil_r.
Qed.

(** The peer's handshake is accepted only when it arrives alone. A connection that
    waits for it, on receiving exactly its frame, starts reading and writes the first
    queued message or becomes idle; on receiving anything more in the same chunk, even
    the next message of the peer, it shuts down. *)
Theorem handshake_arrives_alone w d x :
  is_up w -> downgraded_ (conn w) = false -> (exists ds, holds (message_queue_ (conn w)) ds) ->
  unread_of w = [] -> sendable d ->
  (exists w', on_ian_handshake success (frame d) w = Ok tt w' /\
     is_up w' /\ reading w' /\ unread_of w' = []) /\
  (x <> [] -> exists w', on_ian_handshake success (frame d ++ x) w = Ok tt w' /\
     shutting_down_ (conn w') = true /\ pending w' = pending w ++ [AsyncShutdown]).
Proof.
  intros (Hd & Hs & Ho) Hdg [ds Hq] Hun Hsend.
  pose proof (fun y => on_ian_handshake_frame w d y Hun Hsend) as Hcheck.
  apply unread_nil in Hun as [Hlen Hbuf].
  pose proof Hsend as Hsend'. unfold sendable in Hsend'.
  assert (exists ds', holds (message_queue_ (conn w)) ds') as Hq' by eauto.
  split.
  - specialize (Hcheck []). rewrite !app_nil_r in Hcheck. rewrite Hcheck.
    destruct w as [[dr sh wr sf dg q mo ol il rb] so po pe tr]. simpl in *. subst.
    unfold check_handshake, mbind, M_bind, field, gets. simpl.
    rewrite decide_False, decide_False by lia.
    unfold consume, mbind, M_bind, field, gets. simpl. rewrite Nat2Z.id, drop_all.
    unfold write_next, mbind, M_bind, on_queue. simpl.
    pose proof (try_pop_holds q ds Hq) as Hpop. destruct ds as [|m ds].
    + rewrite Hpop. simpl. eexists. split_and!; [done..| |done].
      unfold reading. simpl. apply elem_of_app. right. by left.
    + destruct Hpop as (q' & -> & _). simpl. eexists. split_and!; [done..| |done].
      unfold reading. simpl. rewrite !elem_of_app. left. right. by left.
  - intros Hx. rewrite Hcheck.
    destruct w as [[dr sh wr sf dg q mo ol il rb] so po pe tr]. simpl in *. subst.
    unfold check_handshake, mbind, M_bind, field, gets. simpl.
    assert (0 < length x)%nat by (destruct x; simpl; [done|lia]).
    rewrite decide_False, decide_True by (rewrite length_app; lia).
    eexists. by split_and!.
Qed.
End ends.

(** [run] on a new connection. *)
Definition started : world :=
  mkWorld (mkClusterConnection false false true true false new_queue None
             (to_little header_size 0) 0 []) true []
    [AsyncHandshake server] [SetVerifyPeer; Started (AsyncHandshake server)].

Lemma handshake_faults_witness :
  fire (HandshakeDone server success) started = Err NullDereference.
Proof.
  apply (handshake_faults false server true started [] started);
    [reflexivity|constructor|reflexivity|by apply list_elem_of_singleton].
Defined.

(** Shut down during its TLS handshake, which then completes; and after its handshakes. *)
Definition shut_down_early : world := Eval vm_compute in
  match shutdown begun with Ok _ w => w | _ => begun end.
Definition shut_down_greeted : world := Eval vm_compute in
  default shut_down_early (run_labels [HandshakeDone server success] shut_down_early).
Definition shut_down : world := Eval vm_compute in
  match shutdown connected with Ok _ w => w | _ => connected end.

Lemma silent_after_end_witness :
  (dropped_ (conn shut_down_greeted) || shutting_down_ (conn shut_down_greeted)) = true /\
  writes (trace shut_down) = writes (trace connected).
Proof.
  split.
  - apply (silent_after_end greeting begun [] begun shut_down_early [HandshakeDone server success]);
      [exact begun_begins|constructor|by repeat split|right; reflexivity|].
    apply run_labels_steps. vm_compute. reflexivity.
  - destruct (silent_after_end greeting begun handshakes connected shut_down [] shut_down)
      as [_ [Hw|(role & d & Hin & _)]];
      [exact begun_begins|exact connected_steps|by repeat split|right; reflexivity|constructor|exact Hw|].
    by apply list_elem_of_singleton in Hin.
Defined.

Definition reset_error : error_code := mkErrorCode system_category 104.

Lemma error_outcome_witness :
  exists w', handle_read_error reset_error (ready true) = Ok tt w' /\
    handle_write_error reset_error (ready true) = Ok tt w' /\
    dropped_ (conn w') = true /\ socket_open w' = false /\
    queue_ (message_queue_ (conn w')) = [] /\ pending w' = pending (ready true).
Proof. exact (error_outcome reset_error (ready true) ltac:(repeat split) eq_refl). Defined.

(** Waiting for the handshake, with one message queued. *)
Definition awaiting : world :=
  mkWorld (mkClusterConnection false false true true false
             (mkMessageQueue [Some (str "m")] 1) None (to_little header_size 0) 0 []) true [] [] [].

Lemma handshake_arrives_alone_witness :
  (exists w', on_ian_handshake success (frame (str "hi")) awaiting = Ok tt w' /\
     is_up w' /\ reading w' /\ unread_of w' = []) /\
  (frame (str "next") <> [] ->
   exists w', on_ian_handshake success (frame (str "hi") ++ frame (str "next")) awaiting = Ok tt w' /\
     shutting_down_ (conn w') = true /\ pending w' = pending awaiting ++ [AsyncShutdown]).
Proof.
  apply (handshake_arrives_alone awaiting (str "hi") (frame (str "next")));
    [repeat split|reflexivity|exists [str "m"]; by split|reflexivity|unfold sendable; simpl; lia].
Defined.
