(* ===== verification/WsConnection.v ===== *)
(** * A connection to a browser

    [server/front/src/ws/WsConnection.cpp], [WsConnection.hpp]: TLS, an HTTP request,
    then a WebSocket, with a rate limiter on what the client sends and timeouts. Modelled
    as [ClusterConnection] is: the fields of the object, the operations it has started and
    the trace of what it did, with the clock and the count of connections it shares with
    the others ([server/front/src/FrontGlobals.cpp]). *)
From S2P Require Import Prelude Message MessageQueue ErrorCode.

(** ** Configuration

    The values of [FrontGlobals.cpp] the connection reads, each an [int] or a [bool]. *)
Class FrontConfig := {
  connection_limit_soft : Z;
  connection_limit_hard : Z;
  message_max_size : Z;
  rate_limit_messages : Z;
  rate_limit_bytes : Z;
  ws_message_auto_fragment : bool;
  ws_setup_timeout : Z;
  ws_timeout : Z;
}.

(** The defaults. *)
Definition default_config : FrontConfig := {|
  connection_limit_soft := 1000;
  connection_limit_hard := 1050;
  message_max_size := 0x4000;
  rate_limit_messages := 100;
  rate_limit_bytes := 0x8000;
  ws_message_auto_fragment := true;
  ws_setup_timeout := 3;
  ws_timeout := 30;
|}.

(** Times are nanoseconds of the steady clock. *)
Definition seconds (n : Z) : Z := n * 1000000000.
#[global] Arguments seconds : simpl never.

(** [int] addition. *)
Definition int_add {S} (a b : Z) : M fault S Z :=
  if decide (- 2 ^ 31 <= a + b <= int_max) then mret (a + b) else throw IntOverflow.

(** ** The object *)
Inductive timer := timer_ | state_timer_.

#[export] Instance timer_eq_dec : EqDecision timer.
Proof. solve_decision. Defined.

Record WsConnection := mkWsConnection {
  dropped_ : bool;
  shutting_down_ : bool;
  is_writing_ : bool;
  message_queue_ : MessageQueue;
  message_outbound_ : Message;
  (** the readable bytes of the [flat_buffer] *)
  read_buffer_ : bytes;
  rate_limit_start_ : Z;
  (** [int] *)
  rate_limit_messages_ : Z;
  (** [size_t] *)
  rate_limit_bytes_ : Z;
}.

(** The constructor, at time [now]. *)
Definition new_connection (now : Z) : WsConnection :=
  mkWsConnection false false false new_queue Message_empty [] now 0 0.

Inductive operation :=
| AsyncHandshake
| AsyncReadRequest
| AsyncAccept
| AsyncRead
| AsyncWrite
| AsyncWait (t : timer)
| AsyncShutdown.

#[export] Instance operation_eq_dec : EqDecision operation.
Proof. solve_decision. Defined.

Inductive event :=
| Started (op : operation)
| TimerCanceled (t : timer)
| SocketClosed
(** the bytes the buffer of a write holds when it starts *)
| WriteStarted (payload : bytes)
(** a response with this status, written synchronously *)
| HttpResponse (status : Z) (body : bytes)
(** [binary(true)], [auto_fragment] and [read_message_max] *)
| StreamConfigured (auto_fragment : bool) (max : Z)
| Processed (payload : bytes).

Record world := mkWorld {
  conn : WsConnection;
  socket_open : bool;
  posted : list Message;
  pending : list operation;
  trace : list event;
  (** when [timer_] and [state_timer_] expire *)
  expiry : Z;
  state_expiry : Z;
  (** the clock *)
  now : Z;
  (** [front::active_connection_count] *)
  active_connection_count : Z;
}.

Abbreviation C := (M fault world).

Definition field {A} (f : WsConnection -> A) : C A := gets (fun w => f (conn w)).

Definition update (f : WsConnection -> WsConnection) : C unit := modify (fun w =>
  mkWorld (f (conn w)) (socket_open w) (posted w) (pending w) (trace w) (expiry w)
    (state_expiry w) (now w) (active_connection_count w)).

Definition set_dropped b := update (fun c => mkWsConnection b (shutting_down_ c) (is_writing_ c)
  (message_queue_ c) (message_outbound_ c) (read_buffer_ c) (rate_limit_start_ c)
  (rate_limit_messages_ c) (rate_limit_bytes_ c)).
Definition set_shutting_down b := update (fun c => mkWsConnection (dropped_ c) b (is_writing_ c)
  (message_queue_ c) (message_outbound_ c) (read_buffer_ c) (rate_limit_start_ c)
  (rate_limit_messages_ c) (rate_limit_bytes_ c)).
Definition set_is_writing b := update (fun c => mkWsConnection (dropped_ c) (shutting_down_ c) b
  (message_queue_ c) (message_outbound_ c) (read_buffer_ c) (rate_limit_start_ c)
  (rate_limit_messages_ c) (rate_limit_bytes_ c)).
Definition set_message_queue q := update (fun c => mkWsConnection (dropped_ c)
  (shutting_down_ c) (is_writing_ c) q (message_outbound_ c) (read_buffer_ c)
  (rate_limit_start_ c) (rate_limit_messages_ c) (rate_limit_bytes_ c)).
Definition set_message_outbound m := update (fun c => mkWsConnection (dropped_ c)
  (shutting_down_ c) (is_writing_ c) (message_queue_ c) m (read_buffer_ c)
  (rate_limit_start_ c) (rate_limit_messages_ c) (rate_limit_bytes_ c)).
Definition set_read_buffer b := update (fun c => mkWsConnection (dropped_ c)
  (shutting_down_ c) (is_writing_ c) (message_queue_ c) (message_outbound_ c) b
  (rate_limit_start_ c) (rate_limit_messages_ c) (rate_limit_bytes_ c)).
Definition set_rate_limit start messages n := update (fun c => mkWsConnection (dropped_ c)
  (shutting_down_ c) (is_writing_ c) (message_queue_ c) (message_outbound_ c) (read_buffer_ c)
  start messages n).

Definition emit (e : event) : C unit := modify (fun w =>
  mkWorld (conn w) (socket_open w) (posted w) (pending w) (trace w ++ [e]) (expiry w)
    (state_expiry w) (now w) (active_connection_count w)).

Definition start (op : operation) : C unit := modify (fun w =>
  mkWorld (conn w) (socket_open w) (posted w) (pending w ++ [op]) (trace w ++ [Started op])
    (expiry w) (state_expiry w) (now w) (active_connection_count w)).

Definition close_socket : C unit := modify (fun w =>
  mkWorld (conn w) false (posted w) (pending w) (trace w ++ [SocketClosed]) (expiry w)
    (state_expiry w) (now w) (active_connection_count w)).

(** [t.expires_from_now(delay)] *)
Definition expires_from_now (t : timer) (delay : Z) : C unit := modify (fun w =>
  mkWorld (conn w) (socket_open w) (posted w) (pending w) (trace w)
    (if decide (t = timer_) then now w + delay else expiry w)
    (if decide (t = timer_) then state_expiry w else now w + delay)
    (now w) (active_connection_count w)).

Definition on_queue {A} (m : M fault MessageQueue A) : C A := fun w =>
  match m (message_queue_ (conn w)) with
  | Ok a q =>
      match set_message_queue q w with Ok _ w' => Ok a w' | Err e => Err e | Fuel => Fuel end
  | Err e => Err e
  | Fuel => Fuel
  end.

(** [if (b) return; k] *)
Definition return_if (b : bool) (k : C unit) : C unit := if b then mret tt else k.

Section connection.
Context `{AsioErrors} `{FrontConfig}.

(** ** Ending a connection *)

Definition abort : C unit :=
  dropped ← field dropped_;
  return_if dropped (
    emit (TimerCanceled timer_);;
    emit (TimerCanceled state_timer_);;
    on_queue (modify clear);;
    close_socket;;
    set_dropped true).

Definition shutdown : C unit :=
  dropped ← field dropped_;
  shutting_down ← field shutting_down_;
  return_if (dropped || shutting_down) (
    emit (TimerCanceled timer_);;
    emit (TimerCanceled state_timer_);;
    on_queue (modify clear);;
    is_open ← gets socket_open;
    return_if (negb is_open) (
      start AsyncShutdown;;
      set_shutting_down true)).

Definition on_shutdown (ec : error_code) : C unit :=
  dropped ← field dropped_;
  return_if dropped (
    close_socket;;
    set_dropped true).

Definition handle_read_error (ec : error_code) : C unit :=
  dropped ← field dropped_;
  return_if dropped (
    if is_connection_reset_error ec then abort
    else return_if (is_connection_canceled_error ec) shutdown).

Definition handle_write_error (ec : error_code) : C unit :=
  dropped ← field dropped_;
  return_if dropped (
    if is_connection_reset_error ec then abort
    else return_if (is_connection_canceled_error ec) shutdown).

(** ** Timeouts *)

Definition set_timeout (delay : Z) : C unit :=
  emit (TimerCanceled timer_);;
  expires_from_now timer_ delay;;
  start (AsyncWait timer_).

Definition set_state_timeout (delay : Z) : C unit :=
  emit (TimerCanceled state_timer_);;
  expires_from_now state_timer_ delay;;
  start (AsyncWait state_timer_).

Definition cancel_state_timeout : C unit := emit (TimerCanceled state_timer_).

(** Of both timers. *)
Definition on_timeout (ec : error_code) : C unit :=
  dropped ← field dropped_;
  return_if (dropped || bool_decide (ec = operation_aborted)) abort.

(** [if (timer_.expires_from_now() <= seconds(ws_timeout)) set_timeout(...)] *)
Definition refresh_timeout : C unit :=
  left ← gets (fun w => expiry w - now w);
  if decide (left <= seconds ws_timeout) then
    delay ← int_add ws_timeout 5;
    set_timeout (seconds delay)
  else mret tt.

(** ** The rate limiter *)

(** [rate_limit_messages_++; rate_limit_bytes_ += n] *)
Definition count_inbound (n : Z) : C unit :=
  start_ ← field rate_limit_start_;
  messages ← field rate_limit_messages_;
  total ← field rate_limit_bytes_;
  messages ← int_add messages 1;
  set_rate_limit start_ messages (uint64 (total + n)).

(** [true] when the connection was aborted. *)
Definition check_rate_limit : C bool :=
  messages ← field rate_limit_messages_;
  total ← field rate_limit_bytes_;
  if decide (rate_limit_messages < messages \/ uint64 rate_limit_bytes < total) then
    time ← gets now;
    start_ ← field rate_limit_start_;
    if decide (seconds 1 < time - start_) then
      set_rate_limit time 0 0;;
      mret false
    else
      abort;;
      mret true
  else mret false.

(** ** Writing *)

Definition do_write_message (message : Message) : C unit :=
  set_message_outbound message;;
  m ← field message_outbound_;
  payload ← data m;
  _ ← size m;
  emit (WriteStarted payload);;
  start AsyncWrite.

(** The task [send_message] posts. *)
Definition send_in_strand (message : Message) : C unit :=
  dropped ← field dropped_;
  shutting_down ← field shutting_down_;
  return_if (dropped || shutting_down) (
    is_writing ← field is_writing_;
    if (is_writing : bool) then on_queue (push message)
    else
      set_is_writing true;;
      do_write_message message).

Definition send_message (message : Message) : C unit :=
  if is_empty message then mret tt
  else modify (fun w => mkWorld (conn w) (socket_open w) (posted w ++ [message]) (pending w)
                 (trace w) (expiry w) (state_expiry w) (now w) (active_connection_count w)).

Definition on_write_message (ec : error_code) : C unit :=
  set_message_outbound Message_empty;;
  if failed ec then handle_write_error ec
  else
    m ← on_queue try_pop;
    match m with
    | Some message => do_write_message message
    | None => set_is_writing false
    end.

(** ** Reading *)

Definition process_message (payload : bytes) : C unit := emit (Processed payload).

(** [read_buffer_.consume(buffer_copy(buf, read_buffer_.data()))] into [readlen] bytes,
    those past the data being zero. *)
Definition consume (readlen : nat) : C bytes :=
  b ← field read_buffer_;
  set_read_buffer (drop readlen b);;
  mret (take readlen b ++ replicate (readlen - length b) NUL).

Definition on_read (ec : error_code) (readlen : nat) (got_binary : bool) : C unit :=
  if failed ec then handle_read_error ec
  else
    count_inbound (Z.of_nat readlen);;
    killed ← check_rate_limit;
    return_if killed (
      if got_binary then
        buf ← consume readlen;
        start AsyncRead;;
        refresh_timeout;;
        process_message buf
      else shutdown).

Inductive frame_type := ping | pong | close.

Definition on_control_frame (type : frame_type) (data_length : Z) : C unit :=
  count_inbound data_length;;
  killed ← check_rate_limit;
  return_if killed (
    refresh_timeout;;
    match type with
    | ping | pong => mret tt
    | close => shutdown
    end).

(** ** Handshakes *)

Definition run : C unit :=
  is_open ← gets socket_open;
  return_if (negb is_open) (
    set_timeout (seconds ws_setup_timeout);;
    start AsyncHandshake).

Definition on_ssl_handshake (ec : error_code) : C unit :=
  if failed ec then abort else start AsyncReadRequest.

Definition on_read_request (ec : error_code) (is_upgrade : bool) : C unit :=
  if failed ec then handle_read_error ec
  else
    b ← field read_buffer_;
    (if decide (0 < length b)%nat then set_read_buffer [] else mret tt);;
    count ← gets active_connection_count;
    if decide (connection_limit_soft < count) then
      emit (HttpResponse 503 (str "Overloaded"));;
      shutdown
    else if is_upgrade then start AsyncAccept
    else
      emit (HttpResponse 501 (str "Not implemented"));;
      shutdown.

Definition on_ws_handshake (ec : error_code) : C unit :=
  dropped ← field dropped_;
  return_if dropped (
    if failed ec then shutdown
    else
      emit (StreamConfigured ws_message_auto_fragment message_max_size);;
      delay ← int_add ws_timeout 5;
      set_timeout (seconds delay);;
      start AsyncRead).

(** ** What the environment does

    The bytes a read leaves in [read_buffer_] are in it before its handler runs. *)
Inductive label :=
| Send (message : Message)
| Posted
| HandshakeDone (ec : error_code)
| RequestDone (ec : error_code) (extra : bytes) (is_upgrade : bool)
| AcceptDone (ec : error_code)
| ReadDone (ec : error_code) (received : bytes) (got_binary : bool)
| WriteDone (ec : error_code)
| WaitDone (t : timer) (ec : error_code)
| ShutdownDone (ec : error_code)
(** time passes, and other connections come and go *)
| Elsewhere (time count : Z).

(** What a connection does itself. *)
Definition own (l : label) : bool :=
  match l with Elsewhere _ _ => false | _ => true end.

Definition completes (l : label) : option operation :=
  match l with
  | HandshakeDone _ => Some AsyncHandshake
  | RequestDone _ _ _ => Some AsyncReadRequest
  | AcceptDone _ => Some AsyncAccept
  | ReadDone _ _ _ => Some AsyncRead
  | WriteDone _ => Some AsyncWrite
  | WaitDone t _ => Some (AsyncWait t)
  | ShutdownDone _ => Some AsyncShutdown
  | _ => None
  end.

Definition arrive (received : bytes) : C unit :=
  b ← field read_buffer_;
  set_read_buffer (b ++ received).

Definition handler (l : label) : C unit :=
  match l with
  | Send m => send_message m
  | Posted =>
      l ← gets posted;
      match l with
      | [] => mret tt
      | m :: l' =>
          modify (fun w => mkWorld (conn w) (socket_open w) l' (pending w) (trace w) (expiry w)
                             (state_expiry w) (now w) (active_connection_count w));;
          send_in_strand m
      end
  | HandshakeDone ec => on_ssl_handshake ec
  | RequestDone ec extra is_upgrade => arrive extra;; on_read_request ec is_upgrade
  | AcceptDone ec => on_ws_handshake ec
  | ReadDone ec received got_binary =>
      arrive received;; on_read ec (length received) got_binary
  | WriteDone ec => on_write_message ec
  | WaitDone _ ec => on_timeout ec
  | ShutdownDone ec => on_shutdown ec
  | Elsewhere time count =>
      modify (fun w => mkWorld (conn w) (socket_open w) (posted w) (pending w) (trace w)
                         (expiry w) (state_expiry w) (now w `max` time) count)
  end.

Definition enabled (l : label) (w : world) : Prop :=
  match completes l with Some op => op ∈ pending w | None => True end.

#[export] Instance enabled_dec l w : Decision (enabled l w).
Proof. unfold enabled. destruct (completes l); apply _. Defined.

Definition fire (l : label) : C unit :=
  match completes l with
  | Some op => modify (fun w => mkWorld (conn w) (socket_open w) (posted w)
                         (remove_one op (pending w)) (trace w) (expiry w) (state_expiry w)
                         (now w) (active_connection_count w))
  | None => mret tt
  end;;
  handler l.

Inductive steps : world -> list label -> world -> Prop :=
| steps_nil w : steps w [] w
| steps_cons w l w1 ls w2 :
    enabled l w -> fire l w = Ok tt w1 -> steps w1 ls w2 -> steps w (l :: ls) w2.

(** A run with given labels, executed. *)
Fixpoint play (ls : list label) (w : world) : option world :=
  match ls with
  | [] => Some w
  | l :: ls' =>
      if decide (enabled l w) then
        match fire l w with Ok _ w1 => play ls' w1 | _ => None end
      else None
  end.

Lemma play_steps ls w w' : play ls w = Some w' -> steps w ls w'.
Proof.
  revert w. induction ls as [|l ls IH]; simpl; intros w; [intros [= <-]; constructor|].
  case_decide; [|done]. destruct (fire l w) as [[] w1| |] eqn:Hfire; [|done..].
  intros Hrun. by apply (steps_cons w l w1); [..|apply IH].
Qed.
End connection.

(** The constructor, over an open socket, when [count] connections exist: it counts one
    more. *)
Definition construct (time count : Z) : world :=
  mkWorld (new_connection time) true [] [] [] 0 0 time (count + 1).

(** [~WsConnection]: the count of connections afterwards. *)
Definition destroyed (w : world) : Z := active_connection_count w - 1.
