(* ===== verification/WsInvariant.v ===== *)
(** * The invariant of a connection to a browser

    One write at a time, from a buffer that stays as it is, whatever the order of
    completions; the queue is used only while a write is on its way. *)
From S2P Require Import Prelude Message MessageQueue ErrorCode WsConnection.

Definition is_write (op : operation) : bool :=
  match op with AsyncWrite => true | _ => false end.

Definition write_count (l : list operation) : nat :=
  length (filter (fun op => is_write op) l).

(** The payloads of the writes started. *)
Definition writes (t : list event) : list bytes :=
  t ≫= fun e => match e with WriteStarted b => [b] | _ => [] end.

(** The invariant, when the handler that runs stands for [tw] writes. *)
Record inv_with (tw : nat) (w : world) : Prop := {
  inv_writes : (write_count (pending w) + tw <= if is_writing_ (conn w) then 1 else 0)%nat;
  inv_queue : exists ds, holds (message_queue_ (conn w)) ds;
  inv_idle : is_writing_ (conn w) = false -> queue_ (message_queue_ (conn w)) = [];
  inv_posted : Forall (fun m => is_Some m) (posted w);
  inv_buffer : AsyncWrite ∈ pending w ->
    exists d, message_outbound_ (conn w) = Some d /\ last (writes (trace w)) = Some d;
}.

Abbreviation inv := (inv_with 0).

Lemma write_count_app l1 l2 : write_count (l1 ++ l2) = (write_count l1 + write_count l2)%nat.
Proof. unfold write_count. by rewrite filter_app, length_app. Qed.

Lemma write_count_remove op l :
  op ∈ l -> (write_count (remove_one op l) + (if is_write op then 1 else 0) = write_count l)%nat.
Proof. apply (remove_one_count is_write). Qed.

Lemma ws_writes_app t1 t2 : writes (t1 ++ t2) = writes t1 ++ writes t2.
Proof. apply bind_app. Qed.

Create HintDb ws discriminated.

Section invariant.
Context `{AsioErrors} `{FrontConfig}.

(** [m] keeps the invariant, from [tw] to [tw']; only [int] arithmetic may fault. *)
Definition keeps {A} (tw tw' : nat) (m : C A) : Prop :=
  forall w, inv_with tw w ->
  wp m w (fun _ w' => inv_with tw' w') (fun e => e = IntOverflow) False.

Lemma ws_bind {A B} tw tw1 tw2 (m : C A) (k : A -> C B) :
  keeps tw tw1 m -> (forall a, keeps tw1 tw2 (k a)) -> keeps tw tw2 (m ≫= k).
Proof.
  intros Hm Hk w Hw. apply wp_bind. eapply wp_mono; [by apply Hm| |done|done].
  intros a w'. apply Hk.
Qed.

Lemma ws_gets {A} (f : world -> A) tw : keeps tw tw (gets f).
Proof. by intros w Hw. Qed.
Lemma ws_ret {A} (a : A) tw : keeps tw tw (mret a).
Proof. by intros w Hw. Qed.
Lemma ws_return_if b k tw : keeps tw tw k -> keeps tw tw (return_if b k).
Proof. intros Hk. destruct b; [apply ws_ret|done]. Qed.

Lemma ws_end {A} tw (m : C A) : keeps tw tw m -> keeps tw 0 m.
Proof.
  intros Hm w Hw. eapply wp_mono; [by apply Hm| |done|done].
  intros a w' []. constructor; eauto. destruct (is_writing_ (conn w')); lia.
Qed.

Ltac open_world :=
  intros [[dr sh wr q mo rb rs rm rn] so po pe tr0 ex sx nw ct];
  intros [Hw [qs Hq] Hidle Hpost Hbuf]; unfold wp, mbind, M_bind, field, gets; simpl in *.

(** The pending writes and the last payload stay. *)
Ltac same_buffer Hbuf :=
  let Hin := fresh "Hin" in
  intros Hin; rewrite ?elem_of_app, ?list_elem_of_singleton in Hin;
  destruct Hbuf as (d & ? & ?); [naive_solver|]; exists d;
  rewrite ?ws_writes_app, ?app_nil_r; by split.

Ltac finish Hbuf :=
  constructor; simpl; eauto;
  rewrite ?write_count_app; try (change (write_count [_]) with 0%nat; lia);
  try (by exists []); try done; same_buffer Hbuf.

Lemma ws_emit e tw :
  (forall b, e <> WriteStarted b) -> keeps tw tw (emit e).
Proof.
  intros He. open_world. assert (writes [e] = []) as Hnil.
  { destruct e; try done. by destruct (He payload). }
  constructor; simpl; eauto. by rewrite ws_writes_app, Hnil, app_nil_r.
Qed.

Lemma ws_start op tw : is_write op = false -> keeps tw tw (start op).
Proof.
  intros Hop. open_world. constructor; simpl; eauto.
  - rewrite write_count_app. unfold write_count at 2. rewrite filter_cons, Hop. simpl. lia.
  - rewrite elem_of_app, list_elem_of_singleton. intros [Hin|<-]; [|done].
    destruct (Hbuf Hin) as (d & ? & ?). exists d. by rewrite ws_writes_app, app_nil_r.
Qed.

Lemma ws_expires t d tw : keeps tw tw (expires_from_now t d).
Proof. open_world. constructor; simpl; eauto. Qed.
Lemma ws_set_read_buffer b tw : keeps tw tw (set_read_buffer b).
Proof. open_world. constructor; simpl; eauto. Qed.
Lemma ws_set_rate_limit a b c tw : keeps tw tw (set_rate_limit a b c).
Proof. open_world. constructor; simpl; eauto. Qed.
Lemma ws_int_add a b tw : keeps tw tw (int_add a b).
Proof. intros w Hw. unfold int_add. case_decide; [done|by apply wp_throw]. Qed.

Lemma ws_abort tw : keeps tw tw abort.
Proof. unfold abort. open_world. destruct dr; simpl; finish Hbuf. Qed.
Lemma ws_shutdown tw : keeps tw tw shutdown.
Proof. unfold shutdown. open_world. destruct dr, sh, so; simpl; finish Hbuf. Qed.
Lemma ws_on_shutdown ec tw : keeps tw tw (on_shutdown ec).
Proof. unfold on_shutdown. open_world. destruct dr; simpl; finish Hbuf. Qed.

#[local] Hint Resolve ws_gets ws_ret ws_return_if ws_expires ws_set_read_buffer
  ws_set_rate_limit ws_int_add ws_abort ws_shutdown ws_on_shutdown : ws.
#[local] Hint Extern 1 (keeps _ _ (emit _)) => apply ws_emit; discriminate : ws.
#[local] Hint Extern 1 (keeps _ _ (start _)) => apply ws_start; reflexivity : ws.

Ltac ws_auto :=
  repeat (first [solve [eauto with ws nocore]
                | apply ws_bind with (tw1 := 0%nat); [|intros ?] | apply ws_return_if
                | match goal with |- keeps _ _ (if ?b then _ else _) => destruct b end
                | match goal with |- keeps _ _ (match ?t with ping => _ | _ => _ end) =>
                    destruct t end]).

Lemma ws_handle_error ec tw : keeps tw tw (handle_read_error ec).
Proof.
  eapply ws_bind; [apply ws_gets|]. intros dropped. apply ws_return_if.
  destruct (is_connection_reset_error ec); [apply ws_abort|].
  apply ws_return_if, ws_shutdown.
Qed.
#[local] Hint Resolve ws_handle_error : ws.

Lemma ws_set_timeout d : keeps 0 0 (set_timeout d).
Proof. unfold set_timeout. ws_auto. Qed.
Lemma ws_set_state_timeout d : keeps 0 0 (set_state_timeout d).
Proof. unfold set_state_timeout. ws_auto. Qed.
#[local] Hint Resolve ws_set_timeout : ws.

Lemma ws_refresh_timeout : keeps 0 0 refresh_timeout.
Proof. unfold refresh_timeout. ws_auto. Qed.
Lemma ws_check_rate_limit : keeps 0 0 check_rate_limit.
Proof. unfold check_rate_limit, field. ws_auto. Qed.
Lemma ws_count_inbound n : keeps 0 0 (count_inbound n).
Proof. unfold count_inbound, field. ws_auto. Qed.
#[local] Hint Resolve ws_refresh_timeout ws_check_rate_limit ws_count_inbound : ws.

Lemma ws_on_timeout ec : keeps 0 0 (on_timeout ec).
Proof. unfold on_timeout, field. ws_auto. Qed.
Lemma ws_on_read ec n b : keeps 0 0 (on_read ec n b).
Proof. unfold on_read, consume, process_message, field. ws_auto. Qed.
Lemma ws_on_control_frame t n : keeps 0 0 (on_control_frame t n).
Proof. unfold on_control_frame. ws_auto. Qed.
Lemma ws_run : keeps 0 0 run.
Proof. unfold run. ws_auto. Qed.
Lemma ws_on_ssl_handshake ec : keeps 0 0 (on_ssl_handshake ec).
Proof. unfold on_ssl_handshake. ws_auto. Qed.
Lemma ws_on_read_request ec b : keeps 0 0 (on_read_request ec b).
Proof. unfold on_read_request, field. ws_auto. Qed.
Lemma ws_on_ws_handshake ec : keeps 0 0 (on_ws_handshake ec).
Proof. unfold on_ws_handshake, field. ws_auto. Qed.

(** ** Writing *)

Lemma ws_do_write_message m : is_Some m -> keeps 1 0 (do_write_message m).
Proof.
  intros [d ->]. unfold do_write_message. open_world. constructor; simpl; eauto.
  - rewrite write_count_app. change (write_count [_]) with 1%nat. lia.
  - intros _. exists d. rewrite !ws_writes_app. change (writes [Started _]) with (@nil bytes).
    change (writes [WriteStarted ?b]) with [b]. by rewrite app_nil_r, last_snoc.
Qed.

Lemma ws_clear_outbound : keeps 1 1 (set_message_outbound Message_empty).
Proof.
  open_world. constructor; simpl; eauto. intros Hin. exfalso.
  pose proof (write_count_remove _ _ Hin) as Hr. simpl in Hr. destruct wr; lia.
Qed.

Lemma ws_on_write_message ec : keeps 1 0 (on_write_message ec).
Proof.
  eapply ws_bind; [apply ws_clear_outbound|]. intros [].
  destruct (failed ec); [apply ws_end, ws_handle_error|].
  intros w Hinv. pose proof (inv_queue _ _ Hinv) as [ds Hq].
  apply wp_bind. pose proof (try_pop_holds _ _ Hq) as Hpop. unfold wp at 1, on_queue.
  destruct ds as [|d ds].
  - rewrite Hpop. revert w Hinv Hq Hpop. open_world. intros Hq' _.
    constructor; simpl; eauto; [destruct wr; lia|]. intros _. by destruct Hq' as [-> _].
  - destruct Hpop as (q' & -> & Hq'). apply ws_do_write_message; [by eexists|].
    revert w Hinv Hq. open_world. intros _. constructor; simpl; eauto.
    intros ->. specialize (Hidle eq_refl). lia.
Qed.

Lemma ws_send_in_strand m : is_Some m -> keeps 0 0 (send_in_strand m).
Proof.
  intros [d ->] w Hinv. unfold send_in_strand. do 2 apply wp_bind, wp_gets.
  unfold return_if. destruct (_ || _); [by apply wp_ret|]. apply wp_bind, wp_gets.
  pose proof (inv_queue _ _ Hinv) as [ds Hq].
  destruct (is_writing_ (conn w)) eqn:Hwr.
  - destruct (push_holds _ _ d Hq) as (q' & Hpush & Hq'). unfold wp, on_queue.
    unfold from_vector in Hpush. rewrite Hpush. revert w Hinv Hq Hpush Hwr.
    open_world. intros _ _ ->. constructor; simpl; eauto. done.
  - apply wp_bind. unfold wp at 1. simpl. apply ws_do_write_message; [by eexists|].
    revert w Hinv Hq Hwr. open_world. intros _ ->. constructor; simpl; eauto; lia || done.
Qed.

(** ** A step *)

Lemma ws_handler l :
  completes l <> Some AsyncWrite -> keeps 0 0 (handler l).
Proof.
  intros Hl. destruct l as [m| |ec|ec x b|ec|ec x b|ec|t ec|ec|t n]; simpl; simpl in Hl.
  - unfold send_message, is_empty. case_bool_decide as Hm; [apply ws_ret|].
    open_world. constructor; simpl; eauto. apply Forall_app. split; [done|].
    apply Forall_singleton. destruct m; [by eexists|done].
  - intros w Hinv. apply wp_bind, wp_gets.
    destruct (posted w) as [|m l] eqn:Hposted; [by apply wp_ret|].
    apply wp_bind. unfold wp at 1. simpl.
    pose proof (inv_posted _ _ Hinv) as Hall. rewrite Hposted in Hall.
    apply Forall_cons in Hall as [Hm Hl'].
    apply ws_send_in_strand; [done|]. destruct Hinv. by constructor.
  - apply ws_on_ssl_handshake.
  - unfold arrive, field. apply ws_bind with (tw1 := 0%nat); [ws_auto|intros _].
    apply ws_on_read_request.
  - apply ws_on_ws_handshake.
  - unfold arrive, field. apply ws_bind with (tw1 := 0%nat); [ws_auto|intros _].
    apply ws_on_read.
  - done.
  - apply ws_on_timeout.
  - apply ws_on_shutdown.
  - open_world. constructor; simpl; eauto.
Qed.

Lemma ws_fire_inv l w :
  inv w -> enabled l w -> wp (fire l) w (fun _ w' => inv w') (fun e => e = IntOverflow) False.
Proof.
  intros Hinv Hen. unfold enabled in Hen. unfold fire. apply wp_bind.
  destruct (completes l) as [op|] eqn:Hl.
  2:{ apply wp_ret. apply ws_handler; [congruence|done]. }
  assert (inv_with (if is_write op then 1 else 0)
    (mkWorld (conn w) (socket_open w) (posted w) (remove_one op (pending w)) (trace w)
       (expiry w) (state_expiry w) (now w) (active_connection_count w))) as Hinv'.
  { destruct Hinv as [Hw Hq Hidle Hpost Hbuf]. pose proof (write_count_remove op _ Hen).
    constructor; simpl; eauto; [lia|]. intros Hin%remove_one_in. auto. }
  unfold wp at 1. simpl. destruct (decide (op = AsyncWrite)) as [->|Hop].
  - destruct l; try done. by apply ws_on_write_message.
  - apply ws_handler; [congruence|]. by destruct op.
Qed.

Lemma ws_steps_inv w ls w' : steps w ls w' -> inv w -> inv w'.
Proof.
  induction 1 as [|w l w1 ls w2 Hen Hfire _ IH]; [done|]. intros Hinv. apply IH.
  pose proof (ws_fire_inv l w Hinv Hen) as Hwp. unfold wp in Hwp. by rewrite Hfire in Hwp.
Qed.
End invariant.
