(* ===== verification/WsLife.v ===== *)
(** * The life of a connection to a browser

    Its timeouts, and its end: what keeps a connection from staying for ever, and what it
    still does once it is over. *)
From S2P Require Import Prelude Message MessageQueue ErrorCode WsConnection WsInvariant.

Create HintDb ws_life discriminated.

(** Through the structure of an operation, down to the lemmas of the database. *)
Ltac preserve :=
  repeat (first [solve [eauto with ws_life nocore]
                | apply preserves_bind; [|intros ?]
                | match goal with
                  | |- preserves _ (return_if ?b _) => destruct b; cbn [return_if]
                  | |- preserves _ (if ?b then _ else _) => destruct b
                  | |- preserves _ (match ?t with ping => _ | _ => _ end) => destruct t
                  end]).

Section life.
Context `{AsioErrors} `{FrontConfig}.

(** The operations that receive, from the TLS handshake on: each starts the next. *)
Definition receives (op : operation) : bool :=
  match op with AsyncHandshake | AsyncReadRequest | AsyncAccept | AsyncRead => true | _ => false end.

(** The connection is dropped or shutting down. *)
Definition over (w : world) : bool := dropped_ (conn w) || shutting_down_ (conn w).

Lemma preserves_data I m : preserves I (data m : C bytes).
Proof. destruct m; [apply preserves_ret|apply preserves_throw]. Qed.
Lemma preserves_size I m : preserves I (size m : C Z).
Proof. destruct m; [apply preserves_ret|apply preserves_throw]. Qed.
Lemma preserves_return_if I b k : preserves I k -> preserves I (return_if b k).
Proof. intros Hk. destruct b; [apply preserves_ret|done]. Qed.

(** An addition that does not overflow. *)
Lemma preserves_int_add {A} I a b (k : Z -> C A) :
  preserves I (k (a + b)) -> preserves I (int_add a b ≫= k).
Proof.
  intros Hk w Hw. apply wp_bind. unfold int_add. case_decide; [|by apply wp_throw].
  by apply wp_ret, Hk.
Qed.

#[local] Hint Resolve preserves_ret preserves_gets preserves_throw preserves_data
  preserves_size preserves_return_if : ws_life.

Ltac in_world :=
  intros [[dr sh wr q mo rb rs rm rn] so po pe tr ex sx nw ct];
  unfold wp, mbind, M_bind, field, gets; simpl in *.

(** ** Invariants of the handlers

    What the parts of the handlers preserve, the handlers do: of those that neither receive
    nor write, of those of the handshakes too, and of those of messages too. What happens
    elsewhere is no handler. *)
Record frame (I : world -> Prop) : Prop := {
  frame_emit e : match e with WriteStarted _ | Processed _ => False | _ => True end ->
    preserves I (emit e);
  frame_start op :
    receives op = false -> op <> AsyncWrite -> op <> AsyncShutdown -> preserves I (start op);
  frame_abort : preserves I abort;
  frame_shutdown : preserves I shutdown;
  frame_on_shutdown ec : preserves I (on_shutdown ec);
  frame_send m : preserves I (send_message m);
  frame_posted : preserves I (handler Posted);
}.

Record frame_handshakes (I : world -> Prop) : Prop := {
  handshakes_frame : frame I;
  frame_receive op : receives op = true -> preserves I (start op);
  frame_expires : preserves I (expires_from_now timer_ (seconds (ws_timeout + 5)));
  frame_read_buffer b : preserves I (set_read_buffer b);
}.

Record frame_messages (I : world -> Prop) : Prop := {
  messages_frame : frame_handshakes I;
  frame_rate_limit a b c : preserves I (set_rate_limit a b c);
  frame_processed b : preserves I (process_message b);
}.

Section frame.
Variable I : world -> Prop.
Hypothesis HI : frame I.

#[local] Hint Resolve frame_abort frame_shutdown frame_on_shutdown frame_send frame_posted : ws_life.
#[local] Hint Extern 1 (preserves _ (emit _)) => apply frame_emit; [assumption|exact Logic.I] : ws_life.
#[local] Hint Extern 1 (preserves _ (start _)) =>
  apply frame_start; [assumption|reflexivity|discriminate..] : ws_life.

Lemma frame_handle_error ec : preserves I (handle_read_error ec).
Proof. unfold handle_read_error, field. preserve. Qed.

Lemma frame_handler l :
  match l with Send _ | Posted | WaitDone _ _ | ShutdownDone _ => True | _ => False end ->
  preserves I (handler l).
Proof.
  destruct l as [m| |ec|ec x b|ec|ec x b|ec|t ec|ec|t n]; try done; intros _.
  - by apply frame_send.
  - by apply frame_posted.
  - simpl. unfold on_timeout, field. preserve.
  - by apply frame_on_shutdown.
Qed.
End frame.

Section frame_handshakes.
Variable I : world -> Prop.
Hypothesis HI : frame_handshakes I.

#[local] Hint Resolve handshakes_frame frame_abort frame_shutdown frame_expires frame_read_buffer
  frame_handle_error : ws_life.
#[local] Hint Extern 1 (preserves _ (emit _)) =>
  apply frame_emit; [by apply handshakes_frame|exact Logic.I] : ws_life.
#[local] Hint Extern 1 (preserves _ (start _)) =>
  first [ apply frame_receive; [assumption|reflexivity]
        | apply frame_start; [by apply handshakes_frame|reflexivity|discriminate..] ] : ws_life.

Lemma frame_set_timeout : preserves I (set_timeout (seconds (ws_timeout + 5))).
Proof. unfold set_timeout. preserve. Qed.
#[local] Hint Resolve frame_set_timeout preserves_int_add : ws_life.

Lemma frame_refresh_timeout : preserves I refresh_timeout.
Proof. unfold refresh_timeout. preserve. Qed.

Lemma frame_handshakes_handler l :
  match l with
  | WriteDone _ | Elsewhere _ _ => False
  | ReadDone ec _ _ => failed ec = true
  | _ => True
  end -> preserves I (handler l).
Proof.
  destruct l as [m| |ec|ec x b|ec|ec x b|ec|t ec|ec|t n]; intros Hl; try done;
    try (by apply frame_handler; [apply handshakes_frame|]).
  - simpl. unfold on_ssl_handshake. preserve.
  - simpl. unfold arrive, on_read_request, field. preserve.
  - simpl. unfold on_ws_handshake, field. apply preserves_bind; [preserve|]. intros dr.
    apply preserves_return_if. destruct (failed ec); [preserve|].
    apply preserves_bind; [preserve|]. intros _. apply preserves_int_add. preserve.
  - simpl. unfold arrive, on_read, field. rewrite Hl. preserve.
Qed.
End frame_handshakes.

Section frame_messages.
Variable I : world -> Prop.
Hypothesis HI : frame_messages I.

Lemma frame_int_add a b : preserves I (int_add a b).
Proof. unfold int_add. case_decide; [apply preserves_ret|apply preserves_throw]. Qed.

#[local] Hint Resolve messages_frame handshakes_frame frame_abort frame_shutdown frame_read_buffer
  frame_rate_limit frame_processed frame_int_add frame_handle_error frame_refresh_timeout : ws_life.
#[local] Hint Extern 1 (preserves _ (start AsyncRead)) =>
  apply frame_receive; [by apply messages_frame|reflexivity] : ws_life.

Lemma frame_messages_handler l :
  match l with WriteDone _ | Elsewhere _ _ => False | _ => True end -> preserves I (handler l).
Proof.
  destruct l as [m| |ec|ec x b|ec|ec x b|ec|t ec|ec|t n]; intros Hl; try done;
    try (by apply frame_handshakes_handler; [apply messages_frame|]).
  simpl. unfold arrive, on_read, count_inbound, check_rate_limit, consume, field. preserve.
Qed.
End frame_messages.

(** The parts of the writer. *)
Record frame_writer (I : world -> Prop) : Prop := {
  writer_queue {A} (m : M fault MessageQueue A) : preserves I (on_queue m);
  writer_outbound m : preserves I (set_message_outbound m);
  writer_is_writing b : preserves I (set_is_writing b);
  writer_emit b : preserves I (emit (WriteStarted b));
  writer_start : preserves I (start AsyncWrite);
}.

Section frame_writer.
Variable I : world -> Prop.
Hypothesis HI : frame_writer I.

#[local] Hint Resolve writer_queue writer_outbound writer_is_writing writer_emit writer_start : ws_life.

Lemma frame_do_write m : preserves I (do_write_message m).
Proof. unfold do_write_message, field. preserve. Qed.
#[local] Hint Resolve frame_do_write : ws_life.

Lemma frame_send_in_strand m : preserves I (send_in_strand m).
Proof. unfold send_in_strand, field. preserve. Qed.

Lemma frame_on_write_message ec :
  preserves I (handle_write_error ec) -> preserves I (on_write_message ec).
Proof.
  intros He. unfold on_write_message. apply preserves_bind; [preserve|]. intros _.
  destruct (failed ec); [done|]. apply preserves_bind; [preserve|]. intros [m|]; preserve.
Qed.
End frame_writer.

(** ** The timeout *)

(** The longest a connection waits for its client. *)
Definition patience : Z := seconds (Z.max ws_setup_timeout (ws_timeout + 5)).

(** A connection that is not over waits for [timer_], which expires before long. *)
Definition armed (w : world) : Prop :=
  over w = false -> AsyncWait timer_ ∈ pending w /\ expiry w <= now w + patience.

Lemma armed_start op : preserves armed (start op).
Proof. in_world. intros Ha Ho. destruct (Ha Ho). split; [apply elem_of_app; by left|done]. Qed.

Lemma timeout_patience : seconds (ws_timeout + 5) <= patience.
Proof. unfold patience, seconds. lia. Qed.

Lemma armed_writer : frame_writer armed.
Proof.
  constructor; try (intros; by in_world); auto using armed_start.
  intros A m. in_world. intros Ha. unfold on_queue. simpl. by destruct (m q).
Qed.

Lemma armed_messages : frame_messages armed.
Proof.
  constructor; [constructor; [constructor|..]|..]; try (intros; by in_world); auto using armed_start.
  - unfold abort. in_world. by destruct dr.
  - unfold shutdown. in_world. intros Ha. destruct dr, sh, so; simpl; done.
  - intros ec. unfold on_shutdown. in_world. by destruct dr.
  - intros m. unfold send_message. destruct (is_empty m); [apply preserves_ret|by in_world].
  - simpl. apply preserves_bind; [apply preserves_gets|]. intros [|m l]; [apply preserves_ret|].
    apply preserves_bind; [by in_world|]. intros _. apply frame_send_in_strand, armed_writer.
  - in_world. intros Ha Ho. destruct (Ha Ho). split; [done|]. simpl. pose proof timeout_patience. lia.
Qed.

(** What a timer promises: a wait is canceled only when [set_timeout] has started another,
    or at the end of the connection. *)
Definition timely (l : label) (w : world) : Prop :=
  match l with
  | WaitDone timer_ ec =>
      ec = operation_aborted ->
      over w = true \/ AsyncWait timer_ ∈ remove_one (AsyncWait timer_) (pending w)
  | _ => True
  end.

Lemma armed_handler l : preserves armed (handler l).
Proof.
  destruct l as [| | | | | |ec| | |t n]; try by apply (frame_messages_handler _ armed_messages).
  - apply frame_on_write_message; [apply armed_writer|]. apply frame_handle_error, armed_messages.
  - in_world. intros Ha Ho. destruct (Ha Ho) as [? Hx]. split; [done|]. simpl in *.
    pose proof (Z.le_max_l nw t). lia.
Qed.

(** Without one of its pending operations. *)
Definition without (op : operation) (w : world) : world :=
  mkWorld (conn w) (socket_open w) (posted w) (remove_one op (pending w)) (trace w) (expiry w)
    (state_expiry w) (now w) (active_connection_count w).

Lemma fire_completes l w op : completes l = Some op -> fire l w = handler l (without op w).
Proof. intros Hl. unfold fire. by rewrite Hl. Qed.
Lemma fire_call l w : completes l = None -> fire l w = handler l w.
Proof. intros Hl. unfold fire. by rewrite Hl. Qed.

(** A step preserves what its handler does, when the completion itself does not matter. *)
Lemma fire_preserves (I : world -> Prop) l w w' :
  preserves I (handler l) -> (forall op, completes l = Some op -> I w -> I (without op w)) ->
  I w -> fire l w = Ok tt w' -> I w'.
Proof.
  intros Hl Hwithout Hw Hfire. destruct (completes l) as [op|] eqn:Hc.
  - rewrite (fire_completes _ _ op) in Hfire by done. eapply preserves_Ok; [exact Hl|exact Hfire|].
    by apply Hwithout.
  - rewrite fire_call in Hfire by done. by eapply preserves_Ok; [exact Hl|exact Hfire|].
Qed.

(** A timer that expires ends the connection. *)
Lemma on_timeout_drops ec w :
  ec <> operation_aborted -> dropped_ (conn w) = false ->
  exists w', on_timeout ec w = Ok tt w' /\ dropped_ (conn w') = true /\ socket_open w' = false /\
    queue_ (message_queue_ (conn w')) = [] /\ pending w' = pending w.
Proof.
  intros Hec. destruct w as [[dr sh wr q mo rb rs rm rn] so po pe tr ex sx nw ct]. simpl.
  intros ->. unfold on_timeout, abort, mbind, M_bind, field, gets. simpl.
  rewrite bool_decide_false by done. eexists. by split.
Qed.

Lemma armed_without op w : op <> AsyncWait timer_ -> armed w -> armed (without op w).
Proof.
  intros Hop Ha Ho. destruct (Ha Ho) as [Hin Hx]. split; [|done]. simpl.
  by apply remove_one_other.
Qed.

Lemma armed_fire l w w' : timely l w -> armed w -> fire l w = Ok tt w' -> armed w'.
Proof.
  intros Ht Ha Hfire. destruct (completes l) as [op|] eqn:Hl.
  2:{ rewrite fire_call in Hfire by done. by eapply preserves_Ok; [apply (armed_handler l)|..]. }
  rewrite (fire_completes _ _ op) in Hfire by done.
  destruct (decide (op = AsyncWait timer_)) as [->|Hop].
  2:{ eapply preserves_Ok; [apply (armed_handler l)|done|]. by apply armed_without. }
  destruct l as [m| |ec|ec x b|ec|ec x b|ec|[] ec|ec|t n]; try done. simpl in *.
  destruct (decide (ec = operation_aborted)) as [Hec|Hec].
  - eapply preserves_Ok; [apply (armed_handler (WaitDone timer_ ec))|done|].
    intros Ho. destruct (Ht Hec) as [Hov|Hin]; [unfold over in *; simpl in *; congruence|].
    split; [done|]. by destruct (Ha Ho).
  - intros Ho. destruct (dropped_ (conn w)) eqn:Hd.
    + unfold on_timeout, mbind, M_bind, field, gets in Hfire. simpl in Hfire. rewrite Hd in Hfire.
      simpl in Hfire. injection Hfire as <-. unfold over in Ho. simpl in Ho. by rewrite Hd in Ho.
    + destruct (on_timeout_drops ec (without (AsyncWait timer_) w) Hec Hd) as (w1 & Hw1 & Hd1 & _).
      rewrite Hw1 in Hfire. injection Hfire as <-. unfold over in Ho. by rewrite Hd1 in Ho.
Qed.

(** Runs whose timers keep their promise. *)
Inductive timed_steps : world -> list label -> world -> Prop :=
| timed_nil w : timed_steps w [] w
| timed_cons w l w1 ls w2 :
    enabled l w -> timely l w -> fire l w = Ok tt w1 -> timed_steps w1 ls w2 ->
    timed_steps w (l :: ls) w2.

Lemma armed_steps w ls w' : timed_steps w ls w' -> armed w -> armed w'.
Proof. induction 1; eauto using armed_fire. Qed.

Lemma armed_run time count w : run (construct time count) = Ok tt w -> armed w.
Proof.
  intros [= <-] _. simpl. split; [left|]. simpl. unfold patience, seconds. lia.
Qed.

(** ** After the end

    A connection that is over, has nothing queued, and has written [ds]. *)
Definition hushed (ds : list bytes) (w : world) : Prop :=
  over w = true /\ queue_ (message_queue_ (conn w)) = [] /\ writes (trace w) = ds.

Section hushed.
Context (ds : list bytes).

Lemma hushed_emit e : (forall b, e <> WriteStarted b) -> preserves (hushed ds) (emit e).
Proof.
  intros He. in_world. intros (Ho & Hq & Hw). simpl in *. split_and!; [done|done|]. simpl.
  rewrite ws_writes_app, Hw. destruct e; simpl; rewrite ?app_nil_r; try done. by destruct (He payload).
Qed.
Lemma hushed_start op : preserves (hushed ds) (start op).
Proof.
  in_world. intros (Ho & Hq & Hw). simpl in *. split_and!; [done|done|]. simpl. by rewrite ws_writes_app, Hw, app_nil_r.
Qed.
Lemma hushed_expires t d : preserves (hushed ds) (expires_from_now t d).
Proof. by in_world. Qed.
Lemma hushed_set_read_buffer b : preserves (hushed ds) (set_read_buffer b).
Proof. by in_world. Qed.
Lemma hushed_set_rate_limit a b c : preserves (hushed ds) (set_rate_limit a b c).
Proof. by in_world. Qed.
Lemma hushed_set_is_writing b : preserves (hushed ds) (set_is_writing b).
Proof. by in_world. Qed.
Lemma hushed_set_outbound m : preserves (hushed ds) (set_message_outbound m).
Proof. by in_world. Qed.
Lemma hushed_clear : preserves (hushed ds) (on_queue (modify clear)).
Proof. in_world. intros (Ho & _ & Hw). by split_and!. Qed.
Lemma hushed_set_dropped : preserves (hushed ds) (set_dropped true).
Proof. in_world. intros (_ & Hq & Hw). by split_and!. Qed.
Lemma hushed_set_shutting_down : preserves (hushed ds) (set_shutting_down true).
Proof. in_world. intros (_ & Hq & Hw). unfold hushed, over. simpl. by rewrite orb_true_r. Qed.
Lemma hushed_close_socket : preserves (hushed ds) close_socket.
Proof.
  in_world. intros (Ho & Hq & Hw). simpl in *. split_and!; [done|done|]. simpl. by rewrite ws_writes_app, Hw, app_nil_r.
Qed.

#[local] Hint Resolve hushed_start hushed_expires hushed_set_read_buffer hushed_set_rate_limit
  hushed_set_is_writing hushed_set_outbound hushed_clear hushed_set_dropped
  hushed_set_shutting_down hushed_close_socket : ws_life.
#[local] Hint Extern 1 (preserves (hushed _) (emit _)) => apply hushed_emit; discriminate : ws_life.

Lemma hushed_abort : preserves (hushed ds) abort.
Proof. unfold abort, field. preserve. Qed.
Lemma hushed_shutdown : preserves (hushed ds) shutdown.
Proof. unfold shutdown, field. preserve. Qed.
#[local] Hint Resolve hushed_abort hushed_shutdown : ws_life.

(** The two operations that write do not. *)
Lemma hushed_send_in_strand m : preserves (hushed ds) (send_in_strand m).
Proof.
  intros w Hw. unfold send_in_strand. do 2 apply wp_bind, wp_gets. destruct Hw as [Ho Hw].
  unfold over in Ho. rewrite Ho. by apply wp_ret.
Qed.

Lemma hushed_frame : frame (hushed ds).
Proof.
  constructor; auto using hushed_start, hushed_abort, hushed_shutdown.
  - intros e He. apply hushed_emit. by intros b ->.
  - intros ec. unfold on_shutdown, field. preserve.
  - intros m. unfold send_message. destruct (is_empty m); [preserve|]. by in_world.
  - simpl. apply preserves_bind; [preserve|]. intros [|m l]; [preserve|].
    apply preserves_bind; [by in_world|]. intros _. apply hushed_send_in_strand.
Qed.

Lemma hushed_messages : frame_messages (hushed ds).
Proof.
  constructor; [|auto using hushed_set_rate_limit|by intros b; apply hushed_emit].
  constructor; auto using hushed_frame, hushed_start, hushed_expires, hushed_set_read_buffer.
Qed.

Lemma hushed_on_write_message ec : preserves (hushed ds) (on_write_message ec).
Proof.
  unfold on_write_message. apply preserves_bind; [preserve|]. intros _.
  destruct (failed ec); [apply (frame_handle_error _ hushed_frame)|]. in_world. intros (Ho & Hq & Hw). simpl in *.
  unfold on_queue, try_pop, mbind, M_bind, gets. simpl. by rewrite Hq.
Qed.

Lemma hushed_handler l : preserves (hushed ds) (handler l).
Proof.
  destruct l as [| | | | | |ec| | |t n]; try by apply (frame_messages_handler _ hushed_messages).
  - apply hushed_on_write_message.
  - by in_world.
Qed.

Lemma hushed_steps w ls w' : steps w ls w' -> hushed ds w -> hushed ds w'.
Proof.
  induction 1 as [|w l w1 ls w2 Hen Hfire _ IH]; [done|]. intros Hw. apply IH.
  by eapply (fire_preserves (hushed ds)); [apply (hushed_handler l)| |exact Hw|exact Hfire].
Qed.
End hushed.

(** The end empties the queue. *)
Lemma ended_hushed w w0 :
  over w = false -> socket_open w = true -> (abort w = Ok tt w0 \/ shutdown w = Ok tt w0) ->
  hushed (writes (trace w)) w0.
Proof.
  destruct w as [[dr sh wr q mo rb rs rm rn] so po pe tr ex sx nw ct]. unfold over. simpl.
  intros [-> ->]%orb_false_iff -> [Hrun|Hrun]; revert Hrun;
    unfold abort, shutdown, mbind, M_bind, field, gets; simpl; intros [= <-];
    (split_and!; [done|done|]); simpl; by rewrite !ws_writes_app, !app_nil_r.
Qed.
End life.

#[export] Hint Resolve preserves_ret preserves_gets preserves_throw preserves_data
  preserves_size preserves_return_if : ws_life.
