(* ===== verification/WsClock.v ===== *)
(** * The clock of a connection to a browser

    A handler takes no time; time passes between handlers only. *)
From S2P Require Import Prelude Message MessageQueue ErrorCode WsConnection WsInvariant WsLife.

Section now.
Context `{AsioErrors} `{FrontConfig}.

Definition at_time (t : Z) (w : world) : Prop := now w = t.

Ltac in_world :=
  intros [[dr sh wr q mo rb rs rm rn] so po pe tr ex sx nw ct];
  unfold at_time, wp, mbind, M_bind, field, gets; simpl in *.

Lemma at_time_writer t : frame_writer (at_time t).
Proof.
  constructor; try (intros; by in_world). intros A m. in_world. intros Ht. unfold on_queue. simpl.
  by destruct (m q).
Qed.

Lemma at_time_frame t : frame_messages (at_time t).
Proof.
  constructor; [constructor; [constructor|..]|..]; try (intros; by in_world).
  - unfold abort. in_world. by destruct dr.
  - unfold shutdown. in_world. by destruct dr, sh, so.
  - intros ec. unfold on_shutdown. in_world. by destruct dr.
  - intros m. unfold send_message. destruct (is_empty m); [apply preserves_ret|by in_world].
  - simpl. apply preserves_bind; [apply preserves_gets|]. intros [|m l]; [apply preserves_ret|].
    apply preserves_bind; [by in_world|]. intros _. apply frame_send_in_strand, at_time_writer.
Qed.

Lemma at_time_handler t l : own l = true -> preserves (at_time t) (handler l).
Proof.
  intros Hl. destruct l as [| | | | | |ec| | |]; try by apply (frame_messages_handler _ (at_time_frame t)).
  apply frame_on_write_message; [apply at_time_writer|].
  apply frame_handle_error, at_time_frame.
Qed.

Lemma fire_now l w w' : own l = true -> fire l w = Ok tt w' -> now w' = now w.
Proof.
  intros Hl Hfire. eapply (fire_preserves (at_time (now w))); [by apply at_time_handler| |done|exact Hfire].
  done.
Qed.

(** Time does not go back. *)
Lemma fire_later l w w' : fire l w = Ok tt w' -> now w <= now w'.
Proof.
  destruct (own l) eqn:Hl; intros Hfire.
  - rewrite (fire_now l w w' Hl Hfire). lia.
  - destruct l; try done. injection Hfire as <-. simpl. lia.
Qed.

Lemma steps_later w ls w' : steps w ls w' -> now w <= now w'.
Proof. induction 1 as [|w l w1 ls w2 _ Hfire _ IH]; [lia|]. apply fire_later in Hfire. lia. Qed.

Lemma steps_snoc w ls w1 l w2 :
  steps w ls w1 -> enabled l w1 -> fire l w1 = Ok tt w2 -> steps w (ls ++ [l]) w2.
Proof.
  induction 1 as [w|w l' w1 ls w3 Hen Hfire _ IH]; intros Hl Hf.
  - eapply steps_cons; [done..|apply steps_nil].
  - simpl. eapply steps_cons; [done..|]. by apply IH.
Qed.

(** ** What a timer promises

    Canceling a timer ends its waits with [operation_aborted], but for those that ended
    because it expired and whose handler has not run yet. *)

(** Whether a wait for [timer_] was started since it was last canceled. *)
Definition wait_event (b : bool) (e : event) : bool :=
  match e with
  | Started (AsyncWait timer_) => true
  | TimerCanceled timer_ => false
  | _ => b
  end.
Definition waiting (t : list event) : bool := foldl wait_event false t.

Lemma waiting_snoc t e : waiting (t ++ [e]) = wait_event (waiting t) e.
Proof. unfold waiting. by rewrite foldl_app. Qed.

(** A wait has come to its end. *)
Definition due (w : world) : Prop := waiting (trace w) = true /\ expiry w <= now w.

(** Runs with such a timer: a wait ends with another error than [operation_aborted] only when
    some wait has come to its end before; [P] tells whether one had at the start. *)
Inductive asio_steps : Prop -> world -> list label -> world -> Prop :=
| asio_nil P w : asio_steps P w [] w
| asio_cons (P : Prop) w l w1 ls w2 :
    enabled l w -> fire l w = Ok tt w1 ->
    (forall ec, l = WaitDone timer_ ec -> ec <> operation_aborted -> P \/ due w) ->
    asio_steps (P \/ due w) w1 ls w2 -> asio_steps P w (l :: ls) w2.

Lemma asio_steps_steps P w ls w' : asio_steps P w ls w' -> steps w ls w'.
Proof. induction 1; [constructor|by eapply steps_cons]. Qed.

(** A wait of [timer_] that completes was canceled. *)
Definition canceled_wait (l : label) : bool :=
  match l with WaitDone timer_ ec => bool_decide (ec = operation_aborted) | _ => true end.

Lemma canceled_asio_steps P w ls w' : Forall canceled_wait ls -> steps w ls w' -> asio_steps P w ls w'.
Proof.
  intros Hls Hsteps. revert P. induction Hsteps as [|w l w1 ls w2 Hen Hfire _ IH]; [constructor|].
  apply Forall_cons in Hls as [Hl Hls]. intros P. eapply asio_cons; [done..| |by apply IH].
  intros ec -> Hne. simpl in Hl. by apply bool_decide_unpack in Hl.
Qed.
End now.
