(* ===== verification/WsRefused.v ===== *)
(** * A client that is refused

    What a connection answers to a request, and how it waits for a client that does not
    answer the end of the TLS session. *)
From S2P Require Import Prelude Message MessageQueue ErrorCode WsConnection WsInvariant WsLife WsClock.

Section refused.
Context `{AsioErrors} `{FrontConfig}.

(** ** The answer to a request *)

(** [w] with an empty [read_buffer_]. *)
Definition without_buffer (w : world) : world :=
  let c := conn w in
  mkWorld (mkWsConnection (dropped_ c) (shutting_down_ c) (is_writing_ c) (message_queue_ c)
             (message_outbound_ c) [] (rate_limit_start_ c) (rate_limit_messages_ c)
             (rate_limit_bytes_ c))
    (socket_open w) (posted w) (pending w) (trace w) (expiry w) (state_expiry w) (now w)
    (active_connection_count w).

Definition refuse (status : Z) (body : bytes) : C unit :=
  emit (HttpResponse status body);; shutdown.

Lemma refuse_spec status body w :
  dropped_ (conn w) = false -> shutting_down_ (conn w) = false -> socket_open w = true ->
  exists w', refuse status body w = Ok tt w' /\
    read_buffer_ (conn w') = read_buffer_ (conn w) /\
    pending w' = pending w ++ [AsyncShutdown] /\ shutting_down_ (conn w') = true /\
    trace w' = trace w ++ [HttpResponse status body; TimerCanceled timer_;
                           TimerCanceled state_timer_; Started AsyncShutdown].
Proof.
  destruct w as [[dr sh wr q mo rb rs rm rn] so po pe tr ex sx nw ct]. simpl. intros -> -> ->.
  unfold refuse, shutdown, mbind, M_bind, field, gets. simpl.
  eexists. split; [reflexivity|]. simpl. by rewrite <- !app_assoc.
Qed.

Lemma refuse_clears status body w w' :
  dropped_ (conn w) = false -> shutting_down_ (conn w) = false ->
  refuse status body w = Ok tt w' -> queue_ (message_queue_ (conn w')) = [].
Proof.
  destruct w as [[dr sh wr q mo rb rs rm rn] so po pe tr ex sx nw ct]. simpl. intros -> ->.
  unfold refuse, shutdown, mbind, M_bind, field, gets. simpl. destruct so; by intros [= <-].
Qed.

Lemma on_read_request_eq extra is_upgrade w :
  handler (RequestDone success extra is_upgrade) w =
  (if decide (connection_limit_soft < active_connection_count w)
   then refuse 503 (str "Overloaded")
   else if is_upgrade then start AsyncAccept
   else refuse 501 (str "Not implemented")) (without_buffer w).
Proof.
  destruct w as [[dr sh wr q mo rb rs rm rn] so po pe tr ex sx nw ct].
  unfold handler, arrive, mbind at 1, M_bind at 1, field, gets. simpl. unfold on_read_request.
  change (failed success) with false. unfold mbind at 1, M_bind at 1, field, gets. simpl.
  destruct (rb ++ extra); reflexivity.
Qed.

(** ** A shutdown the client does not answer

    What happens around a client that sends nothing, neither the end of the TLS session nor
    that of the connection: messages are sent to it, time passes, and waits end as their timer
    says. *)
Definition unanswered (l : label) : Prop :=
  match l with
  | Send _ | Posted | Elsewhere _ _ | WaitDone timer_ _ => True
  | _ => False
  end.

(** The connection waits for the end of its shutdown, and at most for the completion of a
    wait that was canceled. *)
Record lingers (w : world) : Prop := {
  lingers_dropped : dropped_ (conn w) = false;
  lingers_shutting : shutting_down_ (conn w) = true;
  lingers_open : socket_open w = true;
  lingers_pending : pending w = [AsyncShutdown] \/ pending w = [AsyncWait timer_; AsyncShutdown];
  lingers_timer : waiting (trace w) = false;
}.

Lemma lingers_fire l w w' :
  unanswered l -> enabled l w -> (forall ec, l = WaitDone timer_ ec -> ec = operation_aborted) ->
  lingers w -> fire l w = Ok tt w' -> lingers w'.
Proof.
  intros Hl Hen Hwait Hw Hfire. pose proof Hw as [Hd Hs Ho Hp Ht].
  destruct l as [m| |ec|ec x b|ec|ec x b|ec|[] ec|ec|t n]; try done.
  - rewrite fire_call in Hfire by done. simpl in Hfire. unfold send_message in Hfire.
    destruct (is_empty m); injection Hfire as <-; by constructor.
  - rewrite fire_call in Hfire by done. simpl in Hfire. unfold mbind, M_bind, gets in Hfire.
    destruct (posted w) as [|m ms]; [by injection Hfire as <-|].
    unfold send_in_strand, mbind, M_bind, field, gets in Hfire. simpl in Hfire.
    rewrite Hd, Hs in Hfire. injection Hfire as <-. by constructor.
  - rewrite (fire_completes _ _ (AsyncWait timer_)) in Hfire by done. rewrite (Hwait ec eq_refl) in Hfire.
    simpl in Hfire. unfold on_timeout, mbind, M_bind, field, gets in Hfire. simpl in Hfire.
    rewrite Hd in Hfire. rewrite bool_decide_true in Hfire by done. injection Hfire as <-.
    unfold enabled in Hen. simpl in Hen. constructor; simpl; try done. left.
    destruct Hp as [Hp|Hp]; rewrite Hp in *; [by apply list_elem_of_singleton in Hen|done].
  - rewrite fire_call in Hfire by done. injection Hfire as <-. by constructor.
Qed.

(** No timer ends it. *)
Lemma lingers_not_due w : lingers w -> ~ due w.
Proof. intros Hw [Hwait _]. by rewrite (lingers_timer _ Hw) in Hwait. Qed.

Lemma lingers_steps P w ls w' :
  asio_steps P w ls w' -> Forall unanswered ls -> ~ P -> lingers w -> lingers w'.
Proof.
  induction 1 as [|P w l w1 ls w2 Hen Hfire Hwait _ IH]; [done|].
  intros [Hl Hls]%Forall_cons HP Hw. pose proof (lingers_not_due w Hw) as Hnot.
  apply IH; [done|by intros []|]. eapply lingers_fire; [done|done| |done|done].
  intros ec Heq. destruct (decide (ec = operation_aborted)) as [|Hne]; [done|].
  by destruct (Hwait ec Heq Hne).
Qed.

(** A request that is refused right after the handshake. *)
Lemma refused_lingers w extra is_upgrade w1 :
  over w = false -> socket_open w = true ->
  pending w = [AsyncWait timer_; AsyncReadRequest] ->
  connection_limit_soft < active_connection_count w \/ is_upgrade = false ->
  fire (RequestDone success extra is_upgrade) w = Ok tt w1 -> lingers w1.
Proof.
  intros [Hd Hs]%orb_false_iff Ho Hp Hrefused Hfire.
  rewrite (fire_completes _ _ AsyncReadRequest), on_read_request_eq in Hfire by done.
  set (w2 := without_buffer (without AsyncReadRequest w)) in Hfire.
  assert (exists st b, refuse st b w2 = Ok tt w1) as (st & b & Hrun).
  { simpl in Hfire. case_decide; [eauto|]. destruct Hrefused as [?| ->]; [done|eauto]. }
  destruct w as [[dr sh wr q mo rb rs rm rn] so po pe tr ex sx nw ct]. simpl in *. subst.
  revert Hrun. unfold w2, refuse, shutdown, mbind, M_bind, field, gets. simpl. intros [= <-].
  constructor; simpl; try done; [by right|]. by rewrite !waiting_snoc.
Qed.

(** A client that was refused, before its timer expired, and has sent nothing since. *)
Definition turned_away (w : world) : Prop :=
  exists w0 extra is_upgrade w1 ls,
    over w0 = false /\ socket_open w0 = true /\ pending w0 = [AsyncWait timer_; AsyncReadRequest] /\
    (connection_limit_soft < active_connection_count w0 \/ is_upgrade = false) /\
    now w0 < expiry w0 /\ fire (RequestDone success extra is_upgrade) w0 = Ok tt w1 /\
    asio_steps (expiry w0 <= now w0) w1 ls w /\ Forall unanswered ls.

Lemma turned_away_lingers w : turned_away w -> lingers w.
Proof.
  intros (w0 & extra & up & w1 & ls & Ho & Hso & Hp & Href & Hnow & Hfire & Hsteps & Hls).
  eapply lingers_steps; [exact Hsteps|done|lia|]. by eapply refused_lingers.
Qed.

(** ** One request, one answer

    The response to a request, or the start of the answer to an upgrade. *)
Definition is_answer (e : event) : bool :=
  match e with HttpResponse _ _ | Started AsyncAccept => true | _ => false end.
Definition answers (t : list event) : nat := length (filter (fun e => is_answer e) t).

(** What leads to a request. *)
Definition is_request (op : operation) : bool :=
  match op with AsyncHandshake | AsyncReadRequest => true | _ => false end.
Definition requests_left (l : list operation) : nat := length (filter (fun op => is_request op) l).

Lemma answers_app t1 t2 : answers (t1 ++ t2) = (answers t1 + answers t2)%nat.
Proof. unfold answers. by rewrite filter_app, length_app. Qed.
Lemma requests_app l1 l2 : requests_left (l1 ++ l2) = (requests_left l1 + requests_left l2)%nat.
Proof. unfold requests_left. by rewrite filter_app, length_app. Qed.
Lemma requests_remove op l :
  op ∈ l -> (requests_left (remove_one op l) + (if is_request op then 1 else 0) = requests_left l)%nat.
Proof. apply (remove_one_count is_request). Qed.

(** What one event or operation counts. *)
Ltac count :=
  simpl;
  repeat match goal with
         | |- context [answers [?e]] =>
             let n := eval vm_compute in (answers [e]) in change (answers [e]) with n
         | |- context [requests_left [?o]] =>
             let n := eval vm_compute in (requests_left [o]) in change (requests_left [o]) with n
         end; lia.

(** The answers given and to come. *)
Definition answers_within (n : nat) (w : world) : Prop :=
  (answers (trace w) + requests_left (pending w) <= n)%nat.

Section within.
Context (n : nat).

Ltac in_world :=
  intros [[dr sh wr q mo rb rs rm rn] so po pe tr ex sx nw ct];
  unfold answers_within, wp, mbind, M_bind, field, gets; simpl in *;
  rewrite ?answers_app, ?requests_app; simpl.

Lemma within_emit e : is_answer e = false -> preserves (answers_within n) (emit e).
Proof.
  intros He. in_world. replace (answers [e]) with 0%nat; [lia|].
  unfold answers. by rewrite filter_cons, He.
Qed.

Lemma within_start op :
  is_request op = false -> op <> AsyncAccept -> preserves (answers_within n) (start op).
Proof.
  intros Hop Hne. in_world. replace (requests_left [op]) with 0%nat;
    [|unfold requests_left; by rewrite filter_cons, Hop].
  replace (answers [Started op]) with 0%nat; [lia|by destruct op].
Qed.

Lemma within_expires t d : preserves (answers_within n) (expires_from_now t d).
Proof. by in_world. Qed.
Lemma within_set_rate_limit a b c : preserves (answers_within n) (set_rate_limit a b c).
Proof. by in_world. Qed.
Lemma within_set_read_buffer b : preserves (answers_within n) (set_read_buffer b).
Proof. by in_world. Qed.
Lemma within_abort : preserves (answers_within n) abort.
Proof. unfold abort. in_world. destruct dr; simpl; rewrite ?answers_app; count. Qed.
Lemma within_shutdown : preserves (answers_within n) shutdown.
Proof.
  unfold shutdown. in_world. destruct dr, sh, so; simpl; rewrite ?answers_app, ?requests_app; count.
Qed.

Lemma within_writer : frame_writer (answers_within n).
Proof.
  constructor; try (intros; by in_world).
  - intros A m. in_world. unfold on_queue. simpl. by destruct (m q).
  - intros b. by apply within_emit.
  - by apply within_start.
Qed.
End within.

#[local] Hint Resolve preserves_int_add within_expires within_set_rate_limit within_set_read_buffer within_abort
  within_shutdown : ws_life.
#[local] Hint Extern 1 (preserves (answers_within _) (emit _)) => apply within_emit; reflexivity : ws_life.
#[local] Hint Extern 1 (preserves (answers_within _) (start _)) =>
  apply within_start; [reflexivity|discriminate] : ws_life.

Lemma within_int_add n a b : preserves (answers_within n) (int_add a b).
Proof. unfold int_add. case_decide; [apply preserves_ret|apply preserves_throw]. Qed.
#[local] Hint Resolve within_int_add : ws_life.

Lemma within_handle_error n ec : preserves (answers_within n) (handle_read_error ec).
Proof. unfold handle_read_error, field. preserve. Qed.
#[local] Hint Resolve within_handle_error : ws_life.

(** Any handler but those of the TLS handshake and of the request. *)
Lemma within_handler n l :
  match l with HandshakeDone _ | RequestDone _ _ _ => False | _ => True end ->
  preserves (answers_within n) (handler l).
Proof.
  destruct l as [m| |ec|ec x b|ec|ec x b|ec|t ec|ec|t c]; intros Hl; try done; simpl.
  - unfold send_message. destruct (is_empty m); [preserve|by intros []].
  - apply preserves_bind; [preserve|]. intros [|m l]; [preserve|].
    apply preserves_bind; [by intros []|]. intros _. apply frame_send_in_strand, within_writer.
  - unfold on_ws_handshake, set_timeout, field. preserve.
  - unfold arrive, on_read, count_inbound, check_rate_limit, consume, refresh_timeout, set_timeout,
      process_message, field. preserve.
  - apply frame_on_write_message; [apply within_writer|preserve].
  - unfold on_timeout, field. preserve.
  - unfold on_shutdown, field. apply preserves_bind; [preserve|]. intros dr. apply preserves_return_if.
    apply preserves_bind; [|intros _; by intros []].
    intros [c so po pe tr ex sx nw ct] Hw. unfold wp, answers_within in *. simpl in *.
    rewrite answers_app. count.
  - by intros [].
Qed.

Lemma within_arrive n x : preserves (answers_within n) (arrive x).
Proof. unfold arrive, field. preserve. Qed.
Lemma within_clear n (b : bytes) :
  preserves (answers_within n) (if decide (0 < length b)%nat then set_read_buffer [] else mret tt).
Proof. preserve. Qed.

(** What the handlers of a request may add is an answer, or the next operation. *)
Lemma within_receives n l op w :
  completes l = Some op -> is_request op = true -> answers_within n w ->
  wp (handler l) w (fun _ w' => answers_within (S n) w') (fun _ => True) True.
Proof.
  assert (forall m (w : world), (n <= m)%nat -> answers_within n w -> answers_within m w) as Hmono
    by (unfold answers_within; intros; lia).
  intros Hl Hop Hw. destruct l as [m| |ec|ec x b|ec|ec x b|ec|t ec|ec|t c]; try done;
    injection Hl as <-; try done; simpl.
  - unfold on_ssl_handshake. destruct (failed ec); [apply within_abort, Hmono; [lia|done]|].
    unfold wp, answers_within in *. simpl. rewrite answers_app, requests_app. count.
  - apply wp_bind. eapply wp_mono; [apply (within_arrive n x w Hw)| |done|done]. intros [] w1 Hw1.
    unfold on_read_request. destruct (failed ec); [apply within_handle_error, Hmono; [lia|done]|].
    apply wp_bind, wp_gets, wp_bind.
    eapply wp_mono; [apply (within_clear n _ w1 Hw1)| |done|done]. intros [] w2 Hw2.
    apply wp_bind, wp_gets.
    assert (forall st body, wp (emit (HttpResponse st body);; shutdown) w2
              (fun _ w' => answers_within (S n) w') (fun _ => True) True) as Hrefuse.
    { intros st body. apply wp_bind. unfold wp at 1. simpl. apply within_shutdown.
      unfold answers_within in *. simpl. rewrite answers_app. count. }
    case_decide; [apply Hrefuse|]. destruct b; [|apply Hrefuse].
    unfold wp, answers_within in *. simpl. rewrite answers_app, requests_app. count.
Qed.

Lemma within_fire n l w w' :
  enabled l w -> fire l w = Ok tt w' -> answers_within n w -> answers_within n w'.
Proof.
  intros Hen Hfire Hw. destruct (completes l) as [op|] eqn:Hl.
  - unfold enabled in Hen. rewrite Hl in Hen. pose proof (requests_remove op _ Hen) as Hr.
    rewrite (fire_completes _ _ op) in Hfire by done. destruct (is_request op) eqn:Hop.
    + destruct n as [|n]; [unfold answers_within in Hw; lia|].
      pose proof (within_receives n l op (without op w) Hl Hop) as Hwp. unfold wp in Hwp.
      rewrite Hfire in Hwp. apply Hwp. unfold answers_within in *. simpl. lia.
    + eapply (preserves_Ok (answers_within n)); [apply within_handler|exact Hfire|].
      * destruct l; try done; by injection Hl as <-.
      * unfold answers_within in *. simpl. lia.
  - rewrite fire_call in Hfire by done.
    eapply (preserves_Ok (answers_within n)); [apply within_handler|exact Hfire|exact Hw].
    by destruct l.
Qed.

Lemma within_steps n w ls w' : steps w ls w' -> answers_within n w -> answers_within n w'.
Proof. induction 1; eauto using within_fire. Qed.

Lemma within_run time count w : run (construct time count) = Ok tt w -> answers_within 1 w.
Proof. intros [= <-]. unfold answers_within. vm_compute. lia. Qed.
End refused.
