(* ===== verification/WsSend.v ===== *)
(** * The sending side of a connection to a browser

    As long as the connection is open, what was sent is what was written, what is queued
    and what waits in the strand, in this order. *)
From S2P Require Import Prelude Message MessageQueue ErrorCode WsConnection WsInvariant WsLife.

(** The payloads written, queued and posted. *)
Definition ws_outgoing (w : world) : list bytes :=
  writes (trace w) ++ queued (message_queue_ (conn w)) ++ payloads (posted w).

(** Neither dropped nor shutting down. *)
Definition ws_up (w : world) : Prop := over w = false /\ socket_open w = true.

(** The payloads that a sequence of labels sends. *)
Definition ws_sent (ls : list label) : list bytes :=
  ls ≫= fun l => match l with Send (Some d) => [d] | _ => [] end.

Create HintDb ws_quiet discriminated.

Section send.
Context `{AsioErrors} `{FrontConfig}.

(** What goes out of a connection that is up. *)
Abbreviation emits := (emits ws_up ws_outgoing).
Abbreviation quiet := (quiet ws_up ws_outgoing).

Lemma ws_quiet_return_if b k : quiet k -> quiet (return_if b k).
Proof. intros Hk. destruct b; [apply quiet_ret|done]. Qed.

Ltac unseen :=
  intros [[dr sh wr q mo rb rs rm rn] so po pe tr ex sx nw ct]; unfold ws_up, ws_outgoing, over;
  simpl; rewrite ?ws_writes_app, ?app_nil_r.

Lemma ws_quiet_emit e : (forall b, e <> WriteStarted b) -> quiet (emit e).
Proof.
  intros He. apply quiet_modify. unseen. assert (writes [e] = []) as ->.
  { destruct e; try done. by destruct (He payload). }
  by rewrite app_nil_r.
Qed.
Lemma ws_quiet_start op : quiet (start op).
Proof. apply quiet_modify. by unseen. Qed.
Lemma ws_quiet_expires t d : quiet (expires_from_now t d).
Proof. apply quiet_modify. by unseen. Qed.
Lemma ws_quiet_set_read_buffer b : quiet (set_read_buffer b).
Proof. apply quiet_modify. by unseen. Qed.
Lemma ws_quiet_set_rate_limit a b c : quiet (set_rate_limit a b c).
Proof. apply quiet_modify. by unseen. Qed.
Lemma ws_quiet_set_is_writing b : quiet (set_is_writing b).
Proof. apply quiet_modify. by unseen. Qed.
Lemma ws_quiet_set_outbound m : quiet (set_message_outbound m).
Proof. apply quiet_modify. by unseen. Qed.
Lemma ws_quiet_int_add a b : quiet (int_add a b).
Proof. unfold int_add. case_decide; [apply quiet_ret|apply quiet_throw]. Qed.

(** After these the connection is not up. *)
Lemma ws_quiet_abort : quiet abort.
Proof.
  intros [[[] sh wr q mo rb rs rm rn] so po pe tr ex sx nw ct]; unfold Prelude.emits, wp, ws_up, over;
    simpl; by intros [? ?].
Qed.
Lemma ws_quiet_shutdown : quiet shutdown.
Proof.
  intros [[[] [] wr q mo rb rs rm rn] [] po pe tr ex sx nw ct]; unfold Prelude.emits, wp, ws_up, over;
    simpl; by intros [? ?].
Qed.
Lemma ws_quiet_on_shutdown ec : quiet (on_shutdown ec).
Proof.
  intros [[[] sh wr q mo rb rs rm rn] so po pe tr ex sx nw ct]; unfold Prelude.emits, wp, ws_up, over;
    simpl; by intros [? ?].
Qed.

#[local] Hint Resolve quiet_ret quiet_gets quiet_throw ws_quiet_return_if ws_quiet_start
  ws_quiet_expires ws_quiet_set_read_buffer ws_quiet_set_rate_limit ws_quiet_set_is_writing
  ws_quiet_set_outbound ws_quiet_int_add ws_quiet_abort ws_quiet_shutdown
  ws_quiet_on_shutdown : ws_quiet.
#[local] Hint Extern 1 (Prelude.quiet _ _ (emit _)) => apply ws_quiet_emit; discriminate : ws_quiet.

Ltac quiet_auto :=
  repeat (first [solve [eauto with ws_quiet nocore]
                | apply quiet_bind; [|intros ?] | apply ws_quiet_return_if
                | match goal with |- quiet (if ?b then _ else _) => destruct b end
                | match goal with |- quiet (match ?t with ping => _ | _ => _ end) =>
                    destruct t end]).

Lemma ws_quiet_handle_error ec : quiet (handle_read_error ec).
Proof. unfold handle_read_error, field. quiet_auto. Qed.
#[local] Hint Resolve ws_quiet_handle_error : ws_quiet.

Lemma ws_quiet_refresh_timeout : quiet refresh_timeout.
Proof. unfold refresh_timeout, set_timeout. quiet_auto. Qed.
#[local] Hint Resolve ws_quiet_refresh_timeout : ws_quiet.

Lemma ws_quiet_on_read ec n b : quiet (on_read ec n b).
Proof. unfold on_read, count_inbound, check_rate_limit, consume, process_message, field. quiet_auto. Qed.
Lemma ws_quiet_on_read_request ec b : quiet (on_read_request ec b).
Proof. unfold on_read_request, field. quiet_auto. Qed.
Lemma ws_quiet_on_ssl_handshake ec : quiet (on_ssl_handshake ec).
Proof. unfold on_ssl_handshake. quiet_auto. Qed.
Lemma ws_quiet_on_ws_handshake ec : quiet (on_ws_handshake ec).
Proof. unfold on_ws_handshake, set_timeout, field. quiet_auto. Qed.
Lemma ws_quiet_on_timeout ec : quiet (on_timeout ec).
Proof. unfold on_timeout, field. quiet_auto. Qed.
#[local] Hint Resolve ws_quiet_on_read ws_quiet_on_read_request ws_quiet_on_ssl_handshake
  ws_quiet_on_ws_handshake ws_quiet_on_timeout : ws_quiet.

(** ** Writing moves the oldest payload from the queue to the wire *)

(** [do_write_message] writes what is not yet accounted for. *)
Lemma do_write_outgoing d w :
  wp (do_write_message (Some d)) w
    (fun _ w' => (ws_up w' -> ws_up w) /\ writes (trace w') = writes (trace w) ++ [d] /\
       message_queue_ (conn w') = message_queue_ (conn w) /\ posted w' = posted w)
    (fun _ => True) True.
Proof.
  destruct w as [[dr sh wr q mo rb rs rm rn] so po pe tr ex sx nw ct]. unfold wp. simpl.
  rewrite !ws_writes_app. change (writes [Started _]) with (@nil bytes).
  change (writes [WriteStarted ?b]) with [b]. by rewrite app_nil_r.
Qed.

Lemma ws_quiet_on_write_message ec : quiet (on_write_message ec).
Proof.
  unfold on_write_message. apply quiet_bind; [quiet_auto|]. intros _.
  destruct (failed ec); [apply ws_quiet_handle_error|]. intros w. apply wp_bind. unfold on_queue.
  destruct w as [[dr sh wr q mo rb rs rm rn] so po pe tr ex sx nw ct].
  pose proof (try_pop_queued q) as Hpop. unfold wp at 1. cbn [message_queue_ conn].
  destruct (try_pop q) as [[m|] q'|e|]; simpl; try done.
  2:{ destruct Hpop as [-> _]. unfold wp. simpl. intros Hup. split; [exact Hup|].
      unfold ws_outgoing. simpl. by rewrite app_nil_r. }
  destruct Hpop as (d & -> & Hq). eapply wp_mono; [apply do_write_outgoing| |done|done].
  intros [] w' (Hup & Hw & Hqueue & Hpost) Hup'. simpl in *.
  split; [exact (Hup Hup')|]. unfold ws_outgoing. simpl. rewrite Hw, Hqueue, Hpost, Hq.
  by rewrite app_nil_r, <- app_assoc.
Qed.
#[local] Hint Resolve ws_quiet_on_write_message : ws_quiet.

(** ** Posted messages *)

Lemma ws_send_in_strand_emits d w :
  (is_writing_ (conn w) = false -> queue_ (message_queue_ (conn w)) = []) ->
  wp (send_in_strand (Some d)) w
    (fun _ w' => ws_up w' -> ws_up w /\ posted w' = posted w /\
       writes (trace w') ++ queued (message_queue_ (conn w')) =
       writes (trace w) ++ queued (message_queue_ (conn w)) ++ [d])
    (fun _ => True) True.
Proof.
  intros Hidle. unfold send_in_strand. do 2 apply wp_bind, wp_gets. unfold return_if.
  destruct (dropped_ (conn w) || shutting_down_ (conn w)) eqn:Hover.
  { apply wp_ret. intros [Hup _]. unfold over in Hup. congruence. }
  apply wp_bind, wp_gets. destruct (is_writing_ (conn w)) eqn:Hwr.
  - destruct w as [[dr sh wr [l t] mo rb rs rm rn] so po pe tr ex sx nw ct]. unfold wp. simpl in *.
    intros Hup. split; [exact Hup|]. split; [done|]. by rewrite (queued_push _ _ _ t).
  - apply wp_bind. unfold wp at 1. simpl.
    eapply wp_mono; [apply do_write_outgoing| |done|done].
    intros [] w' (Hup & Hw & Hqueue & Hpost) Hup'. simpl in *.
    split; [exact (Hup Hup')|]. split; [done|]. rewrite Hw, Hqueue. unfold queued.
    rewrite Hidle by done. simpl. by rewrite app_nil_r.
Qed.

(** ** Steps *)

(** A completion lets nothing out. *)
Lemma ws_quiet_completion l op : completes l = Some op -> ws_sent [l] = [] /\ quiet (handler l).
Proof.
  destruct l as [m| |ec|ec x b|ec|ec x b|ec|t ec|ec|t n]; try done; intros _;
    (split; [done|]); simpl; unfold arrive, field; quiet_auto.
Qed.

Lemma ws_call_emits l w :
  inv w -> completes l = None -> emits (ws_sent [l]) (handler l) w.
Proof.
  intros Hinv. destruct l as [m| |ec|ec x b|ec|ec x b|ec|t ec|ec|t n]; try done; intros _.
  - simpl. unfold send_message, is_empty. case_bool_decide as Hm.
    + subst m. apply (quiet_ret (E := fault) ws_up ws_outgoing tt).
    + destruct m as [d|]; [|done]. unfold Prelude.emits, wp. simpl. intros Hup. split; [exact Hup|].
      unfold ws_outgoing. simpl. by rewrite omap_app, !app_assoc.
  - unfold Prelude.emits, handler. apply wp_bind, wp_gets.
    destruct (posted w) as [|m ms] eqn:Hpost;
      [by apply (quiet_ret (E := fault) ws_up ws_outgoing tt)|].
    apply wp_bind. unfold wp at 1. simpl.
    pose proof (inv_posted _ _ Hinv) as Hall. rewrite Hpost in Hall.
    apply Forall_cons in Hall as [[d ->] _].
    eapply wp_mono; [apply ws_send_in_strand_emits, Hinv| |done|done].
    intros [] w' Hw' Hup'. destruct (Hw' Hup') as (Hup & Hp & Hout). simpl in *.
    split; [exact Hup|]. unfold ws_outgoing. rewrite app_assoc, Hout, Hp, Hpost, app_nil_r.
    by rewrite <- !app_assoc.
  - apply (quiet_modify (E := fault) ws_up ws_outgoing). by unseen.
Qed.

Lemma ws_fire_emits l w : inv w -> emits (ws_sent [l]) (fire l) w.
Proof.
  intros Hinv. destruct (completes l) as [op|] eqn:Hl; unfold fire; rewrite Hl.
  - destruct (ws_quiet_completion l op Hl) as [-> Hq]. by apply emits_modify.
  - by apply ws_call_emits.
Qed.

Lemma ws_steps_outgoing w ls w' :
  steps w ls w' -> inv w -> ws_up w' ->
  ws_up w /\ ws_outgoing w' = ws_outgoing w ++ ws_sent ls.
Proof.
  induction 1 as [w|w l w1 ls w2 Hen Hfire _ IH]; intros Hinv Hup.
  - split; [done|]. by rewrite app_nil_r.
  - pose proof (ws_fire_inv l w Hinv Hen) as Hinv1. pose proof (ws_fire_emits l w Hinv) as He.
    unfold Prelude.emits, wp in *. rewrite Hfire in Hinv1, He.
    destruct (IH Hinv1 Hup) as [Hup1 Heq]. destruct (He Hup1) as [? He'].
    split; [done|]. rewrite Heq, He', <- app_assoc. f_equal.
    change (ws_sent (l :: ls)) with (ws_sent ([l] ++ ls)). unfold ws_sent. by rewrite bind_app.
Qed.

(** A connection after [run]. *)
Lemma ws_run_start time count w :
  run (construct time count) = Ok tt w -> inv w /\ ws_outgoing w = [].
Proof.
  intros Hrun. assert (inv (construct time count)) as Hinv.
  { constructor; simpl; [done|by exists []|done|done|by intros ?%elem_of_nil]. }
  pose proof (ws_run _ Hinv) as Hwp. unfold wp in Hwp. rewrite Hrun in Hwp. split; [done|].
  by injection Hrun as <-.
Qed.

(** ** The writer does not stop

    While a connection is up, [is_writing_] says that a write is on its way: unless a write
    was canceled, whose handler neither goes on nor ends the connection. *)
Definition busy (w : world) : Prop :=
  ws_up w -> is_writing_ (conn w) = true -> AsyncWrite ∈ pending w.

Definition uncanceled (l : label) : Prop :=
  match l with
  | WriteDone ec => failed ec = true -> is_connection_canceled_error ec = false
  | _ => True
  end.

Ltac in_world :=
  intros [[dr sh wr q mo rb rs rm rn] so po pe tr ex sx nw ct];
  unfold busy, ws_up, over, wp, mbind, M_bind, field, gets; simpl in *.

Lemma busy_emit e : preserves busy (emit e).
Proof. by in_world. Qed.
Lemma busy_start op : preserves busy (start op).
Proof. in_world. intros Hb Hup Hw. apply elem_of_app. left. auto. Qed.
Lemma busy_expires t d : preserves busy (expires_from_now t d).
Proof. by in_world. Qed.
Lemma busy_set_read_buffer b : preserves busy (set_read_buffer b).
Proof. by in_world. Qed.
Lemma busy_set_rate_limit a b c : preserves busy (set_rate_limit a b c).
Proof. by in_world. Qed.
Lemma busy_abort : preserves busy abort.
Proof. unfold abort. in_world. intros _. destruct dr; simpl; by intros [? ?]. Qed.
Lemma busy_on_shutdown ec : preserves busy (on_shutdown ec).
Proof. unfold on_shutdown. in_world. intros _. destruct dr; simpl; by intros [? ?]. Qed.

(** It is not up any more, whatever it was. *)
Lemma shutdown_down w : wp shutdown w (fun _ w' => ~ ws_up w') (fun _ => True) True.
Proof.
  unfold shutdown. revert w. in_world. destruct dr, sh, so; simpl; by intros [? ?].
Qed.
Lemma busy_shutdown : preserves busy shutdown.
Proof.
  intros w _. eapply wp_mono; [apply shutdown_down| |done|done]. by intros a w' Hdown Hup.
Qed.

Lemma busy_do_write m w :
  wp (do_write_message m) w (fun _ w' => busy w') (fun _ => True) True.
Proof.
  destruct m as [d|]; [|done]. unfold do_write_message. revert w. in_world.
  intros _ _. apply elem_of_app. right. by left.
Qed.

Lemma busy_send_in_strand m : preserves busy (send_in_strand m).
Proof.
  unfold send_in_strand, field. do 2 (apply preserves_bind; [apply preserves_gets|intros ?]).
  apply preserves_return_if. apply preserves_bind; [apply preserves_gets|]. intros [].
  - unfold on_queue. in_world. intros Hb. by destruct (push m q).
  - intros w _. apply wp_bind. unfold wp at 1. simpl. apply busy_do_write.
Qed.

Lemma busy_write_done ec w :
  (failed ec = true -> is_connection_canceled_error ec = false) ->
  wp (on_write_message ec) w (fun _ w' => busy w') (fun _ => True) True.
Proof.
  intros Hec. unfold on_write_message. apply wp_bind. unfold wp at 1. simpl.
  destruct (failed ec).
  - set (w1 := mkWorld _ _ _ _ _ _ _ _ _). clearbody w1. clear w.
    unfold handle_write_error. apply wp_bind, wp_gets. unfold return_if.
    destruct (dropped_ (conn w1)) eqn:Hd.
    { apply wp_ret. intros [Hup _]. unfold over in Hup. by rewrite Hd in Hup. }
    rewrite (Hec eq_refl). destruct (is_connection_reset_error ec).
    + unfold abort. revert w1 Hd. in_world. intros ->. by intros [? ?].
    + eapply wp_mono; [apply shutdown_down| |done|done]. by intros a w' Hdown Hup.
  - apply wp_bind. unfold on_queue. destruct w as [[dr sh wr q mo rb rs rm rn] so po pe tr ex sx nw ct].
    unfold wp at 1. cbn [message_queue_ conn]. destruct (try_pop q) as [[m|] q'|e|]; simpl; try done.
    apply busy_do_write.
Qed.

Lemma busy_frame : frame_messages busy.
Proof.
  constructor; [constructor; [constructor|..]|..];
    auto using busy_emit, busy_start, busy_expires, busy_set_read_buffer, busy_set_rate_limit,
      busy_abort, busy_shutdown, busy_on_shutdown.
  - intros m. unfold send_message. destruct (is_empty m); [apply preserves_ret|]. by in_world.
  - simpl. apply preserves_bind; [apply preserves_gets|]. intros [|m l]; [apply preserves_ret|].
    apply preserves_bind; [by in_world|]. intros _. apply busy_send_in_strand.
  - intros b. apply busy_emit.
Qed.

Lemma busy_handler l : (forall ec, l <> WriteDone ec) -> preserves busy (handler l).
Proof.
  intros Hl. destruct l as [| | | | | |ec| | |t n]; try by apply (frame_messages_handler _ busy_frame).
  - by destruct (Hl ec).
  - by in_world.
Qed.

Lemma busy_fire l w w' : uncanceled l -> busy w -> fire l w = Ok tt w' -> busy w'.
Proof.
  intros Hl Hb Hfire. destruct (completes l) as [op|] eqn:Hc.
  2:{ rewrite fire_call in Hfire by done.
      eapply preserves_Ok; [apply (busy_handler l)|done|done]. by intros ec ->. }
  rewrite (fire_completes _ _ op) in Hfire by done. destruct (decide (op = AsyncWrite)) as [->|Hop].
  - destruct l; try done. pose proof (busy_write_done ec (without AsyncWrite w) Hl) as Hwp.
    simpl in Hfire. unfold wp in Hwp. by rewrite Hfire in Hwp.
  - eapply preserves_Ok; [apply (busy_handler l)|done|]; [by intros ec ->; injection Hc|].
    intros Hup Hw. by apply remove_one_other; [|apply Hb].
Qed.

Lemma busy_steps w ls w' : steps w ls w' -> Forall uncanceled ls -> busy w -> busy w'.
Proof.
  induction 1 as [|w l w1 ls w2 Hen Hfire _ IH]; [done|]. intros [Hl Hls]%Forall_cons Hb.
  apply IH; [done|]. by eapply busy_fire.
Qed.

(** C24: messages leave for the browser in the order in which they are sent, each once and
    whole. From the start of a connection on, whatever it receives and in whatever order its
    operations complete, as long as it is neither dropped nor shutting down the payloads
    written, then those queued, then those still posted to the strand, are those that were
    sent; and the writer does not stop: unless a write was canceled, when no write is on its
    way and no task is posted, all of them were written. *)
Theorem ws_send_in_order time count w0 ls w :
  run (construct time count) = Ok tt w0 -> steps w0 ls w -> ws_up w ->
  writes (trace w) ++ queued (message_queue_ (conn w)) ++ payloads (posted w) = ws_sent ls /\
  (Forall uncanceled ls -> AsyncWrite ∉ pending w -> posted w = [] -> writes (trace w) = ws_sent ls).
Proof.
  intros Hrun Hsteps Hup. destruct (ws_run_start _ _ _ Hrun) as [Hinv Hout].
  destruct (ws_steps_outgoing w0 ls w Hsteps Hinv Hup) as [_ Heq]. rewrite Hout in Heq.
  split; [exact Heq|]. intros Hls Hpending Hp.
  assert (busy w0) as Hb by (by injection Hrun as <-).
  assert (is_writing_ (conn w) = false) as Hw.
  { destruct (is_writing_ (conn w)) eqn:Hw; [|done].
    by destruct (Hpending (busy_steps w0 ls w Hsteps Hls Hb Hup Hw)). }
  pose proof (inv_idle _ _ (ws_steps_inv w0 ls w Hsteps Hinv) Hw) as Hq.
  unfold ws_outgoing, queued in Heq. rewrite Hq, Hp in Heq. simpl in Heq. by rewrite app_nil_r in Heq.
Qed.
End send.

(** ** Witness: two messages, the second queued while the first is written. *)

#[local] Existing Instance linux_errors.
#[local] Existing Instance default_config.

Definition both_sent : list label :=
  [Send (Some (str "a")); Send (Some (str "b")); Posted; Posted; WriteDone success; WriteDone success].

Definition ws_running : world := Eval vm_compute in
  match run (construct 0 0) with Ok _ w => w | _ => construct 0 0 end.

Definition both_written : world := Eval vm_compute in
  default ws_running (play both_sent ws_running).

Lemma ws_send_in_order_witness :
  writes (trace both_written) ++ queued (message_queue_ (conn both_written)) ++
    payloads (posted both_written) = [str "a"; str "b"] /\
  (Forall uncanceled both_sent -> AsyncWrite ∉ pending both_written -> posted both_written = [] ->
   writes (trace both_written) = [str "a"; str "b"]).
Proof.
  refine (ws_send_in_order 0 0 ws_running both_sent both_written eq_refl _ (conj eq_refl eq_refl)).
  apply play_steps. reflexivity.
Defined.
