(* ===== verification/WsSafe.v ===== *)
(** * The handlers of a connection to a browser never fault

    One handler at a time reads from the client, and the counter of the rate limiter stays
    within the limit and one: so no [int] of the connection overflows. *)
From S2P Require Import Prelude Message MessageQueue ErrorCode WsConnection WsInvariant WsLife WsSend.

Definition receive_count (l : list operation) : nat :=
  length (filter (fun op => receives op) l).

Lemma receive_count_app l1 l2 : receive_count (l1 ++ l2) = (receive_count l1 + receive_count l2)%nat.
Proof. unfold receive_count. by rewrite filter_app, length_app. Qed.

Lemma receive_count_remove op l :
  op ∈ l ->
  (receive_count (remove_one op l) + (if receives op then 1 else 0) = receive_count l)%nat.
Proof. apply (remove_one_count receives). Qed.

(** The invariant, when the handler that runs stands for [k] operations that receive, and
    the limit of messages was never above [most]. *)
Record paced_within (most : Z) (k : nat) (w : world) : Prop := {
  paced_count : (receive_count (pending w) + k <= 1)%nat;
  paced_messages : 0 <= rate_limit_messages_ (conn w) <= most + 1;
  paced_limit : (receive_count (pending w) + k = 1)%nat -> rate_limit_messages_ (conn w) <= most;
}.

(** The timeout leaves room in an [int], and at most [most] messages are let through. *)
Record roomy (fc : FrontConfig) (most : Z) : Prop := {
  roomy_timeout : - 2 ^ 31 <= ws_timeout + 5 <= int_max;
  roomy_messages : rate_limit_messages <= most;
}.

Section safe.
Context `{AsioErrors} `{fc : FrontConfig}.
Variable most : Z.
Hypothesis Hmost : 0 <= most < int_max.
Hypothesis Hroomy : roomy fc most.

Abbreviation paced := (paced_within most).

(** [m] goes from [k] to [k'], and no [int] overflows. *)
Definition paces {A} (k k' : nat) (m : C A) : Prop :=
  forall w, paced k w -> wp m w (fun _ w' => paced k' w') (fun e => e <> IntOverflow) True.

Lemma paces_bind {A B} k k1 k2 (m : C A) (f : A -> C B) :
  paces k k1 m -> (forall a, paces k1 k2 (f a)) -> paces k k2 (m ≫= f).
Proof.
  intros Hm Hf w Hw. apply wp_bind. eapply wp_mono; [by apply Hm| |done|done].
  intros a w'. apply Hf.
Qed.

Lemma paces_ret {A} (a : A) k : paces k k (mret a).
Proof. by intros w Hw. Qed.
Lemma paces_gets {A} (f : world -> A) k : paces k k (gets f).
Proof. by intros w Hw. Qed.
Lemma paces_return_if b k m : paces k k m -> paces k k (return_if b m).
Proof. intros Hm. destruct b; [apply paces_ret|done]. Qed.
Lemma paces_modify (f : world -> world) k :
  (forall w, pending (f w) = pending w /\ rate_limit_messages_ (conn (f w)) = rate_limit_messages_ (conn w)) ->
  paces k k (modify f).
Proof. intros Hf w []. destruct (Hf w) as [Hp Hm]. constructor; simpl; by rewrite ?Hp, ?Hm. Qed.

(** What was received may be the last. *)
Lemma paces_last {A} (m : C A) : paces 1 1 m -> paces 1 0 m.
Proof.
  intros Hm w Hw. eapply wp_mono; [by apply Hm| |done|done].
  intros a w' []. constructor; [lia|done|lia].
Qed.

Ltac in_world :=
  intros [[dr sh wr q mo rb rs rm rn] so po pe tr ex sx nw ct] [Hc Hm Hl];
  unfold wp, mbind, M_bind, field, gets; simpl in *.

Lemma paces_start op k : receives op = false -> paces k k (start op).
Proof.
  intros Hop. in_world. assert (receive_count (pe ++ [op]) = receive_count pe) as Heq.
  { rewrite receive_count_app. unfold receive_count at 2. rewrite filter_cons, Hop. simpl. lia. }
  constructor; simpl; by rewrite ?Heq.
Qed.

(** The next one. *)
Lemma paces_next op : receives op = true -> paces 1 0 (start op).
Proof.
  intros Hop. in_world. assert (receive_count (pe ++ [op]) = S (receive_count pe)) as Heq.
  { rewrite receive_count_app. unfold receive_count at 2. rewrite filter_cons, Hop. simpl. lia. }
  constructor; simpl; [lia|done|]. intros _. apply Hl. lia.
Qed.

Lemma paces_emit e k : paces k k (emit e).
Proof. by apply paces_modify. Qed.
Lemma paces_expires t d k : paces k k (expires_from_now t d).
Proof. by apply paces_modify. Qed.
Lemma paces_set_read_buffer b k : paces k k (set_read_buffer b).
Proof. by apply paces_modify. Qed.
Lemma paces_set_is_writing b k : paces k k (set_is_writing b).
Proof. by apply paces_modify. Qed.
Lemma paces_set_outbound m k : paces k k (set_message_outbound m).
Proof. by apply paces_modify. Qed.
Lemma paces_data m k : paces k k (data m : C bytes).
Proof. intros w Hw. by destruct m. Qed.
Lemma paces_size m k : paces k k (size m : C Z).
Proof. intros w Hw. by destruct m. Qed.

Lemma paces_on_queue {A} (m : M fault MessageQueue A) k :
  (forall q, m q <> Err IntOverflow) -> paces k k (on_queue m).
Proof.
  intros Hq. in_world. unfold on_queue. simpl. specialize (Hq q). destruct (m q); simpl; [by constructor| |done].
  by intros ->.
Qed.

Lemma push_overflow m q : push m q <> Err IntOverflow.
Proof. by destruct m. Qed.
Lemma try_pop_overflow q : try_pop q <> Err IntOverflow.
Proof.
  unfold try_pop, mbind, M_bind, get. destruct (last (queue_ q)) as [[m|]|]; simpl; done.
Qed.

Lemma paces_abort k : paces k k abort.
Proof. unfold abort. in_world. by destruct dr. Qed.
Lemma paces_shutdown k : paces k k shutdown.
Proof.
  unfold shutdown. in_world. destruct dr, sh, so; simpl; try by constructor.
  constructor; simpl; rewrite ?receive_count_app, ?Nat.add_0_r; done.
Qed.
Lemma paces_on_shutdown ec k : paces k k (on_shutdown ec).
Proof. unfold on_shutdown. in_world. by destruct dr. Qed.

Create HintDb ws_paces discriminated.
#[local] Hint Resolve paces_ret paces_gets paces_return_if paces_emit paces_expires
  paces_set_read_buffer paces_set_is_writing paces_set_outbound paces_data paces_size paces_abort
  paces_shutdown paces_on_shutdown push_overflow try_pop_overflow paces_on_queue : ws_paces.
#[local] Hint Extern 1 (paces _ _ (start _)) => apply paces_start; reflexivity : ws_paces.
#[local] Hint Extern 1 (paces 1 0 (start _)) => apply paces_next; reflexivity : ws_paces.

Ltac pace :=
  repeat (first [solve [eauto with ws_paces nocore]
                | apply paces_last; solve [eauto with ws_paces nocore]
                | apply paces_bind with (k1 := 1%nat); [solve [eauto with ws_paces nocore]|intros ?]
                | apply paces_bind with (k1 := 0%nat); [solve [eauto with ws_paces nocore]|intros ?]
                | match goal with |- paces _ _ (if ?b then _ else _) => destruct b end]).

Lemma paces_timeout_delay k : paces k k (int_add ws_timeout 5).
Proof. intros w Hw. unfold int_add. rewrite decide_True; [done|]. apply Hroomy. Qed.

Lemma paces_set_timeout d k : paces k k (set_timeout d).
Proof.
  unfold set_timeout. apply paces_bind with (k1 := k); [eauto with ws_paces|intros _].
  apply paces_bind with (k1 := k); eauto with ws_paces.
Qed.
#[local] Hint Resolve paces_timeout_delay paces_set_timeout : ws_paces.

Lemma paces_refresh_timeout k : paces k k refresh_timeout.
Proof.
  unfold refresh_timeout. apply paces_bind with (k1 := k); [eauto with ws_paces|intros l].
  case_decide; [|apply paces_ret].
  apply paces_bind with (k1 := k); eauto with ws_paces.
Qed.

Lemma paces_handle_error ec k : paces k k (handle_read_error ec).
Proof.
  unfold handle_read_error, field. apply paces_bind with (k1 := k); [eauto with ws_paces|intros dr].
  apply paces_return_if. destruct (is_connection_reset_error ec); eauto with ws_paces.
Qed.
#[local] Hint Resolve paces_refresh_timeout paces_handle_error : ws_paces.

Lemma paces_on_timeout ec k : paces k k (on_timeout ec).
Proof.
  unfold on_timeout, field. apply paces_bind with (k1 := k); eauto with ws_paces.
Qed.

(** ** Writing *)

Lemma paces_do_write m k : paces k k (do_write_message m).
Proof.
  unfold do_write_message, field.
  repeat (apply paces_bind with (k1 := k); [eauto with ws_paces|intros ?]). eauto with ws_paces.
Qed.
#[local] Hint Resolve paces_do_write : ws_paces.

Lemma paces_send_in_strand m k : paces k k (send_in_strand m).
Proof.
  unfold send_in_strand, field. do 2 (apply paces_bind with (k1 := k); [eauto with ws_paces|intros ?]).
  apply paces_return_if. apply paces_bind with (k1 := k); [eauto with ws_paces|intros []];
    [eauto with ws_paces|].
  apply paces_bind with (k1 := k); eauto with ws_paces.
Qed.

Lemma paces_on_write ec k : paces k k (on_write_message ec).
Proof.
  unfold on_write_message. apply paces_bind with (k1 := k); [eauto with ws_paces|intros _].
  destruct (failed ec); [apply paces_handle_error|].
  apply paces_bind with (k1 := k); [eauto with ws_paces|intros [m|]]; eauto with ws_paces.
Qed.

(** ** Receiving *)

Lemma paces_on_ssl_handshake ec : paces 1 0 (on_ssl_handshake ec).
Proof. unfold on_ssl_handshake. destruct (failed ec); pace. Qed.

Lemma paces_on_read_request ec b : paces 1 0 (on_read_request ec b).
Proof.
  unfold on_read_request, field. destruct (failed ec); [apply paces_last, paces_handle_error|].
  apply paces_bind with (k1 := 1%nat); [eauto with ws_paces|intros buf].
  apply paces_bind with (k1 := 1%nat); [case_decide; eauto with ws_paces|intros _].
  apply paces_bind with (k1 := 1%nat); [eauto with ws_paces|intros n].
  case_decide; [|destruct b]; pace.
Qed.

Lemma paces_on_ws_handshake ec : paces 1 0 (on_ws_handshake ec).
Proof.
  unfold on_ws_handshake, field. apply paces_bind with (k1 := 1%nat); [eauto with ws_paces|intros dr].
  unfold return_if. destruct dr; [pace|]. destruct (failed ec); pace.
Qed.

(** A message is counted, and the counter checked. *)
Definition counted (w : world) : Prop :=
  receive_count (pending w) = 0%nat /\ 0 <= rate_limit_messages_ (conn w) <= most + 1.

Lemma count_inbound_counted n w :
  paced 1 w -> wp (count_inbound n) w (fun _ w' => counted w') (fun e => e <> IntOverflow) True.
Proof.
  revert w. in_world.
  unfold count_inbound, int_add, field, mbind, M_bind, gets. simpl.
  assert (rm <= most) by (apply Hl; lia).
  rewrite decide_True by (unfold int_max in *; lia). unfold counted. simpl. split; lia.
Qed.

Lemma check_rate_paced w :
  counted w ->
  wp check_rate_limit w (fun killed w' => paced (if (killed : bool) then 0 else 1) w')
    (fun e => e <> IntOverflow) True.
Proof.
  intros [Hc Hm]. unfold check_rate_limit, field. do 2 apply wp_bind, wp_gets.
  case_decide as Hover.
  - do 2 apply wp_bind, wp_gets. case_decide.
    + apply wp_bind. unfold wp. simpl.
      constructor; simpl; rewrite ?Hc; simpl; lia.
    + apply wp_bind. assert (paced 0 w) as Hw by (constructor; [lia|done|lia]).
      eapply wp_mono; [by apply (paces_abort 0)| |done|done]. by intros [] w' Hw'.
  - apply wp_ret. constructor; [lia|done|]. intros _. pose proof (roomy_messages _ _ Hroomy). lia.
Qed.

Lemma paces_on_read ec n b : paces 1 0 (on_read ec n b).
Proof.
  unfold on_read. destruct (failed ec); [apply paces_last, paces_handle_error|].
  intros w Hw. apply wp_bind. eapply wp_mono; [by apply count_inbound_counted| |done|done].
  intros [] w1 Hw1. apply wp_bind. eapply wp_mono; [by apply check_rate_paced| |done|done].
  intros [] w2 Hw2; [by apply wp_ret|]. revert w2 Hw2. change (paces 1 0
    (if b then buf ← consume n; start AsyncRead;; refresh_timeout;; process_message buf else shutdown)).
  unfold consume, process_message, field. destruct b; [|by apply paces_last, paces_shutdown].
  apply paces_bind with (k1 := 1%nat); [|intros buf; pace].
  pace.
Qed.

(** ** Any step *)

Lemma paces_handler l :
  paces (if completes l is Some op then if receives op then 1 else 0 else 0)%nat 0 (handler l).
Proof.
  destruct l as [m| |ec|ec x b|ec|ec x b|ec|t ec|ec|t n]; simpl; unfold arrive, field.
  - unfold send_message. destruct (is_empty m); [apply paces_ret|by apply paces_modify].
  - apply paces_bind with (k1 := 0%nat); [apply paces_gets|]. intros [|m l]; [apply paces_ret|].
    apply paces_bind with (k1 := 0%nat); [by apply paces_modify|]. intros _. apply paces_send_in_strand.
  - apply paces_on_ssl_handshake.
  - apply paces_bind with (k1 := 1%nat); [pace|]. intros _. apply paces_on_read_request.
  - apply paces_on_ws_handshake.
  - apply paces_bind with (k1 := 1%nat); [pace|]. intros _. apply paces_on_read.
  - apply paces_on_write.
  - apply paces_on_timeout.
  - apply paces_on_shutdown.
  - by apply paces_modify.
Qed.

Lemma paced_fire l w :
  paced 0 w -> enabled l w ->
  wp (fire l) w (fun _ w' => paced 0 w') (fun e => e <> IntOverflow) True.
Proof.
  intros Hw Hen. pose proof (paces_handler l) as Hl. unfold enabled in Hen.
  destruct (completes l) as [op|] eqn:Hc; unfold fire; rewrite Hc.
  - apply wp_bind. unfold wp at 1. simpl. apply Hl.
    pose proof (receive_count_remove op _ Hen) as Hcount. destruct Hw as [H1 H2 H3].
    destruct (receives op); constructor; simpl; try done; try lia; intros; apply H3; lia.
  - apply wp_bind, wp_ret. by apply Hl.
Qed.

Lemma paced_steps w ls w' : steps w ls w' -> paced 0 w -> paced 0 w'.
Proof.
  induction 1 as [|w l w1 ls w2 Hen Hfire _ IH]; [done|]. intros Hw. apply IH.
  pose proof (paced_fire l w Hw Hen) as Hwp. unfold wp in Hwp. by rewrite Hfire in Hwp.
Qed.

(** From the start on, no connection is ahead of its pace. *)
Lemma paced_start time count w : run (construct time count) = Ok tt w -> paced 0 w.
Proof. intros [= <-]. constructor; simpl; [done|lia|lia]. Qed.

Lemma run_paced time count w0 ls w :
  run (construct time count) = Ok tt w0 -> steps w0 ls w -> paced 0 w.
Proof.
  intros Hrun Hsteps. eapply paced_steps; [exact Hsteps|]. by eapply paced_start.
Qed.

(** A handler that can run runs to its end, and keeps the invariants. *)
Lemma paced_runs l w :
  inv w -> paced 0 w -> enabled l w -> exists w', fire l w = Ok tt w' /\ inv w' /\ paced 0 w'.
Proof.
  intros Hinv Hp Hen. pose proof (ws_fire_inv l w Hinv Hen) as H1.
  pose proof (paced_fire l w Hp Hen) as H2. unfold wp in *.
  destruct (fire l w) as [[] w'|e|]; [by exists w'|done|done].
Qed.

Lemma run_fires time count w0 ls w l :
  run (construct time count) = Ok tt w0 -> steps w0 ls w -> enabled l w ->
  exists w', fire l w = Ok tt w'.
Proof.
  intros Hrun Hsteps Hen. destruct (ws_run_start _ _ _ Hrun) as [Hinv0 _].
  destruct (paced_runs l w) as (w' & ? & _); [by eapply ws_steps_inv|by eapply run_paced|done|].
  by exists w'.
Qed.
End safe.

Section never_faults.
Context `{AsioErrors} `{fc : FrontConfig}.
Hypothesis Htimeout : - 2 ^ 31 <= ws_timeout + 5 <= int_max.
Hypothesis Hmessages : rate_limit_messages < int_max.


(** The handlers of a connection never fault. With a timeout and a limit of messages that
    leave room in an [int], from the start of a connection on, every handler that can run
    runs to its end, whatever was sent and received and in whatever order its operations
    complete: none follows a null pointer, and no counter overflows. And at most one
    operation at a time receives from the client, of the two handshakes, the request and
    the messages, so that [read_buffer_] is never used by two. *)
Theorem ws_never_faults time count w0 ls w :
  run (construct time count) = Ok tt w0 -> steps w0 ls w ->
  (forall l, enabled l w -> exists w', fire l w = Ok tt w') /\
  (receive_count (pending w) <= 1)%nat /\
  0 <= rate_limit_messages_ (conn w) <= Z.max 0 rate_limit_messages + 1.
Proof.
  intros Hrun Hsteps. set (most := Z.max 0 rate_limit_messages).
  assert (0 <= most < int_max) as Hmost by (unfold most, int_max in *; lia).
  assert (roomy fc most) as Hroomy by (constructor; [done|unfold most; lia]).
  destruct (run_paced most Hmost Hroomy _ _ _ _ _ Hrun Hsteps) as [Hc Hm Hl].
  split; [|split; [lia|done]]. intros l Hen. by eapply run_fires.
Qed.
End never_faults.

(** ** Witness *)

#[local] Existing Instance linux_errors.
#[local] Existing Instance default_config.

Lemma ws_never_faults_witness :
  (forall l, enabled l both_written -> exists w', fire l both_written = Ok tt w') /\
  (receive_count (pending both_written) <= 1)%nat /\
  0 <= rate_limit_messages_ (conn both_written) <= Z.max 0 100 + 1.
Proof.
  refine (ws_never_faults _ _ 0 0 ws_running both_sent both_written eq_refl _).
  - by split; apply Z.leb_le.
  - by apply Z.ltb_lt.
  - apply play_steps. reflexivity.
Defined.
