(* ===== verification/WsRate.v ===== *)
(** * The rate limiter of a connection to a browser

    What a client gets through: the limiter as a step on its counters, the runs of a
    connection as sequences of these steps, and the bound. *)
From S2P Require Import Prelude Message MessageQueue ErrorCode WsConnection WsInvariant WsLife WsClock WsSend WsSafe.

(** The messages handed on. *)
Definition processed (t : list event) : list bytes :=
  t ≫= fun e => match e with Processed b => [b] | _ => [] end.

Lemma ws_processed_app t1 t2 : processed (t1 ++ t2) = processed t1 ++ processed t2.
Proof. apply bind_app. Qed.

(** The bytes of messages. *)
Definition byte_count (ds : list bytes) : Z := foldr (fun d acc => Z.of_nat (length d) + acc) 0 ds.

Section rate.
Context `{AsioErrors} `{FrontConfig}.

(** The counters of [w]. *)
Definition rate_state (w : world) : Z * Z * Z :=
  (rate_limit_start_ (conn w), rate_limit_messages_ (conn w), rate_limit_bytes_ (conn w)).

(** [w] with other counters. *)
Definition with_rate (s : Z * Z * Z) (w : world) : world :=
  let c := conn w in
  mkWorld (mkWsConnection (dropped_ c) (shutting_down_ c) (is_writing_ c) (message_queue_ c)
             (message_outbound_ c) (read_buffer_ c) s.1.1 s.1.2 s.2)
    (socket_open w) (posted w) (pending w) (trace w) (expiry w) (state_expiry w) (now w)
    (active_connection_count w).

Lemma byte_count_app ds ds' : byte_count (ds ++ ds') = byte_count ds + byte_count ds'.
Proof. unfold byte_count. induction ds as [|d ds IH]; simpl in *; lia. Qed.

(** The limiter alone: the new counters, or [None] when the connection is killed. *)
Definition rate_step (time n : Z) (s : Z * Z * Z) : option (Z * Z * Z) :=
  let '(start_, messages, total) := s in
  let messages' := messages + 1 in
  let total' := uint64 (total + n) in
  if decide (rate_limit_messages < messages' \/ uint64 rate_limit_bytes < total') then
    if decide (seconds 1 < time - start_) then Some (time, 0, 0) else None
  else Some (start_, messages', total').

#[local] Arguments rate_step : simpl never.

Lemma check_rate_step time n w :
  now w = time -> rate_limit_messages_ (conn w) < int_max -> 0 <= rate_limit_messages_ (conn w) ->
  match rate_step time n (rate_state w) with
  | Some s => (count_inbound n;; check_rate_limit) w = Ok false (with_rate s w)
  | None => exists w', (count_inbound n;; check_rate_limit) w = Ok true w' /\
              pending w' = pending w /\ processed (trace w') = processed (trace w)
  end.
Proof.
  intros <- Hm Hm0. unfold rate_step. destruct w as [[dr sh wr q mo rb rs rm rn] so po pe tr ex sx nw ct].
  simpl in *. unfold count_inbound, int_add, mbind, M_bind, field, gets. simpl.
  rewrite (decide_True (P := - 2 ^ 31 <= rm + 1 <= int_max)) by (unfold int_max in *; lia).
  unfold check_rate_limit, mbind, M_bind, field, gets. simpl.
  destruct (decide (rate_limit_messages < rm + 1 \/ _)); simpl; [|done].
  destruct (decide (seconds 1 < nw - rs)); simpl; [done|].
  unfold abort, mbind, M_bind, field, gets. destruct dr; simpl; eexists; split_and!; try done.
  simpl. by rewrite !ws_processed_app, !app_nil_r.
Qed.

(** The arithmetic of the limiter does not wrap and is not exceeded at rest. *)
Definition rate_ok (m : Z) (s : Z * Z * Z) : Prop :=
  0 <= s.1.2 <= rate_limit_messages /\ 0 <= s.2 <= rate_limit_bytes /\
  0 <= m /\ rate_limit_messages < int_max /\ rate_limit_bytes + m < 2 ^ 64.

Lemma rate_step_cases m time n s s' :
  rate_ok m s -> 0 <= n <= m -> rate_step time n s = Some s' ->
  rate_ok m s' /\
  ((s'.1.1 = s.1.1 /\ s'.1.2 = s.1.2 + 1 /\ s'.2 = s.2 + n) \/
   (s' = (time, 0, 0) /\ seconds 1 < time - s.1.1)).
Proof.
  destruct s as [ [st me] by_]. intros (Hme & Hby & Hm & Hmax & Hwrap) Hn.
  unfold rate_step. simpl in *.
  assert (uint64 rate_limit_bytes = rate_limit_bytes) as Hb.
  { unfold uint64. apply Z.mod_small. lia. }
  assert (uint64 (by_ + n) = by_ + n) as Hbn.
  { unfold uint64. apply Z.mod_small. lia. }
  rewrite Hb, Hbn.
  destruct (decide (rate_limit_messages < me + 1 \/ rate_limit_bytes < by_ + n)) as [Hex|Hex].
  - destruct (decide (seconds 1 < time - st)); [|done]. intros [= <-]. simpl.
    split; [split_and!; simpl; lia|by right].
  - intros [= <-]. split; [split_and!; simpl; lia|left; by split_and!].
Qed.

Definition total (l : list (Z * Z)) : Z := foldr (fun p acc => p.2 + acc) 0 l.

(** A sequence the limiter lets through, as a relation on its counters. *)
Fixpoint rate_run (l : list (Z * Z)) (s : Z * Z * Z) : option (Z * Z * Z) :=
  match l with
  | [] => Some s
  | (time, n) :: l' =>
      match rate_step time n s with Some s' => rate_run l' s' | None => None end
  end.

Lemma total_app l l' : total (l ++ l') = total l + total l'.
Proof. unfold total. induction l as [|p l IH]; simpl in *; lia. Qed.

Lemma rate_run_app l l' s :
  rate_run (l ++ l') s = match rate_run l s with Some s' => rate_run l' s' | None => None end.
Proof. revert s. induction l as [|[time n] l IH]; intros s; simpl; [done|]. by destruct (rate_step time n s). Qed.

(** While no second has passed since the last reset. *)
Lemma rate_run_same m l s s' t :
  rate_ok m s -> Forall (fun p => 0 <= p.2 <= m /\ p.1 <= t + seconds 1) l -> t <= s.1.1 ->
  rate_run l s = Some s' ->
  Z.of_nat (length l) <= rate_limit_messages - s.1.2 /\ total l <= rate_limit_bytes - s.2.
Proof.
  revert s. induction l as [|[time n] l IH]; intros s Hok Hl Ht Hrun.
  { destruct Hok as (? & ? & _). simpl. lia. }
  apply Forall_cons in Hl as [[Hn Htime] Hl]. simpl in *.
  destruct (rate_step time n s) as [s1|] eqn:Hs; [|done].
  destruct (rate_step_cases m time n s s1 Hok Hn Hs) as [Hok1 [(H1 & H2 & H3)|[-> Hreset]]]; [|lia].
  destruct (IH s1 Hok1 Hl ltac:(lia) Hrun). lia.
Qed.

Lemma rate_run_window m l s s' t :
  rate_ok m s -> Forall (fun p => 0 <= p.2 <= m /\ t <= p.1 <= t + seconds 1) l ->
  rate_run l s = Some s' ->
  Z.of_nat (length l) <= (rate_limit_messages - s.1.2) + 1 + rate_limit_messages /\
  total l <= (rate_limit_bytes - s.2) + m + rate_limit_bytes.
Proof.
  revert s. induction l as [|[time n] l IH]; intros s Hok Hl Hrun.
  { destruct Hok as (? & ? & ? & _). simpl. lia. }
  apply Forall_cons in Hl as [(Hn & Htime) Hl]. simpl in *.
  destruct (rate_step time n s) as [s1|] eqn:Hs; [|done].
  destruct (rate_step_cases m time n s s1 Hok Hn Hs) as [Hok1 [(H1 & H2 & H3)|[-> Hreset]]].
  - destruct (IH s1 Hok1 Hl Hrun). lia.
  - destruct Hok as (Hm & Hb & _).
    assert (Forall (fun p => 0 <= p.2 <= m /\ p.1 <= t + seconds 1) l) as Hl'.
    { eapply Forall_impl; [exact Hl|]. simpl. intros p (? & ?). lia. }
    destruct (rate_run_same m l _ s' t Hok1 Hl' ltac:(simpl; lia) Hrun) as [Hlen Htot].
    simpl in Hlen, Htot. lia.
Qed.


(** ** The handlers and the limiter *)

(** The counters are [s], and [p] was handed on. *)
Definition still (s : Z * Z * Z) (p : list bytes) (w : world) : Prop :=
  rate_state w = s /\ processed (trace w) = p.

Ltac in_world :=
  intros [[dr sh wr q mo rb rs rm rn] so po pe tr ex sx nw ct];
  unfold still, rate_state, wp, mbind, M_bind, field, gets; simpl in *.

Lemma still_emit s p e :
  match e with Processed _ => False | _ => True end -> preserves (still s p) (emit e).
Proof.
  intros He. in_world. intros [<- <-]. split; [done|]. rewrite ws_processed_app.
  destruct e; simpl; by rewrite ?app_nil_r.
Qed.
Lemma still_start s p op : preserves (still s p) (start op).
Proof. in_world. intros [<- <-]. split; [done|]. by rewrite ws_processed_app, app_nil_r. Qed.
Lemma still_queue {A} s p (m : M fault MessageQueue A) : preserves (still s p) (on_queue m).
Proof. in_world. unfold on_queue. simpl. by destruct (m q). Qed.
Lemma still_close_socket s p : preserves (still s p) close_socket.
Proof. in_world. intros [<- <-]. split; [done|]. by rewrite ws_processed_app, app_nil_r. Qed.

Lemma still_writer s p : frame_writer (still s p).
Proof.
  constructor; try (intros; by in_world); auto using still_start, @still_queue.
  intros b. by apply still_emit.
Qed.

Create HintDb ws_still discriminated.
#[local] Hint Resolve still_start still_queue still_close_socket preserves_gets preserves_ret
  preserves_return_if : ws_still.
#[local] Hint Extern 1 (preserves _ (emit _)) => apply still_emit; exact I : ws_still.
#[local] Hint Extern 2 (preserves _ (set_dropped _)) => by in_world : ws_still.
#[local] Hint Extern 2 (preserves _ (set_shutting_down _)) => by in_world : ws_still.

Lemma still_frame s p : frame_handshakes (still s p).
Proof.
  constructor; [constructor|..]; try (intros; by in_world); auto using still_start.
  - intros e He. apply still_emit. by destruct e.
  - unfold abort, field.
    repeat (first [apply preserves_bind; [solve [auto with ws_still]|intros ?] | apply preserves_return_if]);
      auto with ws_still.
  - unfold shutdown, field.
    repeat (first [apply preserves_bind; [solve [auto with ws_still]|intros ?] | apply preserves_return_if]);
      auto with ws_still.
  - intros ec. unfold on_shutdown, field.
    repeat (first [apply preserves_bind; [solve [auto with ws_still]|intros ?] | apply preserves_return_if]);
      auto with ws_still.
  - intros m. unfold send_message. destruct (is_empty m); [apply preserves_ret|by in_world].
  - simpl. apply preserves_bind; [apply preserves_gets|]. intros [|m l]; [apply preserves_ret|].
    apply preserves_bind; [by in_world|]. intros _. apply frame_send_in_strand, still_writer.
Qed.

Lemma still_handler s p l :
  match l with ReadDone ec _ _ => failed ec = true | _ => True end -> preserves (still s p) (handler l).
Proof.
  intros Hl. destruct l as [| | | | |ec x b|ec| | |t n];
    try by apply (frame_handshakes_handler _ (still_frame s p)).
  - apply frame_on_write_message; [apply still_writer|]. apply frame_handle_error, still_frame.
  - by in_world.
Qed.

(** The rest of [on_read], when the limiter lets the message through. *)
Lemma read_rest s p (received : bytes) (b : bool) w :
  still s p w ->
  wp (if b then buf ← consume (length received); start AsyncRead;; refresh_timeout;; process_message buf
      else shutdown) w
    (fun _ w' => rate_state w' = s /\
       exists ds, processed (trace w') = p ++ ds /\ (length ds <= 1)%nat /\
         byte_count ds <= Z.of_nat (length received))
    (fun _ => True) True.
Proof.
  intros Hw. destruct b.
  2:{ eapply wp_mono; [by apply (frame_shutdown _ (handshakes_frame _ (still_frame s p)))| |done|done].
      intros [] w' [Hs Hp]. split; [done|]. exists []. rewrite app_nil_r. simpl. split_and!; [done|lia|lia]. }
  unfold consume. apply wp_bind. apply wp_bind, wp_gets. apply wp_bind.
  eapply wp_mono; [by apply (frame_read_buffer _ (still_frame s p))| |done|done]. intros [] w1 Hw1.
  apply wp_ret. apply wp_bind. eapply wp_mono; [by apply still_start| |done|done]. intros [] w2 Hw2.
  apply wp_bind. eapply wp_mono; [by apply (frame_refresh_timeout _ (still_frame s p))| |done|done].
  intros [] w3 [Hs Hp]. unfold wp. simpl. split; [done|]. eexists. rewrite ws_processed_app, Hp.
  split; [done|]. simpl. rewrite length_app, length_take, length_replicate. split; lia.
Qed.

(** A message that is read: it takes the limiter one step. *)
Lemma read_step ec received b w w' :
  0 <= rate_limit_messages_ (conn w) < int_max -> failed ec = false ->
  handler (ReadDone ec received b) w = Ok tt w' ->
  match rate_step (now w) (Z.of_nat (length received)) (rate_state w) with
  | Some s => rate_state w' = s /\
      exists ds, processed (trace w') = processed (trace w) ++ ds /\ (length ds <= 1)%nat /\
        byte_count ds <= Z.of_nat (length received)
  | None => pending w' = pending w /\ processed (trace w') = processed (trace w)
  end.
Proof.
  intros Hm Hec Hrun. simpl in Hrun. unfold arrive in Hrun. unfold mbind at 1 2, M_bind at 1 2 in Hrun.
  unfold field, gets in Hrun. simpl in Hrun. unfold set_read_buffer, update, modify in Hrun. simpl in Hrun.
  match type of Hrun with on_read _ _ _ ?wa = _ => set (w1 := wa) in Hrun end.
  assert (forall A (k : bool -> C A), (count_inbound (Z.of_nat (length received));; killed ← check_rate_limit; k killed) w1 =
    ((count_inbound (Z.of_nat (length received));; check_rate_limit) ≫= k) w1) as Hassoc.
  { intros A k. unfold mbind, M_bind. by destruct (count_inbound _ w1) as [[] ?| |]. }
  unfold on_read in Hrun. rewrite Hec, Hassoc in Hrun. clear Hassoc.
  pose proof (check_rate_step (now w) (Z.of_nat (length received)) w1 eq_refl ltac:(simpl; lia) ltac:(simpl; lia)) as Hc.
  change (rate_state w1) with (rate_state w) in Hc.
  destruct (rate_step _ _ _) as [s|].
  - erewrite bind_Ok in Hrun by exact Hc. unfold return_if in Hrun.
    pose proof (read_rest s (processed (trace w)) received b (with_rate s w1)) as Hr.
    unfold wp in Hr. rewrite Hrun in Hr. apply Hr. split; [by destruct s as [[] ]|done].
  - destruct Hc as (w2 & Hw2 & Hp & Ht). erewrite bind_Ok in Hrun by exact Hw2.
    by injection Hrun as <-.
Qed.

(** ** Nothing more is received

    Only what receives starts to receive. *)
Definition deaf (n : nat) (w : world) : Prop := (receive_count (pending w) <= n)%nat.

Lemma deaf_start n op : receives op = false -> preserves (deaf n) (start op).
Proof.
  intros Hop [c so po pe tr ex sx nw ct]. unfold deaf, wp. simpl. rewrite receive_count_app.
  unfold receive_count at 3. rewrite filter_cons, Hop. simpl. lia.
Qed.

Lemma deaf_writer n : frame_writer (deaf n).
Proof.
  constructor; try (intros; by in_world); [|by apply deaf_start].
  intros A m. in_world. unfold on_queue. simpl. by destruct (m q).
Qed.

Lemma deaf_frame n : frame (deaf n).
Proof.
  constructor; try (intros; by in_world).
  - intros op Hop _ _. by apply deaf_start.
  - unfold abort. in_world. by destruct dr.
  - unfold shutdown. in_world. destruct dr, sh, so; try done. unfold deaf. simpl.
    by rewrite receive_count_app, Nat.add_0_r.
  - intros ec. unfold on_shutdown. in_world. by destruct dr.
  - intros m. unfold send_message. destruct (is_empty m); [apply preserves_ret|by in_world].
  - simpl. apply preserves_bind; [apply preserves_gets|]. intros [|m l]; [apply preserves_ret|].
    apply preserves_bind; [by in_world|]. intros _. apply frame_send_in_strand, deaf_writer.
Qed.

Definition receiving (l : label) : bool :=
  match completes l with Some op => receives op | None => false end.

Lemma deaf_handler n l : receiving l = false -> preserves (deaf n) (handler l).
Proof.
  intros Hl. destruct l as [| | | | | |ec| | |t c]; try done; try by apply (frame_handler _ (deaf_frame n)).
  - apply frame_on_write_message; [apply deaf_writer|]. apply frame_handle_error, deaf_frame.
  - by in_world.
Qed.

Lemma deaf_without n op w : deaf n w -> deaf n (without op w).
Proof.
  unfold deaf. simpl. intros Hn. destruct (decide (op ∈ pending w)) as [Hin|Hin].
  - pose proof (receive_count_remove _ _ Hin). lia.
  - by rewrite remove_one_notin.
Qed.

Lemma still_step l w w' :
  match l with ReadDone ec _ _ => failed ec = true | _ => True end -> fire l w = Ok tt w' ->
  still (rate_state w) (processed (trace w)) w'.
Proof.
  intros Hl Hfire. eapply (fire_preserves (still _ _)); [by apply still_handler| | |exact Hfire]; done.
Qed.

(** Nothing is handed on by a connection that receives nothing. *)
Lemma deaf_steps w ls w' :
  steps w ls w' -> receive_count (pending w) = 0%nat ->
  receive_count (pending w') = 0%nat /\ processed (trace w') = processed (trace w).
Proof.
  induction 1 as [w|w l w1 ls w2 Hen Hfire _ IH]; [done|]. intros Hw.
  assert (receiving l = false) as Hl.
  { unfold receiving, enabled in *. destruct (completes l) as [op|]; [|done].
    pose proof (receive_count_remove op _ Hen). destruct (receives op); [lia|done]. }
  assert (deaf 0 w1) as Hw1.
  { eapply (fire_preserves (deaf 0)); [by apply deaf_handler| | |exact Hfire]; [|unfold deaf; lia].
    intros op _. apply deaf_without. }
  destruct IH as [Hw2 ->]; [unfold deaf in Hw1; lia|]. split; [done|].
  apply (still_step l w w1); [by destruct l|done].
Qed.

(** A label is a message that was read, or none. *)
Lemma reads_or_not l :
  (exists ec received b, l = ReadDone ec received b /\ failed ec = false) \/
  match l with ReadDone ec _ _ => failed ec = true | _ => True end.
Proof. destruct l as [| | | | |ec x b| | | |]; auto. destruct (failed ec) eqn:Hec; eauto 6. Qed.

(** ** Runs *)

(** No message is longer than [m]. *)
Definition at_most (m : Z) (l : label) : Prop :=
  match l with ReadDone _ received _ => Z.of_nat (length received) <= m | _ => True end.

Section runs.
Variable most : Z.
Hypothesis Hmost : 0 <= most < int_max.
Hypothesis Hroomy : roomy _ most.

(** From [w] to [w'] the limiter let [l] through, and no more than that was handed on. *)
Definition lets_through (m : Z) (l : list (Z * Z)) (w w' : world) : Prop :=
  exists ds, Forall (fun p => 0 <= p.2 <= m /\ now w <= p.1 <= now w') l /\
    processed (trace w') = processed (trace w) ++ ds /\
    (length ds <= length l)%nat /\ byte_count ds <= total l.

Lemma lets_nothing m w w' : processed (trace w') = processed (trace w) -> lets_through m [] w w'.
Proof. intros Heq. exists []. rewrite app_nil_r. simpl. split_and!; [done|done|lia|lia]. Qed.

Lemma lets_through_app m l l' w w1 w2 :
  now w <= now w1 <= now w2 -> lets_through m l w w1 -> lets_through m l' w1 w2 ->
  lets_through m (l ++ l') w w2.
Proof.
  intros Hnow (ds & Hl & Hds & Hlen & Hb) (ds' & Hl' & Hds' & Hlen' & Hb'). exists (ds ++ ds').
  rewrite Hds', Hds, !length_app, byte_count_app, total_app, app_assoc. split_and!; [|done|lia|lia].
  apply Forall_app. split; (eapply Forall_impl; [eassumption|]); simpl; lia.
Qed.

(** A step, unless it is the last message: one of the limiter, or none. *)
Lemma limited_step m l w w' :
  enabled l w -> fire l w = Ok tt w' -> paced_within most 0 w -> at_most m l -> rate_ok m (rate_state w) ->
  (receive_count (pending w') = 0%nat /\ processed (trace w') = processed (trace w)) \/
  rate_ok m (rate_state w') /\
  exists l0, rate_run l0 (rate_state w) = Some (rate_state w') /\ lets_through m l0 w w'.
Proof.
  intros Hen Hfire Hp Hl Hok. pose proof (fire_later l w w' Hfire) as Hnow.
  destruct (reads_or_not l) as [(ec & received & b & -> & Hec)|Hl'].
  - rewrite (fire_completes _ _ AsyncRead) in Hfire by done.
    pose proof Hok as (Hm & _ & _ & Hmax & _).
    pose proof (read_step ec received b (without AsyncRead w) w'
                  ltac:(unfold rate_state in Hm, Hmax; simpl in *; lia) Hec Hfire) as Hread.
    simpl in Hread. change (rate_state (without AsyncRead w)) with (rate_state w) in Hread.
    destruct (rate_step _ _ _) as [s|] eqn:Hs; [right|left].
    + destruct Hread as (<- & ds & Hds & Hlen & Hbytes).
      destruct (rate_step_cases m (now w) (Z.of_nat (length received)) (rate_state w) _ Hok
                  ltac:(simpl in Hl; lia) Hs) as [Hok1 _].
      split; [done|]. exists [(now w, Z.of_nat (length received))]. simpl. rewrite Hs.
      split; [done|]. exists ds. simpl in *. split_and!; [|done|lia|lia]. constructor; simpl; [lia|done].
    + destruct Hread as [Hp' Hds]. split; [|done]. rewrite Hp'. simpl.
      pose proof (receive_count_remove AsyncRead _ Hen). pose proof (paced_count _ _ _ Hp). simpl in *. lia.
  - destruct (still_step l w w' Hl' Hfire) as [-> Hds]. right. split; [done|].
    exists []. by split; [|apply lets_nothing].
Qed.

(** A run takes the limiter through a sequence of steps, until nothing is received any more. *)
Lemma steps_rate_run m w ls w' :
  steps w ls w' -> paced_within most 0 w -> Forall (at_most m) ls -> rate_ok m (rate_state w) ->
  (receive_count (pending w') = 0%nat \/ rate_ok m (rate_state w')) /\
  exists l s, rate_run l (rate_state w) = Some s /\ lets_through m l w w'.
Proof.
  induction 1 as [w|w l w1 ls w2 Hen Hfire Hsteps IH]; intros Hp Hls Hok.
  { split; [by right|]. exists [], (rate_state w). by split; [|apply lets_nothing]. }
  apply Forall_cons in Hls as [Hl Hls].
  pose proof (paced_fire most Hmost Hroomy l w Hp Hen) as Hp1. unfold wp in Hp1. rewrite Hfire in Hp1.
  destruct (limited_step m l w w1 Hen Hfire Hp Hl Hok) as [[Hnone Hds]|(Hok1 & l0 & Hrun0 & Hl0)].
  - destruct (deaf_steps _ _ _ Hsteps Hnone) as [Hnone' Hds']. split; [by left|].
    exists [], (rate_state w). split; [done|]. apply lets_nothing. congruence.
  - destruct (IH Hp1 Hls Hok1) as (Hend & l1 & s & Hrun1 & Hl1). split; [done|].
    exists (l0 ++ l1), s. rewrite rate_run_app, Hrun0. split; [done|].
    apply fire_later in Hfire. apply steps_later in Hsteps. by eapply lets_through_app.
Qed.
End runs.

(** C18: the rate limiter bounds what a client gets through. From the start of a connection
    on, whatever is received and in whatever order everything happens: in any stretch of a
    run that takes no more than a second, at most twice the limit of messages and one more
    are handed on, and at most twice the limit of bytes and one more message of the largest
    size [m]. *)
Theorem rate_limit_bound m time count w0 ls w ls' w' :
  0 <= rate_limit_messages < int_max -> 0 <= rate_limit_bytes -> 0 <= m ->
  rate_limit_bytes + m < 2 ^ 64 -> - 2 ^ 31 <= ws_timeout + 5 <= int_max ->
  run (construct time count) = Ok tt w0 -> steps w0 ls w -> steps w ls' w' ->
  Forall (at_most m) (ls ++ ls') -> now w' <= now w + seconds 1 ->
  exists ds, processed (trace w') = processed (trace w) ++ ds /\
    Z.of_nat (length ds) <= 2 * rate_limit_messages + 1 /\
    byte_count ds <= 2 * rate_limit_bytes + m.
Proof.
  intros Hlm Hlb Hm Hwrap Htimeout Hrun Hsteps Hsteps' [Hall Hall']%Forall_app Hnow.
  assert (roomy _ rate_limit_messages) as Hroomy by (by constructor).
  assert (rate_ok m (rate_state w0)) as Hok0 by (injection Hrun as <-; repeat split; simpl; lia).
  pose proof (paced_start _ Hlm _ _ _ Hrun) as Hp0.
  pose proof (run_paced _ Hlm Hroomy _ _ _ _ _ Hrun Hsteps) as Hp.
  destruct (steps_rate_run _ Hlm Hroomy m w0 ls w Hsteps Hp0 Hall Hok0) as [[Hnone|Hok] _].
  { destruct (deaf_steps _ _ _ Hsteps' Hnone) as [_ Hds]. exists []. rewrite app_nil_r.
    simpl. split_and!; [done|lia|lia]. }
  destruct (steps_rate_run _ Hlm Hroomy m w ls' w' Hsteps' Hp Hall' Hok)
    as (_ & l & s & Hl & ds & Htimes & Hds & Hlen & Hb).
  exists ds. split; [done|].
  destruct (rate_run_window m l _ s (now w) Hok) as [Hlen' Htotal]; [|done|].
  { eapply Forall_impl; [exact Htimes|]. simpl. lia. }
  destruct Hok as (? & ? & _). lia.
Qed.
End rate.

(** ** Witness: a client that sends two messages after its request. *)

#[local] Existing Instance linux_errors.
#[local] Existing Instance default_config.

Definition two_messages : list label :=
  [HandshakeDone success; RequestDone success [] true; AcceptDone success;
   ReadDone success (str "one") true; Elsewhere (seconds 1) 1; ReadDone success (str "two") true].

Definition new_client : world := Eval vm_compute in
  match run (construct 0 0) with Ok _ w => w | _ => construct 0 0 end.

Definition two_read : world := Eval vm_compute in default new_client (play two_messages new_client).

Lemma rate_limit_bound_witness :
  processed (trace two_read) = [str "one"; str "two"] /\
  exists ds, processed (trace two_read) = processed (trace new_client) ++ ds /\
    Z.of_nat (length ds) <= 2 * rate_limit_messages + 1 /\ byte_count ds <= 2 * rate_limit_bytes + 3.
Proof.
  split; [reflexivity|].
  apply (rate_limit_bound 3 0 0 new_client [] new_client two_messages two_read);
    [by split; [apply Z.leb_le|apply Z.ltb_lt]|by apply Z.leb_le|by apply Z.leb_le|by apply Z.ltb_lt
    |by split; apply Z.leb_le|reflexivity|apply steps_nil|apply play_steps; reflexivity| |by apply Z.leb_le].
  simpl. unfold two_messages. repeat (apply Forall_cons_2; [first [exact I|by apply Z.leb_le]|]).
  apply Forall_nil_2.
Defined.

