(* ===== verification/WsReceive.v ===== *)
(** * The receiving side of a connection to a browser

    What comes from the client is handed on in its order, and keeps the connection from
    timing out. *)
From S2P Require Import Prelude Message MessageQueue ErrorCode WsConnection WsInvariant WsLife WsClock.
From S2P Require Import WsSend WsSafe WsRate.

(** The payloads that a sequence of labels receives. *)
Definition received (ls : list label) : list bytes :=
  ls ≫= fun l => match l with ReadDone ec x true => if failed ec then [] else [x] | _ => [] end.

Section receive.
Context `{AsioErrors} `{FrontConfig}.

Ltac in_world :=
  intros [[dr sh wr q mo rb rs rm rn] so po pe tr ex sx nw ct];
  unfold ws_up, over, wp, mbind, M_bind, field, gets; simpl in *.

(** ** A message *)

(** The limiter changes its counters, or kills the connection. *)
Lemma limiter_spec n w :
  wp (count_inbound n;; check_rate_limit) w
    (fun killed w' => if (killed : bool) then pending w' = pending w /\ over w' = true
                      else exists s, w' = with_rate s w)
    (fun _ => True) True.
Proof.
  revert w. in_world. unfold count_inbound, int_add, check_rate_limit, mbind, M_bind, field, gets. simpl.
  case_decide; [|done]. simpl. case_decide; simpl; [|by exists (rs, rm + 1, uint64 (rn + n))].
  case_decide; simpl; [by exists (nw, 0, 0)|]. unfold abort, mbind, M_bind, field, gets. simpl.
  by destruct dr.
Qed.

(** What becomes of a message: the limiter kills the connection, or it is no binary message
    and the connection is shut down, or it is handed on. *)
Inductive read_outcome (x : bytes) (b : bool) (w w' : world) : Prop :=
| read_killed : pending w' = pending w -> over w' = true -> read_outcome x b w w'
| read_refused : b = false -> ~ ws_up w' ->
    receive_count (pending w') = receive_count (pending w) -> read_outcome x b w w'
| read_taken : b = true -> read_buffer_ (conn w') = [] ->
    processed (trace w') = processed (trace w) ++ [x] ->
    seconds ws_timeout < expiry w' - now w' -> read_outcome x b w w'.

Lemma read_done_spec ec x b w :
  failed ec = false -> read_buffer_ (conn w) = [] ->
  wp (handler (ReadDone ec x b)) w (fun _ w' => read_outcome x b w w') (fun _ => True) True.
Proof.
  intros Hec Hbuf. simpl. unfold arrive. apply wp_bind. apply wp_bind, wp_gets. unfold wp at 1. simpl.
  rewrite Hbuf. simpl. unfold on_read. rewrite Hec. set (w1 := mkWorld _ _ _ _ _ _ _ _ _).
  pose proof (limiter_spec (Z.of_nat (length x)) w1) as Hlim.
  unfold wp, mbind, M_bind in *. destruct (count_inbound _ w1) as [[] w2| |]; [|done..].
  destruct (check_rate_limit w2) as [killed w3| |]; [|done..]. destruct killed; simpl.
  { destruct Hlim as [Hp Ho]. by apply read_killed. }
  destruct Hlim as [s ->]. clear w2. destruct b.
  - unfold consume, process_message, mbind, M_bind, field, gets. simpl.
    unfold refresh_timeout, int_add, mbind, M_bind, field, gets. simpl.
    rewrite take_ge, drop_ge, Nat.sub_diag, app_nil_r by lia.
    case_decide as Hdue; [case_decide; [|done]|]; simpl;
      (apply read_taken; [done|done|simpl; by rewrite !ws_processed_app, ?app_nil_r|simpl; unfold seconds in *; lia]).
  - unfold shutdown, mbind, M_bind, field, gets. simpl.
    destruct (dropped_ (conn w)) eqn:Hd, (shutting_down_ (conn w)) eqn:Hs, (socket_open w) eqn:Hso; simpl;
      (apply read_refused; [done|unfold ws_up, over; simpl; rewrite ?Hd, ?Hs, ?Hso; by intros [? ?]|]);
      simpl; rewrite ?receive_count_app, ?Nat.add_0_r; done.
Qed.

(** ** The buffer

    It is empty while something is to be received into it. *)
Definition empty_buffer (w : world) : Prop := read_buffer_ (conn w) = [].
Definition clean (w : world) : Prop := receive_count (pending w) = 0%nat \/ empty_buffer w.

Lemma empty_writer : frame_writer empty_buffer.
Proof.
  constructor; try (intros; by in_world). intros A m. in_world. unfold on_queue. simpl.
  by destruct (m q).
Qed.

Lemma empty_frame : frame empty_buffer.
Proof.
  constructor; try (intros; by in_world).
  - unfold abort. in_world. by destruct dr.
  - unfold shutdown. in_world. by destruct dr, sh, so.
  - intros ec. unfold on_shutdown. in_world. by destruct dr.
  - intros m. unfold send_message. destruct (is_empty m); [apply preserves_ret|by in_world].
  - simpl. apply preserves_bind; [apply preserves_gets|]. intros [|m l]; [apply preserves_ret|].
    apply preserves_bind; [by in_world|]. intros _. apply frame_send_in_strand, empty_writer.
Qed.

Lemma empty_handler l : receiving l = false -> preserves empty_buffer (handler l).
Proof.
  intros Hl. destruct l as [| | | | | |ec| | |t c]; try done; try by apply (frame_handler _ empty_frame).
  - apply frame_on_write_message; [apply empty_writer|]. apply frame_handle_error, empty_frame.
  - by in_world.
Qed.

(** What completes a reception leaves it empty, or receives no more. *)
Lemma receiving_clean l w :
  receiving l = true -> deaf 0 w -> empty_buffer w ->
  wp (handler l) w (fun _ w' => clean w') (fun _ => True) True.
Proof.
  assert (forall (m : C unit) w, preserves (deaf 0) m -> deaf 0 w ->
    wp m w (fun _ w' => clean w') (fun _ => True) True) as Hdeaf.
  { intros m w0 Hm Hw0. eapply wp_mono; [by apply Hm| |done|done]. intros [] w' Hw'.
    left. unfold deaf in Hw'. lia. }
  assert (forall (m : C unit) w, preserves empty_buffer m -> empty_buffer w ->
    wp m w (fun _ w' => clean w') (fun _ => True) True) as Hempty.
  { intros m w0 Hm Hw0. eapply wp_mono; [by apply Hm| |done|done]. intros [] w' Hw'. by right. }
  intros Hl Hd He. destruct l as [| |ec|ec x b|ec|ec x b| | | |]; try done.
  - apply Hempty; [|done]. simpl. unfold on_ssl_handshake. destruct (failed ec);
      [apply empty_frame|by in_world].
  - simpl. unfold arrive. apply wp_bind, wp_bind, wp_gets. unfold wp at 1. simpl.
    unfold on_read_request. destruct (failed ec).
    { apply Hdeaf; [apply frame_handle_error, deaf_frame|done]. }
    apply wp_bind, wp_gets. apply wp_bind. rewrite He. simpl.
    assert (forall w1, empty_buffer w1 -> wp (count ← gets active_connection_count;
      if decide (connection_limit_soft < count) then emit (HttpResponse 503 (str "Overloaded"));; shutdown
      else if b then start AsyncAccept
      else emit (HttpResponse 501 (str "Not implemented"));; shutdown) w1
      (fun _ w' => clean w') (fun _ => True) True) as Hrest.
    { intros w1 Hw1. apply Hempty; [|done]. apply preserves_bind; [apply preserves_gets|]. intros n.
      case_decide; [|destruct b; [by in_world|]];
        (apply preserves_bind; [by in_world|intros _; apply empty_frame]). }
    case_decide as Hx; [unfold wp at 1; simpl; by apply Hrest|]. apply wp_ret. apply Hrest.
    unfold empty_buffer. simpl. by destruct x; simpl in *; [|lia].
  - apply Hempty; [|done]. simpl. unfold on_ws_handshake, field.
    apply preserves_bind; [apply preserves_gets|]. intros dropped. apply preserves_return_if.
    destruct (failed ec); [apply empty_frame|]. apply preserves_bind; [by in_world|]. intros _.
    apply preserves_int_add. unfold set_timeout. by in_world.
  - destruct (failed ec) eqn:Hec.
    + simpl. unfold arrive, on_read. rewrite Hec. apply Hdeaf; [|done].
      apply preserves_bind; [by in_world|]. intros _. apply frame_handle_error, deaf_frame.
    + eapply wp_mono; [by apply read_done_spec| |done|done]. unfold deaf in Hd.
      intros _ w' [Hp _|_ _ Hp|_ Hb _ _]; [left; rewrite Hp; lia|left; lia|by right].
Qed.

(** A step keeps the buffer clean. *)
Lemma clean_fire l w w' :
  (receive_count (pending w) <= 1)%nat -> enabled l w -> fire l w = Ok tt w' -> clean w -> clean w'.
Proof.
  intros Hone Hen Hfire Hclean. destruct (receiving l) eqn:Hl.
  - pose proof Hl as Hl'. unfold receiving in Hl'. destruct (completes l) as [op|] eqn:Hc; [|done].
    unfold enabled in Hen. rewrite Hc in Hen. pose proof (receive_count_remove op _ Hen) as Hcount.
    rewrite Hl' in Hcount. rewrite (fire_completes _ _ op) in Hfire by done.
    pose proof (receiving_clean l (without op w) Hl) as Hwp. unfold wp in Hwp. rewrite Hfire in Hwp.
    apply Hwp; [unfold deaf; simpl; lia|]. destruct Hclean as [|He]; [lia|exact He].
  - destruct Hclean as [Hd|He]; [left|right].
    + assert (deaf 0 w') as Hd'; [|unfold deaf in Hd'; lia].
      eapply (fire_preserves (deaf 0)); [by apply deaf_handler| | |exact Hfire]; [|unfold deaf; lia].
      intros op _. apply deaf_without.
    + by eapply (fire_preserves empty_buffer); [by apply empty_handler| |exact He|exact Hfire].
Qed.

(** What a step of a connection that stays up hands on. *)
Lemma received_step l w w' :
  clean w -> (receive_count (pending w) <= 1)%nat -> enabled l w -> fire l w = Ok tt w' -> ws_up w' ->
  processed (trace w') = processed (trace w) ++ received [l].
Proof.
  intros Hclean Hone Hen Hfire Hup.
  destruct (reads_or_not l) as [(ec & x & b & -> & Hec)|Hl].
  - rewrite (fire_completes _ _ AsyncRead) in Hfire by done.
    unfold enabled in Hen. simpl in Hen. pose proof (receive_count_remove AsyncRead _ Hen) as Hcount.
    simpl in Hcount. destruct Hclean as [|He]; [lia|].
    pose proof (read_done_spec ec x b (without AsyncRead w) Hec He) as Hwp. unfold wp in Hwp.
    rewrite Hfire in Hwp. destruct Hup as [Ho Hso].
    destruct Hwp as [_ Hover|_ Hdown _|Hb _ Hp _]; [congruence|destruct Hdown; by split|subst b].
    unfold received. simpl. by rewrite Hec.
  - destruct (still_step l w w' Hl Hfire) as [_ ->].
    assert (received [l] = []) as ->; [|by rewrite app_nil_r].
    destruct l as [| | | | |ec x []| | | |]; try done. unfold received. simpl. by rewrite Hl.
Qed.

Section runs.
Hypothesis Htimeout : - 2 ^ 31 <= ws_timeout + 5 <= int_max.
Hypothesis Hmessages : rate_limit_messages < int_max.

Let most : Z := Z.max 0 rate_limit_messages.

Lemma most_room : 0 <= most < int_max.
Proof. unfold most, int_max in *. lia. Qed.
Lemma most_roomy : roomy _ most.
Proof. constructor; [done|unfold most; lia]. Qed.

(** The invariants of a run. *)
Record orderly (w : world) : Prop := {
  orderly_inv : inv w;
  orderly_paced : paced_within most 0 w;
  orderly_clean : clean w;
}.

Lemma orderly_start time count w : run (construct time count) = Ok tt w -> orderly w.
Proof.
  intros Hrun. constructor.
  - by destruct (ws_run_start _ _ _ Hrun).
  - eapply paced_start; [apply most_room|exact Hrun].
  - right. by injection Hrun as <-.
Qed.

Lemma orderly_one w : orderly w -> (receive_count (pending w) <= 1)%nat.
Proof. intros [_ [Hc _ _] _]. lia. Qed.

Lemma orderly_fire l w w' : enabled l w -> fire l w = Ok tt w' -> orderly w -> orderly w'.
Proof.
  intros Hen Hfire Hw. pose proof (orderly_one w Hw) as Hone. destruct Hw as [Hinv Hp Hclean].
  destruct (paced_runs _ most_room most_roomy l w Hinv Hp Hen) as (w1 & Hfire' & Hinv1 & Hp1).
  rewrite Hfire in Hfire'. injection Hfire' as <-. constructor; [done|done|]. by eapply clean_fire.
Qed.

Lemma orderly_steps w ls w' : steps w ls w' -> orderly w -> orderly w'.
Proof. induction 1; eauto using orderly_fire. Qed.

Lemma received_steps w ls w' :
  steps w ls w' -> orderly w -> ws_up w' -> processed (trace w') = processed (trace w) ++ received ls.
Proof.
  induction 1 as [w|w l w1 ls w2 Hen Hfire Hsteps IH]; intros Hw Hup; [by rewrite app_nil_r|].
  pose proof (orderly_fire l w w1 Hen Hfire Hw) as Hw1. rewrite (IH Hw1 Hup).
  destruct (ws_steps_outgoing w1 ls w2 Hsteps (orderly_inv _ Hw1) Hup) as [Hup1 _].
  rewrite (received_step l w w1 (orderly_clean _ Hw) (orderly_one _ Hw) Hen Hfire Hup1), <- app_assoc.
  f_equal. change (received (l :: ls)) with (received ([l] ++ ls)). unfold received. by rewrite bind_app.
Qed.

(** C19: messages of the browser are handed on in the order in which they come, each once and
    whole. From the start of a connection on, whatever else happens and in whatever order,
    as long as it is neither dropped nor shutting down the payloads handed on are those of
    the binary messages that were read: the rate limiter lets all of them through or ends
    the connection, and bytes that came with the request are in none. *)
Theorem ws_receive_in_order time count w0 ls w :
  run (construct time count) = Ok tt w0 -> steps w0 ls w -> ws_up w ->
  processed (trace w) = received ls.
Proof.
  intros Hrun Hsteps Hup. rewrite (received_steps w0 ls w Hsteps (orderly_start _ _ _ Hrun) Hup).
  by injection Hrun as <-.
Qed.

(** ** The timeout *)

(** [timer_] expires at [x]. *)
Definition expires_at (x : Z) (w : world) : Prop := expiry w = x.

Lemma expires_start x op : preserves (expires_at x) (start op).
Proof. by in_world. Qed.

Lemma expires_writer x : frame_writer (expires_at x).
Proof.
  constructor; try (intros; by in_world). intros A m. in_world. unfold on_queue. simpl.
  by destruct (m q).
Qed.

Lemma expires_frame x : frame (expires_at x).
Proof.
  constructor; try (intros; by in_world).
  - unfold abort. in_world. by destruct dr.
  - unfold shutdown. in_world. by destruct dr, sh, so.
  - intros ec. unfold on_shutdown. in_world. by destruct dr.
  - intros m. unfold send_message. destruct (is_empty m); [apply preserves_ret|by in_world].
  - simpl. apply preserves_bind; [apply preserves_gets|]. intros [|m l]; [apply preserves_ret|].
    apply preserves_bind; [by in_world|]. intros _. apply frame_send_in_strand, expires_writer.
Qed.

Lemma expires_read_buffer x b : preserves (expires_at x) (set_read_buffer b).
Proof. by in_world. Qed.
Lemma expires_rate_limit x a b c : preserves (expires_at x) (set_rate_limit a b c).
Proof. by in_world. Qed.
Lemma expires_emit x e : preserves (expires_at x) (emit e).
Proof. by in_world. Qed.
Lemma expires_handle_error x ec : preserves (expires_at x) (handle_read_error ec).
Proof. apply frame_handle_error, expires_frame. Qed.
Lemma expires_abort x : preserves (expires_at x) abort.
Proof. apply expires_frame. Qed.
Lemma expires_shutdown x : preserves (expires_at x) shutdown.
Proof. apply expires_frame. Qed.
#[local] Hint Resolve expires_start expires_read_buffer expires_rate_limit expires_emit
  expires_handle_error expires_abort expires_shutdown frame_int_add preserves_int_add : ws_life.

(** What restarts [timer_]: the end of the WebSocket handshake, and a binary message. *)
Definition heard (l : label) : bool :=
  match l with
  | AcceptDone ec => negb (failed ec)
  | ReadDone ec _ got_binary => negb (failed ec) && got_binary
  | _ => false
  end.

Lemma expires_handler x l : heard l = false -> own l = true -> preserves (expires_at x) (handler l).
Proof.
  intros Hl Hown. destruct l as [| |ec|ec b u|ec|ec b [|]|ec|t ec|ec|]; try done;
    try (by apply (frame_handler _ (expires_frame x))); simpl in Hl |- *.
  - unfold on_ssl_handshake. preserve.
  - unfold arrive, on_read_request, field. preserve.
  - apply negb_false_iff in Hl. unfold on_ws_handshake, field. rewrite Hl. preserve.
  - rewrite andb_true_r in Hl. apply negb_false_iff in Hl. unfold arrive, on_read, field.
    rewrite Hl. preserve.
  - unfold arrive, on_read, count_inbound, check_rate_limit, field. preserve.
  - apply frame_on_write_message; [apply expires_writer|preserve].
Qed.

(** Nothing but these moves the timeout. *)
Lemma unheard_fire l w w' : heard l = false -> fire l w = Ok tt w' -> expiry w' = expiry w.
Proof.
  intros Hl Hfire. destruct (own l) eqn:Hown; [|by destruct l; try done; injection Hfire as <-].
  by eapply (fire_preserves (expires_at (expiry w))); [by apply expires_handler| | |exact Hfire].
Qed.

(** They move it, unless the connection is over. *)
Lemma heard_fire l w w' :
  heard l = true -> orderly w -> enabled l w -> fire l w = Ok tt w' -> over w' = false ->
  now w + seconds ws_timeout < expiry w'.
Proof.
  intros Hl Hw Hen Hfire Hover. destruct l as [| | | |ec|ec x b| | | |]; try done; simpl in Hl.
  - apply negb_true_iff in Hl. rewrite (fire_completes _ _ AsyncAccept) in Hfire by done.
    destruct w as [[dr sh wr q mo rb rs rm rn] so po pe tr ex sx nw ct]. revert Hfire.
    simpl. unfold on_ws_handshake, mbind, M_bind, field, gets. simpl.
    destruct dr; simpl; [by intros [= <-]|]. rewrite Hl. unfold int_add.
    case_decide; [|done]. simpl. intros [= <-]. simpl. unfold seconds. lia.
  - apply andb_true_iff in Hl as [Hec%negb_true_iff ->].
    pose proof (fire_now _ w w' (eq_refl : own (ReadDone ec x true) = true) Hfire) as Hnow.
    rewrite (fire_completes _ _ AsyncRead) in Hfire by done.
    unfold enabled in Hen. simpl in Hen. pose proof (receive_count_remove AsyncRead _ Hen) as Hcount.
    simpl in Hcount. destruct (orderly_clean _ Hw) as [|He]; [lia|].
    pose proof (read_done_spec ec x true (without AsyncRead w) Hec He) as Hwp. unfold wp in Hwp.
    rewrite Hfire in Hwp. destruct Hwp as [_ Hkilled| |_ _ _ Hleft]; [congruence|done|lia].
Qed.

(** What is over stays so. *)
Definition is_over (w : world) : Prop := over w = true.

Lemma over_writer : frame_writer is_over.
Proof.
  constructor; try (intros; by in_world). intros A m. in_world. unfold on_queue. simpl.
  by destruct (m q).
Qed.

Lemma over_messages : frame_messages is_over.
Proof.
  constructor; [constructor; [constructor|..]|..]; try (intros; by in_world).
  - unfold abort. in_world. by destruct dr.
  - unfold shutdown. in_world. by destruct dr, sh, so.
  - intros ec. unfold on_shutdown. in_world. by destruct dr.
  - intros m. unfold send_message. destruct (is_empty m); [apply preserves_ret|by in_world].
  - simpl. apply preserves_bind; [apply preserves_gets|]. intros [|m l]; [apply preserves_ret|].
    apply preserves_bind; [by in_world|]. intros _. apply frame_send_in_strand, over_writer.
Qed.

Lemma over_fire l w w' : fire l w = Ok tt w' -> over w = true -> over w' = true.
Proof.
  intros Hfire Hw. eapply (fire_preserves is_over); [|done|exact Hw|exact Hfire].
  destruct l as [| | | | | |ec| | |]; try by apply (frame_messages_handler _ over_messages).
  - apply frame_on_write_message; [apply over_writer|]. apply frame_handle_error, over_messages.
  - by in_world.
Qed.

(** The client is heard before [deadline], and then within [ws_timeout] seconds each time. *)
Fixpoint attentive (deadline : Z) (w : world) (ls : list label) : Prop :=
  now w < deadline /\
  match ls with
  | [] => True
  | l :: ls' =>
      match fire l w with
      | Ok _ w' => attentive (if heard l then now w + seconds ws_timeout else deadline) w' ls'
      | _ => False
      end
  end.

(** Its timer does not expire. *)
Lemma attentive_steps ls rest P deadline w w1 w2 :
  attentive deadline w ls -> steps w ls w1 -> asio_steps P w (ls ++ rest) w2 -> orderly w ->
  over w = true \/ (~ P /\ deadline <= expiry w) ->
  exists Q, asio_steps Q w1 rest w2 /\ (over w1 = true \/ (~ Q /\ now w1 < expiry w1)).
Proof.
  revert P deadline w. induction ls as [|l ls IH]; intros P deadline w Hclient Hsteps Hasio Hw Hstate.
  - inversion Hsteps; subst. destruct Hclient as [Hnow _]. exists P. split; [done|].
    destruct Hstate as [?|[? ?]]; [by left|right; split; [done|lia]].
  - inversion Hsteps as [|? ? w3 ? ? Hen Hfire Hsteps']; subst.
    inversion Hasio as [|? ? ? w4 ? ? _ Hfire' _ Hasio']; subst.
    assert (w4 = w3) as -> by congruence.
    destruct Hclient as [Hnow Hclient]. rewrite Hfire in Hclient.
    eapply (IH _ _ _ Hclient Hsteps' Hasio'); [by eapply orderly_fire|].
    destruct Hstate as [Ho|[HP Hexp]]; [left; by eapply over_fire|].
    destruct (over w3) eqn:Ho3; [by left|right]. split; [intros [?|[_ ?]]; [done|lia]|].
    destruct (heard l) eqn:Hl.
    + apply Z.lt_le_incl. by eapply heard_fire.
    + by rewrite (unheard_fire l w w3).
Qed.

(** C26: a client that is heard is not cut off for silence. From the start of a connection on,
    as long as the WebSocket handshake ends within [ws_setup_timeout] seconds and a binary
    message is read within every [ws_timeout] seconds after it, whatever else happens and in
    whatever order: [timer_] has not expired unless the connection is over, and a wait for it
    that completes has been canceled and changes nothing. The timer is Asio's, whose waits
    that have ended are not taken back when it is restarted. *)
Theorem active_client_stays time count w0 ls w :
  run (construct time count) = Ok tt w0 ->
  attentive (time + seconds ws_setup_timeout) w0 ls -> asio_steps False w0 ls w ->
  over w = true \/
  (now w < expiry w /\
   forall ec w', asio_steps False w0 (ls ++ [WaitDone timer_ ec]) w' ->
     ec = operation_aborted /\ w' = without (AsyncWait timer_) w).
Proof.
  intros Hrun Hclient Hasio. pose proof (orderly_start _ _ _ Hrun) as Hw0.
  assert (over w0 = true \/ (~ False /\ time + seconds ws_setup_timeout <= expiry w0)) as Hstart
    by (right; split; [by intros []|injection Hrun as <-; simpl; lia]).
  pose proof (asio_steps_steps _ _ _ _ Hasio) as Hsteps.
  destruct (over w) eqn:Hover; [by left|right].
  rewrite <- (app_nil_r ls) in Hasio.
  destruct (attentive_steps ls [] _ _ w0 w w Hclient Hsteps Hasio Hw0 Hstart) as (_ & _ & [?|[_ Hnow]]);
    [congruence|]. split; [done|].
  intros ec w' Hasio'.
  destruct (attentive_steps ls _ _ _ w0 w w' Hclient Hsteps Hasio' Hw0 Hstart) as (Q & Hlast & [?|[HQ _]]);
    [congruence|].
  inversion Hlast as [|? ? ? w1 ? ? _ Hfire Hwait Hend]; subst. inversion Hend; subst.
  destruct (decide (ec = operation_aborted)) as [->|Hne].
  - split; [done|]. rewrite (fire_completes _ _ (AsyncWait timer_)) in Hfire by done. revert Hfire.
    simpl. unfold on_timeout, return_if, mbind, M_bind, field, gets. simpl.
    rewrite bool_decide_true, orb_true_r by done. by intros [= <-].
  - destruct (Hwait ec eq_refl Hne) as [?|[_ ?]]; [done|lia].
Qed.
End runs.
End receive.

(** ** Witnesses: the client that sends two messages. *)

#[local] Existing Instance linux_errors.
#[local] Existing Instance default_config.

Lemma default_timeout : - 2 ^ 31 <= ws_timeout + 5 <= int_max.
Proof. by split; apply Z.leb_le. Qed.
Lemma default_messages : rate_limit_messages < int_max.
Proof. by apply Z.ltb_lt. Qed.

Lemma ws_receive_in_order_witness :
  received two_messages = [str "one"; str "two"] /\
  processed (trace two_read) = received two_messages.
Proof.
  split; [reflexivity|].
  apply (ws_receive_in_order default_timeout default_messages 0 0 new_client two_messages two_read);
    [reflexivity|apply play_steps; reflexivity|by split].
Defined.

(** Thirty seconds after its first message, which came at the time 0, less a nanosecond. *)
Definition one_read : list label := take 4 two_messages ++ [Elsewhere (seconds 30 - 1) 1].
Definition waits_still : world := Eval vm_compute in default new_client (play one_read new_client).

Lemma active_client_stays_witness :
  over waits_still = false /\ now waits_still < expiry waits_still.
Proof.
  split; [reflexivity|].
  destruct (active_client_stays default_timeout default_messages 0 0 new_client one_read waits_still)
    as [Hover|[Hnow _]].
  - reflexivity.
  - vm_compute. by split_and!.
  - apply canceled_asio_steps; [by repeat constructor|apply play_steps; reflexivity].
  - discriminate Hover.
  - exact Hnow.
Defined.

(** ** Two runs that go wrong *)

(** A wait that has expired and is queued when a message restarts the timer still ends the
    connection, right after the message was handed on. *)
Definition queued_timeout : list label :=
  [HandshakeDone success; RequestDone success [] true; AcceptDone success;
   WaitDone timer_ operation_aborted; Elsewhere (seconds 35) 1; ReadDone success (str "hi") true;
   WaitDone timer_ success].

Definition timed_out : world := Eval vm_compute in default new_client (play queued_timeout new_client).

Theorem queued_timeout_drops :
  exists w, steps new_client queued_timeout w /\ processed (trace w) = [str "hi"] /\
    dropped_ (conn w) = true /\ socket_open w = false.
Proof.
  exists timed_out. split; [apply play_steps; reflexivity|]. by split_and!.
Qed.

(** After a canceled write - its error says that the TLS session is shut down - the
    connection stays up, nothing is on its way, and what is sent waits for ever. *)
Definition protocol_is_shutdown : error_code := mkErrorCode ssl_category 207.

Definition canceled_write : list label :=
  [Send (Some (str "a")); Posted; WriteDone protocol_is_shutdown; Send (Some (str "b")); Posted].

Definition stopped : world := Eval vm_compute in default new_client (play canceled_write new_client).

Theorem canceled_write_stops :
  exists w, steps new_client canceled_write w /\ ws_up w /\ write_count (pending w) = 0%nat /\
    posted w = [] /\ queued (message_queue_ (conn w)) = [str "b"] /\ writes (trace w) = [str "a"].
Proof.
  exists stopped. split; [apply play_steps; reflexivity|]. by split_and!.
Qed.
