(* ===== verification/WsClosing.v ===== *)
(** * How a connection to a browser goes away

    Once it is dropped its socket is closed, and what it had started ends. The handlers of
    the TLS handshake, of the request and of the messages test neither [dropped_] nor
    [shutting_down_]: an operation that had completed when the socket was closed still
    starts the next. Nothing else starts anything. *)
From S2P Require Import Prelude Message MessageQueue ErrorCode WsConnection WsInvariant WsLife.

Section closing.
Context `{AsioErrors} `{FrontConfig}.

Ltac in_world :=
  intros [[dr sh wr q mo rb rs rm rn] so po pe tr ex sx nw ct];
  unfold over, wp, mbind, M_bind, field, gets; simpl in *.

(** What still holds a reference to the connection: the handlers and the posted tasks. *)
Definition references (w : world) : nat := (length (pending w) + length (posted w))%nat.

(** ** What happens to a connection *)

(** A reception that succeeds. *)
Definition reception (l : label) : bool :=
  match l with
  | HandshakeDone ec | RequestDone ec _ _ | ReadDone ec _ _ => negb (failed ec)
  | _ => false
  end.
Definition completion (l : label) : bool :=
  match completes l with Some _ => true | None => false end.
Definition is_send (l : label) : bool := match l with Send _ => true | _ => false end.

Definition receptions (ls : list label) : nat := length (filter (fun l => reception l) ls).
Definition completions (ls : list label) : nat := length (filter (fun l => completion l) ls).
Definition sends (ls : list label) : nat := length (filter (fun l => is_send l) ls).

(** A posted task runs, or a pending operation ends, and no reception succeeds. *)
Definition ends (l : label) (w : world) : Prop :=
  match l with
  | Send _ | Elsewhere _ _ => False
  | Posted => posted w <> []
  | _ => enabled l w /\ reception l = false
  end.

(** ** A connection that is over has an empty queue *)

Definition emptied (w : world) : Prop := over w = true -> queue_ (message_queue_ (conn w)) = [].

Lemma emptied_start op : preserves emptied (start op).
Proof. by in_world. Qed.
Lemma emptied_emit e : preserves emptied (emit e).
Proof. by in_world. Qed.
Lemma emptied_expires t d : preserves emptied (expires_from_now t d).
Proof. by in_world. Qed.
Lemma emptied_rate_limit a b c : preserves emptied (set_rate_limit a b c).
Proof. by in_world. Qed.
Lemma emptied_read_buffer b : preserves emptied (set_read_buffer b).
Proof. by in_world. Qed.
Lemma emptied_outbound m : preserves emptied (set_message_outbound m).
Proof. by in_world. Qed.
Lemma emptied_is_writing b : preserves emptied (set_is_writing b).
Proof. by in_world. Qed.
Lemma emptied_int_add a b : preserves emptied (int_add a b).
Proof. unfold int_add. case_decide; [apply preserves_ret|apply preserves_throw]. Qed.
Lemma emptied_abort : preserves emptied abort.
Proof. unfold abort. in_world. by destruct dr. Qed.
Lemma emptied_shutdown : preserves emptied shutdown.
Proof. unfold shutdown. in_world. by destruct dr, sh, so. Qed.
Lemma emptied_pop : preserves emptied (on_queue try_pop).
Proof.
  intros w Hw. destruct (over w) eqn:Ho; unfold wp, on_queue.
  - unfold try_pop, mbind, M_bind, get. rewrite (Hw Ho). intros _. exact (Hw Ho).
  - destruct (try_pop _) as [a q| |]; [|done..]. simpl. unfold emptied, over in *. simpl.
    by rewrite Ho.
Qed.

#[local] Hint Resolve emptied_start emptied_emit emptied_expires emptied_rate_limit
  emptied_read_buffer emptied_outbound emptied_is_writing emptied_int_add emptied_abort
  emptied_shutdown emptied_pop preserves_int_add : ws_life.

Lemma emptied_handle_error ec : preserves emptied (handle_read_error ec).
Proof. unfold handle_read_error, field. preserve. Qed.
Lemma emptied_do_write m : preserves emptied (do_write_message m).
Proof. unfold do_write_message, field. preserve. Qed.
#[local] Hint Resolve emptied_handle_error emptied_do_write : ws_life.

Lemma emptied_send_in_strand m : preserves emptied (send_in_strand m).
Proof.
  intros w Hw. unfold send_in_strand. do 2 apply wp_bind, wp_gets. unfold return_if.
  destruct (_ || _) eqn:Ho; [by apply wp_ret|]. apply wp_bind, wp_gets.
  destruct (is_writing_ _).
  - unfold wp, on_queue. destruct (push _ _) as [[] q| |]; [|done..]. simpl.
    intros Hov. unfold over in Hov. simpl in Hov. congruence.
  - eapply (preserves_bind emptied (set_is_writing true)); [preserve|intros; preserve|done].
Qed.

Lemma emptied_handler l : (forall ec, l <> ShutdownDone ec) -> preserves emptied (handler l).
Proof.
  intros Hl. destruct l as [m| |ec|ec x b|ec|ec x b|ec|t ec|ec|t n]; [..|by destruct (Hl ec)|]; simpl.
  - unfold send_message. destruct (is_empty m); [preserve|by in_world].
  - apply preserves_bind; [preserve|]. intros [|m l]; [preserve|].
    apply preserves_bind; [by in_world|]. intros _. apply emptied_send_in_strand.
  - unfold on_ssl_handshake. preserve.
  - unfold arrive, on_read_request, field. preserve.
  - unfold on_ws_handshake, set_timeout, field. preserve.
  - unfold arrive, on_read, count_inbound, check_rate_limit, consume, refresh_timeout, set_timeout,
      process_message, field. preserve.
  - unfold on_write_message. apply preserves_bind; [preserve|]. intros _.
    destruct (failed ec); [apply emptied_handle_error|].
    apply preserves_bind; [preserve|]. intros [m|]; preserve.
  - unfold on_timeout, field. preserve.
  - by in_world.
Qed.

(** A shutdown is pending on a connection that is over only. *)
Definition ordered (w : world) : Prop := AsyncShutdown ∈ pending w -> over w = true.

Lemma ordered_start op : op <> AsyncShutdown -> preserves ordered (start op).
Proof.
  intros Hop. in_world. intros Hw [Hin|Hin]%elem_of_app; [by apply Hw|].
  apply list_elem_of_singleton in Hin. by destruct Hop.
Qed.

Lemma ordered_writer : frame_writer ordered.
Proof.
  constructor; try (intros; by in_world); [|by apply ordered_start].
  intros A m. in_world. unfold on_queue. simpl. by destruct (m q).
Qed.

Lemma ordered_messages : frame_messages ordered.
Proof.
  constructor; [constructor; [constructor|..]|..]; try (intros; by in_world); auto using ordered_start.
  - unfold abort. in_world. by destruct dr.
  - unfold shutdown. in_world. intros Hw. destruct dr, sh, so; simpl; done.
  - intros ec. unfold on_shutdown. in_world. by destruct dr.
  - intros m. unfold send_message. destruct (is_empty m); [apply preserves_ret|by in_world].
  - simpl. apply preserves_bind; [apply preserves_gets|]. intros [|m l]; [apply preserves_ret|].
    apply preserves_bind; [by in_world|]. intros _. apply frame_send_in_strand, ordered_writer.
  - intros op Hop. apply ordered_start. by intros ->.
Qed.

Lemma ordered_handler l : preserves ordered (handler l).
Proof.
  destruct l as [| | | | | |ec| | |]; try by apply (frame_messages_handler _ ordered_messages).
  - apply frame_on_write_message; [apply ordered_writer|]. apply frame_handle_error, ordered_messages.
  - by in_world.
Qed.

(** Both are invariants of a run. *)
Definition tidy (w : world) : Prop := emptied w /\ ordered w.

Lemma tidy_fire l w w' : enabled l w -> fire l w = Ok tt w' -> tidy w -> tidy w'.
Proof.
  intros Hen Hfire [He Ho]. split.
  2:{ eapply (fire_preserves ordered); [apply ordered_handler| |exact Ho|exact Hfire].
      intros op _ Hw Hin. apply Hw. exact (remove_one_in _ _ _ Hin). }
  destruct (over w) eqn:Hov.
  - intros _. eapply (hushed_steps (writes (trace w))); [by eapply steps_cons, steps_nil|].
    split_and!; [done|by apply He|done].
  - eapply (fire_preserves emptied); [|done|exact He|exact Hfire].
    apply emptied_handler. intros ec ->. unfold enabled in Hen. simpl in Hen.
    by rewrite (Ho Hen) in Hov.
Qed.

Lemma tidy_steps w ls w' : steps w ls w' -> tidy w -> tidy w'.
Proof. induction 1; eauto using tidy_fire. Qed.

Lemma tidy_run time count w : run (construct time count) = Ok tt w -> tidy w.
Proof.
  intros [= <-]. split; [done|]. intros Hin. simpl in Hin.
  apply elem_of_cons in Hin as [?|Hin]; [done|]. by apply list_elem_of_singleton in Hin.
Qed.

(** ** A connection that is gone *)

(** Dropped, with nothing queued. *)
Definition gone (w : world) : Prop :=
  dropped_ (conn w) = true /\ queue_ (message_queue_ (conn w)) = [].

(** What a step may add to the references. *)
Definition adds (l : label) : nat :=
  ((if reception l then 2 else 0) + (if is_send l then 1 else 0))%nat.

Lemma gone_handler l w w' :
  gone w -> handler l w = Ok tt w' -> gone w' /\ (references w' <= references w + adds l)%nat.
Proof.
  destruct w as [[dr sh wr q mo rb rs rm rn] so po pe tr ex sx nw ct].
  unfold gone, adds. simpl. intros [-> Hq].
  destruct l as [m| |ec|ec x b|ec|ec x b|ec|t ec|ec|t n]; simpl;
    unfold send_message, send_in_strand, arrive, on_ssl_handshake, on_read_request, on_ws_handshake,
      on_read, on_write_message, on_timeout, on_shutdown, handle_write_error, handle_read_error,
      count_inbound, check_rate_limit, consume, refresh_timeout, set_timeout, process_message,
      shutdown, abort, int_add, mbind, M_bind, field, gets; simpl;
    try (destruct (failed ec)); simpl.
  all: repeat (case_decide; simpl; try done).
  all: try (destruct b; simpl; repeat (case_decide; simpl; try done)).
  all: try (destruct (is_empty m); simpl).
  all: try (destruct po as [|m po]; simpl).
  all: try (unfold on_queue, try_pop, mbind, M_bind, get; simpl; rewrite Hq; simpl).
  all: intros [= <-]; simpl; unfold references; simpl; rewrite ?length_app; simpl;
    (split; [by split|lia]).
Qed.

Lemma remove_one_length `{EqDecision A} (x : A) l :
  x ∈ l -> (S (length (remove_one x l)) = length l)%nat.
Proof.
  induction l as [|y l IH]; [by intros ?%elem_of_nil|]. simpl. intros Hin.
  case_decide as Hy; [done|]. apply elem_of_cons in Hin as [->|Hin]; [done|].
  simpl. by rewrite (IH Hin).
Qed.

Lemma gone_fire l w w' :
  gone w -> enabled l w -> fire l w = Ok tt w' ->
  gone w' /\ ((if completion l then 1 else 0) + references w' <= references w + adds l)%nat.
Proof.
  intros Hg Hen Hfire. unfold completion. destruct (completes l) as [op|] eqn:Hl.
  - unfold enabled in Hen. rewrite Hl in Hen. rewrite (fire_completes _ _ op) in Hfire by done.
    destruct (gone_handler l (without op w) w' Hg Hfire) as [Hg' Hr]. split; [done|].
    pose proof (remove_one_length op _ Hen) as Hlen. unfold references in *. simpl in Hr. lia.
  - rewrite fire_call in Hfire by done. by apply gone_handler.
Qed.

Lemma gone_steps w ls w' :
  steps w ls w' -> gone w ->
  gone w' /\
  (completions ls + references w' <= references w + 2 * receptions ls + sends ls)%nat.
Proof.
  induction 1 as [w|w l w1 ls w2 Hen Hfire _ IH]; [intros; split; [done|simpl; lia]|].
  intros Hg. destruct (gone_fire l w w1 Hg Hen Hfire) as [Hg1 Hr]. destruct (IH Hg1) as [Hg2 Hrs].
  split; [done|]. unfold completions, receptions, sends, adds in *. rewrite !filter_cons.
  destruct (completion l), (reception l), (is_send l); simpl in *; lia.
Qed.

(** What ends gives up its reference. *)
Lemma ends_fire l w :
  gone w -> ends l w -> exists w', fire l w = Ok tt w' /\ (S (references w') = references w)%nat.
Proof.
  intros [Hd Hq] Hl. destruct (completes l) as [op|] eqn:Hc.
  - assert (enabled l w /\ reception l = false) as [Hen Hr] by (by destruct l).
    unfold enabled in Hen. rewrite Hc in Hen. rewrite (fire_completes _ _ op) by done.
    pose proof (remove_one_length op _ Hen) as Hlen. unfold references. rewrite <- Hlen.
    change (remove_one op (pending w)) with (pending (without op w)).
    change (posted w) with (posted (without op w)).
    assert (exists w', handler l (without op w) = Ok tt w' /\ pending w' = pending (without op w) /\
      posted w' = posted (without op w)) as (w' & Hrun & Hp & Hpo); [|exists w'; by rewrite Hrun, Hp, Hpo].
    clear Hen Hlen. destruct w as [[dr sh wr q mo rb rs rm rn] so po pe tr ex sx nw ct].
    simpl in Hd, Hq. subst dr. destruct l as [m| |ec|ec x b|ec|ec x b|ec|t ec|ec|t n]; try done; simpl in Hr;
      try apply negb_false_iff in Hr; simpl;
      unfold arrive, on_ssl_handshake, on_read_request, on_ws_handshake, on_read, on_write_message,
        on_timeout, on_shutdown, handle_write_error, handle_read_error, abort, mbind, M_bind, field, gets;
      simpl; rewrite ?Hr; try by eexists.
    destruct (failed ec); simpl; [by eexists|].
    unfold on_queue, try_pop, mbind, M_bind, get. simpl. rewrite Hq. by eexists.
  - rewrite fire_call by done. destruct l; try done. simpl in Hl. clear Hc.
    destruct w as [[dr sh wr q mo rb rs rm rn] so [|m ms] pe tr ex sx nw ct]; [done|].
    simpl in Hd, Hq. subst dr. unfold handler, send_in_strand, mbind, M_bind, field, gets. simpl.
    eexists. split; [reflexivity|]. unfold references. simpl. lia.
Qed.

(** What ends a reference, as long as there is one. *)
Lemma gone_progress w : (0 < references w)%nat -> exists l, ends l w.
Proof.
  intros Hr. unfold references in Hr.
  destruct (posted w) as [|m ms] eqn:Hp; [|exists Posted; simpl; by rewrite Hp].
  destruct (pending w) as [|op ops] eqn:Hops; [simpl in Hr; lia|].
  assert (op ∈ pending w) as Hin by (rewrite Hops; by left).
  destruct op as [| | | | |t|].
  - by exists (HandshakeDone (mkErrorCode system_category 9)).
  - by exists (RequestDone (mkErrorCode system_category 9) [] false).
  - by exists (AcceptDone success).
  - by exists (ReadDone (mkErrorCode system_category 9) [] false).
  - by exists (WriteDone success).
  - by exists (WaitDone t success).
  - by exists (ShutdownDone success).
Qed.

(** C28: a connection that is dropped goes away. Once a connection that runs is dropped, by an
    abort or by the end of its TLS session, it stays so, and whatever happens afterwards, in
    whatever order, only a reception that succeeds - a TLS handshake, a request or a message
    that had arrived before the socket was closed - starts anything: what completes, and what
    still refers to the connection, are together at most what referred to it when it was
    dropped, the messages sent to it since, and two for each such reception. A posted task,
    or any other completion, runs and gives up one reference; and one of them is there to
    happen until nothing refers to the connection any more. *)
Theorem dropped_connection_goes time count w0 ls0 w ls w' :
  run (construct time count) = Ok tt w0 -> steps w0 ls0 w -> dropped_ (conn w) = true ->
  steps w ls w' ->
  dropped_ (conn w') = true /\
  (completions ls + references w' <= references w + 2 * receptions ls + sends ls)%nat /\
  (forall l, ends l w' ->
    exists w2, fire l w' = Ok tt w2 /\ (S (references w2) = references w')%nat) /\
  (references w' = 0%nat \/ exists l, ends l w').
Proof.
  intros Hrun Hsteps0 Hd Hsteps.
  assert (gone w) as Hg.
  { split; [done|]. apply (tidy_steps _ _ _ Hsteps0 (tidy_run _ _ _ Hrun)). unfold over. by rewrite Hd. }
  destruct (gone_steps w ls w' Hsteps Hg) as [Hg' Hr]. split_and!; [apply Hg'|done|..].
  - intros l Hl. by apply ends_fire.
  - destruct (decide (references w' = 0%nat)); [by left|right]. apply gone_progress. lia.
Qed.
End closing.

(** ** Witness: a connection that writes, and has a message posted, when its client is silent. *)

#[local] Existing Instance linux_errors.
#[local] Existing Instance default_config.

Definition fresh_client : world := Eval vm_compute in
  match run (construct 0 0) with Ok _ w => w | _ => construct 0 0 end.

Definition busy_labels : list label :=
  [HandshakeDone success; Send (Some (str "a")); Posted; Send (Some (str "b"));
   Elsewhere (seconds 3) 1; WaitDone timer_ success].
Definition aborted : world := Eval vm_compute in default fresh_client (play busy_labels fresh_client).

(** The request had been read; the WebSocket handshake it starts fails. *)
Definition bad_socket : error_code := mkErrorCode system_category 9.
Definition endings : list label :=
  [WriteDone success; Posted; RequestDone success [] true; AcceptDone bad_socket].
Definition all_ended : world := Eval vm_compute in default aborted (play endings aborted).

Lemma dropped_connection_goes_witness :
  (completions endings + references all_ended <= 3 + 2 * 1 + 0)%nat /\ references all_ended = 0%nat.
Proof.
  split; [|reflexivity].
  refine (proj1 (proj2 (dropped_connection_goes 0 0 fresh_client busy_labels aborted endings all_ended
            eq_refl _ eq_refl _))); apply play_steps; reflexivity.
Defined.
