(* ===== verification/WsTheorems.v ===== *)
(** * What a connection to a browser guarantees

    The rate limiter, the timeouts, the answer to a request, and the writer. *)
From S2P Require Import Prelude Message MessageQueue ErrorCode WsConnection WsInvariant WsLife WsClock WsRefused.
From S2P Require Import WsSend WsSafe WsRate WsReceive.

#[local] Existing Instance linux_errors.
#[local] Existing Instance default_config.

Section rate.
Context `{AsioErrors} `{FrontConfig}.

(** A client over the limit is cut off at once. When a message makes a counter exceed
    its limit within a second of the last reset, the message is not handed on, no other is
    read, the queue is emptied and the socket closed, the connection dropped. *)
Theorem rate_limit_kill w readlen got_binary :
  let '(start_, messages, bytes_) := rate_state w in
  0 <= messages < int_max -> dropped_ (conn w) = false ->
  (rate_limit_messages < messages + 1 \/
   uint64 rate_limit_bytes < uint64 (bytes_ + Z.of_nat readlen)) ->
  now w - start_ <= seconds 1 ->
  exists w', on_read success readlen got_binary w = Ok tt w' /\
    dropped_ (conn w') = true /\ socket_open w' = false /\
    queue_ (message_queue_ (conn w')) = [] /\ pending w' = pending w /\
    trace w' = trace w ++ [TimerCanceled timer_; TimerCanceled state_timer_; SocketClosed].
Proof.
  destruct w as [[dr sh wr q mo rb rs rm rn] so po pe tr ex sx nw ct]. simpl.
  intros Hm -> Hex Ht. unfold on_read. change (failed success) with false.
  unfold count_inbound, int_add, mbind, M_bind, field, gets. simpl.
  rewrite decide_True by (unfold int_max in *; lia).
  unfold check_rate_limit, mbind, M_bind, field, gets. simpl. rewrite decide_True by done.
  rewrite (decide_False (P := seconds 1 < nw - rs)) by lia. simpl.
  eexists. split; [done|]. simpl. by rewrite <- !app_assoc.
Qed.

(** [timer_] is to be set again. *)
Definition timer_due (w : world) : bool := bool_decide (expiry w - now w <= seconds ws_timeout).

Lemma refresh_timeout_spec w :
  - 2 ^ 31 <= ws_timeout + 5 <= int_max ->
  exists w', refresh_timeout w = Ok tt w' /\ conn w' = conn w /\ socket_open w' = socket_open w /\
    pending w' = pending w ++ (if timer_due w then [AsyncWait timer_] else []) /\
    trace w' = trace w ++ (if timer_due w
                           then [TimerCanceled timer_; Started (AsyncWait timer_)] else []) /\
    seconds ws_timeout < expiry w' - now w'.
Proof.
  intros Ht. unfold refresh_timeout, timer_due, mbind, M_bind, gets.
  destruct (decide (expiry w - now w <= seconds ws_timeout)) as [He|He].
  - rewrite bool_decide_true by done. unfold int_add. rewrite decide_True by done.
    eexists. split; [done|]. simpl. rewrite <- app_assoc. split_and!; try done.
    unfold seconds. lia.
  - rewrite bool_decide_false by done. eexists. split; [done|]. rewrite !app_nil_r.
    split_and!; try done. lia.
Qed.

Lemma read_success w received s :
  0 <= rate_limit_messages_ (conn w) < int_max -> read_buffer_ (conn w) = [] ->
  rate_step (now w) (Z.of_nat (length received)) (rate_state w) = Some s ->
  handler (ReadDone success received true) w =
  (refresh_timeout;; process_message received)
    (mkWorld (conn (with_rate s w)) (socket_open w) (posted w) (pending w ++ [AsyncRead])
       (trace w ++ [Started AsyncRead]) (expiry w) (state_expiry w) (now w)
       (active_connection_count w)).
Proof.
  destruct w as [[dr sh wr q mo rb rs rm rn] so po pe tr ex sx nw ct]. simpl.
  intros Hm -> Hs. unfold arrive, mbind at 1, M_bind at 1, field, gets. simpl.
  unfold on_read. change (failed success) with false.
  match goal with |- context [mkWorld ?c _ _ _ _ _ _ _ _] =>
    pose proof (check_rate_step nw (Z.of_nat (length received))
                  (mkWorld c so po pe tr ex sx nw ct) eq_refl ltac:(simpl; lia)
                  ltac:(simpl; lia)) as Hc end.
  unfold rate_state in Hc, Hs. simpl in Hc, Hs. rewrite Hs in Hc.
  unfold mbind at 1 2, M_bind at 1 2. unfold mbind, M_bind in Hc.
  destruct (count_inbound _ _) as [[] w1| |]; try done. rewrite Hc. simpl.
  unfold mbind, M_bind, field, gets. simpl.
  by rewrite drop_all, take_ge, Nat.sub_diag, app_nil_r by lia.
Qed.

(** A binary message the limiter lets through is handed on whole, once, and reading
    goes on. The next read is started before the message is handed on, the buffer is left
    empty for it, the counters are those of the limiter, and the connection now times out
    in more than [ws_timeout] seconds. *)
Theorem read_delivers w received s :
  0 <= rate_limit_messages_ (conn w) < int_max -> - 2 ^ 31 <= ws_timeout + 5 <= int_max ->
  read_buffer_ (conn w) = [] ->
  rate_step (now w) (Z.of_nat (length received)) (rate_state w) = Some s ->
  exists w', handler (ReadDone success received true) w = Ok tt w' /\
    rate_state w' = s /\ read_buffer_ (conn w') = [] /\
    pending w' = pending w ++ AsyncRead :: (if timer_due w then [AsyncWait timer_] else []) /\
    trace w' = trace w ++ Started AsyncRead ::
      (if timer_due w then [TimerCanceled timer_; Started (AsyncWait timer_)] else []) ++
      [Processed received] /\
    seconds ws_timeout < expiry w' - now w'.
Proof.
  intros Hm Ht Hbuf Hs. rewrite (read_success w received s Hm Hbuf Hs).
  set (w1 := mkWorld _ _ _ _ _ _ _ _ _).
  destruct (refresh_timeout_spec w1 Ht) as (w2 & Hw2 & Hc & _ & Hp & Htr & Hex).
  eexists. unfold mbind, M_bind. rewrite Hw2. split; [done|]. simpl.
  rewrite Hp, Htr. unfold rate_state. simpl. rewrite Hc. subst w1. simpl. rewrite <- !app_assoc.
  split_and!; try done. by destruct s as [[] ].
Qed.

(** ** Requests *)
#[local] Arguments handler : simpl never.

(** The answer to a request. Above the soft limit the client gets a 503 and the
    connection is shut down, whatever it asked for; at or below it an upgrade is accepted,
    and anything else gets a 501 and the shutdown. Bytes read past the request are thrown
    away in every case. *)
Theorem request_answer w extra is_upgrade :
  dropped_ (conn w) = false -> shutting_down_ (conn w) = false -> socket_open w = true ->
  exists w', handler (RequestDone success extra is_upgrade) w = Ok tt w' /\
    read_buffer_ (conn w') = [] /\
    if decide (active_connection_count w <= connection_limit_soft) then
      if is_upgrade then
        pending w' = pending w ++ [AsyncAccept] /\ shutting_down_ (conn w') = false /\
        trace w' = trace w ++ [Started AsyncAccept]
      else
        pending w' = pending w ++ [AsyncShutdown] /\ shutting_down_ (conn w') = true /\
        trace w' = trace w ++ [HttpResponse 501 (str "Not implemented"); TimerCanceled timer_;
                               TimerCanceled state_timer_; Started AsyncShutdown]
    else
      pending w' = pending w ++ [AsyncShutdown] /\ shutting_down_ (conn w') = true /\
      trace w' = trace w ++ [HttpResponse 503 (str "Overloaded"); TimerCanceled timer_;
                             TimerCanceled state_timer_; Started AsyncShutdown].
Proof.
  intros Hd Hs Ho. rewrite on_read_request_eq.
  pose proof (fun st b => refuse_spec st b (without_buffer w) Hd Hs Ho) as Href.
  destruct (decide (active_connection_count w <= connection_limit_soft)) as [Hle|Hle].
  - rewrite decide_False by lia. destruct is_upgrade; [|apply Href].
    eexists. split; [reflexivity|]. by split_and!.
  - rewrite decide_True by lia. apply Href.
Qed.

(** C20: a client that is refused is not heard and not spoken to any more. From the start of a
    connection on, whatever it was before: when its request is read above the soft limit, or
    is no upgrade, it gets a 503 or a 501, and from then on, whatever happens in any order,
    no message of it is handed on, none is written to it, and the connection stays shutting
    down or dropped. *)
Theorem refused_client_ends time count w0 ls w extra is_upgrade w1 ls' w2 :
  - 2 ^ 31 <= ws_timeout + 5 <= int_max -> rate_limit_messages < int_max ->
  run (construct time count) = Ok tt w0 -> steps w0 ls w -> ws_up w ->
  connection_limit_soft < active_connection_count w \/ is_upgrade = false ->
  enabled (RequestDone success extra is_upgrade) w ->
  fire (RequestDone success extra is_upgrade) w = Ok tt w1 -> steps w1 ls' w2 ->
  HttpResponse (if decide (connection_limit_soft < active_connection_count w) then 503 else 501)
    (str (if decide (connection_limit_soft < active_connection_count w) then "Overloaded"
          else "Not implemented")) ∈ trace w1 /\
  processed (trace w2) = processed (trace w) /\ writes (trace w2) = writes (trace w) /\
  over w2 = true.
Proof.
  intros Htimeout Hmessages Hrun Hsteps [Ho Hopen] Href Hen Hfire Hsteps'.
  pose proof Ho as Hds. apply orb_false_iff in Hds as [Hd Hs].
  pose proof (orderly_one w (orderly_steps Htimeout Hmessages _ _ _ Hsteps
                (orderly_start Hmessages _ _ _ Hrun))) as Hone.
  rewrite (fire_completes _ _ AsyncReadRequest), on_read_request_eq in Hfire by done. simpl in Hfire.
  assert (forall status body,
    refuse status body (without_buffer (without AsyncReadRequest w)) = Ok tt w1 ->
    HttpResponse status body ∈ trace w1 /\ receive_count (pending w1) = 0%nat /\
    processed (trace w1) = processed (trace w) /\ hushed (writes (trace w)) w1) as Hrefuse.
  { intros status body Hr.
    destruct (refuse_spec status body (without_buffer (without AsyncReadRequest w)) Hd Hs Hopen)
      as (w1' & Hw1 & _ & Hp & Hsh & Ht).
    pose proof (refuse_clears status body (without_buffer (without AsyncReadRequest w)) w1 Hd Hs Hr) as Hq.
    rewrite Hr in Hw1. injection Hw1 as <-. simpl in Hp, Ht. unfold hushed, over.
    rewrite Ht, Hp, Hsh, Hq, ws_writes_app, ws_processed_app, !app_nil_r, orb_true_r, receive_count_app.
    unfold enabled in Hen. simpl in Hen. pose proof (receive_count_remove AsyncReadRequest _ Hen) as Hc.
    simpl in Hc. split_and!; try done; [|unfold receive_count at 2; simpl; lia].
    apply elem_of_app. right. by left. }
  assert (HttpResponse (if decide (connection_limit_soft < active_connection_count w) then 503 else 501)
    (str (if decide (connection_limit_soft < active_connection_count w) then "Overloaded"
          else "Not implemented")) ∈ trace w1 /\ receive_count (pending w1) = 0%nat /\
    processed (trace w1) = processed (trace w) /\ hushed (writes (trace w)) w1) as (Hresp & Hnone & <- & Hhush).
  { destruct (decide (connection_limit_soft < active_connection_count w)); [by apply Hrefuse|].
    destruct Href as [|Hno]; [done|]. rewrite Hno in Hfire. by apply Hrefuse. }
  destruct (hushed_steps _ _ _ _ Hsteps' Hhush) as (Hover & _ & Hw).
  destruct (deaf_steps _ _ _ Hsteps' Hnone) as [_ Hproc]. by split_and!.
Qed.

(** ** Writing *)

(** C21: one write at a time, from a buffer that stays. In every state a connection comes to,
    at most one write is on its way, the buffer it was started from still holds the payload
    it was started with, and messages wait in the queue only while there is one: whatever
    is sent, completes, fails or times out, in any order. *)
Theorem one_write_at_a_time time count w0 ls w :
  run (construct time count) = Ok tt w0 -> steps w0 ls w ->
  (write_count (pending w) <= 1)%nat /\
  (AsyncWrite ∈ pending w ->
    exists d, message_outbound_ (conn w) = Some d /\ last (writes (trace w)) = Some d) /\
  (is_writing_ (conn w) = false ->
    (AsyncWrite ∉ pending w) /\ queue_ (message_queue_ (conn w)) = []).
Proof.
  intros Hrun Hsteps.
  assert (inv (construct time count)) as Hinv.
  { constructor; simpl; [done|by exists []|done|done|]. by intros ?%elem_of_nil. }
  pose proof (ws_run _ Hinv) as Hw0. unfold wp in Hw0. rewrite Hrun in Hw0.
  destruct (ws_steps_inv _ _ _ Hsteps Hw0) as [Hw Hq Hidle Hpost Hbuf].
  split_and!; [destruct (is_writing_ (conn w)); lia|done|].
  intros Hwr. split; [|by apply Hidle]. intros Hin. rewrite Hwr in Hw.
  pose proof (write_count_remove _ _ Hin) as Hr. simpl in Hr. lia.
Qed.

(** ** Timeouts and the end *)

(** C25: a client that goes quiet is cut off. As long as its timers keep their promise, a
    connection that is neither dropped nor shutting down, from [run] on and whatever has
    happened, waits for [timer_], which expires within the longest of its two timeouts;
    and when it does, the queue is emptied, the socket closed and the connection dropped. *)
Theorem timeout_armed time count w0 ls w :
  run (construct time count) = Ok tt w0 -> timed_steps w0 ls w -> over w = false ->
  AsyncWait timer_ ∈ pending w /\ expiry w <= now w + patience /\
  forall ec, ec <> operation_aborted ->
    exists w', fire (WaitDone timer_ ec) w = Ok tt w' /\
      dropped_ (conn w') = true /\ socket_open w' = false /\
      queue_ (message_queue_ (conn w')) = [] /\ pending w' = remove_one (AsyncWait timer_) (pending w).
Proof.
  intros Hrun Hsteps Ho.
  destruct (armed_steps _ _ _ Hsteps (armed_run _ _ _ Hrun) Ho) as [Hin Hx].
  split_and!; [done|done|]. intros ec Hec. apply orb_false_iff in Ho as [Hd _].
  by apply (on_timeout_drops ec (without (AsyncWait timer_) w)).
Qed.

(** A client that is refused and does not answer is kept for ever. After a request that
    gets a 503 or a 501 the timers are canceled and the TLS shutdown waits for the client:
    as long as nothing comes from it the connection is not dropped, its socket stays open,
    and nothing is pending that could change that; so it is never destroyed, and counts
    among the active connections. *)
Theorem refused_client_stays time count extra is_upgrade w0 w1 ls w2 :
  run (construct time count) = Ok tt w0 ->
  steps w0 [HandshakeDone success; RequestDone success extra is_upgrade] w1 ->
  connection_limit_soft < count + 1 \/ is_upgrade = false ->
  asio_steps False w1 ls w2 -> Forall unanswered ls ->
  dropped_ (conn w2) = false /\ socket_open w2 = true /\
  (pending w2 = [AsyncShutdown] \/ pending w2 = [AsyncWait timer_; AsyncShutdown]).
Proof.
  intros [= <-] Hsteps Hrefused Hls Hun.
  inversion Hsteps as [|? ? wa ? ? _ Ha Hsteps']; subst.
  inversion Hsteps' as [|? ? wb ? ? _ Hb Hnil]; subst. inversion Hnil; subst.
  rewrite (fire_completes _ _ AsyncHandshake) in Ha by done.
  unfold handler, on_ssl_handshake in Ha. change (failed success) with false in Ha.
  injection Ha as <-.
  apply refused_lingers in Hb; [|done..].
  by destruct (lingers_steps _ _ _ _ Hls Hun (fun F => F) Hb).
Qed.

(** C27: no message is written once a connection is aborted or shut down. From then on it
    stays dropped or shutting down and starts no write, in whatever order what is pending
    completes, succeeds or fails, and messages are sent. What it may still write is the
    answer to its one request - a 503, a 501 or the end of the WebSocket handshake - when
    that was still to be read: a connection answers once in its life, and its end does not
    take that back. *)
Theorem quiet_after_end time count w0 ls w w1 ls' w' :
  run (construct time count) = Ok tt w0 -> steps w0 ls w -> ws_up w ->
  abort w = Ok tt w1 \/ shutdown w = Ok tt w1 -> steps w1 ls' w' ->
  over w' = true /\ writes (trace w') = writes (trace w) /\
  (answers (trace w') + requests_left (pending w') <=
   answers (trace w) + requests_left (pending w) <= 1)%nat.
Proof.
  intros Hrun Hsteps [Ho Hopen] Hend Hsteps'.
  destruct (hushed_steps _ _ _ _ Hsteps' (ended_hushed w w1 Ho Hopen Hend)) as (? & _ & ?).
  split_and!; [done|done| |by apply (within_steps 1 _ _ _ Hsteps), (within_run time count)].
  set (n := (answers (trace w) + requests_left (pending w))%nat).
  apply (within_steps n _ _ _ Hsteps'). assert (answers_within n w) as Hn by (unfold answers_within, n; lia).
  destruct Hend as [Hend|Hend]; (eapply (preserves_Ok (answers_within n)); [|exact Hend|exact Hn]);
    [apply within_abort|apply within_shutdown].
Qed.

(** Nothing keeps a message from being written before the handshakes. A message sent
    right after [run] is written to the WebSocket while the TLS handshake is still on its
    way: [is_writing_], which [ClusterConnection] sets for that reason when it runs, is not
    set here. *)
Theorem write_before_handshake time count payload :
  exists w0 w, run (construct time count) = Ok tt w0 /\
    steps w0 [Send (Some payload); Posted] w /\
    pending w = [AsyncWait timer_; AsyncHandshake; AsyncWrite] /\
    trace w = [TimerCanceled timer_; Started (AsyncWait timer_); Started AsyncHandshake;
               WriteStarted payload; Started AsyncWrite].
Proof.
  unfold run, set_timeout, mbind, M_bind, field, gets. simpl. eexists _, _.
  split; [reflexivity|]. split; [|split].
  - eapply steps_cons; [exact I|unfold fire, mbind, M_bind; simpl; reflexivity|].
    eapply steps_cons; [exact I| |apply steps_nil].
    unfold fire, handler, send_in_strand, do_write_message, mbind, M_bind, field, gets.
    simpl. reflexivity.
  - reflexivity.
  - reflexivity.
Qed.
End rate.

(** A connection over an open socket, after its handshakes, at time 0. *)
Definition established : world :=
  mkWorld (new_connection 0) true [] [AsyncRead; AsyncWait timer_] [] (seconds 35) 0 0 1.

(** A client that has sent a hundred messages. *)
Definition busy : world :=
  mkWorld (mkWsConnection false false false new_queue None [] 0 100 5000) true []
    [AsyncWait timer_] [] (seconds 35) 0 (seconds 1) 1.

Lemma rate_limit_kill_witness :
  exists w', on_read success 10 true busy = Ok tt w' /\
    dropped_ (conn w') = true /\ socket_open w' = false /\
    queue_ (message_queue_ (conn w')) = [] /\ pending w' = pending busy /\
    trace w' = [] ++ [TimerCanceled timer_; TimerCanceled state_timer_; SocketClosed].
Proof.
  refine (rate_limit_kill busy 10 true _ eq_refl _ _);
    [vm_compute; split; congruence|left; reflexivity|vm_compute; congruence].
Defined.

Lemma read_delivers_witness :
  exists w', handler (ReadDone success (str "ping") true) established = Ok tt w' /\
    rate_state w' = (0, 1, 4) /\ read_buffer_ (conn w') = [] /\
    pending w' = pending established ++
      AsyncRead :: (if timer_due established then [AsyncWait timer_] else []) /\
    trace w' = trace established ++ Started AsyncRead ::
      (if timer_due established
       then [TimerCanceled timer_; Started (AsyncWait timer_)] else []) ++
      [Processed (str "ping")] /\
    seconds ws_timeout < expiry w' - now w'.
Proof.
  apply (read_delivers established (str "ping") (0, 1, 4));
    [vm_compute; split; congruence|vm_compute; split; congruence|reflexivity|vm_compute; reflexivity].
Defined.

(** The one connection, when the limit is a thousand. *)
Lemma request_answer_witness :
  exists w', handler (RequestDone success (str "x") true) established = Ok tt w' /\
    read_buffer_ (conn w') = [] /\ pending w' = pending established ++ [AsyncAccept] /\
    shutting_down_ (conn w') = false /\ trace w' = [] ++ [Started AsyncAccept].
Proof.
  exact (request_answer established (str "x") true eq_refl eq_refl eq_refl).
Defined.

(** A request that is no upgrade; then a message is sent to its client. *)
Definition asked : world := Eval vm_compute in default new_client (play [HandshakeDone success] new_client).
Definition refused : world := Eval vm_compute in
  default asked (play [RequestDone success (str "x") false] asked).
Definition spoken_to : world := Eval vm_compute in
  default refused (play [Send (Some (str "hi")); Posted] refused).

Lemma refused_client_ends_witness :
  HttpResponse 501 (str "Not implemented") ∈ trace refused /\
  processed (trace spoken_to) = [] /\ writes (trace spoken_to) = [] /\ over spoken_to = true.
Proof.
  refine (refused_client_ends 0 0 new_client [HandshakeDone success] asked (str "x") false refused
            [Send (Some (str "hi")); Posted] spoken_to default_timeout default_messages
            eq_refl _ (conj eq_refl eq_refl) (or_intror eq_refl) _ eq_refl _).
  - apply play_steps. reflexivity.
  - unfold enabled. simpl. by repeat first [left|right].
  - apply play_steps. reflexivity.
Defined.

(** Two messages sent at once: one is on its way, one waits. *)
Definition two_sends : list label :=
  [Send (Some (str "a")); Send (Some (str "b")); Posted; Posted].

Definition after_run : world :=
  match run (construct 0 0) with Ok _ w => w | _ => established end.

Definition after_sends : world :=
  match play two_sends after_run with Some w => w | None => established end.

Lemma one_write_at_a_time_witness :
  queue_ (message_queue_ (conn after_sends)) <> [] /\
  (write_count (pending after_sends) <= 1)%nat.
Proof.
  split; [vm_compute; congruence|].
  apply (one_write_at_a_time 0 0 after_run two_sends after_sends);
    [vm_compute; reflexivity|apply play_steps; vm_compute; reflexivity].
Defined.

(** A client that has sent its request and then one message, after twenty seconds. *)
Definition session : list label :=
  [HandshakeDone success; RequestDone success [] true; AcceptDone success;
   WaitDone timer_ operation_aborted; Elsewhere (seconds 20) 1; ReadDone success (str "hi") true].

Definition in_session : world :=
  Eval vm_compute in match play session after_run with Some w => w | None => established end.

Lemma timeout_armed_witness :
  AsyncWait timer_ ∈ pending in_session /\ expiry in_session <= now in_session + patience /\
  forall ec, ec <> operation_aborted ->
    exists w', fire (WaitDone timer_ ec) in_session = Ok tt w' /\
      dropped_ (conn w') = true /\ socket_open w' = false /\
      queue_ (message_queue_ (conn w')) = [] /\
      pending w' = remove_one (AsyncWait timer_) (pending in_session).
Proof.
  apply (timeout_armed 0 0 after_run session in_session); [reflexivity| |reflexivity].
  repeat (eapply timed_cons;
    [by apply (bool_decide_unpack _)
    |first [exact I|intros _; right; by apply (bool_decide_unpack _)]
    |vm_compute; reflexivity|]).
  apply timed_nil.
Defined.

(** A request that is no upgrade. *)
Definition refusal : list label := [HandshakeDone success; RequestDone success (str "x") false].

Definition after_refusal : world :=
  Eval vm_compute in match play refusal after_run with Some w => w | None => established end.

(** An hour later. *)
Definition silence : list label :=
  [WaitDone timer_ operation_aborted; Send (Some (str "a")); Posted; Elsewhere (seconds 3600) 1].

Definition after_silence : world :=
  Eval vm_compute in match play silence after_refusal with Some w => w | None => established end.

Lemma refused_client_stays_witness :
  dropped_ (conn after_silence) = false /\ socket_open after_silence = true /\
  (pending after_silence = [AsyncShutdown] \/
   pending after_silence = [AsyncWait timer_; AsyncShutdown]).
Proof.
  apply (refused_client_stays 0 0 (str "x") false after_run after_refusal silence);
    [reflexivity|apply play_steps; vm_compute; reflexivity|by right
    |apply canceled_asio_steps; [by repeat constructor|apply play_steps; vm_compute; reflexivity]
    |repeat constructor].
Defined.

(** A write is on its way when the connection is aborted, and completes; so does the TLS
    handshake. *)
Definition cut_off : world :=
  Eval vm_compute in match abort after_sends with Ok _ w => w | _ => established end.

Definition late : list label :=
  [WriteDone success; Send (Some (str "c")); Posted; HandshakeDone success;
   RequestDone success [] false].

Definition after_late : world :=
  Eval vm_compute in match play late cut_off with Some w => w | None => established end.

Lemma quiet_after_end_witness :
  over after_late = true /\ writes (trace after_late) = [str "a"] /\ answers (trace after_late) = 1%nat.
Proof.
  refine (let H := quiet_after_end 0 0 after_run two_sends after_sends cut_off late after_late
            _ _ _ _ _ in conj (proj1 H) (conj (proj1 (proj2 H)) eq_refl));
    [reflexivity|apply play_steps; reflexivity|by split|left; reflexivity|apply play_steps; reflexivity].
Defined.
