(* ===== verification/AsioPool.v ===== *)
(** * The pool of threads

    [server/common/src/AsioPool.cpp]: instances of [io_context], each with its threads.
    What the main thread does in [AsioPool::run] is cut into steps, since signal handlers
    and the threads of the pool run between them. *)
From S2P Require Import Prelude Message Config.

Record AsioInstance := mkAsioInstance {
  name : bytes;
  (** the address of the [ConfigIntValue] *)
  threads : positive;
  (** of the [io_context]: set by [stop], cleared by [restart] *)
  stopped : bool;
  (** the size of the vector *)
  workers : nat;
  (** those of them that are still in [asio.run()] *)
  running : nat;
}.

Section pool.
Context `{PropertyTree}.

(** What the pool uses of the process. *)
Record process := mkProcess {
  config : config_state;
  asios_ : list AsioInstance;
}.

(** The main thread waits for another; or a fault of the configuration. *)
Inductive pool_fault := Waits | ConfigFault (f : config_fault).

Definition set_asios (l : list AsioInstance) : M pool_fault process unit :=
  modify (fun p => mkProcess (config p) l).

Definition on_config {A} (m : M config_fault config_state A) : M pool_fault process A := fun p =>
  match m (config p) with
  | Ok a c => Ok a (mkProcess c (asios_ p))
  | Err f => Err (ConfigFault f)
  | Fuel => Fuel
  end.

(** [(int) instance->threads] *)
Definition int_value (l : positive) : M config_fault config_state Z :=
  v ← deref l;
  match v with ConfigIntValue _ _ value_ => mret value_ | _ => throw (Dangling l) end.

(** [create_asio], the new instance's copy of [threads] being at [this]. *)
Definition create_asio (this : positive) (name : bytes) (threads : positive)
    : M pool_fault process unit :=
  on_config (new_copy this threads);;
  asios ← gets asios_;
  set_asios (asios ++ [mkAsioInstance name this false 0 0]).

Definition restart (i : AsioInstance) := mkAsioInstance (name i) (threads i) false (workers i) (running i).
Definition stop_asio (i : AsioInstance) := mkAsioInstance (name i) (threads i) true (workers i) (running i).
(** [workers.emplace_back(thread_run)] *)
Definition emplace_worker (i : AsioInstance) :=
  mkAsioInstance (name i) (threads i) (stopped i) (S (workers i)) (S (running i)).
Definition clear_workers (i : AsioInstance) := mkAsioInstance (name i) (threads i) (stopped i) 0 (running i).
(** A thread's [asio.run()] returns. *)
Definition leave_run (i : AsioInstance) :=
  mkAsioInstance (name i) (threads i) (stopped i) (workers i) (running i - 1).

(** Where the main thread is in [run]. *)
Inductive run_pc :=
| Restarting (i : nat)
| Spawning (i : nat)
| Joining (i : nat)
| RunDone.

#[export] Instance run_pc_eq_dec : EqDecision run_pc.
Proof. solve_decision. Defined.

Definition run_step (pc : run_pc) : M pool_fault process run_pc :=
  asios ← gets asios_;
  match pc with
  | Restarting i =>
      match asios !! i with
      | Some _ => set_asios (alter restart i asios);; mret (Spawning i)
      | None => mret (Joining 0)
      end
  | Spawning i =>
      match asios !! i with
      | Some instance =>
          n ← on_config (int_value (threads instance));
          if decide (Z.of_nat (workers instance) < uint64 n)
          then set_asios (alter emplace_worker i asios);; mret (Spawning i)
          else mret (Restarting (S i))
      | None => mret (Joining 0)
      end
  | Joining i =>
      match asios !! i with
      | Some instance =>
          if decide (running instance = 0%nat)
          then set_asios (alter clear_workers i asios);; mret (Joining (S i))
          else throw Waits
      | None => mret RunDone
      end
  | RunDone => mret RunDone
  end.

Definition stop : M pool_fault process unit :=
  asios ← gets asios_;
  set_asios (stop_asio <$> asios).

(** A thread of instance [i] leaves [asio.run()]: [work] keeps it there until the context
    is stopped. *)
Definition worker_leaves (i : nat) : M pool_fault process unit :=
  asios ← gets asios_;
  match asios !! i with
  | Some instance =>
      if decide (stopped instance = true /\ (0 < running instance)%nat)
      then set_asios (alter leave_run i asios)
      else throw Waits
  | None => throw Waits
  end.
End pool.
