(* ===== verification/FrontMain.v ===== *)
(** * The front server's process

    [server/front/src/Main.cpp]: the loop that runs the pool, reloads the configuration and
    stops, with the two signal handlers. A handler runs between two steps of the main
    thread. *)
From S2P Require Import Prelude Message Config AsioPool.

Section main.
Context `{PropertyTree}.

Inductive main_pc :=
(** in [asio_pool.run()] *)
| Running (pc : run_pc)
(** [if (signals::should_stop)] *)
| Returned
(** [if (signals::should_reload)] *)
| TestReload
(** [config::load()] *)
| Reloading
(** [signals::should_reload = false] *)
| Reloaded
| Exited (code : Z).

Record main_state := mkMain {
  proc : process;
  should_stop : bool;
  should_reload : bool;
  pc : main_pc;
}.

Abbreviation Main := (M pool_fault main_state).

Definition goto (p : main_pc) : Main unit :=
  modify (fun s => mkMain (proc s) (should_stop s) (should_reload s) p).

Definition on_proc {A} (m : M pool_fault process A) : Main A := fun s =>
  match m (proc s) with
  | Ok a p => Ok a (mkMain p (should_stop s) (should_reload s) (pc s))
  | Err f => Err f
  | Fuel => Fuel
  end.

(** The next step of the main thread in the loop, when a file reads as [read_info] says. *)
Definition main_step (read_info : bytes -> option ptree) : Main unit :=
  here ← gets pc;
  match here with
  | Running RunDone => goto Returned
  | Running pc =>
      pc' ← on_proc (run_step pc);
      goto (Running pc')
  | Returned =>
      stop ← gets should_stop;
      goto (if (stop : bool) then Exited 0 else TestReload)
  | TestReload =>
      reload ← gets should_reload;
      goto (if (reload : bool) then Reloading else Exited 1)
  | Reloading =>
      loaded ← on_proc (on_config (load read_info []));
      goto (if (loaded : bool) then Reloaded else Exited 1)
  | Reloaded =>
      modify (fun s => mkMain (proc s) (should_stop s) false (pc s));;
      goto (Running (Restarting 0))
  | Exited _ => throw Waits
  end.

(** The signal handlers. *)
Definition sig_stop : Main unit :=
  modify (fun s => mkMain (proc s) true (should_reload s) (pc s));;
  on_proc stop.

Definition sig_reload : Main unit :=
  modify (fun s => mkMain (proc s) (should_stop s) true (pc s));;
  on_proc stop.

(** What happens next: a step of the main thread, a thread of instance [i] that leaves the
    pool, or a signal. *)
Inductive main_label :=
| MainStep (read_info : bytes -> option ptree)
| WorkerLeaves (i : nat)
| SigStop
| SigReload.

Definition is_signal (l : main_label) : bool :=
  match l with SigStop | SigReload => true | _ => false end.

(** Once the process has exited nothing happens. *)
Definition main_fire (l : main_label) : Main unit :=
  here ← gets pc;
  match here with
  | Exited _ => throw Waits
  | _ =>
      match l with
      | MainStep read_info => main_step read_info
      | WorkerLeaves i => on_proc (worker_leaves i)
      | SigStop => sig_stop
      | SigReload => sig_reload
      end
  end.

Inductive main_steps : main_state -> list main_label -> main_state -> Prop :=
| main_steps_nil s : main_steps s [] s
| main_steps_cons s l s1 ls s2 :
    main_fire l s = Ok tt s1 -> main_steps s1 ls s2 -> main_steps s (l :: ls) s2.

(** A run with given labels, executed. *)
Fixpoint main_play (ls : list main_label) (s : main_state) : option main_state :=
  match ls with
  | [] => Some s
  | l :: ls' => match main_fire l s with Ok _ s1 => main_play ls' s1 | _ => None end
  end.

Lemma main_play_steps ls s s' : main_play ls s = Some s' -> main_steps s ls s'.
Proof.
  revert s. induction ls as [|l ls IH]; simpl; intros s; [intros [= <-]; constructor|].
  destruct (main_fire l s) as [[] s1| |] eqn:Hfire; [|done..].
  intros Hrun. by apply (main_steps_cons s l s1); [|apply IH].
Qed.

(** The loop is entered with the signal handlers installed, and no signal yet. *)
Definition entered (p : process) : main_state := mkMain p false false (Running (Restarting 0)).
End main.
