(* ===== verification/MainInvariant.v ===== *)
(** * The invariant of the front server's process

    How many threads each instance of the pool has, at each point of the main thread, and
    why a thread may leave. *)
From stdpp Require Import gmap.
From S2P Require Import Prelude Message Config ConfigTheorems AsioPool FrontMain.

Section invariant.
Context `{PropertyTree}.

(** The present value of the number of threads of an instance. *)
Definition thread_count (c : config_state) (i : AsioInstance) : option Z :=
  match objects c !! threads i with Some (ConfigIntValue _ _ n) => Some n | _ => None end.

(** An instance before the pool runs it, while its threads are made, while they work, and
    after they were joined. *)
Inductive phase := Fresh | Partial | Live | Joined.

Definition phase_at (p : main_pc) (j : nat) : phase :=
  match p with
  | Running (Restarting i) => if decide (j < i)%nat then Live else Fresh
  | Running (Spawning i) =>
      if decide (j < i)%nat then Live else if decide (j = i) then Partial else Fresh
  | Running (Joining i) => if decide (j < i)%nat then Joined else Live
  | Reloaded => Fresh
  | _ => Joined
  end.

(** [flag]: a signal has been received. Only a stopped instance loses threads, and only a
    signal stops one. *)
Definition working (flag : Prop) (i : AsioInstance) : Prop :=
  (running i <= workers i)%nat /\ ((running i < workers i)%nat -> stopped i = true) /\
  (stopped i = true -> flag).

Definition phase_ok (flag : Prop) (n : Z) (ph : phase) (i : AsioInstance) : Prop :=
  match ph with
  | Fresh => workers i = 0%nat /\ running i = 0%nat
  | Partial => working flag i /\ Z.of_nat (workers i) <= uint64 n
  | Live => working flag i /\ Z.of_nat (workers i) = uint64 n
  | Joined => workers i = 0%nat /\ running i = 0%nat /\ (flag \/ uint64 n = 0)
  end.

(** A signal is still to be dealt with. *)
Definition signaled (s : main_state) : Prop :=
  match pc s with
  | TestReload | Reloading | Reloaded => should_reload s = true
  | _ => should_stop s = true \/ should_reload s = true
  end.

Record main_inv (s : main_state) : Prop := {
  main_config : config_inv (config (proc s));
  main_pool : forall j i, asios_ (proc s) !! j = Some i ->
    exists n, thread_count (config (proc s)) i = Some n /\
      phase_ok (signaled s) n (phase_at (pc s) j) i;
  main_exit : match pc s with
    | Exited c => (c = 0 /\ should_stop s = true) \/ (c = 1 /\ should_reload s = true) \/
                  (c = 1 /\ Forall (fun i => uint64 <$> thread_count (config (proc s)) i = Some 0)
                              (asios_ (proc s)))
    | Reloading => should_reload s = true
    | _ => True
    end;
}.

Lemma int_value_eq c i n :
  thread_count c i = Some n -> int_value (threads i) c = Ok n c.
Proof.
  unfold thread_count, int_value, deref, mbind, M_bind, gets.
  destruct (objects c !! threads i) as [[]|]; try done. by intros [= ->].
Qed.

Lemma thread_count_refreshed t c i n :
  thread_count c i = Some n ->
  exists n', thread_count (mkConfig t false (listeners c) (refreshed t <$> objects c)) i = Some n'.
Proof.
  unfold thread_count. simpl. rewrite lookup_fmap.
  destruct (objects c !! threads i) as [[]|]; simpl; try done. eauto.
Qed.

Lemma thread_count_same c i j : threads i = threads j -> thread_count c i = thread_count c j.
Proof. unfold thread_count. by intros ->. Qed.

Lemma working_mono (f1 f2 : Prop) i : (f1 -> f2) -> working f1 i -> working f2 i.
Proof. unfold working. naive_solver. Qed.

Lemma phase_ok_mono (f1 f2 : Prop) n ph i : (f1 -> f2) -> phase_ok f1 n ph i -> phase_ok f2 n ph i.
Proof. destruct ph; simpl; intros; destruct_and?; eauto using working_mono; naive_solver. Qed.

Lemma phase_ok_stop flag n ph i :
  ph = Joined \/ ph = Fresh \/ flag -> phase_ok flag n ph i -> phase_ok flag n ph (stop_asio i).
Proof. destruct ph, i; unfold working; simpl; unfold working; simpl; naive_solver. Qed.

Lemma phase_ok_leave flag n ph i :
  stopped i = true -> (0 < running i)%nat -> phase_ok flag n ph i ->
  phase_ok flag n ph (leave_run i).
Proof.
  intros Hst Hrun. destruct ph, i; simpl in *; unfold working; simpl; [lia| | |lia].
  - intros [(? & ? & ?) ?]. split_and!; auto; lia.
  - intros [(? & ? & ?) ?]. split_and!; auto; lia.
Qed.

(** A pool that changes at one place, or everywhere. *)
Lemma alter_pool (P Q : nat -> AsioInstance -> Prop) (f : AsioInstance -> AsioInstance) k
    (l : list AsioInstance) :
  (forall j i, l !! j = Some i -> P j i) ->
  (forall i, l !! k = Some i -> P k i -> Q k (f i)) ->
  (forall j i, j <> k -> P j i -> Q j i) ->
  forall j i, alter f k l !! j = Some i -> Q j i.
Proof.
  intros HP Hk Hj j i. destruct (decide (k = j)) as [<-|Hne].
  - rewrite list_lookup_alter_eq. destruct (l !! k) as [i0|] eqn:Hl; simpl; [|done].
    intros [= <-]. apply Hk; auto.
  - rewrite list_lookup_alter_ne by done. intros Hl. apply Hj; auto.
Qed.

(** ** The steps of the main thread *)

Abbreviation at_pc s p := (mkMain (proc s) (should_stop s) (should_reload s) p).

(** Moving on when the instances are fine where the thread goes. *)
Lemma main_inv_goto s p :
  main_inv s ->
  (forall j i n, asios_ (proc s) !! j = Some i -> thread_count (config (proc s)) i = Some n ->
     phase_ok (signaled s) n (phase_at (pc s) j) i ->
     phase_ok (signaled (at_pc s p)) n (phase_at p j) i) ->
  match p with Exited _ | Reloading => False | _ => True end ->
  main_inv (at_pc s p).
Proof.
  intros [Hc Hp He] Hphase Hpc. constructor; [done| |by destruct p].
  intros j i Hj. destruct (Hp j i Hj) as (n & Hn & Hok). exists n. split; [done|].
  by apply Hphase.
Qed.

Definition with_pool (s : main_state) (l : list AsioInstance) (p : main_pc) : main_state :=
  mkMain (mkProcess (config (proc s)) l) (should_stop s) (should_reload s) p.

Lemma with_pool_inv s f k p :
  main_inv s -> (forall i, threads (f i) = threads i) ->
  (forall i n, asios_ (proc s) !! k = Some i -> thread_count (config (proc s)) i = Some n ->
     phase_ok (signaled s) n (phase_at (pc s) k) i ->
     phase_ok (signaled (with_pool s [] p)) n (phase_at p k) (f i)) ->
  (forall j i n, j <> k -> phase_ok (signaled s) n (phase_at (pc s) j) i ->
     phase_ok (signaled (with_pool s [] p)) n (phase_at p j) i) ->
  match p with Exited _ | Reloading => False | _ => True end ->
  main_inv (with_pool s (alter f k (asios_ (proc s))) p).
Proof.
  intros [Hc Hp He] Hf Hk Hj Hpc. constructor; [done| |by destruct p].
  apply (alter_pool (fun j i => exists n, thread_count (config (proc s)) i = Some n /\
           phase_ok (signaled s) n (phase_at (pc s) j) i)); [done| |].
  - intros i Hi (n & Hn & Hok). exists n. split; [|by apply Hk].
    by rewrite (thread_count_same _ _ i).
  - intros j i Hne (n & Hn & Hok). exists n. split; [done|]. by apply Hj.
Qed.

End invariant.

(** Two phases of one index. *)
Ltac phases :=
  simpl phase_at; repeat case_decide; try lia; try done.

Abbreviation at_pc s p := (mkMain (proc s) (should_stop s) (should_reload s) p).

Section steps.
Context `{PropertyTree}.

Lemma uint64_nonneg z : 0 <= uint64 z.
Proof. unfold uint64. apply Z.mod_pos_bound. lia. Qed.

Lemma beyond_pool s j i k :
  asios_ (proc s) !! j = Some i -> asios_ (proc s) !! k = None -> (j < k)%nat.
Proof. intros Hj%lookup_lt_Some Hk%lookup_ge_None. lia. Qed.

Definition step_ok (s : main_state) (rpc : run_pc) : Prop :=
  wp (run_step rpc) (proc s)
    (fun rpc' p => main_inv (mkMain p (should_stop s) (should_reload s) (Running rpc')))
    (fun e => e = Waits) False.

(** The main thread is past the last instance. *)
Lemma past_pool_inv s rpc rpc' k :
  main_inv s -> pc s = Running rpc -> asios_ (proc s) !! k = None ->
  (forall j, (j < k)%nat -> phase_at (Running rpc') j = phase_at (Running rpc) j) ->
  main_inv (at_pc s (Running rpc')).
Proof.
  intros Hinv Hpc Hk Hphase. apply main_inv_goto; [done| |done].
  intros j i n Hj _ Hok. rewrite Hphase by eauto using beyond_pool. rewrite Hpc in Hok.
  eapply phase_ok_mono; [|exact Hok]. unfold signaled. by rewrite Hpc.
Qed.

Section run_step.
Variable s : main_state.
Variable rpc : run_pc.
Hypothesis Hinv : main_inv s.
Hypothesis Hpc : pc s = Running rpc.

Lemma signaled_running l p : signaled (with_pool s l (Running p)) = signaled s.
Proof. unfold signaled. simpl. by rewrite Hpc. Qed.

Lemma restarting_inv i : rpc = Restarting i -> step_ok s rpc.
Proof.
  intros Hi. unfold step_ok, run_step, wp, mbind, M_bind, gets, set_asios, modify. rewrite Hi.
  destruct (asios_ (proc s) !! i) as [inst|] eqn:Hlook; simpl.
  - apply (with_pool_inv s restart i); [done|done| | |done];
      rewrite Hpc, Hi, signaled_running.
    + intros i' n _ _. phases. simpl. intros [Hw Hr]. unfold working. simpl. rewrite Hw, Hr.
      pose proof (uint64_nonneg n). split_and!; try done; lia.
    + intros j i' n Hne. by phases.
  - eapply (past_pool_inv s rpc _ i); [done..|]. rewrite Hi. intros j Hj. by phases.
Qed.

Lemma spawning_inv i : rpc = Spawning i -> step_ok s rpc.
Proof.
  intros Hi. unfold step_ok, run_step, wp, mbind, M_bind, gets. rewrite Hi.
  destruct (asios_ (proc s) !! i) as [inst|] eqn:Hlook; simpl.
  2:{ eapply (past_pool_inv s rpc _ i); [done..|]. rewrite Hi. intros j Hj. by phases. }
  destruct (main_pool s Hinv i inst Hlook) as (n & Hn & Hok).
  unfold on_config. rewrite (int_value_eq _ _ n Hn). unfold set_asios, modify. simpl.
  rewrite Hpc, Hi in Hok. revert Hok. phases; intros [Hw Hle].
  - apply (with_pool_inv s emplace_worker i); [done|done| | |done];
      rewrite Hpc, Hi, signaled_running.
    + intros i' n' Hlook' Hn'. phases. simplify_eq. intros [(? & ? & ?) ?].
      split; [|simpl; lia]. unfold working. simpl. split_and!; auto with lia.
    + intros j i' n' Hne. by phases.
  - replace (mkProcess _ _) with (proc s) by by destruct (proc s).
    apply main_inv_goto; [done| |done]. rewrite Hpc, Hi. unfold signaled. simpl pc. rewrite Hpc.
    intros j i' n' Hj Hn'. phases. simplify_eq. intros [? ?]. split; [done|]. lia.
Qed.

Lemma joining_inv i : rpc = Joining i -> step_ok s rpc.
Proof.
  intros Hi. unfold step_ok, run_step, wp, mbind, M_bind, gets, set_asios, modify. rewrite Hi.
  destruct (asios_ (proc s) !! i) as [inst|] eqn:Hlook; simpl.
  2:{ eapply (past_pool_inv s rpc _ i); [done..|]. rewrite Hi. intros j Hj. by phases. }
  case_decide as Hrun; simpl; [|done].
  apply (with_pool_inv s clear_workers i); [done|done| | |done];
    rewrite Hpc, Hi, signaled_running.
  - intros i' n Hlook' _. phases. simplify_eq. intros [(Hle & Hst & Hfl) Hw]. simpl.
    split_and!; [done..|]. destruct (decide (uint64 n = 0)); [by right|left].
    apply Hfl, Hst. lia.
  - intros j i' n Hne. by phases.
Qed.

Lemma run_step_inv : rpc <> RunDone -> step_ok s rpc.
Proof.
  pose proof restarting_inv as Hr. pose proof spawning_inv as Hs. pose proof joining_inv as Hj.
  intros Hdone. destruct rpc; eauto. done.
Qed.
End run_step.

(** ** Any step *)

Lemma reload_inv read_info s :
  main_inv s -> pc s = Reloading ->
  wp (main_step read_info) s (fun _ s' => main_inv s') (fun e => e = Waits) False.
Proof.
  intros [Hc Hp He] Hpc. rewrite Hpc in He. unfold main_step, wp, mbind, M_bind, gets.
  rewrite Hpc. unfold on_proc, on_config. rewrite load_spec by done.
  destruct (read_info _) as [t|]; simpl; constructor; simpl; try done.
  - by apply inv_refreshed.
  - intros j i Hj. destruct (Hp j i Hj) as (n & Hn & Hok).
    destruct (thread_count_refreshed t _ _ _ Hn) as [n' Hn']. exists n'. split; [done|].
    rewrite Hpc in Hok. simpl in Hok. tauto.
  - intros j i Hj. destruct (Hp j i Hj) as (n & Hn & Hok). exists n. split; [done|].
    rewrite Hpc in Hok. simpl in *. unfold signaled. simpl. tauto.
  - auto.
Qed.

Lemma main_step_inv read_info s :
  main_inv s -> wp (main_step read_info) s (fun _ s' => main_inv s') (fun e => e = Waits) False.
Proof.
  intros Hinv. destruct (pc s) as [rpc| | | | |c] eqn:Hpc.
  - destruct (decide (rpc = RunDone)) as [->|Hdone].
    + unfold main_step, wp, mbind, M_bind, gets. rewrite Hpc. apply main_inv_goto; [done| |done].
      intros j i n _ _. unfold signaled. by rewrite Hpc.
    + pose proof (run_step_inv s rpc Hinv Hpc Hdone) as Hstep. unfold step_ok, wp in Hstep.
      unfold main_step, wp, mbind, M_bind, gets. rewrite Hpc.
      destruct rpc; [| | |done]; unfold on_proc; by destruct (run_step _ _).
  - unfold main_step, wp, mbind, M_bind, gets. rewrite Hpc. simpl.
    destruct (should_stop s) eqn:Hstop.
    + destruct Hinv as [Hc Hp He]. constructor; simpl; [done| |auto].
      intros j i Hj. destruct (Hp j i Hj) as (n & Hn & Hok). exists n. split; [done|].
      rewrite Hpc in Hok. revert Hok. unfold signaled. simpl. rewrite Hpc. tauto.
    + rewrite <- Hstop. apply main_inv_goto; [done| |done]. intros j i n _ _.
      unfold signaled. simpl. rewrite Hpc, Hstop. naive_solver.
  - unfold main_step, wp, mbind, M_bind, gets. rewrite Hpc. simpl.
    destruct Hinv as [Hc Hp He]. destruct (should_reload s) eqn:Hre.
    + constructor; simpl; [done| |done]. intros j i Hj. destruct (Hp j i Hj) as (n & Hn & Hok).
      exists n. split; [done|]. rewrite Hpc in Hok. simpl in *. unfold signaled in *. simpl.
      rewrite Hpc in Hok. naive_solver.
    + constructor; simpl; [done| |].
      * intros j i Hj. destruct (Hp j i Hj) as (n & Hn & Hok). exists n. split; [done|].
        rewrite Hpc in Hok. simpl in *. unfold signaled in *. simpl. rewrite Hpc in Hok. naive_solver.
      * right. right. split; [done|]. apply Forall_lookup. intros j i Hj.
        destruct (Hp j i Hj) as (n & Hn & Hok). rewrite Hn. simpl. f_equal.
        rewrite Hpc in Hok. simpl in Hok. unfold signaled in Hok. rewrite Hpc, Hre in Hok.
        by destruct Hok as (_ & _ & [|]).
  - by apply reload_inv.
  - unfold main_step, wp, mbind, M_bind, gets. rewrite Hpc. simpl.
    destruct Hinv as [Hc Hp He]. constructor; simpl; [done| |done].
    intros j i Hj. destruct (Hp j i Hj) as (n & Hn & Hok). exists n. split; [done|].
    rewrite Hpc in Hok. simpl in Hok. by phases.
  - unfold main_step, wp, mbind, M_bind, gets. by rewrite Hpc.
Qed.

Lemma signal_inv s b1 b2 :
  main_inv s -> (forall c, pc s <> Exited c) -> (should_stop s = true -> b1 = true) ->
  (should_reload s = true -> b2 = true) -> (b1 = true \/ b2 = true) ->
  main_inv (mkMain (mkProcess (config (proc s)) (stop_asio <$> asios_ (proc s))) b1 b2 (pc s)).
Proof.
  intros [Hc Hp He] Hpc Hb1 Hb2 Hb. constructor; simpl; [done| |].
  - intros j i. rewrite list_lookup_fmap. destruct (asios_ (proc s) !! j) as [i0|] eqn:Hj; [|done].
    intros [= <-]. destruct (Hp j i0 Hj) as (n & Hn & Hok). exists n.
    split; [by rewrite (thread_count_same _ _ i0)|].
    apply phase_ok_stop.
    + unfold signaled. simpl. destruct (pc s); auto.
    + eapply phase_ok_mono; [|exact Hok]. unfold signaled. simpl. destruct (pc s); tauto.
  - destruct (pc s); auto. by destruct (Hpc code).
Qed.

Lemma worker_leaves_inv s k :
  main_inv s -> (forall c, pc s <> Exited c) ->
  wp (on_proc (worker_leaves k)) s (fun _ s' => main_inv s') (fun e => e = Waits) False.
Proof.
  intros Hinv Hpc. unfold wp, on_proc, worker_leaves, mbind, M_bind, gets.
  destruct (asios_ (proc s) !! k) as [inst|] eqn:Hlook; [|done].
  case_decide as Hrun; [|done]. simpl. pose proof Hinv as [Hc Hp He].
  constructor; simpl; [done| |by destruct (pc s); auto; destruct (Hpc code)].
  apply (alter_pool (fun j i => exists n, thread_count (config (proc s)) i = Some n /\
           phase_ok (signaled s) n (phase_at (pc s) j) i)); [done| |done].
  intros i Hi (n & Hn & Hok). assert (i = inst) as -> by congruence. exists n.
  split; [by rewrite (thread_count_same _ _ inst)|].
  destruct Hrun. by apply phase_ok_leave.
Qed.

Lemma main_fire_inv l s :
  main_inv s -> wp (main_fire l) s (fun _ s' => main_inv s') (fun e => e = Waits) False.
Proof.
  intros Hinv. unfold main_fire. apply wp_bind, wp_gets.
  assert ((exists c, pc s = Exited c) \/ forall c, pc s <> Exited c) as [[c Hpc]|Hpc]
    by (destruct (pc s); naive_solver).
  { rewrite Hpc. by apply wp_throw. }
  assert (wp (match l with
              | MainStep read_info => main_step read_info
              | WorkerLeaves i => on_proc (worker_leaves i)
              | SigStop => sig_stop
              | SigReload => sig_reload
              end) s (fun _ s' => main_inv s') (fun e => e = Waits) False) as Hl.
  { destruct l; [by apply main_step_inv|by apply worker_leaves_inv| |].
    - apply (signal_inv s true (should_reload s)); auto.
    - apply (signal_inv s (should_stop s) true); auto. }
  destruct (pc s); try exact Hl. by destruct (Hpc code).
Qed.

Lemma main_steps_inv s ls s' : main_steps s ls s' -> main_inv s -> main_inv s'.
Proof.
  induction 1 as [|s l s1 ls s2 Hfire _ IH]; [done|]. intros Hinv. apply IH.
  pose proof (main_fire_inv l s Hinv) as Hwp. unfold wp in Hwp. by rewrite Hfire in Hwp.
Qed.

(** The pool as [main] makes it: no thread yet, and numbers of threads that live. *)
Definition new_pool (p : process) : Prop :=
  config_inv (config p) /\
  Forall (fun i => workers i = 0%nat /\ running i = 0%nat /\ is_Some (thread_count (config p) i))
    (asios_ p).

Lemma entered_inv p : new_pool p -> main_inv (entered p).
Proof.
  intros [Hc Hp]. constructor; simpl; [done| |done]. intros j i Hj.
  rewrite Forall_lookup in Hp. destruct (Hp j i Hj) as (? & ? & n & Hn). by exists n.
Qed.
End steps.
