(* ===== verification/FrontMainTheorems.v ===== *)
(** * What the front server's process guarantees

    The threads it starts, its exit code, and what becomes of a stop signal. *)
From stdpp Require Import gmap.
From S2P Require Import Prelude Message Config ConfigTheorems InfoTree AsioPool FrontMain MainInvariant.

Section theorems.
Context `{PropertyTree}.

(** The exit code. The process exits with 0 only after a stop signal; with 1 only when
    a reload was asked for (and the file could not be read), or when no instance of the
    pool has a thread. *)
Theorem exit_code p ls s c :
  new_pool p -> main_steps (entered p) ls s -> pc s = Exited c ->
  (c = 0 /\ should_stop s = true) \/ (c = 1 /\ should_reload s = true) \/
  (c = 1 /\ Forall (fun i => uint64 <$> thread_count (config (proc s)) i = Some 0) (asios_ (proc s))).
Proof.
  intros Hp Hsteps Hpc. pose proof (main_steps_inv _ _ _ Hsteps (entered_inv p Hp)) as [_ _ He].
  by rewrite Hpc in He.
Qed.

(** ** Stopping *)

Definition threads_running (s : main_state) : nat := sum_list (running <$> asios_ (proc s)).

(** Every instance is stopped. *)
Definition all_stopped (s : main_state) : Prop :=
  Forall (fun i => stopped i = true) (asios_ (proc s)).

Lemma sum_alter (f : AsioInstance -> AsioInstance) k l i :
  l !! k = Some i ->
  (sum_list (running <$> alter f k l) + running i =
   sum_list (running <$> l) + running (f i))%nat.
Proof.
  revert k. induction l as [|x l IH]; intros [|k]; simpl; try done; [intros [= ->]; lia|].
  intros Hk. specialize (IH k Hk). unfold fmap, alter in *. lia.
Qed.

Lemma alter_stopped (f : AsioInstance -> AsioInstance) k l :
  (forall i, stopped (f i) = stopped i) ->
  Forall (fun i => stopped i = true) l -> Forall (fun i => stopped i = true) (alter f k l).
Proof.
  intros Hf Hall. apply Forall_alter; [done|]. intros i _. by rewrite Hf.
Qed.

(** [s'] is [s] with another pool of as many stopped instances, at [p]. *)
Definition pool_changed (s s' : main_state) (p : main_pc) : Prop :=
  all_stopped s' /\ length (asios_ (proc s')) = length (asios_ (proc s)) /\
  config (proc s') = config (proc s) /\ should_stop s' = should_stop s /\
  should_reload s' = should_reload s /\ pc s' = p.

(** A thread leaves. *)
Lemma leave_stopped s k s' :
  all_stopped s -> on_proc (worker_leaves k) s = Ok tt s' ->
  pool_changed s s' (pc s) /\ (threads_running s' < threads_running s)%nat.
Proof.
  intros Hall. unfold on_proc, worker_leaves, mbind, M_bind, gets.
  destruct (asios_ (proc s) !! k) as [inst|] eqn:Hk; [|done]. case_decide as Hrun; [|done].
  intros [= <-]. pose proof (sum_alter leave_run k _ inst Hk) as Hsum. simpl in Hsum.
  unfold pool_changed, all_stopped, threads_running. simpl. rewrite length_alter.
  split_and!; try done; [by apply alter_stopped|lia].
Qed.

(** The main thread joins the threads of an instance, or is done with all of them. *)
Lemma join_stopped s i r s' :
  all_stopped s -> pc s = Running (Joining i) -> main_step r s = Ok tt s' ->
  (pool_changed s s' (Running (Joining (S i))) /\ (i < length (asios_ (proc s)))%nat /\
   threads_running s' = threads_running s) \/
  (pool_changed s s' (Running RunDone) /\ threads_running s' = threads_running s).
Proof.
  intros Hall Hp Hrun. unfold main_step, on_proc, run_step, mbind, M_bind, gets in Hrun.
  rewrite Hp in Hrun. destruct (asios_ (proc s) !! i) as [inst|] eqn:Hi.
  - case_decide as Hr; [|done]. injection Hrun as <-. left.
    pose proof (sum_alter clear_workers i _ inst Hi) as Hsum. simpl in Hsum.
    apply lookup_lt_Some in Hi as Hlt.
    unfold pool_changed, all_stopped, threads_running. simpl. rewrite length_alter.
    split_and!; try done; [by apply alter_stopped|lia].
  - injection Hrun as <-. right. by destruct s as [[] ].
Qed.

(** The next step at the joining of an instance: a thread leaves, or it is joined. *)
Lemma join_progress r s i :
  all_stopped s -> pc s = Running (Joining i) ->
  exists l s', is_signal l = false /\ main_fire l s = Ok tt s' /\
    (forall r', l = MainStep r' -> r' = r).
Proof.
  intros Hall Hp. unfold main_fire, mbind, M_bind, gets. rewrite Hp.
  destruct (asios_ (proc s) !! i) as [inst|] eqn:Hi.
  2:{ eexists (MainStep r), _. split; [done|]. split; [|by intros r' [= <-]].
      unfold main_step, on_proc, run_step, mbind, M_bind, gets. rewrite Hp, Hi. reflexivity. }
  destruct (decide (running inst = 0%nat)) as [Hr|Hr].
  - eexists (MainStep r), _. split; [done|]. split; [|by intros r' [= <-]].
    unfold main_step, on_proc, run_step, mbind, M_bind, gets. rewrite Hp, Hi, decide_True by done.
    reflexivity.
  - eexists (WorkerLeaves i), _. split; [done|]. split; [|done].
    unfold on_proc, worker_leaves, mbind, M_bind, gets. rewrite Hi, decide_True; [reflexivity|].
    unfold all_stopped in Hall. rewrite Forall_lookup in Hall. split; [by apply (Hall i)|lia].
Qed.

(** The steps left until the process has exited. *)
Definition steps_left (s : main_state) : nat :=
  threads_running s +
  match pc s with
  | Running (Joining i) => length (asios_ (proc s)) - i + 3
  | Running RunDone => 2
  | Returned => 1
  | _ => 0
  end.

(** Every instance is stopped and the main thread waits for the threads, or is past that. *)
Definition stopping (s : main_state) : Prop :=
  should_stop s = true /\ all_stopped s /\
  match pc s with
  | Running (Joining _) | Running RunDone | Returned => True
  | Exited c => c = 0
  | _ => False
  end.

Lemma stopping_leave s k s' :
  stopping s -> on_proc (worker_leaves k) s = Ok tt s' ->
  stopping s' /\ (steps_left s' < steps_left s)%nat.
Proof.
  intros (Hst & Hall & Hpc) Hrun.
  destruct (leave_stopped s k s' Hall Hrun) as [(Hall' & Hlen & _ & Hst' & _ & Hpc') Hlt].
  unfold stopping, steps_left. rewrite Hst', Hpc', Hlen. split; [by split_and!|lia].
Qed.

Lemma stopping_main s r s' :
  stopping s -> main_step r s = Ok tt s' -> (forall c, pc s <> Exited c) ->
  stopping s' /\ (steps_left s' < steps_left s)%nat.
Proof.
  intros (Hst & Hall & Hpc) Hrun Hne.
  destruct (pc s) as [[i|i|i|]| | | | |c] eqn:Hp; try done.
  - destruct (join_stopped s i r s' Hall Hp Hrun)
      as [[(Hall' & Hlen & _ & Hst' & _ & Hpc') [Hlt Heq]]|[(Hall' & Hlen & _ & Hst' & _ & Hpc') Heq]];
      unfold stopping, steps_left; rewrite Hst', Hpc', Hp, ?Hlen; (split; [by split_and!|lia]).
  - unfold main_step, mbind, M_bind, gets in Hrun. rewrite Hp in Hrun. injection Hrun as <-.
    split; [by split_and!|]. unfold steps_left, threads_running. simpl. rewrite Hp. lia.
  - unfold main_step, mbind, M_bind, gets in Hrun. rewrite Hp, Hst in Hrun. injection Hrun as <-.
    split; [by split_and!|]. unfold steps_left, threads_running. simpl. rewrite Hp. lia.
  - by destruct (Hne c).
Qed.
Lemma stopping_fire s l s' :
  stopping s -> is_signal l = false -> main_fire l s = Ok tt s' ->
  stopping s' /\ (steps_left s' < steps_left s)%nat.
Proof.
  intros Hs Hl Hfire. unfold main_fire, mbind, M_bind, gets in Hfire.
  assert (forall c, pc s <> Exited c) as Hne by (intros c Hc; by rewrite Hc in Hfire).
  destruct l; try done.
  - apply (stopping_main s read_info); [done| |done]. by destruct (pc s).
  - apply (stopping_leave s i); [done|]. by destruct (pc s).
Qed.

Lemma stopping_progress s :
  stopping s -> pc s = Exited 0 \/ exists l s', is_signal l = false /\ main_fire l s = Ok tt s'.
Proof.
  intros (Hst & Hall & Hpc).
  destruct (pc s) as [[i|i|i|]| | | | |c] eqn:Hp; try done; [| | |by left; subst c].
  { right. destruct (join_progress (fun _ => None) s i Hall Hp) as (l & s' & ? & ? & _). by exists l, s'. }
  all: right; unfold main_fire, mbind, M_bind, gets; rewrite Hp;
       eexists (MainStep (fun _ => None)), _; split; [done|];
       unfold main_step, mbind, M_bind, gets; rewrite Hp; reflexivity.
Qed.

Lemma stopping_steps s ls s' :
  main_steps s ls s' -> stopping s -> Forall (fun l => is_signal l = false) ls ->
  stopping s' /\ (length ls + steps_left s' <= steps_left s)%nat.
Proof.
  induction 1 as [|s l s1 ls s2 Hfire _ IH]; [by split|]. intros Hs [Hl Hls]%Forall_cons.
  destruct (stopping_fire s l s1 Hs Hl Hfire) as [Hs1 Hlt]. destruct (IH Hs1 Hls). simpl.
  split; [done|lia].
Qed.

(** C38: a stop signal ends the process. When it comes while the main thread joins the
    threads, then whatever order the threads leave in, the process takes no more steps than
    there are threads and instances left, and three, and never waits for ever: until it has
    exited with 0 there is a next step. *)
Theorem stop_exits s i s1 ls s2 :
  pc s = Running (Joining i) -> main_fire SigStop s = Ok tt s1 ->
  main_steps s1 ls s2 -> Forall (fun l => is_signal l = false) ls ->
  (length ls <= threads_running s + (length (asios_ (proc s)) - i) + 3)%nat /\
  (pc s2 = Exited 0 \/ exists l s3, is_signal l = false /\ main_fire l s2 = Ok tt s3).
Proof.
  intros Hpc Hfire Hsteps Hls.
  unfold main_fire, sig_stop, on_proc, stop, mbind, M_bind, gets in Hfire.
  rewrite Hpc in Hfire. injection Hfire as <-.
  assert (running <$> (stop_asio <$> asios_ (proc s)) = running <$> asios_ (proc s)) as Hrun
    by (rewrite <- list_fmap_compose; by apply list_fmap_ext).
  eapply stopping_steps in Hsteps as [Hs2 Hle]; [|split_and!|done].
  - split; [|by apply stopping_progress]. revert Hle. unfold steps_left at 2, threads_running.
    simpl. rewrite Hpc, Hrun, length_fmap. lia.
  - done.
  - simpl. apply Forall_fmap, Forall_true. by intros [].
  - simpl. by rewrite Hpc.
Qed.

(** ** A stop that is lost *)

(** The main thread is on its way to restart every instance, and those it has restarted
    since are not stopped. *)
Definition restarting (s : main_state) : Prop :=
  main_inv s /\
  (exists i n, asios_ (proc s) !! 0%nat = Some i /\
     thread_count (config (proc s)) i = Some n /\ uint64 n <> 0) /\
  match pc s with
  | Reloaded => True
  | Running (Restarting k) | Running (Spawning k) =>
      forall j i, asios_ (proc s) !! j = Some i -> phase_at (pc s) j <> Fresh -> stopped i = false
  | Running (Joining k) =>
      k = 0%nat /\ forall j i, asios_ (proc s) !! j = Some i -> stopped i = false
  | _ => False
  end.

(** A worker of an instance that is not stopped does not leave. *)
Lemma restarting_no_leave s k s' :
  restarting s -> on_proc (worker_leaves k) s <> Ok tt s'.
Proof.
  intros ([_ Hp _] & _ & Hpc). unfold on_proc, worker_leaves, mbind, M_bind, gets.
  destruct (asios_ (proc s) !! k) as [inst|] eqn:Hk; [|done]. case_decide as Hrun; [|done].
  destruct (Hp k inst Hk) as (n & _ & Hok). destruct Hrun as [Hst Hrun]. intros _.
  destruct (phase_at (pc s) k) eqn:Hph; simpl in Hok; try lia;
    destruct (pc s) as [[i|i|i|]| | | | |c] eqn:Hpcs; try done;
    first [rewrite (Hpc k inst Hk) in Hst; [done|congruence]
          |by rewrite (proj2 Hpc k inst Hk) in Hst].
Qed.
(** The first instance keeps its number of threads. *)
Lemma first_alter (f : AsioInstance -> AsioInstance) k (l : list AsioInstance) c :
  (forall i, threads (f i) = threads i) ->
  (exists i n, l !! 0%nat = Some i /\ thread_count c i = Some n /\ uint64 n <> 0) ->
  exists i n, alter f k l !! 0%nat = Some i /\ thread_count c i = Some n /\ uint64 n <> 0.
Proof.
  intros Hf (i & n & Hi & Hn & Hpos). destruct (decide (k = 0%nat)) as [->|Hk].
  - exists (f i), n. rewrite list_lookup_alter_eq, Hi. split_and!; [done| |done].
    by rewrite (thread_count_same _ _ i).
  - exists i, n. by rewrite list_lookup_alter_ne.
Qed.

(** What [main_step] does to the pool while it restarts it. *)
Lemma restarting_pool s rpc rpc' p' :
  main_inv s -> restarting s -> pc s = Running rpc -> run_step rpc (proc s) = Ok rpc' p' ->
  main_inv (mkMain p' (should_stop s) (should_reload s) (Running rpc')) ->
  restarting (mkMain p' (should_stop s) (should_reload s) (Running rpc')).
Proof.
  intros Hinv (_ & Hfirst & Hst) Hpc Hrun Hinv'. split; [done|]. rewrite Hpc in Hst.
  unfold run_step, mbind, M_bind, gets, set_asios, modify in Hrun.
  destruct rpc as [k|k|k|]; [| | |done]; destruct (asios_ (proc s) !! k) as [inst|] eqn:Hk.
  - injection Hrun as <- <-. split; [by apply first_alter|].
    refine (alter_pool (fun j i => phase_at (Running (Restarting k)) j <> Fresh -> stopped i = false)
              (fun j i => phase_at (Running (Spawning k)) j <> Fresh -> stopped i = false)
              restart k _ Hst _ _); [done|]. intros j i Hne. by phases.
  - injection Hrun as <- <-. split; [done|]. split; [done|]. intros j i Hj.
    pose proof (beyond_pool s j i k Hj Hk). apply (Hst j i Hj). by phases.
  - destruct (main_pool s Hinv k inst Hk) as (n & Hn & _).
    unfold on_config in Hrun. rewrite (int_value_eq _ _ n Hn) in Hrun. revert Hrun. simpl.
    case_decide; intros [= <- <-].
    + split; [by apply first_alter|].
      refine (alter_pool (fun j i => phase_at (Running (Spawning k)) j <> Fresh -> stopped i = false)
                _ emplace_worker k _ Hst _ (fun _ _ _ H => H)). intros i _ Hi. exact Hi.
    + split; [done|]. intros j i Hj. intros Hph. apply (Hst j i Hj). revert Hph. by phases.
  - injection Hrun as <- <-. split; [done|]. split; [done|]. intros j i Hj.
    pose proof (beyond_pool s j i k Hj Hk). apply (Hst j i Hj). by phases.
  - destruct Hst as [-> Hst]. destruct Hfirst as (i & n & Hi & Hn & Hpos).
    assert (i = inst) as -> by congruence.
    destruct (main_pool s Hinv 0%nat inst Hk) as (n' & Hn' & Hok). rewrite Hpc in Hok.
    simpl in Hok. destruct Hok as [(Hle & Hlt & _) Hw]. assert (n' = n) as -> by congruence.
    case_decide as Hr; [|done]. specialize (Hst 0%nat inst Hk).
    rewrite Hlt in Hst; [done|]. pose proof (uint64_nonneg n). lia.
  - destruct Hst as [-> _]. destruct Hfirst as (i & n & Hi & _). congruence.
Qed.
Lemma phase_restarting j : phase_at (Running (Restarting 0)) j = Fresh.
Proof. unfold phase_at. by rewrite decide_False by lia. Qed.

Lemma restarting_fire s l s' :
  restarting s -> is_signal l = false -> main_fire l s = Ok tt s' -> restarting s'.
Proof.
  intros Hr Hl Hfire. pose proof Hr as (Hinv & Hfirst & Hst).
  pose proof (main_fire_inv l s Hinv) as Hinv'. unfold wp in Hinv'. rewrite Hfire in Hinv'.
  unfold main_fire, mbind, M_bind, gets in Hfire.
  destruct l as [r|k| |]; try done.
  2:{ exfalso. apply (restarting_no_leave s k s' Hr). by destruct (pc s). }
  destruct (pc s) as [rpc| | | | |c] eqn:Hpc; try done; unfold main_step, mbind, M_bind, gets in Hfire;
    rewrite Hpc in Hfire.
  - assert (rpc <> RunDone) as Hdone by (intros ->; done).
    assert (exists rpc' p', run_step rpc (proc s) = Ok rpc' p' /\
              s' = mkMain p' (should_stop s) (should_reload s) (Running rpc')) as (rpc' & p' & Hrun & ->).
    { unfold on_proc in Hfire. destruct rpc; try done; destruct (run_step _ _) as [rpc' p'| |];
        try done; injection Hfire as <-; eauto. }
    by apply (restarting_pool s rpc).
  - injection Hfire as <-. split; [done|]. split; [done|]. intros j i _ [].
    apply phase_restarting.
Qed.

Lemma restarting_steps s ls s' :
  main_steps s ls s' -> restarting s -> Forall (fun l => is_signal l = false) ls -> restarting s'.
Proof.
  induction 1 as [|s l s1 ls s2 Hfire _ IH]; [done|]. intros Hs [Hl Hls]%Forall_cons.
  apply IH; [|done]. by eapply restarting_fire.
Qed.

(** C39: a signal can be lost. When a signal to stop or to reload comes after the tests of the
    loop and before the pool restarts its first instance - just before the first run, or
    while a reload ends - the process neither exits nor reads the file, whatever its threads
    do, until another signal comes: [restart] undoes the [stop] of the handler, and the flag
    is tested only after the pool has run. *)
Theorem signal_lost p ls s signal s1 ls' s2 :
  new_pool p -> main_steps (entered p) ls s ->
  (pc s = Reloaded \/ pc s = Running (Restarting 0)) ->
  (exists i n, asios_ (proc s) !! 0%nat = Some i /\
     thread_count (config (proc s)) i = Some n /\ uint64 n <> 0) ->
  is_signal signal = true -> main_fire signal s = Ok tt s1 ->
  main_steps s1 ls' s2 -> Forall (fun l => is_signal l = false) ls' ->
  (if signal is SigStop then should_stop s1 else should_reload s1) = true /\
  pc s2 <> Reloading /\ forall c, pc s2 <> Exited c.
Proof.
  intros Hp Hsteps Hpc (i & n & Hi & Hn & Hpos) Hsig Hfire Hsteps' Hls.
  pose proof (main_steps_inv _ _ _ Hsteps (entered_inv p Hp)) as Hinv.
  pose proof (main_fire_inv signal s Hinv) as Hinv1. unfold wp in Hinv1. rewrite Hfire in Hinv1.
  assert (exists b1 b2, s1 = mkMain (mkProcess (config (proc s)) (stop_asio <$> asios_ (proc s))) b1 b2 (pc s) /\
    (if signal is SigStop then b1 else b2) = true) as (b1 & b2 & -> & Hflag).
  { unfold main_fire, mbind, M_bind, gets in Hfire. destruct signal; try done;
      destruct Hpc as [Hpc|Hpc]; rewrite Hpc in Hfire; injection Hfire as <-; rewrite Hpc;
      eexists _, _; (split; [reflexivity|done]). }
  split; [by destruct signal|]. eapply restarting_steps in Hsteps' as (_ & _ & Hst); [| |done].
  - by destruct (pc s2).
  - split; [done|]. split.
    + exists (stop_asio i), n. simpl. rewrite list_lookup_fmap, Hi. by split_and!.
    + simpl. destruct Hpc as [Hpc|Hpc]; rewrite Hpc; [done|]. intros j i' _ [].
      apply phase_restarting.
Qed.

(** ** Starting the threads *)

(** [k] steps of the main thread in [AsioPool::run]. *)
Fixpoint run_many (k : nat) (rpc : run_pc) : M pool_fault process run_pc :=
  match k with
  | O => mret rpc
  | S k' => rpc' ← run_step rpc; run_many k' rpc'
  end.

Lemma run_many_add k1 k2 rpc rpc' rpc'' p p' p'' :
  run_many k1 rpc p = Ok rpc' p' -> run_many k2 rpc' p' = Ok rpc'' p'' ->
  run_many (k1 + k2) rpc p = Ok rpc'' p''.
Proof.
  revert rpc p. induction k1 as [|k1 IH]; simpl; intros rpc p Hrun1 Hrun2.
  - by injection Hrun1 as -> ->.
  - unfold mbind, M_bind in *. destruct (run_step rpc p) as [r q| |]; try done. by apply IH.
Qed.

(** An instance restarted, with [w] threads. *)
Definition with_workers (i : AsioInstance) (w : nat) : AsioInstance :=
  mkAsioInstance (name i) (threads i) false w w.

(** The threads asked for, as the [size_t] they are compared with. *)
Definition asked (n : Z) : nat := Z.to_nat (uint64 n).

Lemma spawn_all c l i l' n d w :
  thread_count c i = Some n -> (w + d = asked n)%nat ->
  run_many (d + 1) (Spawning (length l)) (mkProcess c (l ++ with_workers i w :: l')) =
  Ok (Restarting (S (length l))) (mkProcess c (l ++ with_workers i (asked n) :: l')).
Proof.
  intros Hn. unfold asked. pose proof (uint64_nonneg n) as Hpos. revert w.
  induction d as [|d IH]; intros w Hw; simpl; unfold mbind at 1, M_bind at 1, run_step;
    unfold mbind, M_bind, gets; simpl; rewrite list_lookup_middle by done;
    unfold on_config; simpl; rewrite (int_value_eq c i n Hn).
  - rewrite decide_False by lia. simpl. by replace (Z.to_nat (uint64 n)) with w by lia.
  - rewrite decide_True by lia. simpl. rewrite alter_app_r_alt by lia.
    rewrite Nat.sub_diag. simpl. apply (IH (S w)). lia.
Qed.

Lemma start_all c l l' ns :
  Forall2 (fun i n => thread_count c i = Some n) l' ns ->
  Forall (fun i => workers i = 0%nat /\ running i = 0%nat) l' ->
  run_many (sum_list (asked <$> ns) + 2 * length l' + 1) (Restarting (length l)) (mkProcess c (l ++ l')) =
  Ok (Joining 0) (mkProcess c (l ++ zip_with with_workers l' (asked <$> ns))).
Proof.
  intros Hns. revert l. induction Hns as [|i n l' ns Hn Hns IH]; intros l Hfresh.
  - simpl. unfold mbind, M_bind, run_step, gets. unfold mbind, M_bind. simpl.
    by rewrite app_nil_r, lookup_ge_None_2 by lia.
  - apply Forall_cons in Hfresh as [[Hw Hr] Hfresh].
    replace (sum_list (asked <$> n :: ns) + 2 * length (i :: l') + 1)%nat
      with (S (asked n + 1 + (sum_list (asked <$> ns) + 2 * length l' + 1)))%nat
      by (rewrite fmap_cons; simpl; lia).
    simpl run_many. unfold mbind at 1, M_bind at 1. unfold run_step at 1, mbind at 1, M_bind at 1, gets.
    simpl. rewrite list_lookup_middle by done. simpl. rewrite alter_app_r_alt by lia.
    rewrite Nat.sub_diag. simpl.
    assert (restart i = with_workers i 0) as ->.
    { destruct i. simpl in *. by subst. }
    eapply run_many_add; [by apply (spawn_all c l i l' n (asked n) 0)|].
    specialize (IH (l ++ [with_workers i (asked n)]) Hfresh).
    rewrite <- !app_assoc, length_app in IH. simpl length in IH.
    rewrite (Nat.add_1_r (length l)) in IH. exact IH.
Qed.

(** C34: the pool starts the threads it is asked for. From the beginning of
    [AsioPool::run], with no thread left, the main thread reaches the joining of the first
    instance in a number of steps that depends on the configuration only; every instance is
    then restarted and has as many threads as its value says - read as a [size_t], so that
    minus one asks for two to the sixty-fourth less one of them. *)
Theorem pool_starts p ns :
  Forall2 (fun i n => thread_count (config p) i = Some n) (asios_ p) ns ->
  Forall (fun i => workers i = 0%nat /\ running i = 0%nat) (asios_ p) ->
  run_many (sum_list (asked <$> ns) + 2 * length (asios_ p) + 1) (Restarting 0) p =
  Ok (Joining 0) (mkProcess (config p) (zip_with with_workers (asios_ p) (asked <$> ns))).
Proof. destruct p as [c l']. apply (start_all c []). Qed.
End theorems.

(** ** Witnesses *)

(** One instance, of one thread. *)
Definition one_config : config_state :=
  mkConfig (Info [] []) false {[1%positive]}
    {[1%positive := ConfigIntValue (str "front.threads") 1 1]}.

Definition one_instance (stopped : bool) (workers running : nat) : AsioInstance :=
  mkAsioInstance (str "front") 1 stopped workers running.

Definition one_pool (stopped : bool) (workers running : nat) : process :=
  mkProcess one_config [one_instance stopped workers running].

Lemma one_new_pool : new_pool (one_pool false 0 0).
Proof.
  split; [|by repeat constructor; eexists].
  apply reaches_inv.
  apply (reaches_op initial_config (NewInt 1 (str "front.threads") 1)); [|reflexivity..].
  apply reaches_initial.
Qed.

Definition main_thread : main_label := MainStep (fun _ : bytes => @None info).

(** The process with the stop flag [stop], at [p]. *)
Definition one (stopped : bool) (workers running : nat) (stop : bool) (p : main_pc) : main_state :=
  mkMain (one_pool stopped workers running) stop false p.

(** The pool starts its thread, a stop signal comes, the thread leaves. *)
Definition to_exit : list main_label :=
  replicate 4 main_thread ++ [SigStop; WorkerLeaves 0] ++ replicate 4 main_thread.

Lemma one_exits :
  main_steps (entered (one_pool false 0 0)) to_exit (one true 0 0 true (Exited 0)).
Proof.
  apply (main_steps_cons _ _ (one false 0 0 false (Running (Spawning 0)))); [reflexivity|].
  apply (main_steps_cons _ _ (one false 1 1 false (Running (Spawning 0)))); [reflexivity|].
  apply (main_steps_cons _ _ (one false 1 1 false (Running (Restarting 1)))); [reflexivity|].
  apply (main_steps_cons _ _ (one false 1 1 false (Running (Joining 0)))); [reflexivity|].
  apply (main_steps_cons _ _ (one true 1 1 true (Running (Joining 0)))); [reflexivity|].
  apply (main_steps_cons _ _ (one true 1 0 true (Running (Joining 0)))); [reflexivity|].
  apply (main_steps_cons _ _ (one true 0 0 true (Running (Joining 1)))); [reflexivity|].
  apply (main_steps_cons _ _ (one true 0 0 true (Running RunDone))); [reflexivity|].
  apply (main_steps_cons _ _ (one true 0 0 true Returned)); [reflexivity|].
  apply (main_steps_cons _ _ (one true 0 0 true (Exited 0))); [reflexivity|].
  apply main_steps_nil.
Qed.

Lemma exit_code_witness :
  let s := one true 0 0 true (Exited 0) in
  (0 = 0 /\ should_stop s = true) \/ (0 = 1 /\ should_reload s = true) \/
  (0 = 1 /\ Forall (fun i => uint64 <$> thread_count (config (proc s)) i = Some 0) (asios_ (proc s))).
Proof. exact (exit_code _ _ _ 0 one_new_pool one_exits eq_refl). Defined.

Lemma one_leaves :
  main_steps (one true 1 1 true (Running (Joining 0))) [WorkerLeaves 0]
    (one true 1 0 true (Running (Joining 0))).
Proof. eapply main_steps_cons; [reflexivity|apply main_steps_nil]. Qed.

Lemma stop_exits_witness :
  let s := one false 1 1 false (Running (Joining 0)) in
  let s2 := one true 1 0 true (Running (Joining 0)) in
  (length [WorkerLeaves 0] <= threads_running s + (length (asios_ (proc s)) - 0) + 3)%nat /\
  (pc s2 = Exited 0 \/ exists l s3, is_signal l = false /\ main_fire l s2 = Ok tt s3).
Proof.
  refine (stop_exits (one false 1 1 false (Running (Joining 0))) 0 _ _ _ eq_refl eq_refl
            one_leaves _). by repeat constructor.
Defined.

Lemma one_thread :
  exists i n, asios_ (one_pool false 0 0) !! 0%nat = Some i /\
    thread_count one_config i = Some n /\ uint64 n <> 0.
Proof. eexists _, 1. split; [reflexivity|]. by split. Qed.

Lemma one_restarts :
  main_steps (one true 0 0 true (Running (Restarting 0))) [main_thread]
    (one false 0 0 true (Running (Spawning 0))).
Proof. eapply main_steps_cons; [reflexivity|apply main_steps_nil]. Qed.

(** A stop signal before anything has run. *)
Lemma signal_lost_witness :
  should_stop (one true 0 0 true (Running (Restarting 0))) = true /\
  pc (one false 0 0 true (Running (Spawning 0))) <> Reloading /\
  forall c, pc (one false 0 0 true (Running (Spawning 0))) <> Exited c.
Proof.
  refine (signal_lost (one_pool false 0 0) [] (entered (one_pool false 0 0)) SigStop _ _ _ one_new_pool
            (main_steps_nil _) (or_intror eq_refl) one_thread eq_refl eq_refl one_restarts _).
  by repeat constructor.
Defined.

Lemma pool_starts_witness :
  run_many 4 (Restarting 0) (one_pool false 0 0) = Ok (Joining 0) (one_pool false 1 1).
Proof. apply (pool_starts (one_pool false 0 0) [1]); by repeat constructor. Defined.
