(* ===== verification/FrontReload.v ===== *)
(** * A reload takes effect

    From the signal to the pool running again, with the file that was read. *)
From stdpp Require Import gmap.
From S2P Require Import Prelude Message Config ConfigTheorems InfoTree AsioPool FrontMain MainInvariant FrontMainTheorems.

Section reload.
Context `{PropertyTree}.

(** The file reads as [t], and no signal comes. *)
Definition reads (t : ptree) (l : main_label) : Prop :=
  match l with
  | MainStep read_info => read_info (str "config.info") = Some t
  | WorkerLeaves _ => True
  | SigStop | SigReload => False
  end.

(** A reload is under way, and no stop. *)
Record reloading (t : ptree) (s : main_state) : Prop := {
  reloading_inv : main_inv s;
  reloading_stop : should_stop s = false;
  reloading_reload : should_reload s = true;
  reloading_pool : all_stopped s;
  reloading_pc : match pc s with
    | Running (Joining _) | Running RunDone | Returned | TestReload | Reloading => True
    | Reloaded => config_tree (config (proc s)) = t
    | _ => False
    end;
}.

(** The pool is about to be run again, with the tree [t] and without a thread. *)
Definition restarted (t : ptree) (s : main_state) : Prop :=
  main_inv s /\ pc s = Running (Restarting 0) /\ config_tree (config (proc s)) = t /\
  should_reload s = false /\ should_stop s = false /\
  Forall (fun i => workers i = 0%nat /\ running i = 0%nat) (asios_ (proc s)).

(** The steps left until then. *)
Definition reload_left (s : main_state) : nat :=
  threads_running s +
  match pc s with
  | Running (Joining i) => length (asios_ (proc s)) - i + 6
  | Running RunDone => 5
  | Returned => 4
  | TestReload => 3
  | Reloading => 2
  | Reloaded => 1
  | _ => 0
  end.

Lemma restarted_fresh s :
  main_inv s -> pc s = Running (Restarting 0) ->
  Forall (fun i => workers i = 0%nat /\ running i = 0%nat) (asios_ (proc s)).
Proof.
  intros Hinv Hpc. apply Forall_lookup. intros k i Hi.
  destruct (main_pool s Hinv k i Hi) as (n & _ & Hok). rewrite Hpc, phase_restarting in Hok.
  exact Hok.
Qed.

Lemma reloading_main t r s s' :
  reloading t s -> main_inv s' -> r (str "config.info") = Some t -> main_step r s = Ok tt s' ->
  (reloading t s' \/ restarted t s') /\ (reload_left s' < reload_left s)%nat.
Proof.
  intros [Hinv Hst Hre Hall Hpc] Hinv' Hr Hrun.
  destruct (pc s) as [[i|i|i|]| | | | |c] eqn:Hp; try done.
  - destruct (join_stopped s i r s' Hall Hp Hrun)
      as [[(Hall' & Hlen & _ & Hst' & Hre' & Hpc') [Hlt Heq]]|[(Hall' & Hlen & _ & Hst' & Hre' & Hpc') Heq]];
      (split; [left; constructor; rewrite ?Hst', ?Hre', ?Hpc'; done|]);
      unfold reload_left; rewrite Hpc', Hp, ?Hlen; lia.
  - unfold main_step, mbind, M_bind, gets in Hrun. rewrite Hp in Hrun. injection Hrun as <-.
    split; [by left|]. unfold reload_left, threads_running. simpl. rewrite Hp. lia.
  - unfold main_step, mbind, M_bind, gets in Hrun. rewrite Hp, Hst in Hrun. injection Hrun as <-.
    split; [left; by constructor|]. unfold reload_left, threads_running. simpl. rewrite Hp. lia.
  - unfold main_step, mbind, M_bind, gets in Hrun. rewrite Hp, Hre in Hrun. injection Hrun as <-.
    split; [left; by constructor|]. unfold reload_left, threads_running. simpl. rewrite Hp. lia.
  - unfold main_step, on_proc, on_config, mbind, M_bind, gets in Hrun. rewrite Hp in Hrun.
    rewrite load_spec in Hrun by apply Hinv. rewrite decide_True in Hrun by done.
    rewrite Hr in Hrun. injection Hrun as <-.
    split; [left; by constructor|]. unfold reload_left, threads_running. simpl. rewrite Hp. lia.
  - unfold main_step, mbind, M_bind, gets in Hrun. rewrite Hp in Hrun. injection Hrun as <-.
    split; [right; split_and!; try done; by apply restarted_fresh|].
    unfold reload_left, threads_running. simpl. rewrite Hp. lia.
Qed.

Lemma reloading_fire t l s s' :
  reloading t s -> reads t l -> main_fire l s = Ok tt s' ->
  (reloading t s' \/ restarted t s') /\ (reload_left s' < reload_left s)%nat.
Proof.
  intros Hs Hl Hfire. pose proof (main_fire_inv l s (reloading_inv _ _ Hs)) as Hinv'.
  unfold wp in Hinv'. rewrite Hfire in Hinv'.
  unfold main_fire, mbind, M_bind, gets in Hfire. destruct l as [r|k| |]; try done.
  - apply (reloading_main t r s s'); [done..|]. by destruct (pc s).
  - assert (on_proc (worker_leaves k) s = Ok tt s') as Hrun by (by destruct (pc s)).
    destruct Hs as [_ Hst Hre Hall Hpc].
    destruct (leave_stopped s k s' Hall Hrun) as [(Hall' & Hlen & Hc & Hst' & Hre' & Hpc') Hlt].
    split; [|unfold reload_left; rewrite Hpc', Hlen; lia].
    left. constructor; rewrite ?Hst', ?Hre', ?Hpc'; try done. by rewrite Hc.
Qed.

Lemma reloading_progress t s :
  reloading t s -> exists l s', reads t l /\ main_fire l s = Ok tt s'.
Proof.
  intros [Hinv Hst Hre Hall Hpc].
  destruct (pc s) as [[i|i|i|]| | | | |c] eqn:Hp; try done.
  { destruct (join_progress (fun _ => Some t) s i Hall Hp) as (l & s' & Hl & Hrun & Hread).
    exists l, s'. split; [|done]. destruct l; try done. simpl. by rewrite (Hread read_info). }
  all: exists (MainStep (fun _ => Some t)); unfold main_fire, mbind, M_bind, gets; rewrite Hp;
       unfold main_step, on_proc, on_config, mbind, M_bind, gets; rewrite Hp;
       try rewrite load_spec by apply Hinv; eexists; (split; [done|reflexivity]).
Qed.

Lemma reloading_steps t s ls s' :
  main_steps s ls s' -> reloading t s -> Forall (reads t) ls ->
  (exists ls1 ls2 s1, ls = ls1 ++ ls2 /\ (length ls1 <= reload_left s)%nat /\
     main_steps s ls1 s1 /\ main_steps s1 ls2 s' /\ restarted t s1) \/
  (reloading t s' /\ (length ls + reload_left s' <= reload_left s)%nat).
Proof.
  induction 1 as [s|s l s1 ls s2 Hfire Hsteps IH]; intros Hs Hls; [by right|].
  apply Forall_cons in Hls as [Hl Hls].
  destruct (reloading_fire t l s s1 Hs Hl Hfire) as [[Hs1|Hs1] Hlt].
  - destruct (IH Hs1 Hls) as [(ls1 & ls2 & s3 & -> & Hlen & H1 & H2 & H3)|[Hs2 Hle]].
    + left. exists (l :: ls1), ls2, s3. simpl. split_and!; [done|lia| |done..].
      by apply (main_steps_cons _ _ s1).
    + right. simpl. split; [done|lia].
  - left. exists [l], ls, s1. simpl. split_and!; [done|lia| |done..].
    apply (main_steps_cons _ _ s1); [done|apply main_steps_nil].
Qed.

(** C37: a reload takes effect. When the signal comes while the main thread joins the threads,
    no stop was asked for, and the file reads as [t], then whatever order the threads leave
    in, the process comes to the point where the pool runs again in no more steps than there
    are threads and instances left, and six, and never waits for ever before it: the tree is
    then [t], the reload is no longer asked for, and no thread of the old run is left. *)
Theorem reload_takes_effect p ls0 s i t s1 ls s2 :
  new_pool p -> main_steps (entered p) ls0 s -> pc s = Running (Joining i) ->
  should_stop s = false -> main_fire SigReload s = Ok tt s1 ->
  main_steps s1 ls s2 -> Forall (reads t) ls ->
  (exists ls1 ls2 s3, ls = ls1 ++ ls2 /\
     (length ls1 <= threads_running s + (length (asios_ (proc s)) - i) + 6)%nat /\
     main_steps s1 ls1 s3 /\ main_steps s3 ls2 s2 /\ restarted t s3) \/
  ((length ls <= threads_running s + (length (asios_ (proc s)) - i) + 6)%nat /\
   exists l s3, reads t l /\ main_fire l s2 = Ok tt s3).
Proof.
  intros Hp Hsteps0 Hpc Hst Hfire Hsteps Hls.
  pose proof (main_steps_inv _ _ _ Hsteps0 (entered_inv p Hp)) as Hinv.
  pose proof (main_fire_inv SigReload s Hinv) as Hinv1. unfold wp in Hinv1. rewrite Hfire in Hinv1.
  assert (reloading t s1 /\
    reload_left s1 = threads_running s + (length (asios_ (proc s)) - i) + 6)%nat as [Hs1 Hleft].
  { unfold main_fire, sig_reload, on_proc, stop, mbind, M_bind, gets in Hfire.
    rewrite Hpc in Hfire. injection Hfire as <-.
    assert (running <$> (stop_asio <$> asios_ (proc s)) = running <$> asios_ (proc s)) as Hrun
      by (rewrite <- list_fmap_compose; by apply list_fmap_ext).
    split.
    - constructor; simpl; [exact Hinv1|exact Hst|done| |by rewrite Hpc].
      unfold all_stopped. simpl. apply Forall_fmap, Forall_true. by intros [].
    - unfold reload_left, threads_running. simpl. rewrite Hpc, Hrun, length_fmap. lia. }
  destruct (reloading_steps t s1 ls s2 Hsteps Hs1 Hls) as [(ls1 & ls2 & s3 & -> & Hlen & Hafter)|[Hs2 Hle]].
  - left. exists ls1, ls2, s3. rewrite <- Hleft. split; [done|]. by split.
  - right. split; [lia|]. by apply reloading_progress.
Qed.
End reload.

(** ** Witness: the thread leaves, and the pool is run again with a file of two threads. *)

Definition two_threads : info :=
  Info [] [(str "front", Info [] [(str "threads", Info (str "2") [])])].

Definition main_reads : main_label := MainStep (fun _ => Some two_threads).

(** The process with one instance, of [n] threads by the tree [file], [k] of them running. *)
Definition reload_state (file : info) (n : Z) (stopped : bool) (k : nat) (w : nat)
    (reload : bool) (p : main_pc) : main_state :=
  mkMain (mkProcess (mkConfig file false {[1%positive]}
            {[1%positive := ConfigIntValue (str "front.threads") 1 n]})
            [one_instance stopped w k]) false reload p.

Definition before_reload : list main_label := replicate 4 main_reads.

Lemma before_reload_steps :
  main_steps (entered (one_pool false 0 0)) before_reload
    (reload_state (Info [] []) 1 false 1 1 false (Running (Joining 0))).
Proof.
  apply (main_steps_cons _ _ (one false 0 0 false (Running (Spawning 0)))); [reflexivity|].
  apply (main_steps_cons _ _ (one false 1 1 false (Running (Spawning 0)))); [reflexivity|].
  apply (main_steps_cons _ _ (one false 1 1 false (Running (Restarting 1)))); [reflexivity|].
  apply (main_steps_cons _ _ (one false 1 1 false (Running (Joining 0)))); [reflexivity|].
  apply main_steps_nil.
Qed.

(** Until the main thread is about to read the file. *)
Definition to_reload : list main_label :=
  [WorkerLeaves 0; main_reads; main_reads; main_reads; main_reads; main_reads].

Lemma to_reload_steps :
  main_steps (reload_state (Info [] []) 1 true 1 1 true (Running (Joining 0))) to_reload
    (reload_state (Info [] []) 1 true 0 0 true Reloading).
Proof.
  apply (main_steps_cons _ _ (reload_state (Info [] []) 1 true 0 1 true (Running (Joining 0)))); [reflexivity|].
  apply (main_steps_cons _ _ (reload_state (Info [] []) 1 true 0 0 true (Running (Joining 1)))); [reflexivity|].
  apply (main_steps_cons _ _ (reload_state (Info [] []) 1 true 0 0 true (Running RunDone))); [reflexivity|].
  apply (main_steps_cons _ _ (reload_state (Info [] []) 1 true 0 0 true Returned)); [reflexivity|].
  apply (main_steps_cons _ _ (reload_state (Info [] []) 1 true 0 0 true TestReload)); [reflexivity|].
  apply (main_steps_cons _ _ (reload_state (Info [] []) 1 true 0 0 true Reloading)); [reflexivity|].
  apply main_steps_nil.
Qed.

Lemma reload_takes_effect_witness :
  let s := reload_state (Info [] []) 1 false 1 1 false (Running (Joining 0)) in
  let s1 := reload_state (Info [] []) 1 true 1 1 true (Running (Joining 0)) in
  let s2 := reload_state (Info [] []) 1 true 0 0 true Reloading in
  (exists ls1 ls2 s3, to_reload = ls1 ++ ls2 /\
     (length ls1 <= threads_running s + (length (asios_ (proc s)) - 0) + 6)%nat /\
     main_steps s1 ls1 s3 /\ main_steps s3 ls2 s2 /\ restarted two_threads s3) \/
  ((length to_reload <= threads_running s + (length (asios_ (proc s)) - 0) + 6)%nat /\
   exists l s3, reads two_threads l /\ main_fire l s2 = Ok tt s3).
Proof.
  refine (reload_takes_effect (one_pool false 0 0) before_reload _ 0 two_threads _ to_reload _
            one_new_pool before_reload_steps eq_refl eq_refl eq_refl to_reload_steps _).
  by repeat constructor.
Defined.

(** Two more steps, and the instance is to have two threads. *)
Example reloaded_threads :
  main_steps (reload_state (Info [] []) 1 true 0 0 true Reloading) [main_reads; main_reads]
    (reload_state two_threads 2 true 0 0 false (Running (Restarting 0))).
Proof.
  apply (main_steps_cons _ _ (reload_state two_threads 2 true 0 0 true Reloaded)); [reflexivity|].
  apply (main_steps_cons _ _ (reload_state two_threads 2 true 0 0 false (Running (Restarting 0)))); [reflexivity|].
  apply main_steps_nil.
Qed.
