(* ===== verification/Acceptor.v ===== *)
(** * Listening sockets

    What [server/common/src/cluster/ClusterAcceptor.cpp] and
    [server/front/src/ws/WsAcceptor.cpp] share: an acceptor of Boost.Asio, opened with the
    values of a configuration group, and the one operation it has pending. *)
From S2P Require Import Prelude Message ErrorCode Config.

(** Addresses, and [make_address], which throws on a text that is none. *)
Class AsioNet := {
  ip_address : Type;
  make_address : bytes -> option ip_address;
}.

(** For the examples: every text is an address. *)
Definition any_address : AsioNet := {| ip_address := bytes; make_address t := Some t |}.

(** [unsigned short] *)
Definition uint16 (z : Z) : Z := z mod 2 ^ 16.

(** What a pending wait calls when the timer expires; its error code is not looked at. *)
Inductive continuation := call_open | call_accept_next | call_on_timer_reopen.

Inductive acceptor_op :=
| AsyncAccept
| AsyncWait (k : continuation) (milliseconds : Z).

#[export] Instance continuation_eq_dec : EqDecision continuation.
Proof. solve_decision. Defined.
#[export] Instance acceptor_op_eq_dec : EqDecision acceptor_op.
Proof. solve_decision. Defined.

(** An exception that leaves a handler: [std::terminate]. *)
Inductive exception :=
| SystemError (ec : error_code)
| BadAddress (text : bytes)
| Connection (f : fault).

(** How the calls of one [open] end. *)
Record open_answers := mkOpenAnswers {
  set_option_ec : error_code;
  open_ec : error_code;
  bind_ec : error_code;
  listen_ec : error_code;
  (** of the [close] after [bind] or [listen] failed *)
  close_ec : error_code;
}.

Section acceptor.
Context `{PropertyTree, AsioNet}.

Inductive acceptor_event :=
| Bound (address : ip_address) (port : Z)
| Listening
| Closed.

Record acceptor := mkAcceptor {
  group : ConfigGroup;
  acceptor_is_open : bool;
  acceptor_pending : list acceptor_op;
  acceptor_trace : list acceptor_event;
}.

(** The constructor. *)
Definition new_acceptor (g : ConfigGroup) : acceptor := mkAcceptor g false [] [].

Definition is_open_as (b : bool) (es : list acceptor_event) (a : acceptor) : acceptor :=
  mkAcceptor (group a) b (acceptor_pending a) (acceptor_trace a ++ es).

Definition with_op (op : acceptor_op) (a : acceptor) : acceptor :=
  mkAcceptor (group a) (acceptor_is_open a) (acceptor_pending a ++ [op]) (acceptor_trace a).

(** The block of [open] that ends with [while (false)]: the last value of [ec], and the
    acceptor. [close(ec)] sets [ec] too. *)
Definition open_socket (reuse_addr : bool) (endpoint : ip_address * Z) (r : open_answers)
    (a : acceptor) : error_code * acceptor :=
  if reuse_addr && failed (set_option_ec r) then (set_option_ec r, a)
  else if failed (open_ec r) then (open_ec r, a)
  else if failed (bind_ec r) then (close_ec r, is_open_as false [Closed] a)
  else if failed (listen_ec r) then
    (close_ec r, is_open_as false [Bound endpoint.1 endpoint.2; Closed] a)
  else (listen_ec r, is_open_as true [Bound endpoint.1 endpoint.2; Listening] a).

(** What Boost.Asio and the system answer: no option is set on, and nothing accepted from,
    an acceptor that is not open; one that is open is not opened again; and closing one
    that is open succeeds. *)
Definition lawful_open (r : open_answers) (a : acceptor) : Prop :=
  (acceptor_is_open a = false -> failed (set_option_ec r) = true) /\
  (acceptor_is_open a = true -> failed (open_ec r) = true) /\
  failed (close_ec r) = false.

(** The values of a group, read through temporaries. *)
Definition config_string (t : ptree) (g : ConfigGroup) (key : string) (d : bytes) : bytes :=
  ptree_get ptree_string t (sub_path g (str key)) d.
Definition config_int (t : ptree) (g : ConfigGroup) (key : string) (d : Z) : Z :=
  ptree_get ptree_int t (sub_path g (str key)) d.
Definition config_bool (t : ptree) (g : ConfigGroup) (key : string) (d : bool) : bool :=
  ptree_get ptree_bool t (sub_path g (str key)) d.

(** The endpoint of a group. *)
Definition endpoint_of (t : ptree) (g : ConfigGroup) (default_ip : bytes) (default_port : Z)
    : exception + (ip_address * Z) :=
  let text := config_string t g "ip" default_ip in
  match make_address text with
  | Some address => inr (address, uint16 (config_int t g "port" default_port))
  | None => inl (BadAddress text)
  end.
End acceptor.
