(* ===== verification/ClusterAcceptor.v ===== *)
(** * The acceptor of the cluster

    [server/common/src/cluster/ClusterAcceptor.cpp]. *)
From S2P Require Import Prelude Message ErrorCode Config ClusterConnection Acceptor.

Section cluster_acceptor.
Context `{PropertyTree, AsioNet, AsioErrors}.

Record ClusterAcceptor := mkClusterAcceptor {
  acceptor_ : acceptor;
  safe_link_ : bool;
  (** the connections it has made, oldest first *)
  peers : list world;
  (** the tree of the configuration *)
  config_tree_ : ptree;
}.

Abbreviation A := (M exception ClusterAcceptor).

Definition default_listen_ip : bytes := str "127.0.0.1".
Definition default_listen_port : Z := 17001.

Definition set_acceptor (a : acceptor) : A unit :=
  modify (fun w => mkClusterAcceptor a (safe_link_ w) (peers w) (config_tree_ w)).
Definition set_safe_link (b : bool) : A unit :=
  modify (fun w => mkClusterAcceptor (acceptor_ w) b (peers w) (config_tree_ w)).

Definition accept_next : A unit :=
  a ← gets acceptor_;
  set_acceptor (with_op AsyncAccept a).

Definition open (r : open_answers) : A unit :=
  a ← gets acceptor_;
  t ← gets config_tree_;
  set_safe_link (config_bool t (group a) "safe_link" false);;
  match endpoint_of t (group a) default_listen_ip default_listen_port with
  | inl e => throw e
  | inr endpoint =>
      let '(ec, a') := open_socket (config_bool t (group a) "reuse_addr" false) endpoint r a in
      set_acceptor a';;
      if failed ec then set_acceptor (with_op (AsyncWait call_open 10000) a')
      else accept_next
  end.

Definition run (r : open_answers) : A unit := open r.

(** [std::make_shared<ClusterConnection>(...)], which is [fresh], and its [run]. *)
Definition make_peer (fresh : world) : A unit :=
  safe_link ← gets safe_link_;
  match ClusterConnection.run server safe_link fresh with
  | Ok _ peer =>
      modify (fun w => mkClusterAcceptor (acceptor_ w) (safe_link_ w) (peers w ++ [peer]) (config_tree_ w))
  | Err f => throw (Connection f)
  | Fuel => diverge
  end.

(** [endpoint_ec]: how [remote_endpoint()] ends, in the log line. [junk_safe_link] and
    [junk_len] are what the fields that the constructor leaves out hold. *)
Definition on_accept (ec endpoint_ec : error_code) (junk_safe_link : bool) (junk_len : bytes) : A unit :=
  (if failed ec then mret tt
   else if failed endpoint_ec then throw (SystemError endpoint_ec)
   else make_peer (construct junk_safe_link junk_len));;
  accept_next.

(** ** What the environment does *)
Inductive label :=
| AcceptDone (ec endpoint_ec : error_code) (junk_safe_link : bool) (junk_len : bytes)
| WaitDone (r : open_answers).

(** The pending operation a label completes. *)
Definition completes (l : label) : acceptor_op :=
  match l with
  | AcceptDone _ _ _ _ => AsyncAccept
  | WaitDone _ => AsyncWait call_open 10000
  end.

Definition handler (l : label) : A unit :=
  match l with
  | AcceptDone ec endpoint_ec b len => on_accept ec endpoint_ec b len
  | WaitDone r => open r
  end.

Definition enabled (l : label) (w : ClusterAcceptor) : Prop :=
  completes l ∈ acceptor_pending (acceptor_ w).

Definition fire (l : label) : A unit :=
  a ← gets acceptor_;
  set_acceptor (mkAcceptor (group a) (acceptor_is_open a)
                  (remove_one (completes l) (acceptor_pending a)) (acceptor_trace a));;
  handler l.

Definition lawful (l : label) (w : ClusterAcceptor) : Prop :=
  match l with
  | AcceptDone ec _ _ _ => acceptor_is_open (acceptor_ w) = false -> failed ec = true
  | WaitDone r => lawful_open r (acceptor_ w)
  end.

Inductive steps : ClusterAcceptor -> list label -> ClusterAcceptor -> Prop :=
| steps_nil w : steps w [] w
| steps_cons w l w1 ls w2 :
    enabled l w -> lawful l w -> fire l w = Ok tt w1 -> steps w1 ls w2 -> steps w (l :: ls) w2.

(** Before [run]. *)
Definition idle (g : ConfigGroup) (junk_safe_link : bool) (t : ptree) : ClusterAcceptor :=
  mkClusterAcceptor (new_acceptor g) junk_safe_link [] t.
End cluster_acceptor.
