(* ===== verification/WsAcceptor.v ===== *)
(** * The acceptors of browsers

    [server/front/src/ws/WsAcceptor.cpp]. Every acceptor of the process works on what they
    share: the count of connections, the connections, the clock and the configuration. *)
From S2P Require Import Prelude Message ErrorCode Config WsConnection Acceptor.

Section ws_acceptor.
Context `{PropertyTree, AsioNet, AsioErrors, FrontConfig}.

Record shared := mkShared {
  (** [front::active_connection_count] *)
  active_count : Z;
  (** the connections that live, oldest first *)
  clients : list world;
  clock : Z;
  front_tree : ptree;
}.

Record WsAcceptor := mkWsAcceptor { acceptor_ : acceptor; shared_ : shared }.

Abbreviation A := (M exception WsAcceptor).

Definition default_listen_ip : bytes := str "0.0.0.0".
Definition default_listen_port : Z := 7011.

Definition set_acceptor (a : acceptor) : A unit := modify (fun w => mkWsAcceptor a (shared_ w)).
Definition count : A Z := gets (fun w => active_count (shared_ w)).

Definition start (op : acceptor_op) : A unit :=
  a ← gets acceptor_;
  set_acceptor (with_op op a).

(** [acceptor_.close()], which throws what it ends with. *)
Definition close (ec : error_code) : A unit :=
  a ← gets acceptor_;
  set_acceptor (is_open_as false [Closed] a);;
  if failed ec then throw (SystemError ec) else mret tt.

(** [close_now]: how [close] ends. *)
Definition accept_next (close_now : error_code) : A unit :=
  n ← count;
  if decide (connection_limit_hard <= n) then
    close close_now;;
    start (AsyncWait call_on_timer_reopen 5000)
  else start AsyncAccept.

Definition open (r : open_answers) (close_now : error_code) : A unit :=
  a ← gets acceptor_;
  t ← gets (fun w => front_tree (shared_ w));
  match endpoint_of t (group a) default_listen_ip default_listen_port with
  | inl e => throw e
  | inr endpoint =>
      let '(ec, a') := open_socket (config_bool t (group a) "reuse_addr" false) endpoint r a in
      set_acceptor a';;
      if failed ec then start (AsyncWait call_open 10000)
      else accept_next close_now
  end.

(** The initialisation of the TLS context is [init_ssl_context]. *)
Definition run (r : open_answers) (close_now : error_code) : A unit := open r close_now.

(** [std::make_shared<WsConnection>(...)] and its [run]. *)
Definition make_client : A unit :=
  s ← gets shared_;
  match WsConnection.run (WsConnection.construct (clock s) (active_count s)) with
  | Ok _ client =>
      modify (fun w => mkWsAcceptor (acceptor_ w)
        (mkShared (active_connection_count client) (clients s ++ [client]) (clock s) (front_tree s)))
  | Err f => throw (Connection f)
  | Fuel => diverge
  end.

(** [endpoint_ec], [option_ec]: how [remote_endpoint()] of the log line and [set_option] end;
    both throw. *)
Definition on_accept (ec endpoint_ec option_ec close_now : error_code) : A unit :=
  (if failed ec then mret tt
   else if failed endpoint_ec then throw (SystemError endpoint_ec)
   else if failed option_ec then throw (SystemError option_ec)
   else make_client);;
  n ← count;
  if decide (Z.quot connection_limit_hard 2 < n) then start (AsyncWait call_accept_next 20)
  else accept_next close_now.

Definition on_timer_accept (close_now : error_code) : A unit := accept_next close_now.

Definition on_timer_reopen (r : open_answers) (close_now : error_code) : A unit :=
  n ← count;
  if decide (connection_limit_hard <= n) then start (AsyncWait call_on_timer_reopen 5000)
  else open r close_now.

(** ** What the environment does *)
Inductive label :=
| AcceptDone (ec endpoint_ec option_ec close_now : error_code)
| WaitDone (k : continuation) (milliseconds : Z) (r : open_answers) (close_now : error_code).

Definition completes (l : label) : acceptor_op :=
  match l with
  | AcceptDone _ _ _ _ => AsyncAccept
  | WaitDone k delay _ _ => AsyncWait k delay
  end.

Definition handler (l : label) : A unit :=
  match l with
  | AcceptDone ec endpoint_ec option_ec close_now => on_accept ec endpoint_ec option_ec close_now
  | WaitDone call_open _ r close_now => open r close_now
  | WaitDone call_accept_next _ _ close_now => accept_next close_now
  | WaitDone call_on_timer_reopen _ r close_now => on_timer_reopen r close_now
  end.

Definition enabled (l : label) (a : acceptor) : Prop := completes l ∈ acceptor_pending a.

Definition fire (l : label) : A unit :=
  a ← gets acceptor_;
  set_acceptor (mkAcceptor (group a) (acceptor_is_open a)
                  (remove_one (completes l) (acceptor_pending a)) (acceptor_trace a));;
  handler l.

Definition lawful (l : label) (a : acceptor) : Prop :=
  match l with
  | AcceptDone ec _ _ _ => acceptor_is_open a = false -> failed ec = true
  | WaitDone _ _ r _ => lawful_open r a
  end.
End ws_acceptor.
