(* ===== verification/Front.v ===== *)
(** * The front server

    The acceptors and the connections of one process, on the threads of one [io_context]:
    handlers of different objects run in any order, and share the count of connections. *)
From S2P Require Import Prelude Message ErrorCode Config WsConnection Acceptor WsAcceptor.

Section front.
Context `{PropertyTree, AsioNet, AsioErrors, FrontConfig}.

Record front := mkFront { acceptors : list acceptor; common : shared }.

(** A connection as its handlers see it: with the present time and count. *)
Definition sync (s : shared) (w : world) : world :=
  mkWorld (conn w) (socket_open w) (posted w) (pending w) (trace w) (expiry w) (state_expiry w)
    (clock s) (active_count s).

(** Nothing refers to the connection any more: every handler and posted task holds a
    reference. *)
Definition unreferenced (w : world) : Prop := pending w = [] /\ posted w = [].

Inductive front_label :=
| AcceptorStep (i : nat) (l : WsAcceptor.label)
| ClientStep (j : nat) (l : WsConnection.label)
| ClientDestroyed (j : nat)
| Elapse (nanoseconds : Z).

(** One handler, or the end of a connection. What happens elsewhere, a connection sees with
    [sync]. *)
Inductive front_step : front -> front_label -> front -> Prop :=
| acceptor_step f i l a w' :
    acceptors f !! i = Some a -> WsAcceptor.enabled l a ->
    WsAcceptor.fire l (mkWsAcceptor a (common f)) = Ok tt w' ->
    front_step f (AcceptorStep i l) (mkFront (<[i := acceptor_ w']> (acceptors f)) (shared_ w'))
| client_step f j l w w' :
    clients (common f) !! j = Some w -> own l = true -> WsConnection.enabled l w ->
    ~ unreferenced w ->
    WsConnection.fire l (sync (common f) w) = Ok tt w' ->
    front_step f (ClientStep j l)
      (mkFront (acceptors f)
         (mkShared (active_count (common f)) (<[j := w']> (clients (common f)))
            (clock (common f)) (front_tree (common f))))
| client_destroyed f j w :
    clients (common f) !! j = Some w -> unreferenced w ->
    front_step f (ClientDestroyed j)
      (mkFront (acceptors f)
         (mkShared (destroyed (sync (common f) w)) (delete j (clients (common f)))
            (clock (common f)) (front_tree (common f))))
| elapse f d :
    0 <= d ->
    front_step f (Elapse d)
      (mkFront (acceptors f)
         (mkShared (active_count (common f)) (clients (common f)) (clock (common f) + d)
            (front_tree (common f)))).

Inductive front_steps : front -> list front_label -> front -> Prop :=
| front_steps_nil f : front_steps f [] f
| front_steps_cons f l f1 ls f2 :
    front_step f l f1 -> front_steps f1 ls f2 -> front_steps f (l :: ls) f2.

#[export] Instance unreferenced_dec w : Decision (unreferenced w).
Proof.
  unfold unreferenced. destruct (pending w), (posted w);
    first [by left | by right; intros []].
Defined.

(** A step with a given label, executed. *)
Definition front_fire (l : front_label) (f : front) : option front :=
  match l with
  | AcceptorStep i l =>
      a ← acceptors f !! i;
      if decide (WsAcceptor.completes l ∈ acceptor_pending a) then
        match WsAcceptor.fire l (mkWsAcceptor a (common f)) with
        | Ok _ w' => Some (mkFront (<[i := acceptor_ w']> (acceptors f)) (shared_ w'))
        | _ => None
        end
      else None
  | ClientStep j l =>
      w ← clients (common f) !! j;
      if decide (own l = true /\ WsConnection.enabled l w /\ ~ unreferenced w) then
        match WsConnection.fire l (sync (common f) w) with
        | Ok _ w' => Some (mkFront (acceptors f)
                       (mkShared (active_count (common f)) (<[j := w']> (clients (common f)))
                          (clock (common f)) (front_tree (common f))))
        | _ => None
        end
      else None
  | ClientDestroyed j =>
      w ← clients (common f) !! j;
      if decide (unreferenced w) then
        Some (mkFront (acceptors f)
                (mkShared (destroyed (sync (common f) w)) (delete j (clients (common f)))
                   (clock (common f)) (front_tree (common f))))
      else None
  | Elapse d =>
      if decide (0 <= d) then
        Some (mkFront (acceptors f)
                (mkShared (active_count (common f)) (clients (common f)) (clock (common f) + d)
                   (front_tree (common f))))
      else None
  end.

Lemma front_fire_step l f f' : front_fire l f = Some f' -> front_step f l f'.
Proof.
  destruct l as [i l|j l|j|d]; simpl.
  - destruct (acceptors f !! i) as [a|] eqn:Ha; simpl; [|done]. case_decide as Hen; [|done].
    destruct (WsAcceptor.fire _ _) as [[] w'| |] eqn:Hf; try done. intros [= <-].
    by apply (acceptor_step f i l a).
  - destruct (clients (common f) !! j) as [w|] eqn:Hw; simpl; [|done].
    case_decide as Hen; [|done]. destruct Hen as (? & ? & ?).
    destruct (WsConnection.fire _ _) as [[] w'| |] eqn:Hf; try done. intros [= <-].
    by apply (client_step f j l w).
  - destruct (clients (common f) !! j) as [w|] eqn:Hw; simpl; [|done].
    case_decide; [|done]. intros [= <-]. by apply client_destroyed.
  - case_decide; [|done]. intros [= <-]. by apply elapse.
Qed.

Fixpoint front_play (ls : list front_label) (f : front) : option front :=
  match ls with
  | [] => Some f
  | l :: ls' => front_fire l f ≫= front_play ls'
  end.

Lemma front_play_steps ls f f' : front_play ls f = Some f' -> front_steps f ls f'.
Proof.
  revert f. induction ls as [|l ls IH]; simpl; intros f; [intros [= <-]; constructor|].
  destruct (front_fire l f) as [f1|] eqn:Hf; simpl; [|done]. intros Hrun.
  apply (front_steps_cons f l f1); [by apply front_fire_step|by apply IH].
Qed.

(** The acceptors run one after the other, as the loop of [main] runs them. *)
Definition run_acceptor (x : ConfigGroup * open_answers * error_code) : M exception shared acceptor :=
  fun s =>
  let '(g, r, close_now) := x in
  match WsAcceptor.run r close_now (mkWsAcceptor (new_acceptor g) s) with
  | Ok _ w => Ok (acceptor_ w) (shared_ w)
  | Err e => Err e
  | Fuel => Fuel
  end.

Fixpoint run_acceptors (gs : list (ConfigGroup * open_answers * error_code))
    : M exception shared (list acceptor) :=
  match gs with
  | [] => mret []
  | x :: gs' =>
      a ← run_acceptor x;
      l ← run_acceptors gs';
      mret (a :: l)
  end.

(** Before the first acceptor: no connection. *)
Definition no_client (now : Z) (t : ptree) : shared := mkShared 0 [] now t.
End front.
