(* ===== verification/FrontInvariant.v ===== *)
(** * The invariant of the front server

    Every acceptor has one operation pending, and the connections and accepts under way are
    bounded. *)
From S2P Require Import Prelude Message ErrorCode Config WsConnection Acceptor WsAcceptor Front.

Section handlers.
Context `{PropertyTree, AsioNet, AsioErrors, FrontConfig}.

(** A handler of an acceptor with nothing pending leaves one operation pending; an accept
    only below the hard limit. *)
Definition leaves_one (m : M exception WsAcceptor unit) (Q : shared -> shared -> Prop) : Prop :=
  forall w, acceptor_pending (acceptor_ w) = [] ->
  wp m w (fun _ w' => exists op, acceptor_pending (acceptor_ w') = [op] /\
            (op = AsyncAccept -> active_count (shared_ w') < connection_limit_hard) /\
            Q (shared_ w) (shared_ w'))
    (fun _ => True) False.

Lemma start_spec op w :
  acceptor_pending (acceptor_ w) = [] ->
  exists a, start op w = Ok tt (mkWsAcceptor a (shared_ w)) /\ acceptor_pending a = [op].
Proof. intros Hp. eexists. split; [reflexivity|]. simpl. by rewrite Hp. Qed.

Lemma leaves_start op (Q : shared -> shared -> Prop) w :
  acceptor_pending (acceptor_ w) = [] -> (forall s, Q s s) ->
  (op = AsyncAccept -> active_count (shared_ w) < connection_limit_hard) ->
  wp (start op) w (fun _ w' => exists op, acceptor_pending (acceptor_ w') = [op] /\
        (op = AsyncAccept -> active_count (shared_ w') < connection_limit_hard) /\
        Q (shared_ w) (shared_ w'))
    (fun _ => True) False.
Proof.
  intros Hp HQ Hop. destruct (start_spec op w Hp) as (a & Hrun & Ha).
  unfold wp. rewrite Hrun. by exists op.
Qed.

Lemma accept_next_leaves c : leaves_one (accept_next c) eq.
Proof.
  intros w Hp. unfold accept_next. apply wp_bind, wp_gets.
  case_decide as Hn; [|apply leaves_start; auto; intros _; lia].
  apply wp_bind. unfold close, wp, mbind, M_bind, gets, set_acceptor, modify. simpl.
  destruct (failed c); [done|]. simpl.
  eexists. split; [by rewrite Hp|]. by split.
Qed.

Lemma open_leaves r c : leaves_one (open r c) eq.
Proof.
  intros w Hp. unfold open. do 2 apply wp_bind, wp_gets.
  destruct (endpoint_of _ _ _ _) as [e|endpoint]; [by apply wp_throw|].
  destruct (open_socket _ _ _ _) as [ec a'] eqn:Ho. apply wp_bind. unfold wp at 1. simpl.
  assert (acceptor_pending a' = []) as Hp'.
  { unfold open_socket in Ho. repeat case_match; injection Ho as <- <-; done. }
  destruct (failed ec).
  - by apply (leaves_start _ eq (mkWsAcceptor a' (shared_ w))).
  - by apply (accept_next_leaves c (mkWsAcceptor a' (shared_ w))).
Qed.

Lemma on_timer_reopen_leaves r c : leaves_one (on_timer_reopen r c) eq.
Proof.
  intros w Hp. unfold on_timer_reopen. apply wp_bind, wp_gets.
  case_decide; [by apply leaves_start|by apply open_leaves].
Qed.

(** One more connection, or none. *)
Definition one_more (s s' : shared) : Prop :=
  s' = s \/
  exists w, WsConnection.run (WsConnection.construct (clock s) (active_count s)) = Ok tt w /\
    s' = mkShared (active_count s + 1) (clients s ++ [w]) (clock s) (front_tree s).

Lemma make_client_spec w :
  exists client,
    WsConnection.run (WsConnection.construct (clock (shared_ w)) (active_count (shared_ w))) = Ok tt client /\
    make_client w = Ok tt (mkWsAcceptor (acceptor_ w)
    (mkShared (active_count (shared_ w) + 1) (clients (shared_ w) ++ [client])
       (clock (shared_ w)) (front_tree (shared_ w)))).
Proof.
  destruct w as [a [n cs now t]]. unfold make_client, mbind, M_bind, gets. simpl.
  unfold WsConnection.run, set_timeout, mbind, M_bind, gets. simpl. by eexists.
Qed.

Lemma on_accept_leaves e1 e2 e3 c : leaves_one (on_accept e1 e2 e3 c) one_more.
Proof.
  intros w Hp. unfold on_accept. apply wp_bind.
  assert (forall w', acceptor_pending (acceptor_ w') = [] -> one_more (shared_ w) (shared_ w') ->
    wp (n ← count; if decide (connection_limit_hard ÷ 2 < n) then start (AsyncWait call_accept_next 20)
        else accept_next c) w'
      (fun _ w'' => exists op, acceptor_pending (acceptor_ w'') = [op] /\
         (op = AsyncAccept -> active_count (shared_ w'') < connection_limit_hard) /\
         one_more (shared_ w) (shared_ w''))
      (fun _ => True) False) as Hrest.
  { intros w' Hp' Hs. eapply wp_mono with (Q := fun _ w'' => exists op,
      acceptor_pending (acceptor_ w'') = [op] /\
      (op = AsyncAccept -> active_count (shared_ w'') < connection_limit_hard) /\
      shared_ w' = shared_ w''); [| |done|done].
    - apply wp_bind, wp_gets. case_decide;
        [by apply (leaves_start _ eq)|by apply (accept_next_leaves c)].
    - intros _ w'' (op & ? & ? & Heq). exists op. rewrite Heq in Hs. by split_and!. }
  destruct (failed e1); [by apply wp_ret, Hrest; [|left]|].
  destruct (failed e2); [by apply wp_throw|]. destruct (failed e3); [by apply wp_throw|].
  destruct (make_client_spec w) as (client & Hclient & Hc). unfold wp at 1. rewrite Hc.
  apply Hrest; [done|]. right. by exists client.
Qed.

(** What a label of an acceptor does. *)
Lemma fire_leaves l w :
  acceptor_pending (acceptor_ w) = [completes l] ->
  wp (fire l) w (fun _ w' => exists op, acceptor_pending (acceptor_ w') = [op] /\
        (op = AsyncAccept -> active_count (shared_ w') < connection_limit_hard) /\
        (if decide (completes l = AsyncAccept) then one_more (shared_ w) (shared_ w')
         else shared_ w' = shared_ w))
    (fun _ => True) False.
Proof.
  intros Hp. unfold fire. apply wp_bind, wp_gets, wp_bind. unfold wp at 1. simpl.
  rewrite Hp. simpl. rewrite decide_True by done. set (w0 := mkWsAcceptor _ _).
  assert (forall m, leaves_one m eq -> completes l <> AsyncAccept ->
    wp m w0 (fun _ w' => exists op, acceptor_pending (acceptor_ w') = [op] /\
        (op = AsyncAccept -> active_count (shared_ w') < connection_limit_hard) /\
        (if decide (completes l = AsyncAccept) then one_more (shared_ w) (shared_ w')
         else shared_ w' = shared_ w)) (fun _ => True) False) as Heq.
  { intros m Hm Hl. eapply wp_mono; [by apply (Hm w0)| |done|done].
    intros _ w' (op & ? & ? & Hs). exists op. rewrite decide_False by done. by split_and!. }
  destruct l as [e1 e2 e3 c|k d r c].
  - eapply wp_mono; [by apply (on_accept_leaves e1 e2 e3 c w0)| |done|done].
    intros _ w' (op & ? & ? & Hs). by exists op.
  - destruct k; (apply Heq; [|done]);
      [apply open_leaves|apply accept_next_leaves|apply on_timer_reopen_leaves].
Qed.

Lemma only_pending l a :
  (exists op, acceptor_pending a = [op]) -> WsAcceptor.enabled l a -> acceptor_pending a = [completes l].
Proof.
  intros [op Hop] Hen. unfold WsAcceptor.enabled in Hen. rewrite Hop in *.
  by apply list_elem_of_singleton in Hen as <-.
Qed.

Lemma fire_one_more l a s w' :
  acceptor_pending a = [completes l] -> WsAcceptor.fire l (mkWsAcceptor a s) = Ok tt w' ->
  one_more s (shared_ w').
Proof.
  intros Hpa Hfire. pose proof (fire_leaves l (mkWsAcceptor a s) Hpa) as Hwp. unfold wp in Hwp.
  rewrite Hfire in Hwp. destruct Hwp as (_ & _ & _ & Hs). case_decide; [done|by left].
Qed.

(** ** The connections

    A property that every connection has when it has been run, that no handler of it breaks
    and time does not end, is a property of all that live. *)
Section clients.
Variable P : Z -> world -> Prop.
Hypothesis P_start : forall time n w, WsConnection.run (WsConnection.construct time n) = Ok tt w -> P time w.
Hypothesis P_later : forall t t' w, t <= t' -> P t w -> P t' w.
Hypothesis P_fire : forall l s w w', own l = true -> WsConnection.enabled l w ->
  WsConnection.fire l (sync s w) = Ok tt w' -> P (clock s) w -> P (clock s) w'.

Definition all_clients (s : shared) : Prop := Forall (P (clock s)) (clients s).

Lemma clients_step f l f' :
  Forall (fun a => exists op, acceptor_pending a = [op]) (acceptors f) ->
  front_step f l f' -> all_clients (common f) -> all_clients (common f').
Proof.
  intros Hp Hstep. unfold all_clients.
  destruct Hstep as [f i l a w' Hi Hen Hfire|f j l w w' Hj Hown Hen _ Hfire|f j w Hj _|f d Hd];
    simpl; intros Hall.
  - rewrite Forall_lookup in Hp. pose proof (only_pending l a (Hp i a Hi) Hen) as Hpa.
    destruct (fire_one_more l a (common f) w' Hpa Hfire) as [->|(w & Hrun & ->)]; [done|].
    simpl. apply Forall_app. split; [done|]. by apply Forall_singleton, (P_start _ _ _ Hrun).
  - apply Forall_insert; [done|]. rewrite Forall_lookup in Hall. by eapply P_fire, (Hall j).
  - by apply Forall_delete.
  - eapply Forall_impl; [exact Hall|]. intros w. apply P_later. lia.
Qed.
End clients.
End handlers.
