(* ===== verification/FrontTheorems.v ===== *)
(** * What the front server guarantees

    How many connections it holds, and that its acceptors go on. *)
From S2P Require Import Prelude Message ErrorCode Config InfoTree WsConnection Acceptor WsAcceptor Front FrontInvariant.

Section bound.
Context `{PropertyTree, AsioNet, AsioErrors, FrontConfig}.

(** An accept under way. *)
Definition accepting (a : acceptor) : nat :=
  if decide (acceptor_pending a = [AsyncAccept]) then 1 else 0.

Definition accepts (l : list acceptor) : nat := sum_list (accepting <$> l).

(** With [n] acceptors, and at most [most] connections and accepts. *)
Record front_inv (most : Z) (n : nat) (f : front) : Prop := {
  front_acceptors : length (acceptors f) = n;
  front_pending : Forall (fun a => exists op, acceptor_pending a = [op]) (acceptors f);
  front_count : active_count (common f) = Z.of_nat (length (clients (common f)));
  front_bound : active_count (common f) + Z.of_nat (accepts (acceptors f)) <= most;
}.

Lemma accepting_le a : (accepting a <= 1)%nat.
Proof. unfold accepting. case_decide; lia. Qed.

Lemma accepts_le l : (accepts l <= length l)%nat.
Proof.
  unfold accepts. induction l as [|a l IH]; [done|]. rewrite fmap_cons. simpl.
  pose proof (accepting_le a). lia.
Qed.

Lemma accepts_insert i a a' l :
  l !! i = Some a -> (accepts (<[i := a']> l) + accepting a = accepts l + accepting a')%nat.
Proof.
  unfold accepts. revert i. induction l as [|b l IH]; intros [|i]; try done.
  - intros [= ->]. change (<[0%nat := a']> (a :: l)) with (a' :: l). rewrite !fmap_cons. simpl. lia.
  - intros Hi. specialize (IH i Hi).
    change (<[S i := a']> (b :: l)) with (b :: <[i := a']> l). rewrite !fmap_cons. simpl. lia.
Qed.

(** The bound after an acceptor has run: an accept starts below the limit only. *)
Lemma bound_after most i a w' l s :
  l !! i = Some a -> connection_limit_hard + Z.of_nat (length l) - 1 <= most ->
  active_count s + Z.of_nat (accepts l) <= most ->
  (exists op, acceptor_pending (acceptor_ w') = [op] /\
     (op = AsyncAccept -> active_count (shared_ w') < connection_limit_hard)) ->
  active_count (shared_ w') <= active_count s + Z.of_nat (accepting a) ->
  active_count (shared_ w') + Z.of_nat (accepts (<[i := acceptor_ w']> l)) <= most.
Proof.
  intros Hi Hmost Hb (op & Hp & Hop) Hc. pose proof (accepts_insert i a (acceptor_ w') l Hi) as Hacc.
  unfold accepting at 2 in Hacc. rewrite Hp in Hacc.
  destruct (decide ([op] = [AsyncAccept])) as [Heq|Hne]; [|lia].
  injection Heq as ->. specialize (Hop eq_refl).
  pose proof (accepts_le (<[i := acceptor_ w']> l)) as Hle. rewrite length_insert in Hle. lia.
Qed.

Lemma acceptor_step_inv most n f i l a w' :
  connection_limit_hard + Z.of_nat n - 1 <= most -> front_inv most n f -> acceptors f !! i = Some a -> WsAcceptor.enabled l a ->
  WsAcceptor.fire l (mkWsAcceptor a (common f)) = Ok tt w' ->
  front_inv most n (mkFront (<[i := acceptor_ w']> (acceptors f)) (shared_ w')).
Proof.
  intros Hmost [Hn Hp Hc Hb] Hi Hen Hfire.
  assert (acceptor_pending a = [completes l]) as Hpa.
  { rewrite Forall_lookup in Hp. by apply only_pending, Hen; apply (Hp i). }
  pose proof (fire_leaves l (mkWsAcceptor a (common f)) Hpa) as Hwp. unfold wp in Hwp.
  rewrite Hfire in Hwp. destruct Hwp as (op & Hop & Haccept & Hshared). simpl in Hshared.
  assert (active_count (shared_ w') = Z.of_nat (length (clients (shared_ w'))) /\
          active_count (shared_ w') <= active_count (common f) + Z.of_nat (accepting a)) as [Hc' Hle].
  { unfold accepting. rewrite Hpa. destruct (decide (completes l = AsyncAccept)) as [Heq|Hne].
    - rewrite Heq, decide_True by done. destruct Hshared as [->|(w & _ & ->)]; simpl; [lia|].
      rewrite length_app. simpl. lia.
    - rewrite Hshared. rewrite decide_False by congruence. lia. }
  constructor; simpl.
  - by rewrite length_insert.
  - apply Forall_insert; [done|by eexists].
  - done.
  - rewrite <- Hn in *. eapply (bound_after most i a w' _ (common f)); eauto.
Qed.

Lemma front_step_inv most n f l f' :
  connection_limit_hard + Z.of_nat n - 1 <= most ->
  front_step f l f' -> front_inv most n f -> front_inv most n f'.
Proof.
  intros Hmost Hstep Hinv. destruct Hstep as [f i l a w' Hi Hen Hfire|f j l w w' Hj _ _ _ _|f j w Hj _|f d _].
  - by apply (acceptor_step_inv most n f i l a).
  - destruct Hinv as [Hn Hp Hc Hb]. constructor; simpl; try done. by rewrite length_insert.
  - destruct Hinv as [Hn Hp Hc Hb]. pose proof (lookup_lt_Some _ _ _ Hj) as Hlt.
    constructor; simpl; try done; unfold destroyed; simpl; [|lia].
    rewrite length_delete by eauto. lia.
  - by destruct Hinv.
Qed.

Lemma front_steps_inv most n f ls f' :
  connection_limit_hard + Z.of_nat n - 1 <= most ->
  front_steps f ls f' -> front_inv most n f -> front_inv most n f'.
Proof. intros Hmost. induction 1; eauto using front_step_inv. Qed.

Lemma run_acceptors_inv gs s l s' :
  run_acceptors gs s = Ok l s' ->
  s' = s /\ length l = length gs /\
  Forall (fun a => exists op, acceptor_pending a = [op] /\
            (op = AsyncAccept -> active_count s < connection_limit_hard)) l.
Proof.
  revert l s'. induction gs as [|[[g r] c] gs IH]; intros l s'; simpl.
  { intros [= <- <-]. by repeat constructor. }
  unfold mbind, M_bind, run_acceptor.
  pose proof (open_leaves r c (mkWsAcceptor (new_acceptor g) s) eq_refl) as Hopen.
  unfold wp in Hopen. unfold WsAcceptor.run.
  destruct (open r c _) as [[] w| |]; try done. destruct Hopen as (op & Hp & Hop & Hs).
  simpl in Hs. rewrite <- Hs in *. destruct (run_acceptors gs s) as [l1 s1| |] eqn:Hrun; try done.
  intros [= <- <-]. destruct (IH l1 s1 eq_refl) as (-> & Hlen & Hall).
  split_and!; [done|simpl; lia|]. constructor; [by exists op|done].
Qed.

Lemma started_inv gs l s now t :
  run_acceptors gs (no_client now t) = Ok l s -> 
  front_inv (Z.max 0 (connection_limit_hard + Z.of_nat (length gs) - 1)) (length gs) (mkFront l s).
Proof.
  intros Hrun. destruct (run_acceptors_inv _ _ _ _ Hrun) as (-> & Hlen & Hall).
  constructor; simpl; [done| |done|].
  - eapply Forall_impl; [exact Hall|]. by intros a (op & ? & _); exists op.
  - rewrite <- Hlen. pose proof (accepts_le l) as Hle.
    destruct (decide (0 < connection_limit_hard)); [lia|].
    assert (accepts l = 0%nat) as ->; [|lia].
    clear Hrun Hlen Hle. unfold accepts.
    induction Hall as [|a l (op & Hp & Hop) _ IH]; [done|]. rewrite fmap_cons. simpl. rewrite IH.
    unfold accepting. rewrite Hp. simpl in Hop. case_decide as Ha; [|done].
    injection Ha as ->. specialize (Hop eq_refl). lia.
Qed.

(** The connections of the front server are bounded and counted. Whatever the order of
    the handlers of its [n] acceptors and of its connections, the shared count is the number
    of connections that live, it is never below zero, and never above the hard limit by more
    than [n - 1]: with one acceptor the limit holds, with more it is overrun by the accepts
    that were under way. And every acceptor always has exactly one operation pending. *)
Theorem connections_bounded gs now t l s ls f :
  run_acceptors gs (no_client now t) = Ok l s -> front_steps (mkFront l s) ls f ->
  active_count (common f) = Z.of_nat (length (clients (common f))) /\
  0 <= active_count (common f) <= Z.max 0 (connection_limit_hard + Z.of_nat (length gs) - 1) /\
  Forall (fun a => length (acceptor_pending a) = 1%nat) (acceptors f).
Proof.
  intros Hrun Hsteps.
  destruct (front_steps_inv _ _ _ _ _ ltac:(apply Z.le_max_r) Hsteps (started_inv _ _ _ _ _ Hrun))
    as [Hn Hp Hc Hb]. split_and!; [done|lia|lia|].
  eapply Forall_impl; [exact Hp|]. by intros a [op ->].
Qed.
End bound.

(** ** Witness *)

#[local] Existing Instance any_address.
#[local] Existing Instance linux_errors.

(** A hard limit of one connection. *)
#[local] Instance tiny_config : FrontConfig := {|
  connection_limit_soft := 1;
  connection_limit_hard := 1;
  message_max_size := 0x4000;
  rate_limit_messages := 100;
  rate_limit_bytes := 0x8000;
  ws_message_auto_fragment := true;
  ws_setup_timeout := 3;
  ws_timeout := 30;
|}.

Definition all_well : open_answers := mkOpenAnswers success success success success success.

(** Two acceptors, and a client for each of them at the same time. *)
Definition two_groups : list (ConfigGroup * open_answers * error_code) :=
  [(mkConfigGroup (str "front.ws.listen.a"), all_well, success);
   (mkConfigGroup (str "front.ws.listen.b"), all_well, success)].

Definition client_comes : WsAcceptor.label := AcceptDone success success success success.

(** The acceptors listen; a client comes to the first, then one to the second. *)
Definition listening : front := Eval vm_compute in
  match run_acceptors two_groups (no_client 0 (Info [] [])) with
  | Ok l s => mkFront l s
  | _ => mkFront [] (no_client 0 (Info [] []))
  end.

Definition clients_come : list front_label :=
  [AcceptorStep 0 client_comes; AcceptorStep 1 client_comes].

Definition two_clients : front := Eval vm_compute in default listening (front_play clients_come listening).

Lemma clients_come_steps : front_steps listening clients_come two_clients.
Proof. apply front_play_steps. reflexivity. Qed.

(** Two connections, where the limit is one. *)
Lemma connections_bounded_witness :
  active_count (common two_clients) = 2 /\
  active_count (common two_clients) = Z.of_nat (length (clients (common two_clients))) /\
  0 <= active_count (common two_clients) <= Z.max 0 (connection_limit_hard + Z.of_nat (length two_groups) - 1) /\
  Forall (fun a => length (acceptor_pending a) = 1%nat) (acceptors two_clients).
Proof.
  split; [reflexivity|].
  refine (connections_bounded two_groups 0 (Info [] []) (acceptors listening) (common listening)
           clients_come two_clients _ clients_come_steps). reflexivity.
Defined.
