(* ===== verification/FrontFull.v ===== *)
(** * A front server that is full of silence

    When as many clients as the hard limit allows were refused and do not answer the end of
    their connections, no acceptor takes in a client any more. *)
From S2P Require Import Prelude Message ErrorCode Config InfoTree WsConnection WsInvariant WsLife.
From S2P Require Import WsClock WsRefused.
From S2P Require Import Acceptor WsAcceptor Front FrontInvariant FrontTheorems.

Section full.
Context `{PropertyTree, AsioNet, AsioErrors, FrontConfig}.

(** The acceptor is closed, and looks in five seconds whether to open again. *)
Definition waits_to_reopen (a : acceptor) : Prop :=
  acceptor_pending a = [Acceptor.AsyncWait call_on_timer_reopen 5000].

(** The limit is reached, by connections that wait for the answer of their clients. *)
Record full_house (f : front) : Prop := {
  full_count : active_count (common f) = Z.of_nat (length (clients (common f)));
  full_limit : connection_limit_hard <= active_count (common f);
  full_clients : Forall lingers (clients (common f));
  full_acceptors : Forall waits_to_reopen (acceptors f);
}.

(** The clients send nothing. *)
Definition silent (l : front_label) : Prop :=
  match l with ClientStep _ l => unanswered l | _ => True end.

(** The wait of some connection has come to its end. *)
Definition any_due (f : front) : Prop :=
  exists j w, clients (common f) !! j = Some w /\ due (sync (common f) w).

(** What happens around such clients: the timers are those of [asio_steps], so that a wait
    ends with another error than [operation_aborted] only when one has come to its end. *)
Inductive silent_steps : Prop -> front -> list front_label -> front -> Prop :=
| silent_nil P f : silent_steps P f [] f
| silent_cons (P : Prop) f l f1 ls f2 :
    silent l -> front_step f l f1 ->
    (forall j ec, l = ClientStep j (WsConnection.WaitDone timer_ ec) -> ec <> operation_aborted ->
       P \/ any_due f) ->
    silent_steps (P \/ any_due f) f1 ls f2 -> silent_steps P f (l :: ls) f2.

Lemma sync_lingers s w : lingers w -> lingers (sync s w).
Proof. by intros []. Qed.

Lemma reopen_waits l a s w' :
  waits_to_reopen a -> WsAcceptor.enabled l a -> connection_limit_hard <= active_count s ->
  WsAcceptor.fire l (mkWsAcceptor a s) = Ok tt w' ->
  waits_to_reopen (WsAcceptor.acceptor_ w') /\ shared_ w' = s.
Proof.
  intros Hp Hen Hfull Hfire. unfold WsAcceptor.enabled in Hen. unfold waits_to_reopen in *.
  rewrite Hp in Hen. apply list_elem_of_singleton in Hen.
  destruct l as [|k d r c]; [done|]. injection Hen as -> ->.
  unfold WsAcceptor.fire, mbind, M_bind, gets in Hfire. simpl in Hfire. rewrite Hp in Hfire.
  simpl in Hfire. unfold on_timer_reopen, count, mbind, M_bind, gets in Hfire. simpl in Hfire.
  rewrite decide_True in Hfire by done. by injection Hfire as <-.
Qed.

Lemma full_house_step f l f' :
  silent l -> front_step f l f' ->
  (forall j ec, l = ClientStep j (WsConnection.WaitDone timer_ ec) -> ec = operation_aborted) ->
  full_house f -> full_house f' /\ length (clients (common f')) = length (clients (common f)).
Proof.
  intros Hl Hstep Hwait [Hc Hlim Hcl Ha].
  destruct Hstep as [f i l a w' Hi Hen Hfire|f j l w w' Hj _ Hen _ Hfire|f j w Hj [Hun _]|f d _].
  - rewrite Forall_lookup in Ha. destruct (reopen_waits l a (common f) w') as [Hp Hs]; [by apply (Ha i)|done..|].
    rewrite Hs. split; [|done]. constructor; simpl; try done; rewrite ?Hs; try done.
    apply Forall_insert; [by apply Forall_lookup|done].
  - simpl. rewrite length_insert. split; [|done]. constructor; simpl; try done;
      rewrite ?length_insert; try done.
    apply Forall_insert; [done|]. rewrite Forall_lookup in Hcl.
    eapply (lingers_fire l (sync (common f) w)); [exact Hl|exact Hen| | |exact Hfire].
    + intros ec ->. by eapply Hwait.
    + by apply sync_lingers, (Hcl j).
  - exfalso. rewrite Forall_lookup in Hcl. destruct (Hcl j w Hj) as [_ _ _ [Hp|Hp] _];
      by rewrite Hp in Hun.
  - simpl. split; [|done]. by constructor.
Qed.

Lemma full_house_not_due f : full_house f -> ~ any_due f.
Proof.
  intros [_ _ Hcl _] (j & w & Hj & Hdue). rewrite Forall_lookup in Hcl.
  by eapply lingers_not_due; [apply sync_lingers, (Hcl j)|].
Qed.

Lemma full_house_steps P f ls f' :
  silent_steps P f ls f' -> ~ P -> full_house f ->
  full_house f' /\ length (clients (common f')) = length (clients (common f)).
Proof.
  induction 1 as [P f|P f l f1 ls f2 Hl Hstep Hwait _ IH]; [done|]. intros HP Hf.
  pose proof (full_house_not_due f Hf) as Hnot.
  destruct (full_house_step f l f1 Hl Hstep) as [Hf1 <-]; [|done|by apply IH; [intros []|]].
  intros j ec Heq. destruct (decide (ec = operation_aborted)) as [|Hne]; [done|].
  by destruct (Hwait j ec Heq Hne).
Qed.

(** C29: silent clients fill the server for good. When the connections are as many as the hard
    limit, the acceptors have closed, and every client had its request refused before its
    timer expired and has sent nothing since, neither the end of the TLS session nor that of
    the connection, then however long it takes, as long as these clients send nothing - so
    that no shutdown completes - no connection ends, every acceptor stays closed, and nobody
    else is let in: the shutdown has canceled the timer, and no wait ends it. The timers are
    those of Asio: canceling one leaves only the waits that had expired before. *)
Theorem full_house_stays gs now t l s ls f ls' f' :
  run_acceptors gs (no_client now t) = Ok l s -> front_steps (mkFront l s) ls f ->
  connection_limit_hard <= active_count (common f) -> Forall turned_away (clients (common f)) ->
  Forall waits_to_reopen (acceptors f) ->
  silent_steps False f ls' f' ->
  active_count (common f') = active_count (common f) /\
  Forall lingers (clients (common f')) /\ Forall waits_to_reopen (acceptors f') /\
  (forall i e1 e2 e3 e4 f2, ~ front_step f' (AcceptorStep i (WsAcceptor.AcceptDone e1 e2 e3 e4)) f2) /\
  (forall j f2, ~ front_step f' (ClientDestroyed j) f2).
Proof.
  intros Hrun Hsteps Hlim Hcl Ha Hsteps'.
  destruct (front_steps_inv _ _ _ _ _ ltac:(apply Z.le_max_r) Hsteps (started_inv _ _ _ _ _ Hrun))
    as [_ _ Hc _].
  destruct (full_house_steps False f ls' f' Hsteps' (fun F => F)) as [[Hc' _ Hcl' Ha'] Hlen].
  { constructor; [done..| |done]. eapply Forall_impl; [exact Hcl|]. apply turned_away_lingers. }
  split_and!; [by rewrite Hc', Hc, Hlen|done|done| |].
  - intros i e1 e2 e3 e4 f2 Hstep. inversion Hstep as [f1 i1 l1 a w' Hi Hen Hfire| | |]; subst.
    rewrite Forall_lookup in Ha'. specialize (Ha' i a Hi). unfold WsAcceptor.enabled in Hen.
    rewrite Ha' in Hen. by apply list_elem_of_singleton in Hen.
  - intros j f2 Hstep. inversion Hstep as [| |f1 j1 w Hj [Hun _]|]; subst.
    rewrite Forall_lookup in Hcl'. destruct (Hcl' j w Hj) as [_ _ _ [Hp|Hp] _]; by rewrite Hp in Hun.
Qed.
End full.

(** ** Witness

    One acceptor, and room for one client: it comes, makes a request that is no upgrade, and
    is silent for an hour. *)

#[local] Existing Instance any_address.
#[local] Existing Instance linux_errors.
#[local] Existing Instance tiny_config.

Definition one_group : list (ConfigGroup * open_answers * error_code) :=
  [(mkConfigGroup (str "front.ws.listen.a"), all_well, success)].

Definition empty_house : front := Eval vm_compute in
  match run_acceptors one_group (no_client 0 (Info [] [])) with
  | Ok l s => mkFront l s
  | _ => listening
  end.

Definition filling : list front_label :=
  [AcceptorStep 0 client_comes;
   AcceptorStep 0 (WsAcceptor.WaitDone call_accept_next 20 all_well success);
   ClientStep 0 (HandshakeDone success);
   ClientStep 0 (RequestDone success (str "GET") false)].

Definition filled : front := Eval vm_compute in default empty_house (front_play filling empty_house).

(** The client, before its request and after it. *)
Definition house_asked : front :=
  Eval vm_compute in default empty_house (front_play (take 3 filling) empty_house).
Definition asking : world := Eval vm_compute in
  match clients (common house_asked) with w :: _ => sync (common house_asked) w | [] => construct 0 0 end.
Definition sent_away : world := Eval vm_compute in
  match clients (common filled) with w :: _ => w | [] => construct 0 0 end.

Lemma sent_away_turned : turned_away sent_away.
Proof.
  exists asking, (str "GET"), false, sent_away, [].
  split_and!; [reflexivity|reflexivity|reflexivity|by right|by apply Z.ltb_lt|reflexivity
              |apply asio_nil|apply Forall_nil; exact I].
Qed.

Definition an_hour : list front_label :=
  [ClientStep 0 (WsConnection.WaitDone timer_ operation_aborted);
   Elapse (seconds 3600);
   AcceptorStep 0 (WsAcceptor.WaitDone call_on_timer_reopen 5000 all_well success)].

Definition filled1 : front := Eval vm_compute in default filled (front_play (take 1 an_hour) filled).
Definition filled2 : front := Eval vm_compute in default filled (front_play (take 2 an_hour) filled).
Definition still_filled : front := Eval vm_compute in default filled (front_play an_hour filled).

Lemma an_hour_steps : silent_steps False filled an_hour still_filled.
Proof.
  apply (silent_cons _ _ _ filled1); [exact I|apply front_fire_step; reflexivity| |].
  { intros j ec [= _ <-] Hne. by destruct Hne. }
  apply (silent_cons _ _ _ filled2); [exact I|apply front_fire_step; reflexivity|discriminate|].
  apply (silent_cons _ _ _ still_filled); [exact I|apply front_fire_step; reflexivity|discriminate|].
  apply silent_nil.
Qed.

Lemma full_house_stays_witness :
  active_count (common still_filled) = active_count (common filled) /\
  Forall lingers (clients (common still_filled)) /\
  Forall waits_to_reopen (acceptors still_filled) /\
  (forall i e1 e2 e3 e4 f2,
     ~ front_step still_filled (AcceptorStep i (WsAcceptor.AcceptDone e1 e2 e3 e4)) f2) /\
  (forall j f2, ~ front_step still_filled (ClientDestroyed j) f2).
Proof.
  apply (full_house_stays (H := info_property_tree) one_group 0 (Info [] []) (acceptors empty_house) (common empty_house)
           filling filled an_hour).
  - reflexivity.
  - apply front_play_steps. reflexivity.
  - by apply Z.leb_le.
  - apply Forall_singleton. exact sent_away_turned.
  - by repeat constructor.
  - exact an_hour_steps.
Defined.
