(* ===== verification/WsListening.v ===== *)
(** * The door of the front server

    When an acceptor of browsers listens: it closes its socket at the hard limit of
    connections, and opens it again below. *)
From S2P Require Import Prelude Message ErrorCode Config InfoTree WsConnection.
From S2P Require Import Acceptor WsAcceptor Front FrontInvariant FrontTheorems FrontFull.

Section listening.
Context `{PropertyTree, AsioNet, AsioErrors, FrontConfig}.

(** Whether a socket with this history listens. *)
Definition listens (tr : list acceptor_event) : bool :=
  match last tr with Some Listening => true | _ => false end.

(** The acceptor in the middle of a handler. *)
Definition ajar (a : acceptor) : Prop :=
  acceptor_pending a = [] /\ acceptor_is_open a = listens (acceptor_trace a).

(** The acceptor between two handlers: one that listens waits for a client, or out the pause
    between two clients. *)
Record door (a : acceptor) : Prop := {
  door_listens : acceptor_is_open a = listens (acceptor_trace a);
  door_pending : exists op, acceptor_pending a = [op] /\
    (acceptor_is_open a = true -> op = Acceptor.AsyncAccept \/ op = Acceptor.AsyncWait call_accept_next 20);
}.

(** A handler that finds [P] leaves the door in order. *)
Definition keeps_door (P : acceptor -> Prop) (m : M exception WsAcceptor unit) : Prop :=
  forall w, ajar (acceptor_ w) -> P (acceptor_ w) ->
  wp m w (fun _ w' => door (acceptor_ w')) (fun _ => True) False.

Lemma keeps_door_start (P : acceptor -> Prop) op :
  (forall a, P a -> acceptor_is_open a = true ->
     op = Acceptor.AsyncAccept \/ op = Acceptor.AsyncWait call_accept_next 20) ->
  keeps_door P (start op).
Proof.
  intros Hop [[g o p tr] s] [Hp Ho] HP. simpl in *. subst p. unfold wp. simpl.
  constructor; simpl; [done|]. exists op. split; [done|]. exact (Hop _ HP).
Qed.

Lemma listens_snoc tr e : listens (tr ++ [e]) = match e with Listening => true | _ => false end.
Proof. unfold listens. by rewrite last_snoc. Qed.

Lemma keeps_door_accept_next c : keeps_door (fun _ => True) (accept_next c).
Proof.
  intros w Ha _. unfold accept_next. apply wp_bind, wp_gets.
  case_decide; [|by apply (keeps_door_start (fun _ => True)); [auto|..]].
  destruct w as [[g o p tr] s]. destruct Ha as [Hp Ho]. simpl in *. subst p.
  unfold close, wp, mbind, M_bind, gets, set_acceptor, modify. simpl.
  destruct (failed c); simpl; [done|].
  constructor; simpl; [by rewrite listens_snoc|]. by eexists.
Qed.

Lemma open_socket_ajar b ep r a ec a' :
  ajar a -> acceptor_is_open a = false -> open_socket b ep r a = (ec, a') ->
  ajar a' /\ (failed ec = true -> acceptor_is_open a' = false).
Proof.
  intros [Hp Ho] Hcl. unfold open_socket.
  repeat case_match; intros [= <- <-]; unfold ajar; simpl; try done; (split; [|congruence || done]);
    (split; [done|]); by rewrite ?(app_assoc _ [_] [_] : _ ++ [_; _] = _), ?listens_snoc.
Qed.

Lemma keeps_door_open r c : keeps_door (fun a => acceptor_is_open a = false) (open r c).
Proof.
  intros w Ha Hcl. unfold open. do 2 apply wp_bind, wp_gets.
  destruct (endpoint_of _ _ _ _) as [e|ep]; [by apply wp_throw|].
  destruct (open_socket _ _ _ _) as [ec a'] eqn:Hos. apply wp_bind. unfold wp at 1. simpl.
  destruct (open_socket_ajar _ _ _ _ _ _ Ha Hcl Hos) as [Ha' Hcl'].
  destruct (failed ec).
  - apply (keeps_door_start (fun a => acceptor_is_open a = false)); [by intros a ->|done|by apply Hcl'].
  - by apply keeps_door_accept_next.
Qed.

Lemma keeps_door_reopen r c : keeps_door (fun a => acceptor_is_open a = false) (on_timer_reopen r c).
Proof.
  intros w Ha Hcl. unfold on_timer_reopen. apply wp_bind, wp_gets. case_decide.
  - apply (keeps_door_start (fun a => acceptor_is_open a = false)); [by intros a ->|done..].
  - by apply keeps_door_open.
Qed.

Lemma keeps_door_on_accept e1 e2 e3 c : keeps_door (fun _ => True) (on_accept e1 e2 e3 c).
Proof.
  intros w Ha _. unfold on_accept. apply wp_bind.
  assert (forall w', acceptor_ w' = acceptor_ w ->
    wp (n ← count; if decide (connection_limit_hard ÷ 2 < n) then start (AsyncWait call_accept_next 20)
        else accept_next c) w' (fun _ w'' => door (acceptor_ w'')) (fun _ => True) False) as Hrest.
  { intros w' Heq. apply wp_bind, wp_gets. rewrite <- Heq in Ha. case_decide.
    - by apply (keeps_door_start (fun _ => True)); [auto|..].
    - by apply keeps_door_accept_next. }
  destruct (failed e1); [by apply wp_ret, Hrest|].
  destruct (failed e2); [by apply wp_throw|]. destruct (failed e3); [by apply wp_throw|].
  destruct (make_client_spec w) as (client & _ & Hc). unfold wp at 1. rewrite Hc. by apply Hrest.
Qed.

(** What a label does to the door. *)
Lemma fire_door l w w' :
  door (acceptor_ w) -> WsAcceptor.enabled l (acceptor_ w) -> WsAcceptor.fire l w = Ok tt w' ->
  door (acceptor_ w').
Proof.
  intros [Hl (op & Hp & Hop)] Hen Hfire. unfold WsAcceptor.enabled in Hen. rewrite Hp in Hen.
  apply list_elem_of_singleton in Hen as <-. destruct w as [[g o p tr] s]. simpl in *. subst p.
  assert (forall P (m : M exception WsAcceptor unit), keeps_door P m ->
    P (mkAcceptor g o [] tr) -> m (mkWsAcceptor (mkAcceptor g o [] tr) s) = Ok tt w' ->
    door (acceptor_ w')) as Hrun.
  { intros P m Hm HP Hok. specialize (Hm (mkWsAcceptor (mkAcceptor g o [] tr) s)). unfold wp in Hm.
    rewrite Hok in Hm. by apply Hm. }
  unfold WsAcceptor.fire, mbind, M_bind, gets, set_acceptor, modify in Hfire. simpl in Hfire.
  rewrite decide_True in Hfire by done.
  destruct l as [e1 e2 e3 c|k d r c]; simpl in *.
  - by eapply Hrun; [apply keeps_door_on_accept| |].
  - assert (k <> call_accept_next -> o = false) as Ho.
    { destruct o; [|done]. intros Hk. by destruct (Hop eq_refl) as [|[= ->]]. }
    destruct k; (eapply Hrun; [| |exact Hfire]);
      [apply keeps_door_open|by apply Ho|apply keeps_door_accept_next|done
      |apply keeps_door_reopen|by apply Ho].
Qed.

Lemma run_acceptors_doors gs s l s' : run_acceptors gs s = Ok l s' -> Forall door l.
Proof.
  revert s l s'. induction gs as [|[[g r] c] gs IH]; intros s l s'; simpl.
  { by intros [= <- _]. }
  unfold mbind, M_bind, run_acceptor.
  pose proof (keeps_door_open r c (mkWsAcceptor (new_acceptor g) s)) as Hopen.
  unfold wp in Hopen. unfold WsAcceptor.run.
  destruct (open r c _) as [[] w| |]; try done. destruct (run_acceptors gs _) as [l1 s1| |] eqn:Hrun; try done.
  intros [= <- _]. constructor; [by apply Hopen|by eapply IH].
Qed.

Lemma doors_steps f ls f' : front_steps f ls f' -> Forall door (acceptors f) -> Forall door (acceptors f').
Proof.
  induction 1 as [f|f l f1 ls f2 Hstep _ IH]; [done|]. intros Hd. apply IH.
  destruct Hstep as [f i l a w' Hi Hen Hfire| | |]; try done. simpl. apply Forall_insert; [done|].
  rewrite Forall_lookup in Hd. eapply (fire_door l (mkWsAcceptor a (common f))); [|exact Hen|exact Hfire].
  by apply (Hd i).
Qed.
(** The pause between two clients. *)
Definition pauses (a : acceptor) : Prop :=
  acceptor_pending a = [Acceptor.AsyncWait call_accept_next 20].

(** The calls of an [open] that succeeds. *)
Definition opens_well (r : open_answers) : Prop :=
  failed (open_ec r) = false /\ failed (bind_ec r) = false /\ failed (listen_ec r) = false.

Ltac run_handler :=
  repeat (unfold WsAcceptor.fire, on_timer_reopen, open, accept_next, count, close, WsAcceptor.start,
            mbind, M_bind, gets, set_acceptor, modify; simpl).

Lemma waiting_enabled lab a :
  acceptor_pending a = [WsAcceptor.completes lab] -> WsAcceptor.enabled lab a.
Proof. unfold WsAcceptor.enabled. intros ->. by left. Qed.

Lemma pause_full a s r c :
  pauses a -> connection_limit_hard <= active_count s -> failed c = false ->
  WsAcceptor.fire (WsAcceptor.WaitDone call_accept_next 20 r c) (mkWsAcceptor a s) =
  Ok tt (mkWsAcceptor (mkAcceptor (group a) false [Acceptor.AsyncWait call_on_timer_reopen 5000]
                         (acceptor_trace a ++ [Closed])) s).
Proof.
  destruct a as [g o p tr]. unfold pauses. simpl. intros -> Hfull Hc. run_handler.
  rewrite decide_True by done. run_handler. by rewrite Hc.
Qed.

Lemma reopen_free a s r c address port :
  waits_to_reopen a -> active_count s < connection_limit_hard -> opens_well r ->
  endpoint_of (front_tree s) (group a) default_listen_ip default_listen_port = inr (address, port) ->
  config_bool (front_tree s) (group a) "reuse_addr" false = false ->
  WsAcceptor.fire (WsAcceptor.WaitDone call_on_timer_reopen 5000 r c) (mkWsAcceptor a s) =
  Ok tt (mkWsAcceptor (mkAcceptor (group a) true [Acceptor.AsyncAccept]
                         (acceptor_trace a ++ [Bound address port; Listening])) s).
Proof.
  destruct a as [g o p tr]. unfold waits_to_reopen. simpl. intros -> Hfree (Ho & Hb & Hl) Hep Hre.
  run_handler. rewrite decide_False by lia. run_handler. rewrite Hep, Hre.
  unfold open_socket. rewrite Ho, Hb, Hl. simpl. rewrite Hl. run_handler.
  by rewrite decide_False by lia.
Qed.

(** C30: the door of the front server closes when it is full, and opens again. Whatever has
    happened, an acceptor that listens waits for a client or out the pause between two
    clients, and one that waits to open again does not listen. When the limit is reached,
    the end of the pause closes its socket; when it is not any more, the calls of the system
    succeed, and the configuration does not ask for [reuse_addr] - an option that cannot be
    set on an acceptor that is not open -, the end of the wait binds and listens again, at
    the address the configuration then has, and the acceptor waits for a client. *)
Theorem door_reopens gs now t l s ls f i a :
  run_acceptors gs (no_client now t) = Ok l s -> front_steps (mkFront l s) ls f ->
  acceptors f !! i = Some a ->
  (acceptor_is_open a = true -> acceptor_pending a = [Acceptor.AsyncAccept] \/ pauses a) /\
  (waits_to_reopen a -> acceptor_is_open a = false) /\
  (pauses a -> connection_limit_hard <= active_count (common f) -> forall r c, failed c = false ->
    exists f' a', front_step f (AcceptorStep i (WsAcceptor.WaitDone call_accept_next 20 r c)) f' /\
      acceptors f' !! i = Some a' /\ common f' = common f /\ waits_to_reopen a' /\
      acceptor_trace a' = acceptor_trace a ++ [Closed]) /\
  (waits_to_reopen a -> active_count (common f) < connection_limit_hard ->
    forall r c address port, opens_well r ->
    endpoint_of (front_tree (common f)) (group a) default_listen_ip default_listen_port = inr (address, port) ->
    config_bool (front_tree (common f)) (group a) "reuse_addr" false = false ->
    exists f' a', front_step f (AcceptorStep i (WsAcceptor.WaitDone call_on_timer_reopen 5000 r c)) f' /\
      acceptors f' !! i = Some a' /\ common f' = common f /\ acceptor_is_open a' = true /\
      acceptor_pending a' = [Acceptor.AsyncAccept] /\
      acceptor_trace a' = acceptor_trace a ++ [Bound address port; Listening]).
Proof.
  intros Hrun Hsteps Hi. pose proof (doors_steps _ _ _ Hsteps (run_acceptors_doors _ _ _ _ Hrun)) as Hd.
  rewrite Forall_lookup in Hd. destruct (Hd i a Hi) as [_ (op & Hp & Hop)].
  assert (forall lab b, WsAcceptor.enabled lab a ->
    WsAcceptor.fire lab (mkWsAcceptor a (common f)) = Ok tt (mkWsAcceptor b (common f)) ->
    front_step f (AcceptorStep i lab) (mkFront (<[i := b]> (acceptors f)) (common f)) /\
    <[i := b]> (acceptors f) !! i = Some b) as Hstep.
  { intros lab b Hen Hfire. split; [by apply (acceptor_step f i lab a (mkWsAcceptor b (common f)))|].
    apply list_lookup_insert_eq. by eapply lookup_lt_Some. }
  split_and!.
  - intros Ho. unfold pauses. rewrite Hp. destruct (Hop Ho) as [->| ->]; auto.
  - unfold waits_to_reopen. rewrite Hp. intros [= ->].
    destruct (acceptor_is_open a); [|done]. by destruct (Hop eq_refl).
  - intros Hpause Hfull r c Hc. do 2 eexists.
    destruct (Hstep _ _ (waiting_enabled (WsAcceptor.WaitDone call_accept_next 20 r c) _ Hpause) (pause_full a _ r c Hpause Hfull Hc)).
    by split_and!.
  - intros Hw Hfree r c address port Hr Hep Hre. do 2 eexists.
    destruct (Hstep _ _ (waiting_enabled (WsAcceptor.WaitDone call_on_timer_reopen 5000 r c) _ Hw) (reopen_free a _ r c address port Hw Hfree Hr Hep Hre)).
    by split_and!.
Qed.
End listening.

(** ** Witness

    A limit of one client, which comes, fills the house, fails its handshake and is gone. *)

#[local] Existing Instance any_address.
#[local] Existing Instance linux_errors.
#[local] Existing Instance tiny_config.

Definition one_leaves : list front_label :=
  [AcceptorStep 0 client_comes;
   AcceptorStep 0 (WsAcceptor.WaitDone call_accept_next 20 all_well success);
   ClientStep 0 (HandshakeDone operation_aborted);
   ClientStep 0 (WsConnection.WaitDone timer_ operation_aborted);
   ClientDestroyed 0].

Definition free_again : front := Eval vm_compute in default empty_house (front_play one_leaves empty_house).

Definition closed_door : acceptor := Eval vm_compute in
  default (new_acceptor (mkConfigGroup [])) (acceptors free_again !! 0%nat).

Lemma door_reopens_witness :
  waits_to_reopen closed_door /\ active_count (common free_again) = 0 /\
  exists f' a', front_step free_again
      (AcceptorStep 0 (WsAcceptor.WaitDone call_on_timer_reopen 5000 all_well success)) f' /\
    acceptors f' !! 0%nat = Some a' /\ common f' = common free_again /\ acceptor_is_open a' = true /\
    acceptor_pending a' = [Acceptor.AsyncAccept] /\
    acceptor_trace a' = acceptor_trace closed_door ++ [Bound (str "0.0.0.0") 7011; Listening].
Proof.
  split_and!; [reflexivity..|].
  refine (proj2 (proj2 (proj2 (door_reopens (H := info_property_tree) one_group 0 (Info [] [])
            (acceptors empty_house) (common empty_house) one_leaves free_again 0 closed_door
            _ _ _))) _ _ all_well success (str "0.0.0.0") 7011 _ _ _);
    try reflexivity.
  - apply front_play_steps. reflexivity.
  - by repeat split.
Defined.
