(* ===== verification/FrontRefinement.v ===== *)
(** * The connections of a front server are connections

    What a connection of the process has gone through is a run of [WsConnection], in which
    the rest of the process is what happens elsewhere: so what holds of every run of a
    connection holds of the connections of the process. *)
From S2P Require Import Front.
From S2P Require Import Prelude Message MessageQueue ErrorCode Config InfoTree WsConnection WsInvariant WsLife WsClock WsSend WsSafe.

(** ** A connection that has gone through a run *)

Section ran.
Context `{AsioErrors} `{FrontConfig}.

Definition ran (w : world) : Prop :=
  exists time count w0 ls, run (construct time count) = Ok tt w0 /\ steps w0 ls w.

Lemma ran_step l w w' : ran w -> enabled l w -> fire l w = Ok tt w' -> ran w'.
Proof.
  intros (time & count & w0 & ls & Hrun & Hsteps) Hen Hfire.
  exists time, count, w0, (ls ++ [l]). split; [done|]. by eapply steps_snoc.
Qed.

Lemma ran_start time count w : run (construct time count) = Ok tt w -> ran w /\ now w = time.
Proof.
  intros Hrun. split; [|by injection Hrun as <-].
  exists time, count, w, []. split; [done|apply steps_nil].
Qed.
End ran.

(** ** Runs of the process *)

From S2P Require Import Acceptor WsAcceptor Front FrontInvariant FrontTheorems FrontFull.

Section refinement.
Context `{PropertyTree, AsioNet, AsioErrors, FrontConfig}.

(** The time and the count of the process are what happens elsewhere. *)
Lemma sync_elsewhere s w :
  now w <= clock s ->
  WsConnection.fire (Elsewhere (clock s) (active_count s)) w = Ok tt (sync s w).
Proof.
  intros Hle. unfold WsConnection.fire, mbind, M_bind, sync. simpl.
  unfold modify. by rewrite Z.max_r.
Qed.

Lemma ran_sync s w : now w <= clock s -> ran w -> ran (sync s w).
Proof. intros Hle Hw. by apply (ran_step (Elsewhere (clock s) (active_count s)) w _ Hw I), sync_elsewhere. Qed.

(** A connection that has gone through a run, and is not ahead of the clock. *)
Definition ran_at (t : Z) (w : WsConnection.world) : Prop := ran w /\ now w <= t.

Lemma ran_at_fire l s w w' :
  own l = true -> WsConnection.enabled l w -> WsConnection.fire l (sync s w) = Ok tt w' ->
  ran_at (clock s) w -> ran_at (clock s) w'.
Proof.
  intros Hown Hen Hfire [Hran Hle]. split.
  - eapply (ran_step l (sync s w)); [by apply ran_sync|exact Hen|exact Hfire].
  - rewrite (fire_now l _ _ Hown Hfire). simpl. lia.
Qed.

Lemma ran_at_steps n most f ls f' :
  connection_limit_hard + Z.of_nat n - 1 <= most -> front_steps f ls f' -> front_inv most n f ->
  all_clients ran_at (common f) -> all_clients ran_at (common f').
Proof.
  intros Hmost. induction 1 as [f|f l f1 ls f2 Hstep _ IH]; [done|]. intros Hinv Hall.
  apply IH; [by eapply front_step_inv|]. eapply clients_step; [| | |apply Hinv|exact Hstep|exact Hall].
  - intros time k w Hrun. destruct (ran_start _ _ _ Hrun) as [Hran Hnow]. split; [done|lia].
  - intros t t' w Hle [Hran Hnow]. split; [done|lia].
  - intros l0 s w w'. apply ran_at_fire.
Qed.

(** C23: the connections of the front server behave as connections do. Whatever the order of
    the handlers of the acceptors and of all connections: what each connection that lives
    has gone through, as its next handler finds it, is a run of a connection from its
    start, in which the other connections and the clock are what happens elsewhere. So what
    is true of every run of one connection is true of all of them together; in particular,
    with a timeout and a limit of messages that leave room in an [int], any handler of any
    connection that can run runs to its end. *)
Theorem connections_are_runs gs now0 t l s ls f j w :
  run_acceptors gs (no_client now0 t) = Ok l s -> front_steps (mkFront l s) ls f ->
  clients (common f) !! j = Some w ->
  (exists time count w0 ls', WsConnection.run (construct time count) = Ok tt w0 /\
     WsConnection.steps w0 ls' (sync (common f) w)) /\
  (- 2 ^ 31 <= ws_timeout + 5 <= int_max -> rate_limit_messages < int_max ->
   forall l, own l = true -> WsConnection.enabled l w -> ~ unreferenced w ->
     exists f', front_step f (ClientStep j l) f').
Proof.
  intros Hrun Hsteps Hj. pose proof (started_inv _ _ _ _ _ Hrun) as Hinv.
  assert (all_clients ran_at s) as Hall.
  { destruct (run_acceptors_inv _ _ _ _ Hrun) as (-> & _ & _). by apply Forall_nil. }
  pose proof (ran_at_steps _ _ _ _ _ ltac:(apply Z.le_max_r) Hsteps Hinv Hall) as Hf.
  unfold all_clients in Hf. rewrite Forall_lookup in Hf. destruct (Hf j w Hj) as [Hran Hle].
  apply (ran_sync (common f)) in Hran; [|done]. split; [exact Hran|].
  intros Htimeout Hmessages l' Hown Hen Href. destruct Hran as (time & count & w0 & ls' & Hrun0 & Hsteps0).
  assert (exists w', WsConnection.fire l' (sync (common f) w) = Ok tt w') as [w' Hw'].
  { apply (run_fires (Z.max 0 rate_limit_messages)) with (time := time) (count := count) (w0 := w0) (ls := ls');
      [unfold int_max in *; lia|constructor; [done|lia]|done..]. }
  eexists. by eapply client_step.
Qed.
End refinement.

(** ** Witness: the client that was refused. *)

#[local] Existing Instance any_address.
#[local] Existing Instance linux_errors.
#[local] Existing Instance tiny_config.

Definition refused_client : world := Eval vm_compute in
  default (construct 0 0) (clients (common filled) !! 0%nat).

Lemma connections_are_runs_witness :
  (exists time count w0 ls', WsConnection.run (construct time count) = Ok tt w0 /\
     WsConnection.steps w0 ls' (sync (common filled) refused_client)) /\
  (- 2 ^ 31 <= ws_timeout + 5 <= int_max -> rate_limit_messages < int_max ->
   forall l, own l = true -> WsConnection.enabled l refused_client -> ~ unreferenced refused_client ->
     exists f', front_step filled (ClientStep 0 l) f').
Proof.
  apply (connections_are_runs (H := info_property_tree) one_group 0 (Info [] []) (acceptors empty_house)
           (common empty_house) filling filled 0 refused_client).
  - reflexivity.
  - apply front_play_steps. reflexivity.
  - reflexivity.
Defined.
