(* ===== verification/ClusterWatcher.v ===== *)
(** * The watcher of a peer

    [server/common/src/cluster/ClusterWatcher.cpp]: connects to a peer, and looks every
    thirty seconds whether to connect again. *)
From S2P Require Import Prelude Message ErrorCode ClusterConnection.

Section watcher.
Context `{AsioErrors}.

Inductive watcher_op := AsyncConnect | AsyncTimer (seconds : Z).

Record ClusterWatcher := mkClusterWatcher {
  safe_link_ : bool;
  watcher_pending : list watcher_op;
  (** the connections it has made, oldest first *)
  links : list world;
  (** the weak pointer: the connection at this place, or none yet *)
  connection_ : option nat;
}.

Inductive watcher_exception :=
| ThrownError (ec : error_code)
| LinkFault (f : fault).

Abbreviation W := (M watcher_exception ClusterWatcher).

Definition start (op : watcher_op) : W unit :=
  modify (fun w => mkClusterWatcher (safe_link_ w) (watcher_pending w ++ [op]) (links w) (connection_ w)).

Definition try_connect : W unit := start AsyncConnect.

Definition run : W unit := try_connect.

Definition wait (delay : Z) : W unit := start (AsyncTimer delay).

(** Nothing refers to the connection any more: every pending handler and posted task holds
    a reference. *)
Definition unreferenced (w : world) : Prop := pending w = [] /\ posted w = [].

#[export] Instance unreferenced_dec w : Decision (unreferenced w).
Proof.
  unfold unreferenced. destruct (pending w), (posted w);
    first [by left | by right; intros []].
Defined.

(** [connection_.expired()] *)
Definition expired (w : ClusterWatcher) : bool :=
  match connection_ w with
  | Some i => match links w !! i with Some link => bool_decide (unreferenced link) | None => true end
  | None => true
  end.

(** [std::make_shared<ClusterConnection>(...)], which is [fresh], its [run], and
    [connection_ = client]. *)
Definition make_link (fresh : world) : W unit :=
  safe_link ← gets safe_link_;
  match ClusterConnection.run client safe_link fresh with
  | Ok _ link =>
      modify (fun w => mkClusterWatcher (safe_link_ w) (watcher_pending w) (links w ++ [link])
                         (Some (length (links w))))
  | Err f => throw (LinkFault f)
  | Fuel => diverge
  end.

(** [endpoint_ec]: how [remote_endpoint()] ends, in the log line. [junk_safe_link] and
    [junk_len] are what the fields that the constructor leaves out hold. *)
Definition on_connect (ec endpoint_ec : error_code) (junk_safe_link : bool) (junk_len : bytes) : W unit :=
  (if failed ec then mret tt
   else if failed endpoint_ec then throw (ThrownError endpoint_ec)
   else make_link (construct junk_safe_link junk_len));;
  wait 30.

Definition on_timer (ec : error_code) : W unit :=
  if decide (ec = operation_aborted) then mret tt
  else
    gone ← gets expired;
    if (gone : bool) then try_connect else wait 30.

(** ** What the environment does: completions, and what happens to the connections. *)
Inductive watcher_label :=
| ConnectDone (ec endpoint_ec : error_code) (junk_safe_link : bool) (junk_len : bytes)
| TimerDone (ec : error_code)
| LinkStep (i : nat) (l : label).

Inductive watcher_step : ClusterWatcher -> watcher_label -> ClusterWatcher -> Prop :=
| connect_done w ops ec endpoint_ec b len w' :
    watcher_pending w = AsyncConnect :: ops ->
    on_connect ec endpoint_ec b len (mkClusterWatcher (safe_link_ w) ops (links w) (connection_ w))
    = Ok tt w' ->
    watcher_step w (ConnectDone ec endpoint_ec b len) w'
| timer_done w ops delay ec w' :
    watcher_pending w = AsyncTimer delay :: ops ->
    on_timer ec (mkClusterWatcher (safe_link_ w) ops (links w) (connection_ w)) = Ok tt w' ->
    watcher_step w (TimerDone ec) w'
| link_step w i l link link' :
    links w !! i = Some link -> ~ unreferenced link -> enabled l link ->
    fire l link = Ok tt link' ->
    watcher_step w (LinkStep i l)
      (mkClusterWatcher (safe_link_ w) (watcher_pending w) (<[i := link']> (links w)) (connection_ w)).

Inductive watcher_steps : ClusterWatcher -> list watcher_label -> ClusterWatcher -> Prop :=
| watcher_steps_nil w : watcher_steps w [] w
| watcher_steps_cons w l w1 ls w2 :
    watcher_step w l w1 -> watcher_steps w1 ls w2 -> watcher_steps w (l :: ls) w2.

(** The constructor. *)
Definition new_watcher (safe_link : bool) : ClusterWatcher := mkClusterWatcher safe_link [] [] None.

(** ** One link at a time *)

(** The watcher has one operation pending at most, the only link that may live is the one
    the weak pointer is at, and none does while it connects. *)
Record watcher_inv (w : ClusterWatcher) : Prop := {
  one_op : (length (watcher_pending w) <= 1)%nat;
  last_link : forall i link, links w !! i = Some link -> ~ unreferenced link -> connection_ w = Some i;
  no_link : watcher_pending w = [AsyncConnect] -> Forall unreferenced (links w);
}.

Lemma expired_spec w :
  watcher_inv w -> expired w = true -> Forall unreferenced (links w).
Proof.
  intros [_ Hlast _] Hex. apply Forall_lookup. intros i link Hi.
  destruct (decide (unreferenced link)) as [|Hn]; [done|].
  unfold expired in Hex. rewrite (Hlast i link Hi Hn), Hi in Hex. by apply bool_decide_eq_true in Hex.
Qed.

Lemma make_link_spec fresh w :
  exists link, make_link fresh w = Ok tt
    (mkClusterWatcher (safe_link_ w) (watcher_pending w) (links w ++ [link]) (Some (length (links w)))).
Proof.
  unfold make_link, mbind, M_bind, gets. unfold ClusterConnection.run, mbind, M_bind, gets. simpl.
  destruct (socket_open fresh); simpl; by eexists.
Qed.

Lemma on_connect_inv ec e b len w :
  watcher_pending w = [] -> Forall unreferenced (links w) -> watcher_inv w ->
  wp (on_connect ec e b len) w (fun _ w' => watcher_inv w') (fun _ => True) False.
Proof.
  intros Hp Hun [Hone Hlast _]. unfold on_connect. apply wp_bind. destruct (failed ec).
  { apply wp_ret. constructor; simpl; rewrite ?Hp; [done|done|done]. }
  destruct (failed e); [by apply wp_throw|].
  destruct (make_link_spec (construct b len) w) as [link Hlink]. unfold wp at 1. rewrite Hlink.
  constructor; simpl; rewrite ?Hp; [done| |done].
  intros i link' Hi Hn. apply lookup_app_Some in Hi as [Hi|[Hle Hi]].
  - rewrite Forall_lookup in Hun. by destruct (Hn (Hun i link' Hi)).
  - apply lookup_lt_Some in Hi as Hlt. simpl in Hlt. f_equal. lia.
Qed.

Lemma single_op w op ops : watcher_inv w -> watcher_pending w = op :: ops -> ops = [].
Proof. intros [Hone _ _] Hp. rewrite Hp in Hone. destruct ops; [done|simpl in Hone; lia]. Qed.

Lemma watcher_step_inv w l w' : watcher_step w l w' -> watcher_inv w -> watcher_inv w'.
Proof.
  intros Hstep Hinv. destruct Hstep as [w ops ec e b len w' Hp Hrun|w ops d ec w' Hp Hrun|w i l link link' Hi Hn _ _].
  - pose proof (single_op w _ ops Hinv Hp) as ->.
    set (w0 := mkClusterWatcher _ _ _ _) in Hrun.
    pose proof (on_connect_inv ec e b len w0 eq_refl) as Hwp. unfold wp in Hwp. rewrite Hrun in Hwp.
    apply Hwp; [by apply (no_link _ Hinv)|]. destruct Hinv. constructor; simpl; [lia|done|done].
  - pose proof (single_op w _ ops Hinv Hp) as ->.
    unfold on_timer, mbind, M_bind, gets in Hrun. pose proof Hinv as [Hone Hlast Hno].
    case_decide; [injection Hrun as <-; constructor; simpl; [lia|exact Hlast|done]|].
    destruct (expired _) eqn:Hex; injection Hrun as <-; constructor; simpl; try done.
    intros _. by apply (expired_spec w).
  - destruct Hinv as [Hone Hlast Hno]. constructor; simpl; [done| |].
    + intros j link1. destruct (decide (i = j)) as [<-|Hne].
      * intros _ _. by apply (Hlast i link).
      * rewrite list_lookup_insert_ne by done. apply Hlast.
    + intros Hp. specialize (Hno Hp). rewrite Forall_lookup in Hno. by destruct (Hn (Hno i link Hi)).
Qed.

Lemma watcher_steps_inv w ls w' : watcher_steps w ls w' -> watcher_inv w -> watcher_inv w'.
Proof. induction 1; eauto using watcher_step_inv. Qed.

(** C40: a watcher holds one link at a time. Whatever becomes of its attempts, its timer and
    its connections, at most one of the connections it has made is still referred to, and
    none is while it connects; and it never has more than one operation pending. *)
Theorem one_link_at_a_time safe_link w0 ls w :
  run (new_watcher safe_link) = Ok tt w0 -> watcher_steps w0 ls w ->
  (forall i j link link', links w !! i = Some link -> links w !! j = Some link' ->
     ~ unreferenced link -> ~ unreferenced link' -> i = j) /\
  (watcher_pending w = [AsyncConnect] -> Forall unreferenced (links w)) /\
  (length (watcher_pending w) <= 1)%nat.
Proof.
  intros [= <-] Hsteps. apply watcher_steps_inv in Hsteps as [Hone Hlast Hno].
  - split_and!; [|done|done]. intros i j link link' Hi Hj Hn Hn'.
    pose proof (Hlast i link Hi Hn). pose proof (Hlast j link' Hj Hn'). congruence.
  - constructor; simpl; [lia|done|done].
Qed.
End watcher.

(** ** Witness: the first attempt succeeds; the watcher then waits. *)

#[local] Existing Instance linux_errors.

Definition first_link : world :=
  match ClusterConnection.run client true (construct false []) with
  | Ok _ w => w
  | _ => construct false []
  end.

Definition linked : ClusterWatcher := mkClusterWatcher true [AsyncTimer 30] [first_link] (Some 0%nat).

Lemma one_link_at_a_time_witness :
  (forall i j link link', links linked !! i = Some link -> links linked !! j = Some link' ->
     ~ unreferenced link -> ~ unreferenced link' -> i = j) /\
  (watcher_pending linked = [AsyncConnect] -> Forall unreferenced (links linked)) /\
  (length (watcher_pending linked) <= 1)%nat.
Proof.
  refine (one_link_at_a_time true (mkClusterWatcher true [AsyncConnect] [] None)
            [ConnectDone success success false []] linked eq_refl _).
  eapply watcher_steps_cons; [|apply watcher_steps_nil].
  apply (connect_done _ []); reflexivity.
Defined.
