(* ===== verification/AcceptorTheorems.v ===== *)
(** * What an acceptor does when it is opened

    The acceptor of the cluster, when every call succeeds, when the address cannot be
    bound, and when addresses are to be reused. *)
From S2P Require Import Prelude Message ErrorCode Config InfoTree ClusterConnection Acceptor ClusterAcceptor.

Section open.
Context `{PropertyTree, AsioNet, AsioErrors}.

(** The group of [w], in its tree. *)
Definition reuse_addr (w : ClusterAcceptor) : bool :=
  config_bool (config_tree_ w) (group (acceptor_ w)) "reuse_addr" false.

Definition endpoint (w : ClusterAcceptor) : exception + (ip_address * Z) :=
  endpoint_of (config_tree_ w) (group (acceptor_ w)) default_listen_ip default_listen_port.

Lemma open_eq r w :
  open r w =
  match endpoint w with
  | inl e => Err e
  | inr ep =>
      let '(ec, a') := open_socket (reuse_addr w) ep r (acceptor_ w) in
      Ok tt (mkClusterAcceptor
               (with_op (if failed ec then AsyncWait call_open 10000 else AsyncAccept) a')
               (config_bool (config_tree_ w) (group (acceptor_ w)) "safe_link" false)
               (peers w) (config_tree_ w))
  end.
Proof.
  unfold open, mbind, M_bind, gets. fold (endpoint w). simpl. unfold endpoint.
  destruct (endpoint_of _ _ _ _) as [e|ep]; [done|]. unfold reuse_addr.
  destruct (open_socket _ _ _ _) as [ec a']. simpl. by destruct (failed ec).
Qed.

(** ** Every call succeeds *)

(** A connection that has been run as a server: it waits for the TLS handshake. *)
Definition handshaking (safe_link junk_safe_link : bool) (junk_len : bytes) : world :=
  mkWorld
    (mkClusterConnection false false true safe_link false MessageQueue.new_queue Message_empty
       junk_len 0 [])
    true [] [AsyncHandshake server] [SetVerifyPeer; Started (AsyncHandshake server)].

(** An acceptor that opens takes in every peer that comes. When the calls succeed it is
    bound to the address and the port of its group - the port cut to sixteen bits - and
    waits for a peer; each peer that comes becomes one connection, with the [safe_link] of
    the group, that waits for its TLS handshake, and the acceptor waits for the next; a
    failed accept changes nothing; and a peer that is gone before its address is written to
    the log ends the process with an exception. *)
Theorem listens_and_accepts r w address port :
  endpoint w = inr (address, port) -> reuse_addr w = false ->
  failed (open_ec r) = false -> failed (bind_ec r) = false -> failed (listen_ec r) = false ->
  acceptor_pending (acceptor_ w) = [] ->
  let safe_link := config_bool (config_tree_ w) (group (acceptor_ w)) "safe_link" false in
  exists w1, open r w = Ok tt w1 /\
    port = uint16 (config_int (config_tree_ w) (group (acceptor_ w)) "port" default_listen_port) /\
    acceptor_is_open (acceptor_ w1) = true /\
    acceptor_trace (acceptor_ w1) = acceptor_trace (acceptor_ w) ++ [Bound address port; Listening] /\
    acceptor_pending (acceptor_ w1) = [AsyncAccept] /\
    forall ec endpoint_ec b len,
      fire (AcceptDone ec endpoint_ec b len) w1 =
      (if failed ec then Ok tt w1
       else if failed endpoint_ec then Err (SystemError endpoint_ec)
       else Ok tt (mkClusterAcceptor (acceptor_ w1) safe_link
                     (peers w1 ++ [handshaking safe_link b len]) (config_tree_ w1))).
Proof.
  intros Hep Hre Ho Hb Hl Hp safe_link. rewrite open_eq, Hep, Hre.
  assert (port = uint16 (config_int (config_tree_ w) (group (acceptor_ w)) "port" default_listen_port)) as Hport.
  { unfold endpoint, endpoint_of in Hep. destruct (make_address _); [|done]. by injection Hep. }
  unfold open_socket. rewrite Ho, Hb, Hl. simpl. rewrite Hl.
  destruct w as [[g o p t] s ps tree]. simpl in *. subst p.
  eexists. split; [reflexivity|]. split_and!; try done.
  intros ec e b len. unfold fire, mbind, M_bind, gets. simpl. unfold on_accept, mbind, M_bind.
  destruct (failed ec); [done|]. destruct (failed e); [done|].
  unfold make_peer, mbind, M_bind, gets. simpl.
  unfold ClusterConnection.run, mbind, M_bind, gets. reflexivity.
Qed.

(** ** The address cannot be bound *)

(** Not open, and waiting for a peer. *)
Definition spinning (w : ClusterAcceptor) : Prop :=
  acceptor_is_open (acceptor_ w) = false /\ acceptor_pending (acceptor_ w) = [AsyncAccept].

Lemma spinning_step l w w1 :
  spinning w -> enabled l w -> lawful l w -> fire l w = Ok tt w1 -> w1 = w.
Proof.
  intros [Ho Hp] Hen Hlaw Hfire. unfold enabled in Hen. rewrite Hp in Hen.
  apply list_elem_of_singleton in Hen. destruct l as [ec e b len|r]; [|done].
  specialize (Hlaw Ho). destruct w as [[g o p t] s ps tree]. simpl in *. subst.
  unfold fire, mbind, M_bind, gets in Hfire. simpl in Hfire.
  unfold on_accept, mbind, M_bind in Hfire. rewrite Hlaw in Hfire.
  by injection Hfire as <-.
Qed.

Lemma spinning_steps w ls w1 : steps w ls w1 -> spinning w -> w1 = w.
Proof.
  induction 1 as [|w l w1 ls w2 Hen Hlaw Hfire _ IH]; [done|]. intros Hs.
  pose proof (spinning_step l w w1 Hs Hen Hlaw Hfire) as ->. by apply IH.
Qed.

(** An acceptor that cannot bind its address spins. When [bind] or [listen] fails, the
    [close] that follows overwrites the error with its own success: instead of trying again
    in ten seconds, the acceptor waits for peers on a socket that is closed. Every such wait
    fails at once and starts the next, and nothing else ever happens: no timer, no peer,
    until the process ends. *)
Theorem failed_bind_spins r w w1 ls w2 :
  acceptor_is_open (acceptor_ w) = false -> acceptor_pending (acceptor_ w) = [] ->
  reuse_addr w = false -> lawful_open r (acceptor_ w) ->
  failed (open_ec r) = false -> (failed (bind_ec r) = true \/ failed (listen_ec r) = true) ->
  open r w = Ok tt w1 -> steps w1 ls w2 ->
  w2 = w1 /\ acceptor_is_open (acceptor_ w1) = false /\
  acceptor_pending (acceptor_ w1) = [AsyncAccept] /\ peers w1 = peers w /\
  forall ec endpoint_ec b len, failed ec = true ->
    steps w2 [AcceptDone ec endpoint_ec b len] w1.
Proof.
  intros Ho Hp Hre (_ & _ & Hclose) Hopen Hfail Hrun Hsteps.
  assert (spinning w1 /\ peers w1 = peers w) as [Hs Hpeers].
  { rewrite open_eq, Hre in Hrun. destruct (endpoint w) as [|ep]; [done|].
    unfold open_socket in Hrun. rewrite Hopen in Hrun. simpl in Hrun.
    destruct (failed (bind_ec r)); [|destruct Hfail as [|Hl]; [done|rewrite Hl in Hrun]];
      rewrite Hclose in Hrun; injection Hrun as <-; unfold spinning; simpl; by rewrite Hp. }
  pose proof (spinning_steps _ _ _ Hsteps Hs) as ->. destruct Hs as [Hs1 Hs2].
  split_and!; try done. intros ec e b len Hec. eapply steps_cons; [| | |apply steps_nil].
  - unfold enabled. rewrite Hs2. by left.
  - by intros _.
  - destruct w1 as [[g o p t] s ps tree]. simpl in *. subst.
    unfold fire, mbind, M_bind, gets. simpl. unfold on_accept, mbind, M_bind. by rewrite Hec.
Qed.

(** ** Addresses are to be reused *)

(** Waiting to open again, with nothing done. *)
Definition never_opened (w : ClusterAcceptor) : Prop :=
  acceptor_is_open (acceptor_ w) = false /\ acceptor_pending (acceptor_ w) = [AsyncWait call_open 10000] /\
  acceptor_trace (acceptor_ w) = [] /\ peers w = [] /\ reuse_addr w = true.

Lemma reuse_open r w w1 :
  acceptor_is_open (acceptor_ w) = false -> acceptor_pending (acceptor_ w) = [] ->
  acceptor_trace (acceptor_ w) = [] -> peers w = [] -> reuse_addr w = true ->
  lawful_open r (acceptor_ w) -> open r w = Ok tt w1 -> never_opened w1.
Proof.
  intros Ho Hp Ht Hps Hre (Hset & _) Hrun. specialize (Hset Ho). rewrite open_eq, Hre in Hrun.
  destruct (endpoint w) as [|ep]; [done|]. unfold open_socket in Hrun. rewrite Hset in Hrun.
  simpl in Hrun. rewrite Hset in Hrun. injection Hrun as <-. unfold never_opened. simpl.
  by rewrite Hp.
Qed.

(** An acceptor told to reuse addresses never opens. The option is set before the
    socket is opened, which fails; so the acceptor retries every ten seconds and nothing
    else, for ever. *)
Theorem reuse_addr_never_opens g b t r w0 ls w :
  config_bool t g "reuse_addr" false = true ->
  lawful_open r (new_acceptor g) -> run r (idle g b t) = Ok tt w0 -> steps w0 ls w ->
  acceptor_is_open (acceptor_ w) = false /\ acceptor_trace (acceptor_ w) = [] /\ peers w = [] /\
  acceptor_pending (acceptor_ w) = [AsyncWait call_open 10000].
Proof.
  intros Hre Hlaw Hrun Hsteps. assert (never_opened w0) as Hw by (by eapply (reuse_open r (idle g b t))).
  assert (never_opened w) as (? & ? & ? & ? & _); [|done]. clear Hrun Hlaw. revert Hw.
  induction Hsteps as [|w l w1 ls w2 Hen Hlaw Hfire _ IH]; [done|].
  intros (Ho & Hp & Ht & Hps & Hre'). apply IH. unfold enabled in Hen. rewrite Hp in Hen.
  apply list_elem_of_singleton in Hen. destruct l as [|r']; [done|].
  unfold fire, mbind, M_bind, gets in Hfire. simpl in Hfire. rewrite Hp in Hfire. simpl in Hfire.
  by eapply reuse_open in Hfire.
Qed.
End open.

(** ** Witnesses *)

#[local] Existing Instance any_address.
#[local] Existing Instance linux_errors.

(** EBADF and EADDRINUSE. *)
Definition bad_descriptor : error_code := mkErrorCode system_category 9.
Definition address_in_use : error_code := mkErrorCode system_category 98.

Definition answers (bind_ec : error_code) : open_answers :=
  mkOpenAnswers bad_descriptor success bind_ec success success.

Definition listen_group : ConfigGroup := mkConfigGroup (str "listen").

(** A group that says [text] under [key]. *)
Definition tree_with (key text : string) : info :=
  Info [] [(str "listen", Info [] [(str key, Info (str text) [])])].

Definition fresh_acceptor (key text : string) : ClusterAcceptor :=
  idle listen_group false (tree_with key text).

(** The port 70000 is the port 4464. *)
Lemma listens_and_accepts_witness :
  exists w1, open (answers success) (fresh_acceptor "port" "70000") = Ok tt w1 /\
    4464 = uint16 70000 /\ acceptor_is_open (acceptor_ w1) = true /\
    acceptor_trace (acceptor_ w1) = [] ++ [Bound (str "127.0.0.1") 4464; Listening] /\
    acceptor_pending (acceptor_ w1) = [AsyncAccept] /\
    forall ec endpoint_ec b len,
      fire (AcceptDone ec endpoint_ec b len) w1 =
      (if failed ec then Ok tt w1
       else if failed endpoint_ec then Err (SystemError endpoint_ec)
       else Ok tt (mkClusterAcceptor (acceptor_ w1) false
                     (peers w1 ++ [handshaking false b len]) (config_tree_ w1))).
Proof.
  exact (listens_and_accepts (answers success) (fresh_acceptor "port" "70000") (str "127.0.0.1") 4464
           eq_refl eq_refl eq_refl eq_refl eq_refl eq_refl).
Defined.

Definition after_open (bind_ec : error_code) (key text : string) : ClusterAcceptor :=
  match open (answers bind_ec) (fresh_acceptor key text) with
  | Ok _ w => w
  | _ => fresh_acceptor key text
  end.

Lemma failed_bind_spins_witness :
  let w1 := after_open address_in_use "port" "17001" in
  w1 = w1 /\ acceptor_is_open (acceptor_ w1) = false /\
  acceptor_pending (acceptor_ w1) = [AsyncAccept] /\ peers w1 = [] /\
  forall ec endpoint_ec b len, failed ec = true ->
    steps w1 [AcceptDone ec endpoint_ec b len] w1.
Proof.
  refine (failed_bind_spins (answers address_in_use) (fresh_acceptor "port" "17001") _ [] _
            eq_refl eq_refl eq_refl _ eq_refl (or_introl eq_refl) eq_refl (steps_nil _)).
  by split_and!.
Defined.

Lemma reuse_addr_never_opens_witness :
  let w := after_open success "reuse_addr" "true" in
  acceptor_is_open (acceptor_ w) = false /\ acceptor_trace (acceptor_ w) = [] /\ peers w = [] /\
  acceptor_pending (acceptor_ w) = [AsyncWait call_open 10000].
Proof.
  refine (reuse_addr_never_opens listen_group false (tree_with "reuse_addr" "true") (answers success)
            _ [] _ eq_refl _ eq_refl (steps_nil _)).
  by split_and!.
Defined.
