(* ===== verification/Ssl.v ===== *)
(** * TLS contexts

    [server/common/src/Ssl.cpp]: the calls that set a context up, in their order. *)
From S2P Require Import Prelude Config Acceptor.

(** A call on the context. *)
Inductive ssl_call :=
| SetOptions
| SetPasswordCallback (password : bytes)
| UseCertificateChainFile (file : bytes)
| UsePrivateKeyFile (file : bytes)
| UseTmpDhFile (file : bytes)
| LoadVerifyFile (file : bytes)
| SetCipherList (ciphers : bytes).

Section ssl.
Context `{PropertyTree}.

(** Whether a call fails. Those that load the certificate and its key throw; the others
    report, and the failure is logged. *)
Variable fails : ssl_call -> bool.

Definition default_cert : bytes := str "cert.pem".
Definition default_cipher_list : bytes :=
  str "ECDHE-ECDSA-AES256-GCM-SHA384:ECDHE-RSA-AES256-GCM-SHA384:ECDHE-ECDSA-CHACHA20-POLY1305:ECDHE-" ++
  str "RSA-CHACHA20-POLY1305:ECDHE-ECDSA-AES128-GCM-SHA256:ECDHE-RSA-AES128-GCM-SHA256:ECDHE-ECDSA-" ++
  str "AES256-SHA384:ECDHE-RSA-AES256-SHA384:ECDHE-ECDSA-AES128-SHA256:ECDHE-RSA-AES128-SHA256".

(** The calls of the block of [try], in order, when none throws. *)
Definition setup_calls (ca cert_chain priv_key dh password cipher_list : bytes) : list ssl_call :=
  [SetOptions; SetPasswordCallback password; UseCertificateChainFile cert_chain;
   UsePrivateKeyFile priv_key] ++
  (if decide (dh = []) then [] else [UseTmpDhFile dh]) ++
  (if decide (ca = []) then [] else [LoadVerifyFile ca]) ++
  [SetCipherList cipher_list].

Definition throws (c : ssl_call) : bool :=
  match c with
  | SetOptions | SetPasswordCallback _ | UseCertificateChainFile _ | UsePrivateKeyFile _ => fails c
  | UseTmpDhFile _ | LoadVerifyFile _ | SetCipherList _ => false
  end.

(** The calls made: [catch] ends the block at the first that throws. *)
Fixpoint until_exception (l : list ssl_call) : list ssl_call :=
  match l with
  | [] => []
  | c :: l' => c :: (if throws c then [] else until_exception l')
  end.

(** The calls made on the context, for the values of group [g]. *)
Definition init_ssl_context (t : ptree) (g : ConfigGroup) : list ssl_call :=
  let ca := config_string t g "certificate_authority_file" [] in
  let cert_chain := config_string t g "certificate_chain" default_cert in
  let priv_key := config_string t g "private_key" default_cert in
  let dh := config_string t g "dh" [] in
  let password := config_string t g "private_key_password" [] in
  let cipher_list := config_string t g "cipher_list" default_cipher_list in
  until_exception (setup_calls ca cert_chain priv_key dh password cipher_list).

Lemma until_exception_last l c :
  c ∉ l -> c ∈ until_exception (l ++ [c]) <-> Forall (fun c => throws c = false) l.
Proof.
  induction l as [|c' l IH]; simpl; intros Hc.
  - split; [constructor|]. intros _. by left.
  - apply not_elem_of_cons in Hc as [Hne Hc]. rewrite Forall_cons, elem_of_cons.
    destruct (throws c'); [|rewrite IH by done; naive_solver].
    rewrite elem_of_nil. naive_solver.
Qed.

(** The list of ciphers is set only when the options are and the certificate and its key
    are loaded; the caller is not told. *)
Lemma ciphers_set t g :
  SetCipherList (config_string t g "cipher_list" default_cipher_list) ∈ init_ssl_context t g <->
  fails SetOptions = false /\
  fails (SetPasswordCallback (config_string t g "private_key_password" [])) = false /\
  fails (UseCertificateChainFile (config_string t g "certificate_chain" default_cert)) = false /\
  fails (UsePrivateKeyFile (config_string t g "private_key" default_cert)) = false.
Proof.
  unfold init_ssl_context, setup_calls. rewrite !app_assoc.
  generalize (config_string t g "cipher_list" default_cipher_list). intros ciphers.
  rewrite until_exception_last.
  - rewrite !Forall_app, !Forall_cons. simpl.
    do 2 case_decide; rewrite ?Forall_singleton; simpl; naive_solver.
  - rewrite !elem_of_app, !elem_of_cons. do 2 case_decide; rewrite ?elem_of_cons, !elem_of_nil;
      naive_solver.
Qed.
End ssl.
