(* ===== verification/Cluster.v ===== *)
(** * The start of the cluster

    [server/common/src/cluster/Cluster.cpp], and what a process has made when its objects
    are constructed: the pool, the acceptors and the watchers. *)
From stdpp Require Import gmap.
From S2P Require Import Prelude Message ErrorCode Config AsioPool Ssl Acceptor WsAcceptor ClusterAcceptor ClusterWatcher.

Section cluster.
Context `{PropertyTree, AsioNet, AsioErrors}.

(** What a process has made. *)
Record startup := mkStartup {
  process_ : process;
  (** the calls on the TLS context of the cluster, and on those of the acceptors *)
  tls_calls : list ssl_call;
  cluster_acceptors : list ClusterAcceptor;
  watchers : list (ip_address * Z * ClusterWatcher);
  ws_acceptors : list acceptor;
  ws_shared : shared;
}.

Inductive start_fault :=
| PoolFault (f : pool_fault)
| Uncaught (e : exception)
| WatcherFault (e : watcher_exception).

Abbreviation Start := (M start_fault startup).

(** How the calls of an acceptor's first [open] end, by group; which calls on a TLS context
    fail; what the fields hold that constructors leave out. *)
Variable answers : ConfigGroup -> open_answers * error_code.
Variable ssl_fails : ssl_call -> bool.
Variable junk : bool.

Definition on_process {A} (m : M pool_fault process A) : Start A := fun s =>
  match m (process_ s) with
  | Ok a p => Ok a (mkStartup p (tls_calls s) (cluster_acceptors s) (watchers s)
                      (ws_acceptors s) (ws_shared s))
  | Err f => Err (PoolFault f)
  | Fuel => Fuel
  end.

Definition tree : Start ptree := gets (fun s => config_tree (config (process_ s))).

(** Where a new object is. *)
Definition new_address : M pool_fault process positive :=
  gets (fun p => fresh (dom (objects (config p)))).

(** [pool.create_asio(name, value)], the value being a temporary that [construct] makes. *)
Definition create_asio_with (name : bytes) (construct : positive -> Configured unit) : Start unit :=
  on_process (
    value ← new_address;
    on_config (construct value);;
    this ← new_address;
    create_asio this name value;;
    on_config (destroy value)).

Definition run_acceptor (g : ConfigGroup) : Start unit :=
  t ← tree;
  match ClusterAcceptor.run (answers g).1 (idle g junk t) with
  | Ok _ a => modify (fun s => mkStartup (process_ s) (tls_calls s) (cluster_acceptors s ++ [a])
                                 (watchers s) (ws_acceptors s) (ws_shared s))
  | Err e => throw (Uncaught e)
  | Fuel => diverge
  end.

(** [std::make_shared<ClusterWatcher>(...)] and its [run]; [make_address] throws. *)
Definition run_watcher (g : ConfigGroup) : Start unit :=
  t ← tree;
  let text := config_string t g "ip" [] in
  match make_address text with
  | None => throw (Uncaught (BadAddress text))
  | Some address =>
      let port := uint16 (config_int t g "port" 17001) in
      match ClusterWatcher.run (new_watcher (config_bool t g "safe_link" false)) with
      | Ok _ w => modify (fun s => mkStartup (process_ s) (tls_calls s) (cluster_acceptors s)
                                     (watchers s ++ [(address, port, w)]) (ws_acceptors s) (ws_shared s))
      | Err e => throw (WatcherFault e)
      | Fuel => diverge
      end
  end.

Definition childs (g : ConfigGroup) (path : string) : Start (list ConfigGroup) :=
  on_process (on_config (group_get_childs_at g (str path))).

Definition init_ssl (g : ConfigGroup) : Start unit :=
  t ← tree;
  modify (fun s => mkStartup (process_ s) (tls_calls s ++ init_ssl_context ssl_fails t g)
                     (cluster_acceptors s) (watchers s) (ws_acceptors s) (ws_shared s)).

(** [cluster::init] *)
Definition init (config : ConfigGroup) : Start unit :=
  create_asio_with (str "cluster") (fun l => group_get_int l config (str "threads") 2);;
  init_ssl (get_group config (str "ssl"));;
  listen ← childs config "listen";
  each run_acceptor listen;;
  connect ← childs config "connect";
  each run_watcher connect.
End cluster.
