(* ===== verification/FrontStart.v ===== *)
(** * The start of the front server

    [main] of [server/front/src/Main.cpp], up to its loop. *)
From stdpp Require Import gmap.
From S2P Require Import Prelude Message ErrorCode Config AsioPool Ssl WsConnection Acceptor WsAcceptor ClusterAcceptor ClusterWatcher Cluster.

Section start.
Context `{PropertyTree, AsioNet, AsioErrors, FrontConfig}.

Variable answers : ConfigGroup -> open_answers * error_code.
Variable ssl_fails : ssl_call -> bool.
Variable junk : bool.

Abbreviation Start := (M start_fault startup).

(** [std::make_shared<WsAcceptor>(...)] and its [run]. *)
Definition run_ws_acceptor (g : ConfigGroup) : Start unit :=
  init_ssl ssl_fails (mkConfigGroup (str "front.ssl"));;
  s ← gets ws_shared;
  t ← tree;
  match WsAcceptor.run (answers g).1 (answers g).2
          (mkWsAcceptor (new_acceptor g) (mkShared (active_count s) (clients s) (clock s) t)) with
  | Ok _ w => modify (fun s => mkStartup (process_ s) (tls_calls s) (cluster_acceptors s)
                                 (watchers s) (ws_acceptors s ++ [WsAcceptor.acceptor_ w]) (WsAcceptor.shared_ w))
  | Err e => throw (Uncaught e)
  | Fuel => diverge
  end.

(** [false]: the configuration cannot be read, and the process exits with 1. *)
Definition start_front (read_info : bytes -> option ptree) : Start bool :=
  loaded ← on_process (on_config (load read_info []));
  if (loaded : bool) then
    create_asio_with (str "front") (fun l => new_int l (str "front.threads") 2);;
    init answers ssl_fails junk (mkConfigGroup (str "cluster"));;
    groups ← on_process (on_config (get_childs (str "front.ws.listen")));
    each run_ws_acceptor groups;;
    mret true
  else mret false.

(** The process when [main] begins: the static objects are constructed. *)
Definition begun (c : config_state) (now : Z) : startup :=
  mkStartup (mkProcess c []) [] [] [] [] (mkShared 0 [] now (config_tree c)).
End start.
