(* ===== verification/StartTheorems.v ===== *)
(** * The front server starts as its configuration says *)
From stdpp Require Import gmap.
From S2P Require Import Prelude Message ErrorCode Config ConfigTheorems InfoTree AsioPool FrontMain MainInvariant.
From S2P Require Import Ssl WsConnection Acceptor WsAcceptor ClusterAcceptor ClusterWatcher Cluster FrontStart.
From S2P Require Import AcceptorTheorems FrontInvariant.

#[local] Arguments new_int : simpl never.
#[local] Arguments new_copy : simpl never.
#[local] Arguments destroy : simpl never.

Section start.
Context `{PropertyTree, AsioNet, AsioErrors, FrontConfig}.
Variable answers : ConfigGroup -> open_answers * error_code.
Variable ssl_fails : ssl_call -> bool.
Variable junk : bool.

(** [s] with another process, and with more of each. *)
Definition with_process (p : process) (s : startup) : startup :=
  mkStartup p (tls_calls s) (cluster_acceptors s) (watchers s) (ws_acceptors s) (ws_shared s).

(** ** An instance of the pool *)

(** [c'] has what [c] has. *)
Definition extends (c c' : config_state) : Prop :=
  config_tree c' = config_tree c /\ forall l v, objects c !! l = Some v -> objects c' !! l = Some v.

Lemma create_asio_with_spec name key d s :
  config_inv (config (process_ s)) ->
  exists this c', create_asio_with name (fun l => new_int l key d) s =
    Ok tt (with_process
             (mkProcess c' (asios_ (process_ s) ++ [mkAsioInstance name this false 0 0])) s) /\
    config_inv c' /\ extends (config (process_ s)) c' /\
    objects c' !! this =
      Some (ConfigIntValue key d (ptree_get ptree_int (config_tree (config (process_ s))) key d)).
Proof.
  destruct s as [[c asios] tls cas ws wss sh]. simpl. intros Hinv.
  set (v := ConfigIntValue key d (ptree_get ptree_int (config_tree c) key d)).
  set (l := fresh (dom (objects c))).
  assert (objects c !! l = None) as Hl by (apply not_elem_of_dom; apply is_fresh).
  assert (config_inv (mkConfig (config_tree c) false ({[l]} ∪ listeners c) (<[l := v]> (objects c)))) as Hinv1.
  { by apply inv_insert. }
  set (c1 := mkConfig _ _ _ _) in Hinv1.
  set (this := fresh (dom (objects c1))).
  assert (objects c1 !! this = None) as Hthis by (apply not_elem_of_dom; apply is_fresh).
  assert (this <> l) as Hne by (intros Heq; rewrite Heq in Hthis; simpl in Hthis; by rewrite lookup_insert_eq in Hthis).
  assert (config_inv (mkConfig (config_tree c1) false ({[this]} ∪ listeners c1) (<[this := v]> (objects c1)))) as Hinv2.
  { by apply inv_insert. }
  set (c2 := mkConfig _ _ _ _) in Hinv2.
  exists this, (mkConfig (config_tree c2) false (listeners c2 ∖ {[l]}) (delete l (objects c2))).
  split_and!.
  - assert (new_int l key d c = Ok tt c1) as Hnew.
    { by apply (new_value_eq l _ (fun s => ptree_get ptree_int (config_tree s) key d) (ConfigIntValue key d) c
                  (inv_mutex _ Hinv)). }
    assert (new_copy this l c1 = Ok tt c2) as Hcopy.
    { apply new_copy_eq; [done|]. simpl. by rewrite lookup_insert_eq. }
    unfold create_asio_with, create_asio, on_process, on_config, mbind, M_bind, new_address, gets.
    simpl. fold l. rewrite Hnew. simpl.
    change (fresh (dom (<[l:=v]> (objects c)))) with this. rewrite Hcopy. reflexivity.
  - by apply inv_delete.
  - split; [done|]. intros l' v' Hl'. simpl. assert (l' <> l) by congruence.
    assert (l' <> this).
    { intros ->. assert (objects c1 !! this = Some v') as Heq; [|congruence].
      simpl. by rewrite lookup_insert_ne. }
    rewrite lookup_delete_ne by done. simpl. by rewrite !lookup_insert_ne.
  - simpl. rewrite lookup_delete_ne by done. by rewrite lookup_insert_eq.
Qed.

(** ** Groups *)

(** The groups of the children of [path]. *)
Definition groups_of (t : ptree) (path : bytes) : list ConfigGroup :=
  (fun it => mkConfigGroup (path ++ str "." ++ it.1)) <$>
    ptree_children (default empty_ptree (ptree_get_child t path)).

(** A group whose address is one. *)
Definition valid_group (t : ptree) (d : bytes) (g : ConfigGroup) : Prop :=
  is_Some (make_address (config_string t g "ip" d)).

Lemma endpoint_valid t g d port :
  valid_group t d g -> exists ep, endpoint_of t g d port = inr ep.
Proof. intros [a Ha]. unfold endpoint_of. rewrite Ha. by eexists. Qed.

Lemma childs_eq g path s :
  childs g path s =
  Ok (groups_of (config_tree (config (process_ s))) (sub_path g (str path))) s.
Proof. by destruct s as [[c asios] tls cas ws wss sh]. Qed.

(** [each], where every round adds to what the last left. *)
Lemma each_adds {St E X} (body : X -> M E St unit) (P : list X -> St -> Prop) l s :
  P [] s ->
  (forall done x s', x ∈ l -> P done s' -> exists s'', body x s' = Ok tt s'' /\ P (done ++ [x]) s'') ->
  exists s', each body l s = Ok tt s' /\ P l s'.
Proof.
  intros HP Hbody.
  assert (forall todo done s1, (forall x, x ∈ todo -> x ∈ l) -> P done s1 ->
    exists s', each body todo s1 = Ok tt s' /\ P (done ++ todo) s') as Hall.
  { induction todo as [|x todo IH]; intros done s1 Hin Hs1; simpl.
    - exists s1. by rewrite app_nil_r.
    - destruct (Hbody done x s1 (Hin x ltac:(by left)) Hs1) as (s2 & Hrun & Hs2).
      destruct (IH (done ++ [x]) s2) as (s' & Hrun' & Hs'); [intros y Hy; apply Hin; by right|done|].
      exists s'. unfold mbind, M_bind. rewrite Hrun, Hrun'. by rewrite <- app_assoc in Hs'. }
  by destruct (Hall l [] s (fun _ => id) HP) as (s' & ? & ?); exists s'.
Qed.

(** An acceptor with one operation under way. *)
Definition one_op_pending (a : acceptor) : Prop := exists op, acceptor_pending a = [op].

(** A watcher at its first attempt. *)
Definition connecting (w : ClusterWatcher) : Prop :=
  watcher_pending w = [AsyncConnect] /\ links w = [].

(** What the process of [s] has, whose pool is [p] and tree [t], when the groups of its
    acceptors and watchers are [gs1], [gs2] and [gs3]: they wait for something, and there is
    no connection. *)
Record started (p : process) (now : Z) (gs1 gs2 gs3 : list ConfigGroup) (s : startup) : Prop := {
  started_process : process_ s = p;
  started_cluster : (fun a => group (ClusterAcceptor.acceptor_ a)) <$> cluster_acceptors s = gs1;
  started_watchers : length (watchers s) = length gs2;
  started_ws : group <$> ws_acceptors s = gs3;
  started_count : active_count (ws_shared s) = 0;
  started_clients : clients (ws_shared s) = [];
  started_cluster_ops :
    Forall (fun a => one_op_pending (ClusterAcceptor.acceptor_ a) /\ peers a = []) (cluster_acceptors s);
  started_attempts : Forall (fun x => connecting x.2) (watchers s);
  started_ws_ops : Forall one_op_pending (ws_acceptors s);
}.

Lemma run_acceptor_started p now gs1 gs2 gs3 g s :
  started p now gs1 gs2 gs3 s -> valid_group (config_tree (config p)) (str "127.0.0.1") g ->
  exists s', run_acceptor answers junk g s = Ok tt s' /\ started p now (gs1 ++ [g]) gs2 gs3 s'.
Proof.
  intros [Hp Hc Hw Hws Hn Hcl Hco Hwo Hwso] Hg. unfold run_acceptor, mbind, M_bind, tree, gets.
  unfold ClusterAcceptor.run. rewrite open_eq. rewrite Hp. unfold endpoint. simpl.
  destruct (endpoint_valid _ _ _ ClusterAcceptor.default_listen_port Hg) as [ep Hep].
  unfold ClusterAcceptor.default_listen_ip. rewrite Hep.
  destruct (open_socket _ _ _ _) as [ec a] eqn:Ho.
  assert (group a = g /\ acceptor_pending a = []) as [Ha Hpa].
  { unfold open_socket in Ho. repeat case_match; injection Ho as <- <-; done. }
  eexists. split; [reflexivity|]. constructor; simpl; try done.
  - rewrite fmap_app, Hc. simpl. by rewrite Ha.
  - apply Forall_app. split; [done|]. apply Forall_singleton. split; [|done]. eexists. simpl. by rewrite Hpa.
Qed.

Lemma run_watcher_started p now gs1 gs2 gs3 g s :
  started p now gs1 gs2 gs3 s -> valid_group (config_tree (config p)) [] g ->
  exists s', run_watcher g s = Ok tt s' /\ started p now gs1 (gs2 ++ [g]) gs3 s'.
Proof.
  intros [Hp Hc Hw Hws Hn Hcl Hco Hwo Hwso] [a Ha]. unfold run_watcher, mbind, M_bind, tree, gets.
  rewrite Hp, Ha. eexists. split; [reflexivity|]. constructor; simpl; try done.
  - rewrite !length_app. simpl. lia.
  - apply Forall_app. split; [done|]. by apply Forall_singleton.
Qed.

Lemma accept_next_eq c w :
  active_count (shared_ w) < connection_limit_hard ->
  WsAcceptor.accept_next c w = Ok tt (mkWsAcceptor (with_op AsyncAccept (WsAcceptor.acceptor_ w)) (shared_ w)).
Proof.
  intros Hlt. unfold WsAcceptor.accept_next, count, mbind, M_bind, gets. by rewrite decide_False by lia.
Qed.

Lemma run_ws_acceptor_started p now gs1 gs2 gs3 g s :
  0 < connection_limit_hard ->
  started p now gs1 gs2 gs3 s -> valid_group (config_tree (config p)) (str "0.0.0.0") g ->
  exists s', run_ws_acceptor answers ssl_fails g s = Ok tt s' /\ started p now gs1 gs2 (gs3 ++ [g]) s'.
Proof.
  intros Hhard [Hp Hc Hw Hws Hn Hcl Hco Hwo Hwso] Hg. unfold run_ws_acceptor, init_ssl, mbind, M_bind, tree, gets. simpl.
  unfold WsAcceptor.run, WsAcceptor.open, mbind, M_bind, gets. simpl. rewrite Hp.
  destruct (endpoint_valid _ _ _ WsAcceptor.default_listen_port Hg) as [ep Hep].
  unfold WsAcceptor.default_listen_ip. rewrite Hep.
  destruct (open_socket _ _ _ _) as [ec a] eqn:Ho.
  assert (group a = g /\ acceptor_pending a = []) as [Ha Hpa].
  { unfold open_socket in Ho. repeat case_match; injection Ho as <- <-; done. }
  assert (forall op, exists s', Ok (E := start_fault) tt
    (mkStartup p (tls_calls s ++ init_ssl_context ssl_fails (config_tree (config p))
         (mkConfigGroup (str "front.ssl"))) (cluster_acceptors s) (watchers s)
       (ws_acceptors s ++ [with_op op a])
       (mkShared (active_count (ws_shared s)) (clients (ws_shared s)) (clock (ws_shared s))
          (config_tree (config p)))) = Ok tt s' /\ started p now gs1 gs2 (gs3 ++ [g]) s') as Hdone.
  { intros op. eexists. split; [reflexivity|]. constructor; simpl; try done.
    - rewrite fmap_app, Hws. simpl. by rewrite Ha.
    - apply Forall_app. split; [done|]. apply Forall_singleton. eexists. simpl. by rewrite Hpa. }
  simpl. destruct (failed ec); simpl; rewrite ?accept_next_eq by (simpl; lia);
    apply Hdone.
Qed.
(** The pool of the front server, when the tree is [t]. *)
Record front_pool (t : ptree) (p : process) : Prop := {
  pool_config : config_inv (config p);
  pool_tree : config_tree (config p) = t;
  pool_instances : exists front cluster,
    asios_ p = [mkAsioInstance (str "front") front false 0 0;
                mkAsioInstance (str "cluster") cluster false 0 0] /\
    objects (config p) !! front =
      Some (ConfigIntValue (str "front.threads") 2 (ptree_get ptree_int t (str "front.threads") 2)) /\
    objects (config p) !! cluster =
      Some (ConfigIntValue (str "cluster.threads") 2 (ptree_get ptree_int t (str "cluster.threads") 2));
}.

(** The two instances. *)
Lemma front_pool_made (c : config_state) s :
  config_inv c -> process_ s = mkProcess c [] ->
  exists p s1,
    create_asio_with (str "front") (fun l => new_int l (str "front.threads") 2) s = Ok tt s1 /\
    create_asio_with (str "cluster")
      (fun l => group_get_int l (mkConfigGroup (str "cluster")) (str "threads") 2) s1 =
      Ok tt (with_process p s) /\
    front_pool (config_tree c) p /\ extends c (config p).
Proof.
  intros Hinv Hs.
  destruct (create_asio_with_spec (str "front") (str "front.threads") 2 s) as
    (front & c1 & Hrun1 & Hinv1 & [Ht1 Hext1] & Hfront); [by rewrite Hs|].
  rewrite Hs in *. simpl in *. set (s1 := with_process _ s) in Hrun1.
  destruct (create_asio_with_spec (str "cluster") (str "cluster.threads") 2 s1) as
    (cluster & c2 & Hrun2 & Hinv2 & [Ht2 Hext2] & Hcluster); [done|].
  simpl in *. rewrite Ht1 in Ht2, Hcluster.
  eexists _, s1. split; [exact Hrun1|]. split; [exact Hrun2|].
  split; [|split; [done|auto]].
  constructor; simpl; [done|done|]. exists front, cluster. split_and!; [done|by apply Hext2|done].
Qed.

Lemma front_pool_new t p : front_pool t p -> new_pool p.
Proof.
  intros [Hinv Ht (front & cluster & Ha & Hf & Hc)]. split; [done|]. rewrite Ha.
  repeat constructor; unfold thread_count; simpl; rewrite ?Hf, ?Hc; by eexists.
Qed.

(** C33: the front server starts as its file says. When the file can be read, every listening
    and connecting group has an address, and the hard limit is positive - at a limit of zero
    the acceptors close at once -, the start neither throws nor fails: the
    pool has the two instances of the front and of the cluster, with the numbers of threads
    of the file and no thread yet, as the loop of [main] needs it; the static objects are
    there, with the values of the file; there is an acceptor for each group that listens and
    a watcher for each that connects, in their order, each with one operation under way; and
    no connection. *)
Theorem front_starts c now read_info t :
  config_inv c -> read_info (str "config.info") = Some t -> 0 < connection_limit_hard ->
  Forall (valid_group t (str "127.0.0.1")) (groups_of t (str "cluster.listen")) ->
  Forall (valid_group t []) (groups_of t (str "cluster.connect")) ->
  Forall (valid_group t (str "0.0.0.0")) (groups_of t (str "front.ws.listen")) ->
  exists p s, start_front answers ssl_fails junk read_info (begun c now) = Ok true s /\
    new_pool p /\ front_pool t p /\
    (forall l v, objects c !! l = Some v -> objects (config p) !! l = Some (refreshed t v)) /\
    started p now (groups_of t (str "cluster.listen")) (groups_of t (str "cluster.connect"))
      (groups_of t (str "front.ws.listen")) s.
Proof.
  intros Hinv Hread Hhard Hlisten Hconnect Hws.
  set (c1 := mkConfig t false (listeners c) (refreshed t <$> objects c)).
  set (s1 := with_process (mkProcess c1 []) (begun c now)).
  assert (on_process (on_config (load read_info [])) (begun c now) = Ok true s1) as Hload.
  { unfold on_process, on_config. change (config (process_ (begun c now))) with c.
    rewrite load_spec by done. rewrite decide_True by done. by rewrite Hread. }
  destruct (front_pool_made c1 s1 (inv_refreshed t c Hinv) eq_refl) as (p & s2 & Hrun1 & Hrun2 & Hpool & _ & Hext).
  set (s3 := with_process p s1) in Hrun2. pose proof (pool_tree _ _ Hpool) as Ht. simpl in Ht.
  destruct (init_ssl ssl_fails (get_group (mkConfigGroup (str "cluster")) (str "ssl")) s3)
    as [[] s4| |] eqn:Hssl; [|discriminate Hssl..].
  assert (started p now [] [] [] s4) as Hs4 by (by injection Hssl as <-).
  rewrite Forall_forall in Hlisten, Hconnect, Hws.
  destruct (each_adds (run_acceptor answers junk) (fun gs s => started p now gs [] [] s)
              (groups_of t (str "cluster.listen")) s4 Hs4) as (s5 & Hrun5 & Hs5).
  { intros gs g s' Hg Hs'. apply run_acceptor_started; [done|]. rewrite Ht. auto. }
  destruct (each_adds run_watcher (fun gs s => started p now (groups_of t (str "cluster.listen")) gs [] s)
              (groups_of t (str "cluster.connect")) s5 Hs5) as (s6 & Hrun6 & Hs6).
  { intros gs g s' Hg Hs'. apply run_watcher_started; [done|]. rewrite Ht. auto. }
  destruct (each_adds (run_ws_acceptor answers ssl_fails)
              (fun gs s => started p now (groups_of t (str "cluster.listen"))
                 (groups_of t (str "cluster.connect")) gs s)
              (groups_of t (str "front.ws.listen")) s6 Hs6) as (s7 & Hrun7 & Hs7).
  { intros gs g s' Hg Hs'. apply run_ws_acceptor_started; [done|done|]. rewrite Ht. auto. }
  assert (init answers ssl_fails junk (mkConfigGroup (str "cluster")) s2 = Ok tt s6) as Hinit.
  { unfold init. rewrite (bind_Ok _ _ _ _ _ Hrun2), (bind_Ok _ _ _ _ _ Hssl).
    erewrite bind_Ok by apply childs_eq. rewrite (started_process _ _ _ _ _ _ Hs4), Ht.
    rewrite (bind_Ok _ _ _ _ _ Hrun5). erewrite bind_Ok by apply childs_eq.
    by rewrite (started_process _ _ _ _ _ _ Hs5), Ht. }
  exists p, s7. split; [|split_and!; [by eapply front_pool_new|done| |done]].
  2:{ intros l v Hl. apply Hext. simpl. by rewrite lookup_fmap, Hl. }
  unfold start_front. rewrite (bind_Ok _ _ _ _ _ Hload), (bind_Ok _ _ _ _ _ Hrun1).
  rewrite (bind_Ok _ _ _ _ _ Hinit).
  assert (on_process (on_config (get_childs (str "front.ws.listen"))) s6 =
          Ok (groups_of t (str "front.ws.listen")) s6) as Hchilds.
  { rewrite <- Ht, <- (started_process _ _ _ _ _ _ Hs6). by destruct s6 as [[c6 ?] ? ? ? ? ?]. }
  rewrite (bind_Ok _ _ _ _ _ Hchilds), (bind_Ok _ _ _ _ _ Hrun7). reflexivity.
Qed.
End start.

(** ** Witness *)

#[local] Existing Instance any_address.
#[local] Existing Instance linux_errors.
#[local] Existing Instance default_config.

(** A file with a listener of each kind, a peer to connect to, and four threads. *)
Definition front_file : info :=
  let section name := (str name, Info [] []) in
  Info [] [(str "cluster", Info [] [(str "listen", Info [] [section "here"]);
                                    (str "connect", Info [] [section "there"])]);
           (str "front", Info [] [(str "threads", Info (str "4") []);
                                  (str "ws", Info [] [(str "listen", Info [] [section "web"])])])].

(** The file system holds it under every name. *)
Definition front_file_read : bytes -> option (@ptree info_property_tree) := fun _ => Some front_file.

Lemma front_starts_witness :
  exists p s, start_front (fun _ => (answers success, success)) (fun _ => false) false
      front_file_read (begun initial_config 0) = Ok true s /\
    new_pool p /\ front_pool front_file p /\
    (forall l v, objects initial_config !! l = Some v ->
       objects (config p) !! l = Some (refreshed front_file v)) /\
    started p 0 (groups_of front_file (str "cluster.listen")) (groups_of front_file (str "cluster.connect"))
      (groups_of front_file (str "front.ws.listen")) s.
Proof.
  apply (front_starts _ _ _ initial_config 0 front_file_read front_file);
    [by constructor|reflexivity|vm_compute; reflexivity|repeat constructor; by eexists..].
Defined.

(** The groups of the file. *)
Example front_groups :
  groups_of front_file (str "front.ws.listen") = [mkConfigGroup (str "front.ws.listen.web")].
Proof. reflexivity. Qed.
