(* ===== verification/FrontGlobals.v ===== *)
(** * The values the front server is configured with

    [server/front/src/FrontGlobals.cpp]: eight static objects that follow the configuration,
    and what they say to the handlers of the front server, the [FrontConfig] of
    [WsConnection]. *)
From stdpp Require Import gmap.
From S2P Require Import Prelude Config ConfigTheorems InfoTree WsConnection AsioPool.

(** ** The objects *)

(** Where they are. *)
Module At.
Definition connection_limit_soft : positive := 1.
Definition connection_limit_hard : positive := 2.
Definition message_max_size : positive := 3.
Definition rate_limit_messages : positive := 4.
Definition rate_limit_bytes : positive := 5.
Definition ws_message_auto_fragment : positive := 6.
Definition ws_setup_timeout : positive := 7.
Definition ws_timeout : positive := 8.
End At.

(** Every one of them. *)
Definition globals : gset positive :=
  {[At.connection_limit_soft; At.connection_limit_hard; At.message_max_size;
    At.rate_limit_messages; At.rate_limit_bytes; At.ws_message_auto_fragment;
    At.ws_setup_timeout; At.ws_timeout]}.

Section globals.
Context `{PropertyTree}.

(** The constructions, in the order of the file. *)
Definition front_globals : list config_op :=
  [NewInt At.connection_limit_soft (str "front.connection_limit_soft") 1000;
   NewInt At.connection_limit_hard (str "front.connection_limit_hard") 1050;
   NewInt At.message_max_size (str "front.message_max_size") 0x4000;
   NewInt At.rate_limit_messages (str "front.rate_limit_messages") 100;
   NewInt At.rate_limit_bytes (str "front.rate_limit_bytes") 0x8000;
   NewBool At.ws_message_auto_fragment (str "front.ws.message_auto_fragment") true;
   NewInt At.ws_setup_timeout (str "front.ws.socket_setup_timeout") 3;
   NewInt At.ws_timeout (str "front.ws.socket_timeout") 30].

Definition construct_globals : Configured unit := each run_op front_globals.

(** [(bool) value] *)
Definition bool_value (l : positive) : Configured bool :=
  v ← deref l;
  match v with ConfigBoolValue _ _ value_ => mret value_ | _ => throw (Dangling l) end.

(** What the handlers read. *)
Definition front_config : Configured FrontConfig :=
  soft ← int_value At.connection_limit_soft;
  hard ← int_value At.connection_limit_hard;
  max_size ← int_value At.message_max_size;
  messages ← int_value At.rate_limit_messages;
  limit_bytes ← int_value At.rate_limit_bytes;
  auto_fragment ← bool_value At.ws_message_auto_fragment;
  setup ← int_value At.ws_setup_timeout;
  timeout ← int_value At.ws_timeout;
  mret {| connection_limit_soft := soft; connection_limit_hard := hard;
          message_max_size := max_size; rate_limit_messages := messages;
          rate_limit_bytes := limit_bytes; ws_message_auto_fragment := auto_fragment;
          ws_setup_timeout := setup; ws_timeout := timeout |}.

(** ** What they should say

    The values of a tree, with the defaults of the file. *)
Definition front_config_of (t : ptree) : FrontConfig :=
  let int key d := ptree_get ptree_int t (str key) d in
  {| connection_limit_soft := int "front.connection_limit_soft" 1000;
     connection_limit_hard := int "front.connection_limit_hard" 1050;
     message_max_size := int "front.message_max_size" 0x4000;
     rate_limit_messages := int "front.rate_limit_messages" 100;
     rate_limit_bytes := int "front.rate_limit_bytes" 0x8000;
     ws_message_auto_fragment :=
       ptree_get ptree_bool t (str "front.ws.message_auto_fragment") true;
     ws_setup_timeout := int "front.ws.socket_setup_timeout" 3;
     ws_timeout := int "front.ws.socket_timeout" 30 |}.

(** The objects by address, when the tree is [t]. *)
Definition objects_of (t : ptree) : gmap positive ConfigValue :=
  let int key d := ConfigIntValue (str key) d (ptree_get ptree_int t (str key) d) in
  {[At.connection_limit_soft := int "front.connection_limit_soft" 1000;
    At.connection_limit_hard := int "front.connection_limit_hard" 1050;
    At.message_max_size := int "front.message_max_size" 0x4000;
    At.rate_limit_messages := int "front.rate_limit_messages" 100;
    At.rate_limit_bytes := int "front.rate_limit_bytes" 0x8000;
    At.ws_message_auto_fragment :=
      ConfigBoolValue (str "front.ws.message_auto_fragment") true
        (ptree_get ptree_bool t (str "front.ws.message_auto_fragment") true);
    At.ws_setup_timeout := int "front.ws.socket_setup_timeout" 3;
    At.ws_timeout := int "front.ws.socket_timeout" 30]}.

(** A coherent configuration in which the objects of the file live. *)
Record has_globals (c : config_state) : Prop := {
  globals_inv : config_inv c;
  globals_live : forall l v, objects_of (config_tree c) !! l = Some v -> objects c !! l = Some v;
}.

Lemma int_read l p d n c :
  objects c !! l = Some (ConfigIntValue p d n) -> int_value l c = Ok n c.
Proof. intros Hl. unfold int_value, deref, mbind, M_bind, gets. by rewrite Hl. Qed.

Lemma bool_read l p d b c :
  objects c !! l = Some (ConfigBoolValue p d b) -> bool_value l c = Ok b c.
Proof. intros Hl. unfold bool_value, deref, mbind, M_bind, gets. by rewrite Hl. Qed.

Lemma front_config_eq c :
  has_globals c -> front_config c = Ok (front_config_of (config_tree c)) c.
Proof.
  intros [_ Hl]. unfold front_config.
  do 5 (erewrite bind_Ok by (eapply int_read, Hl; reflexivity)).
  erewrite bind_Ok by (eapply bool_read, Hl; reflexivity).
  do 2 (erewrite bind_Ok by (eapply int_read, Hl; reflexivity)). reflexivity.
Qed.

(** ** They do *)

Lemma objects_of_refreshed t t' : refreshed t' <$> objects_of t = objects_of t'.
Proof. unfold objects_of. by rewrite !fmap_insert, map_fmap_singleton. Qed.

(** What [construct_globals] makes of the initial configuration. *)
Definition constructed : config_state :=
  mkConfig empty_ptree false globals (objects_of empty_ptree).

Lemma construct_globals_eq : construct_globals initial_config = Ok tt constructed.
Proof. reflexivity. Qed.

Lemma constructed_globals : has_globals constructed.
Proof.
  split; [|done]. constructor; [done|reflexivity|]. simpl. unfold objects_of.
  repeat (apply map_Forall_insert_2; [done|]). apply map_Forall_empty.
Qed.

(** The static objects are destroyed after [main] only. *)
Definition spares_globals (op : config_op) : Prop :=
  match op with Destroy l => l ∉ globals | _ => True end.

Lemma globals_dom t l : l ∈ globals <-> is_Some (objects_of t !! l).
Proof.
  rewrite <- elem_of_dom. unfold objects_of. rewrite !dom_insert_L, dom_singleton_L.
  unfold globals. set_solver.
Qed.

(** An operation that spares the objects keeps them, up to date. *)
Lemma has_globals_op op c c1 :
  has_globals c -> legal op c -> spares_globals op -> run_op op c = Ok tt c1 ->
  has_globals c1 /\ config_tree c1 = tree_after (config_tree c) op.
Proof.
  intros [Hinv Hg] Hl Hs Hrun. destruct (run_op_keeps op c c1 Hinv Hl Hrun) as [Ht Hkeep].
  split; [|done]. destruct (run_op_inv op c Hinv Hl) as (c2 & Hrun2 & Hinv2).
  assert (c2 = c1) as -> by congruence. split; [done|]. intros l v.
  rewrite <- (objects_of_refreshed (config_tree c)), lookup_fmap.
  destruct (objects_of (config_tree c) !! l) as [v0|] eqn:Hv0; [|done]. intros [= <-].
  apply Hkeep; [by apply Hg|]. intros ->. apply Hs, (globals_dom (config_tree c)). by eexists.
Qed.

Lemma has_globals_ops ops c c' :
  config_ops c ops c' -> has_globals c -> Forall spares_globals ops ->
  has_globals c' /\ config_tree c' = foldl tree_after (config_tree c) ops.
Proof.
  induction 1 as [c|c op c1 ops c2 Hl Hrun _ IH]; intros Hg Hs; [done|].
  apply Forall_cons in Hs as [Hop Hs].
  destruct (has_globals_op op c c1 Hg Hl Hop Hrun) as [Hg1 Ht]. simpl. rewrite <- Ht. by apply IH.
Qed.

(** C32: the limits are those of the file. The eight static objects can be constructed before
    anything is loaded; from then on, whatever other values are constructed, copied and
    destroyed and whatever files are loaded, with or without success, reading the eight
    never faults, and gives what the last tree that was read has under their keys, or their
    defaults; [front_config_of] says which. *)
Theorem limits_follow_file c ops c' :
  construct_globals initial_config = Ok tt c -> config_ops c ops c' -> Forall spares_globals ops ->
  front_config c' = Ok (front_config_of (foldl tree_after empty_ptree ops)) c'.
Proof.
  rewrite construct_globals_eq. intros [= <-] Hops Hs.
  destruct (has_globals_ops _ _ _ Hops constructed_globals Hs) as [Hg Ht].
  by rewrite front_config_eq, Ht.
Qed.
End globals.

(** ** Witness: a file is loaded, and then one that cannot be read. *)

Definition limits_file : info :=
  Info [] [(str "front", Info [] [(str "connection_limit_hard", Info (str "20") []);
                                  (str "ws", Info [] [(str "socket_timeout", Info (str "8") [])])])].

Definition two_loads : list config_op :=
  [Load (fun _ => Some limits_file) []; Load (fun _ => None) (str "other.info")].

Definition limits_loaded : config_state :=
  mkConfig limits_file false globals (objects_of limits_file).

Lemma limits_follow_file_witness :
  front_config limits_loaded =
  Ok {| connection_limit_soft := 1000; connection_limit_hard := 20; message_max_size := 0x4000;
        rate_limit_messages := 100; rate_limit_bytes := 0x8000; ws_message_auto_fragment := true;
        ws_setup_timeout := 3; ws_timeout := 8 |} limits_loaded.
Proof.
  apply (limits_follow_file constructed two_loads); [reflexivity| |by repeat constructor].
  apply (config_ops_cons _ _ limits_loaded); [exact I|reflexivity|].
  apply (config_ops_cons _ _ limits_loaded); [exact I|reflexivity|apply config_ops_nil].
Defined.
