(* ===== verification/FrontProcess.v ===== *)
(** * The front server as one process

    What [Main.cpp] puts together: the main thread with the pool and the configuration, the
    acceptors of browsers and their connections on the instance [front] of the pool, and the
    acceptors and watchers of the cluster with theirs on the instance [cluster]. A handler
    runs on a thread of its instance, and reads the configuration as it is then. *)
From stdpp Require Import gmap.
From S2P Require Import Prelude Message ErrorCode Config AsioPool FrontMain Ssl.
From S2P Require Import ClusterConnection WsConnection Acceptor WsAcceptor ClusterAcceptor ClusterWatcher.
From S2P Require Import Front Cluster FrontStart FrontGlobals.

Section process.
Context `{PropertyTree, AsioNet, AsioErrors}.

Record front_process := mkFrontProcess {
  main_ : main_state;
  front_ : front;
  listeners_ : list ClusterAcceptor;
  watchers_ : list ClusterWatcher;
}.

Definition configuration (s : front_process) : config_state := config (proc (main_ s)).

(** The instances of the pool, in the order of their creation. *)
Definition front_asio : nat := 0.
Definition cluster_asio : nat := 1.

(** Instance [k] has a thread. *)
Definition has_thread (k : nat) (s : front_process) : Prop :=
  exists i, asios_ (proc (main_ s)) !! k = Some i /\ (0 < running i)%nat.

Definition alive (s : front_process) : Prop := forall c, pc (main_ s) <> Exited c.

(** ** The steps of the process *)
Inductive process_label :=
| MainLabel (l : main_label)
| FrontLabel (l : front_label)
| ListenerStep (i : nat) (l : ClusterAcceptor.label)
(** peer [j] of acceptor [i] *)
| PeerStep (i j : nat) (l : ClusterConnection.label)
| WatcherStep (i : nat) (l : watcher_label).

(** What runs on a thread of the pool. *)
Definition is_handler (l : process_label) : bool :=
  match l with
  | MainLabel _ | FrontLabel (Elapse _) | FrontLabel (ClientDestroyed _) => false
  | _ => true
  end.

Definition instance_of (l : process_label) : nat :=
  match l with
  | MainLabel _ | FrontLabel _ => front_asio
  | ListenerStep _ _ | PeerStep _ _ _ | WatcherStep _ _ => cluster_asio
  end.

(** The objects, reading the tree [t]. *)
Definition front_in (t : ptree) (f : front) : front :=
  mkFront (acceptors f)
    (mkShared (active_count (common f)) (clients (common f)) (clock (common f)) t).
Definition listener_in (t : ptree) (a : ClusterAcceptor) : ClusterAcceptor :=
  mkClusterAcceptor (ClusterAcceptor.acceptor_ a) (ClusterAcceptor.safe_link_ a) (peers a) t.

Definition with_peers (ps : list ClusterConnection.world) (a : ClusterAcceptor) : ClusterAcceptor :=
  mkClusterAcceptor (ClusterAcceptor.acceptor_ a) (ClusterAcceptor.safe_link_ a) ps (config_tree_ a).

(** What a label does to the objects, when the handlers read the tree [t]. The values that an
    acceptor that opens makes for the time of a call ([ConfigValue]s of [WsAcceptor::open] and
    [ClusterAcceptor::open]) enter the registry and leave it in the same handler: the
    configuration is the same before and after it. *)
Inductive objects_step (t : ptree) : front_process -> process_label -> front_process -> Prop :=
| front_handler (fc : FrontConfig) s l f' :
    front_config (configuration s) = Ok fc (configuration s) ->
    front_step (front_in t (front_ s)) l f' ->
    objects_step t s (FrontLabel l) (mkFrontProcess (main_ s) f' (listeners_ s) (watchers_ s))
| listener_handler s i l a a' :
    listeners_ s !! i = Some a -> ClusterAcceptor.enabled l a ->
    ClusterAcceptor.fire l (listener_in t a) = Ok tt a' ->
    objects_step t s (ListenerStep i l)
      (mkFrontProcess (main_ s) (front_ s) (<[i := a']> (listeners_ s)) (watchers_ s))
| peer_handler s i j l a peer peer' :
    listeners_ s !! i = Some a -> peers a !! j = Some peer ->
    ~ ClusterWatcher.unreferenced peer -> ClusterConnection.enabled l peer ->
    ClusterConnection.fire l peer = Ok tt peer' ->
    objects_step t s (PeerStep i j l)
      (mkFrontProcess (main_ s) (front_ s)
         (<[i := with_peers (<[j := peer']> (peers a)) a]> (listeners_ s)) (watchers_ s))
| watcher_handler s i l w w' :
    watchers_ s !! i = Some w -> watcher_step w l w' ->
    objects_step t s (WatcherStep i l)
      (mkFrontProcess (main_ s) (front_ s) (listeners_ s) (<[i := w']> (watchers_ s))).

(** One step: of the main thread, of a thread that leaves or of a signal handler; or of the
    objects, on a thread of their instance. *)
Inductive process_step : front_process -> process_label -> front_process -> Prop :=
| main_thread s l m' :
    main_fire l (main_ s) = Ok tt m' ->
    process_step s (MainLabel l) (mkFrontProcess m' (front_ s) (listeners_ s) (watchers_ s))
| pool_thread s l s' :
    alive s -> (is_handler l = true -> has_thread (instance_of l) s) ->
    objects_step (config_tree (configuration s)) s l s' -> process_step s l s'.

Inductive process_steps : front_process -> list process_label -> front_process -> Prop :=
| process_steps_nil s : process_steps s [] s
| process_steps_cons s l s1 ls s2 :
    process_step s l s1 -> process_steps s1 ls s2 -> process_steps s (l :: ls) s2.

Lemma process_steps_app s ls s1 ls' s2 :
  process_steps s ls s1 -> process_steps s1 ls' s2 -> process_steps s (ls ++ ls') s2.
Proof. induction 1; simpl; [done|]. intros. eapply process_steps_cons; eauto. Qed.

(** The main thread alone. *)
Lemma main_process_steps ls s m' :
  main_steps (main_ s) ls m' ->
  process_steps s (MainLabel <$> ls) (mkFrontProcess m' (front_ s) (listeners_ s) (watchers_ s)).
Proof.
  intros Hsteps. remember (main_ s) as m eqn:Hm. revert s Hm.
  induction Hsteps as [m|m l m1 ls m2 Hfire _ IH]; intros s ->.
  - destruct s. constructor.
  - rewrite fmap_cons. eapply process_steps_cons; [by apply main_thread|]. by apply (IH (mkFrontProcess m1 _ _ _)).
Qed.

(** ** The start

    [main] up to its loop, from the construction of the static objects on; the limits are
    those of the file that was loaded. *)
Inductive boots (answers : ConfigGroup -> open_answers * error_code) (ssl_fails : ssl_call -> bool)
    (junk : bool) (read_info : bytes -> option ptree) (now : Z) : front_process -> Prop :=
| boots_loop (fc : FrontConfig) c c1 s :
    construct_globals initial_config = Ok tt c ->
    load read_info [] c = Ok true c1 -> front_config c1 = Ok fc c1 ->
    start_front answers ssl_fails junk read_info (begun c now) = Ok true s ->
    boots answers ssl_fails junk read_info now
      (mkFrontProcess (entered (process_ s)) (mkFront (ws_acceptors s) (ws_shared s))
         (cluster_acceptors s) (snd <$> watchers s)).
End process.
