(* ===== verification/FrontProcessTheorems.v ===== *)
(** * What the process guarantees as a whole

    The configuration its handlers read, and the connections it holds across reloads. *)
From stdpp Require Import gmap.
From S2P Require Import Prelude Message ErrorCode Config ConfigTheorems InfoTree AsioPool FrontMain MainInvariant Ssl.
From S2P Require Import ClusterConnection WsConnection Acceptor WsAcceptor ClusterAcceptor ClusterWatcher.
From S2P Require Import Front FrontInvariant FrontTheorems Cluster FrontStart AcceptorTheorems StartTheorems FrontGlobals FrontProcess.

(** ** The main thread and the configuration *)

Section main_thread.
Context `{PropertyTree}.

Lemma int_value_config l c n c' : int_value l c = Ok n c' -> c' = c.
Proof.
  unfold int_value, deref, mbind, M_bind, gets. destruct (objects c !! l) as [[]|]; try done.
  by intros [= _ <-].
Qed.

Lemma run_step_config rpc p rpc' p' : run_step rpc p = Ok rpc' p' -> config p' = config p.
Proof.
  unfold run_step, mbind, M_bind, gets, set_asios, modify.
  destruct rpc as [i|i|i|]; [| | |by intros [= _ <-]];
    (destruct (asios_ p !! i); [|by intros [= _ <-]]).
  - by intros [= _ <-].
  - unfold on_config. destruct (int_value _ _) as [n c'| |] eqn:Hn; [|done..].
    apply int_value_config in Hn as ->. simpl. case_decide; by intros [= _ <-].
  - case_decide; [by intros [= _ <-]|done].
Qed.

(** Only the reload changes the configuration. *)
Lemma main_fire_config l s s' :
  main_fire l s = Ok tt s' ->
  config (proc s') = config (proc s) \/
  pc s = Reloading /\ exists read_info b, l = MainStep read_info /\
    load read_info [] (config (proc s)) = Ok b (config (proc s')).
Proof.
  unfold main_fire, mbind, M_bind, gets. intros Hfire.
  assert (match l with
          | MainStep read_info => main_step read_info
          | WorkerLeaves i => on_proc (worker_leaves i)
          | SigStop => sig_stop
          | SigReload => sig_reload
          end s = Ok tt s') as Hl by (by destruct (pc s)).
  clear Hfire. destruct l as [r|k| |].
  - unfold main_step, mbind, M_bind, gets in Hl. destruct (pc s) as [rpc| | | | |] eqn:Hpc; try done.
    + destruct rpc; [| | |by injection Hl as <-; left];
        (unfold on_proc in Hl; destruct (run_step _ _) as [rpc' p'| |] eqn:Hrun; try done;
         injection Hl as <-; left; by eapply run_step_config).
    + injection Hl as <-. by left.
    + injection Hl as <-. by left.
    + unfold on_proc, on_config in Hl. destruct (load r [] _) as [b c'| |] eqn:Hload; try done.
      right. split; [done|]. exists r, b. split; [done|]. injection Hl as <-. done.
    + injection Hl as <-. by left.
  - unfold on_proc, worker_leaves, mbind, M_bind, gets in Hl.
    destruct (asios_ _ !! k); [|done]. case_decide; [|done]. injection Hl as <-. by left.
  - injection Hl as <-. by left.
  - injection Hl as <-. by left.
Qed.

(** Outside of [AsioPool::run] no instance has a thread. *)
Lemma no_threads s k i :
  main_inv s -> asios_ (proc s) !! k = Some i ->
  match pc s with Running _ => False | _ => True end -> running i = 0%nat.
Proof.
  intros Hinv Hi Hpc. destruct (main_pool s Hinv k i Hi) as (n & _ & Hok).
  destruct (pc s); simpl in Hok; tauto.
Qed.
End main_thread.

(** ** The invariant *)

Section process.
Context `{PropertyTree, AsioNet, AsioErrors}.

(** The process has [n] acceptors of browsers, and at most [most] connections and accepts of
    browsers under way. *)
Record process_inv (most : Z) (n : nat) (s : front_process) : Prop := {
  process_main : main_inv (main_ s);
  process_globals : has_globals (configuration s);
  process_front : front_inv most n (front_ s);
  process_listeners : Forall (fun a => one_op_pending (ClusterAcceptor.acceptor_ a)) (listeners_ s);
  process_watchers : Forall watcher_inv (watchers_ s);
}.

(** The most that a configuration allows. *)
Definition allowed (n : nat) (t : ptree) : Z :=
  @connection_limit_hard (front_config_of t) + Z.of_nat n - 1.

Lemma main_fire_globals l s s' :
  main_inv s -> has_globals (config (proc s)) -> main_fire l s = Ok tt s' ->
  has_globals (config (proc s')) /\
  (config (proc s') = config (proc s) \/
   pc s = Reloading /\ exists read_info t, l = MainStep read_info /\
     read_info (str "config.info") = Some t /\ config_tree (config (proc s')) = t).
Proof.
  intros Hinv Hg Hfire. destruct (main_fire_config l s s' Hfire) as [->|(Hpc & r & b & Hl & Hload)].
  { by split; [|left]. }
  assert (run_op (Load r []) (config (proc s)) = Ok tt (config (proc s'))) as Hrun.
  { simpl. unfold mbind, M_bind. by rewrite Hload. }
  destruct (has_globals_op (Load r []) _ _ Hg I I Hrun) as [Hg' Ht]. split; [done|].
  rewrite load_spec in Hload by apply Hg. rewrite decide_True in Hload by done.
  change (config_tree (config (proc s')) =
          default (config_tree (config (proc s))) (r (str "config.info"))) in Ht.
  destruct (r (str "config.info")) as [t|] eqn:Hr; injection Hload as Hb Hc; [right|by left].
  split; [done|]. by exists r, t.
Qed.

Lemma listener_fire_pending l a a' :
  one_op_pending (ClusterAcceptor.acceptor_ a) -> ClusterAcceptor.enabled l a ->
  ClusterAcceptor.fire l a = Ok tt a' -> one_op_pending (ClusterAcceptor.acceptor_ a').
Proof.
  intros [op Hop] Hen Hfire. unfold ClusterAcceptor.enabled in Hen. rewrite Hop in Hen.
  apply list_elem_of_singleton in Hen as <-. unfold ClusterAcceptor.fire, mbind, M_bind, gets in Hfire.
  simpl in Hfire. rewrite Hop in Hfire. simpl in Hfire. rewrite decide_True in Hfire by done.
  destruct l as [ec e b len|r]; simpl in Hfire.
  - unfold ClusterAcceptor.on_accept, mbind, M_bind in Hfire. destruct (failed ec); simpl in Hfire.
    { injection Hfire as <-. by eexists. }
    destruct (failed e); [done|]. unfold make_peer, mbind, M_bind, gets in Hfire. simpl in Hfire.
    injection Hfire as <-. by eexists.
  - rewrite open_eq in Hfire. destruct (AcceptorTheorems.endpoint _) as [|ep]; [done|].
    destruct (open_socket _ _ _ _) as [ec o] eqn:Ho. injection Hfire as <-. unfold one_op_pending. simpl.
    assert (acceptor_pending o = []) as ->.
    { unfold open_socket in Ho. repeat case_match; injection Ho as <- <-; done. }
    by eexists.
Qed.

Lemma front_in_inv most n t f : front_inv most n f -> front_inv most n (front_in t f).
Proof. by intros []. Qed.

Lemma objects_step_inv most n s l s' :
  allowed n (config_tree (configuration s)) <= most -> process_inv most n s ->
  objects_step (config_tree (configuration s)) s l s' ->
  process_inv most n s' /\ main_ s' = main_ s.
Proof.
  intros Hmost [Hm Hg Hf Hl Hw] Hstep.
  inversion Hstep as [fc s1 lf f' Hfc Hfs|s1 i la a a' Hi Hen Hfire
                     |s1 i j lp a peer peer' Hi _ _ _ _|s1 i lw w w' Hi Hws]; subst;
    (split; [|done]); constructor; simpl; try done.
  - rewrite front_config_eq in Hfc by done. injection Hfc as <-.
    eapply (front_step_inv (H2 := front_config_of (config_tree (configuration s)))); [exact Hmost|exact Hfs|].
    by apply front_in_inv.
  - apply Forall_insert; [done|]. rewrite Forall_lookup in Hl.
    by eapply (listener_fire_pending la (listener_in (config_tree (configuration s)) a)); [apply (Hl i a)|..].
  - apply Forall_insert; [done|]. rewrite Forall_lookup in Hl. by apply (Hl i a).
  - apply Forall_insert; [done|]. rewrite Forall_lookup in Hw. by eapply watcher_step_inv, (Hw i).
Qed.

(** A step keeps the invariant; the configuration changes only while it is reloaded. *)
Lemma process_step_inv most n s l s' :
  allowed n (config_tree (configuration s)) <= most -> process_inv most n s ->
  process_step s l s' ->
  process_inv most n s' /\
  (configuration s' = configuration s \/
   pc (main_ s) = Reloading /\ exists read_info t, l = MainLabel (MainStep read_info) /\
     read_info (str "config.info") = Some t /\ config_tree (configuration s') = t).
Proof.
  intros Hmost Hinv Hstep. destruct Hstep as [s l m' Hfire|s l s' _ _ Hobj].
  - destruct Hinv as [Hm Hg Hf Hl Hw].
    pose proof (main_fire_inv l (main_ s) Hm) as Hm'. unfold wp in Hm'. rewrite Hfire in Hm'.
    destruct (main_fire_globals l _ _ Hm Hg Hfire) as [Hg' Hc]. split; [by constructor|].
    destruct Hc as [Hc|(Hpc & r & t & -> & Hr)]; [by left|right]. split; [done|]. by exists r, t.
  - destruct (objects_step_inv most n s l s' Hmost Hinv Hobj) as [Hinv' Heq]. split; [done|].
    left. unfold configuration. by rewrite Heq.
Qed.

Lemma process_inv_weaken most most' n s : most <= most' -> process_inv most n s -> process_inv most' n s.
Proof. intros Hle [Hm Hg [] Hl Hw]. constructor; try done. constructor; try done. lia. Qed.

(** Whatever the files say. *)
Lemma process_steps_some s ls s' most n :
  process_steps s ls s' -> process_inv most n s -> exists most', process_inv most' n s'.
Proof.
  intros Hsteps. revert most. induction Hsteps as [s|s l s1 ls s2 Hstep _ IH]; [by eauto|].
  intros most Hinv. set (m := most `max` allowed n (config_tree (configuration s))).
  apply (IH m). apply (process_step_inv m n s l s1); [unfold m; lia| |done].
  eapply process_inv_weaken; [|done]. unfold m. lia.
Qed.

(** Every file a reload reads has a hard limit of at most [B]. *)
Definition limited (B : Z) (l : process_label) : Prop :=
  match l with
  | MainLabel (MainStep read_info) =>
      forall t, read_info (str "config.info") = Some t ->
      @connection_limit_hard (front_config_of t) <= B
  | _ => True
  end.

Lemma process_steps_inv B most n s ls s' :
  process_steps s ls s' -> Forall (limited B) ls -> B + Z.of_nat n - 1 <= most ->
  @connection_limit_hard (front_config_of (config_tree (configuration s))) <= B ->
  process_inv most n s -> process_inv most n s'.
Proof.
  induction 1 as [s|s l s1 ls s2 Hstep _ IH]; [done|]. intros [Hl Hls]%Forall_cons HB Ht Hinv.
  destruct (process_step_inv most n s l s1) as [Hinv1 Hc]; [unfold allowed; lia|done|done|].
  apply IH; [done|done| |done]. destruct Hc as [->|(_ & r & t & -> & Hr & ->)]; [done|by apply Hl].
Qed.

(** What is under way does not exceed a bound that is met. *)
Lemma process_inv_now most n s :
  process_inv most n s ->
  process_inv (active_count (common (front_ s)) + Z.of_nat (accepts (acceptors (front_ s)))) n s.
Proof. intros [Hm Hg [] Hl Hw]. by repeat (constructor; try done). Qed.

(** ** The start *)

Section booted.
Variable answers : ConfigGroup -> open_answers * error_code.
Variable ssl_fails : ssl_call -> bool.
Variable junk : bool.
Variable read_info : bytes -> option ptree.
Variable now : Z.
Variable t : ptree.
Hypothesis Hread : read_info (str "config.info") = Some t.
Hypothesis Hhard : 0 < @connection_limit_hard (front_config_of t).
Hypothesis Hlisten : Forall (valid_group t (str "127.0.0.1")) (groups_of t (str "cluster.listen")).
Hypothesis Hconnect : Forall (valid_group t []) (groups_of t (str "cluster.connect")).
Hypothesis Hws : Forall (valid_group t (str "0.0.0.0")) (groups_of t (str "front.ws.listen")).

(** The acceptors of browsers. *)
Definition listeners_of_browsers : nat := length (groups_of t (str "front.ws.listen")).

Lemma new_watcher_inv w : connecting w -> watcher_inv w.
Proof.
  intros [Hp Hl]. constructor; rewrite ?Hp, ?Hl; simpl; [lia|done|by intros].
Qed.

(** What the process is made of. *)
Lemma boots_started s0 :
  boots answers ssl_fails junk read_info now s0 ->
  exists s, s0 = mkFrontProcess (entered (process_ s)) (mkFront (ws_acceptors s) (ws_shared s))
                   (cluster_acceptors s) (snd <$> watchers s) /\
    new_pool (process_ s) /\ front_pool t (process_ s) /\
    (forall l v, objects_of empty_ptree !! l = Some v ->
       objects (config (process_ s)) !! l = Some (refreshed t v)) /\
    started (process_ s) now (groups_of t (str "cluster.listen")) (groups_of t (str "cluster.connect"))
      (groups_of t (str "front.ws.listen")) s.
Proof.
  intros Hboots. destruct Hboots as [fc c c1 s Hc Hload Hfc Hstart].
  rewrite construct_globals_eq in Hc. injection Hc as <-.
  pose proof constructed_globals as Hg. pose proof (globals_inv _ Hg) as Hinv.
  rewrite load_spec in Hload by done. rewrite decide_True in Hload by done. rewrite Hread in Hload.
  injection Hload as <-. set (c1 := mkConfig _ _ _ _) in Hfc.
  assert (has_globals c1) as Hg1.
  { split; [by apply (inv_refreshed t constructed)|]. intros l v Hl. simpl in Hl. simpl.
    by rewrite (objects_of_refreshed empty_ptree t). }
  rewrite front_config_eq in Hfc by done. injection Hfc as <-.
  destruct (front_starts (H2 := front_config_of t) answers ssl_fails junk constructed now read_info t
              Hinv Hread Hhard Hlisten Hconnect Hws)
    as (p & s1 & Hrun & Hnew & Hpool & Hkeep & Hst).
  rewrite Hrun in Hstart. injection Hstart as ->. pose proof (started_process _ _ _ _ _ _ Hst) as <-.
  by exists s.
Qed.

Lemma boots_inv s0 :
  boots answers ssl_fails junk read_info now s0 ->
  process_inv (Z.max 0 (allowed listeners_of_browsers t)) listeners_of_browsers s0 /\
  config_tree (configuration s0) = t.
Proof.
  intros Hboots. destruct (boots_started s0 Hboots) as (s & -> & Hnew & Hpool & Hkeep & Hst).
  destruct Hst as [_ Hcl Hw Hwsg Hn Hcs Hlo Hwo Hwso].
  split; [|apply (pool_tree _ _ Hpool)]. constructor; simpl.
  - by apply entered_inv.
  - split; [apply Hnew|]. intros l v. unfold configuration. simpl. rewrite (pool_tree _ _ Hpool).
    rewrite <- (objects_of_refreshed empty_ptree t), lookup_fmap.
    destruct (objects_of empty_ptree !! l) as [v0|] eqn:Hv0; [|done]. intros [= <-].
    by apply Hkeep.
  - assert (length (ws_acceptors s) = listeners_of_browsers) as Hlen.
    { unfold listeners_of_browsers. by rewrite <- Hwsg, length_fmap. }
    constructor; simpl; [done|done|by rewrite Hn, Hcs|].
    rewrite Hn. pose proof (accepts_le (ws_acceptors s)). unfold allowed. lia.
  - eapply Forall_impl; [exact Hlo|]. by intros a [].
  - apply Forall_fmap. eapply Forall_impl; [exact Hwo|]. intros x. apply new_watcher_inv.
Qed.

(** The start succeeds. *)
Lemma boots_some : exists s0, boots answers ssl_fails junk read_info now s0.
Proof.
  pose proof constructed_globals as Hg. pose proof (globals_inv _ Hg) as Hinv.
  destruct (front_starts (H2 := front_config_of t) answers ssl_fails junk constructed now read_info t
              Hinv Hread Hhard Hlisten Hconnect Hws) as (p & s1 & Hrun & _).
  eexists. eapply (boots_loop _ _ _ _ _ (front_config_of t) constructed
                     (mkConfig t false globals (refreshed t <$> objects_of empty_ptree)) s1).
  - apply construct_globals_eq.
  - rewrite load_spec by done. rewrite decide_True by done. by rewrite Hread.
  - apply (front_config_eq (mkConfig t false globals (refreshed t <$> objects_of empty_ptree))).
    split; [by apply (inv_refreshed t constructed)|]. intros l v. simpl.
    by rewrite (objects_of_refreshed empty_ptree t).
  - exact Hrun.
Qed.

(** No thread of the pool runs outside of [AsioPool::run]. *)
Lemma handler_running most n s l s' :
  process_inv most n s -> is_handler l = true -> process_step s l s' ->
  exists rpc, pc (main_ s) = Running rpc.
Proof.
  intros Hinv Hl Hstep. destruct Hstep as [s l m' _|s l s' _ Hthread _]; [done|].
  destruct (Hthread Hl) as (i & Hi & Hrun).
  pose proof (no_threads (main_ s) _ i (process_main _ _ _ Hinv) Hi) as Hno.
  destruct (pc (main_ s)); [by eexists|exfalso; specialize (Hno I); lia..].
Qed.

(** C35: the handlers read the file, and never while it is read. In every state the process
    comes to, the limits that its handlers read are those of the present tree; a handler, of
    the front or of the cluster, runs only while the main thread is in [AsioPool::run], and
    leaves the configuration as it is; and the one step that changes it, the reload, happens
    when no thread of the pool is left, and gives it the tree of the file. *)
Theorem handlers_read_the_file s0 ls s :
  boots answers ssl_fails junk read_info now s0 -> process_steps s0 ls s ->
  front_config (configuration s) =
    Ok (front_config_of (config_tree (configuration s))) (configuration s) /\
  (forall l s', is_handler l = true -> process_step s l s' ->
     configuration s' = configuration s /\ exists rpc, pc (main_ s) = Running rpc) /\
  (forall l s', process_step s l s' -> configuration s' <> configuration s ->
     (forall k, ~ has_thread k s) /\
     exists read_info t', l = MainLabel (MainStep read_info) /\
       read_info (str "config.info") = Some t' /\ config_tree (configuration s') = t').
Proof.
  intros Hboots Hsteps. destruct (boots_inv s0 Hboots) as [Hinv0 _].
  destruct (process_steps_some _ _ _ _ _ Hsteps Hinv0) as [m Hinv].
  set (m' := m `max` allowed listeners_of_browsers (config_tree (configuration s))).
  assert (process_inv m' listeners_of_browsers s) as Hinv'.
  { eapply process_inv_weaken; [|done]. unfold m'. lia. }
  assert (forall l s', process_step s l s' -> configuration s' = configuration s \/
    pc (main_ s) = Reloading /\ exists read_info t, l = MainLabel (MainStep read_info) /\
      read_info (str "config.info") = Some t /\ config_tree (configuration s') = t) as Hcase.
  { intros l s' Hstep. by apply (process_step_inv m' listeners_of_browsers s l s'); [unfold m'; lia|..]. }
  split; [apply front_config_eq, (process_globals _ _ _ Hinv)|]. split; intros l s'.
  - intros Hl Hstep. split; [|by eapply handler_running].
    destruct (Hcase l s' Hstep) as [|(_ & r & t' & -> & _)]; [done|discriminate].
  - intros Hstep Hne. destruct (Hcase l s' Hstep) as [|(Hpc & Hr)]; [done|]. split; [|exact Hr].
    intros k (i & Hi & Hrun).
    pose proof (no_threads (main_ s) k i (process_main _ _ _ Hinv) Hi) as Hno.
    rewrite Hpc in Hno. specialize (Hno I). lia.
Qed.

(** C36: the connections stay bounded across reloads. From the start of the process on,
    whatever the order of its steps, signals and reloads included: the count of connections
    is the number of those that live, every acceptor, of browsers and of the cluster, has
    exactly one operation pending, and every watcher at most one.
    From any moment on, as long as the hard limits of the file in force and of the files that
    are loaded are at most [B], the count stays below [B] plus the number of acceptors, less
    one, or, when the limit was lowered below what there was, at most at what there was, the
    accepts under way included. *)
Theorem connections_across_reloads s0 ls s ls' s' B :
  boots answers ssl_fails junk read_info now s0 -> process_steps s0 ls s ->
  process_steps s ls' s' -> Forall (limited B) ls' ->
  @connection_limit_hard (front_config_of (config_tree (configuration s))) <= B ->
  active_count (common (front_ s')) = Z.of_nat (length (clients (common (front_ s')))) /\
  0 <= active_count (common (front_ s')) <=
    Z.max (active_count (common (front_ s)) + Z.of_nat (accepts (acceptors (front_ s))))
          (B + Z.of_nat listeners_of_browsers - 1) /\
  Forall (fun a => length (acceptor_pending a) = 1%nat) (acceptors (front_ s')) /\
  Forall (fun a => length (acceptor_pending (ClusterAcceptor.acceptor_ a)) = 1%nat) (listeners_ s') /\
  Forall (fun w => (length (watcher_pending w) <= 1)%nat) (watchers_ s').
Proof.
  intros Hboots Hsteps Hsteps' Hls HB. destruct (boots_inv s0 Hboots) as [Hinv0 _].
  destruct (process_steps_some _ _ _ _ _ Hsteps Hinv0) as [m Hinv].
  apply process_inv_now in Hinv.
  set (most := Z.max _ (B + Z.of_nat listeners_of_browsers - 1)).
  assert (process_inv most listeners_of_browsers s') as [_ _ [Hn Hp Hc Hb] Hl Hw].
  { eapply (process_steps_inv B); [exact Hsteps'|done| |done|]; [unfold most; lia|].
    eapply process_inv_weaken; [|exact Hinv]. unfold most. lia. }
  split_and!; [done|lia|lia| | |].
  - eapply Forall_impl; [exact Hp|]. by intros a [op ->].
  - eapply Forall_impl; [exact Hl|]. by intros a [op ->].
  - eapply Forall_impl; [exact Hw|]. by intros w [].
Qed.
End booted.
End process.

(** ** Witnesses *)

#[local] Existing Instance any_address.
#[local] Existing Instance linux_errors.

(** One acceptor, one thread for the front and one for the cluster, and at most one
    connection. *)
Definition small_file : @ptree info_property_tree :=
  let leaf key text := (str key, Info (str text) []) in
  Info [] [(str "cluster", Info [] [leaf "threads" "1"]);
           (str "front", Info [] [leaf "threads" "1"; leaf "connection_limit_hard" "1";
              (str "ws", Info [] [(str "listen", Info [] [(str "web", Info [] [])])])])].

Definition small_file_read : bytes -> option (@ptree info_property_tree) := fun _ => Some small_file.
Definition all_answers : ConfigGroup -> open_answers * error_code := fun _ => (all_well, success).

Definition small_start : startup := Eval vm_compute in
  match start_front (H2 := front_config_of small_file) all_answers (fun _ => false) false small_file_read
          (begun constructed 0) with
  | Ok _ s => s
  | _ => begun constructed 0
  end.

Definition small_process : front_process :=
  mkFrontProcess (entered (process_ small_start)) (mkFront (ws_acceptors small_start) (ws_shared small_start))
    (cluster_acceptors small_start) (snd <$> watchers small_start).

(** The pool starts its two threads. *)
Definition after_main (ls : list main_label) (s : front_process) : front_process :=
  match main_play ls (main_ s) with
  | Some m => mkFrontProcess m (front_ s) (listeners_ s) (watchers_ s)
  | None => s
  end.

Definition small_main : main_label := MainStep small_file_read.

Definition small_running : front_process := Eval vm_compute in
  after_main (replicate 7 small_main) small_process.

(** A client comes. *)
Definition one_client : front := Eval vm_compute in
  default listening (front_fire (H2 := front_config_of small_file) (AcceptorStep 0 client_comes)
                       (front_in small_file (front_ small_running))).

Definition small_client : front_process := Eval vm_compute in
  mkFrontProcess (main_ small_running) one_client (listeners_ small_running) (watchers_ small_running).

Lemma small_boots : boots all_answers (fun _ => false) false small_file_read 0 small_process.
Proof.
  apply (boots_loop _ _ _ _ _ (front_config_of small_file) constructed
           (mkConfig small_file false globals (objects_of small_file)) small_start);
    reflexivity.
Qed.

Lemma small_runs : process_steps small_process (MainLabel <$> replicate 7 small_main) small_running.
Proof. apply (main_process_steps (replicate 7 small_main) small_process), main_play_steps. reflexivity. Qed.

Lemma small_comes : process_steps small_running [FrontLabel (AcceptorStep 0 client_comes)] small_client.
Proof.
  eapply process_steps_cons; [|apply process_steps_nil]. apply pool_thread; [done| |].
  - intros _. eexists. split; [reflexivity|]. simpl. lia.
  - apply (front_handler _ (front_config_of small_file) small_running); [reflexivity|].
    apply front_fire_step. reflexivity.
Qed.

(** The hypotheses of the theorems. *)
Lemma small_groups :
  Forall (valid_group small_file (str "127.0.0.1")) (groups_of small_file (str "cluster.listen")) /\
  Forall (valid_group small_file []) (groups_of small_file (str "cluster.connect")) /\
  Forall (valid_group small_file (str "0.0.0.0")) (groups_of small_file (str "front.ws.listen")).
Proof. split_and!; repeat constructor; by eexists. Qed.

Lemma small_all : process_steps small_process
  ((MainLabel <$> replicate 7 small_main) ++ [FrontLabel (AcceptorStep 0 client_comes)]) small_client.
Proof. eapply process_steps_app; [apply small_runs|apply small_comes]. Qed.

Lemma handlers_read_the_file_witness :
  front_config (configuration small_client) =
    Ok (front_config_of small_file) (configuration small_client) /\
  (forall l s', is_handler l = true -> process_step small_client l s' ->
     configuration s' = configuration small_client /\
     exists rpc, pc (main_ small_client) = Running rpc) /\
  (forall l s', process_step small_client l s' -> configuration s' <> configuration small_client ->
     (forall k, ~ has_thread k small_client) /\
     exists read_info t', l = MainLabel (MainStep read_info) /\
       read_info (str "config.info") = Some t' /\ config_tree (configuration s') = t').
Proof.
  destruct small_groups as (H1 & H2 & H3).
  exact (handlers_read_the_file all_answers (fun _ => false) false small_file_read 0 small_file
           eq_refl eq_refl H1 H2 H3 _ _ small_client small_boots small_all).
Defined.

(** The one connection that the file allows. *)
Lemma connections_across_reloads_witness :
  active_count (common (front_ small_client)) = 1 /\
  1 = Z.of_nat (length (clients (common (front_ small_client)))) /\
  0 <= 1 <= Z.max 1 (1 + 1 - 1) /\
  Forall (fun a => length (acceptor_pending a) = 1%nat) (acceptors (front_ small_client)) /\
  Forall (fun a => length (acceptor_pending (ClusterAcceptor.acceptor_ a)) = 1%nat)
    (listeners_ small_client) /\
  Forall (fun w => (length (watcher_pending w) <= 1)%nat) (watchers_ small_client).
Proof.
  destruct small_groups as (H1 & H2 & H3). split; [reflexivity|].
  refine (connections_across_reloads all_answers (fun _ => false) false small_file_read 0 small_file
            eq_refl eq_refl H1 H2 H3 _ _ small_running _ small_client 1 small_boots small_runs
            small_comes _ _); [by repeat constructor|].
  by apply Z.leb_le.
Defined.
