(* ===== verification/ClusterProcess.v ===== *)
(** * The cluster connections of a process

    Each of them has gone through a run of [ClusterConnection], so what the runs guarantee
    holds in the process that makes the connections. *)
From S2P Require Import Prelude Message ErrorCode Config InfoTree AsioPool FrontMain Ssl.
From S2P Require Import ClusterConnection ClusterReceive ClusterInvariant ClusterClosing Acceptor ClusterAcceptor ClusterWatcher.
From S2P Require Import AcceptorTheorems Cluster FrontStart StartTheorems FrontGlobals Front FrontProcess FrontProcessTheorems.

Section cluster.
Context `{PropertyTree, AsioNet, AsioErrors}.

(** A cluster connection that has gone through a run, accepted or made. *)
Definition ran (w : world) : Prop :=
  exists role safe_link b len w0 ls,
    ClusterConnection.run role safe_link (construct b len) = Ok tt w0 /\ ClusterConnection.steps w0 ls w.

Lemma run_ran role safe_link b len w :
  ClusterConnection.run role safe_link (construct b len) = Ok tt w -> ran w.
Proof. intros Hrun. exists role, safe_link, b, len, w, []. split; [done|apply ClusterConnection.steps_nil]. Qed.

Lemma ran_fire l w w' : ran w -> ClusterConnection.enabled l w -> ClusterConnection.fire l w = Ok tt w' -> ran w'.
Proof.
  intros (role & sl & b & len & w0 & ls & Hrun & Hsteps) Hen Hfire.
  exists role, sl, b, len, w0, (ls ++ [l]). split; [done|]. by eapply connection_steps_snoc.
Qed.

(** Every connection of the process has gone through a run. *)
Record cluster_ran (s : front_process) : Prop := {
  peers_ran : Forall (fun a => Forall ran (peers a)) (listeners_ s);
  links_ran : Forall (fun w => Forall ran (links w)) (watchers_ s);
}.

Lemma listener_fire_peers l a a' :
  Forall ran (peers a) -> ClusterAcceptor.fire l a = Ok tt a' -> Forall ran (peers a').
Proof.
  intros Hp. unfold ClusterAcceptor.fire, mbind, M_bind, gets. simpl.
  destruct l as [ec e b len|r]; simpl.
  - unfold ClusterAcceptor.on_accept, mbind, M_bind. destruct (failed ec); simpl.
    { by intros [= <-]. }
    destruct (failed e); [done|]. unfold make_peer, mbind, M_bind, gets.
    set (sl := ClusterAcceptor.safe_link_ _).
    destruct (ClusterConnection.run _ _ _) as [[] peer| |] eqn:Hrun; try done.
    intros [= <-]. simpl. apply Forall_app. split; [done|]. apply Forall_singleton.
    by eapply run_ran.
  - rewrite open_eq. destruct (AcceptorTheorems.endpoint _) as [|ep]; [done|].
    destruct (open_socket _ _ _ _) as [ec o]. by intros [= <-].
Qed.

Lemma watcher_step_links w l w' :
  Forall ran (links w) -> watcher_step w l w' -> Forall ran (links w').
Proof.
  intros Hl Hstep. destruct Hstep as [w ops ec e b len w' _ Hrun|w ops d ec w' _ Hrun|w i l link link' Hi _ Hen Hfire].
  - unfold on_connect, mbind, M_bind in Hrun. destruct (failed ec); [by injection Hrun as <-|].
    destruct (failed e); [done|]. unfold make_link, mbind, M_bind, gets in Hrun.
    set (sl := ClusterWatcher.safe_link_ _) in Hrun.
    destruct (ClusterConnection.run _ _ _) as [[] link| |] eqn:Hlink; try done.
    injection Hrun as <-. simpl. apply Forall_app. split; [done|]. apply Forall_singleton.
    by eapply run_ran.
  - unfold on_timer, mbind, M_bind, gets in Hrun. case_decide; [by injection Hrun as <-|].
    destruct (expired _); by injection Hrun as <-.
  - apply Forall_insert; [done|]. rewrite Forall_lookup in Hl. by eapply ran_fire; [apply (Hl i)|..].
Qed.

Lemma cluster_ran_step s l s' : process_step s l s' -> cluster_ran s -> cluster_ran s'.
Proof.
  intros Hstep Hs. destruct Hstep as [s l m' _|s l s' _ _ Hobj]; [by destruct Hs|].
  destruct Hs as [Hp Hl].
  remember (config_tree (configuration s)) as t eqn:Ht.
  destruct Hobj as [fc s l f' _ _|s i l a a' Hi _ Hfire|s i j l a peer peer' Hi Hj _ Hen Hfire|s i l w w' Hi Hws];
    constructor; simpl; try done; apply Forall_insert; try done.
  - rewrite Forall_lookup in Hp.
    by eapply (listener_fire_peers l (listener_in t a)); [exact (Hp i a Hi)|].
  - rewrite Forall_lookup in Hp. specialize (Hp i a Hi). simpl. apply Forall_insert; [done|].
    rewrite Forall_lookup in Hp. by eapply ran_fire; [apply (Hp j)|..].
  - rewrite Forall_lookup in Hl. by eapply watcher_step_links; [apply (Hl i)|].
Qed.

Lemma cluster_ran_steps s ls s' : process_steps s ls s' -> cluster_ran s -> cluster_ran s'.
Proof. induction 1; eauto using cluster_ran_step. Qed.

(** A connection has said nothing, and its TLS handshake cannot succeed. *)
Definition mute_connection (w : world) : Prop :=
  writes (trace w) = [] /\ processed (trace w) = [] /\
  forall role ec, failed ec = false ->
    ClusterConnection.fire (HandshakeDone role ec) w = Err NullDereference.

Lemma ran_mute w : ran w -> mute_connection w.
Proof.
  intros (role & sl & b & len & w0 & ls & Hrun & Hsteps).
  assert (waiting w) as Hw by (eapply waiting_steps; [exact Hsteps|by eapply run_waiting]).
  pose proof Hw as (_ & _ & _ & Hwr & Hp). split_and!; [done..|].
  intros role' ec Hec. by apply waiting_faults.
Qed.

Section booted.
Variable answers : ConfigGroup -> open_answers * error_code.
Variable ssl_fails : ssl_call -> bool.
Variable junk : bool.
Variable read_info : bytes -> option ptree.
Variable now : Z.
Variable t : ptree.
Hypothesis Hread : read_info (str "config.info") = Some t.
Hypothesis Hhard : 0 < @WsConnection.connection_limit_hard (front_config_of t).
Hypothesis Hlisten : Forall (valid_group t (str "127.0.0.1")) (groups_of t (str "cluster.listen")).
Hypothesis Hconnect : Forall (valid_group t []) (groups_of t (str "cluster.connect")).
Hypothesis Hws : Forall (valid_group t (str "0.0.0.0")) (groups_of t (str "front.ws.listen")).

(** The connections of a cluster behave as connections do: whatever happens in the process,
    every one of them, accepted or made, has gone through a run of a connection from its
    start. *)
Theorem cluster_connections_are_runs s0 ls s :
  boots answers ssl_fails junk read_info now s0 -> process_steps s0 ls s -> cluster_ran s.
Proof.
  intros Hboots Hsteps.
  destruct (boots_started answers ssl_fails junk read_info now t Hread Hhard Hlisten Hconnect Hws s0 Hboots)
    as (s1 & -> & _ & _ & _ & Hst).
  eapply cluster_ran_steps; [exact Hsteps|]. destruct Hst as [_ _ _ _ _ _ Hlo Hwo _].
  constructor; simpl.
  - eapply Forall_impl; [exact Hlo|]. by intros a [_ ->].
  - apply Forall_fmap. eapply Forall_impl; [exact Hwo|]. simpl. by intros x [_ ->].
Qed.

(** C16: the servers of a cluster never talk. From the start of the process on, whatever peers
    come and are connected to, whatever is sent and in whatever order everything happens,
    reloads included, no connection of the cluster, accepted or made, has written a byte of
    a message or received one: and the handler of a TLS handshake that succeeds, on any of
    them, follows a null pointer, since the message it is to send was never made. *)
Theorem cluster_never_talks s0 ls s :
  boots answers ssl_fails junk read_info now s0 -> process_steps s0 ls s ->
  Forall (fun a => Forall mute_connection (peers a)) (listeners_ s) /\
  Forall (fun w => Forall mute_connection (links w)) (watchers_ s).
Proof.
  intros Hboots Hsteps. destruct (cluster_connections_are_runs s0 ls s Hboots Hsteps) as [Hp Hl].
  split; (eapply Forall_impl; [eassumption|]); intros x Hx; (eapply Forall_impl; [exact Hx|]);
    apply ran_mute.
Qed.
End booted.
End cluster.

(** ** Witness: a peer comes to the acceptor of a cluster. *)

#[local] Existing Instance any_address.
#[local] Existing Instance linux_errors.

Definition cluster_file : @ptree info_property_tree :=
  let leaf key text := (str key, Info (str text) []) in
  Info [] [(str "cluster", Info [] [leaf "threads" "1";
              (str "listen", Info [] [(str "here", Info [] [])])]);
           (str "front", Info [] [leaf "threads" "1"])].

Definition cluster_file_read : bytes -> option (@ptree info_property_tree) := fun _ => Some cluster_file.

Definition cluster_start : startup := Eval vm_compute in
  match start_front (H2 := front_config_of cluster_file) all_answers (fun _ => false) false
          cluster_file_read (begun constructed 0) with
  | Ok _ s => s
  | _ => begun constructed 0
  end.

Definition cluster_process : front_process :=
  mkFrontProcess (entered (process_ cluster_start))
    (mkFront (ws_acceptors cluster_start) (ws_shared cluster_start))
    (cluster_acceptors cluster_start) (snd <$> watchers cluster_start).

Definition cluster_main : list main_label := replicate 7 (MainStep cluster_file_read).

Definition cluster_running : front_process := Eval vm_compute in after_main cluster_main cluster_process.

Definition peer_comes : ClusterAcceptor.label := AcceptDone success success false [].

Definition with_peer : ClusterAcceptor := Eval vm_compute in
  match listeners_ cluster_running with
  | a :: _ => match ClusterAcceptor.fire peer_comes a with Ok _ a' => a' | _ => a end
  | [] => idle (mkConfigGroup []) false cluster_file
  end.

Definition cluster_peer : front_process := Eval vm_compute in
  mkFrontProcess (main_ cluster_running) (front_ cluster_running) [with_peer] (watchers_ cluster_running).

Lemma cluster_boots : boots all_answers (fun _ => false) false cluster_file_read 0 cluster_process.
Proof.
  apply (boots_loop _ _ _ _ _ (front_config_of cluster_file) constructed
           (mkConfig cluster_file false globals (objects_of cluster_file)) cluster_start);
    reflexivity.
Qed.

Lemma cluster_runs : process_steps cluster_process (MainLabel <$> cluster_main) cluster_running.
Proof. apply (main_process_steps cluster_main cluster_process), main_play_steps. reflexivity. Qed.

Lemma cluster_peer_comes : process_steps cluster_running [ListenerStep 0 peer_comes] cluster_peer.
Proof.
  eapply process_steps_cons; [|apply process_steps_nil]. apply pool_thread; [done| |].
  - intros _. eexists. split; [reflexivity|]. simpl. lia.
  - refine (listener_handler _ cluster_running 0 peer_comes
              (default (idle (mkConfigGroup []) false cluster_file) (listeners_ cluster_running !! 0%nat))
              with_peer _ _ _); [reflexivity|by left|reflexivity].
Qed.

Lemma cluster_never_talks_witness :
  length (peers with_peer) = 1%nat /\
  Forall (fun a => Forall mute_connection (peers a)) (listeners_ cluster_peer) /\
  Forall (fun w => Forall mute_connection (links w)) (watchers_ cluster_peer).
Proof.
  split; [reflexivity|].
  refine (cluster_never_talks all_answers (fun _ => false) false cluster_file_read 0 cluster_file
            eq_refl eq_refl _ _ _ _ _ cluster_peer cluster_boots
            (process_steps_app _ _ _ _ _ cluster_runs cluster_peer_comes));
    repeat constructor; by eexists.
Defined.
