(* ===== verification/WsProcess.v ===== *)
(** * The connections to browsers of a process

    The invariants of [WsInvariant] and [WsSafe] hold of every connection of the process,
    whatever is reloaded in between: so no handler of any of them faults. *)
From stdpp Require Import gmap.
From S2P Require Import Prelude Message ErrorCode Config InfoTree AsioPool FrontMain Ssl ClusterConnection.
From S2P Require Import WsConnection WsInvariant WsSend WsSafe Acceptor WsAcceptor.
From S2P Require Import Front FrontInvariant FrontTheorems Cluster FrontStart StartTheorems FrontGlobals.
From S2P Require Import FrontProcess FrontProcessTheorems.

Section process.
Context `{PropertyTree, AsioNet, AsioErrors}.
Variable most : Z.
Hypothesis Hmost : 0 <= most < int_max.

(** A connection that is in order, at any time. *)
Definition sound (_ : Z) (w : WsConnection.world) : Prop := inv w /\ paced_within most 0 w.

Lemma sound_start (fc : FrontConfig) time n w :
  WsConnection.run (WsConnection.construct time n) = Ok tt w -> sound time w.
Proof.
  intros Hrun. split; [|by eapply paced_start]. by destruct (ws_run_start _ _ _ Hrun).
Qed.

(** Its handlers run to their end. *)
Lemma sound_runs (fc : FrontConfig) l s w :
  roomy fc most -> WsConnection.enabled l w -> sound (clock s) w ->
  exists w', WsConnection.fire l (sync s w) = Ok tt w' /\ sound (clock s) w'.
Proof.
  intros Hr Hen [[] []].
  destruct (paced_runs most Hmost Hr l (sync s w)) as (w' & ? & ? & ?); [by constructor..|done|].
  by exists w'.
Qed.

Lemma sound_step (fc : FrontConfig) f l f' :
  roomy fc most -> Forall (fun a => exists op, acceptor_pending a = [op]) (acceptors f) ->
  front_step f l f' -> all_clients sound (common f) -> all_clients sound (common f').
Proof.
  intros Hr. apply clients_step.
  - apply (sound_start fc).
  - done.
  - intros l0 s w w' _ Hen Hfire Hw. destruct (sound_runs fc l0 s w Hr Hen Hw) as (w1 & Hw1 & Hs).
    rewrite Hw1 in Hfire. by injection Hfire as <-.
Qed.

(** The tree leaves room, and so do the files that are loaded. *)
Definition roomy_tree (t : ptree) : Prop := roomy (front_config_of t) most.

Definition loads_roomy (l : process_label) : Prop :=
  match l with
  | MainLabel (MainStep read_info) => forall t, read_info (str "config.info") = Some t -> roomy_tree t
  | _ => True
  end.

Definition in_order (s : front_process) : Prop :=
  roomy_tree (config_tree (configuration s)) /\ all_clients sound (common (front_ s)).

Lemma in_order_step most' n s l s' :
  allowed n (config_tree (configuration s)) <= most' -> process_inv most' n s ->
  loads_roomy l -> process_step s l s' -> in_order s -> in_order s'.
Proof.
  intros Hle Hinv Hl Hstep [Ht Hs].
  destruct (process_step_inv most' n s l s' Hle Hinv Hstep) as [_ Hc]. split.
  { destruct Hc as [->|(_ & r & t & -> & Hr & ->)]; [done|by apply Hl]. }
  destruct Hstep as [s l m' _|s l s' _ _ Hobj]; [done|]. clear Hc.
  inversion Hobj as [fc s1 lf f' Hfc Hfs| | |]; subst; try done. simpl.
  rewrite front_config_eq in Hfc by apply Hinv. injection Hfc as <-.
  eapply (sound_step (front_config_of (config_tree (configuration s)))); [exact Ht| |exact Hfs|exact Hs].
  apply (process_front _ _ _ Hinv).
Qed.

Lemma in_order_steps most' n s ls s' :
  process_steps s ls s' -> Forall loads_roomy ls -> process_inv most' n s -> in_order s -> in_order s'.
Proof.
  intros Hsteps. revert most'. induction Hsteps as [s|s l s1 ls s2 Hstep _ IH]; [done|].
  intros most' [Hl Hls]%Forall_cons Hinv Hs.
  set (m := most' `max` allowed n (config_tree (configuration s))).
  assert (allowed n (config_tree (configuration s)) <= m) as Hle by (unfold m; lia).
  assert (process_inv m n s) as Hm by (eapply process_inv_weaken; [|done]; unfold m; lia).
  apply (IH m); [done| |by eapply in_order_step].
  by apply (process_step_inv m n s l s1).
Qed.

Section booted.
Variable answers : ConfigGroup -> open_answers * error_code.
Variable ssl_fails : ssl_call -> bool.
Variable junk : bool.
Variable read_info : bytes -> option ptree.
Variable now : Z.
Variable t : ptree.
Hypothesis Hread : read_info (str "config.info") = Some t.
Hypothesis Hhard : 0 < @connection_limit_hard (front_config_of t).
Hypothesis Hlisten : Forall (valid_group t (str "127.0.0.1")) (groups_of t (str "cluster.listen")).
Hypothesis Hconnect : Forall (valid_group t []) (groups_of t (str "cluster.connect")).
Hypothesis Hws : Forall (valid_group t (str "0.0.0.0")) (groups_of t (str "front.ws.listen")).
Hypothesis Hroomy : roomy_tree t.

(** C22: no handler of a connection to a browser faults, in the whole life of the process.
    Whatever the clients send, whatever order the handlers of all connections run in and
    whatever files are loaded in between, as long as each leaves the timeout and the limit
    of messages room in an [int]: every handler of every connection that can run, on a
    thread of its pool, runs to its end, so that none follows a null pointer and no counter
    overflows; and every connection has at most one write under way, and at most one
    operation that receives. *)
Theorem browsers_never_fault s0 ls s :
  boots answers ssl_fails junk read_info now s0 -> process_steps s0 ls s -> Forall loads_roomy ls ->
  Forall (fun w => (write_count (WsConnection.pending w) <= 1)%nat /\
                   (receive_count (WsConnection.pending w) <= 1)%nat /\
                   0 <= rate_limit_messages_ (WsConnection.conn w) <= most + 1)
    (clients (common (front_ s))) /\
  forall j w l, clients (common (front_ s)) !! j = Some w ->
    alive s -> has_thread front_asio s ->
    own l = true -> WsConnection.enabled l w -> ~ Front.unreferenced w ->
    exists s', process_step s (FrontLabel (ClientStep j l)) s'.
Proof.
  intros Hboots Hsteps Hls.
  destruct (boots_inv answers ssl_fails junk read_info now t Hread Hhard Hlisten Hconnect Hws s0 Hboots)
    as [Hinv0 Ht0].
  destruct (boots_started answers ssl_fails junk read_info now t Hread Hhard Hlisten Hconnect Hws s0 Hboots)
    as (s1 & -> & _ & _ & _ & Hst).
  destruct (process_steps_some _ _ _ _ _ Hsteps Hinv0) as [m Hinv].
  destruct (in_order_steps _ _ _ _ _ Hsteps Hls Hinv0) as [Ht Hs].
  { split; [by rewrite Ht0|]. unfold all_clients. simpl. by rewrite (started_clients _ _ _ _ _ _ Hst). }
  unfold all_clients in Hs. split.
  - eapply Forall_impl; [exact Hs|]. intros w [[Hw _ _ _ _] [Hc Hm _]].
    split_and!; [destruct (is_writing_ (WsConnection.conn w)); lia|lia|lia|lia].
  - intros j w l Hj Halive Hthread Hown Hen Href. rewrite Forall_lookup in Hs.
    set (tree := config_tree (configuration s)) in *.
    destruct (sound_runs (front_config_of tree) l (common (front_in tree (front_ s))) w Ht Hen
                (Hs j w Hj)) as (w' & Hfire & _).
    eexists. apply pool_thread; [done|done|]. eapply (front_handler _ (front_config_of tree)).
    + apply front_config_eq, (process_globals _ _ _ Hinv).
    + by eapply (client_step (front_in tree (front_ s)) j l w).
Qed.
End booted.
End process.

(** ** Witness: a client that comes, and the completion of its handshake. *)

#[local] Existing Instance any_address.
#[local] Existing Instance linux_errors.

Definition coming_client : WsConnection.world := Eval vm_compute in
  default (WsConnection.construct 0 0)
    (clients (common (front_ small_client)) !! 0%nat).

Lemma small_file_roomy : roomy_tree 100 small_file.
Proof. constructor; [by split; apply Z.leb_le|by apply Z.leb_le]. Qed.

Lemma browsers_never_fault_witness :
  exists s', process_step small_client (FrontLabel (ClientStep 0 (WsConnection.HandshakeDone success))) s'.
Proof.
  destruct small_groups as (H1 & H2 & H3).
  assert (0 <= 100 < int_max) as Hmost by (by split; [apply Z.leb_le|apply Z.ltb_lt]).
  refine (proj2 (browsers_never_fault 100 Hmost all_answers (fun _ => false) false small_file_read 0
            small_file eq_refl eq_refl H1 H2 H3 small_file_roomy _ _ small_client small_boots small_all _)
            0%nat coming_client _ _ _ _ _ _ _); try done.
  - apply Forall_app. split; [|by repeat constructor].
    apply Forall_fmap, Forall_replicate. by intros t [= <-].
  - eexists. split; [reflexivity|]. simpl. lia.
  - by right; left.
  - by intros [].
Defined.
